(* ===== verification/_CoqProject ===== *)
-Q . S2P
Prelude.v
Doubles.v
F14Chunk.v
PetHashDict.v
PetHashInv.v
PetHashOps.v
PetHashInsert.v
PetHashSpec.v
PetHashValid.v
PetHashReload.v
PetHashStores.v
PetHashCrash.v
PetHashMigration.v
BitMap.v
ShmCommon.v
SimpleMalloc.v
MemoryPool.v
MemoryPoolInv.v
MemoryPoolSpec.v
MemoryPoolRecover.v
MallocApi.v
PoolProps.v
PoolRoom.v
Epoch.v
Recycle.v
PetKV.v
PetKVSpec.v
PetKVProps.v
PetKVCrash.v
PetMultiKVSpec.v
Engines.v
EnginesSpec.v
ShmFile.v
Array.v
Ps.v
Memcached.v
PsSpec.v
PsAllShards.v
LoadDB.v
Dataset.v
DatasetSpec.v
Zipf.v
Persistence.v
PiBench.v
StdKV.v
Timer.v
BenchClient.v
ServerMain.v
KvBench.v
KvBenchRuns.v
PetKVEngine.v
RawMsg.v
Rdma.v
MsgConn.v
Dsm.v
DsmSpec.v
FastWait.v
Keeper.v
Barrier.v
Connect.v
ServerStart.v
BenchRun.v
PmAllocator.v
