(* ===== verification/Prelude.v ===== *)
(** * PetPS: a verification development

    PetPS is a parameter server: server processes keep embedding vectors in
    persistent memory under 64-bit keys, client processes read them in batches
    over RDMA.  The program's own code is under src/src, and the RDMA library it
    uses under src/third_party/Mayfly-main; this library models them bottom up and
    proves what each layer promises to the one above.

    ** The parts and how they interact

    - The index, [PetHash] (pet_kv/pet_hash.h): an open-addressing table of
      chunks of fourteen slots with 8-bit tags and overflow counters, which
      lives in a file and is rebuilt by [Reload] after a restart.
    - The allocators (memory/persist_malloc.h): [PersistMemoryPool], slabs in
      2 MB chunks with a bit map (base/bitmap.h) in each header, recoverable
      from the file; [PersistSimpleMalloc], a bump allocator that wraps.
      Both implement [MallocApi] (memory/malloc.h).
    - Reclamation: [EpochManager] (memory/epoch_manager.h) and the recyclers
      (memory/malloc.h), which delay the release of blocks readers may use.
    - The store (pet_kv/pet_kv.h, pet_kv.cc): [PetKV] ties index, allocator and
      recycler together, with values as packed words (pet_kv/shm_common.h);
      [PetMultiKV] distributes keys over such shards.
    - The engines (kv_engine): [KVEnginePetKV] over [PetMultiKV]; the map, F14,
      Dash, HashEvaluation and fake engines over [PersistSimpleMalloc]; all
      behind [BaseKV].
    - The files (memory/shm_file.h, shm_file.cc): the register center that cuts
      the device into named regions, and [ShmFile].
    - The processes (ps): [XPostoffice], [ShardManager], the server with its
      service threads, the client of one server, the client of all servers.
    - Arrays (base/array.h), the views on byte memory all of them exchange.
    - The start of a server: [main] (ps/petps_server.cc), the factory of the
      engines (base/factory.h), the load of the initial data (ps/load_db.h).
    - The benchmark client (benchmark/benchmark_client_common.h), its data sets
      (benchmark/parse_dataset.h, sample_reader.h, dataset_renumbering.cc,
      dataset_wordcount.cc), the counters and timers (base/timer.h), the
      generator of Zipf-distributed keys (base/zipf.h), and the benchmark of an
      engine without servers (kv_engine/benchmark_kv_engine.cc).
    - Cache flushes (pet_kv/persistence.h), the PiBench wrapper of the index
      (pet_kv/PiBenchWrapper.cc), the store interface with expiry
      (pet_kv/std_kv.h), the allocator over PMDK (kv_engine/pm_allocator.h).
    - The RDMA library (third_party/Mayfly-main): messages and global addresses
      (RawMessageConnection.h, GlobalAddress.h), rings of message slots
      (AbstractMessageConnection.cpp), one-sided operations (rdma/Operation.cpp),
      [DSM] with the connections of its threads (DSM.h, DSM.cpp,
      ThreadConnection.cpp), and the keepers (Keeper.cpp, DSMKeeper.cpp), through
      which processes get node ids, exchange what they need to connect, and wait
      for each other, over memcached.

    ** Files

    - [Prelude]: machine integers, outcomes, tactics, lemmas on lists and bits.
      [Doubles]: binary64, the bounds that rounding respects, scaling by powers
      of two.
    - [F14Chunk], [PetHashDict]: chunks; the methods of [PetHash], one
      definition per method.  [PetHashInv] the invariant, [PetHashOps] and
      [PetHashInsert] what each update does to it, [PetHashSpec] the table as a
      finite map, [PetHashValid] construction and self check,
      [PetHashReload] recovery, [PetHashMigration] the migration of hot keys.
      [PetHashStores] the updates of the index as lists of single stores and
      flushes, [PetHashCrash] what recovery makes of an update cut off after any
      of them.
    - [BitMap]; [ShmCommon] (packed word); [SimpleMalloc]; [MemoryPool] with
      [MemoryPoolInv], [MemoryPoolSpec], [MemoryPoolRecover] and [PoolProps];
      [MallocApi], the interface as the class [MallocApi] and its laws
      [MallocLaws], with the pools as instances; [PoolRoom], how many blocks fit
      (class [MallocRoom]).
    - [Epoch] (operations, and a transition system of threads), [Recycle].
    - [PetKV] (shard and sharded store), [PetKVSpec], [PetKVProps],
      [PetKVCrash] (a store whose process is killed), [PetMultiKVSpec].
    - [Engines] (a module per engine, over the class [IndexApi] of hash tables),
      [EnginesSpec].
    - [ShmFile] (modules [RegisterCenter] and [ShmFile]), [Array], [Ps] (modules
      [Postoffice], [Server], [Client], [AllShards]; class [BaseKV]), [Memcached]
      (the connection of [Postoffice]), [PsSpec]
      (laws [BaseKVLaws] of an engine; one request), [PsAllShards] (a batch over
      all servers).
    - [RawMsg] (modules [GlobalAddress], [Msg]); [Rdma] (work requests; the class
      [RnicLaws] says what the adapter does with them); [MsgConn] (the rings, with
      the adapter that fills them); [Dsm] (threads, RPC calls, one-sided calls, and
      what the server does with an answer); [FastWait] (rpc_fast_wait); [DsmSpec] (a
      request over all of these); [Keeper] (node ids, whom to connect to);
      [Connect] (the exchange of connection data); [Barrier]; [ServerStart] (the
      threads of a server register).
    - [LoadDB], the loading threads; [ServerMain] (modules [Factory] and
      [Main]), the start of a server; [PetKVEngine], KVEnginePetKV as an instance
      of [BaseKVLaws], and a server on it.
    - [Dataset] (a module per reader and tool), [DatasetSpec]; [Zipf] (modules
      [Zipf] and [ZipfianSampleReader]); [BenchClient] (a client thread) and
      [BenchRun] (main of the client with its threads); [KvBench] (main and
      threads of the engine benchmark as a step function, over the class
      [SampleReader]) and [KvBenchRuns] (its runs, over [SampleReaderLaws]);
      [Timer] (modules [PerThreadCounter], [Counters], [PerfCounter], [Timer],
      over the class [Double]).
    - [Persistence] (flush instructions as a trace, and a machine with
      write-back); [PiBench]; [StdKV] (class [DBApi] with its laws);
      [PmAllocator] (over the class [Pmdk] with its laws).

    A method [C::m] is a definition [m] in the module of [C]; the record of a
    module has the members of the class; the doc comment of a definition says
    where it differs.  Where a name is taken in Rocq it has an underscore
    ([Set_]).

    ** Conventions

    Integers are [Z], with the wrap-around of their C++ type written out
    ([u64], [i32], ...).  A function that can die in a CHECK, in LOG(FATAL),
    have undefined behaviour or loop for ever returns an [outcome].  Memory is a
    finite map from addresses to bytes, pointers are addresses or indices.
    Loops are recursive functions on the number of rounds left, or have fuel.
    The fuel is enough by the theorems: probing loops end within the number of
    chunks ([GetInternal_total], [Insert_free]); the spin on a chunk that is
    being migrated is the only one that may not end, and ends when no chunk is
    ([Reload_keeps_migrating] has the other case); [Next2Power] needs 64 rounds;
    polling a word takes the list of memories that the polls see.  A method
    runs alone, as under its lock; interleavings are explicit where the code
    relies on them: epochs ([Epoch.step]), recovery threads
    ([Reload_interleaving]), loading threads ([PreLoadDB_CheckDBLoad]), the
    order of RDMA deliveries ([AllShards_end_to_end]), what other threads
    do between two slots of a client thread ([clientThreadLoop_invariant]),
    the steps of main and the threads of the engine benchmark ([KvBench.run]), of
    the benchmark client ([BenchRun.run]) and of a starting server
    ([ServerStart.run]), the memcached calls of the nodes ([Keeper.run],
    [Connect.run], [Barrier.run]), and arrivals and calls at a completion queue
    ([FastWait.run]).
    A crash is a cut in the list of stores of an operation ([PetHashStores]):
    a kill keeps a prefix of them, a power failure keeps of the unflushed ones
    any part.

    Code that is not in the repository is a parameter: CityHash (any
    function), the tables of folly, Dash and HashEvaluation ([IndexLaws]), PMDK
    ([PmdkLaws]), libibverbs and the adapter ([RnicLaws]), libmemcached, the clock,
    random strings.  In [Ps] and [PsSpec] a handler returns the call of the RDMA
    library it makes, and [copies] says what the call does to the memory of the
    client; [DsmSpec] shows this of the library for an answer in one buffer, and
    shows that it fails for a gather list.  Where the
    code computes with doubles, the definitions use binary64 of the Standard
    Library ([double_div]), or the class [Double] in [Timer].

    ** The theorems

    - Index: every run of [Get], [Set] and [Delete] that fits refines the run on
      a finite map; forced insertion evicts one entry; [Reload] rebuilds the map
      from any image with distinct keys and any counters, for every interleaving
      of its threads; [Valid] accepts what the operations leave.
    - Crashes: the methods are their lists of stores; an insertion cut off
      anywhere is recovered as done or not begun, and as done once its item is
      flushed; a deletion likewise, against kills; [Valid] rejects the images
      inside an insertion; a killed store opens again exactly if no block is
      leaked or queued, and never if it was inside [Update] of a new key.
    - Allocators: a new block overlaps no allocated one; [Free] releases exactly
      its block; opening the file again recovers the blocks; allocation succeeds
      exactly as long as there is room.
    - Reclamation: in every interleaving no object is reclaimed while a thread
      that was protected when it was retired is still protected.
    - Store: [Update] and [Get] refine insertion and lookup in a map from keys
      to byte strings, nothing leaks; a restart keeps the map unless a block has
      leaked by an eviction, in which case the process cannot start; the shards
      together are the disjoint union.
    - Engines: reading refines lookup, inserting a new key refines insertion;
      [Put] of a present key in a map engine is lost.
    - Files: regions are disjoint and found again, within the limits shown.
    - Processes: a GET of a client, answered by a service thread, ends with the
      values in the order of the keys in the client's buffer; the client of all
      servers asks each shard for its keys and puts the answers in order; an
      empty request never finishes; a gathered write is unprotected twice.
    - RDMA library: what is added to a message is what the receiver gets; a vector
      write leaves the concatenation of its buffers, however it is cut into work
      requests; the completions of a thread are seen in their order, with the bytes
      that were sent; a slot of the sending ring is reused only after its send has
      completed.  With these a GET is carried through request, rings, parsing,
      look-up and RDMA write; with the gather list, the default, it is not answered.
    - Start of the cluster: servers get consecutive ids; what nodes learn of each
      other is right, and with one client the exchange can always end, but queue
      pairs of a server can be connected to unset numbers; no node passes a barrier
      before all have arrived, and all can pass, if node 0 takes part and the key is
      new; the ids that a server hands out are polled if main registers last.
    - A batch over all servers: for every order of the deliveries, the query
      says finished exactly when every shard has answered, and then the values
      of all keys are at the destination in their order.
    - Start: for every interleaving of the loading threads the data are loaded
      and the check finds them; a server started so on new PetKV files answers a
      GET of loaded keys with their embeddings, if the keys fit; if there are more
      keys than slabs in the memory that KVEnginePetKV asks for, the load dies.
    - Benchmark client: the loop of a thread never fails, no request is lost or
      registered twice; no step of its main fails, and without cut-off it can
      always end, with one line per second.  Data sets: files are read as they were
      written, arrays are filled with the stream of keys, renumbered files pass
      the check.  Counters: percentiles are nearest ranks of what the rings keep.
    - Zipf generator: the keys of the modes without the approximation are in
      range, and the uniform mode does reach the one behind it.  Engine
      benchmark: its keys are loaded keys; in every run no thread begins before
      all are ready, reads return what was loaded, the printed numbers add up to
      batches that were read, and the end can always be reached; without PMEM no
      engine can be chosen.
    - Flushes make a range durable; the PiBench wrapper refines a finite map.

    Witnesses apply the theorems to concrete tables, pools, stores and servers.

    ** Not modelled

    Logging and printed reports, the class Histogram (which no code uses, and
    whose percentile is not defined); CPU binding; the drivers perf_sgl and
    benchmark_zipf; glue that only calls Dash, pmemkv or dlopen; of the RDMA
    library, the creation of contexts and queue pairs (calls of libibverbs) and what
    the parameter server does not use (directory threads, on-chip memory, persistent
    writes, its own key-value services); other vendored code, glob.h included.
    The range of the approximation in the Zipf generator (theta between 0 and 1)
    is not proved: it manipulates the exponents of doubles, and leaves the range
    for one item ([single_item_out_of_range]).
    Crashes are modelled for the index and the store, at the granularity of
    single stores; the allocator is recovered from its last state. *)

From stdpp Require Import base numbers list gmap fin_maps sorting.
From Stdlib Require Import ZArith Zdivisibility SpecFloat Lia.

#[global] Open Scope Z_scope.

(** ** Machine integers

    A value of a w-bit C++ integer type is a [Z]; every operation of the
    source that can leave the range of its type is followed by one of these
    conversions.  Unsigned types are the residues modulo 2^w, signed types
    the two's-complement representatives. *)

Definition u8 (x : Z) : Z := x mod 2 ^ 8.
Definition u32 (x : Z) : Z := x mod 2 ^ 32.
Definition u64 (x : Z) : Z := x mod 2 ^ 64.
Definition i32 (x : Z) : Z := (x + 2 ^ 31) mod 2 ^ 32 - 2 ^ 31.
Definition i64 (x : Z) : Z := (x + 2 ^ 63) mod 2 ^ 64 - 2 ^ 63.

(** The value [-1] of an unsigned 64-bit type. *)
Definition u64_max : Z := 2 ^ 64 - 1.

(** ** Outcomes

    A run of a function of the source either returns, or ends the process in
    a failed [CHECK] or a [LOG(FATAL)], or has undefined behaviour (a null
    dereference, an access out of bounds, [pop_front] of an empty deque), or
    does not return ([Diverges], also what a loop modelled with fuel gives
    when the fuel is used up). *)
Inductive fault :=
  | CheckFailed
  | LogFatal
  | Undefined
  | Diverges.

Inductive outcome (A : Type) :=
  | Ret (a : A)
  | Err (f : fault).
Arguments Ret {A} _.
Arguments Err {A} _.

#[export] Instance fault_eq_dec : EqDecision fault.
Proof. solve_decision. Defined.

#[export] Instance outcome_ret : MRet outcome := @Ret.
#[export] Instance outcome_bind : MBind outcome := fun A B k m =>
  match m with
  | Ret a => k a
  | Err f => Err f
  end.
#[export] Instance outcome_fmap : FMap outcome := fun A B g m =>
  match m with
  | Ret a => Ret (g a)
  | Err f => Err f
  end.

(** glog's [CHECK]: the process ends when the condition is false. *)
Definition CHECK (b : bool) : outcome unit :=
  if b then Ret tt else Err CheckFailed.

(** The state of a lookup in a container that must have the index. *)
Definition deref {A} (o : option A) : outcome A :=
  match o with
  | Some a => Ret a
  | None => Err Undefined
  end.

Lemma bind_Ret {A B} (m : outcome A) (k : A -> outcome B) b :
  m ≫= k = Ret b <-> exists a, m = Ret a /\ k a = Ret b.
Proof.
  destruct m as [a|f]; simpl; split.
  - eauto.
  - by intros (? & [= <-] & ?).
  - done.
  - by intros (? & ? & ?).
Qed.

Lemma CHECK_Ret b u : CHECK b = Ret u <-> b = true.
Proof. destruct u, b; simpl; split; congruence. Qed.

Lemma deref_Ret {A} (o : option A) a : deref o = Ret a <-> o = Some a.
Proof. destruct o; cbn; split; congruence. Qed.

(** ** Tactics *)

Create HintDb petps discriminated.

(** Invert the equations that say a monadic program returned. *)
Ltac inv_ret :=
  repeat match goal with
  | H : _ ≫= _ = Ret _ |- _ => apply bind_Ret in H; destruct H as (? & ? & ?)
  | H : CHECK _ = Ret _ |- _ => apply CHECK_Ret in H
  | H : Ret _ = Ret _ |- _ => injection H; clear H; intros; subst
  | H : Err _ = Ret _ |- _ => discriminate H
  | H : Ret _ = Err _ |- _ => discriminate H
  end.

(** The lookups of a program that returned. *)
Ltac derefs := repeat match goal with H : deref _ = Ret _ |- _ => apply deref_Ret in H end.

(** [inv_ret] through the pairs that a call has returned. *)
Ltac inv_tuple :=
  inv_ret;
  repeat (match goal with H : (let '(_, _) := ?x in _) = Ret _ |- _ => destruct x end; inv_ret).

(** Evaluate both sides of a closed equation. *)
Ltac by_eval := vm_compute; reflexivity.

(** Turn the boolean tests of the source into arithmetic facts. *)
Ltac b2p :=
  repeat match goal with
  | H : andb _ _ = true |- _ => apply andb_true_iff in H; destruct H
  | H : orb _ _ = false |- _ => apply orb_false_iff in H; destruct H
  | H : negb _ = true |- _ => apply negb_true_iff in H
  | H : negb _ = false |- _ => apply negb_false_iff in H
  | H : (_ =? _)%Z = true |- _ => apply Z.eqb_eq in H
  | H : (_ =? _)%Z = false |- _ => apply Z.eqb_neq in H
  | H : (_ <? _)%Z = true |- _ => apply Z.ltb_lt in H
  | H : (_ <? _)%Z = false |- _ => apply Z.ltb_ge in H
  | H : (_ <=? _)%Z = true |- _ => apply Z.leb_le in H
  | H : (_ <=? _)%Z = false |- _ => apply Z.leb_gt in H
  end.

(** ** Integer and bit lemmas *)

Lemma u8_range x : 0 <= u8 x < 2 ^ 8.
Proof. apply Z.mod_pos_bound. lia. Qed.

Lemma u32_range x : 0 <= u32 x < 2 ^ 32.
Proof. apply Z.mod_pos_bound. lia. Qed.

Lemma u64_range x : 0 <= u64 x < 2 ^ 64.
Proof. apply Z.mod_pos_bound. lia. Qed.

Lemma u8_small x : 0 <= x < 2 ^ 8 -> u8 x = x.
Proof. apply Z.mod_small. Qed.

Lemma u32_small x : 0 <= x < 2 ^ 32 -> u32 x = x.
Proof. apply Z.mod_small. Qed.

Lemma u64_small x : 0 <= x < 2 ^ 64 -> u64 x = x.
Proof. apply Z.mod_small. Qed.

Lemma i32_small x : - 2 ^ 31 <= x < 2 ^ 31 -> i32 x = x.
Proof. intros. unfold i32. rewrite Z.mod_small; lia. Qed.

Lemma i64_small x : - 2 ^ 63 <= x < 2 ^ 63 -> i64 x = x.
Proof. intros. unfold i64. rewrite Z.mod_small; lia. Qed.

#[export] Hint Resolve u8_range u32_range u64_range : petps.

(** Masking with [2^k - 1] is the remainder modulo [2^k]. *)
Lemma land_mask x k : 0 <= k -> Z.land x (2 ^ k - 1) = x mod 2 ^ k.
Proof. intros Hk. by rewrite <- Z.land_ones, Z.ones_equiv, <- Z.sub_1_r. Qed.

Lemma shiftl1_pow2 k : 0 <= k -> Z.shiftl 1 k = 2 ^ k.
Proof. intros. rewrite Z.shiftl_mul_pow2; lia. Qed.

Lemma testbit_above z w i : 0 <= z < 2 ^ w -> w <= i -> Z.testbit z i = false.
Proof.
  intros [Hz Hw] Hi. destruct (decide (0 <= w)).
  - rewrite <- (Z.mod_small z (2 ^ w)) by lia. by apply Z.mod_pow2_bits_high.
  - rewrite Z.pow_neg_r in Hw by lia. lia.
Qed.

(** [__builtin_ctz] and [__builtin_ctzll] (undefined on 0 in C; 0 here). *)
Fixpoint ctz_pos (p : positive) : nat :=
  match p with
  | xO q => S (ctz_pos q)
  | _ => O
  end.

Definition ctz (z : Z) : nat :=
  match z with
  | Zpos p => ctz_pos p
  | _ => O
  end.

Lemma ctz_spec z :
  0 < z -> exists m, 0 <= m /\ z = 2 ^ Z.of_nat (ctz z) * (2 * m + 1).
Proof.
  destruct z as [|p|p]; try lia. intros _. simpl ctz.
  induction p as [p IH|p IH|]; cbn [ctz_pos].
  - exists (Zpos p). simpl Z.of_nat. lia.
  - destruct IH as (m & Hm & IH). exists m. split; [done|].
    rewrite Nat2Z.inj_succ, Z.pow_succ_r by lia. lia.
  - exists 0. simpl Z.of_nat. lia.
Qed.

Lemma ctz_low z i : 0 < z -> (i < ctz z)%nat -> Z.testbit z (Z.of_nat i) = false.
Proof.
  intros Hz Hi. destruct (ctz_spec z Hz) as (m & _ & ->).
  rewrite Z.mul_comm. apply Z.mul_pow2_bits_low. lia.
Qed.

Lemma ctz_bit z : 0 < z -> Z.testbit z (Z.of_nat (ctz z)) = true.
Proof.
  intros Hz. destruct (ctz_spec z Hz) as (m & Hm & E). rewrite E at 1.
  rewrite Z.mul_comm, Z.mul_pow2_bits by lia.
  replace (_ - _) with 0 by lia. apply Z.testbit_odd_0.
Qed.

Lemma ctz_bound z w : 0 < z < 2 ^ Z.of_nat w -> (ctz z < w)%nat.
Proof.
  intros [Hz Hw]. pose proof (ctz_bit z Hz) as Hb.
  destruct (decide (ctz z < w)%nat); [done|].
  rewrite (testbit_above z (Z.of_nat w)) in Hb by lia. done.
Qed.

(** [x & (x - 1)] clears the lowest bit that is set. *)
Lemma land_pred_testbit z i :
  0 < z -> 0 <= i ->
  Z.testbit (Z.land z (z - 1)) i =
  Z.testbit z i && negb (i =? Z.of_nat (ctz z)).
Proof.
  intros Hz Hi. rewrite Z.land_spec.
  destruct (ctz_spec z Hz) as (m & Hm & E).
  destruct (Z.lt_trichotomy i (Z.of_nat (ctz z))) as [Hlt|[->|Hgt]].
  - replace i with (Z.of_nat (Z.to_nat i)) by lia.
    rewrite ctz_low by lia. done.
  - rewrite ctz_bit, Z.eqb_refl by done. simpl.
    apply Z.testbit_false; [lia|].
    replace (z - 1) with (2 ^ Z.of_nat (ctz z) * (2 * m) + (2 ^ Z.of_nat (ctz z) - 1)) by lia.
    rewrite Z.mul_comm, Z.div_add_l, (Z.div_small (_ - 1)) by lia.
    rewrite Z.add_0_r, Z.mul_comm. apply Z.mod_mul. lia.
  - replace (i =? _) with false by (symmetry; apply Z.eqb_neq; lia).
    rewrite andb_true_r. replace i with (Z.succ (i - Z.succ (Z.of_nat (ctz z))) + Z.of_nat (ctz z)) by lia.
    rewrite <- !Z.div_pow2_bits by lia.
    replace ((z - 1) / _) with (2 * m).
    2:{ replace (z - 1) with ((2 * m) * 2 ^ Z.of_nat (ctz z) + (2 ^ Z.of_nat (ctz z) - 1)) by lia.
        rewrite Z.div_add_l, (Z.div_small (_ - 1)) by lia. lia. }
    replace (z / _) with (2 * m + 1).
    2:{ rewrite E at 1. rewrite (Z.mul_comm (2 ^ _)), Z.div_mul by lia. done. }
    rewrite Z.testbit_odd_succ, Z.testbit_even_succ by lia. by destruct (Z.testbit m _).
Qed.

Lemma land_pred_range z w : 0 < z < 2 ^ w -> 0 <= Z.land z (z - 1) < 2 ^ w.
Proof.
  intros Hz. split; [apply Z.land_nonneg; lia|].
  assert (Z.land z (z - 1) <= z); [|lia].
  destruct (Z.eq_dec (Z.land z (z - 1)) 0); [lia|].
  apply Z.ldiff_le; [lia|]. apply Z.bits_inj'. intros i Hi.
  rewrite Z.ldiff_spec, Z.land_spec, Z.bits_0.
  by destruct (Z.testbit z i), (Z.testbit (z - 1) i).
Qed.

(** The positions of the bits that are set below [w], in ascending order. *)
Definition set_bits (w : nat) (z : Z) : list nat :=
  filter (fun i => Z.testbit z (Z.of_nat i) = true) (seq 0 w).

Lemma elem_of_set_bits w z i :
  i ∈ set_bits w z <-> (i < w)%nat /\ Z.testbit z (Z.of_nat i) = true.
Proof. unfold set_bits. rewrite list_elem_of_filter, elem_of_seq. split; intros []; split; (done || lia). Qed.

Lemma set_bits_0 w : set_bits w 0 = [].
Proof.
  unfold set_bits. induction (seq 0 w) as [|x l IH]; [done|].
  rewrite filter_cons_False; [done|]. by rewrite Z.bits_0.
Qed.

Lemma list_filter_ext {A} (P Q : A -> Prop) `{!forall i, Decision (P i)} `{!forall i, Decision (Q i)} (l : list A) :
  (forall x, x ∈ l -> P x <-> Q x) -> filter P l = filter Q l.
Proof.
  induction l as [|x l IH]; intros Hx; [done|]. rewrite !filter_cons, IH by set_solver.
  assert (P x <-> Q x) by set_solver. repeat case_decide; tauto.
Qed.

Lemma list_filter_none {A} (P : A -> Prop) `{!forall i, Decision (P i)} (l : list A) :
  (forall x, x ∈ l -> ~ P x) -> filter P l = [].
Proof.
  induction l as [|x l IH]; intros Hx; [done|].
  rewrite filter_cons_False; [apply IH|]; set_solver.
Qed.

Lemma list_filter_all {A} (P : A -> Prop) `{!forall i, Decision (P i)} (l : list A) :
  (forall x, x ∈ l -> P x) -> filter P l = l.
Proof.
  induction l as [|x l IH]; intros Hx; [done|].
  rewrite filter_cons_True by set_solver. f_equal. apply IH. set_solver.
Qed.

(** Two predicates that differ at one element of a list without duplicates. *)
Lemma filter_flip {A} (P Q : A -> Prop) `{!forall i, Decision (P i)} `{!forall i, Decision (Q i)} `{Hdec : EqDecision A} (l : list A) p :
  NoDup l -> p ∈ l -> Q p -> ~ P p -> (forall x, x <> p -> x ∈ l -> P x <-> Q x) ->
  filter Q l ≡ₚ p :: filter P l.
Proof.
  intros Hn Hp HQ HP Hx. apply NoDup_Permutation.
  - by apply NoDup_filter.
  - apply NoDup_cons. split; [rewrite list_elem_of_filter; by intros []|by apply NoDup_filter].
  - intros x. rewrite elem_of_cons, !list_elem_of_filter.
    split.
    + intros [HQx Hin]. destruct (decide (P x)) as [HPx|HPx]; [by right|left].
      destruct (Hdec x p) as [|Hne]; [done|]. by apply (Hx x Hne Hin) in HQx.
    + intros [->|[HPx Hin]]; [done|]. split; [|done]. apply Hx; [congruence|done|done].
Qed.

Lemma filter_seq_first (P Q : nat -> Prop) `{!forall i, Decision (P i)} `{!forall i, Decision (Q i)} w c :
  (c < w)%nat -> P c -> (forall i, (i < c)%nat -> ~ P i) ->
  (forall i, Q i <-> P i /\ i <> c) ->
  filter P (seq 0 w) = c :: filter Q (seq 0 w).
Proof.
  intros Hc HP Hlow HQ.
  assert (Hnil : forall R : nat -> Prop, forall `{!forall i, Decision (R i)},
    (forall i, (i < c)%nat -> ~ R i) -> filter R (seq 0 c) = []).
  { intros R ? HR. apply list_filter_none. intros i Hi.
    apply elem_of_seq in Hi. apply HR. lia. }
  replace w with (c + S (w - S c))%nat by lia.
  rewrite seq_app, !filter_app, !Hnil by naive_solver. simpl.
  rewrite filter_cons_True, filter_cons_False by naive_solver. f_equal.
  apply list_filter_ext. intros i Hi. apply elem_of_seq in Hi.
  rewrite HQ. naive_solver lia.
Qed.

Lemma set_bits_pop w z :
  0 < z < 2 ^ Z.of_nat w ->
  set_bits w z = ctz z :: set_bits w (Z.land z (z - 1)).
Proof.
  intros Hz. unfold set_bits. apply filter_seq_first.
  - by apply ctz_bound.
  - apply ctz_bit. lia.
  - intros i Hi. rewrite ctz_low by lia. done.
  - intros i. rewrite land_pred_testbit, andb_true_iff, negb_true_iff, Z.eqb_neq by lia.
    by rewrite Nat2Z.inj_iff.
Qed.

Lemma odd_coprime k s : 0 <= k -> Z.odd s = true -> Z.coprime s (2 ^ k).
Proof.
  intros Hk Hs. apply Z.coprime_pow_r; [done|]. symmetry. apply Z.coprime_prime_l; [apply Z.prime_2|].
  intros Hd. apply Z.mod0_divide in Hd. rewrite Zmod_odd, Hs in Hd. done.
Qed.

(** An odd step modulo a power of two visits every residue: the probe
    sequence of an open-addressing table with [2^k] buckets is exhaustive. *)
Lemma odd_step_surj k h s c :
  0 <= k -> Z.odd s = true -> 0 <= c < 2 ^ k ->
  exists n, 0 <= n < 2 ^ k /\ (h + n * s) mod 2 ^ k = c.
Proof.
  intros Hk Hs Hc.
  pose proof (odd_coprime k s Hk Hs) as Hrp.
  destruct (Z.Bezout_coprime _ _ Hrp) as (u & v & Huv).
  exists (((c - h) * u) mod 2 ^ k). split; [apply Z.mod_pos_bound; lia|].
  rewrite <- Z.add_mod_idemp_r, Z.mul_mod_idemp_l, Z.add_mod_idemp_r by lia.
  replace (h + (c - h) * u * s) with (c + (- (c - h) * v) * 2 ^ k).
  - rewrite Z.mod_add by lia. by apply Z.mod_small.
  - replace ((c - h) * u * s) with ((c - h) * (u * s)) by lia.
    replace (u * s) with (1 - v * 2 ^ k) by lia. lia.
Qed.

(** ** List lemmas *)

Lemma omap_insert_perm {A B} (f : A -> option B) (l : list A) i x y :
  l !! i = Some y ->
  option_list (f y) ++ omap f (<[i := x]> l) ≡ₚ option_list (f x) ++ omap f l.
Proof.
  intros Hy. pose proof (lookup_lt_Some _ _ _ Hy).
  rewrite insert_take_drop by done. rewrite <- (take_drop_middle l i y) at 3 by done.
  rewrite !omap_app. simpl.
  destruct (f x), (f y); simpl; rewrite <- ?Permutation_middle; auto using Permutation_swap.
Qed.

Lemma omap_length_full {A B} (f : A -> option B) (l : list A) :
  (forall x, x ∈ l -> is_Some (f x)) -> length (omap f l) = length l.
Proof.
  induction l as [|x l IH]; intros Hf; [done|]. simpl.
  destruct (Hf x) as [b ->]; [set_solver|]. simpl. f_equal. apply IH. set_solver.
Qed.

Lemma omap_length_le {A B} (f : A -> option B) (l : list A) :
  (length (omap f l) <= length l)%nat.
Proof. induction l as [|x l IH]; simpl; [done|]. destruct (f x); simpl; unfold omap in *; lia. Qed.

Lemma list_alter_as_insert {A} (f : A -> A) (l : list A) i x :
  l !! i = Some x -> alter f i l = <[i := f x]> l.
Proof.
  intros Hx. rewrite list_insert_alter.
  apply list_alter_ext; [|done]. intros y Hy. by simplify_eq.
Qed.

(** ** IEEE-754 doubles

    The few floating-point computations of the modelled code use Rocq's
    executable specification of binary64 (no axiom is involved). *)

Definition double_of_Z (z : Z) : spec_float := binary_normalize 53 1024 z 0 false.

Definition double_div (x y : spec_float) : spec_float := SFdiv 53 1024 x y.

(** Conversion of a double to [uint64_t]: truncation; out of range it is
    undefined. *)
Definition u64_of_double (x : spec_float) : outcome Z :=
  match x with
  | S754_zero _ => Ret 0
  | S754_finite s m e =>
      let a := if 0 <=? e then Z.shiftl (Zpos m) e else Z.shiftr (Zpos m) (- e) in
      if s then (if a =? 0 then Ret 0 else Err Undefined)
      else if a <? 2 ^ 64 then Ret a else Err Undefined
  | _ => Err Undefined
  end.

(** ** Occurrences in a list of positions *)

Definition occ (x : Z) (l : list Z) : Z := Z.of_nat (count_occ Z.eq_dec l x).

Lemma occ_nonneg x l : 0 <= occ x l.
Proof. unfold occ. lia. Qed.

Lemma occ_nil x : occ x [] = 0.
Proof. done. Qed.

Lemma occ_cons x y l : occ x (y :: l) = (if decide (x = y) then 1 else 0) + occ x l.
Proof.
  unfold occ. simpl. destruct (Z.eq_dec y x), (decide (x = y)); subst; lia || done.
Qed.

Lemma occ_app x l1 l2 : occ x (l1 ++ l2) = occ x l1 + occ x l2.
Proof. unfold occ. rewrite count_occ_app. lia. Qed.

Lemma occ_perm x l1 l2 : l1 ≡ₚ l2 -> occ x l1 = occ x l2.
Proof.
  intros Hp. unfold occ. f_equal. by apply (Permutation_count_occ Z.eq_dec).
Qed.

#[export] Instance occ_proper : Proper ((=) ==> (≡ₚ) ==> (=)) occ.
Proof. intros x ? <- l1 l2 Hp. by apply occ_perm. Qed.

Lemma occ_pos x l : x ∈ l -> 0 < occ x l.
Proof.
  intros Hin. unfold occ. apply list_elem_of_In, (count_occ_In Z.eq_dec) in Hin. lia.
Qed.

Lemma occ_length x l : occ x l <= Z.of_nat (length l).
Proof. unfold occ. pose proof (count_occ_bound Z.eq_dec x l). lia. Qed.

Lemma occ_prefix x l1 l2 : l1 `prefix_of` l2 -> occ x l1 <= occ x l2.
Proof. intros [k ->]. rewrite occ_app. pose proof (occ_nonneg x k). lia. Qed.

(** The sum of [f] over a list. *)
Definition sumZ {A} (f : A -> Z) (l : list A) : Z := foldr (fun a n => f a + n) 0 l.

Lemma sumZ_insert {A} (f : A -> Z) (l : list A) i x y :
  l !! i = Some x -> sumZ f (<[i := y]> l) = sumZ f l - f x + f y.
Proof.
  revert i. induction l as [|a l IH]; intros [|i] H; simplify_eq/=; [lia|]. rewrite (IH i H). lia.
Qed.

Lemma sumZ_nonneg {A} (f : A -> Z) (l : list A) : (forall a, a ∈ l -> 0 <= f a) -> 0 <= sumZ f l.
Proof.
  induction l as [|a l IH]; intros H; cbn; [lia|].
  assert (0 <= f a) by (apply H; by left). assert (0 <= sumZ f l) by (apply IH; intros; apply H; by right).
  unfold sumZ in *. lia.
Qed.

Lemma sumZ_app {A} (f : A -> Z) (l1 l2 : list A) : sumZ f (l1 ++ l2) = sumZ f l1 + sumZ f l2.
Proof. unfold sumZ. induction l1 as [|a l1 IH]; cbn [app foldr]; lia. Qed.

Lemma sumZ_lookup {A} (f : A -> Z) (l : list A) i x :
  (forall a, a ∈ l -> 0 <= f a) -> l !! i = Some x -> f x <= sumZ f l.
Proof.
  intros Hl Hi. rewrite <- (take_drop_middle l i x Hi) in Hl |- *. rewrite sumZ_app. cbn [sumZ foldr].
  assert (0 <= sumZ f (take i l)) by (apply sumZ_nonneg; set_solver).
  assert (0 <= sumZ f (drop (S i) l)) by (apply sumZ_nonneg; set_solver). unfold sumZ in *. lia.
Qed.

Lemma sumZ_const {A} (f : A -> Z) (l : list A) c : (forall a, a ∈ l -> f a = c) -> sumZ f l = Z.of_nat (length l) * c.
Proof.
  induction l as [|a l IH]; intros H; cbn [sumZ foldr length]; [lia|]. fold (sumZ f l).
  rewrite (H a) by by left. rewrite IH by (intros; apply H; by right). lia.
Qed.

Lemma sumZ_le {A} (f : A -> Z) (l : list A) c : (forall a, a ∈ l -> f a <= c) -> sumZ f l <= Z.of_nat (length l) * c.
Proof.
  induction l as [|a l IH]; intros H; cbn [sumZ foldr length]; [lia|]. fold (sumZ f l).
  assert (f a <= c) by (apply H; by left). assert (sumZ f l <= Z.of_nat (length l) * c) by (apply IH; intros; apply H; by right). lia.
Qed.

Lemma sumZ_add {A} (f g : A -> Z) (l : list A) : sumZ (fun a => f a + g a) l = sumZ f l + sumZ g l.
Proof. induction l as [|a l IH]; cbn [sumZ foldr]; [done|]. fold (sumZ f l) (sumZ g l) (sumZ (fun a => f a + g a) l). lia. Qed.

Lemma sumZ_single (l : list Z) x : NoDup l -> x ∈ l -> sumZ (fun i => if decide (i = x) then 1 else 0) l = 1.
Proof.
  induction 1 as [|a l Ha Hnd IH]; intros Hx; [by apply elem_of_nil in Hx|].
  cbn [sumZ foldr]. fold (sumZ (fun i => if decide (i = x) then 1 else 0) l).
  apply elem_of_cons in Hx as [->|Hx].
  - rewrite decide_True by done. rewrite (sumZ_const _ _ 0); [lia|]. intros b Hb. rewrite decide_False; [done|]. by intros ->.
  - rewrite IH by done. rewrite decide_False; [lia|]. by intros ->.
Qed.

(** The occurrences of all values of a list add up to its length. *)
Lemma occ_total n (l : list Z) :
  Forall (fun x => 0 <= x < n) l -> sumZ (fun i => occ i l) (seqZ 0 n) = Z.of_nat (length l).
Proof.
  induction 1 as [|x l Hx _ IH].
  - rewrite (sumZ_const _ _ 0); [cbn; lia|]. intros i _. apply occ_nil.
  - transitivity (sumZ (fun i => (if decide (i = x) then 1 else 0) + occ i l) (seqZ 0 n)).
    { unfold sumZ. apply foldr_ext; [|done..]. intros i z. by rewrite occ_cons. }
    rewrite sumZ_add, IH, sumZ_single; [cbn [length]; lia|apply NoDup_seqZ|apply elem_of_seqZ; lia].
Qed.

Lemma list_alter_comm {A} (f g : A -> A) (l : list A) i j :
  i <> j -> alter f i (alter g j l) = alter g j (alter f i l).
Proof.
  revert i j. induction l as [|x l IH]; intros i j Hne; [by destruct i, j|].
  destruct i as [|i], j as [|j]; try done. cbn [alter list_alter]. f_equal. apply IH. congruence.
Qed.

(** ** Lists of lists *)

Lemma concat_insert_perm {A} (ls : list (list A)) i l :
  ls !! i = Some l ->
  exists rest, concat ls ≡ₚ l ++ rest /\ forall l', concat (<[i := l']> ls) ≡ₚ l' ++ rest.
Proof.
  intros Hl. pose proof (lookup_lt_Some _ _ _ Hl).
  exists (concat (take i ls) ++ concat (drop (S i) ls)).
  assert (Hsw : forall l', concat (take i ls) ++ l' ++ concat (drop (S i) ls) ≡ₚ
    l' ++ concat (take i ls) ++ concat (drop (S i) ls)).
  { intros l'. rewrite !app_assoc. f_equiv. apply Permutation_app_comm. }
  split.
  - rewrite <- (take_drop_middle ls i l) at 1 by done. rewrite concat_app. simpl. apply Hsw.
  - intros l'. rewrite insert_take_drop by done. rewrite concat_app. simpl. apply Hsw.
Qed.

Lemma elem_of_concat {A} (ls : list (list A)) x :
  x ∈ concat ls <-> exists i l, ls !! i = Some l /\ x ∈ l.
Proof.
  induction ls as [|l0 ls IH]; simpl.
  - split; [by intros ?%not_elem_of_nil|]. intros (i & l & Hl & _). done.
  - rewrite elem_of_app, IH. split.
    + intros [Hx|(i & l & Hl & Hx)]; [by exists O, l0|by exists (S i), l].
    + intros ([|i] & l & Hl & Hx); simpl in Hl; simplify_eq; [by left|right; eauto].
Qed.

Lemma NoDup_concat_lookup {A} (ls : list (list A)) i j li lj x :
  NoDup (concat ls) -> ls !! i = Some li -> ls !! j = Some lj -> x ∈ li -> x ∈ lj -> i = j.
Proof.
  revert i j. induction ls as [|l0 ls IH]; intros i j Hn Hi Hj Hx Hx'; [done|].
  simpl in Hn. apply NoDup_app in Hn as (_ & Hd & Hn).
  destruct i as [|i], j as [|j]; simpl in *; simplify_eq; [done|..].
  - exfalso. apply (Hd x Hx), elem_of_concat. eauto.
  - exfalso. apply (Hd x Hx'), elem_of_concat. eauto.
  - f_equal. eauto.
Qed.

Lemma imap_insert {A B} (f : nat -> A -> B) (l : list A) i x :
  imap f (<[i := x]> l) = <[i := f i x]> (imap f l).
Proof.
  apply list_eq. intros j. rewrite list_lookup_imap, !list_lookup_insert, length_imap.
  case_decide; [naive_solver|]. by rewrite list_lookup_imap.
Qed.

Lemma concat_length_full {A} (ls : list (list A)) n :
  (forall l, l ∈ ls -> length l = n) -> length (concat ls) = (length ls * n)%nat.
Proof.
  induction ls as [|l ls IH]; intros Hl; [done|]. simpl. rewrite length_app, IH by set_solver.
  rewrite (Hl l) by set_solver. done.
Qed.

Lemma concat_length_le {A} (ls : list (list A)) n :
  (forall l, l ∈ ls -> (length l <= n)%nat) -> (length (concat ls) <= length ls * n)%nat.
Proof.
  induction ls as [|l ls IH]; intros Hl; [done|]. cbn [concat length]. rewrite length_app.
  assert (length l <= n)%nat by (apply Hl; set_solver).
  assert (length (concat ls) <= length ls * n)%nat by (apply IH; set_solver). lia.
Qed.

Lemma concat_lookup_uniform {A} (ls : list (list A)) n i j :
  (forall l, l ∈ ls -> length l = n) -> (j < n)%nat ->
  concat ls !! (i * n + j)%nat = (ls !! i) ≫= (fun l => l !! j).
Proof.
  revert i. induction ls as [|l ls IH]; intros i Hl Hj; [done|].
  assert (Hln : length l = n) by (apply Hl; set_solver). cbn [concat].
  destruct i as [|i].
  - rewrite lookup_app_l by lia. done.
  - rewrite lookup_app_r by lia. cbn [lookup list_lookup].
    rewrite <- IH by (set_solver || done). f_equal. lia.
Qed.

Lemma NoDup_concat_intro {A} (ls : list (list A)) :
  (forall i l, ls !! i = Some l -> NoDup l) ->
  (forall i j l l' x, ls !! i = Some l -> ls !! j = Some l' -> x ∈ l -> x ∈ l' -> i = j) ->
  NoDup (concat ls).
Proof.
  induction ls as [|l ls IH]; intros Hn Hd; [constructor|]. cbn [concat]. apply NoDup_app. split_and!.
  - by apply (Hn 0%nat).
  - intros x Hx Hin. apply elem_of_concat in Hin as (j & l' & Hj & Hx').
    by specialize (Hd 0%nat (S j) l l' x eq_refl Hj Hx Hx').
  - apply IH; [intros i l' Hi; by apply (Hn (S i))|].
    intros i j l1 l2 x H1 H2 Hx Hx'. specialize (Hd (S i) (S j) l1 l2 x H1 H2 Hx Hx'). lia.
Qed.

Lemma fmap_concat {A B} (f : A -> B) (ls : list (list A)) : f <$> concat ls = concat (fmap (M := list) f <$> ls).
Proof. induction ls as [|l ls IH]; [done|]. cbn [concat]. by rewrite fmap_app, IH. Qed.

Lemma concat_fmap_nil {A B} (f : A -> list B) (l : list A) :
  (forall x, x ∈ l -> f x = []) -> concat (f <$> l) = [].
Proof.
  induction l as [|x l IH]; intros Hf; [done|]. rewrite fmap_cons. cbn [concat].
  rewrite Hf by set_solver. apply IH. set_solver.
Qed.

(** The number of elements that are not zero. *)
Definition nonzeros (l : list Z) : nat := length (filter (fun x => x <> 0) l).

Lemma nonzeros_cons x l : nonzeros (x :: l) = ((if decide (x = 0)%Z then 0 else 1) + nonzeros l)%nat.
Proof. unfold nonzeros. rewrite filter_cons. destruct (decide (x = 0)), (decide (x <> 0)); done. Qed.

Lemma nonzeros_app l1 l2 : nonzeros (l1 ++ l2) = (nonzeros l1 + nonzeros l2)%nat.
Proof. unfold nonzeros. by rewrite filter_app, length_app. Qed.

(** ** Ranges and interleavings *)

Lemma seqZ_app' (a b c : Z) : 0 <= b -> 0 <= c -> seqZ a (b + c) = seqZ a b ++ seqZ (a + b) c.
Proof. intros. by apply seqZ_app. Qed.

(** A run of several threads, one step of thread [i] at a time. *)
Inductive interleaving {A} : list (list A) -> list A -> Prop :=
  | il_done ls : Forall (fun l => l = []) ls -> interleaving ls []
  | il_step ls i x l rest :
      ls !! i = Some (x :: l) -> interleaving (<[i := l]> ls) rest -> interleaving ls (x :: rest).

Lemma interleaving_single {A} (l : list A) : interleaving [l] l.
Proof. induction l as [|x l IH]; [by repeat constructor|]. by apply (il_step _ 0 x l). Qed.

Lemma interleaving_perm {A} (ls : list (list A)) l : interleaving ls l -> l ≡ₚ concat ls.
Proof.
  induction 1 as [ls Hn|ls i x l rest Hi _ IH].
  - induction Hn as [|l ls -> _ IH]; done.
  - destruct (concat_insert_perm ls i _ Hi) as (r & H1 & H2). by rewrite IH, H1, H2.
Qed.
