(* ===== verification/Doubles.v ===== *)
(** * Doubles

    The operations on binary64 that the Zipf generator uses, on the executable
    specification of the Standard Library, their object representation, and
    the bounds that rounding respects: an operation whose exact result is between
    two integers gives a double between them. *)

From stdpp Require Import base numbers list.
From Stdlib Require Import ZArith Lia SpecFloat.
From S2P Require Import Prelude.

(** ** Doubles *)

Definition double_add (x y : spec_float) : spec_float := SFadd 53 1024 x y.
Definition double_sub (x y : spec_float) : spec_float := SFsub 53 1024 x y.
Definition double_mul (x y : spec_float) : spec_float := SFmul 53 1024 x y.

(** Conversion to [int]: truncation; out of range it is undefined. *)
Definition int_of_double (x : spec_float) : outcome Z :=
  match x with
  | S754_zero _ => Ret 0
  | S754_finite s m e =>
      let a := if 0 <=? e then Z.shiftl (Zpos m) e else Z.shiftr (Zpos m) (- e) in
      let v := if s then - a else a in
      if (- 2 ^ 31 <=? v) && (v <? 2 ^ 31) then Ret v else Err Undefined
  | _ => Err Undefined
  end.

(** The object representation of a double, as in
    [union { double d; int x[2]; }]. *)
Definition bits_of_double (x : spec_float) : Z :=
  match x with
  | S754_zero s => if s then 2 ^ 63 else 0
  | S754_infinity s => (if s then 2 ^ 63 else 0) + 2047 * 2 ^ 52
  | S754_nan => 2047 * 2 ^ 52 + 2 ^ 51
  | S754_finite s m e =>
      (if s then 2 ^ 63 else 0) +
      (if Zpos m <? 2 ^ 52 then Zpos m else (e + 1075) * 2 ^ 52 + (Zpos m - 2 ^ 52))
  end.

Definition double_of_bits (b : Z) : spec_float :=
  let s := Z.testbit b 63 in
  let e := Z.land (Z.shiftr b 52) 2047 in
  let f := Z.land b (2 ^ 52 - 1) in
  if e =? 0 then match f with Zpos m => S754_finite s m (-1074) | _ => S754_zero s end
  else if e =? 2047 then (if f =? 0 then S754_infinity s else S754_nan)
  else match f + 2 ^ 52 with Zpos m => S754_finite s m (e - 1075) | _ => S754_nan end.

(** ** Rounding does not pass an integer *)

(** [x] is in [L, B]. *)
Definition inside (L B : Z) (x : spec_float) : Prop :=
  match x with
  | S754_zero s => s = false /\ L <= 0
  | S754_finite s m e => s = false /\ e <= 0 /\ L * 2 ^ (- e) <= Zpos m <= B * 2 ^ (- e)
  | _ => False
  end.

Lemma inside_weaken L B x : 0 <= L -> inside L B x -> inside 0 B x.
Proof.
  destruct x as [s|s| |s m e]; cbn; [naive_solver lia|done|done|]. intros HL (-> & ? & ?).
  split_and!; try done; lia.
Qed.

Lemma u64_inside L B x :
  0 <= L -> B < 2 ^ 64 -> 0 <= B -> inside L B x -> exists v, u64_of_double x = Ret v /\ L <= v <= B.
Proof.
  intros HL HB HB0 Hx. destruct x as [s|s| |s m e]; cbn in Hx; try done; [exists 0; cbn; split; [done|lia]|].
  destruct Hx as (-> & He & Hm). unfold u64_of_double.
  set (a := if 0 <=? e then _ else _).
  assert (Ha : L <= a <= B).
  { unfold a. destruct (0 <=? e) eqn:E; b2p.
    - assert (e = 0) as -> by lia. rewrite Z.shiftl_0_r. change (2 ^ (-0)) with 1 in Hm. lia.
    - rewrite Z.shiftr_div_pow2 by lia. assert (0 < 2 ^ (- e)) by (apply Z.pow_pos_nonneg; lia). split.
      + apply Z.div_le_lower_bound; lia.
      + apply Z.div_le_upper_bound; lia. }
  exists a. rewrite (proj2 (Z.ltb_lt _ _)) by lia. done.
Qed.

(** The invariant of the shift: the bits behind the mantissa are not counted,
    and if there are any the bound is not reached. *)
Definition under (L B : Z) (mrs : shr_record) (e : Z) : Prop :=
  (0 <= shr_m mrs /\ L * 2 ^ (- e) <= shr_m mrs <= B * 2 ^ (- e)) /\
  (shr_r mrs || shr_s mrs = true -> shr_m mrs < B * 2 ^ (- e)).

Lemma under_exact L B m e :
  0 <= L -> L * 2 ^ (- e) <= m <= B * 2 ^ (- e) -> under L B (shr_record_of_loc m loc_Exact) e.
Proof.
  intros HL Hm. split; cbn; [|done]. split; [|done].
  assert (0 <= L * 2 ^ (- e)) by (apply Z.mul_nonneg_nonneg; [done|apply Z.pow_nonneg; lia]). lia.
Qed.

Lemma shr_1_under L B mrs e : e < 0 -> under L B mrs e -> under L B (shr_1 mrs) (e + 1).
Proof.
  intros He [Hm Hs]. destruct mrs as [m r s]. cbn [shr_m shr_r shr_s] in *.
  assert (E : 2 ^ (- e) = 2 * 2 ^ (- (e + 1))) by (rewrite <- Z.pow_succ_r by lia; f_equal; lia).
  rewrite E in Hm, Hs. unfold under. set (C := 2 ^ (- (e + 1))) in *.
  assert (HB : B * (2 * C) = 2 * (B * C)) by lia. assert (HL : L * (2 * C) = 2 * (L * C)) by lia.
  rewrite HB in Hm, Hs. rewrite HL in Hm. clear HB HL E. clearbody C.
  generalize dependent (B * C). generalize dependent (L * C). intros L' B' Hm Hs.
  destruct m as [|[p|p|]|p]; cbn [shr_1 shr_m shr_r shr_s]; split; try lia; intros H;
    try (specialize (Hs H)); try lia; destruct r, s; cbn in *; try done; specialize (Hs eq_refl); lia.
Qed.

Lemma iter_under L B p mrs e :
  e + Zpos p <= 0 -> under L B mrs e -> under L B (iter_pos shr_1 p mrs) (e + Zpos p).
Proof.
  revert mrs e. induction p as [p IH|p IH|]; intros mrs e He Hu; cbn [iter_pos].
  - replace (e + Zpos p~1) with (e + 1 + Zpos p + Zpos p) by lia.
    apply IH; [lia|]. apply IH; [lia|]. apply shr_1_under; [lia|done].
  - replace (e + Zpos p~0) with (e + Zpos p + Zpos p) by lia. apply IH; [lia|]. by apply IH; [lia|].
  - apply shr_1_under; [lia|done].
Qed.

Lemma digits_bound m k : 0 <= k -> 0 <= m < 2 ^ k -> 0 <= Zdigits2 m <= k.
Proof.
  intros Hk Hm. destruct m as [|p|p]; cbn [Zdigits2]; [lia| |lia].
  assert (E : digits2_pos p = Pos.size p) by (clear; induction p; cbn; congruence).
  rewrite E. split; [lia|]. pose proof (Pos.size_le p) as Hs.
  assert (2 ^ Zpos (Pos.size p) <= 2 * Zpos p) by (change (2 * Zpos p) with (Zpos p~0); rewrite <- Pos2Z.inj_pow; lia).
  destruct (Z.le_gt_cases (Zpos (Pos.size p)) k) as [|Hlt]; [done|].
  assert (2 ^ (k + 1) <= 2 ^ Zpos (Pos.size p)) by (apply Z.pow_le_mono_r; lia).
  rewrite Z.pow_add_r in * by lia. lia.
Qed.

Lemma shr_fexp_under L B m e l :
  0 <= B < 2 ^ 53 -> e <= 0 -> under L B (shr_record_of_loc m l) e ->
  let r := shr_fexp 53 1024 m e l in under L B r.1 r.2 /\ r.2 <= 0.
Proof.
  intros HB He Hu. cbn zeta. unfold shr_fexp, shr.
  assert (Hm : shr_m (shr_record_of_loc m l) = m) by (by destruct l as [|[]]).
  pose proof (proj1 Hu) as Hmb. rewrite Hm in Hmb.
  assert (Hd : Zdigits2 m + e <= 53).
  { assert (0 <= Zdigits2 m <= 53 - e); [|lia]. apply digits_bound; [lia|]. split; [lia|].
    eapply Z.le_lt_trans; [apply Hmb|]. replace (53 - e) with (53 + - e) by lia. rewrite Z.pow_add_r by lia.
    apply Z.mul_lt_mono_pos_r; [apply Z.pow_pos_nonneg; lia|lia]. }
  unfold fexp, emin. destruct (Z.max _ _ - e) as [|p|p] eqn:E; cbn [fst snd]; [done| |done].
  split; [|lia]. apply iter_under; [lia|done].
Qed.

Lemma round_under L B mrs e :
  under L B mrs e ->
  under L B (shr_record_of_loc (round_nearest_even (shr_m mrs) (loc_of_shr_record mrs)) loc_Exact) e.
Proof.
  intros [Hm Hs]. destruct mrs as [m r s]. unfold under. cbn [shr_m shr_r shr_s] in *.
  destruct r, s; cbn; cbn in Hs; try (specialize (Hs eq_refl)); try destruct (Z.even m); split; try lia; done.
Qed.

Lemma binary_round_inside L B mx ex lx :
  0 <= B < 2 ^ 53 -> ex <= 0 -> under L B (shr_record_of_loc mx lx) ex ->
  inside L B (binary_round_aux 53 1024 false mx ex lx).
Proof.
  intros HB He Hu. unfold binary_round_aux.
  pose proof (shr_fexp_under L B mx ex lx HB He Hu) as H1. destruct (shr_fexp 53 1024 mx ex lx) as [mrs e'].
  cbn in H1. destruct H1 as [H1 He']. apply round_under in H1.
  pose proof (shr_fexp_under L B _ _ loc_Exact HB He' H1) as H2.
  destruct (shr_fexp 53 1024 _ e' loc_Exact) as [mrs2 e2]. cbn in H2. destruct H2 as [[[H0 H2] _] He2].
  destruct (shr_m mrs2) as [|m|m]; [|cbn [Z.sub]; rewrite (proj2 (Z.leb_le _ _)) by lia; cbn; done|lia].
  cbn. split; [done|]. assert (0 < 2 ^ (- e2)) by (apply Z.pow_pos_nonneg; lia). nia.
Qed.

Lemma mul_inside L L' B x y :
  0 <= L -> 0 <= L' -> 0 <= B < 2 ^ 53 -> inside L B x -> inside L' 1 y -> inside (L * L') B (double_mul x y).
Proof.
  intros HL HL' HB Hx Hy. unfold double_mul, SFmul.
  destruct x as [sx|sx| |sx mx ex], y as [sy|sy| |sy my ey]; cbn in Hx, Hy; try done.
  1-3: destruct Hx as (-> & Hx), Hy as (-> & Hy); cbn; (split; [done|nia]).
  destruct Hx as (-> & Hex & Hmx), Hy as (-> & Hey & Hmy). apply binary_round_inside; [done|lia|].
  apply under_exact; [by apply Z.mul_nonneg_nonneg|].
  rewrite Pos2Z.inj_mul. replace (- (ex + ey)) with (- ex + - ey) by lia. rewrite Z.pow_add_r by lia.
  assert (0 < 2 ^ (- ex)) by (apply Z.pow_pos_nonneg; lia).
  assert (0 < 2 ^ (- ey)) by (apply Z.pow_pos_nonneg; lia).
  set (P := 2 ^ (- ex)) in *. set (Q := 2 ^ (- ey)) in *. split.
  - replace (L * L' * (P * Q)) with (L * P * (L' * Q)) by lia. apply Z.mul_le_mono_nonneg; try lia;
      apply Z.mul_nonneg_nonneg; lia.
  - replace (B * (P * Q)) with (B * P * (1 * Q)) by lia. apply Z.mul_le_mono_nonneg; lia.
Qed.

Lemma iter_xO m d : Zpos (Pos.iter xO m d) = Zpos m * 2 ^ Zpos d.
Proof.
  induction d as [|d IH] using Pos.peano_ind; [cbn; lia|].
  rewrite Pos.iter_succ, Pos2Z.inj_succ, Z.pow_succ_r by lia.
  change (Zpos (Pos.iter xO m d)~0) with (2 * Zpos (Pos.iter xO m d)). rewrite IH. lia.
Qed.

(** Integers below [2^53] are exact. *)
Lemma double_of_Z_inside z : 0 <= z < 2 ^ 53 -> inside z z (double_of_Z z).
Proof.
  intros Hz. unfold double_of_Z, binary_normalize. destruct z as [|m|m]; [done| |lia].
  unfold binary_round. pose proof (digits_bound (Zpos m) 53 ltac:(lia) ltac:(lia)) as Hd. cbn [Zdigits2] in Hd.
  set (ex' := fexp _ _ _).
  assert (Hex : ex' <= 0) by (unfold ex', fexp, emin; lia).
  unfold shl_align. rewrite Z.sub_0_r. destruct ex' as [|p|p] eqn:E; [|lia|];
    (apply binary_round_inside; [lia|lia|]; apply under_exact; [lia|]).
  - change (2 ^ (-0)) with 1. lia.
  - rewrite iter_xO. change (- Zneg p) with (Zpos p). lia.
Qed.

(** Division by [2^48 - 1], the scale of the random numbers. *)
Lemma div_inside L x :
  0 <= L -> inside L (2 ^ 48 - 1) x -> inside 0 1 (double_div x (double_of_Z (2 ^ 48 - 1))).
Proof.
  replace (double_of_Z (2 ^ 48 - 1)) with (S754_finite false 9007199254740960 (-5)) by by_eval.
  intros HL Hx. apply inside_weaken in Hx; [|done]. unfold double_div, SFdiv. destruct x as [sx|sx| |sx m1 e1]; cbn in Hx; [by destruct Hx as [-> _]|done|done|].
  destruct Hx as (-> & He1 & _ & Hm1). unfold SFdiv_core_binary.
  change (Zdigits2 (Zpos 9007199254740960)) with 53.
  assert (Hd : Zdigits2 (Zpos m1) + e1 <= 48).
  { assert (0 <= Zdigits2 (Zpos m1) <= 48 - e1); [|lia]. apply digits_bound; [lia|]. split; [lia|].
    replace (48 - e1) with (48 + - e1) by lia. rewrite Z.pow_add_r by lia.
    assert (0 < 2 ^ (- e1)) by (apply Z.pow_pos_nonneg; lia). lia. }
  set (d1 := Zdigits2 _) in *. set (e' := Z.min _ _).
  assert (He' : e' <= 0 /\ e' <= e1 + 5) by (unfold e', fexp, emin; lia). clearbody e'.
  set (m' := match _ with Z0 => _ | Zpos _ => _ | Zneg _ => _ end).
  assert (Hm' : m' = Zpos m1 * 2 ^ (e1 + 5 - e')).
  { unfold m'. replace (e1 - -5 - e') with (e1 + 5 - e') by lia.
    destruct (e1 + 5 - e') as [|p|p] eqn:E; [lia| |lia]. by rewrite Z.shiftl_mul_pow2 by lia. }
  clearbody m'. pose proof (Z_div_mod m' 9007199254740960 ltac:(lia)) as Hqr.
  destruct (Z.div_eucl m' 9007199254740960) as [q r]. destruct Hqr as [Hq Hr].
  assert (Hle : m' <= 9007199254740960 * 2 ^ (- e')).
  { rewrite Hm'. transitivity ((2 ^ 48 - 1) * 2 ^ (- e1) * 2 ^ (e1 + 5 - e')).
    - apply Z.mul_le_mono_nonneg_r; [|done]. apply Z.pow_nonneg. lia.
    - rewrite <- Z.mul_assoc, <- Z.pow_add_r by lia.
      replace (- e1 + (e1 + 5 - e')) with (5 + - e') by lia. rewrite Z.pow_add_r by lia. lia. }
  assert (0 <= m') by (rewrite Hm'; apply Z.mul_nonneg_nonneg; [lia|apply Z.pow_nonneg; lia]).
  cbn [xorb]. apply binary_round_inside; [lia|lia|].
  assert (Hsm : forall l, shr_m (shr_record_of_loc q l) = q) by (by intros [|[]]).
  split; rewrite Hsm, ?Z.mul_1_l; [lia|]. intros Hin.
  assert (r <> 0); [|lia]. intros ->. unfold new_location, new_location_even, new_location_odd in Hin.
  destruct (Z.even _); done.
Qed.

(** ** Scaling by a power of two is exact *)

Lemma Zdigits2_log2 p : Zdigits2 (Zpos p) = Z.log2 (Zpos p) + 1.
Proof.
  cbn [Zdigits2]. assert (E : digits2_pos p = Pos.size p) by (clear; induction p; cbn; congruence).
  rewrite E. destruct p; cbn [Pos.size Z.log2]; lia.
Qed.

Lemma shr_1_digits mrs :
  1 < shr_m mrs -> 0 < shr_m (shr_1 mrs) /\ Zdigits2 (shr_m (shr_1 mrs)) = Zdigits2 (shr_m mrs) - 1.
Proof. destruct mrs as [[|[p|p|]|p] r s]; cbn; lia. Qed.

Lemma iter_shr_digits p mrs :
  0 < shr_m mrs -> Zpos p < Zdigits2 (shr_m mrs) ->
  0 < shr_m (iter_pos shr_1 p mrs) /\ Zdigits2 (shr_m (iter_pos shr_1 p mrs)) = Zdigits2 (shr_m mrs) - Zpos p.
Proof.
  assert (H1 : forall m, 0 < shr_m m -> 1 < Zdigits2 (shr_m m) -> 1 < shr_m m).
  { intros [[|[q|q|]|q] r s]; cbn; lia. }
  revert mrs. induction p as [p IH|p IH|]; intros mrs H0 Hd; cbn [iter_pos].
  - destruct (shr_1_digits mrs) as [Ha Hb]; [apply H1; [done|lia]|].
    destruct (IH (shr_1 mrs)) as [Hc Hd']; [done|lia|].
    destruct (IH (iter_pos shr_1 p (shr_1 mrs))) as [He Hf]; [done|lia|]. split; [done|lia].
  - destruct (IH mrs) as [Hc Hd']; [done|lia|].
    destruct (IH (iter_pos shr_1 p mrs)) as [He Hf]; [done|lia|]. split; [done|lia].
  - destruct (shr_1_digits mrs) as [Ha Hb]; [apply H1; [done|lia]|]. split; [done|lia].
Qed.

(** [m * 2^e] is not below the smallest normal number. *)
Definition normal (m e : Z) : Prop := 0 < m /\ -1021 <= Zdigits2 m + e.

Lemma shr_fexp_scale m e k l :
  normal m e -> 0 <= k ->
  shr_fexp 53 1024 m (e + k) l = ((shr_fexp 53 1024 m e l).1, (shr_fexp 53 1024 m e l).2 + k).
Proof.
  intros [Hm Hn] Hk. unfold shr_fexp, fexp, emin, shr.
  replace (_ - (e + k)) with (Zdigits2 m - 53) by lia. replace (_ - e) with (Zdigits2 m - 53) by lia.
  destruct (Zdigits2 m - 53); cbn [fst snd]; f_equal; lia.
Qed.

Lemma shr_fexp_normal m e :
  normal m e ->
  let r := shr_fexp 53 1024 m e loc_Exact in normal (round_nearest_even (shr_m r.1) (loc_of_shr_record r.1)) r.2.
Proof.
  intros [Hm Hn]. cbn zeta. set (r := shr_fexp 53 1024 m e loc_Exact).
  assert (Hr : 0 < shr_m r.1 /\ Zdigits2 (shr_m r.1) + r.2 = Zdigits2 m + e).
  { unfold r, shr_fexp, fexp, emin, shr. replace (_ - e) with (Zdigits2 m - 53) by lia.
    destruct (Zdigits2 m - 53) as [|p|p] eqn:E; cbn [fst snd]; [done| |done].
    destruct (iter_shr_digits p (shr_record_of_loc m loc_Exact)) as [Ha Hb]; cbn [shr_m shr_record_of_loc] in *;
      [done|lia|]. split; [done|lia]. }
  clearbody r. destruct r as [mrs e1]. cbn [fst snd] in *. destruct Hr as [H0 Hd].
  assert (Hup : shr_m mrs <= round_nearest_even (shr_m mrs) (loc_of_shr_record mrs)).
  { unfold round_nearest_even. destruct (loc_of_shr_record mrs) as [|[]]; [lia|destruct (Z.even _); lia|lia|lia]. }
  destruct (round_nearest_even _ _) as [|q|q]; [lia| |lia]. destruct (shr_m mrs) as [|p|p]; [lia| |lia].
  split; [lia|]. rewrite Zdigits2_log2 in Hd |- *. apply Z.log2_le_mono in Hup. lia.
Qed.

Lemma binary_round_scale s m e k m' e' :
  normal m e -> 0 <= k -> binary_round_aux 53 1024 s m e loc_Exact = S754_finite s m' e' -> e' + k <= 971 ->
  binary_round_aux 53 1024 s m (e + k) loc_Exact = S754_finite s m' (e' + k).
Proof.
  intros Hn Hk. unfold binary_round_aux. rewrite shr_fexp_scale by done.
  pose proof (shr_fexp_normal m e Hn) as Hn'. cbn zeta in Hn'.
  destruct (shr_fexp 53 1024 m e loc_Exact) as [mrs e1]. cbn [fst snd] in *. rewrite shr_fexp_scale by done.
  destruct (shr_fexp 53 1024 _ e1 loc_Exact) as [mrs2 e2]. cbn [fst snd].
  destruct (shr_m mrs2) as [|q|q]; try done. destruct (e2 <=? 1024 - 53); [|done]. intros [= -> ->] He.
  rewrite (proj2 (Z.leb_le _ _)) by lia. done.
Qed.

Lemma double_of_Z_finite z : 0 < z < 2 ^ 53 -> exists m e, double_of_Z z = S754_finite false m e /\ e <= 0.
Proof.
  intros Hz. pose proof (double_of_Z_inside z ltac:(lia)) as Hin.
  destruct (double_of_Z z) as [s|s| |s m e]; cbn in Hin; try done; [lia|]. destruct Hin as (-> & He & _).
  by exists m, e.
Qed.

Lemma double_of_Z_scale z m e :
  0 < z < 2 ^ 33 -> double_of_Z z = S754_finite false m e -> double_of_Z (z * 2 ^ 20) = S754_finite false m (e + 20).
Proof.
  intros Hz. pose proof (double_of_Z_finite z ltac:(lia)) as (m0 & e0 & Hf & He). intros H. rewrite H in Hf.
  injection Hf as <- <-. destruct z as [|p|p]; [lia| |lia].
  change (Zpos p * 2 ^ 20) with (Zpos (p * 1048576)).
  assert (E : (p * 1048576)%positive = Pos.iter xO p 20).
  { apply Pos2Z.inj. rewrite iter_xO. lia. }
  rewrite E. unfold double_of_Z, binary_normalize, binary_round in *.
  assert (Hd : forall q d, Zpos (digits2_pos (Pos.iter xO q d)) = Zpos (digits2_pos q) + Zpos d).
  { intros q d. induction d as [|d IH] using Pos.peano_ind; [cbn; lia|]. rewrite Pos.iter_succ. cbn [digits2_pos]. lia. }
  pose proof (digits_bound (Zpos p) 33 ltac:(lia) ltac:(lia)) as Hb. cbn [Zdigits2] in Hb.
  rewrite Hd. unfold shl_align, fexp, emin in *. rewrite !Z.add_0_r, !Z.sub_0_r in *.
  replace (Z.max (Zpos (digits2_pos p) - 53) _) with (Zpos (digits2_pos p) - 53) in H by lia.
  replace (Z.max _ _) with (Zpos (digits2_pos p) - 53 + 20) by lia.
  set (D := Zpos (digits2_pos p)) in *.
  assert (Hs : forall q, D - 53 = Zneg q -> normal (Zpos (Pos.iter xO p q)) (Zneg q)).
  { intros q Hq. split; [done|]. rewrite Zdigits2_log2. pose proof (Z.log2_nonneg (Zpos (Pos.iter xO p q))). lia. }
  destruct (D - 53) as [|q|q] eqn:E1; [lia|lia|]. specialize (Hs q eq_refl).
  destruct (Zneg q + 20) as [|q'|q'] eqn:E2; [|lia|].
  - assert (q = 20%positive) as -> by lia. exact (binary_round_scale _ _ _ 20 m e Hs ltac:(lia) H ltac:(lia)).
  - assert (Hi : Pos.iter xO (Pos.iter xO p 20) q' = Pos.iter xO p q).
    { rewrite <- Pos.iter_add. f_equal. lia. }
    rewrite Hi, <- E2. by apply binary_round_scale; [|lia| |lia].
Qed.

Lemma binary_round_sign s m e l s' m' e' : binary_round_aux 53 1024 s m e l = S754_finite s' m' e' -> s' = s.
Proof.
  unfold binary_round_aux. destruct (shr_fexp _ _ _ _ l) as [mrs e1]. destruct (shr_fexp _ _ _ _ _) as [mrs2 e2].
  destruct (shr_m mrs2); [done| |done]. destruct (_ <=? _); [|done]. by intros [= -> _ _].
Qed.

(** A product with a scaled integer is the scaled product. *)
Lemma double_mul_scale z my ey m e :
  0 < z < 2 ^ 33 -> -1000 <= Zdigits2 (Zpos my) + ey ->
  double_mul (double_of_Z z) (S754_finite false my ey) = S754_finite false m e -> e + 20 <= 971 ->
  double_mul (double_of_Z (z * 2 ^ 20)) (S754_finite false my ey) = S754_finite false m (e + 20).
Proof.
  intros Hz Hy. destruct (double_of_Z_finite z ltac:(lia)) as (mx & ex & Hx & _).
  rewrite (double_of_Z_scale z mx ex Hz Hx), Hx. unfold double_mul, SFmul. cbn [xorb]. intros H He.
  replace (ex + 20 + ey) with (ex + ey + 20) by lia. apply binary_round_scale; [|lia|done|done].
  pose proof (double_of_Z_inside z ltac:(lia)) as Hin. rewrite Hx in Hin. destruct Hin as (_ & Hex & Hmx).
  split; [done|]. rewrite Zdigits2_log2 in Hy |- *.
  assert (Hl : - ex <= Z.log2 (Zpos mx)) by (apply Z.log2_le_pow2; [lia|]; nia).
  rewrite Pos2Z.inj_mul. pose proof (Z.log2_mul_below (Zpos mx) (Zpos my) ltac:(lia) ltac:(lia)). lia.
Qed.

(** ** The object representation *)

(** A double is determined by its object representation. *)
Lemma bits_roundtrip x :
  valid_binary 53 1024 x = true -> double_of_bits (bits_of_double x) = x.
Proof.
  destruct x as [s|s| |s m e]; [by destruct s|by destruct s|done|]. intros Hv.
  cbn in Hv. unfold bounded, canonical_mantissa in Hv. b2p. unfold fexp, emin in *.
  assert (Hd : digits2_pos m = Pos.size m) by (clear; induction m; cbn; congruence). rewrite Hd in *.
  pose proof (Pos.size_gt m) as Hg. pose proof (Pos.size_le m) as Hl.
  assert (Hg' : Zpos m < 2 ^ Zpos (Pos.size m)) by (rewrite <- Pos2Z.inj_pow; lia).
  assert (Hl' : 2 ^ Zpos (Pos.size m) <= 2 * Zpos m)
    by (change (2 * Zpos m) with (Zpos m~0); rewrite <- Pos2Z.inj_pow; lia).
  set (k := Zpos (Pos.size m)) in *.
  assert (Hm53 : Zpos m < 2 ^ 53).
  { eapply Z.lt_le_trans; [exact Hg'|]. apply Z.pow_le_mono_r; lia. }
  assert (Hcase : (Zpos m < 2 ^ 52 /\ e = -1074) \/ (2 ^ 52 <= Zpos m /\ -1074 <= e <= 971)).
  { destruct (Z.lt_ge_cases (Zpos m) (2 ^ 52)) as [Hlt|Hge]; [left|right]; split; try lia.
    assert (k <= 52); [|lia]. destruct (Z.le_gt_cases k 52) as [|Hk]; [done|].
    assert (2 ^ 53 <= 2 ^ k) by (apply Z.pow_le_mono_r; lia). lia. }
  clearbody k. clear Hg Hl Hg' Hl' Hd.
  unfold bits_of_double, double_of_bits.
  set (b := (if s then 2 ^ 63 else 0) + _).
  set (lo := if Zpos m <? 2 ^ 52 then Zpos m else (e + 1075) * 2 ^ 52 + (Zpos m - 2 ^ 52)) in b.
  assert (Hlo : 0 <= lo < 2 ^ 63) by (unfold lo; destruct (_ <? _) eqn:E; b2p; lia).
  assert (Hb : b = Z.b2z s * 2 ^ 63 + lo) by (unfold b; destruct s; cbn [Z.b2z]; lia).
  assert (Hs01 : 0 <= Z.b2z s <= 1) by (destruct s; cbn; lia).
  assert (Hbit : Z.testbit b 63 = s).
  { rewrite Z.testbit_odd, Z.shiftr_div_pow2, Hb by lia. rewrite Z.div_add_l, Z.div_small by lia.
    rewrite Z.add_0_r. by destruct s. }
  assert (Hexp : Z.land (Z.shiftr b 52) 2047 = lo / 2 ^ 52).
  { change 2047 with (2 ^ 11 - 1). rewrite land_mask, Z.shiftr_div_pow2, Hb by lia.
    replace (Z.b2z s * 2 ^ 63 + lo) with (lo + Z.b2z s * 2 ^ 11 * 2 ^ 52) by lia.
    rewrite Z.div_add, Z.mod_add by lia. apply Z.mod_small.
    split; [apply Z.div_pos; lia|apply Z.div_lt_upper_bound; lia]. }
  assert (Hfr : Z.land b (2 ^ 52 - 1) = lo mod 2 ^ 52).
  { rewrite land_mask, Hb by lia. replace (Z.b2z s * 2 ^ 63 + lo) with (lo + Z.b2z s * 2 ^ 11 * 2 ^ 52) by lia.
    by rewrite Z.mod_add by lia. }
  rewrite Hbit, Hexp, Hfr. clearbody b. clear Hbit Hexp Hfr Hb. unfold lo.
  destruct Hcase as [[Hm He]|[Hm He]].
  - rewrite (proj2 (Z.ltb_lt _ _)) by lia. rewrite Z.div_small, Z.mod_small by lia. cbn. by rewrite He.
  - rewrite (proj2 (Z.ltb_ge _ _)) by lia. rewrite Z.div_add_l, Z.div_small, Z.add_0_r by lia.
    rewrite (Z.add_comm (_ * _)), Z.mod_add, Z.mod_small by lia.
    rewrite (proj2 (Z.eqb_neq (e + 1075) 0)), (proj2 (Z.eqb_neq (e + 1075) 2047)) by lia.
    replace (Zpos m - 2 ^ 52 + 2 ^ 52) with (Zpos m) by lia. f_equal. lia.
Qed.
