(* ===== verification/F14Chunk.v ===== *)
(** * F14Chunk: the buckets of PetHash (src/pet_kv/pet_hash.h)

    [SparseMaskIter], the SSE2 tag comparison, and [F14Chunk]: fourteen slots
    with an 8-bit tag each, the slot count, and the overflow counter.  The
    template parameter [KeyT] is [uint64] (its use in [PetKV]) and [ValueT] is
    a section variable.  The hash functions of [PetHash] are here as well.

    The lemmas of the second half say what the vector comparison and the bit
    iteration compute on the slots, and what each operation does to the list
    of entries [ents] of the chunk. *)

From stdpp Require Import base numbers list gmap sorting.
From Stdlib Require Import ZArith Lia.
From S2P Require Import Prelude.

(** ** Hash functions of PetHash *)

(** [_mm_crc32_u64]: the CRC-32C instruction, one bit of [v] at a time
    (reflected polynomial 0x82F63B78). *)
Definition crc32c_poly : Z := 2197175160.

Fixpoint crc32c_bits (n : nat) (crc v : Z) : Z :=
  match n with
  | O => crc
  | S n' =>
      crc32c_bits n'
        (Z.lxor (Z.shiftr crc 1) (if Z.odd (Z.lxor crc v) then crc32c_poly else 0))
        (Z.shiftr v 1)
  end.

Definition mm_crc32_u64 (crc v : Z) : Z := crc32c_bits 64 crc v.

(** The check value of CRC-32C: the nine bytes 1..9 of ASCII. *)
Example crc32c_check :
  Z.lxor (crc32c_bits 72 (2 ^ 32 - 1) 1055515178193424429617) (2 ^ 32 - 1) = 3808858755.
Proof. vm_compute. reflexivity. Qed.

Definition kSignBit : Z := 8.
Definition kSignMask : Z := Z.shiftl 1 kSignBit - 1.

Definition Sign (key : Z) : Z :=
  let c := mm_crc32_u64 0 key in
  Z.land (Z.lor (Z.shiftr c 24) 128) kSignMask.

Definition Hash (key : Z) : Z := u64 (key * 14313749767032793493).

Definition ProbeDelta (key : Z) : Z := Z.lor (u64 (key * 2)) 1.

(** ** SparseMaskIter *)

(** The iterator is its [uint32_t mask_]. *)
Definition HasNext (mask_ : Z) : bool := negb (mask_ =? 0).

Definition Next (mask_ : Z) : nat * Z :=
  (ctz mask_, Z.land mask_ (u32 (mask_ - 1))).

(** [_mm_movemask_epi8] of a comparison: bit [i] is lane [i]. *)
Fixpoint movemask_epi8 (lanes : list bool) : Z :=
  match lanes with
  | [] => 0
  | b :: l => 2 * movemask_epi8 l + Z.b2z b
  end.

(** ** The chunk *)

Definition kMaxSize : Z := 14.
Definition kFullMask : Z := Z.shiftl 1 kMaxSize - 1.

(** [first == -1] marks a free slot in persistent memory. *)
Definition kEmptyKey : Z := u64_max.

Module Chunk.
Section Chunk.
Context {V : Type} `{!Inhabited V}.

Record chunk := Build_chunk {
  tags_ : list Z;
  size_ : Z;
  overflow_count_ : Z;
  is_migrating : bool;
  value_ : list (Z * V)
}.

(** The sixteen bytes [_mm_load_si128(&tags_[0])] reads: the tags, [size_],
    and the padding byte before [lock_], which [Initialize] has zeroed. *)
Definition tag_vec (c : chunk) : list Z := tags_ c ++ [size_ c; 0].

Definition MatchTag (c : chunk) (tag : Z) : Z :=
  Z.land (movemask_epi8 ((fun b => b =? tag) <$> tag_vec c)) kFullMask.

Definition Get (c : chunk) (i : nat) : Z * V := value_ c !!! i.

(** The loop [while (it.HasNext()) { id = it.Next(); ... }] of [Find] and of
    [GetInternal] and [Insert] below: the first slot whose key is [key]. *)
Fixpoint find_loop (fuel : nat) (c : chunk) (key it : Z) : option nat :=
  match fuel with
  | O => None
  | S fuel' =>
      if HasNext it then
        let '(id, it') := Next it in
        if key =? (Get c id).1 then Some id else find_loop fuel' c key it'
      else None
  end.

(** A [uint32_t] mask has at most 32 bits. *)
Definition find_slot (c : chunk) (key tag : Z) : option nat :=
  find_loop 32 c key (MatchTag c tag).

Definition Find (c : chunk) (key tag : Z) : Z :=
  match find_slot c key tag with
  | Some id => Z.of_nat id
  | None => -1
  end.

Definition Set_ (c : chunk) (i : nat) (tag : Z) (val : Z * V) : chunk :=
  {| tags_ := <[i := tag]> (tags_ c); size_ := size_ c;
     overflow_count_ := overflow_count_ c; is_migrating := is_migrating c;
     value_ := <[i := val]> (value_ c) |}.

Definition with_size (c : chunk) (n : Z) : chunk :=
  {| tags_ := tags_ c; size_ := n; overflow_count_ := overflow_count_ c;
     is_migrating := is_migrating c; value_ := value_ c |}.

Definition with_overflow (c : chunk) (n : Z) : chunk :=
  {| tags_ := tags_ c; size_ := size_ c; overflow_count_ := n;
     is_migrating := is_migrating c; value_ := value_ c |}.

Definition with_migrating (c : chunk) (b : bool) : chunk :=
  {| tags_ := tags_ c; size_ := size_ c; overflow_count_ := overflow_count_ c;
     is_migrating := b; value_ := value_ c |}.

(** The chunk and the slot the returned [ItemT*] points to. *)
Definition Insert (c : chunk) (key : Z) (value : V) (sign : Z) : outcome (chunk * nat) :=
  _ ← CHECK (size_ c <? kMaxSize);
  let c := with_size c (u8 (size_ c + 1)) in
  let it := MatchTag c 0 in
  _ ← CHECK (HasNext it);
  let '(i, _) := Next it in
  Ret (Set_ c i sign (key, value), i).

Definition IncOverflow (c : chunk) : chunk :=
  if overflow_count_ c =? 255 then c else with_overflow c (u8 (overflow_count_ c + 1)).

Definition DecOverflow (c : chunk) : chunk :=
  if overflow_count_ c =? 255 then c else with_overflow c (u8 (overflow_count_ c - 1)).

Definition Delete (c : chunk) (i : nat) : chunk :=
  {| tags_ := <[i := 0]> (tags_ c); size_ := u8 (size_ c - 1);
     overflow_count_ := overflow_count_ c; is_migrating := is_migrating c;
     value_ := alter (fun kv => (kEmptyKey, kv.2)) i (value_ c) |}.

Definition InUse (c : chunk) (i : nat) : bool := negb (tags_ c !!! i =? 0).

Definition Initialize (c : chunk) : chunk :=
  {| tags_ := tags_ c; size_ := size_ c; overflow_count_ := overflow_count_ c;
     is_migrating := is_migrating c;
     value_ := (fun kv => (kEmptyKey, kv.2)) <$> value_ c |}.

(** The chunk [memset] leaves: all bytes zero ([v0] is the all-zero value). *)
Definition zeroed (v0 : V) : chunk :=
  {| tags_ := replicate 14 0; size_ := 0; overflow_count_ := 0;
     is_migrating := false; value_ := replicate 14 (0, v0) |}.
End Chunk.
Arguments chunk : clear implicits.
End Chunk.

(** ** What the operations of a chunk do *)

Lemma movemask_testbit lanes (i : nat) :
  Z.testbit (movemask_epi8 lanes) (Z.of_nat i) = default false (lanes !! i).
Proof.
  revert i. induction lanes as [|b l IH]; intros i; cbn [movemask_epi8].
  - apply Z.bits_0.
  - destruct i as [|i]; [|rewrite Nat2Z.inj_succ]; destruct b; cbn [Z.b2z lookup list_lookup];
      rewrite ?Z.add_0_r.
    + apply Z.testbit_odd_0.
    + apply Z.testbit_even_0.
    + rewrite Z.testbit_odd_succ by lia. apply IH.
    + rewrite Z.testbit_even_succ by lia. apply IH.
Qed.

Lemma crc32c_bits_range n crc v :
  0 <= crc < 2 ^ 32 -> 0 <= crc32c_bits n crc v < 2 ^ 32.
Proof.
  revert crc v. induction n as [|n IH]; intros crc v Hc; [done|]. simpl. apply IH.
  assert (Hs : 0 <= Z.shiftr crc 1 < 2 ^ 32).
  { rewrite Z.shiftr_div_pow2 by lia. split; [apply Z.div_pos; lia|].
    apply Z.div_lt_upper_bound; lia. }
  destruct (Z.odd _); [|by rewrite Z.lxor_0_r].
  unfold crc32c_poly. split; [apply Z.lxor_nonneg; lia|].
  destruct (Z.eq_dec (Z.lxor (Z.shiftr crc 1) 2197175160) 0) as [->|]; [lia|].
  assert (0 <= Z.lxor (Z.shiftr crc 1) 2197175160) by (apply Z.lxor_nonneg; lia).
  apply Z.log2_lt_pow2; [lia|].
  eapply Z.le_lt_trans; [by apply Z.log2_lxor; lia|].
  apply Z.max_lub_lt; [|by vm_compute].
  destruct (Z.eq_dec (Z.shiftr crc 1) 0) as [->|]; [done|].
  apply Z.log2_lt_pow2; lia.
Qed.

(** A tag always has its top bit set; in particular it is never the free tag. *)
Lemma Sign_range key : 128 <= Sign key < 256.
Proof.
  unfold Sign, kSignMask, kSignBit. rewrite shiftl1_pow2, land_mask by lia.
  set (c := Z.shiftr _ _).
  assert (Hc : 0 <= c < 2 ^ 8).
  { unfold c, mm_crc32_u64.
    pose proof (crc32c_bits_range 64 0 key ltac:(lia)).
    rewrite Z.shiftr_div_pow2 by lia. split; [apply Z.div_pos; lia|].
    apply Z.div_lt_upper_bound; lia. }
  clearbody c.
  assert (Hl : 0 <= Z.lor c 128 < 2 ^ 8).
  { split; [apply Z.lor_nonneg; lia|].
    destruct (Z.eq_dec (Z.lor c 128) 0) as [->|]; [lia|].
    assert (0 <= Z.lor c 128) by (apply Z.lor_nonneg; lia).
    apply Z.log2_lt_pow2; [lia|]. rewrite Z.log2_lor by lia.
    apply Z.max_lub_lt; [|by vm_compute].
    destruct (Z.eq_dec c 0) as [->|]; [done|]. apply Z.log2_lt_pow2; lia. }
  rewrite Z.mod_small by done. split; [|lia].
  assert (Hb : Z.testbit (Z.lor c 128) 7 = true) by (rewrite Z.lor_spec, orb_comm; done).
  destruct (Z.lt_ge_cases (Z.lor c 128) 128) as [Hlt|]; [|done].
  rewrite (testbit_above _ 7) in Hb by lia. done.
Qed.

Lemma ProbeDelta_odd key : Z.odd (ProbeDelta key) = true.
Proof. unfold ProbeDelta. rewrite <- Z.bit0_odd, Z.lor_spec. apply orb_true_r. Qed.

#[global] Arguments Sign : simpl never.
#[global] Arguments Hash : simpl never.
#[global] Arguments ProbeDelta : simpl never.
#[global] Opaque mm_crc32_u64.

Section ChunkFacts.
Import Chunk.
Context {V : Type} `{!Inhabited V}.
Implicit Types (c : chunk V) (key sign : Z) (v : V).

(** The entry a slot holds. *)
Definition live (p : Z * (Z * V)) : option (Z * V) :=
  if p.1 =? 0 then None else Some p.2.

(** The entries of a chunk. *)
Definition ents c : list (Z * V) := omap live (zip (tags_ c) (value_ c)).

Definition slot_ok (tag : Z) (kv : Z * V) : Prop :=
  0 <= kv.1 < 2 ^ 64 /\
  (tag = 0 -> kv.1 = kEmptyKey) /\
  (tag <> 0 -> tag = Sign (Hash kv.1)).

(** Well-formed chunks: fourteen slots, a free slot has the empty key, a used
    one the tag of its key, and [size_] counts the used ones. *)
Record chunk_wf c : Prop := {
  wf_tags : length (tags_ c) = 14%nat;
  wf_value : length (value_ c) = 14%nat;
  wf_size : size_ c = Z.of_nat (length (ents c));
  wf_ov : 0 <= overflow_count_ c <= 255;
  wf_slot : forall i tag kv,
    tags_ c !! i = Some tag -> value_ c !! i = Some kv -> slot_ok tag kv
}.

Lemma slot_ok_free v : slot_ok 0 (kEmptyKey, v).
Proof. split_and!; unfold kEmptyKey, u64_max; cbn [fst]; lia. Qed.

Lemma live_free (kv : Z * V) : live (0, kv) = None.
Proof. done. Qed.

Lemma live_used tag (kv : Z * V) : tag <> 0 -> live (tag, kv) = Some kv.
Proof. intros Ht. unfold live. cbn [fst snd]. by rewrite (proj2 (Z.eqb_neq _ _) Ht). Qed.

Lemma MatchTag_testbit c tag (i : nat) :
  length (tags_ c) = 14%nat ->
  Z.testbit (MatchTag c tag) (Z.of_nat i) = true <-> tags_ c !! i = Some tag.
Proof.
  intros Hl. unfold MatchTag, kFullMask, kMaxSize. rewrite shiftl1_pow2 by lia.
  rewrite land_mask by lia.
  destruct (decide (i < 14)%nat) as [Hi|Hi].
  - rewrite Z.mod_pow2_bits_low, movemask_testbit, list_lookup_fmap by lia.
    unfold tag_vec. rewrite lookup_app_l by lia.
    destruct (tags_ c !! i) as [x|] eqn:E; simpl; [|done].
    rewrite Z.eqb_eq. naive_solver.
  - rewrite Z.mod_pow2_bits_high by lia. rewrite lookup_ge_None_2 by lia. done.
Qed.

Lemma MatchTag_range c tag : 0 <= MatchTag c tag < 2 ^ 14.
Proof.
  unfold MatchTag, kFullMask, kMaxSize. rewrite shiftl1_pow2, land_mask by lia.
  apply Z.mod_pos_bound. lia.
Qed.

(** The mask hides the lanes of [size_] and of the padding. *)
Lemma MatchTag_tags c c' tag :
  tags_ c' = tags_ c -> length (tags_ c) = 14%nat -> MatchTag c' tag = MatchTag c tag.
Proof.
  intros Ht Hl. unfold MatchTag, tag_vec, kFullMask, kMaxSize. rewrite Ht, !shiftl1_pow2, !land_mask by lia.
  apply Z.bits_inj'. intros n Hn'. destruct (Z.lt_ge_cases n 14).
  - rewrite !Z.mod_pow2_bits_low by lia. rewrite <- (Z2Nat.id n) by lia.
    rewrite !movemask_testbit, !list_lookup_fmap, !lookup_app_l by lia. done.
  - rewrite !Z.mod_pow2_bits_high by lia. done.
Qed.

Lemma Next_range it : 0 < it < 2 ^ 32 -> (Next it).2 = Z.land it (it - 1).
Proof. intros. simpl. by rewrite u32_small by lia. Qed.

(** Enough fuel: each round of the loop clears a bit of the mask. *)
Lemma find_loop_spec fuel c key it :
  0 <= it < 2 ^ 32 -> (length (set_bits 32 it) <= fuel)%nat ->
  find_loop fuel c key it =
  snd <$> list_find (fun id => key = (Get c id).1) (set_bits 32 it).
Proof.
  revert it. induction fuel as [|fuel IH]; intros it Hit Hf; simpl.
  - destruct (set_bits 32 it); [done|simpl in Hf; lia].
  - unfold HasNext. destruct (it =? 0) eqn:E; b2p; cbn [negb].
    + subst. by rewrite set_bits_0.
    + rewrite (set_bits_pop 32) in Hf |- * by lia.
      rewrite u32_small by lia. cbn [list_find]. simpl in Hf.
      destruct (key =? (Get c (ctz it)).1) eqn:Ek; b2p.
      * by rewrite decide_True.
      * rewrite decide_False by done.
        rewrite IH; [|apply land_pred_range; lia|lia].
        by destruct (list_find _ (set_bits 32 (Z.land it (it - 1)))) as [[]|].
Qed.

Lemma set_bits_length w z : (length (set_bits w z) <= w)%nat.
Proof.
  unfold set_bits. etrans; [apply length_filter|]. by rewrite length_seq.
Qed.

Lemma find_slot_Some c key tag i :
  length (tags_ c) = 14%nat -> find_slot c key tag = Some i ->
  tags_ c !! i = Some tag /\ (Get c i).1 = key.
Proof.
  intros Hl. unfold find_slot. pose proof (MatchTag_range c tag).
  rewrite find_loop_spec; [|lia|apply set_bits_length].
  intros Hf. apply fmap_Some in Hf as ([j id] & Hf & ->). simpl.
  apply list_find_Some in Hf as (Hj & -> & _).
  apply list_elem_of_lookup_2, elem_of_set_bits in Hj as [_ Hj].
  by apply MatchTag_testbit in Hj.
Qed.

Lemma find_slot_None c key tag i :
  length (tags_ c) = 14%nat -> find_slot c key tag = None ->
  tags_ c !! i = Some tag -> (Get c i).1 <> key.
Proof.
  intros Hl. unfold find_slot. pose proof (MatchTag_range c tag).
  rewrite find_loop_spec; [|lia|apply set_bits_length].
  intros Hf Ht Hk. apply fmap_None, list_find_None in Hf.
  rewrite Forall_forall in Hf. apply (Hf i); [|done].
  apply elem_of_set_bits. split.
  - apply lookup_lt_Some in Ht. lia.
  - by apply MatchTag_testbit.
Qed.

Lemma zip_lookup c i tag kv :
  tags_ c !! i = Some tag -> value_ c !! i = Some kv ->
  zip (tags_ c) (value_ c) !! i = Some (tag, kv).
Proof. intros. apply lookup_zip_with_Some. eauto. Qed.

Lemma elem_of_ents c kv :
  kv ∈ ents c <->
  exists i tag, tags_ c !! i = Some tag /\ tag <> 0 /\ value_ c !! i = Some kv.
Proof.
  unfold ents. rewrite list_elem_of_omap. split.
  - intros ([tag kv'] & Hin & Hl). unfold live in Hl. simpl in Hl.
    destruct (tag =? 0) eqn:E; b2p; simplify_eq.
    apply list_elem_of_lookup in Hin as [i Hi].
    apply lookup_zip_with_Some in Hi as (x & y & [= <- <-] & ? & ?). eauto.
  - intros (i & tag & Ht & Hn & Hv). exists (tag, kv). split.
    + eapply list_elem_of_lookup_2, zip_lookup; done.
    + unfold live. simpl. by rewrite (proj2 (Z.eqb_neq _ _) Hn).
Qed.

Lemma ents_length c :
  length (tags_ c) = 14%nat -> length (value_ c) = 14%nat -> (length (ents c) <= 14)%nat.
Proof.
  intros Ht Hv. unfold ents. etrans; [apply omap_length_le|].
  rewrite length_zip_with. lia.
Qed.

Lemma Get_lookup c i : (i < length (value_ c))%nat -> value_ c !! i = Some (Get c i).
Proof. intros. unfold Get. by apply list_lookup_lookup_total_lt. Qed.

(** Writing a slot: the entry it held leaves, the one it gets enters. *)
Lemma ents_write c i tag kv tag' kv' :
  tags_ c !! i = Some tag -> value_ c !! i = Some kv ->
  option_list (live (tag, kv)) ++ ents (Set_ c i tag' kv') ≡ₚ
  option_list (live (tag', kv')) ++ ents c.
Proof.
  intros Ht Hv. unfold ents, Set_. simpl.
  rewrite <- (insert_zip_with pair). apply omap_insert_perm. by apply zip_lookup.
Qed.

(** A chunk that is not full has a free slot, and [MatchTag(0)] finds it. *)
Lemma free_slot c :
  chunk_wf c -> size_ c < 14 ->
  HasNext (MatchTag c 0) = true /\ tags_ c !! (Next (MatchTag c 0)).1 = Some 0.
Proof.
  intros Hwf Hs. pose proof (MatchTag_range c 0).
  assert (HasNext (MatchTag c 0) = true) as Hn.
  { unfold HasNext. destruct (MatchTag c 0 =? 0) eqn:E; [|done]. b2p. exfalso.
    rewrite wf_size in Hs by done.
    assert (length (ents c) = 14%nat); [|lia].
    unfold ents. rewrite omap_length_full.
    - rewrite length_zip_with, wf_tags, wf_value by done. done.
    - intros [tag kv] Hin. apply list_elem_of_lookup in Hin as [i Hi].
      apply lookup_zip_with_Some in Hi as (x & y & [= <- <-] & Ht & _).
      unfold live. simpl. destruct (tag =? 0) eqn:E0; [|by eexists]. b2p. subst.
      apply MatchTag_testbit in Ht; [|by apply wf_tags].
      rewrite E, Z.bits_0 in Ht. done. }
  split; [done|]. unfold HasNext in Hn. b2p.
  apply MatchTag_testbit; [by apply wf_tags|]. apply ctz_bit. lia.
Qed.

Lemma chunk_Insert_spec c key v :
  chunk_wf c -> size_ c < 14 -> 0 <= key < 2 ^ 64 ->
  exists c' i, Insert c key v (Sign (Hash key)) = Ret (c', i) /\
    chunk_wf c' /\ ents c' ≡ₚ (key, v) :: ents c /\
    overflow_count_ c' = overflow_count_ c /\ is_migrating c' = is_migrating c /\
    tags_ c' !! i = Some (Sign (Hash key)) /\ value_ c' !! i = Some (key, v).
Proof.
  intros Hwf Hs Hk. destruct (free_slot c Hwf Hs) as [Hn Hi].
  set (i := (Next (MatchTag c 0)).1) in *.
  pose proof (Sign_range (Hash key)) as Hsg.
  assert (Hi14 : (i < 14)%nat) by (apply lookup_lt_Some in Hi; rewrite wf_tags in Hi; done).
  pose proof (Get_lookup c i ltac:(rewrite wf_value; done)) as Hv.
  assert (0 <= size_ c) by (rewrite wf_size by done; lia).
  set (c1 := with_size c (u8 (size_ c + 1))).
  assert (HM : MatchTag c1 0 = MatchTag c 0) by (apply MatchTag_tags; [done|by apply wf_tags]).
  assert (HP : ents (Set_ c1 i (Sign (Hash key)) (key, v)) ≡ₚ (key, v) :: ents c).
  { pose proof (ents_write c i 0 (Get c i) (Sign (Hash key)) (key, v) Hi Hv) as HP.
    rewrite live_free, live_used in HP by lia. exact HP. }
  exists (Set_ c1 i (Sign (Hash key)) (key, v)), i. split_and!.
  - unfold Insert. fold c1. rewrite HM. rewrite Hn.
    replace (size_ c <? kMaxSize) with true by (symmetry; apply Z.ltb_lt; done).
    done.
  - split; simpl.
    + rewrite length_insert. by apply wf_tags.
    + rewrite length_insert. by apply wf_value.
    + rewrite HP. cbn [length]. pose proof (wf_size _ Hwf). rewrite u8_small; lia.
    + exact (wf_ov _ Hwf).
    + intros j tag kv Ht Hkv.
      apply list_lookup_insert_Some in Ht as [(-> & <- & _)|(Hne & Ht)].
      * rewrite list_lookup_insert_eq in Hkv by (rewrite wf_value; done). simplify_eq.
        split_and!; cbn [fst]; intros; (lia || reflexivity).
      * rewrite list_lookup_insert_ne in Hkv by done. eapply wf_slot; eauto.
  - done.
  - done.
  - done.
  - simpl. apply list_lookup_insert_eq. by rewrite wf_tags.
  - simpl. apply list_lookup_insert_eq. by rewrite wf_value.
Qed.

Lemma chunk_Delete_spec c i tag :
  chunk_wf c -> tags_ c !! i = Some tag -> tag <> 0 ->
  chunk_wf (Delete c i) /\ ents c ≡ₚ Get c i :: ents (Delete c i).
Proof.
  intros Hwf Ht Hn.
  assert (Hi14 : (i < 14)%nat) by (apply lookup_lt_Some in Ht; rewrite wf_tags in Ht; done).
  pose proof (Get_lookup c i ltac:(rewrite wf_value; done)) as Hv.
  assert (Hval : value_ (Delete c i) = <[i := (kEmptyKey, (Get c i).2)]> (value_ c)).
  { simpl. by rewrite (list_alter_as_insert _ _ _ (Get c i)). }
  assert (HP : ents c ≡ₚ Get c i :: ents (Delete c i)).
  { pose proof (ents_write c i tag (Get c i) 0 (kEmptyKey, (Get c i).2) Ht Hv) as HP.
    rewrite live_free, (live_used tag) in HP by done.
    unfold ents in HP |- *. rewrite Hval. symmetry. exact HP. }
  split; [|done]. split.
  - simpl. rewrite length_insert. by apply wf_tags.
  - rewrite Hval, length_insert. by apply wf_value.
  - pose proof (wf_size _ Hwf) as Hs. pose proof (ents_length c (wf_tags _ Hwf) (wf_value _ Hwf)) as Hl.
    rewrite HP in Hs, Hl. cbn [length] in Hs, Hl. simpl size_. rewrite u8_small; lia.
  - exact (wf_ov _ Hwf).
  - intros j tag' kv Ht' Hkv. rewrite Hval in Hkv. simpl in Ht'.
    apply list_lookup_insert_Some in Ht' as [(-> & <- & _)|(Hne & Ht')].
    + rewrite list_lookup_insert_eq in Hkv by (rewrite wf_value; done). simplify_eq.
      apply slot_ok_free.
    + rewrite list_lookup_insert_ne in Hkv by done. eapply wf_slot; eauto.
Qed.

(** [val->second = value] through a pointer to the slot. *)
Definition write_second c (i : nat) v : chunk V :=
  {| tags_ := tags_ c; size_ := size_ c; overflow_count_ := overflow_count_ c;
     is_migrating := is_migrating c;
     value_ := alter (fun kv => (kv.1, v)) i (value_ c) |}.

Lemma write_second_spec c i tag v :
  chunk_wf c -> tags_ c !! i = Some tag -> tag <> 0 ->
  chunk_wf (write_second c i v) /\
  exists l, ents c ≡ₚ Get c i :: l /\ ents (write_second c i v) ≡ₚ ((Get c i).1, v) :: l.
Proof.
  intros Hwf Ht Hn.
  assert (Hi14 : (i < 14)%nat) by (apply lookup_lt_Some in Ht; rewrite wf_tags in Ht; done).
  pose proof (Get_lookup c i ltac:(rewrite wf_value; done)) as Hv.
  destruct (chunk_Delete_spec c i tag Hwf Ht Hn) as [_ HP].
  assert (Hval : value_ (write_second c i v) = <[i := ((Get c i).1, v)]> (value_ c)).
  { simpl. by rewrite (list_alter_as_insert _ _ _ (Get c i)). }
  assert (HW : ents (write_second c i v) ≡ₚ ((Get c i).1, v) :: ents (Delete c i)).
  { pose proof (ents_write c i tag (Get c i) tag ((Get c i).1, v) Ht Hv) as HW.
    rewrite !live_used in HW by done. simpl in HW. rewrite HP in HW.
    rewrite Permutation_swap in HW. apply Permutation.Permutation_cons_inv in HW.
    unfold ents in HW |- *. rewrite Hval. simpl tags_ in HW |- *. by rewrite list_insert_id in HW. }
  split; [|by exists (ents (Delete c i))]. split.
  - exact (wf_tags _ Hwf).
  - rewrite Hval, length_insert. by apply wf_value.
  - pose proof (wf_size _ Hwf) as Hs. rewrite HP in Hs. rewrite HW. exact Hs.
  - exact (wf_ov _ Hwf).
  - intros j tag' kv Ht' Hkv. rewrite Hval in Hkv. simpl in Ht'.
    apply list_lookup_insert_Some in Hkv as [(-> & <- & _)|(Hne & Hkv)].
    + pose proof (wf_slot _ Hwf _ _ _ Ht' Hv). done.
    + eapply wf_slot; eauto.
Qed.

Lemma with_overflow_wf c n : chunk_wf c -> 0 <= n <= 255 -> chunk_wf (with_overflow c n).
Proof. intros [] ?. by split. Qed.

Lemma with_migrating_wf c b : chunk_wf c -> chunk_wf (with_migrating c b).
Proof. intros []. by split. Qed.

Lemma IncOverflow_wf c : chunk_wf c -> chunk_wf (IncOverflow c).
Proof.
  intros Hwf. unfold IncOverflow. destruct (_ =? _) eqn:E; b2p; [done|].
  apply with_overflow_wf; [done|]. pose proof (wf_ov _ Hwf). rewrite u8_small; lia.
Qed.

Lemma DecOverflow_wf c : chunk_wf c -> chunk_wf (DecOverflow c).
Proof.
  intros Hwf. unfold DecOverflow. destruct (_ =? _) eqn:E; b2p; [done|].
  apply with_overflow_wf; [done|]. pose proof (u8_range (overflow_count_ c - 1)). lia.
Qed.

Lemma IncOverflow_ents c : ents (IncOverflow c) = ents c.
Proof. unfold IncOverflow. by destruct (_ =? _). Qed.

Lemma DecOverflow_ents c : ents (DecOverflow c) = ents c.
Proof. unfold DecOverflow. by destruct (_ =? _). Qed.

Lemma ents_unused c : (forall i, tags_ c !! i <> None -> tags_ c !! i = Some 0) -> ents c = [].
Proof.
  intros H0. destruct (ents c) as [|kv l] eqn:E; [done|].
  assert (kv ∈ ents c) as Hin by (rewrite E; set_solver).
  apply elem_of_ents in Hin as (i & tag & Ht & Hn & _).
  rewrite H0 in Ht by congruence. congruence.
Qed.

(** The chunk [PetHash::Initialize] leaves is empty and well formed. *)
Lemma Initialize_zeroed_wf (v0 : V) :
  chunk_wf (Initialize (zeroed v0)) /\ ents (Initialize (zeroed v0)) = [].
Proof.
  assert (He : ents (Initialize (zeroed v0)) = []).
  { apply ents_unused. intros i. cbn [tags_ Initialize zeroed]. intros Hi.
    destruct (replicate 14 0 !! i) as [x|] eqn:E; [|done].
    by apply lookup_replicate_1 in E as [-> _]. }
  split; [|done]. split; cbn [tags_ value_ size_ overflow_count_ Initialize zeroed].
  - done.
  - done.
  - by rewrite He.
  - lia.
  - intros i tag kv Ht Hkv. rewrite list_lookup_fmap in Hkv.
    apply lookup_replicate_1 in Ht as [-> _].
    apply fmap_Some in Hkv as (x & Hx & ->). apply lookup_replicate_1 in Hx as [-> _].
    apply slot_ok_free.
Qed.
End ChunkFacts.
