(* ===== verification/PetHashDict.v ===== *)
(** * PetHash: the persistent hash index (src/pet_kv/pet_hash.h)

    The operations of [PetHash], one definition per method.  A run of a method
    is a run without other threads: the locks of the source are then free and
    the state the method reads is the state it leaves.  A [ChunkT*] is the
    index of its chunk in [chunk_table_], a [ValueT*] the pair of chunk index
    and slot.  The loop [for (i = 0; i < chunk_num_; ++i)] recurses on the
    number of rounds left. *)

From stdpp Require Import base numbers list gmap.
From Stdlib Require Import ZArith Lia.
From S2P Require Import Prelude F14Chunk.

#[export] Instance chunk_inhabited {V} `{!Inhabited V} : Inhabited (Chunk.chunk V) :=
  populate (Chunk.zeroed inhabitant).

Definition kChunkSize : Z := kMaxSize.
Definition kMaxLoadFactor : Z := 90.

(** [sizeof(PetHash)] and [sizeof(ChunkT)] for 8-byte keys and values: the
    object is padded to one cache line; a chunk is 14 tags, the size, a byte
    of padding, the 40-byte mutex, two atomics and 14 packed 16-byte items,
    rounded up to a multiple of 64. *)
Definition sizeof_PetHash : Z := 64.
Definition sizeof_ChunkT : Z := 320.

(** [while (new_size < size) new_size <<= 1]; [new_size] becomes 0 after 64
    rounds, and the loop then never ends. *)
Fixpoint next2power_loop (fuel : nat) (new_size size : Z) : outcome Z :=
  if new_size <? size then
    match fuel with
    | O => Err Diverges
    | S fuel' => next2power_loop fuel' (u64 (Z.shiftl new_size 1)) size
    end
  else Ret new_size.

Definition Next2Power (size : Z) : outcome Z := next2power_loop 64 1 size.

Definition OverFallChunkNum (capacity : Z) : outcome Z :=
  Next2Power (u64 (capacity + kChunkSize - 1) / kChunkSize).

(** [capacity /= kMaxLoadFactor / 100.0] *)
Definition apply_load_factor (capacity : Z) (ignore_load_factor : bool) : outcome Z :=
  if ignore_load_factor then Ret capacity
  else u64_of_double
         (double_div (double_of_Z capacity)
            (double_div (double_of_Z kMaxLoadFactor) (double_of_Z 100))).

Definition MemorySize (capacity : Z) (ignore_load_factor : bool) : outcome Z :=
  capacity ← apply_load_factor capacity ignore_load_factor;
  chunk_table_num ← OverFallChunkNum capacity;
  Ret (u64 (sizeof_PetHash + chunk_table_num * sizeof_ChunkT)).

Module PetHash.
Section PetHash.
Context {V : Type} `{!Inhabited V}.

Record dict := Build_dict {
  capacity_ : Z;
  chunk_num_ : Z;
  size_ : Z;
  chunk_table_ : list (Chunk.chunk V)
}.

Definition with_size (d : dict) (n : Z) : dict :=
  {| capacity_ := capacity_ d; chunk_num_ := chunk_num_ d; size_ := n;
     chunk_table_ := chunk_table_ d |}.

(** [chunk_table_[pos]], and the update of that chunk. *)
Definition at_ (d : dict) (pos : Z) : Chunk.chunk V := chunk_table_ d !!! Z.to_nat pos.

Definition upd (d : dict) (pos : Z) (f : Chunk.chunk V -> Chunk.chunk V) : dict :=
  {| capacity_ := capacity_ d; chunk_num_ := chunk_num_ d; size_ := size_ d;
     chunk_table_ := alter f (Z.to_nat pos) (chunk_table_ d) |}.

(** [v0] is the value whose bytes are all zero, which [memset] leaves. *)
Definition Initialize (v0 : V) (capacity : Z) (ignore_load_factor : bool) : outcome dict :=
  capacity ← apply_load_factor capacity ignore_load_factor;
  chunk_num ← OverFallChunkNum capacity;
  Ret {| capacity_ := u64 (chunk_num * kChunkSize); chunk_num_ := chunk_num; size_ := 0;
         chunk_table_ := Chunk.Initialize <$> replicate (Z.to_nat chunk_num) (Chunk.zeroed v0) |}.

Definition Size (d : dict) : Z := u32 (size_ d).

Definition Capacity (d : dict) : Z := u32 (capacity_ d).

Definition Full (d : dict) : bool :=
  u64 (capacity_ d * kMaxLoadFactor) <=? u64 (size_ d * 100).

(** [hash_value & (chunk_num_ - 1)] and [(pos + step) & (chunk_num_ - 1)] *)
Definition home (d : dict) (key : Z) : Z := Z.land (Hash key) (chunk_num_ d - 1).

Definition next_pos (d : dict) (pos step : Z) : Z :=
  Z.land (u64 (pos + step)) (chunk_num_ d - 1).

Definition HomeChunk (d : dict) (key : Z) : Z := home d key.

(** ** Lookup *)

(** What one pass of the [for] loop of [GetInternal] finds: the position of
    the item, or nothing and whether a migrating chunk was passed. *)
Inductive probe :=
  | Found (pos : Z) (id : nat)
  | Missing (touch_migrating_chunk : bool).

Fixpoint get_loop (n : nat) (d : dict) (key sign step pos : Z) (touch : bool) : probe :=
  match n with
  | O => Missing touch
  | S n' =>
      let chunk := at_ d pos in
      let touch := touch || Chunk.is_migrating chunk in
      match Chunk.find_slot chunk key sign with
      | Some id => Found pos id
      | None =>
          if Chunk.overflow_count_ chunk =? 0 then Missing touch
          else get_loop n' d key sign step (next_pos d pos step) touch
      end
  end.

(** [goto RETRY] after a migrating chunk: with no other thread the next pass
    reads the same state, so the call does not return. *)
Definition GetInternal (d : dict) (key : Z) : outcome (option (Z * nat)) :=
  let sign := Sign (Hash key) in
  match get_loop (Z.to_nat (chunk_num_ d)) d key sign (ProbeDelta sign) (home d key) false with
  | Found pos id => Ret (Some (pos, id))
  | Missing false => Ret None
  | Missing true => Err Diverges
  end.

(** [*item_pos = pos * kChunkSize + id] *)
Definition item_pos (pos : Z) (id : nat) : Z := u64 (pos * kChunkSize + Z.of_nat id).

(** [None] is the pair of [ValueT()] and [false]. *)
Definition Get (d : dict) (key : Z) : outcome (option V) :=
  r ← GetInternal d key;
  match r with
  | Some (pos, id) => Ret (Some (Chunk.Get (at_ d pos) id).2)
  | None => Ret None
  end.

Definition GetReturnPtr (d : dict) (key : Z) : outcome (option (Z * nat)) := GetInternal d key.

(** [*p] and [*p = value] for the [ValueT*] at chunk [p.1], slot [p.2]. *)
Definition read_ptr (d : dict) (p : Z * nat) : V := (Chunk.Get (at_ d p.1) p.2).2.

Definition write_ptr (d : dict) (p : Z * nat) (value : V) : dict :=
  upd d p.1 (fun c => write_second c p.2 value).

Definition Lookup (d : dict) (key : Z) : outcome Z :=
  r ← GetInternal d key;
  match r with
  | Some (pos, id) => Ret (item_pos pos id)
  | None => Ret (-1)
  end.

Definition GetById (d : dict) (pos : Z) : Z * V :=
  Chunk.Get (at_ d (pos / kChunkSize)) (Z.to_nat (pos mod kChunkSize)).

Definition IndexInUse (d : dict) (pos : Z) : bool :=
  if capacity_ d <=? pos then false
  else Chunk.InUse (at_ d (pos / kChunkSize)) (Z.to_nat (pos mod kChunkSize)).

(** ** Removal *)

(** [while (pos != chunk_id) { ...; pos = (pos + step) & (chunk_num_ - 1); }]
    with the update [f] of [chunk_table_[pos]] in its body: the loop is in
    [Delete] with [DecOverflow] and in [Reload] with [IncOverflow]. *)
Fixpoint walk_path (f : Chunk.chunk V -> Chunk.chunk V) (fuel : nat) (d : dict)
    (pos chunk_id step : Z) : outcome dict :=
  if pos =? chunk_id then Ret d
  else match fuel with
       | O => Err Diverges
       | S fuel' => walk_path f fuel' (upd d pos f) (next_pos d pos step) chunk_id step
       end.

Definition Delete (d : dict) (key : Z) : outcome dict :=
  r ← GetInternal d key;
  match r with
  | None => Ret d
  | Some (pos, id) =>
      let chunk_id := item_pos pos id / kChunkSize in
      let chunk_offset := Z.to_nat (item_pos pos id mod kChunkSize) in
      let step := ProbeDelta (Sign (Hash key)) in
      d ← walk_path Chunk.DecOverflow (Z.to_nat (chunk_num_ d)) d (home d key) chunk_id step;
      let d := upd d chunk_id (fun c => Chunk.Delete c chunk_offset) in
      Ret (with_size d (u64 (size_ d - 1)))
  end.

(** ** Insertion *)

(** [CheckFuncT]: [false] says that the entry has expired.  The predicate is a
    pure function here; [nullptr] is [None]. *)
Definition CheckFuncT : Type := option (Z -> V -> bool -> bool).

(** The loop that deletes the expired entries of a chunk. *)
Fixpoint expire_loop (ids : list nat) (d : dict) (pos : Z) (f : Z -> V -> bool -> bool) :
    outcome dict :=
  match ids with
  | [] => Ret d
  | id :: ids' =>
      let chunk := at_ d pos in
      if Chunk.InUse chunk id then
        let it := Chunk.Get chunk id in
        if f it.1 it.2 false then expire_loop ids' d pos f
        else d ← Delete d it.1; expire_loop ids' d pos f
      else expire_loop ids' d pos f
  end.

Definition expire (d : dict) (pos : Z) (check_func : CheckFuncT) : outcome dict :=
  match check_func with
  | Some f =>
      if kChunkSize - 2 <=? Chunk.size_ (at_ d pos) then expire_loop (seq 0 14) d pos f
      else Ret d
  | None => Ret d
  end.

(** The loop of [Insert] from round [i] on.  On eviction the source also calls
    [check_func] on the victim, ignores what it returns, and deletes. *)
Fixpoint insert_loop (n : nat) (i : Z) (d : dict) (key : Z) (value : V) (sign step pos : Z)
    (check_func : CheckFuncT) (force_insert : bool) : outcome (dict * (Z * nat)) :=
  match n with
  | O => Err LogFatal
  | S n' =>
      d ← expire d pos check_func;
      let chunk := at_ d pos in
      match Chunk.find_slot chunk key sign with
      | Some id => Ret (upd d pos (fun c => write_second c id value), (pos, id))
      | None =>
          if Chunk.size_ chunk <? kChunkSize then
            '(chunk', id) ← Chunk.Insert chunk key value sign;
            let d := upd d pos (fun _ => chunk') in
            Ret (with_size d (u64 (size_ d + 1)), (pos, id))
          else if Full d then
            if force_insert then
              let it := Chunk.Get chunk (Z.to_nat ((sign + i) mod kChunkSize)) in
              d ← Delete d it.1;
              insert_loop n' (i + 1) d key value sign step pos check_func force_insert
            else Err LogFatal
          else
            insert_loop n' (i + 1) (upd d pos Chunk.IncOverflow) key value sign step
              (next_pos d pos step) check_func force_insert
      end
  end.

(** The dict and the [ValueT*] returned; the [nullptr] returns of the source
    are after a [LOG(FATAL)]. *)
Definition Insert (d : dict) (key : Z) (value : V) (check_func : CheckFuncT)
    (force_insert : bool) : outcome (dict * (Z * nat)) :=
  let sign := Sign (Hash key) in
  insert_loop (Z.to_nat (chunk_num_ d)) 0 d key value sign (ProbeDelta sign)
    (HomeChunk d key) check_func force_insert.

Definition Set_ (d : dict) (key : Z) (value : V) (check_func : CheckFuncT)
    (is_force : bool) : outcome (dict * (Z * nat)) :=
  r ← GetReturnPtr d key;
  match r with
  | Some p => Ret (write_ptr d p value, p)
  | None => Insert d key value check_func is_force
  end.

(** ** The self check *)

Fixpoint valid_loop (n : nat) (i : Z) (d : dict) (total_num : Z) : outcome (option Z) :=
  match n with
  | O => Ret (Some total_num)
  | S n' =>
      if IndexInUse d i then
        r ← Get d (GetById d i).1;
        match r with
        | None => Ret None
        | Some _ => valid_loop n' (i + 1) d (u64 (total_num + 1))
        end
      else valid_loop n' (i + 1) d total_num
  end.

Definition chunk_table_total_num (d : dict) : Z :=
  foldl (fun acc c => u64 (acc + Chunk.size_ c)) 0 (chunk_table_ d).

Definition Valid (d : dict) (memory_size : Z) : outcome bool :=
  if (capacity_ d =? 0) && (0 <? memory_size) then Ret false
  else if capacity_ d <? size_ d then Ret false
  else if negb (u64 (chunk_num_ d * kChunkSize) =? capacity_ d) then Ret false
  else
    m ← MemorySize (capacity_ d) true;
    if negb (memory_size =? m) then Ret false
    else
      r ← valid_loop (Z.to_nat (capacity_ d)) 0 d 0;
      match r with
      | None => Ret false
      | Some total_num =>
          Ret ((total_num =? chunk_table_total_num d) && (total_num =? size_ d))
      end.

(** ** Recovery *)

(** First pass over a chunk: the size is recounted, the overflow counter
    reset and the tags of the slots whose key is not [-1] corrected. *)
Definition reload_slot (tagkv : Z * (Z * V)) : Z :=
  if tagkv.2.1 =? kEmptyKey then tagkv.1 else Sign (Hash tagkv.2.1).

Definition reload_chunk (c : Chunk.chunk V) : Chunk.chunk V :=
  {| Chunk.tags_ := reload_slot <$> zip (Chunk.tags_ c) (Chunk.value_ c);
     Chunk.size_ :=
       foldl (fun n kv => if kv.1 =? kEmptyKey then n else u8 (n + 1)) 0 (Chunk.value_ c);
     Chunk.overflow_count_ := 0;
     Chunk.is_migrating := Chunk.is_migrating c;
     Chunk.value_ := Chunk.value_ c |}.

(** [count_size] over all chunks. *)
Definition reload_count (l : list (Chunk.chunk V)) : Z :=
  foldl (fun n c =>
    foldl (fun n kv => if kv.1 =? kEmptyKey then n else u64 (n + 1)) n (Chunk.value_ c)) 0 l.

(** Second pass, one used slot: [mallocSetValid], then the overflow counters
    on the way from the home chunk (the compare-exchange loop adds one unless
    the counter is 255). *)
Definition reload_item {M} (mallocSetValid : M -> Z -> V -> M) (chunk_id : Z)
    (dm : dict * M) (id : nat) : outcome (dict * M) :=
  let '(d, m) := dm in
  let chunk := at_ d chunk_id in
  if Chunk.InUse chunk id then
    let it := Chunk.Get chunk id in
    d' ← walk_path Chunk.IncOverflow (Z.to_nat (chunk_num_ d)) d (home d it.1) chunk_id
           (ProbeDelta (Sign (Hash it.1)));
    Ret (d', mallocSetValid m it.1 it.2)
  else Ret dm.

Fixpoint foldM {A S} (f : S -> A -> outcome S) (s : S) (l : list A) : outcome S :=
  match l with
  | [] => Ret s
  | a :: l' => s' ← f s a; foldM f s' l'
  end.

Definition reload_overflow {M} (mallocSetValid : M -> Z -> V -> M) (dm : dict * M) (chunk_id : Z) :
    outcome (dict * M) :=
  foldM (reload_item mallocSetValid chunk_id) dm (seq 0 14).

(** The chunk ids of recovery thread [i] of [k]: [left, right) cut off at
    [chunk_num_]. *)
Definition reload_range (chunk_num k i : Z) : list Z :=
  let block_num := chunk_num / k + 1 in
  seqZ (i * block_num) (Z.min block_num (chunk_num - i * block_num)).

(** [CHECK(Persistence)] holds for the instance [PetHash<uint64, PetKVData,
    true>] used by [PetKV].  The threads run one after the other. *)
Definition Reload {M} (d : dict) (capacity : Z) (ignore_load_factor : bool)
    (mallocSetValid : M -> Z -> V -> M) (kRecoveryThread : Z) (m : M) : outcome (dict * M) :=
  capacity ← apply_load_factor capacity ignore_load_factor;
  chunk_num ← OverFallChunkNum capacity;
  let ids := concat (reload_range chunk_num kRecoveryThread <$> seqZ 0 kRecoveryThread) in
  let table := foldl (fun t id => alter reload_chunk (Z.to_nat id) t) (chunk_table_ d) ids in
  let d := {| capacity_ := u64 (chunk_num * kChunkSize); chunk_num_ := chunk_num;
              size_ := reload_count ((fun id => table !!! Z.to_nat id) <$> ids);
              chunk_table_ := table |} in
  foldM (reload_overflow mallocSetValid) (d, m) ids.

(** ** Hotness-aware migration *)

Definition NextChunk (d : dict) (chunk step : Z) : Z :=
  u64 (chunk + step + chunk_num_ d) mod chunk_num_ d.

Definition PrevChunk (d : dict) (chunk step : Z) : Z :=
  u64 (chunk - step + chunk_num_ d) mod chunk_num_ d.

Fixpoint chain_loop (fuel : nat) (next : dict -> Z -> Z -> Z) (start current step : Z)
    (func : Z -> Chunk.chunk V -> Chunk.chunk V) (d : dict) : outcome dict :=
  if current =? start then Ret (upd d current (func current))
  else match fuel with
       | O => Err Diverges
       | S fuel' =>
           chain_loop fuel' next start (next d current step) step func
             (upd d current (func current))
       end.

Definition ChainTraverseReverse (d : dict) (start end_ step : Z)
    (func : Z -> Chunk.chunk V -> Chunk.chunk V) : outcome dict :=
  chain_loop (Z.to_nat (chunk_num_ d)) PrevChunk start end_ step func d.

Definition ChainTraverse (d : dict) (start end_ step : Z)
    (func : Z -> Chunk.chunk V -> Chunk.chunk V) : outcome dict :=
  chain_loop (Z.to_nat (chunk_num_ d)) NextChunk start end_ step func d.

(** Step 2.2: the victim goes to the next chunk of its probe sequence that is
    not full. *)
Fixpoint victim_loop (n : nat) (d : dict) (victim : Z * V) (sign step pos home_chunk : Z) :
    outcome dict :=
  match n with
  | O => Err CheckFailed
  | S n' =>
      let chunk := at_ d pos in
      if negb (Chunk.size_ chunk =? kChunkSize) then
        '(chunk', _) ← Chunk.Insert chunk victim.1 victim.2 sign;
        _ ← CHECK (negb (home_chunk =? pos));
        Ret (upd d pos (fun _ => chunk'))
      else if Full d then Err LogFatal
      else victim_loop n' (upd d pos Chunk.IncOverflow) victim sign step
             (next_pos d pos step) home_chunk
  end.

Definition migrate_key (d : dict) (key : Z) : outcome dict :=
  let home_chunk := HomeChunk d key in
  let sign := Sign (Hash key) in
  let hotkey_step := ProbeDelta sign in
  if negb (Chunk.Find (at_ d home_chunk) key sign =? -1) then Ret d
  else
    r ← GetInternal d key;
    match r with
    | None => Err CheckFailed
    | Some (current_chunk, current_in_chunk_id) =>
        let value := read_ptr d (current_chunk, current_in_chunk_id) in
        d ← ChainTraverseReverse d home_chunk current_chunk hotkey_step
              (fun _ c => Chunk.with_migrating c true);
        if negb (Chunk.size_ (at_ d home_chunk) =? kChunkSize) then
          '(home', _) ← Chunk.Insert (at_ d home_chunk) key value sign;
          let d := upd d home_chunk (fun _ => home') in
          let d := upd d current_chunk (fun c => Chunk.Delete c current_in_chunk_id) in
          let d := upd d current_chunk Chunk.DecOverflow in
          ChainTraverseReverse d home_chunk current_chunk hotkey_step
            (fun _ c => Chunk.with_migrating c false)
        else
          _ ← CHECK (Chunk.InUse (at_ d home_chunk) 0);
          let victim := Chunk.Get (at_ d home_chunk) 0 in
          let victim_sign := Sign (Hash victim.1) in
          let victim_step := ProbeDelta victim_sign in
          d ← victim_loop (Z.to_nat (chunk_num_ d)) d victim victim_sign victim_step
                (next_pos d home_chunk victim_step) home_chunk;
          let d := upd d home_chunk Chunk.IncOverflow in
          let d := upd d home_chunk (fun c => Chunk.Set_ c 0 sign (key, value)) in
          let d := upd d current_chunk (fun c => Chunk.Delete c current_in_chunk_id) in
          ChainTraverseReverse d home_chunk current_chunk hotkey_step
            (fun pos c =>
               let c := Chunk.with_migrating c false in
               if pos =? current_chunk then c else Chunk.DecOverflow c)
    end.

Definition HotnessAwareMigration (d : dict) (hot_keys : list Z) : outcome dict :=
  foldM migrate_key d hot_keys.
End PetHash.
Arguments dict : clear implicits.

#[export] Instance dict_inhabited {V} : Inhabited (dict V) :=
  populate {| capacity_ := 0; chunk_num_ := 0; size_ := 0; chunk_table_ := [] |}.
End PetHash.
