(* ===== verification/PetHashInv.v ===== *)
(** * PetHash: the invariant

    What every operation of [PetHash] keeps true: the number of chunks is a
    power of two, the chunks are well formed, no key is stored twice, and the
    overflow counter of a chunk is at least the number of entries whose probe
    sequence passes the chunk before it reaches the chunk that holds them (or
    has saturated at 255).  The lemmas here are the ones about the probe
    sequence, the walk of [Delete] and [Reload] along it, and the two facts on
    [GetInternal] that everything else uses. *)

From stdpp Require Import base numbers list gmap.
From Stdlib Require Import ZArith Lia.
From S2P Require Import Prelude F14Chunk PetHashDict.

(** ** The probe sequence *)

(** [next_pos] and [home] as functions of the number of chunks. *)
Definition nextN (N pos step : Z) : Z := Z.land (u64 (pos + step)) (N - 1).

Definition pow2_num (N : Z) : Prop := exists k, 0 <= k <= 50 /\ N = 2 ^ k.

(** The chunks passed on the way from [pos] to [chunk_id]. *)
Fixpoint path_to (fuel : nat) (N pos chunk_id step : Z) : list Z :=
  if pos =? chunk_id then []
  else match fuel with
       | O => []
       | S fuel' => pos :: path_to fuel' N (nextN N pos step) chunk_id step
       end.

Definition path (N key chunk_id : Z) : list Z :=
  path_to (Z.to_nat N) N (Z.land (Hash key) (N - 1)) chunk_id (ProbeDelta (Sign (Hash key))).

(** The first [n] chunks of the sequence. *)
Fixpoint probe_seq (n : nat) (N pos step : Z) : list Z :=
  match n with
  | O => []
  | S n' => pos :: probe_seq n' N (nextN N pos step) step
  end.

Section Probe.
Context (N : Z) (HN : pow2_num N).

Lemma pow2_num_range : 1 <= N <= 2 ^ 50.
Proof using HN.
  destruct HN as (k & Hk & ->). split.
  - assert (0 < 2 ^ k) by (apply Z.pow_pos_nonneg; lia). lia.
  - apply Z.pow_le_mono_r; lia.
Qed.

Lemma land_N x : Z.land x (N - 1) = x mod N.
Proof using HN. destruct HN as (k & Hk & ->). apply land_mask. lia. Qed.

Lemma nextN_mod pos step : nextN N pos step = (pos + step) mod N.
Proof using HN.
  unfold nextN. rewrite land_N. destruct HN as (k & Hk & ->). unfold u64.
  replace (2 ^ 64) with (2 ^ k * 2 ^ (64 - k)) by (rewrite <- Z.pow_add_r by lia; f_equal; lia).
  rewrite Z.rem_mul_r by (apply Z.pow_nonzero || apply Z.pow_pos_nonneg; lia).
  rewrite Z.mul_comm, Z.mod_add by (apply Z.pow_nonzero; lia).
  apply Z.mod_mod. apply Z.pow_nonzero; lia.
Qed.

Lemma nextN_range pos step : 0 <= nextN N pos step < N.
Proof using HN.
  rewrite nextN_mod. pose proof pow2_num_range. apply Z.mod_pos_bound. lia.
Qed.

Lemma home_range key : 0 <= Z.land key (N - 1) < N.
Proof using HN. rewrite land_N. pose proof pow2_num_range. apply Z.mod_pos_bound. lia. Qed.

(** The position after [m] steps. *)
Definition stepN (pos step m : Z) : Z := (pos + m * step) mod N.

Lemma stepN_0 pos step : 0 <= pos < N -> stepN pos step 0 = pos.
Proof. intros. unfold stepN. rewrite Z.mul_0_l, Z.add_0_r. by apply Z.mod_small. Qed.

Lemma stepN_next pos step m : stepN (nextN N pos step) step m = stepN pos step (m + 1).
Proof using HN.
  unfold stepN. rewrite nextN_mod. pose proof pow2_num_range.
  rewrite Z.add_mod_idemp_l by lia. f_equal. lia.
Qed.

Lemma probe_reaches pos key c :
  0 <= c < N -> exists m, 0 <= m < N /\ stepN pos (ProbeDelta key) m = c.
Proof using HN.
  unfold stepN. destruct HN as (k & Hk & HN'). rewrite HN'. intros Hc.
  apply odd_step_surj; [lia|apply ProbeDelta_odd|done].
Qed.

Lemma path_to_in fuel pos c step p :
  0 <= pos < N -> p ∈ path_to fuel N pos c step -> 0 <= p < N.
Proof using HN.
  revert pos. induction fuel as [|fuel IH]; intros pos Hpos; simpl; destruct (pos =? c);
    try (intros []%not_elem_of_nil; fail).
  intros [->|Hin]%elem_of_cons; [done|]. eapply IH; [|done]. apply nextN_range.
Qed.

(** The path to a chunk that the sequence meets after [j] steps is an initial
    part of those [j] steps. *)
Lemma path_to_prefix fuel j pos step :
  0 <= pos < N -> (j <= fuel)%nat ->
  path_to fuel N pos (stepN pos step (Z.of_nat j)) step `prefix_of` probe_seq j N pos step.
Proof using HN.
  revert fuel pos. induction j as [|j IH]; intros fuel pos Hpos Hf.
  - rewrite stepN_0 by done. destruct fuel; simpl; by rewrite Z.eqb_refl.
  - destruct fuel as [|fuel]; [lia|]. cbn [path_to probe_seq].
    destruct (_ =? _); [apply prefix_nil|]. apply prefix_cons.
    replace (stepN pos step (Z.of_nat (S j))) with (stepN (nextN N pos step) step (Z.of_nat j)).
    + apply IH; [apply nextN_range|lia].
    + rewrite stepN_next. f_equal. lia.
Qed.
End Probe.

(** ** The invariant *)

Section Inv.
Import PetHash.
Context {V : Type} `{!Inhabited V}.
Implicit Types (d : dict V) (ex : list Z) (sh : list (list (Z * V))).

(** The entries chunk by chunk. *)
Definition shape d : list (list (Z * V)) := ents <$> chunk_table_ d.

Definition entries d : list (Z * V) := concat (shape d).

(** The map the dict stands for. *)
Definition to_map d : gmap Z V := list_to_map (entries d).

(** The positions passed by the entries, with multiplicity. *)
Definition chunk_paths (N : Z) (c : nat) (l : list (Z * V)) : list Z :=
  concat ((fun kv => path N kv.1 (Z.of_nat c)) <$> l).

Definition all_paths (N : Z) sh : list Z := concat (imap (chunk_paths N) sh).

(** The overflow counters cover a list of passed positions. *)
Definition cov d (L : list Z) : Prop :=
  forall p, 0 <= p < chunk_num_ d ->
    Chunk.overflow_count_ (at_ d p) = 255 \/ occ p L <= Chunk.overflow_count_ (at_ d p).

Record dict_core d : Prop := {
  dw_num : pow2_num (chunk_num_ d);
  dw_len : length (chunk_table_ d) = Z.to_nat (chunk_num_ d);
  dw_cap : capacity_ d = chunk_num_ d * 14;
  dw_chunk : Forall chunk_wf (chunk_table_ d);
  dw_mig : Forall (fun c => Chunk.is_migrating c = false) (chunk_table_ d);
  dw_nodup : NoDup (entries d).*1;
  dw_size : size_ d = Z.of_nat (length (entries d))
}.

(** The invariant; [ex] are the positions that an insertion under way has
    counted already ([[]] between operations). *)
Record dict_wf d ex : Prop := {
  dw_core : dict_core d;
  dw_cov : cov d (all_paths (chunk_num_ d) (shape d) ++ ex)
}.

#[local] Coercion dw_core : dict_wf >-> dict_core.
#[local] Hint Resolve dw_core : core.

(** *** Access *)

Lemma at_lookup d p :
  dict_core d -> 0 <= p < chunk_num_ d -> chunk_table_ d !! Z.to_nat p = Some (at_ d p).
Proof.
  intros Hwf Hp. unfold at_. apply list_lookup_lookup_total_lt.
  rewrite (dw_len _ Hwf). lia.
Qed.

Lemma at_wf d p :
  dict_core d -> 0 <= p < chunk_num_ d ->
  chunk_wf (at_ d p) /\ Chunk.is_migrating (at_ d p) = false.
Proof.
  intros Hwf Hp. pose proof (at_lookup _ _ Hwf Hp) as Hl. split.
  - eapply Forall_lookup_1; [apply (dw_chunk _ Hwf)|done].
  - exact (Forall_lookup_1 _ _ _ _ (dw_mig _ Hwf) Hl).
Qed.

Lemma shape_lookup d p :
  dict_core d -> 0 <= p < chunk_num_ d -> shape d !! Z.to_nat p = Some (ents (at_ d p)).
Proof.
  intros Hwf Hp. unfold shape. rewrite list_lookup_fmap, (at_lookup _ _ Hwf Hp). done.
Qed.

Lemma elem_of_entries d kv :
  dict_core d ->
  kv ∈ entries d <-> exists p, 0 <= p < chunk_num_ d /\ kv ∈ ents (at_ d p).
Proof.
  intros Hwf. unfold entries. rewrite elem_of_concat. split.
  - intros (i & l & Hl & Hin). exists (Z.of_nat i).
    assert (0 <= Z.of_nat i < chunk_num_ d) as Hi.
    { apply lookup_lt_Some in Hl. unfold shape in Hl.
      rewrite length_fmap, (dw_len _ Hwf) in Hl. lia. }
    split; [done|]. pose proof (shape_lookup _ _ Hwf Hi) as Hs.
    rewrite Nat2Z.id, Hl in Hs. by simplify_eq.
  - intros (p & Hp & Hin). exists (Z.to_nat p), (ents (at_ d p)).
    split; [by eapply shape_lookup|done].
Qed.

(** No key is stored twice: where and with what value is determined. *)
Lemma entry_unique d p p' k v v' :
  dict_core d -> 0 <= p < chunk_num_ d -> 0 <= p' < chunk_num_ d ->
  (k, v) ∈ ents (at_ d p) -> (k, v') ∈ ents (at_ d p') -> p = p' /\ v = v'.
Proof.
  intros Hwf Hp Hp' Hin Hin'.
  pose proof (dw_nodup _ Hwf) as Hnd. unfold entries in Hnd.
  assert (p = p') as <-.
  { enough (Z.to_nat p = Z.to_nat p') by lia.
    replace ((concat (shape d)).*1) with (concat ((fun l => l.*1) <$> shape d)) in Hnd
      by (clear; induction (shape d) as [|l sh IH]; [done|]; simpl; rewrite fmap_app; by f_equal).
    eapply (NoDup_concat_lookup _ _ _ _ _ k Hnd).
    - rewrite list_lookup_fmap, (shape_lookup _ _ Hwf Hp). done.
    - rewrite list_lookup_fmap, (shape_lookup _ _ Hwf Hp'). done.
    - apply list_elem_of_fmap. by exists (k, v).
    - apply list_elem_of_fmap. by exists (k, v'). }
  split; [done|].
  assert ((k, v) ∈ entries d) by (eapply elem_of_entries; eauto).
  assert ((k, v') ∈ entries d) by (eapply elem_of_entries; eauto).
  assert (to_map d !! k = Some v) by (apply elem_of_list_to_map_1; [exact Hnd|done]).
  assert (to_map d !! k = Some v') by (apply elem_of_list_to_map_1; [exact Hnd|done]).
  congruence.
Qed.

Lemma to_map_lookup d k v :
  dict_core d -> to_map d !! k = Some v <-> (k, v) ∈ entries d.
Proof. intros Hwf. symmetry. apply elem_of_list_to_map. apply (dw_nodup _ Hwf). Qed.

Lemma to_map_None d k : to_map d !! k = None <-> k ∉ (entries d).*1.
Proof. symmetry. apply not_elem_of_list_to_map. Qed.

(** A slot with the tag of its key is an entry. *)
Lemma slot_entry d p id tag :
  dict_core d -> 0 <= p < chunk_num_ d ->
  Chunk.tags_ (at_ d p) !! id = Some tag -> tag <> 0 ->
  Chunk.Get (at_ d p) id ∈ ents (at_ d p).
Proof.
  intros Hwf Hp Ht Hn. destruct (at_wf _ _ Hwf Hp) as [Hc _].
  apply elem_of_ents. exists id, tag. split; [done|]. split; [done|].
  apply Get_lookup. apply lookup_lt_Some in Ht.
  rewrite (wf_tags _ Hc) in Ht. by rewrite (wf_value _ Hc).
Qed.

(** The chunks on the path of an entry have a counter that is not 0. *)
Lemma path_overflow d ex k v c p :
  dict_wf d ex -> 0 <= c < chunk_num_ d -> (k, v) ∈ ents (at_ d c) ->
  p ∈ path (chunk_num_ d) k c -> Chunk.overflow_count_ (at_ d p) <> 0.
Proof.
  intros Hwf Hc Hin Hp.
  assert (Hpr : 0 <= p < chunk_num_ d).
  { eapply path_to_in; [apply (dw_num _ Hwf)| |exact Hp].
    apply home_range, (dw_num _ Hwf). }
  destruct (dw_cov _ _ Hwf p Hpr) as [->|Hle]; [done|].
  assert (0 < occ p (all_paths (chunk_num_ d) (shape d))) as Hpos.
  { apply occ_pos. unfold all_paths. apply elem_of_concat.
    exists (Z.to_nat c), (chunk_paths (chunk_num_ d) (Z.to_nat c) (ents (at_ d c))). split.
    - rewrite list_lookup_imap, (shape_lookup _ _ Hwf Hc). done.
    - unfold chunk_paths. rewrite Z2Nat.id by lia. apply elem_of_concat.
      apply list_elem_of_lookup in Hin as [i Hi].
      exists i, (path (chunk_num_ d) k c). by rewrite list_lookup_fmap, Hi. }
  rewrite occ_app in Hle. pose proof (occ_nonneg p ex). lia.
Qed.

(** *** Lookup *)

Lemma find_slot_hit d p k v :
  dict_core d -> 0 <= p < chunk_num_ d -> (k, v) ∈ ents (at_ d p) ->
  exists id, Chunk.find_slot (at_ d p) k (Sign (Hash k)) = Some id /\
    Chunk.tags_ (at_ d p) !! id = Some (Sign (Hash k)) /\ Chunk.Get (at_ d p) id = (k, v).
Proof.
  intros Hwf Hp Hin. destruct (at_wf _ _ Hwf Hp) as [Hc _].
  destruct (Chunk.find_slot (at_ d p) k (Sign (Hash k))) as [id|] eqn:E.
  - exists id. destruct (find_slot_Some _ _ _ _ (wf_tags _ Hc) E) as [Ht Hk].
    split; [done|]. split; [done|].
    pose proof (Sign_range (Hash k)).
    pose proof (slot_entry _ _ _ _ Hwf Hp Ht ltac:(lia)) as Hin'.
    destruct (Chunk.Get (at_ d p) id) as [k' v'] eqn:EG. simpl in Hk. subst k'.
    destruct (entry_unique _ _ _ _ _ _ Hwf Hp Hp Hin Hin') as [_ ->]. done.
  - exfalso. apply elem_of_ents in Hin as (i & tag & Ht & Hn & Hv).
    pose proof (wf_slot _ Hc _ _ _ Ht Hv) as (_ & _ & Hs). simpl in Hs.
    rewrite (Hs Hn) in Ht.
    apply (find_slot_None _ k _ i (wf_tags _ Hc) E Ht).
    unfold Chunk.Get. by rewrite (list_lookup_total_correct _ _ _ Hv).
Qed.

Lemma find_slot_miss d p k :
  dict_core d -> 0 <= p < chunk_num_ d -> (forall v, (k, v) ∉ ents (at_ d p)) ->
  Chunk.find_slot (at_ d p) k (Sign (Hash k)) = None.
Proof.
  intros Hwf Hp Hno. destruct (at_wf _ _ Hwf Hp) as [Hc _].
  destruct (Chunk.find_slot _ _ _) as [id|] eqn:E; [|done]. exfalso.
  destruct (find_slot_Some _ _ _ _ (wf_tags _ Hc) E) as [Ht Hk].
  pose proof (Sign_range (Hash k)).
  pose proof (slot_entry _ _ _ _ Hwf Hp Ht ltac:(lia)) as Hin.
  apply (Hno (Chunk.Get (at_ d p) id).2). rewrite <- Hk. by destruct (Chunk.Get _ _).
Qed.

Lemma get_loop_found d ex k v c n m pos touch :
  dict_wf d ex -> 0 <= c < chunk_num_ d -> (k, v) ∈ ents (at_ d c) ->
  0 <= pos < chunk_num_ d -> (m < n)%nat ->
  stepN (chunk_num_ d) pos (ProbeDelta (Sign (Hash k))) (Z.of_nat m) = c ->
  (forall p, p ∈ path_to n (chunk_num_ d) pos c (ProbeDelta (Sign (Hash k))) ->
    Chunk.overflow_count_ (at_ d p) <> 0) ->
  exists id, get_loop n d k (Sign (Hash k)) (ProbeDelta (Sign (Hash k))) pos touch = Found c id /\
    Chunk.tags_ (at_ d c) !! id = Some (Sign (Hash k)) /\ Chunk.Get (at_ d c) id = (k, v).
Proof.
  intros Hwf Hc Hin. pose proof (dw_num _ Hwf) as HN. revert m pos touch.
  induction n as [|n IH]; intros m pos touch Hpos Hm Hreach Hov; [lia|]. cbn [get_loop].
  destruct (decide (pos = c)) as [->|Hne].
  - destruct (find_slot_hit _ _ _ _ Hwf Hc Hin) as (id & -> & Ht & Hg). eauto.
  - rewrite (find_slot_miss _ _ _ Hwf Hpos).
    2:{ intros v' Hin'. by destruct (entry_unique _ _ _ _ _ _ Hwf Hc Hpos Hin Hin') as [-> _]. }
    cbn [path_to] in Hov. rewrite (proj2 (Z.eqb_neq pos c) Hne) in Hov.
    rewrite (proj2 (Z.eqb_neq _ 0)) by (apply Hov; set_solver).
    destruct m as [|m].
    { rewrite stepN_0 in Hreach by done. congruence. }
    apply (IH m).
    + by apply nextN_range.
    + lia.
    + change (next_pos d pos ?s) with (nextN (chunk_num_ d) pos s).
      rewrite stepN_next by done. rewrite <- Hreach. f_equal. lia.
    + intros p Hp. apply Hov. set_solver.
Qed.

Lemma get_loop_missing d ex k n pos :
  dict_wf d ex -> (forall v, (k, v) ∉ entries d) -> 0 <= pos < chunk_num_ d ->
  get_loop n d k (Sign (Hash k)) (ProbeDelta (Sign (Hash k))) pos false = Missing false.
Proof.
  intros Hwf Hno. pose proof (dw_num _ Hwf) as HN. revert pos.
  induction n as [|n IH]; intros pos Hpos; [done|]. cbn [get_loop].
  rewrite (find_slot_miss _ _ _ Hwf Hpos).
  2:{ intros v Hin. apply (Hno v). eapply elem_of_entries; eauto. }
  destruct (at_wf _ _ Hwf Hpos) as [_ ->]. simpl.
  destruct (_ =? 0); [done|]. apply IH. by apply nextN_range.
Qed.

Lemma GetInternal_found d ex k v c :
  dict_wf d ex -> 0 <= c < chunk_num_ d -> (k, v) ∈ ents (at_ d c) ->
  exists id, GetInternal d k = Ret (Some (c, id)) /\
    Chunk.tags_ (at_ d c) !! id = Some (Sign (Hash k)) /\ Chunk.Get (at_ d c) id = (k, v).
Proof.
  intros Hwf Hc Hin. pose proof (dw_num _ Hwf) as HN.
  pose proof (home_range _ HN (Hash k)) as Hh.
  destruct (probe_reaches _ HN (home d k) (Sign (Hash k)) c Hc) as (m & Hm & Hr).
  destruct (get_loop_found d ex k v c (Z.to_nat (chunk_num_ d)) (Z.to_nat m) (home d k) false
    Hwf Hc Hin) as (id & Hg & Ht & Hv).
  - exact Hh.
  - lia.
  - rewrite Z2Nat.id by lia. exact Hr.
  - intros p Hp. apply (path_overflow d ex k v c p Hwf Hc Hin). exact Hp.
  - exists id. unfold GetInternal. by rewrite Hg.
Qed.

Lemma GetInternal_missing d ex k :
  dict_wf d ex -> (forall v, (k, v) ∉ entries d) -> GetInternal d k = Ret None.
Proof.
  intros Hwf Hno. unfold GetInternal.
  rewrite (get_loop_missing _ _ _ _ _ Hwf Hno); [done|].
  apply home_range, (dw_num _ Hwf).
Qed.

Lemma entries_dec d k :
  (exists v, (k, v) ∈ entries d) \/ (forall v, (k, v) ∉ entries d).
Proof.
  destruct (decide (k ∈ (entries d).*1)) as [Hin|Hno].
  - left. apply list_elem_of_fmap in Hin as ([k' v] & -> & Hin). eauto.
  - right. intros v Hin. apply Hno. apply list_elem_of_fmap. by exists (k, v).
Qed.

Lemma GetInternal_total d ex k :
  dict_wf d ex ->
  (GetInternal d k = Ret None /\ to_map d !! k = None) \/
  exists c id v, GetInternal d k = Ret (Some (c, id)) /\ 0 <= c < chunk_num_ d /\
    (k, v) ∈ ents (at_ d c) /\ to_map d !! k = Some v /\
    Chunk.tags_ (at_ d c) !! id = Some (Sign (Hash k)) /\ Chunk.Get (at_ d c) id = (k, v).
Proof.
  intros Hwf. destruct (entries_dec d k) as [[v Hin]|Hno].
  - right. pose proof Hin as Hin'. eapply elem_of_entries in Hin as (c & Hc & Hin); [|by eauto].
    destruct (GetInternal_found _ _ _ _ _ Hwf Hc Hin) as (id & ? & ? & ?).
    exists c, id, v. split_and!; try done; try lia. eapply to_map_lookup; eauto.
  - left. split; [by eapply GetInternal_missing|]. apply to_map_None.
    intros Hin. apply list_elem_of_fmap in Hin as ([k' v] & -> & Hin). by apply (Hno v).
Qed.
End Inv.
