(* ===== verification/PetHashOps.v ===== *)
(** * PetHash: what the operations do

    The effect of each update of the chunk table on the invariant, and from
    there the specifications of [Delete], of the expiry loop and of the
    insertion loop, as lemmas over [to_map]. *)

From stdpp Require Import base numbers list gmap.
From Stdlib Require Import ZArith Lia.
From S2P Require Import Prelude F14Chunk PetHashDict PetHashInv.

Section Ops.
Import PetHash.
Context {V : Type} `{!Inhabited V}.
Implicit Types (d : dict V) (ex L : list Z) (k p pos : Z) (v : V).

#[local] Coercion dw_core : dict_wf >-> dict_core.
#[local] Hint Resolve dw_core : core.

(** ** One chunk updated *)

Lemma at_upd d p f q :
  length (chunk_table_ d) = Z.to_nat (chunk_num_ d) ->
  0 <= p < chunk_num_ d -> 0 <= q ->
  at_ (upd d p f) q = if decide (q = p) then f (at_ d q) else at_ d q.
Proof.
  intros Hl Hp Hq. unfold at_, upd. simpl. case_decide as E.
  - subst. rewrite list_lookup_total_alter_eq; [done|]. lia.
  - rewrite list_lookup_total_alter_ne; [done|]. lia.
Qed.

Lemma shape_upd d p f :
  length (chunk_table_ d) = Z.to_nat (chunk_num_ d) -> 0 <= p < chunk_num_ d ->
  shape (upd d p f) = <[Z.to_nat p := ents (f (at_ d p))]> (shape d).
Proof.
  intros Hl Hp. unfold shape, upd, at_. simpl.
  rewrite (list_alter_as_insert f _ _ (chunk_table_ d !!! Z.to_nat p)).
  - apply list_fmap_insert.
  - apply list_lookup_lookup_total_lt. lia.
Qed.

Lemma shape_upd_same d p f :
  length (chunk_table_ d) = Z.to_nat (chunk_num_ d) -> 0 <= p < chunk_num_ d ->
  ents (f (at_ d p)) = ents (at_ d p) -> shape (upd d p f) = shape d.
Proof.
  intros Hl Hp He. rewrite shape_upd, He by done. apply list_insert_id.
  unfold shape, at_. rewrite list_lookup_fmap, (list_lookup_lookup_total_lt _ (Z.to_nat p)); [done|lia].
Qed.

(** The table part of the invariant after the update of a chunk. *)
Lemma core_upd d p f n :
  dict_core d -> 0 <= p < chunk_num_ d ->
  chunk_wf (f (at_ d p)) -> Chunk.is_migrating (f (at_ d p)) = false ->
  NoDup (entries (upd d p f)).*1 -> n = Z.of_nat (length (entries (upd d p f))) ->
  dict_core (with_size (upd d p f) n).
Proof.
  intros Hd Hp Hc Hm Hn Hs.
  pose proof (at_lookup _ _ Hd Hp) as Hl.
  assert (Hall : forall P : Chunk.chunk V -> Prop, Forall P (chunk_table_ d) ->
    P (f (at_ d p)) -> Forall P (alter f (Z.to_nat p) (chunk_table_ d))).
  { intros P HF HP. rewrite (list_alter_as_insert _ _ _ _ Hl). by apply Forall_insert. }
  split; simpl.
  - apply (dw_num _ Hd).
  - rewrite length_alter. apply (dw_len _ Hd).
  - apply (dw_cap _ Hd).
  - apply Hall; [apply (dw_chunk _ Hd)|done].
  - apply Hall; [apply (dw_mig _ Hd)|done].
  - exact Hn.
  - exact Hs.
Qed.

Lemma with_size_same d : with_size d (size_ d) = d.
Proof. by destruct d. Qed.

Lemma core_upd_same d p f :
  dict_core d -> 0 <= p < chunk_num_ d ->
  chunk_wf (f (at_ d p)) -> Chunk.is_migrating (f (at_ d p)) = false ->
  ents (f (at_ d p)) = ents (at_ d p) -> dict_core (upd d p f).
Proof.
  intros Hd Hp Hc Hm He.
  assert (Hsh : entries (upd d p f) = entries d).
  { unfold entries. rewrite shape_upd_same; [done|apply (dw_len _ Hd)|done..]. }
  rewrite <- (with_size_same (upd d p f)). apply core_upd; [done..| |].
  - rewrite Hsh. apply (dw_nodup _ Hd).
  - rewrite Hsh. apply (dw_size _ Hd).
Qed.

(** Updates of a chunk that change only its overflow counter. *)
Definition counter_op (f : Chunk.chunk V -> Chunk.chunk V) : Prop :=
  forall c, chunk_wf c -> chunk_wf (f c) /\ Chunk.tags_ (f c) = Chunk.tags_ c /\
    Chunk.value_ (f c) = Chunk.value_ c /\ Chunk.size_ (f c) = Chunk.size_ c /\
    Chunk.is_migrating (f c) = Chunk.is_migrating c.

Lemma IncOverflow_op : counter_op Chunk.IncOverflow.
Proof.
  intros c Hc. split; [by apply IncOverflow_wf|].
  unfold Chunk.IncOverflow. by destruct (_ =? _).
Qed.

Lemma DecOverflow_op : counter_op Chunk.DecOverflow.
Proof.
  intros c Hc. split; [by apply DecOverflow_wf|].
  unfold Chunk.DecOverflow. by destruct (_ =? _).
Qed.

Lemma ents_same (c c' : Chunk.chunk V) :
  Chunk.tags_ c' = Chunk.tags_ c -> Chunk.value_ c' = Chunk.value_ c -> ents c' = ents c.
Proof. unfold ents. by intros -> ->. Qed.

Lemma counter_upd d p f :
  counter_op f -> dict_core d -> 0 <= p < chunk_num_ d ->
  dict_core (upd d p f) /\ shape (upd d p f) = shape d.
Proof.
  intros Hf Hd Hp. destruct (at_wf _ _ Hd Hp) as [Hc Hm].
  destruct (Hf _ Hc) as (Hc' & Ht & Hv & Hs & Hm').
  pose proof (ents_same _ _ Ht Hv) as He. split.
  - apply core_upd_same; [done..|congruence|done].
  - apply shape_upd_same; [apply (dw_len _ Hd)|done..].
Qed.

Lemma cov_inc d p L :
  dict_core d -> 0 <= p < chunk_num_ d -> cov d L -> cov (upd d p Chunk.IncOverflow) (p :: L).
Proof.
  intros Hd Hp HL q Hq. simpl in Hq. specialize (HL q Hq).
  rewrite at_upd, occ_cons by (apply (dw_len _ Hd) || lia).
  destruct (decide (q = p)) as [->|]; [|rewrite Z.add_0_l; done].
  destruct (at_wf _ _ Hd Hp) as [Hc _]. pose proof (wf_ov _ Hc).
  unfold Chunk.IncOverflow. destruct (_ =? 255) eqn:E; b2p; [by left|].
  simpl. rewrite u8_small by lia. lia.
Qed.

Lemma cov_dec d p L :
  dict_core d -> 0 <= p < chunk_num_ d -> cov d (p :: L) -> cov (upd d p Chunk.DecOverflow) L.
Proof.
  intros Hd Hp HL q Hq. simpl in Hq. specialize (HL q Hq).
  rewrite occ_cons in HL. rewrite at_upd by (apply (dw_len _ Hd) || lia).
  destruct (decide (q = p)) as [->|]; [|rewrite Z.add_0_l in HL; done].
  destruct (at_wf _ _ Hd Hp) as [Hc _]. pose proof (wf_ov _ Hc). pose proof (occ_nonneg p L).
  unfold Chunk.DecOverflow. destruct (_ =? 255) eqn:E; b2p; [by left|].
  simpl. rewrite u8_small by lia. lia.
Qed.

Lemma cov_perm d L L' : L ≡ₚ L' -> cov d L -> cov d L'.
Proof. intros HP HL p Hp. rewrite <- (occ_perm p L L' HP). by apply HL. Qed.

Lemma cov_le d L L' : (forall p, occ p L' <= occ p L) -> cov d L -> cov d L'.
Proof. intros Hle HL p Hp. destruct (HL p Hp); [by left|right]. specialize (Hle p). lia. Qed.

(** ** The walk along a path *)

Definition upds (f : Chunk.chunk V -> Chunk.chunk V) d (l : list Z) : dict V :=
  foldl (fun d p => upd d p f) d l.

Lemma upds_frame f d l :
  chunk_num_ (upds f d l) = chunk_num_ d /\ capacity_ (upds f d l) = capacity_ d /\
  size_ (upds f d l) = size_ d.
Proof.
  unfold upds. revert d. induction l as [|p l IH]; intros d; [done|]. simpl.
  apply (IH (upd d p f)).
Qed.

(** The loop ends when the sequence meets the target, and it has then updated
    the chunks of the path. *)
Lemma walk_path_spec f fuel m d pos c step :
  pow2_num (chunk_num_ d) -> 0 <= pos < chunk_num_ d -> (m <= fuel)%nat ->
  stepN (chunk_num_ d) pos step (Z.of_nat m) = c ->
  walk_path f fuel d pos c step = Ret (upds f d (path_to fuel (chunk_num_ d) pos c step)).
Proof.
  revert fuel d pos. induction m as [|m IH]; intros fuel d pos HN Hpos Hm Hr.
  - rewrite stepN_0 in Hr by done. subst. destruct fuel; simpl; by rewrite Z.eqb_refl.
  - destruct fuel as [|fuel]; [lia|]. cbn [walk_path path_to].
    destruct (_ =? _); [done|]. cbn [upds foldl].
    change (next_pos d pos step) with (nextN (chunk_num_ d) pos step).
    rewrite IH; [done|done|by apply nextN_range|lia|].
    simpl. rewrite stepN_next by done. rewrite <- Hr. f_equal. lia.
Qed.

Lemma upds_core f d l :
  counter_op f -> dict_core d -> (forall p, p ∈ l -> 0 <= p < chunk_num_ d) ->
  dict_core (upds f d l) /\ shape (upds f d l) = shape d.
Proof.
  intros Hf. unfold upds. revert d. induction l as [|p l IH]; intros d Hd Hl; [done|]. simpl.
  destruct (counter_upd d p f Hf Hd) as [Hd' Hs]; [apply Hl; set_solver|].
  destruct (IH (upd d p f)) as [Hd'' Hs']; [done|intros; apply Hl; set_solver|].
  split; [done|congruence].
Qed.

Lemma upds_at f d l q :
  counter_op f -> dict_core d -> (forall p, p ∈ l -> 0 <= p < chunk_num_ d) ->
  0 <= q < chunk_num_ d ->
  Chunk.tags_ (at_ (upds f d l) q) = Chunk.tags_ (at_ d q) /\
  Chunk.value_ (at_ (upds f d l) q) = Chunk.value_ (at_ d q) /\
  Chunk.size_ (at_ (upds f d l) q) = Chunk.size_ (at_ d q).
Proof.
  intros Hf. unfold upds. revert d. induction l as [|p l IH]; intros d Hd Hl Hq; [done|]. simpl.
  assert (Hp : 0 <= p < chunk_num_ d) by (apply Hl; set_solver).
  destruct (counter_upd d p f Hf Hd Hp) as [Hd' _].
  destruct (IH (upd d p f)) as (-> & -> & ->); [done|intros; apply Hl; set_solver|done|].
  rewrite at_upd by (apply (dw_len _ Hd) || lia).
  case_decide; [|done]. subst q.
  destruct (at_wf _ _ Hd Hp) as [Hc _]. by destruct (Hf _ Hc) as (_ & ? & ? & ? & _).
Qed.

Lemma cov_incs d l L :
  dict_core d -> (forall p, p ∈ l -> 0 <= p < chunk_num_ d) ->
  cov d L -> cov (upds Chunk.IncOverflow d l) (l ++ L).
Proof.
  revert d L. induction l as [|p l IH]; intros d L Hd Hl HL; [done|].
  assert (0 <= p < chunk_num_ d) by (apply Hl; set_solver).
  destruct (counter_upd d p _ IncOverflow_op Hd) as [Hd' _]; [done|].
  eapply cov_perm; [|apply (IH (upd d p Chunk.IncOverflow) (p :: L))].
  - simpl. by rewrite <- Permutation_middle.
  - done.
  - intros. apply Hl. set_solver.
  - by apply cov_inc.
Qed.

Lemma cov_decs d l L :
  dict_core d -> (forall p, p ∈ l -> 0 <= p < chunk_num_ d) ->
  cov d (l ++ L) -> cov (upds Chunk.DecOverflow d l) L.
Proof.
  revert d. induction l as [|p l IH]; intros d Hd Hl HL; [done|].
  assert (0 <= p < chunk_num_ d) by (apply Hl; set_solver).
  destruct (counter_upd d p _ DecOverflow_op Hd) as [Hd' _]; [done|].
  apply (IH (upd d p Chunk.DecOverflow)); [done| |].
  - intros. apply Hl. set_solver.
  - by apply cov_dec.
Qed.

(** ** One chunk's entries replaced *)

Lemma chunk_paths_perm N c (l l' : list (Z * V)) :
  l ≡ₚ l' -> chunk_paths N c l ≡ₚ chunk_paths N c l'.
Proof.
  intros HP. unfold chunk_paths. induction HP as [|x l l' HP IH|x y l|? ? ? ? IH1 ? IH2]; simpl.
  - done.
  - by rewrite IH.
  - rewrite !(assoc_L (++)). by rewrite (comm (++) (path N y.1 _)).
  - by rewrite IH1.
Qed.

Lemma chunk_paths_cons p n kv (l : list (Z * V)) :
  0 <= p < n ->
  chunk_paths n (Z.to_nat p) (kv :: l) = path n kv.1 p ++ chunk_paths n (Z.to_nat p) l.
Proof. intros Hp. unfold chunk_paths. rewrite fmap_cons. simpl. by rewrite Z2Nat.id by lia. Qed.

Lemma entries_upd d p f :
  dict_core d -> 0 <= p < chunk_num_ d ->
  exists rest rest',
    entries d ≡ₚ ents (at_ d p) ++ rest /\
    entries (upd d p f) ≡ₚ ents (f (at_ d p)) ++ rest /\
    all_paths (chunk_num_ d) (shape d) ≡ₚ
      chunk_paths (chunk_num_ d) (Z.to_nat p) (ents (at_ d p)) ++ rest' /\
    all_paths (chunk_num_ d) (shape (upd d p f)) ≡ₚ
      chunk_paths (chunk_num_ d) (Z.to_nat p) (ents (f (at_ d p))) ++ rest'.
Proof.
  intros Hd Hp. pose proof (shape_lookup _ _ Hd Hp) as Hs.
  destruct (concat_insert_perm (shape d) _ _ Hs) as (rest & H1 & H2).
  destruct (concat_insert_perm (imap (chunk_paths (chunk_num_ d)) (shape d)) (Z.to_nat p)
    (chunk_paths (chunk_num_ d) (Z.to_nat p) (ents (at_ d p)))) as (rest' & H3 & H4).
  { by rewrite list_lookup_imap, Hs. }
  exists rest, rest'. unfold entries, all_paths.
  rewrite shape_upd by (apply (dw_len _ Hd) || done). rewrite imap_insert. eauto.
Qed.

Lemma to_map_perm d d' :
  NoDup (entries d).*1 -> entries d ≡ₚ entries d' -> to_map d = to_map d'.
Proof. intros Hn HP. unfold to_map. by apply list_to_map_proper. Qed.

Lemma to_map_cons d d' k v :
  NoDup (entries d').*1 -> entries d' ≡ₚ (k, v) :: entries d ->
  to_map d' = <[k := v]> (to_map d) /\ to_map d !! k = None.
Proof.
  intros Hn HP. pose proof Hn as Hn'. rewrite HP in Hn'. simpl in Hn'.
  apply NoDup_cons in Hn' as [Hk _]. split; [|by apply to_map_None].
  unfold to_map. by rewrite (list_to_map_proper (entries d') _ Hn HP).
Qed.

Lemma size_bound d : dict_core d -> 0 <= size_ d <= chunk_num_ d * 14.
Proof.
  intros Hd. rewrite (dw_size _ Hd). split; [lia|]. unfold entries, shape.
  pose proof (pow2_num_range _ (dw_num _ Hd)).
  assert (length (concat (ents <$> chunk_table_ d)) <= length (chunk_table_ d) * 14)%nat as Hl.
  { pose proof (dw_chunk _ Hd) as Hc. induction (chunk_table_ d) as [|c t IH]; [done|].
    apply Forall_cons in Hc as [Hc Ht]. rewrite fmap_cons. cbn [concat length]. rewrite length_app.
    pose proof (ents_length c (wf_tags _ Hc) (wf_value _ Hc)). specialize (IH Ht). lia. }
  rewrite (dw_len _ Hd) in Hl. lia.
Qed.

Lemma size_u64 d x : dict_core d -> -1 <= x <= 1 -> 0 <= size_ d + x -> u64 (size_ d + x) = size_ d + x.
Proof.
  intros Hd Hx H0. pose proof (size_bound d Hd). pose proof (pow2_num_range _ (dw_num _ Hd)).
  apply u64_small. lia.
Qed.

(** ** The dict only shrinks *)

(** Same table, no chunk with more entries than before. *)
Record shrinks d d' : Prop := {
  sh_num : chunk_num_ d' = chunk_num_ d;
  sh_cap : capacity_ d' = capacity_ d;
  sh_size : size_ d' <= size_ d;
  sh_chunk : forall q, 0 <= q < chunk_num_ d ->
    Chunk.size_ (at_ d' q) <= Chunk.size_ (at_ d q)
}.

#[global] Instance shrinks_preorder : PreOrder shrinks.
Proof.
  split; [by split|]. intros d1 d2 d3 [] []. split; try congruence; [lia|].
  intros q Hq. etrans; [|by eauto]. apply sh_chunk1. lia.
Qed.

(** ** Removal *)

(** [chunk->Delete(id)] and [size_--]. *)
Lemma remove_at d p id tag :
  dict_core d -> 0 <= p < chunk_num_ d -> Chunk.tags_ (at_ d p) !! id = Some tag -> tag <> 0 ->
  let d' := with_size (upd d p (fun c => Chunk.Delete c id)) (u64 (size_ d - 1)) in
  dict_core d' /\ entries d ≡ₚ Chunk.Get (at_ d p) id :: entries d' /\
  all_paths (chunk_num_ d) (shape d) ≡ₚ
    path (chunk_num_ d) (Chunk.Get (at_ d p) id).1 p ++ all_paths (chunk_num_ d) (shape d') /\
  shrinks d d' /\ Chunk.size_ (at_ d' p) = Chunk.size_ (at_ d p) - 1 /\
  forall L, cov d L -> cov d' L.
Proof.
  intros Hd Hp Ht Hn. cbn zeta. destruct (at_wf _ _ Hd Hp) as [Hc Hm].
  destruct (chunk_Delete_spec _ _ _ Hc Ht Hn) as [Hc' HP].
  set (f := fun c : Chunk.chunk V => Chunk.Delete c id).
  destruct (entries_upd d p f Hd Hp) as (rest & rest' & E1 & E2 & P1 & P2).
  assert (HE : entries d ≡ₚ Chunk.Get (at_ d p) id :: entries (upd d p f)).
  { by rewrite E1, E2, HP. }
  assert (Hlen : size_ d - 1 = Z.of_nat (length (entries (upd d p f)))).
  { rewrite (dw_size _ Hd), HE. simpl. lia. }
  assert (Hs1 : Chunk.size_ (f (at_ d p)) = Chunk.size_ (at_ d p) - 1).
  { unfold f. rewrite (wf_size _ Hc'), (wf_size _ Hc), HP. cbn [length]. lia. }
  replace (u64 (size_ d - 1)) with (size_ d - 1)
    by (symmetry; apply (size_u64 d (-1)); [done|lia|lia]).
  split_and!.
  - apply core_upd; [done|done|done|exact Hm| |done].
    pose proof (dw_nodup _ Hd) as Hnd. rewrite HE in Hnd. by apply NoDup_cons in Hnd as [_ ?].
  - exact HE.
  - rewrite P1. change (shape (with_size ?x _)) with (shape x).
    rewrite P2, (chunk_paths_perm _ _ _ _ HP).
    rewrite (chunk_paths_cons p) by done. by rewrite <- (assoc_L (++)).
  - split; try done; [simpl; lia|]. intros q Hq. change (at_ (with_size ?x _)) with (at_ x).
    rewrite at_upd by (apply (dw_len _ Hd) || lia). case_decide; subst; lia.
  - change (at_ (with_size ?x _)) with (at_ x).
    rewrite at_upd, decide_True by (apply (dw_len _ Hd) || lia). done.
  - intros L HL q Hq. change (at_ (with_size ?x _)) with (at_ x).
    rewrite at_upd by (apply (dw_len _ Hd) || (simpl in Hq; lia)). specialize (HL q Hq).
    case_decide; [by subst|done].
Qed.

Lemma item_pos_split p (id : nat) :
  0 <= p <= 2 ^ 50 -> (id < 14)%nat ->
  item_pos p id / kChunkSize = p /\ Z.to_nat (item_pos p id mod kChunkSize) = id.
Proof.
  intros Hp Hi. unfold item_pos, kChunkSize, kMaxSize. rewrite u64_small by lia. split.
  - rewrite Z.div_add_l by lia. rewrite Z.div_small by lia. lia.
  - rewrite Z.add_comm, Z.mod_add by lia. rewrite Z.mod_small by lia. lia.
Qed.

(** What [Delete] finds it removes, and nothing else. *)
Lemma Delete_total d ex k :
  dict_wf d ex ->
  exists d', Delete d k = Ret d' /\ dict_wf d' ex /\ to_map d' = delete k (to_map d) /\
    shrinks d d' /\
    forall c v, 0 <= c < chunk_num_ d -> (k, v) ∈ ents (at_ d c) ->
      Chunk.size_ (at_ d' c) = Chunk.size_ (at_ d c) - 1.
Proof.
  intros Hwf. pose proof (dw_num _ Hwf) as HN. pose proof (pow2_num_range _ HN) as HNr.
  destruct (GetInternal_total d ex k Hwf) as [[HG Hno]|(c & id & v & HG & Hc & Hin & Hm & Ht & Hv)];
    unfold Delete; rewrite HG; cbn [mbind outcome_bind].
  - exists d. split_and!; [done|done| |done|].
    + by rewrite delete_id.
    + intros c v Hc Hin. exfalso. assert (to_map d !! k = Some v); [|congruence].
      eapply to_map_lookup; [by eauto|]. eapply elem_of_entries; eauto.
  - destruct (at_wf _ _ Hwf Hc) as [Hcw _].
    assert (Hid : (id < 14)%nat) by (apply lookup_lt_Some in Ht; by rewrite (wf_tags _ Hcw) in Ht).
    destruct (item_pos_split c id) as [-> ->]; [lia|done|].
    destruct (probe_reaches _ HN (home d k) (Sign (Hash k)) c Hc) as (m & Hm' & Hr).
    rewrite (walk_path_spec _ _ (Z.to_nat m));
      [|done|apply home_range, HN|lia|rewrite Z2Nat.id by lia; exact Hr].
    cbn [mbind outcome_bind].
    change (path_to _ _ _ _ _) with (path (chunk_num_ d) k c).
    set (l := path (chunk_num_ d) k c).
    assert (Hl : forall p, p ∈ l -> 0 <= p < chunk_num_ d).
    { intros p Hp. eapply path_to_in; [done| |exact Hp]. apply home_range, HN. }
    set (d1 := upds Chunk.DecOverflow d l).
    destruct (upds_core _ d l DecOverflow_op Hwf Hl) as [Hd1 Hsh].
    destruct (upds_frame Chunk.DecOverflow d l) as (HN1 & Hcap1 & Hsz1).
    destruct (upds_at _ d l c DecOverflow_op Hwf Hl Hc) as (Ht1 & Hv1 & Hs1).
    fold d1 in Hd1, Hsh, HN1, Hcap1, Hsz1, Ht1, Hv1, Hs1.
    assert (HG1 : Chunk.Get (at_ d1 c) id = (k, v)) by (unfold Chunk.Get in *; by rewrite Hv1).
    pose proof (Sign_range (Hash k)) as Hsg.
    destruct (remove_at d1 c id (Sign (Hash k))) as (Hd2 & HE & HP & Hsh2 & Hs2 & Hcov);
      [done|congruence|congruence|lia|].
    rewrite HG1 in HE, HP. eexists. split; [reflexivity|].
    set (d2 := with_size _ _) in *.
    assert (HE' : entries d ≡ₚ (k, v) :: entries d2) by (rewrite <- HE; unfold entries; by rewrite Hsh).
    split_and!.
    + split; [done|]. apply Hcov. rewrite HN1, Hsh in HP.
      replace (chunk_num_ d2) with (chunk_num_ d) by done.
      apply cov_decs; [by eauto|done|]. eapply cov_perm; [|apply (dw_cov _ _ Hwf)].
      rewrite HP. by rewrite <- (assoc_L (++)).
    + destruct (to_map_cons d2 d k v) as [-> Hk]; [apply (dw_nodup _ Hwf)|done|].
      by rewrite delete_insert_id.
    + transitivity d1; [|done]. split; [done|done|lia|]. intros q Hq. unfold d1.
      by destruct (upds_at _ d l q DecOverflow_op Hwf Hl Hq) as (_ & _ & ->).
    + intros c' v' Hc' Hin'. destruct (entry_unique _ _ _ _ _ _ Hwf Hc Hc' Hin Hin') as [<- _]. lia.
Qed.

(** ** Pointers to values *)

(** A key has one slot in its chunk. *)
Lemma slot_unique d c i j ti tj :
  dict_core d -> 0 <= c < chunk_num_ d ->
  Chunk.tags_ (at_ d c) !! i = Some ti -> ti <> 0 ->
  Chunk.tags_ (at_ d c) !! j = Some tj -> tj <> 0 ->
  (Chunk.Get (at_ d c) i).1 = (Chunk.Get (at_ d c) j).1 -> i = j.
Proof.
  intros Hd Hc Hi Hti Hj Htj Hk. destruct (decide (i = j)) as [|Hne]; [done|]. exfalso.
  destruct (at_wf _ _ Hd Hc) as [Hcw _].
  destruct (remove_at d c i ti Hd Hc Hi Hti) as (_ & HE & _).
  pose proof (dw_nodup _ Hd) as Hnd. rewrite HE in Hnd. apply NoDup_cons in Hnd as [Hni _].
  apply Hni. rewrite Hk. apply list_elem_of_fmap. exists (Chunk.Get (at_ d c) j). split; [done|].
  destruct (remove_at d c i ti Hd Hc Hi Hti) as (Hd' & _).
  apply (elem_of_entries _ _ Hd'). exists c. split; [done|].
  change (at_ (with_size ?x _)) with (at_ x).
  rewrite at_upd, decide_True by (apply (dw_len _ Hd) || lia).
  apply elem_of_ents. exists j, tj. simpl.
  rewrite list_lookup_insert_ne, list_lookup_alter_ne by done. split_and!; [done|done|].
  apply Get_lookup. rewrite (wf_value _ Hcw). apply lookup_lt_Some in Hj.
  by rewrite (wf_tags _ Hcw) in Hj.
Qed.

(** The slot that holds a key is the one [GetInternal] returns. *)
Lemma GetInternal_at d ex c id k tag :
  dict_wf d ex -> 0 <= c < chunk_num_ d -> Chunk.tags_ (at_ d c) !! id = Some tag -> tag <> 0 ->
  (Chunk.Get (at_ d c) id).1 = k -> GetInternal d k = Ret (Some (c, id)).
Proof.
  intros Hwf Hc Ht Hn <-. pose proof (slot_entry _ _ _ _ Hwf Hc Ht Hn) as Hin.
  destruct (Chunk.Get (at_ d c) id) as [k v] eqn:E. cbn [fst].
  destruct (GetInternal_found _ _ _ _ _ Hwf Hc Hin) as (id' & -> & Ht' & Hv').
  pose proof (Sign_range (Hash k)).
  rewrite (slot_unique d c id' id _ tag Hwf Hc Ht'); [done|lia|done..|by rewrite Hv', E].
Qed.

(** [*p = value] for the pointer that a lookup returned. *)
Lemma write_ptr_total d ex k (p : Z * nat) v :
  dict_wf d ex -> GetInternal d k = Ret (Some p) ->
  dict_wf (write_ptr d p v) ex /\ to_map (write_ptr d p v) = <[k := v]> (to_map d) /\
  GetInternal (write_ptr d p v) k = Ret (Some p) /\ read_ptr (write_ptr d p v) p = v.
Proof.
  intros Hwf HG.
  destruct (GetInternal_total d ex k Hwf) as [[HG' _]|(c & id & w & HG' & Hc & Hin & Hm & Ht & Hv)];
    [congruence|]. rewrite HG in HG'. simplify_eq. unfold write_ptr. cbn [fst snd].
  destruct (at_wf _ _ Hwf Hc) as [Hcw Hmig]. pose proof (Sign_range (Hash k)) as Hsg.
  destruct (write_second_spec _ _ _ v Hcw Ht ltac:(lia)) as (Hcw' & l & H1 & H2).
  rewrite Hv in H1, H2. simpl in H2.
  set (f := fun c : Chunk.chunk V => write_second c id v) in *.
  destruct (entries_upd d c f Hwf Hc) as (rest & rest' & E1 & E2 & P1 & P2).
  unfold f in E2, P2. rewrite H2 in E2. rewrite H1 in E1.
  rewrite (chunk_paths_perm _ _ _ _ H1) in P1. rewrite (chunk_paths_perm _ _ _ _ H2) in P2.
  rewrite (chunk_paths_cons c) in P1, P2 by done. fold f in E2, P2.
  assert (Hat : at_ (upd d c f) c = write_second (at_ d c) id v).
  { by rewrite at_upd, decide_True by (apply (dw_len _ Hwf) || lia). }
  assert (Hget : Chunk.Get (at_ (upd d c f) c) id = (k, v)).
  { rewrite Hat. unfold Chunk.Get. cbn [write_second Chunk.value_].
    rewrite list_lookup_total_alter_eq; [by unfold Chunk.Get in Hv; rewrite Hv|].
    rewrite (wf_value _ Hcw). apply lookup_lt_Some in Ht. by rewrite (wf_tags _ Hcw) in Ht. }
  assert (Hd' : dict_wf (upd d c f) ex).
  { split.
    - rewrite <- (with_size_same (upd d c f)). apply core_upd; [by eauto|done..| |].
      + rewrite E2. pose proof (dw_nodup _ Hwf) as Hnd. by rewrite E1 in Hnd.
      + cbn [size_ upd]. by rewrite (dw_size _ Hwf), E1, E2.
    - intros q Hq. cbn [chunk_num_ upd] in Hq |- *. rewrite at_upd by (apply (dw_len _ Hwf) || lia).
      pose proof (dw_cov _ _ Hwf q Hq) as HL. rewrite P1 in HL. rewrite P2.
      case_decide; [by subst|done]. }
  split; [done|]. split_and!.
  - unfold to_map. rewrite (list_to_map_proper (entries d) _ (dw_nodup _ Hwf) E1).
    rewrite (list_to_map_proper (entries (upd d c f)) _ (dw_nodup _ Hd') E2). simpl.
    by rewrite insert_insert_eq.
  - apply (GetInternal_at _ ex c id k (Sign (Hash k))); [done|done| |lia|by rewrite Hget].
    rewrite Hat. exact Ht.
  - unfold read_ptr. cbn [fst snd]. by rewrite Hget.
Qed.
End Ops.
