(* ===== verification/PetHashInsert.v ===== *)
(** * PetHash: insertion

    The insertion of an entry in a chunk, the expiry of entries by
    [check_func], and the insertion loop: without a full table the loop finds
    a chunk with a free slot within [chunk_num_] rounds, since an odd step
    visits every chunk; with a full table and [force_insert] it evicts one
    entry of the home chunk. *)

From stdpp Require Import base numbers list gmap.
From Stdlib Require Import ZArith Lia.
From S2P Require Import Prelude F14Chunk PetHashDict PetHashInv PetHashOps.

Section Insert.
Import PetHash.
Context {V : Type} `{!Inhabited V}.
Implicit Types (d : dict V) (ex L : list Z) (k p pos : Z) (v : V) (m : gmap Z V).

#[local] Coercion dw_core : dict_wf >-> dict_core.
#[local] Hint Resolve dw_core : core.

Lemma probe_seq_snoc N j pos step :
  pow2_num N -> 0 <= pos < N ->
  probe_seq (S j) N pos step = probe_seq j N pos step ++ [stepN N pos step (Z.of_nat j)].
Proof.
  intros HN. revert pos. induction j as [|j IH]; intros pos Hpos.
  - simpl. by rewrite stepN_0.
  - change (probe_seq (S (S j)) N pos step)
      with (pos :: probe_seq (S j) N (nextN N pos step) step).
    rewrite IH by (by apply nextN_range). simpl. do 2 f_equal.
    rewrite stepN_next by done. f_equal. f_equal. lia.
Qed.

(** ** One entry more *)

(** [chunk->Insert] in a chunk with a free slot and [size_++]: [ex] must count
    the chunks passed on the way. *)
Lemma insert_at d ex p k v :
  dict_wf d ex -> 0 <= p < chunk_num_ d -> Chunk.size_ (at_ d p) < 14 -> 0 <= k < 2 ^ 64 ->
  to_map d !! k = None -> (forall q, occ q (path (chunk_num_ d) k p) <= occ q ex) ->
  exists c' i, Chunk.Insert (at_ d p) k v (Sign (Hash k)) = Ret (c', i) /\
    let d' := with_size (upd d p (fun _ => c')) (u64 (size_ d + 1)) in
    dict_wf d' [] /\ to_map d' = <[k := v]> (to_map d) /\
    GetInternal d' k = Ret (Some (p, i)).
Proof.
  intros Hwf Hp Hs Hk Hno Hex. destruct (at_wf _ _ Hwf Hp) as [Hc Hm].
  destruct (chunk_Insert_spec _ k v Hc Hs Hk) as (c' & i & HI & Hc' & HP & Hov & Hmig & Ht & Hv).
  exists c', i. split; [done|]. cbn zeta.
  set (f := fun _ : Chunk.chunk V => c').
  destruct (entries_upd d p f Hwf Hp) as (rest & rest' & E1 & E2 & P1 & P2).
  unfold f in E2, P2. rewrite HP in E2. rewrite (chunk_paths_perm _ _ _ _ HP) in P2.
  rewrite (chunk_paths_cons p) in P2 by done. fold f in E2, P2.
  assert (HE : entries (upd d p f) ≡ₚ (k, v) :: entries d) by (by rewrite E2, E1).
  rewrite (size_u64 d 1) by (eauto || (pose proof (size_bound d Hwf); lia)).
  set (d' := with_size _ _).
  assert (Hd' : dict_core d').
  { apply core_upd; [by eauto|done|done|unfold f; congruence| |].
    - rewrite HE. apply NoDup_cons. split; [by apply to_map_None|apply (dw_nodup _ Hwf)].
    - rewrite HE, (dw_size _ Hwf). cbn [length]. lia. }
  assert (Hwf' : dict_wf d' []).
  { split; [done|]. intros q Hq. change (chunk_num_ d') with (chunk_num_ d) in Hq |- *.
    pose proof (dw_cov _ _ Hwf q Hq) as HL. change (at_ d') with (at_ (upd d p f)).
    change (shape d') with (shape (upd d p f)).
    rewrite at_upd by (apply (dw_len _ Hwf) || lia). rewrite app_nil_r, P2.
    specialize (Hex q). rewrite occ_app, P1, occ_app in HL. rewrite !occ_app.
    case_decide; [subst; unfold f; rewrite Hov|]; cbn [fst]; lia. }
  split; [done|]. split.
  - destruct (to_map_cons d d' k v) as [-> _]; [apply (dw_nodup _ Hd')|done|done].
  - assert (Hat : at_ d' p = c').
    { change (at_ d') with (at_ (upd d p f)).
      by rewrite at_upd, decide_True by (apply (dw_len _ Hwf) || lia). }
    pose proof (Sign_range (Hash k)).
    apply (GetInternal_at d' [] p i k (Sign (Hash k))); [done|done|by rewrite Hat|lia|].
    rewrite Hat. unfold Chunk.Get. by rewrite (list_lookup_total_correct _ _ _ Hv).
Qed.

(** ** Expiry *)

Definition expires (check_func : CheckFuncT) k v : Prop :=
  match check_func with
  | Some f => f k v false = false
  | None => False
  end.

(** [m'] is [m] without some of its expired entries. *)
Definition purge check_func m m' : Prop :=
  m' ⊆ m /\ forall k v, m !! k = Some v -> m' !! k = None -> expires check_func k v.

#[global] Instance purge_refl cf : Reflexive (purge cf).
Proof. intros m. split; [done|congruence]. Qed.

#[global] Instance purge_trans cf : Transitive (purge cf).
Proof.
  intros m1 m2 m3 [H1 E1] [H2 E2]. split; [by etrans|]. intros k v Hk Hk'.
  destruct (m2 !! k) as [w|] eqn:E; [|by eapply E1].
  pose proof (lookup_weaken _ _ _ _ E H1). simplify_eq. by eapply E2.
Qed.

Lemma purge_None m m' : purge None m m' -> m' = m.
Proof.
  intros [Hs He]. apply map_eq. intros k. destruct (m' !! k) as [v|] eqn:E.
  - symmetry. by eapply lookup_weaken.
  - destruct (m !! k) as [v|] eqn:E'; [|done]. by destruct (He k v).
Qed.

Lemma purge_delete cf m k v : m !! k = Some v -> expires cf k v -> purge cf m (delete k m).
Proof.
  intros Hk He. split; [apply delete_subseteq|]. intros k' v' Hk' Hd.
  destruct (decide (k' = k)) as [->|]; [by simplify_eq|].
  rewrite lookup_delete_ne in Hd by done. congruence.
Qed.

Lemma purge_absent cf m m' k : purge cf m m' -> m !! k = None -> m' !! k = None.
Proof. intros [Hs _] Hk. by eapply lookup_weaken_None. Qed.

Lemma InUse_lookup (c : Chunk.chunk V) i :
  (i < length (Chunk.tags_ c))%nat -> Chunk.InUse c i = true ->
  exists tag, Chunk.tags_ c !! i = Some tag /\ tag <> 0.
Proof.
  intros Hi Hu. unfold Chunk.InUse in Hu. b2p. exists (Chunk.tags_ c !!! i).
  split; [|done]. by apply list_lookup_lookup_total_lt.
Qed.

Lemma expire_loop_total ids d ex pos f :
  dict_wf d ex -> 0 <= pos < chunk_num_ d -> (forall i, i ∈ ids -> (i < 14)%nat) ->
  exists d', expire_loop ids d pos f = Ret d' /\ dict_wf d' ex /\
    purge (Some f) (to_map d) (to_map d') /\ shrinks d d'.
Proof.
  revert d. induction ids as [|id ids IH]; intros d Hwf Hpos Hids; [by exists d|].
  cbn [expire_loop]. destruct (at_wf _ _ Hwf Hpos) as [Hc _].
  assert (Hid : (id < 14)%nat) by (apply Hids; set_solver).
  assert (Hids' : forall i, i ∈ ids -> (i < 14)%nat) by (intros; apply Hids; set_solver).
  destruct (Chunk.InUse (at_ d pos) id) eqn:Hu; [|by apply IH].
  destruct (InUse_lookup _ _ ltac:(by rewrite (wf_tags _ Hc)) Hu) as (tag & Ht & Hn).
  pose proof (slot_entry _ _ _ _ Hwf Hpos Ht Hn) as Hin.
  destruct (Chunk.Get (at_ d pos) id) as [k v] eqn:EG. cbn [fst snd].
  destruct (f k v false) eqn:Ef; [by apply IH|].
  destruct (Delete_total d ex k Hwf) as (d1 & -> & Hwf1 & Hm1 & Hsh1 & _).
  cbn [mbind outcome_bind].
  destruct (IH d1) as (d' & -> & Hwf' & Hp' & Hsh'); [done|rewrite (sh_num _ _ Hsh1); lia|done|].
  exists d'. split_and!; [done|done| |by etrans].
  etrans; [|exact Hp']. rewrite Hm1. apply (purge_delete _ _ k v); [|done].
  eapply to_map_lookup; [by eauto|]. eapply elem_of_entries; eauto.
Qed.

Lemma expire_total d ex pos cf :
  dict_wf d ex -> 0 <= pos < chunk_num_ d ->
  exists d', expire d pos cf = Ret d' /\ dict_wf d' ex /\
    purge cf (to_map d) (to_map d') /\ shrinks d d'.
Proof.
  intros Hwf Hpos. unfold expire. destruct cf as [f|]; [|by exists d].
  destruct (_ <=? _); [|by exists d].
  apply expire_loop_total; [done|done|]. intros i. rewrite elem_of_seq. lia.
Qed.

(** ** The loop *)

(** A table that is not full has a chunk with a free slot. *)
Lemma not_Full_chunk d :
  dict_core d -> Full d = false -> exists c, 0 <= c < chunk_num_ d /\ Chunk.size_ (at_ d c) < 14.
Proof.
  intros Hd HF. pose proof (pow2_num_range _ (dw_num _ Hd)) as HN. pose proof (size_bound d Hd).
  unfold Full, kMaxLoadFactor in HF. rewrite (dw_cap _ Hd), !u64_small in HF by lia. b2p.
  destruct (decide (Exists (fun c => Chunk.size_ c < 14) (chunk_table_ d))) as [He|He].
  - apply Exists_exists in He as (c & Hin & Hc). apply list_elem_of_lookup in Hin as [i Hi].
    pose proof (lookup_lt_Some _ _ _ Hi) as Hlt. rewrite (dw_len _ Hd) in Hlt.
    exists (Z.of_nat i). split; [lia|]. unfold at_. rewrite Nat2Z.id.
    by rewrite (list_lookup_total_correct _ _ _ Hi).
  - exfalso. apply not_Exists_Forall in He; [|intros ?; apply _].
    pose proof (dw_size _ Hd) as Hs. unfold entries in Hs.
    rewrite (concat_length_full _ 14) in Hs.
    + unfold shape in Hs. rewrite length_fmap, (dw_len _ Hd) in Hs. lia.
    + intros l (c & -> & Hin)%list_elem_of_fmap. rewrite Forall_forall in He.
      specialize (He c Hin). pose proof (dw_chunk _ Hd) as Hc. rewrite Forall_forall in Hc.
      specialize (Hc c Hin). pose proof (ents_length c (wf_tags _ Hc) (wf_value _ Hc)).
      pose proof (wf_size _ Hc). simpl in He. lia.
Qed.

Lemma Full_shrinks d d' : dict_core d -> dict_core d' -> shrinks d d' -> Full d = false -> Full d' = false.
Proof.
  intros Hd Hd' Hsh HF. pose proof (pow2_num_range _ (dw_num _ Hd)) as HN.
  pose proof (size_bound d Hd). pose proof (size_bound d' Hd') as Hb. rewrite (sh_num _ _ Hsh) in Hb.
  pose proof (sh_size _ _ Hsh). unfold Full, kMaxLoadFactor in *.
  rewrite (sh_cap _ _ Hsh). rewrite (dw_cap _ Hd), !u64_small in * by lia. b2p.
  apply Z.leb_gt. lia.
Qed.

(** The chunk that holds a key of the table is the only one [find_slot] hits. *)
Lemma absent_find d pos k :
  dict_core d -> 0 <= pos < chunk_num_ d -> to_map d !! k = None ->
  Chunk.find_slot (at_ d pos) k (Sign (Hash k)) = None.
Proof.
  intros Hd Hpos Hno. apply find_slot_miss; [done|done|]. intros v Hin.
  assert (to_map d !! k = Some v); [|congruence].
  eapply to_map_lookup; [done|]. eapply elem_of_entries; eauto.
Qed.

Notation sgn k := (Sign (Hash k)).
Notation stp k := (ProbeDelta (Sign (Hash k))).

(** What a successful insertion of [k] leaves. *)
Definition inserted (d' : dict V) (r : Z * nat) m k v : Prop :=
  dict_wf d' [] /\ to_map d' = <[k := v]> m /\ GetInternal d' k = Ret (Some r).

(** Round [j] of the loop. *)
Record at_round d k j pos : Prop := {
  ar_wf : dict_wf d (probe_seq j (chunk_num_ d) (home d k) (stp k));
  ar_pos : pos = stepN (chunk_num_ d) (home d k) (stp k) (Z.of_nat j);
  ar_j : Z.of_nat j < chunk_num_ d;
  ar_key : 0 <= k < 2 ^ 64;
  ar_abs : to_map d !! k = None
}.

Lemma at_round_pos d k j pos : at_round d k j pos -> 0 <= pos < chunk_num_ d.
Proof.
  intros [Hwf -> _ _ _]. pose proof (pow2_num_range _ (dw_num _ Hwf)).
  apply Z.mod_pos_bound. lia.
Qed.

Lemma at_round_insert d k v j pos :
  at_round d k j pos -> Chunk.size_ (at_ d pos) < 14 ->
  exists c' i, Chunk.Insert (at_ d pos) k v (sgn k) = Ret (c', i) /\
    inserted (with_size (upd d pos (fun _ => c')) (u64 (size_ d + 1))) (pos, i) (to_map d) k v.
Proof.
  intros Hr Hs. pose proof (at_round_pos _ _ _ _ Hr) as Hpos.
  destruct Hr as [Hwf Hp Hj Hk Hno]. pose proof (dw_num _ Hwf) as HN.
  destruct (insert_at d _ pos k v Hwf Hpos Hs Hk Hno) as (c' & i & HI & ? & ? & ?).
  - intros q. apply occ_prefix. rewrite Hp. apply path_to_prefix; [done| |lia].
    apply home_range, HN.
  - exists c', i. by split.
Qed.

Lemma at_round_expire d k j pos cf :
  at_round d k j pos ->
  exists d', expire d pos cf = Ret d' /\ at_round d' k j pos /\
    purge cf (to_map d) (to_map d') /\ shrinks d d'.
Proof.
  intros Hr. pose proof (at_round_pos _ _ _ _ Hr) as Hpos. destruct Hr as [Hwf Hp Hj Hk Hno].
  destruct (expire_total d _ pos cf Hwf Hpos) as (d' & HE & Hwf' & Hpu & Hsh).
  pose proof (sh_num _ _ Hsh) as Hn.
  exists d'. split_and!; [done| |done|done].
  assert (Hh : home d' k = home d k) by (unfold home; by rewrite Hn).
  split; rewrite ?Hh, ?Hn; try done. by eapply purge_absent.
Qed.

Lemma at_round_next d k j pos :
  at_round d k j pos -> Z.of_nat (S j) < chunk_num_ d ->
  at_round (upd d pos Chunk.IncOverflow) k (S j) (next_pos d pos (stp k)) /\
  to_map (upd d pos Chunk.IncOverflow) = to_map d /\
  shrinks d (upd d pos Chunk.IncOverflow).
Proof.
  intros Hr Hj'. pose proof (at_round_pos _ _ _ _ Hr) as Hpos.
  destruct Hr as [Hwf Hp Hj Hk Hno]. pose proof (dw_num _ Hwf) as HN.
  destruct (counter_upd d pos _ IncOverflow_op Hwf Hpos) as [Hd' Hsh].
  assert (Hm : to_map (upd d pos Chunk.IncOverflow) = to_map d).
  { unfold to_map, entries. by rewrite Hsh. }
  split_and!; [split|done|].
  - split; [done|]. rewrite Hsh. cbn [chunk_num_ upd].
    change (home (upd d pos Chunk.IncOverflow) k) with (home d k).
    rewrite probe_seq_snoc by (done || apply home_range, HN). rewrite <- Hp.
    eapply cov_perm; [|apply cov_inc; [by eauto|done|apply (dw_cov _ _ Hwf)]].
    rewrite (assoc_L (++)). by rewrite <- Permutation_cons_append.
  - cbn [chunk_num_ upd]. change (home (upd d pos _) k) with (home d k).
    change (next_pos d pos (stp k)) with (nextN (chunk_num_ d) pos (stp k)).
    rewrite nextN_mod, Hp by done. unfold stepN. pose proof (pow2_num_range _ HN).
    rewrite Z.add_mod_idemp_l by lia. f_equal. lia.
  - done.
  - done.
  - congruence.
  - split; [done|done|done|]. intros q Hq. rewrite at_upd by (apply (dw_len _ Hwf) || lia).
    case_decide; [|done]. unfold Chunk.IncOverflow. by destruct (_ =? _).
Qed.

(** A table that is not full: some round inserts. *)
Lemma insert_loop_free n j (m : nat) d k v pos cf force :
  at_round d k j pos -> Full d = false ->
  (j <= m)%nat -> (m < j + n)%nat -> Z.of_nat m < chunk_num_ d ->
  Chunk.size_ (at_ d (stepN (chunk_num_ d) (home d k) (stp k) (Z.of_nat m))) < 14 ->
  exists d' r mm, insert_loop n (Z.of_nat j) d k v (sgn k) (stp k) pos cf force = Ret (d', r) /\
    purge cf (to_map d) mm /\ inserted d' r mm k v.
Proof.
  revert j d pos. induction n as [|n IH]; intros j d pos Hr HF Hjm Hmn Hm Hs; [lia|].
  cbn [insert_loop].
  destruct (at_round_expire d k j pos cf Hr) as (d1 & -> & Hr1 & Hp1 & Hsh1).
  cbn [mbind outcome_bind]. pose proof (at_round_pos _ _ _ _ Hr1) as Hpos1.
  pose proof (ar_wf _ _ _ _ Hr1) as Hwf1.
  rewrite (absent_find d1 pos k) by (eauto || apply (ar_abs _ _ _ _ Hr1)).
  destruct (Chunk.size_ (at_ d1 pos) <? kChunkSize) eqn:Hlt; b2p.
  - destruct (at_round_insert d1 k v j pos Hr1 Hlt) as (c' & i & -> & Hins).
    cbn [mbind outcome_bind]. eauto 6.
  - rewrite (Full_shrinks d d1) by (eauto || apply (ar_wf _ _ _ _ Hr) || done).
    pose proof (sh_num _ _ Hsh1) as Hn1.
    assert (Hh : home d1 k = home d k) by (unfold home; by rewrite Hn1).
    assert (Hne : j <> m).
    { intros ->. rewrite <- (ar_pos _ _ _ _ Hr) in Hs. unfold kChunkSize, kMaxSize in Hlt.
      pose proof (sh_chunk _ _ Hsh1 pos ltac:(by rewrite <- Hn1)). lia. }
    destruct (at_round_next d1 k j pos Hr1) as (Hr2 & Hm2 & Hsh2); [lia|].
    set (d2 := upd d1 pos Chunk.IncOverflow) in *.
    replace (Z.of_nat j + 1) with (Z.of_nat (S j)) by lia.
    destruct (IH (S j) d2 (next_pos d1 pos (stp k))) as (d' & r & mm & HI & Hpu & Hins);
      [done| |lia|lia| | |].
    + eapply (Full_shrinks d); [apply (ar_wf _ _ _ _ Hr)|apply (ar_wf _ _ _ _ Hr2)| |done].
      by transitivity d1.
    + rewrite (sh_num _ _ Hsh2), Hn1. done.
    + rewrite (sh_num _ _ Hsh2), Hn1. change (home d2 k) with (home d1 k). rewrite Hh.
      eapply Z.le_lt_trans; [|exact Hs].
      apply (sh_chunk d d2); [by transitivity d1|].
      pose proof (pow2_num_range _ (dw_num _ (ar_wf _ _ _ _ Hr))). apply Z.mod_pos_bound. lia.
    + exists d', r, mm. split; [done|]. split; [|done]. rewrite Hm2 in Hpu. by etrans.
Qed.

Lemma at_round_0 d k :
  dict_wf d [] -> 0 <= k < 2 ^ 64 -> to_map d !! k = None -> at_round d k 0 (HomeChunk d k).
Proof.
  intros Hwf Hk Hno. pose proof (dw_num _ Hwf) as HN. pose proof (pow2_num_range _ HN).
  split; [done| |lia|done|done]. symmetry. apply stepN_0. apply home_range, HN.
Qed.

(** From round [j] with a full chunk there, a table that is not full still
    has a chunk ahead. *)
Lemma chunk_ahead d k :
  dict_core d -> Full d = false ->
  exists m : nat, Z.of_nat m < chunk_num_ d /\
    Chunk.size_ (at_ d (stepN (chunk_num_ d) (home d k) (stp k) (Z.of_nat m))) < 14.
Proof.
  intros Hd HF. destruct (not_Full_chunk d Hd HF) as (c & Hc & Hs).
  destruct (probe_reaches _ (dw_num _ Hd) (home d k) (sgn k) c Hc) as (m & Hm & Hr).
  exists (Z.to_nat m). rewrite Z2Nat.id by lia. split; [lia|]. by rewrite Hr.
Qed.

Lemma Insert_free d k v cf force :
  dict_wf d [] -> 0 <= k < 2 ^ 64 -> to_map d !! k = None -> Full d = false ->
  exists d' r mm, Insert d k v cf force = Ret (d', r) /\
    purge cf (to_map d) mm /\ inserted d' r mm k v.
Proof.
  intros Hwf Hk Hno HF. destruct (chunk_ahead d k Hwf HF) as (m & Hm & Hs).
  apply (insert_loop_free _ 0 m); [by apply at_round_0|done|lia|lia|lia|done].
Qed.

(** A round whose chunk has a free slot after expiry inserts. *)
Lemma insert_round_free n i j d k v pos cf force :
  at_round d k j pos -> Chunk.size_ (at_ d pos) < 14 ->
  exists d' r mm, insert_loop (S n) i d k v (sgn k) (stp k) pos cf force = Ret (d', r) /\
    purge cf (to_map d) mm /\ inserted d' r mm k v.
Proof.
  intros Hr Hs. cbn [insert_loop].
  destruct (at_round_expire d k j pos cf Hr) as (d1 & -> & Hr1 & Hp1 & Hsh1).
  cbn [mbind outcome_bind]. pose proof (at_round_pos _ _ _ _ Hr1) as Hpos1.
  pose proof (ar_wf _ _ _ _ Hr1) as Hwf1.
  rewrite (absent_find d1 pos k) by (eauto || apply (ar_abs _ _ _ _ Hr1)).
  pose proof (sh_chunk _ _ Hsh1 pos (at_round_pos _ _ _ _ Hr)).
  rewrite (proj2 (Z.ltb_lt _ _)) by (unfold kChunkSize, kMaxSize; lia).
  destruct (at_round_insert d1 k v j pos Hr1 ltac:(lia)) as (c' & i' & -> & Hins).
  cbn [mbind outcome_bind]. eauto 6.
Qed.

(** All slots of a full chunk are in use. *)
Lemma full_chunk_slot (c : Chunk.chunk V) i :
  chunk_wf c -> 14 <= Chunk.size_ c -> (i < 14)%nat ->
  exists tag, Chunk.tags_ c !! i = Some tag /\ tag <> 0.
Proof.
  intros Hc Hs Hi. destruct (lookup_lt_is_Some_2 (Chunk.tags_ c) i) as [tag Ht];
    [by rewrite (wf_tags _ Hc)|]. exists tag. split; [done|]. intros ->.
  pose proof (Get_lookup c i ltac:(by rewrite (wf_value _ Hc))) as Hv.
  pose proof (ents_write c i 0 _ 1 (Chunk.Get c i) Ht Hv) as HP.
  rewrite live_free, live_used in HP by done. simpl in HP.
  assert (length (ents (Chunk.Set_ c i 1 (Chunk.Get c i))) <= 14)%nat as Hl.
  { apply ents_length; simpl; rewrite length_insert; apply Hc. }
  rewrite HP in Hl. simpl in Hl. pose proof (wf_size _ Hc). lia.
Qed.

(** The eviction: the entry in slot [(sign + i) % 14] of the chunk leaves. *)
Lemma at_round_evict d k j pos i :
  at_round d k j pos -> 14 <= Chunk.size_ (at_ d pos) -> 0 <= i ->
  let victim := Chunk.Get (at_ d pos) (Z.to_nat ((sgn k + i) mod kChunkSize)) in
  exists d', Delete d victim.1 = Ret d' /\ at_round d' k j pos /\
    to_map d' = delete victim.1 (to_map d) /\ to_map d !! victim.1 = Some victim.2 /\
    Chunk.size_ (at_ d' pos) < 14.
Proof.
  intros Hr Hs Hi. cbn zeta. pose proof (at_round_pos _ _ _ _ Hr) as Hpos.
  destruct Hr as [Hwf Hp Hj Hk Hno]. destruct (at_wf _ _ Hwf Hpos) as [Hc _].
  set (id := Z.to_nat _).
  assert (Hid : (id < 14)%nat).
  { unfold id, kChunkSize, kMaxSize. pose proof (Z.mod_pos_bound (sgn k + i) 14 ltac:(lia)). lia. }
  destruct (full_chunk_slot _ id Hc Hs Hid) as (tag & Ht & Hn).
  pose proof (slot_entry _ _ _ _ Hwf Hpos Ht Hn) as Hin.
  destruct (Chunk.Get (at_ d pos) id) as [kv w]. cbn [fst snd].
  destruct (Delete_total d _ kv Hwf) as (d' & HD & Hwf' & Hm & Hsh & Hsz).
  pose proof (sh_num _ _ Hsh) as Hnum.
  assert (Hh : home d' k = home d k) by (unfold home; by rewrite Hnum).
  exists d'. split_and!; [done| |done| |].
  - split; rewrite ?Hh, ?Hnum; try done. rewrite Hm. rewrite lookup_delete_None. by right.
  - eapply to_map_lookup; [by eauto|]. eapply elem_of_entries; eauto.
  - rewrite (Hsz pos w) by done. pose proof (ents_length _ (wf_tags _ Hc) (wf_value _ Hc)).
    pose proof (wf_size _ Hc). lia.
Qed.

Lemma Insert_forced d k v cf :
  dict_wf d [] -> 0 <= k < 2 ^ 64 -> to_map d !! k = None -> 2 <= chunk_num_ d ->
  exists d1 d' r mm, expire d (HomeChunk d k) cf = Ret d1 /\
    purge cf (to_map d) (to_map d1) /\
    Insert d k v cf true = Ret (d', r) /\ inserted d' r mm k v /\
    (purge cf (to_map d) mm \/
     let victim := Chunk.Get (at_ d1 (HomeChunk d k)) (Z.to_nat (sgn k mod kChunkSize)) in
     Full d1 = true /\ 14 <= Chunk.size_ (at_ d1 (HomeChunk d k)) /\
     to_map d1 !! victim.1 = Some victim.2 /\ purge cf (delete victim.1 (to_map d1)) mm).
Proof.
  intros Hwf Hk Hno HN2. pose proof (at_round_0 d k Hwf Hk Hno) as Hr.
  set (pos := HomeChunk d k) in *.
  unfold Insert. destruct (Z.to_nat (chunk_num_ d)) as [|[|n]] eqn:En; [lia|lia|].
  set (n' := S n) in *. cbn [insert_loop]. fold pos.
  destruct (at_round_expire d k 0 pos cf Hr) as (d1 & HE1 & Hr1 & Hp1 & Hsh1).
  exists d1. rewrite HE1. cbn [mbind outcome_bind].
  pose proof (at_round_pos _ _ _ _ Hr1) as Hpos1. pose proof (ar_wf _ _ _ _ Hr1) as Hwf1.
  rewrite (absent_find d1 pos k) by (eauto || apply (ar_abs _ _ _ _ Hr1)).
  destruct (Chunk.size_ (at_ d1 pos) <? kChunkSize) eqn:Hlt; b2p.
  { destruct (at_round_insert d1 k v 0 pos Hr1 Hlt) as (c' & i & -> & Hins).
    cbn [mbind outcome_bind]. do 3 eexists. split_and!; eauto. }
  unfold kChunkSize, kMaxSize in Hlt. destruct (Full d1) eqn:HF1.
  - destruct (at_round_evict d1 k 0 pos 0 Hr1 Hlt ltac:(lia)) as (d2 & HD & Hr2 & Hm2 & Hv & Hs2).
    rewrite Z.add_0_r in *. rewrite HD. cbn [mbind outcome_bind].
    destruct (insert_round_free n 1 0 d2 k v pos cf true Hr2 Hs2) as (d' & r & mm & HI & Hpu & Hins).
    fold n' in HI. exists d', r, mm. split_and!; [done|done|done|done|]. right.
    rewrite Hm2 in Hpu. by split_and!.
  - destruct (chunk_ahead d1 k Hwf1 HF1) as (m & Hm & Hs).
    pose proof (sh_num _ _ Hsh1) as Hn1.
    assert (m <> 0%nat) by (intros ->; rewrite <- (ar_pos _ _ _ _ Hr1) in Hs; lia).
    destruct (at_round_next d1 k 0 pos Hr1) as (Hr2 & Hm2 & Hsh2); [lia|].
    destruct (insert_loop_free n' 1 m _ k v _ cf true Hr2) as (d' & r & mm & HI & Hpu & Hins).
    + by apply (Full_shrinks d1); [eauto|apply (ar_wf _ _ _ _ Hr2)|..].
    + lia.
    + unfold n'. lia.
    + done.
    + eapply Z.le_lt_trans; [apply (sh_chunk _ _ Hsh2)|exact Hs].
      pose proof (pow2_num_range _ (dw_num _ Hwf1)). apply Z.mod_pos_bound. lia.
    + exists d', r, mm. split_and!; [done|done|done|done|]. left. rewrite Hm2 in Hpu. by etrans.
Qed.

(** ** The dimensions of the table never change *)

Definition frame d d' : Prop := chunk_num_ d' = chunk_num_ d /\ capacity_ d' = capacity_ d.

#[global] Instance frame_preorder : PreOrder frame.
Proof. split; [done|]. intros ? ? ? [] []. split; congruence. Qed.

Lemma walk_path_frame f fuel d pos c step d' : walk_path f fuel d pos c step = Ret d' -> frame d d'.
Proof.
  revert d pos. induction fuel as [|fuel IH]; intros d pos; simpl; destruct (_ =? _);
    intros H; simplify_eq; try done. apply IH in H. exact H.
Qed.

Lemma Delete_frame d k d' : Delete d k = Ret d' -> frame d d'.
Proof.
  unfold Delete. intros H. inv_ret. destruct x as [[pos id]|]; inv_ret; simplify_eq; [|done].
  by apply walk_path_frame in H0.
Qed.

Lemma expire_frame d pos cf d' : expire d pos cf = Ret d' -> frame d d'.
Proof.
  unfold expire. destruct cf as [f|]; [|intros; by simplify_eq].
  destruct (_ <=? _); [|intros; by simplify_eq]. generalize (seq 0 14). intros ids.
  revert d. induction ids as [|id ids IH]; intros d H; cbn [expire_loop] in H; [by simplify_eq|].
  destruct (Chunk.InUse _ _); [|by apply IH]. destruct (f _ _ _); [by apply IH|].
  inv_ret. etrans; [by eapply Delete_frame|by apply IH].
Qed.

Lemma insert_loop_frame n i d k v sign step pos cf force d' r :
  insert_loop n i d k v sign step pos cf force = Ret (d', r) -> frame d d'.
Proof.
  revert i d pos. induction n as [|n IH]; intros i d pos H; cbn [insert_loop] in H; [done|].
  inv_ret. etrans; [by eapply expire_frame|].
  destruct (Chunk.find_slot _ _ _); [by simplify_eq|].
  destruct (_ <? _); [inv_ret; destruct x0; by simplify_eq|].
  destruct (Full x); [destruct force; [|done]; inv_ret|].
  - etrans; [by eapply Delete_frame|by eapply IH].
  - by eapply IH in H0.
Qed.
End Insert.
