(* ===== verification/PetHashSpec.v ===== *)
(** * PetHash as a finite map

    The contract of the index: [to_map] reads the dict as a finite map, and
    [Get], [Set], [Insert] and [Delete] refine lookup, insertion and deletion
    of that map, for every run without a full table; the behaviour with a full
    table, with forced insertion and with an expiry predicate; and a sequence
    of operations run against the map.

    [dict_wfb] decides the invariant, so that it can be evaluated on a
    concrete table. *)

From stdpp Require Import base numbers list gmap.
From Stdlib Require Import ZArith Lia.
From S2P Require Import Prelude F14Chunk PetHashDict PetHashInv PetHashOps PetHashInsert.

(** ** A decision procedure for the invariant *)

Section Decide.
Import PetHash.
Context {V : Type} `{!Inhabited V}.
Implicit Types (d : dict V).

Definition slot_okb (p : Z * (Z * V)) : bool :=
  (0 <=? p.2.1) && (p.2.1 <? 2 ^ 64) &&
  (if p.1 =? 0 then p.2.1 =? kEmptyKey else p.1 =? Sign (Hash p.2.1)).

Definition chunk_wfb (c : Chunk.chunk V) : bool :=
  bool_decide (length (Chunk.tags_ c) = 14%nat) && bool_decide (length (Chunk.value_ c) = 14%nat) &&
  (Chunk.size_ c =? Z.of_nat (length (ents c))) &&
  (0 <=? Chunk.overflow_count_ c) && (Chunk.overflow_count_ c <=? 255) &&
  forallb slot_okb (zip (Chunk.tags_ c) (Chunk.value_ c)).

Definition covb d (L : list Z) : bool :=
  forallb (fun p => (Chunk.overflow_count_ (at_ d p) =? 255) ||
                    (occ p L <=? Chunk.overflow_count_ (at_ d p)))
    (seqZ 0 (chunk_num_ d)).

Definition dict_wfb d : bool :=
  existsb (fun k => chunk_num_ d =? 2 ^ k) (seqZ 0 51) &&
  bool_decide (length (chunk_table_ d) = Z.to_nat (chunk_num_ d)) &&
  (capacity_ d =? chunk_num_ d * 14) &&
  forallb chunk_wfb (chunk_table_ d) &&
  forallb (fun c => negb (Chunk.is_migrating c)) (chunk_table_ d) &&
  bool_decide (NoDup (entries d).*1) &&
  (size_ d =? Z.of_nat (length (entries d))) &&
  covb d (all_paths (chunk_num_ d) (shape d)).

Lemma slot_okb_sound tag (kv : Z * V) : slot_okb (tag, kv) = true -> slot_ok tag kv.
Proof.
  unfold slot_okb, slot_ok. cbn [fst snd]. intros H. b2p.
  split; [lia|]. destruct (tag =? 0) eqn:E; b2p; split; intros; congruence || lia.
Qed.

Lemma chunk_wfb_sound (c : Chunk.chunk V) : chunk_wfb c = true -> chunk_wf c.
Proof.
  unfold chunk_wfb. intros H. b2p.
  repeat match goal with H : bool_decide _ = true |- _ => apply bool_decide_eq_true in H end.
  split; [done|done|done|lia|]. intros i tag kv Ht Hv.
  apply slot_okb_sound. rewrite forallb_forall in H0. apply H0.
  apply list_elem_of_In. eapply list_elem_of_lookup_2. by apply (zip_lookup _ i).
Qed.

Lemma forallb_Forall' {A} (f : A -> bool) (P : A -> Prop) l :
  (forall x, f x = true -> P x) -> forallb f l = true -> Forall P l.
Proof.
  intros Hf Hl. apply Forall_forall. intros x Hx. apply Hf.
  rewrite forallb_forall in Hl. apply Hl. by apply list_elem_of_In.
Qed.

Lemma dict_wfb_sound d : dict_wfb d = true -> dict_wf d [].
Proof.
  unfold dict_wfb. intros H. b2p.
  repeat match goal with H : bool_decide _ = true |- _ => apply bool_decide_eq_true in H end.
  split; [split|].
  - apply existsb_exists in H as (k & Hk & He). apply list_elem_of_In, elem_of_seqZ in Hk.
    exists k. b2p. split; [lia|done].
  - done.
  - done.
  - by eapply forallb_Forall'; [apply chunk_wfb_sound|].
  - eapply forallb_Forall'; [|done]. intros c Hc. by apply negb_true_iff in Hc.
  - done.
  - done.
  - rewrite app_nil_r. intros p Hp. unfold covb in *. rewrite forallb_forall in *.
    specialize (H0 p ltac:(apply list_elem_of_In, elem_of_seqZ; lia)).
    apply orb_true_iff in H0 as [H0|H0]; b2p; [by left|by right].
Qed.
End Decide.

(** ** Refinement of the finite map *)

Section Refine.
Import PetHash.
Context {V : Type} `{!Inhabited V}.
Implicit Types (d : dict V) (k : Z) (v : V).

#[local] Coercion dw_core : dict_wf >-> dict_core.
#[local] Hint Resolve dw_core : core.

Lemma Get_lookup_map d ex k : dict_wf d ex -> Get d k = Ret (to_map d !! k).
Proof.
  intros Hwf. unfold Get.
  destruct (GetInternal_total d ex k Hwf) as [[-> ->]|(c & id & v & -> & _ & _ & -> & _ & Hv)];
    [done|]. simpl. by rewrite Hv.
Qed.

(** [Set] of a key, by the cases of the lookup. *)
Lemma Set_cases d k v cf force :
  dict_wf d [] ->
  (is_Some (to_map d !! k) /\
   exists d' r, Set_ d k v cf force = Ret (d', r) /\ inserted d' r (to_map d) k v) \/
  (to_map d !! k = None /\ Set_ d k v cf force = Insert d k v cf force).
Proof.
  intros Hwf. unfold Set_, GetReturnPtr.
  destruct (GetInternal_total d [] k Hwf) as [[HG Hm]|(c & id & w & HG & _ & _ & Hm & _)]; rewrite HG.
  - right. done.
  - left. split; [by eexists|]. cbn [mbind outcome_bind].
    destruct (write_ptr_total d [] k (c, id) v Hwf HG) as (H1 & H2 & H3 & _).
    eexists _, _. split; [done|]. by split.
Qed.

(** The part of [Set] that both refinement theorems share. *)
Lemma Set_free d k v cf force :
  dict_wf d [] -> 0 <= k < 2 ^ 64 -> Full d = false ->
  exists d' r mm, Set_ d k v cf force = Ret (d', r) /\ purge cf (to_map d) mm /\ inserted d' r mm k v.
Proof.
  intros Hwf Hk HF. destruct (Set_cases d k v cf force Hwf) as [(_ & d' & r & H1 & H2)|[Hm ->]].
  - by exists d', r, (to_map d).
  - by apply Insert_free.
Qed.

(** ** Runs of operations *)

(** The calls a client makes of the index. *)
Inductive op :=
  | OpGet (k : Z)
  | OpSet (k : Z) (v : V)
  | OpDelete (k : Z).

Definition op_key (o : op) : Z :=
  match o with OpGet k | OpSet k _ | OpDelete k => k end.

Definition exec (d : dict V) (o : op) : outcome (dict V * option V) :=
  match o with
  | OpGet k => r ← Get d k; Ret (d, r)
  | OpSet k v => '(d', p) ← Set_ d k v None false; Ret (d', Some (read_ptr d' p))
  | OpDelete k => d' ← Delete d k; Ret (d', None)
  end.

Fixpoint exec_all (d : dict V) (os : list op) : outcome (dict V * list (option V)) :=
  match os with
  | [] => Ret (d, [])
  | o :: os' =>
      '(d, r) ← exec d o;
      '(d, rs) ← exec_all d os';
      Ret (d, r :: rs)
  end.

(** The same calls on the map. *)
Definition spec_exec (m : gmap Z V) (o : op) : gmap Z V * option V :=
  match o with
  | OpGet k => (m, m !! k)
  | OpSet k v => (<[k := v]> m, Some v)
  | OpDelete k => (delete k m, None)
  end.

Fixpoint spec_all (m : gmap Z V) (os : list op) : gmap Z V * list (option V) :=
  match os with
  | [] => (m, [])
  | o :: os' =>
      let '(m, r) := spec_exec m o in
      let '(m, rs) := spec_all m os' in
      (m, r :: rs)
  end.

Definition num_sets (os : list op) : Z :=
  foldr (fun o n => match o with OpSet _ _ => n + 1 | _ => n end) 0 os.

Lemma inserted_read d r m k v : inserted d r m k v -> read_ptr d r = v.
Proof.
  intros (Hwf & Hm & HG). pose proof (Get_lookup_map d [] k Hwf) as HL. unfold Get in HL.
  rewrite HG, Hm, lookup_insert_eq in HL. destruct r. simpl in HL. by simplify_eq.
Qed.

Lemma size_map d : dict_core d -> size_ d = Z.of_nat (size (to_map d)).
Proof.
  intros Hd. rewrite (dw_size _ Hd). unfold to_map. rewrite <- (length_map_to_list).
  by rewrite map_to_list_to_map by apply (dw_nodup _ Hd).
Qed.

Lemma inserted_size d d' r k v :
  dict_wf d [] -> inserted d' r (to_map d) k v -> size_ d' <= size_ d + 1.
Proof.
  intros Hwf (Hwf' & Hm & _). rewrite (size_map d), (size_map d'), Hm, map_size_insert by eauto.
  destruct (to_map d !! k); simpl; lia.
Qed.

Lemma not_Full_intro d : dict_core d -> size_ d * 100 < capacity_ d * 90 -> Full d = false.
Proof.
  intros Hd Hs. pose proof (size_bound d Hd). pose proof (pow2_num_range _ (dw_num _ Hd)).
  unfold Full, kMaxLoadFactor. rewrite (dw_cap _ Hd) in *. rewrite !u64_small by lia.
  apply Z.leb_gt. lia.
Qed.

Lemma Set_frame d k v cf force d' r : Set_ d k v cf force = Ret (d', r) -> frame d d'.
Proof.
  unfold Set_. intros H. inv_ret. destruct x as [p|]; [by simplify_eq|].
  by eapply insert_loop_frame.
Qed.

(** One call refines the call on the map. *)
Lemma exec_step d o :
  dict_wf d [] -> 0 <= op_key o < 2 ^ 64 ->
  (size_ d + num_sets [o]) * 100 < capacity_ d * 90 + 100 ->
  exists d', exec d o = Ret (d', (spec_exec (to_map d) o).2) /\
    dict_wf d' [] /\ to_map d' = (spec_exec (to_map d) o).1 /\ capacity_ d' = capacity_ d /\
    size_ d' <= size_ d + num_sets [o].
Proof.
  intros Hwf Hk Hsz. destruct o as [k|k v|k];
    cbn [exec spec_exec op_key fst snd num_sets foldr] in *.
  - exists d. rewrite (Get_lookup_map d [] k Hwf). split_and!; try done. lia.
  - assert (HF : Full d = false) by (apply not_Full_intro; [by eauto|lia]).
    destruct (Set_free d k v None false Hwf Hk HF) as (d' & r & mm & HS & ->%purge_None & Hins).
    apply Set_frame in HS as Hfr. rewrite HS. destruct Hfr as [_ Hc].
    cbn [mbind outcome_bind]. exists d'. rewrite (inserted_read _ _ _ _ _ Hins).
    pose proof (inserted_size _ _ _ _ _ Hwf Hins). destruct Hins as (Hwf' & Hm & _).
    split_and!; done.
  - destruct (Delete_total d [] k Hwf) as (d' & -> & Hwf' & Hm & Hsh & _).
    exists d'. split_and!; try done; [apply (sh_cap _ _ Hsh)|].
    pose proof (sh_size _ _ Hsh). lia.
Qed.

Lemma num_sets_cons o os : num_sets (o :: os) = num_sets [o] + num_sets os.
Proof. destruct o; simpl; unfold num_sets; lia. Qed.

Lemma num_sets_nonneg os : 0 <= num_sets os.
Proof. induction os as [|o os IH]; [done|]. rewrite num_sets_cons. destruct o; simpl; lia. Qed.

(** Get refines lookup: on a well-formed table the call returns, with the
    value the map has for the key, or nothing when the map has no such key. *)
Theorem Get_refines d k : dict_wf d [] -> Get d k = Ret (to_map d !! k).
Proof. apply Get_lookup_map. Qed.

(** Delete refines deletion for every key, present or not: it returns, keeps the
    invariant (the overflow counters are decremented on exactly the path of
    the entry), and the size is the number of entries left. *)
Theorem Delete_refines d k :
  dict_wf d [] ->
  exists d', Delete d k = Ret d' /\ dict_wf d' [] /\ to_map d' = delete k (to_map d) /\
    size_ d' = Z.of_nat (size (delete k (to_map d))).
Proof.
  intros Hwf. destruct (Delete_total d [] k Hwf) as (d' & HD & Hwf' & Hm & _).
  exists d'. split_and!; try done. rewrite <- Hm, (dw_size _ Hwf').
  unfold to_map. rewrite <- length_map_to_list, map_to_list_to_map by apply (dw_nodup _ Hwf').
  done.
Qed.

(** Set refines insertion, for a new key below the maximal load and for a
    key that is present at any load: the call returns, keeps the invariant,
    and the pointer it returns is the one a later lookup of the key gives and
    reads the new value. *)
Theorem Set_refines d k v force :
  dict_wf d [] -> 0 <= k < 2 ^ 64 -> Full d = false \/ is_Some (to_map d !! k) ->
  exists d' p, Set_ d k v None force = Ret (d', p) /\ dict_wf d' [] /\
    to_map d' = <[k := v]> (to_map d) /\ GetReturnPtr d' k = Ret (Some p) /\ read_ptr d' p = v.
Proof.
  intros Hwf Hk HF.
  assert (exists d' p, Set_ d k v None force = Ret (d', p) /\ inserted d' p (to_map d) k v)
    as (d' & p & HS & Hins).
  { destruct (Set_cases d k v None force Hwf) as [(_ & d' & p & HS)|[Hno HS]]; [by eauto|].
    destruct HF as [HF|[w Hw]]; [|congruence].
    destruct (Set_free d k v None force Hwf Hk HF) as (d' & p & mm & H & ->%purge_None & Hins).
    eauto. }
  exists d', p. pose proof (inserted_read _ _ _ _ _ Hins). by destruct Hins as (? & ? & ?).
Qed.

(** Set with an expiry predicate below the maximal load: the entries that
    leave are entries the predicate has declared expired, all others stay. *)
Theorem Set_expiry d k v f force :
  dict_wf d [] -> 0 <= k < 2 ^ 64 -> Full d = false ->
  exists d' p m, Set_ d k v (Some f) force = Ret (d', p) /\ dict_wf d' [] /\
    to_map d' = <[k := v]> m /\ m ⊆ to_map d /\
    (forall k' v', to_map d !! k' = Some v' -> m !! k' = None -> f k' v' false = false).
Proof.
  intros Hwf Hk HF.
  destruct (Set_free d k v (Some f) force Hwf Hk HF) as (d' & p & m & HS & [Hsub Hexp] & Hins).
  exists d', p, m. destruct Hins as (? & ? & ?). by split_and!.
Qed.

(** Forced insertion of a new key never fails on a table of two chunks or
    more: either there is room on the probe sequence, or the table is at its
    maximal load with a full home chunk, and the entry in slot [sign % 14] of
    that chunk makes room. *)
Theorem Insert_forced_evicts d k v :
  dict_wf d [] -> 0 <= k < 2 ^ 64 -> to_map d !! k = None -> 2 <= chunk_num_ d ->
  exists d' p, Insert d k v None true = Ret (d', p) /\ dict_wf d' [] /\ read_ptr d' p = v /\
    let victim := Chunk.Get (at_ d (HomeChunk d k)) (Z.to_nat (Sign (Hash k) mod kChunkSize)) in
    (to_map d' = <[k := v]> (to_map d) \/
     Full d = true /\ to_map d !! victim.1 = Some victim.2 /\
     to_map d' = <[k := v]> (delete victim.1 (to_map d))).
Proof.
  intros Hwf Hk Hno HN.
  destruct (Insert_forced d k v None Hwf Hk Hno HN)
    as (d1 & d' & p & mm & [= <-] & _ & HI & Hins & Hcase).
  exists d', p. pose proof (inserted_read _ _ _ _ _ Hins). destruct Hins as (? & Hm & _).
  split_and!; try done. cbn zeta in *.
  destruct Hcase as [->%purge_None|(HF & _ & Hv & ->%purge_None)]; [by left|by right].
Qed.

(** Insertion without [force] into a full home chunk of a table at its
    maximal load is a fatal error, and it is the only error: below the maximal
    load the search always ends at a free slot. *)
Theorem Insert_full_fatal d k v force :
  dict_wf d [] -> 0 <= k < 2 ^ 64 -> to_map d !! k = None ->
  (Full d = true -> Chunk.size_ (at_ d (HomeChunk d k)) = 14 ->
    Insert d k v None false = Err LogFatal) /\
  (Full d = false -> exists d' p, Insert d k v None force = Ret (d', p)).
Proof.
  intros Hwf Hk Hno. split.
  - intros HF Hs. unfold Insert. pose proof (pow2_num_range _ (dw_num _ Hwf)).
    destruct (Z.to_nat (chunk_num_ d)) as [|n] eqn:En; [lia|]. cbn [insert_loop expire mbind outcome_bind].
    rewrite absent_find by (eauto || (apply home_range, (dw_num _ Hwf))).
    rewrite Hs, HF. done.
  - intros HF. destruct (Insert_free d k v None force Hwf Hk Hno HF) as (d' & p & _ & HI & _). eauto.
Qed.

(** [C3] Every run of lookups, updates and deletions whose updates fit in the
    maximal load ends without an error, gives the answers of the finite map,
    and leaves a well-formed table that stands for the final map. *)
Theorem exec_all_refines d os :
  dict_wf d [] -> Forall (fun o => 0 <= op_key o < 2 ^ 64) os ->
  (size_ d + num_sets os) * 100 < capacity_ d * 90 + 100 ->
  exists d', exec_all d os = Ret (d', (spec_all (to_map d) os).2) /\
    dict_wf d' [] /\ to_map d' = (spec_all (to_map d) os).1.
Proof.
  revert d. induction os as [|o os IH]; intros d Hwf Hos Hsz; [by exists d|].
  apply Forall_cons in Hos as [Ho Hos]. rewrite num_sets_cons in Hsz.
  pose proof (num_sets_nonneg os). cbn [exec_all spec_all].
  destruct (exec_step d o Hwf Ho ltac:(lia)) as (d1 & -> & Hwf1 & Hm1 & Hc1 & Hs1).
  cbn [mbind outcome_bind]. destruct (spec_exec (to_map d) o) as [m1 r1]. simpl in Hm1. subst m1.
  destruct (IH d1 Hwf1 Hos ltac:(lia)) as (d' & -> & Hwf' & Hm').
  cbn [mbind outcome_bind]. destruct (spec_all (to_map d1) os) as [m2 r2]. by exists d'.
Qed.
End Refine.

(** ** Concrete tables *)

Ltac by_wfb := apply dict_wfb_sound; by_eval.

Section Tables.
Import PetHash.

(** The table with the values [10 * key] that a run of [Set] leaves. *)
Definition filled (capacity : Z) (keys : list Z) : dict Z :=
  match (d ← Initialize 0 capacity true;
         foldM (fun d k => '(d', _) ← Set_ d k (10 * k) None false; Ret d') d keys) with
  | Ret d => d
  | Err _ => inhabitant
  end.

(** Two chunks at the maximal load: chunk 0 is full. *)
Definition full_table : dict Z :=
  filled 28 (((fun i => 2 * i) <$> seqZ 1 14) ++ ((fun i => 2 * i + 1) <$> seqZ 0 12)).

(** Sixteen keys whose home is chunk 0 of four: two have overflowed. *)
Definition overflown_table : dict Z := filled 56 ((fun i => 4 * i) <$> seqZ 1 16).

Lemma Get_refines_witness :
  dict_wfb overflown_table = true /\ Get overflown_table 64 = Ret (Some 640) /\
  Get overflown_table 5 = Ret None.
Proof.
  split; [by_eval|]. split; (etrans; [apply Get_refines; by_wfb|by_eval]).
Defined.

Lemma Delete_refines_witness :
  dict_wfb overflown_table = true /\
  exists d', Delete overflown_table 64 = Ret d' /\ dict_wf d' [] /\
    to_map d' = delete 64 (to_map overflown_table) /\
    size_ d' = Z.of_nat (size (delete 64 (to_map overflown_table))).
Proof. split; [by_eval|]. apply (Delete_refines overflown_table 64). by_wfb. Defined.

Lemma Set_refines_witness :
  dict_wfb overflown_table = true /\ Full overflown_table = false /\
  exists d' p, Set_ overflown_table 68 7 None false = Ret (d', p) /\ dict_wf d' [] /\
    to_map d' = <[68 := 7]> (to_map overflown_table) /\
    GetReturnPtr d' 68 = Ret (Some p) /\ read_ptr d' p = 7.
Proof.
  split; [by_eval|]. split; [by_eval|].
  apply (Set_refines overflown_table 68 7 false); [by_wfb|lia|left; by_eval].
Defined.

Lemma Set_expiry_witness :
  let f := fun (k v : Z) (_ : bool) => 400 <? v in
  exists d' p m, Set_ overflown_table 68 7 (Some f) false = Ret (d', p) /\ dict_wf d' [] /\
    to_map d' = <[68 := 7]> m /\ m ⊆ to_map overflown_table /\
    (forall k' v', to_map overflown_table !! k' = Some v' -> m !! k' = None -> f k' v' false = false).
Proof. apply (Set_expiry overflown_table 68 7); [by_wfb|lia|by_eval]. Defined.

Lemma Insert_forced_evicts_witness :
  Full full_table = true /\
  exists d' p, Insert full_table 100 7 None true = Ret (d', p) /\ dict_wf d' [] /\
    read_ptr d' p = 7 /\
    let victim := Chunk.Get (at_ full_table (HomeChunk full_table 100))
                    (Z.to_nat (Sign (Hash 100) mod kChunkSize)) in
    (to_map d' = <[100 := 7]> (to_map full_table) \/
     Full full_table = true /\ to_map full_table !! victim.1 = Some victim.2 /\
     to_map d' = <[100 := 7]> (delete victim.1 (to_map full_table))).
Proof.
  split; [by_eval|].
  apply (Insert_forced_evicts full_table 100 7); [by_wfb|lia|by_eval|vm_compute; congruence].
Defined.

Lemma Insert_full_fatal_witness :
  Full full_table = true /\ Chunk.size_ (at_ full_table (HomeChunk full_table 100)) = 14 /\
  Insert full_table 100 7 None false = Err LogFatal.
Proof.
  split; [by_eval|]. split; [by_eval|].
  apply (Insert_full_fatal full_table 100 7 false); [by_wfb|lia|by_eval|by_eval|by_eval].
Defined.

Definition sample_run : list (op (V := Z)) :=
  [OpSet 68 1; OpGet 68; OpDelete 64; OpGet 64; OpSet 4 9; OpGet 4].

Lemma exec_all_refines_witness :
  (spec_all (to_map overflown_table) sample_run).2 =
    [Some 1; Some 1; None; None; Some 9; Some 9] /\
  exists d', exec_all overflown_table sample_run =
      Ret (d', (spec_all (to_map overflown_table) sample_run).2) /\
    dict_wf d' [] /\ to_map d' = (spec_all (to_map overflown_table) sample_run).1.
Proof.
  split; [by_eval|].
  apply (exec_all_refines overflown_table sample_run);
    [by_wfb|repeat constructor; cbn; lia|by_eval].
Defined.
End Tables.
