(* ===== verification/PetHashValid.v ===== *)
(** * PetHash: construction and self check

    The size computation ([Next2Power], [OverFallChunkNum], [MemorySize]), the
    table [Initialize] leaves, the positions [Lookup] returns, and [Valid]:
    the self check that [PetKV] runs on a table it has reopened. *)

From stdpp Require Import base numbers list gmap.
From Stdlib Require Import ZArith Lia.
From S2P Require Import Prelude F14Chunk PetHashDict PetHashInv PetHashOps PetHashInsert PetHashSpec.

(** ** Powers of two *)

Lemma next2power_loop_spec (n : nat) size :
  (n <= 63)%nat -> 0 <= size <= 2 ^ 63 ->
  (n = 63%nat \/ 2 ^ (63 - Z.of_nat n - 1) < size \/ n = 63%nat) ->
  exists k, 63 - Z.of_nat n <= k <= 63 /\
    next2power_loop (S n) (2 ^ (63 - Z.of_nat n)) size = Ret (2 ^ k) /\ size <= 2 ^ k /\
    (k = 0 \/ 2 ^ (k - 1) < size).
Proof.
  intros Hn Hs. induction n as [|n IH]; intros Hlow.
  - exists 63. change (63 - Z.of_nat 0) with 63. simpl next2power_loop.
    replace (2 ^ 63 <? size) with false by (symmetry; apply Z.ltb_ge; lia).
    split_and!; [lia|lia|done|lia|]. right. simpl in Hlow. lia.
  - cbn [next2power_loop]. destruct (_ <? size) eqn:E; b2p.
    + destruct IH as (k & Hk & HI & Hsz & Hl); [lia| |].
      { right. left. replace (63 - Z.of_nat n - 1) with (63 - Z.of_nat (S n)) by lia. done. }
      exists k. split_and!; [lia|lia| |done|done].
      rewrite <- HI. cbn [next2power_loop].
      replace (u64 (Z.shiftl (2 ^ (63 - Z.of_nat (S n))) 1)) with (2 ^ (63 - Z.of_nat n)); [done|].
      rewrite Z.shiftl_mul_pow2 by lia. rewrite <- Z.pow_add_r by lia.
      replace (63 - Z.of_nat (S n) + 1) with (63 - Z.of_nat n) by lia.
      symmetry. apply u64_small. split; [apply Z.pow_nonneg; lia|]. apply Z.pow_lt_mono_r; lia.
    + exists (63 - Z.of_nat (S n)). split_and!; [lia|lia|done|done|].
      destruct Hlow as [->|[|]]; [by left| |by left; lia].
      by right.
Qed.

(** The smallest power of two that is at least [size]. *)
Lemma Next2Power_spec size :
  0 <= size <= 2 ^ 63 ->
  exists k, 0 <= k <= 63 /\ Next2Power size = Ret (2 ^ k) /\ size <= 2 ^ k /\
    (k = 0 \/ 2 ^ (k - 1) < size).
Proof.
  intros Hs. destruct (next2power_loop_spec 63 size) as (k & Hk & HI & Hrest);
    [lia|lia|lia|]. exists k. split_and!; [lia|lia|exact HI|apply Hrest..].
Qed.

Lemma next2power_diverges n size : 0 < size -> next2power_loop n 0 size = Err Diverges.
Proof.
  intros Hs. induction n as [|n IH]; cbn [next2power_loop];
    rewrite (proj2 (Z.ltb_lt 0 size)) by lia; [done|]. exact IH.
Qed.

Lemma next2power_above (n : nat) size :
  (n <= 63)%nat -> 2 ^ 63 < size -> next2power_loop (S n) (2 ^ (63 - Z.of_nat n)) size = Err Diverges.
Proof.
  intros Hn Hs. induction n as [|n IH].
  - change (63 - Z.of_nat 0) with 63. cbn [next2power_loop].
    by rewrite (proj2 (Z.ltb_lt (2 ^ 63) size)) by lia; rewrite (proj2 (Z.ltb_lt _ size)) by (vm_compute (u64 _); lia).
  - assert (Hp : 2 ^ (63 - Z.of_nat (S n)) <= 2 ^ 63) by (apply Z.pow_le_mono_r; lia).
    cbn [next2power_loop]. rewrite (proj2 (Z.ltb_lt _ size)) by lia.
    rewrite <- IH by lia. cbn [next2power_loop].
    replace (u64 (Z.shiftl (2 ^ (63 - Z.of_nat (S n))) 1)) with (2 ^ (63 - Z.of_nat n)); [done|].
    rewrite Z.shiftl_mul_pow2 by lia. rewrite <- Z.pow_add_r by lia.
    replace (63 - Z.of_nat (S n) + 1) with (63 - Z.of_nat n) by lia.
    symmetry. apply u64_small. split; [apply Z.pow_nonneg; lia|]. apply Z.pow_lt_mono_r; lia.
Qed.

(** The loop of Next2Power ends exactly for sizes up to [2^63], with the
    least power of two that is not below the size; above it the shift wraps to
    zero and the loop never ends. *)
Theorem Next2Power_correct size :
  0 <= size < 2 ^ 64 ->
  (size <= 2 ^ 63 -> exists k, 0 <= k <= 63 /\ Next2Power size = Ret (2 ^ k) /\ size <= 2 ^ k /\
    (forall j, 0 <= j -> size <= 2 ^ j -> k <= j)) /\
  (2 ^ 63 < size -> Next2Power size = Err Diverges).
Proof.
  intros Hs. split; intros Hle.
  - destruct (Next2Power_spec size ltac:(lia)) as (k & Hk & HI & Hge & Hmin).
    exists k. split_and!; [lia|lia|done|done|]. intros j Hj Hsj.
    destruct Hmin as [->|Hmin]; [done|]. destruct (Z.le_gt_cases k j) as [|Hlt]; [done|].
    assert (2 ^ j <= 2 ^ (k - 1)) by (apply Z.pow_le_mono_r; lia). lia.
  - apply (next2power_above 63); [done|lia].
Qed.

Lemma Next2Power_correct_witness :
  Next2Power 1000 = Ret 1024 /\ Next2Power (2 ^ 63 + 1) = Err Diverges.
Proof.
  split.
  - destruct (proj1 (Next2Power_correct 1000 ltac:(lia)) ltac:(lia)) as (k & _ & _ & _ & _).
    vm_compute. reflexivity.
  - apply (Next2Power_correct (2 ^ 63 + 1)); lia.
Defined.

Lemma Next2Power_pow2 k : 0 <= k <= 50 -> Next2Power (2 ^ k) = Ret (2 ^ k).
Proof.
  intros Hk. assert (0 < 2 ^ k <= 2 ^ 50) by
    (split; [apply Z.pow_pos_nonneg|apply Z.pow_le_mono_r]; lia).
  destruct (Next2Power_spec (2 ^ k)) as (j & Hj & -> & Hge & Hmin); [lia|].
  do 2 f_equal. apply Z.pow_le_mono_r_iff in Hge; [|lia..].
  destruct Hmin as [->|Hlt]; [lia|]. apply Z.pow_lt_mono_r_iff in Hlt; lia.
Qed.

Lemma OverFallChunkNum_pow2 N : pow2_num N -> OverFallChunkNum (N * 14) = Ret N.
Proof.
  intros HN. pose proof (pow2_num_range N HN). destruct HN as (k & Hk & ->).
  unfold OverFallChunkNum, kChunkSize, kMaxSize. rewrite u64_small by lia.
  replace ((2 ^ k * 14 + 14 - 1) / 14) with (2 ^ k); [by apply Next2Power_pow2|].
  replace (2 ^ k * 14 + 14 - 1) with (13 + 2 ^ k * 14) by lia.
  by rewrite Z.div_add by lia.
Qed.

(** ** The empty table *)

Section Init.
Import PetHash.
Context {V : Type} `{!Inhabited V}.
Implicit Types (d : dict V).

#[local] Coercion dw_core : dict_wf >-> dict_core.
#[local] Hint Resolve dw_core : core.

Lemma replicate_shape (n : nat) (v0 : V) :
  concat (ents <$> (Chunk.Initialize <$> replicate n (Chunk.zeroed v0))) = [].
Proof.
  induction n as [|n IH]; [done|]. rewrite replicate_S, !fmap_cons.
  destruct (Initialize_zeroed_wf v0) as [_ He]. rewrite He. exact IH.
Qed.

Lemma replicate_paths N (n : nat) (v0 : V) f :
  (forall c, f c [] = []) ->
  concat (imap f (ents <$> (Chunk.Initialize <$> replicate n (Chunk.zeroed v0)))) = ([] : list N).
Proof.
  revert f. induction n as [|n IH]; intros f Hf; [done|]. rewrite replicate_S, !fmap_cons.
  destruct (Initialize_zeroed_wf v0) as [_ He]. rewrite He, imap_cons. cbn [concat].
  rewrite Hf. apply (IH (f ∘ S)). intros c. apply Hf.
Qed.

Lemma init_dict_wf N (v0 : V) :
  pow2_num N ->
  let d := {| capacity_ := u64 (N * kChunkSize); chunk_num_ := N; size_ := 0;
              chunk_table_ := Chunk.Initialize <$> replicate (Z.to_nat N) (Chunk.zeroed v0) |} in
  dict_wf d [] /\ to_map d = ∅.
Proof.
  intros HN d. pose proof (pow2_num_range N HN).
  assert (He : entries d = []) by apply replicate_shape.
  split; [|unfold to_map; by rewrite He]. split; [split|]; cbn [capacity_ chunk_num_ size_ chunk_table_ d].
  - done.
  - by rewrite length_fmap, length_replicate.
  - unfold kChunkSize, kMaxSize. apply u64_small. lia.
  - apply Forall_fmap, Forall_replicate. apply Initialize_zeroed_wf.
  - by apply Forall_fmap, Forall_replicate.
  - rewrite He. constructor.
  - by rewrite He.
  - unfold all_paths, shape, d. cbn [chunk_table_ chunk_num_].
    rewrite (replicate_paths Z _ _ (chunk_paths N)) by done.
    intros p Hp. right. rewrite app_nil_r, occ_nil.
    cbn [chunk_table_]. unfold at_. cbn [chunk_table_].
    rewrite (list_lookup_total_correct _ _ (Chunk.Initialize (Chunk.zeroed v0))); [done|].
    by rewrite list_lookup_fmap, lookup_replicate_2 by (simpl in Hp; lia).
Qed.

Lemma Initialize_ok (v0 : V) capacity ignore_load_factor c :
  apply_load_factor capacity ignore_load_factor = Ret c -> 0 <= c <= 14 * 2 ^ 50 ->
  exists d, Initialize v0 capacity ignore_load_factor = Ret d /\ dict_wf d [] /\
    to_map d = ∅ /\ size_ d = 0 /\ c <= capacity_ d < 2 * c + 28 /\
    OverFallChunkNum c = Ret (chunk_num_ d).
Proof.
  intros Hc Hr. unfold Initialize. rewrite Hc. cbn [mbind outcome_bind].
  unfold OverFallChunkNum, kChunkSize, kMaxSize. rewrite u64_small by lia.
  pose proof (Z.div_mod (c + 14 - 1) 14 ltac:(lia)).
  pose proof (Z.mod_pos_bound (c + 14 - 1) 14 ltac:(lia)).
  destruct (Next2Power_spec ((c + 14 - 1) / 14)) as (k & Hk & -> & Hge & Hmin); [lia|].
  cbn [mbind outcome_bind].
  assert (Hk50 : k <= 50).
  { destruct Hmin as [->|Hmin]; [lia|].
    assert (2 ^ (k - 1) < 2 ^ 50) as Hlt by lia. apply Z.pow_lt_mono_r_iff in Hlt; lia. }
  assert (HN : pow2_num (2 ^ k)) by (exists k; lia).
  pose proof (pow2_num_range _ HN).
  destruct (init_dict_wf (2 ^ k) v0 HN) as [Hwf Hm].
  eexists. split; [reflexivity|]. split_and!; [done|done|done|..|done].
  - cbn [capacity_]. rewrite u64_small by lia. lia.
  - cbn [capacity_]. rewrite u64_small by lia.
    destruct (decide (k = 0)) as [->|]; [change (2 ^ 0) with 1; lia|].
    destruct Hmin as [->|Hmin]; [done|].
    replace (2 ^ k) with (2 * 2 ^ (k - 1)) by (rewrite <- Z.pow_succ_r by lia; f_equal; lia). lia.
Qed.

(** Initialize leaves an empty well-formed table with room for the
    requested capacity (after the division by the load factor). *)
Theorem Initialize_empty (v0 : V) capacity ignore_load_factor c :
  apply_load_factor capacity ignore_load_factor = Ret c -> 0 <= c <= 14 * 2 ^ 50 ->
  exists d, Initialize v0 capacity ignore_load_factor = Ret d /\ dict_wf d [] /\
    to_map d = ∅ /\ size_ d = 0 /\ c <= capacity_ d < 2 * c + 28.
Proof.
  intros Hc Hr. destruct (Initialize_ok v0 _ _ c Hc Hr) as (d & ? & ? & ? & ? & ? & _). by exists d.
Qed.

(** ** The positions of the slots *)

Definition flat_tags d : list Z := concat (Chunk.tags_ <$> chunk_table_ d).

Lemma tags_uniform d l : dict_core d -> l ∈ Chunk.tags_ <$> chunk_table_ d -> length l = 14%nat.
Proof.
  intros Hd (c & -> & Hin)%list_elem_of_fmap. pose proof (dw_chunk _ Hd) as Hc.
  rewrite Forall_forall in Hc. by apply wf_tags, Hc.
Qed.

Lemma flat_tags_length d : dict_core d -> Z.of_nat (length (flat_tags d)) = capacity_ d.
Proof.
  intros Hd. unfold flat_tags. rewrite (concat_length_full _ 14) by (intros; by apply (tags_uniform d)).
  rewrite length_fmap, (dw_len _ Hd), (dw_cap _ Hd).
  pose proof (pow2_num_range _ (dw_num _ Hd)). lia.
Qed.

(** A position below the capacity is a chunk and a slot of it. *)
Lemma position_split d i :
  dict_core d -> 0 <= i < capacity_ d ->
  let c := i / kChunkSize in let id := Z.to_nat (i mod kChunkSize) in
  0 <= c < chunk_num_ d /\ (id < 14)%nat /\ item_pos c id = i /\
  flat_tags d !! Z.to_nat i = Chunk.tags_ (at_ d c) !! id.
Proof.
  intros Hd Hi. rewrite (dw_cap _ Hd) in Hi. cbn zeta. unfold kChunkSize, kMaxSize.
  pose proof (pow2_num_range _ (dw_num _ Hd)).
  pose proof (Z.div_mod i 14 ltac:(lia)). pose proof (Z.mod_pos_bound i 14 ltac:(lia)).
  assert (Hc : 0 <= i / 14 < chunk_num_ d)
    by (split; [apply Z.div_pos; lia|apply Z.div_lt_upper_bound; lia]).
  split_and!; [lia|lia|lia| |].
  - unfold item_pos, kChunkSize, kMaxSize. rewrite u64_small; lia.
  - unfold flat_tags.
    replace (Z.to_nat i) with (Z.to_nat (i / 14) * 14 + Z.to_nat (i mod 14))%nat by lia.
    rewrite concat_lookup_uniform; [|intros; by apply (tags_uniform d)|lia].
    by rewrite list_lookup_fmap, (at_lookup _ _ Hd Hc).
Qed.

Lemma IndexInUse_flat d i tag :
  dict_core d -> 0 <= i -> flat_tags d !! Z.to_nat i = Some tag -> IndexInUse d i = negb (tag =? 0).
Proof.
  intros Hd Hi Ht. pose proof (lookup_lt_Some _ _ _ Ht). pose proof (flat_tags_length d Hd).
  destruct (position_split d i Hd ltac:(lia)) as (Hc & Hid & _ & Hf). rewrite Hf in Ht.
  unfold IndexInUse, Chunk.InUse. rewrite (proj2 (Z.leb_gt _ _)) by lia.
  by rewrite (list_lookup_total_correct _ _ _ Ht).
Qed.

Lemma GetById_entry d ex i :
  dict_wf d ex -> 0 <= i -> IndexInUse d i = true ->
  to_map d !! (GetById d i).1 = Some (GetById d i).2 /\
  GetInternal d (GetById d i).1 = Ret (Some (i / kChunkSize, Z.to_nat (i mod kChunkSize))).
Proof.
  intros Hwf Hi0 Hu. unfold IndexInUse in Hu. destruct (_ <=? _) eqn:Hi; [done|]. b2p.
  destruct (position_split d i Hwf ltac:(lia)) as (Hc & Hid & _ & _).
  destruct (at_wf _ _ Hwf Hc) as [Hcw _].
  destruct (InUse_lookup _ _ ltac:(by rewrite (wf_tags _ Hcw)) Hu) as (tag & Ht & Hn).
  split.
  - eapply to_map_lookup; [by eauto|]. eapply elem_of_entries; [by eauto|]. eexists. split; [exact Hc|].
    unfold GetById. rewrite <- surjective_pairing. by eapply slot_entry; eauto.
  - eapply GetInternal_at; [done|done|done|done|done].
Qed.

(** ** The self check *)

Lemma valid_loop_count (l : list Z) d i t :
  dict_wf d [] -> drop (Z.to_nat i) (flat_tags d) = l -> 0 <= i -> 0 <= t ->
  t + Z.of_nat (length l) < 2 ^ 64 ->
  valid_loop (length l) i d t = Ret (Some (t + Z.of_nat (nonzeros l))).
Proof.
  intros Hwf. revert i t. induction l as [|tag l IH]; intros i t Hl Hi Ht Hb.
  - by rewrite Z.add_0_r.
  - cbn [length valid_loop] in *.
    assert (Htag : flat_tags d !! Z.to_nat i = Some tag).
    { rewrite <- (Nat.add_0_r (Z.to_nat i)), <- lookup_drop, Hl. done. }
    assert (Hl' : drop (Z.to_nat (i + 1)) (flat_tags d) = l).
    { replace (Z.to_nat (i + 1)) with (Z.to_nat i + 1)%nat by lia. rewrite <- drop_drop, Hl. done. }
    rewrite (IndexInUse_flat d i tag) by eauto. rewrite nonzeros_cons.
    destruct (tag =? 0) eqn:E; b2p; cbn [negb].
    + rewrite decide_True by done. rewrite IH by (done || lia). done.
    + rewrite decide_False by done.
      destruct (GetById_entry d [] i Hwf Hi) as [HG _].
      { rewrite (IndexInUse_flat d i tag) by eauto. by rewrite (proj2 (Z.eqb_neq _ _) E). }
      rewrite (Get_lookup_map d [] _ Hwf), HG. cbn [mbind outcome_bind].
      rewrite u64_small by lia. rewrite IH by (done || lia). do 2 f_equal. lia.
Qed.

Lemma nonzeros_ents (c : Chunk.chunk V) :
  length (Chunk.tags_ c) = length (Chunk.value_ c) -> nonzeros (Chunk.tags_ c) = length (ents c).
Proof.
  unfold ents. generalize (Chunk.value_ c). induction (Chunk.tags_ c) as [|t ts IH];
    intros [|x vs] Hl; simpl in Hl; try done; try lia.
  rewrite nonzeros_cons. cbn [zip zip_with omap list_omap]. unfold live at 1. cbn [fst snd].
  injection Hl as Hl. specialize (IH _ Hl).
  destruct (t =? 0) eqn:E; b2p; [rewrite decide_True by done|rewrite decide_False by done];
    cbn [length]; rewrite IH; done.
Qed.

Lemma nonzeros_flat d : dict_core d -> Z.of_nat (nonzeros (flat_tags d)) = size_ d.
Proof.
  intros Hd. rewrite (dw_size _ Hd). unfold flat_tags, entries, shape. f_equal.
  pose proof (dw_chunk _ Hd) as Hc. induction (chunk_table_ d) as [|c t IH]; [done|].
  apply Forall_cons in Hc as [Hc Ht]. rewrite !fmap_cons. cbn [concat].
  rewrite nonzeros_app, length_app, IH, nonzeros_ents by (done || rewrite (wf_tags _ Hc), (wf_value _ Hc); done).
  done.
Qed.

Lemma sizes_sum (t : list (Chunk.chunk V)) z :
  Forall chunk_wf t -> 0 <= z -> z + Z.of_nat (length (concat (ents <$> t))) < 2 ^ 64 ->
  foldl (fun acc c => u64 (acc + Chunk.size_ c)) z t = z + Z.of_nat (length (concat (ents <$> t))).
Proof.
  revert z. induction t as [|c t IH]; intros z Hc Hz Hb; [cbn; lia|].
  apply Forall_cons in Hc as [Hc Ht]. rewrite fmap_cons in Hb |- *. cbn [concat foldl] in *.
  rewrite length_app in Hb |- *. pose proof (wf_size _ Hc).
  rewrite u64_small by lia. rewrite IH by (done || lia). lia.
Qed.

Lemma total_num_size d : dict_core d -> chunk_table_total_num d = size_ d.
Proof.
  intros Hd. pose proof (size_bound d Hd) as Hb. pose proof (pow2_num_range _ (dw_num _ Hd)).
  rewrite (dw_size _ Hd) in Hb |- *. unfold chunk_table_total_num, entries, shape in *.
  rewrite sizes_sum; [lia|apply (dw_chunk _ Hd)|lia|lia].
Qed.

Lemma Valid_size d memory_size m :
  dict_wf d [] -> MemorySize (capacity_ d) true = Ret m ->
  Valid d memory_size = Ret (memory_size =? m).
Proof.
  intros Hwf HM. pose proof (size_bound d Hwf). pose proof (pow2_num_range _ (dw_num _ Hwf)).
  pose proof (dw_cap _ Hwf) as Hcap. unfold Valid, kChunkSize, kMaxSize.
  rewrite (proj2 (Z.eqb_neq (capacity_ d) 0)) by lia. cbn [andb].
  rewrite (proj2 (Z.ltb_ge (capacity_ d) (size_ d))) by lia.
  rewrite u64_small, (proj2 (Z.eqb_eq (chunk_num_ d * 14) (capacity_ d))) by lia. cbn [negb].
  rewrite HM. cbn [mbind outcome_bind]. destruct (memory_size =? m); cbn [negb]; [|done].
  pose proof (flat_tags_length d Hwf) as Hl.
  replace (Z.to_nat (capacity_ d)) with (length (flat_tags d)) by lia.
  rewrite (valid_loop_count (flat_tags d)) by (done || lia). cbn [mbind outcome_bind].
  rewrite Z.add_0_l, nonzeros_flat, total_num_size by eauto. by rewrite Z.eqb_refl.
Qed.

(** The size of the file of a table depends on its number of chunks only. *)
Lemma MemorySize_same capacity N :
  pow2_num N -> OverFallChunkNum capacity = Ret N ->
  MemorySize capacity true = MemorySize (N * 14) true.
Proof.
  intros HN HO. unfold MemorySize, apply_load_factor. cbn [mbind outcome_bind].
  by rewrite HO, OverFallChunkNum_pow2.
Qed.

(** The self check of a well-formed table looks at every slot and accepts
    exactly the number of bytes that [MemorySize] gives for its capacity. *)
Theorem Valid_accepts d memory_size m :
  dict_wf d [] -> MemorySize (capacity_ d) true = Ret m ->
  Valid d memory_size = Ret (memory_size =? m).
Proof. apply Valid_size. Qed.

(** The item position that Lookup returns is the position of the entry: it
    is in use, [GetById] reads the key and its value there, and [-1] is
    returned exactly for the keys that are not in the map. *)
Theorem Lookup_position d k :
  dict_wf d [] ->
  match to_map d !! k with
  | None => Lookup d k = Ret (-1)
  | Some v => exists i, Lookup d k = Ret i /\ 0 <= i < capacity_ d /\
                IndexInUse d i = true /\ GetById d i = (k, v)
  end.
Proof.
  intros Hwf. pose proof (pow2_num_range _ (dw_num _ Hwf)). unfold Lookup.
  destruct (GetInternal_total d [] k Hwf) as [[-> ->]|(c & id & v & -> & Hc & _ & -> & Ht & Hv)]; [done|].
  destruct (at_wf _ _ Hwf Hc) as [Hcw _]. pose proof (dw_cap _ Hwf).
  assert (Hid : (id < 14)%nat) by (apply lookup_lt_Some in Ht; by rewrite (wf_tags _ Hcw) in Ht).
  destruct (item_pos_split c id ltac:(lia) Hid) as [E1 E2].
  exists (item_pos c id). cbn [mbind outcome_bind]. split; [done|].
  assert (Hr : 0 <= item_pos c id < capacity_ d).
  { unfold item_pos, kChunkSize, kMaxSize. rewrite u64_small; lia. }
  unfold IndexInUse, GetById, Chunk.InUse. rewrite E1, E2, (proj2 (Z.leb_gt _ _)) by lia.
  rewrite (list_lookup_total_correct _ _ _ Ht). pose proof (Sign_range (Hash k)).
  split_and!; [lia|lia| |done]. apply negb_true_iff, Z.eqb_neq. lia.
Qed.
End Init.

Section Tables.
Import PetHash.

Lemma Initialize_empty_witness :
  apply_load_factor 1000 false = Ret 1111 /\
  exists d, Initialize 0 1000 false = Ret d /\ dict_wf d [] /\
    to_map d = ∅ /\ size_ d = 0 /\ 1111 <= capacity_ d < 2 * 1111 + 28.
Proof.
  assert (H : apply_load_factor 1000 false = Ret 1111) by by_eval.
  split; [exact H|]. apply (Initialize_empty 0 1000 false 1111 H). lia.
Defined.

Lemma Valid_accepts_witness :
  MemorySize (capacity_ overflown_table) true = Ret 1344 /\
  Valid overflown_table 1344 = Ret true.
Proof.
  assert (H : MemorySize (capacity_ overflown_table) true = Ret 1344) by by_eval.
  split; [exact H|]. apply (Valid_accepts overflown_table 1344 1344); [by_wfb|exact H].
Defined.

Lemma Lookup_position_witness :
  dict_wfb overflown_table = true /\
  match to_map overflown_table !! 64 with
  | None => Lookup overflown_table 64 = Ret (-1)
  | Some v => exists i, Lookup overflown_table 64 = Ret i /\ 0 <= i < capacity_ overflown_table /\
                IndexInUse overflown_table i = true /\ GetById overflown_table i = (64, v)
  end.
Proof. split; [by_eval|]. apply (Lookup_position overflown_table 64). by_wfb. Defined.
End Tables.
