(* ===== verification/PetHashReload.v ===== *)
(** * PetHash: recovery

    [Reload] rebuilds a table after a restart from what is persistent in it:
    the items of the slots.  The size, the chunk sizes, the overflow counters
    and the tags of used slots in the image are arbitrary; the result is a
    well-formed table with the entries of the image, and every entry has been
    reported to the allocator once.

    The increments of the recovery threads may interleave in any order:
    [Reload_interleaving] shows that the counters do not depend on it. *)

From stdpp Require Import base numbers list gmap.
From Stdlib Require Import ZArith Lia.
From S2P Require Import Prelude F14Chunk PetHashDict PetHashInv PetHashOps PetHashInsert PetHashSpec.
From S2P Require Import PetHashValid.

(** ** The recovery threads cover the chunks *)

Lemma reload_ranges_prefix N k (j : nat) :
  0 <= N -> 0 < k ->
  concat (PetHash.reload_range N k <$> seqZ 0 (Z.of_nat j)) =
  seqZ 0 (Z.min (Z.of_nat j * (N / k + 1)) N).
Proof.
  intros HN Hk. pose proof (Z.div_pos N k HN Hk). induction j as [|j IH].
  - rewrite Z.min_l by lia. done.
  - rewrite Nat2Z.inj_succ, <- Z.add_1_r, seqZ_app' by lia.
    rewrite fmap_app, concat_app, IH. rewrite (seqZ_cons _ 1), (seqZ_nil _ (Z.pred 1)) by lia.
    cbn [fmap list_fmap concat]. rewrite app_nil_r. unfold PetHash.reload_range.
    set (b := N / k + 1) in *. replace (0 + Z.of_nat j) with (Z.of_nat j) by lia.
    destruct (Z.le_gt_cases (Z.of_nat j * b) N) as [Hle|Hgt].
    + rewrite (Z.min_l _ N) by lia. rewrite <- seqZ_app' by lia. f_equal. lia.
    + rewrite !(Z.min_r (_ * b) N) by lia.
      rewrite (seqZ_nil _ (Z.min b _)) by lia. by rewrite app_nil_r.
Qed.

Lemma reload_ranges_cover N k :
  0 <= N -> 0 < k -> concat (PetHash.reload_range N k <$> seqZ 0 k) = seqZ 0 N.
Proof.
  intros HN Hk. rewrite <- (Z2Nat.id k) at 2 by lia. rewrite reload_ranges_prefix by lia.
  rewrite Z2Nat.id by lia. f_equal.
  pose proof (Z.div_mod N k ltac:(lia)). pose proof (Z.mod_pos_bound N k Hk). lia.
Qed.

(** ** Updates of the whole table *)

Lemma foldl_alter_seqZ {A} (f : A -> A) (l : list A) :
  foldl (fun t id => alter f (Z.to_nat id) t) l (seqZ 0 (Z.of_nat (length l))) = f <$> l.
Proof.
  assert (Hgen : forall (r p : list A),
    foldl (fun t id => alter f (Z.to_nat id) t) (p ++ r) (seqZ (Z.of_nat (length p)) (Z.of_nat (length r)))
    = p ++ (f <$> r)).
  { induction r as [|x r IH]; intros p; [done|].
    cbn [length]. rewrite Nat2Z.inj_succ, seqZ_cons by lia. cbn [foldl]. rewrite Nat2Z.id.
    rewrite alter_app_r_alt by lia. rewrite Nat.sub_diag. cbn [alter list_alter].
    specialize (IH (p ++ [f x])). rewrite length_app in IH. cbn [length] in IH.
    rewrite <- !(assoc_L (++)) in IH. cbn [app] in IH. rewrite fmap_cons.
    rewrite <- IH. do 2 f_equal; lia. }
  apply (Hgen l []).
Qed.

Lemma lookup_total_seqZ {A} `{!Inhabited A} (l : list A) :
  (fun id => l !!! Z.to_nat id) <$> seqZ 0 (Z.of_nat (length l)) = l.
Proof.
  apply list_eq. intros i. rewrite list_lookup_fmap. destruct (decide (i < length l)%nat) as [Hi|Hi].
  - rewrite lookup_seqZ_lt by lia. cbn [fmap option_fmap option_map].
    rewrite Z.add_0_l, Nat2Z.id. by rewrite <- list_lookup_lookup_total_lt.
  - rewrite lookup_seqZ_ge by lia. by rewrite lookup_ge_None_2 by lia.
Qed.

Section Reload.
Import PetHash.
Context {V : Type} `{!Inhabited V}.
Implicit Types (d : dict V) (c : Chunk.chunk V).

#[local] Coercion dw_core : dict_wf >-> dict_core.
#[local] Hint Resolve dw_core : core.

(** ** The persistent image *)

(** The items in persistent memory. *)
Definition image_ents c : list (Z * V) := filter (fun kv => kv.1 <> kEmptyKey) (Chunk.value_ c).

Definition image d : list (Z * V) := concat (image_ents <$> chunk_table_ d).

(** A slot whose item is the empty one has no tag: what a run of the
    operations leaves when a deletion is complete. *)
Record chunk_image c : Prop := {
  im_tags : length (Chunk.tags_ c) = 14%nat;
  im_value : length (Chunk.value_ c) = 14%nat;
  im_mig : Chunk.is_migrating c = false;
  im_key : forall kv, kv ∈ Chunk.value_ c -> 0 <= kv.1 < 2 ^ 64;
  im_tag : forall i kv, Chunk.value_ c !! i = Some kv -> kv.1 = kEmptyKey -> Chunk.tags_ c !! i = Some 0
}.

Lemma reload_slots_ents (tags : list Z) (vals : list (Z * V)) :
  length tags = length vals ->
  (forall i kv, vals !! i = Some kv -> kv.1 = kEmptyKey -> tags !! i = Some 0) ->
  omap live (zip (reload_slot <$> zip tags vals) vals) = filter (fun kv => kv.1 <> kEmptyKey) vals.
Proof.
  revert tags. induction vals as [|[k v] vals IH]; intros [|t tags] Hl Ht; try done.
  cbn [zip zip_with fmap list_fmap omap list_omap]. unfold live at 1, reload_slot at 1. cbn [fst snd].
  rewrite filter_cons. injection Hl as Hl.
  assert (IH' : omap live (zip (reload_slot <$> zip tags vals) vals)
                = filter (fun kv => kv.1 <> kEmptyKey) vals).
  { apply IH; [done|]. intros i kv Hi. exact (Ht (S i) kv Hi). }
  destruct (k =? kEmptyKey) eqn:E; b2p; cbn [fst snd].
  - destruct (decide (k <> kEmptyKey)) as [Hn|_]; [done|].
    pose proof (Ht 0%nat (k, v) eq_refl E) as [= ->]. cbn. exact IH'.
  - destruct (decide (k <> kEmptyKey)) as [_|Hn]; [|done].
    pose proof (Sign_range (Hash k)). rewrite (proj2 (Z.eqb_neq _ 0)) by lia. f_equal. exact IH'.
Qed.

Lemma reload_size_count (vals : list (Z * V)) (n : Z) :
  0 <= n -> n + Z.of_nat (length vals) < 256 ->
  foldl (fun n kv => if kv.1 =? kEmptyKey then n else u8 (n + 1)) n vals
  = n + Z.of_nat (length (filter (fun kv => kv.1 <> kEmptyKey) vals)).
Proof.
  revert n. induction vals as [|kv vals IH]; intros n Hn Hb; [cbn; lia|].
  cbn [foldl length] in *. rewrite filter_cons.
  destruct (kv.1 =? kEmptyKey) eqn:E; b2p.
  - destruct (decide _); [done|]. rewrite IH; lia.
  - destruct (decide _); [|done]. rewrite u8_small by lia. rewrite IH by lia. cbn [length]. lia.
Qed.

Lemma reload_chunk_wf c :
  chunk_image c -> chunk_wf (reload_chunk c) /\ ents (reload_chunk c) = image_ents c.
Proof.
  intros [Ht Hv Hm Hk Hs].
  assert (He : ents (reload_chunk c) = image_ents c).
  { unfold ents, image_ents, reload_chunk. cbn [Chunk.tags_ Chunk.value_].
    apply reload_slots_ents; [by rewrite Ht, Hv|done]. }
  split; [|done]. split; unfold reload_chunk; cbn [Chunk.tags_ Chunk.value_ Chunk.size_ Chunk.overflow_count_].
  - rewrite length_fmap, length_zip_with, Ht, Hv. done.
  - done.
  - fold (reload_chunk c). rewrite He, reload_size_count by (rewrite ?Hv; lia). done.
  - lia.
  - intros i tag kv Ht' Hv'. rewrite list_lookup_fmap in Ht'.
    apply fmap_Some in Ht' as ([t kv'] & Hz & ->).
    apply lookup_zip_with_Some in Hz as (? & ? & [= <- <-] & Hti & Hvi).
    assert (kv' = kv) as -> by congruence.
    unfold reload_slot, slot_ok. cbn [fst snd].
    destruct (kv.1 =? kEmptyKey) eqn:E; b2p; split_and!; try (apply Hk; by eapply list_elem_of_lookup_2).
    + done.
    + rewrite (Hs _ _ Hv' E) in Hti. by simplify_eq.
    + pose proof (Sign_range (Hash kv.1)). lia.
    + done.
Qed.

(** The table after the first pass. *)
Definition reload_base (N : Z) d : dict V :=
  {| capacity_ := u64 (N * kChunkSize); chunk_num_ := N;
     size_ := reload_count (reload_chunk <$> chunk_table_ d);
     chunk_table_ := reload_chunk <$> chunk_table_ d |}.

Lemma base_shape N d :
  Forall chunk_image (chunk_table_ d) -> shape (reload_base N d) = image_ents <$> chunk_table_ d.
Proof.
  intros Hi. unfold shape, reload_base. cbn [chunk_table_]. rewrite <- list_fmap_compose.
  apply list_fmap_ext. intros i c Hc. apply reload_chunk_wf.
  by eapply Forall_lookup_1 in Hi.
Qed.

Lemma reload_count_length (t : list (Chunk.chunk V)) :
  Z.of_nat (length (concat (Chunk.value_ <$> t))) < 2 ^ 64 ->
  reload_count t = Z.of_nat (length (concat (image_ents <$> t))).
Proof.
  unfold reload_count. intros Hb.
  assert (Hin : forall (vals : list (Z * V)) n, 0 <= n -> n + Z.of_nat (length vals) < 2 ^ 64 ->
    foldl (fun n kv => if kv.1 =? kEmptyKey then n else u64 (n + 1)) n vals
    = n + Z.of_nat (length (filter (fun kv => kv.1 <> kEmptyKey) vals))).
  { induction vals as [|kv vals IH]; intros n Hn Hb'; [cbn; lia|].
    cbn [foldl length] in *. rewrite filter_cons.
    destruct (kv.1 =? kEmptyKey) eqn:E; b2p.
    - destruct (decide _); [done|]. rewrite IH; lia.
    - destruct (decide _); [|done]. rewrite u64_small by lia. rewrite IH by lia. cbn [length]. lia. }
  rewrite <- (Z.add_0_l (Z.of_nat (length (concat (image_ents <$> t))))).
  assert (Hgen : forall n, 0 <= n -> n + Z.of_nat (length (concat (Chunk.value_ <$> t))) < 2 ^ 64 ->
    foldl (fun n c => foldl (fun n kv => if kv.1 =? kEmptyKey then n else u64 (n + 1)) n
      (Chunk.value_ c)) n t = n + Z.of_nat (length (concat (image_ents <$> t)))); [|by apply Hgen; lia].
  clear Hb. induction t as [|c t IH]; intros n Hn Hb; [cbn; lia|].
  rewrite fmap_cons in Hb |- *. cbn [foldl concat] in *. rewrite length_app in Hb |- *.
  rewrite Hin by lia. unfold image_ents at 1.
  pose proof (length_filter (fun kv : Z * V => kv.1 <> kEmptyKey) (Chunk.value_ c)).
  rewrite IH by lia. fold (image_ents c). lia.
Qed.

Lemma base_core N d :
  pow2_num N -> length (chunk_table_ d) = Z.to_nat N -> Forall chunk_image (chunk_table_ d) ->
  NoDup (image d).*1 ->
  dict_core (reload_base N d) /\ entries (reload_base N d) = image d /\ cov (reload_base N d) [].
Proof.
  intros HN Hl Hi Hn. pose proof (pow2_num_range N HN).
  assert (He : entries (reload_base N d) = image d).
  { unfold entries, image. by rewrite base_shape. }
  assert (Hw : Forall chunk_wf (reload_chunk <$> chunk_table_ d)).
  { apply Forall_fmap. eapply Forall_impl; [exact Hi|]. intros c Hc. by apply reload_chunk_wf. }
  assert (Hcov : cov (reload_base N d) []).
  { intros p Hp. right. rewrite occ_nil. unfold at_. cbn [chunk_table_ reload_base chunk_num_] in *.
    destruct (lookup_lt_is_Some_2 (reload_chunk <$> chunk_table_ d) (Z.to_nat p)) as [c Hc].
    { rewrite length_fmap. lia. }
    rewrite (list_lookup_total_correct _ _ _ Hc).
    rewrite list_lookup_fmap in Hc. by apply fmap_Some in Hc as (c' & _ & ->). }
  split_and!; [|done|done]. split; cbn [reload_base chunk_num_ capacity_ chunk_table_ size_].
  - done.
  - by rewrite length_fmap.
  - unfold kChunkSize, kMaxSize. apply u64_small. lia.
  - done.
  - apply Forall_fmap. eapply Forall_impl; [exact Hi|]. intros c Hc. apply (im_mig _ Hc).
  - by rewrite He.
  - rewrite He. rewrite reload_count_length.
    + unfold image. by rewrite <- list_fmap_compose.
    + rewrite <- list_fmap_compose. rewrite (concat_length_full _ 14).
      * rewrite length_fmap. lia.
      * intros l (c & -> & Hin)%list_elem_of_fmap. rewrite Forall_forall in Hi.
        apply (im_value _ (Hi _ Hin)).
Qed.

(** ** The second pass *)

Definition report {M} (set_valid : M -> Z -> V -> M) (m : M) (l : list (Z * V)) : M :=
  foldl (fun m kv => set_valid m kv.1 kv.2) m l.

Lemma upds_app f d l1 l2 : upds f d (l1 ++ l2) = upds f (upds f d l1) l2.
Proof. unfold upds. apply foldl_app. Qed.

Lemma walk_inc d (k c : Z) :
  dict_core d -> 0 <= c < chunk_num_ d ->
  walk_path Chunk.IncOverflow (Z.to_nat (chunk_num_ d)) d (home d k) c (ProbeDelta (Sign (Hash k))) =
  Ret (upds Chunk.IncOverflow d (path (chunk_num_ d) k c)) /\
  forall p, p ∈ path (chunk_num_ d) k c -> 0 <= p < chunk_num_ d.
Proof.
  intros Hd Hc. pose proof (dw_num _ Hd) as HN. split.
  - destruct (probe_reaches _ HN (home d k) (Sign (Hash k)) c Hc) as (m & Hm & Hr).
    rewrite (walk_path_spec _ _ (Z.to_nat m)); [done|done|apply home_range, HN|lia|].
    rewrite Z2Nat.id by lia. exact Hr.
  - intros p Hp. eapply path_to_in; [done| |exact Hp]. apply home_range, HN.
Qed.

Lemma reload_item_at {M} (sv : M -> Z -> V -> M) d m (c : Z) i tag :
  dict_core d -> 0 <= c < chunk_num_ d -> Chunk.tags_ (at_ d c) !! i = Some tag ->
  let kv := Chunk.Get (at_ d c) i in
  reload_item sv c (d, m) i =
  Ret (if tag =? 0 then (d, m)
       else (upds Chunk.IncOverflow d (path (chunk_num_ d) kv.1 c), sv m kv.1 kv.2)).
Proof.
  intros Hd Hc Ht. cbn zeta. unfold reload_item, Chunk.InUse.
  rewrite (list_lookup_total_correct _ _ _ Ht). destruct (tag =? 0); [done|]. cbn [negb].
  by destruct (walk_inc d (Chunk.Get (at_ d c) i).1 c Hd Hc) as [-> _].
Qed.

(** The slots of one chunk from slot [i] on. *)
Lemma reload_items {M} (sv : M -> Z -> V -> M) n i d m (c : Z) :
  dict_core d -> 0 <= c < chunk_num_ d -> (i + n = 14)%nat ->
  let l := omap live (drop i (zip (Chunk.tags_ (at_ d c)) (Chunk.value_ (at_ d c)))) in
  foldM (reload_item sv c) (d, m) (seq i n) =
  Ret (upds Chunk.IncOverflow d (chunk_paths (chunk_num_ d) (Z.to_nat c) l), report sv m l).
Proof.
  revert i d m. induction n as [|n IH]; intros i d m Hd Hc Hin; cbn zeta.
  - destruct (at_wf _ _ Hd Hc) as [Hcw _].
    rewrite drop_ge; [done|]. rewrite length_zip_with, (wf_tags _ Hcw), (wf_value _ Hcw). lia.
  - destruct (at_wf _ _ Hd Hc) as [Hcw _]. cbn [seq foldM].
    destruct (lookup_lt_is_Some_2 (Chunk.tags_ (at_ d c)) i) as [tag Ht];
      [rewrite (wf_tags _ Hcw); lia|].
    pose proof (Get_lookup (at_ d c) i ltac:(rewrite (wf_value _ Hcw); lia)) as Hv.
    rewrite (drop_S _ (tag, Chunk.Get (at_ d c) i)) by (by apply zip_lookup).
    rewrite (reload_item_at sv d m c i tag Hd Hc Ht).
    set (X := drop (S i) _).
    assert (HX : omap live ((tag, Chunk.Get (at_ d c) i) :: X) =
      if tag =? 0 then omap live X else Chunk.Get (at_ d c) i :: omap live X).
    { cbn [omap list_omap]. unfold live at 1. cbn [fst snd]. by destruct (tag =? 0). }
    rewrite HX. unfold X. destruct (tag =? 0) eqn:E; b2p; cbn [mbind outcome_bind].
    { apply (IH (S i) d m Hd Hc). lia. }
    destruct (walk_inc d (Chunk.Get (at_ d c) i).1 c Hd Hc) as [_ Hpr].
    set (q := path (chunk_num_ d) (Chunk.Get (at_ d c) i).1 c) in *.
    destruct (upds_core _ d q IncOverflow_op Hd Hpr) as [Hd' _].
    destruct (upds_frame Chunk.IncOverflow d q) as (HN' & _ & _).
    destruct (upds_at _ d q c IncOverflow_op Hd Hpr Hc) as (Ht' & Hv' & _).
    etrans; [apply (IH (S i) (upds Chunk.IncOverflow d q)); [done|by rewrite HN'|lia]|].
    rewrite HN', Ht', Hv', (chunk_paths_cons c) by done. fold q. by rewrite upds_app.
Qed.

(** The chunks of a list of ids, given what the tables have in common. *)
Lemma reload_chunks {M} (sv : M -> Z -> V -> M) (n i : nat) d m :
  dict_core d -> (i + n)%nat = Z.to_nat (chunk_num_ d) ->
  foldM (reload_overflow sv) (d, m) (seqZ (Z.of_nat i) (Z.of_nat n)) =
  Ret (upds Chunk.IncOverflow d
         (concat (imap (fun j => chunk_paths (chunk_num_ d) (i + j)) (drop i (shape d)))),
       report sv m (concat (drop i (shape d)))).
Proof.
  revert i d m. induction n as [|n IH]; intros i d m Hd Hin.
  - rewrite drop_ge; [done|]. unfold shape. rewrite length_fmap, (dw_len _ Hd). lia.
  - rewrite Nat2Z.inj_succ, seqZ_cons by lia. cbn [foldM].
    change (reload_overflow sv (d, m) (Z.of_nat i))
      with (foldM (reload_item sv (Z.of_nat i)) (d, m) (seq 0 14)).
    pose proof (pow2_num_range _ (dw_num _ Hd)).
    assert (Hc : 0 <= Z.of_nat i < chunk_num_ d) by lia.
    rewrite (reload_items sv 14 0) by (done || lia). rewrite drop_0. fold (ents (at_ d (Z.of_nat i))).
    cbn [mbind outcome_bind]. rewrite Nat2Z.id.
    set (q := chunk_paths (chunk_num_ d) i (ents (at_ d (Z.of_nat i)))) in *.
    assert (Hpr : forall p, p ∈ q -> 0 <= p < chunk_num_ d).
    { intros p Hp. unfold q, chunk_paths in Hp. apply elem_of_concat in Hp as (j & l & Hl & Hp).
      rewrite list_lookup_fmap in Hl. apply fmap_Some in Hl as (kv & _ & ->).
      by apply (walk_inc d kv.1 (Z.of_nat i) Hd Hc). }
    destruct (upds_core _ d q IncOverflow_op Hd Hpr) as [Hd' Hsh].
    destruct (upds_frame Chunk.IncOverflow d q) as (HN' & _ & _).
    pose proof (shape_lookup d (Z.of_nat i) Hd Hc) as Hs. rewrite Nat2Z.id in Hs.
    replace (Z.succ (Z.of_nat i)) with (Z.of_nat (S i)) by lia.
    replace (Z.pred (Z.succ (Z.of_nat n))) with (Z.of_nat n) by lia.
    rewrite (IH (S i) (upds Chunk.IncOverflow d q)) by (done || lia).
    rewrite Hsh, HN', (drop_S _ _ _ Hs), imap_cons. cbn [concat].
    rewrite upds_app, Nat.add_0_r. unfold report. rewrite foldl_app. fold q.
    do 3 f_equal. f_equal. apply imap_ext. intros j x _. unfold compose. f_equal. lia.
Qed.

Lemma Reload_result {M} (sv : M -> Z -> V -> M) d m capacity ignore_load_factor cap N threads :
  apply_load_factor capacity ignore_load_factor = Ret cap -> OverFallChunkNum cap = Ret N ->
  pow2_num N -> 0 < threads ->
  length (chunk_table_ d) = Z.to_nat N -> Forall chunk_image (chunk_table_ d) ->
  NoDup (image d).*1 ->
  Reload d capacity ignore_load_factor sv threads m =
  Ret (upds Chunk.IncOverflow (reload_base N d) (all_paths N (shape (reload_base N d))),
       report sv m (image d)).
Proof.
  intros Hcap HOF HN Hk Hl Hi Hnd. pose proof (pow2_num_range N HN).
  destruct (base_core N d HN Hl Hi Hnd) as (Hd & He & _).
  unfold Reload. rewrite Hcap. cbn [mbind outcome_bind]. rewrite HOF. cbn [mbind outcome_bind].
  rewrite reload_ranges_cover by lia.
  replace (seqZ 0 N) with (seqZ 0 (Z.of_nat (length (chunk_table_ d)))) by (f_equal; lia).
  rewrite foldl_alter_seqZ.
  replace (length (chunk_table_ d)) with (length (reload_chunk <$> chunk_table_ d)) by apply length_fmap.
  rewrite lookup_total_seqZ. fold (reload_base N d).
  rewrite length_fmap, Hl.
  etrans; [apply (reload_chunks sv (Z.to_nat N) 0); [done|cbn; lia]|].
  rewrite drop_0. change (concat (shape (reload_base N d))) with (entries (reload_base N d)).
  by rewrite He.
Qed.

Lemma all_paths_in d :
  dict_core d -> forall p, p ∈ all_paths (chunk_num_ d) (shape d) -> 0 <= p < chunk_num_ d.
Proof.
  intros Hd p Hp. unfold all_paths in Hp. apply elem_of_concat in Hp as (j & l & Hj & Hp).
  rewrite list_lookup_imap in Hj. apply fmap_Some in Hj as (x & Hx & ->).
  unfold chunk_paths in Hp. apply elem_of_concat in Hp as (j' & l' & Hj' & Hp).
  rewrite list_lookup_fmap in Hj'. apply fmap_Some in Hj' as (kv & _ & ->).
  apply lookup_lt_Some in Hx. unfold shape in Hx. rewrite length_fmap, (dw_len _ Hd) in Hx.
  apply (walk_inc d kv.1 (Z.of_nat j) Hd); [lia|done].
Qed.

Lemma recovered_wf N d :
  pow2_num N -> length (chunk_table_ d) = Z.to_nat N -> Forall chunk_image (chunk_table_ d) ->
  NoDup (image d).*1 ->
  let d' := upds Chunk.IncOverflow (reload_base N d) (all_paths N (shape (reload_base N d))) in
  dict_wf d' [] /\ to_map d' = list_to_map (image d) /\ chunk_num_ d' = N.
Proof.
  intros HN Hl Hi Hnd. cbn zeta. destruct (base_core N d HN Hl Hi Hnd) as (Hd & He & Hcov).
  set (q := all_paths N (shape (reload_base N d))).
  pose proof (all_paths_in (reload_base N d) Hd : forall p, p ∈ q -> _) as Hpr.
  destruct (upds_core _ _ q IncOverflow_op Hd Hpr) as [Hd' Hsh].
  destruct (upds_frame Chunk.IncOverflow (reload_base N d) q) as (HN' & _ & _).
  split_and!; [|unfold to_map, entries; rewrite Hsh; by rewrite <- He|done].
  split; [done|]. rewrite HN', Hsh. apply (cov_incs _ q []); [done|done|done].
Qed.

(** ** Interleavings of the recovery threads *)

Lemma upds_perm d l1 l2 :
  l1 ≡ₚ l2 -> (forall p, p ∈ l1 -> 0 <= p) -> upds Chunk.IncOverflow d l1 = upds Chunk.IncOverflow d l2.
Proof.
  intros HP. revert d. induction HP as [|x l l' _ IH|x y l|l1 l2 l3 H1 IH1 H2 IH2]; intros d Hl.
  - done.
  - apply (IH (upd d x Chunk.IncOverflow)). set_solver.
  - cbn [upds foldl]. f_equal. unfold upd. cbn [capacity_ chunk_num_ size_ chunk_table_]. f_equal.
    destruct (decide (x = y)) as [->|Hne]; [done|]. apply list_alter_comm.
    assert (0 <= x /\ 0 <= y) by (split; apply Hl; set_solver). lia.
  - rewrite IH1 by done. apply IH2. intros p Hp. apply Hl. by rewrite H1.
Qed.

(** The increments of recovery thread [i], in the order it makes them. *)
Definition thread_incs N threads (sh : list (list (Z * V))) (i : Z) : list Z :=
  concat ((fun id => chunk_paths N (Z.to_nat id) (sh !!! Z.to_nat id)) <$> reload_range N threads i).

Lemma thread_incs_all N threads (sh : list (list (Z * V))) :
  0 <= N -> 0 < threads -> Z.of_nat (length sh) = N ->
  concat (thread_incs N threads sh <$> seqZ 0 threads) = all_paths N sh.
Proof.
  intros HN Hk Hl. unfold all_paths.
  transitivity (concat ((fun id => chunk_paths N (Z.to_nat id) (sh !!! Z.to_nat id)) <$>
    concat (reload_range N threads <$> seqZ 0 threads))).
  - generalize (seqZ 0 threads). induction l as [|i l IH]; [done|].
    rewrite !fmap_cons. cbn [concat]. by rewrite fmap_app, concat_app, IH.
  - rewrite reload_ranges_cover by done. f_equal. apply list_eq. intros j.
    rewrite list_lookup_fmap, list_lookup_imap. destruct (decide (j < length sh)%nat) as [Hj|Hj].
    + rewrite lookup_seqZ_lt by lia. cbn [fmap option_fmap option_map].
      rewrite Z.add_0_l, Nat2Z.id.
      rewrite (list_lookup_lookup_total_lt sh j) by done. done.
    + rewrite lookup_seqZ_ge, lookup_ge_None_2 by lia. done.
Qed.



(** ** Recovery of a table that was closed in order *)

Lemma wf_image d :
  dict_wf d [] -> to_map d !! kEmptyKey = None ->
  Forall chunk_image (chunk_table_ d) /\ image d = entries d.
Proof.
  intros Hwf Hno.
  assert (Hs : forall c, c ∈ chunk_table_ d -> forall i tag kv,
    Chunk.tags_ c !! i = Some tag -> Chunk.value_ c !! i = Some kv -> kv.1 = kEmptyKey -> tag = 0).
  { intros c Hin i tag kv Ht Hv Hk. destruct (decide (tag = 0)) as [|Hn]; [done|]. exfalso.
    apply list_elem_of_lookup in Hin as [j Hj].
    assert (kv ∈ entries d) as Hin.
    { unfold entries, shape. apply elem_of_concat. exists j, (ents c).
      rewrite list_lookup_fmap, Hj. split; [done|]. apply elem_of_ents. eauto. }
    destruct kv as [k v]. cbn [fst] in Hk. subst k.
    assert (to_map d !! kEmptyKey = Some v) by (by eapply to_map_lookup; eauto). congruence. }
  pose proof (dw_chunk _ Hwf) as Hc. pose proof (dw_mig _ Hwf) as Hm. rewrite Forall_forall in Hc, Hm.
  assert (Hi : Forall chunk_image (chunk_table_ d)).
  { apply Forall_forall. intros c Hin. specialize (Hc c Hin). split.
    - apply Hc.
    - apply Hc.
    - by apply Hm.
    - intros kv (i & Hi)%list_elem_of_lookup.
      destruct (lookup_lt_is_Some_2 (Chunk.tags_ c) i) as [tag Ht].
      { apply lookup_lt_Some in Hi. rewrite (wf_value _ Hc) in Hi. by rewrite (wf_tags _ Hc). }
      by destruct (wf_slot _ Hc _ _ _ Ht Hi).
    - intros i kv Hv Hk. destruct (lookup_lt_is_Some_2 (Chunk.tags_ c) i) as [tag Ht].
      { apply lookup_lt_Some in Hv. rewrite (wf_value _ Hc) in Hv. by rewrite (wf_tags _ Hc). }
      rewrite Ht. f_equal. by eapply Hs. }
  split; [done|]. unfold image, entries, shape. f_equal. apply list_fmap_ext. intros j c Hj.
  pose proof (list_elem_of_lookup_2 _ _ _ Hj) as Hin.
  rewrite Forall_forall in Hi. destruct (reload_chunk_wf c (Hi c Hin)) as [_ <-].
  unfold ents, reload_chunk. cbn [Chunk.tags_ Chunk.value_]. f_equal. f_equal.
  apply list_eq. intros i. rewrite list_lookup_fmap.
  destruct (zip (Chunk.tags_ c) (Chunk.value_ c) !! i) as [[tag kv]|] eqn:E.
  - apply lookup_zip_with_Some in E as (? & ? & [= <- <-] & Ht & Hv). rewrite Ht.
    cbn [fmap option_fmap option_map]. unfold reload_slot. cbn [fst snd].
    destruct (wf_slot _ (Hc c Hin) _ _ _ Ht Hv) as (_ & H0 & H1).
    destruct (kv.1 =? kEmptyKey) eqn:Ek; b2p; [done|]. f_equal. symmetry. apply H1.
    intros ->. by apply Ek, H0.
  - apply lookup_ge_None_1 in E. rewrite length_zip_with in E.
    rewrite (wf_tags _ (Hc c Hin)), (wf_value _ (Hc c Hin)) in E.
    by rewrite lookup_ge_None_2 by (rewrite (wf_tags _ (Hc c Hin)); lia).
Qed.

Lemma Reload_wf {M} (sv : M -> Z -> V -> M) d m capacity threads :
  dict_wf d [] -> 0 < threads -> to_map d !! kEmptyKey = None ->
  OverFallChunkNum capacity = Ret (chunk_num_ d) ->
  exists d', Reload d capacity true sv threads m = Ret (d', report sv m (entries d)) /\
    dict_wf d' [] /\ to_map d' = to_map d /\ chunk_num_ d' = chunk_num_ d.
Proof.
  intros Hwf Hk Hno HO. destruct (wf_image d Hwf Hno) as [Hi He].
  assert (Hn : NoDup (image d).*1) by (rewrite He; apply (dw_nodup _ Hwf)).
  eexists. split.
  - rewrite <- He. eapply (Reload_result sv d m capacity true capacity (chunk_num_ d));
      [done|done|apply (dw_num _ Hwf)|done|apply (dw_len _ Hwf)|done|done].
  - destruct (recovered_wf (chunk_num_ d) d (dw_num _ Hwf) (dw_len _ Hwf) Hi Hn) as (? & -> & ?).
    split_and!; [done| |done]. by rewrite He.
Qed.

(** Round trip through a restart: reloading a well-formed table with a
    capacity that asks for the same number of chunks gives a well-formed table
    with the same map, unless the key [2^64 - 1] is in it, and every entry is
    reported to the allocator. *)
Theorem Reload_roundtrip {M} (set_valid : M -> Z -> V -> M) d m capacity threads :
  dict_wf d [] -> 0 < threads -> to_map d !! kEmptyKey = None ->
  OverFallChunkNum capacity = Ret (chunk_num_ d) ->
  exists d', Reload d capacity true set_valid threads m =
      Ret (d', foldl (fun m kv => set_valid m kv.1 kv.2) m (entries d)) /\
    dict_wf d' [] /\ to_map d' = to_map d.
Proof.
  intros Hwf Hk Hno HO. destruct (Reload_wf set_valid d m capacity threads Hwf Hk Hno HO) as (d' & ? & ? & ? & _).
  by exists d'.
Qed.
End Reload.

(** ** Concrete images *)

Section Images.
Import PetHash.

Definition chunk_imageb (c : Chunk.chunk Z) : bool :=
  bool_decide (length (Chunk.tags_ c) = 14%nat) && bool_decide (length (Chunk.value_ c) = 14%nat) &&
  negb (Chunk.is_migrating c) &&
  forallb (fun kv => (0 <=? kv.1) && (kv.1 <? 2 ^ 64)) (Chunk.value_ c) &&
  forallb (fun p => negb (p.2.1 =? kEmptyKey) || (p.1 =? 0)) (zip (Chunk.tags_ c) (Chunk.value_ c)).

Lemma chunk_imageb_sound c : chunk_imageb c = true -> chunk_image c.
Proof.
  unfold chunk_imageb. intros H. b2p.
  repeat match goal with H : bool_decide _ = true |- _ => apply bool_decide_eq_true in H end.
  split; [done|done|done| |].
  - intros kv Hin%list_elem_of_In. rewrite forallb_forall in H1. specialize (H1 kv Hin). b2p. lia.
  - intros i kv Hv Hk. destruct (lookup_lt_is_Some_2 (Chunk.tags_ c) i) as [tag Ht].
    { apply lookup_lt_Some in Hv. lia. }
    rewrite Ht. rewrite forallb_forall in H0.
    specialize (H0 (tag, kv) ltac:(apply list_elem_of_In; eapply list_elem_of_lookup_2, zip_lookup; eauto)).
    cbn [fst snd] in H0. rewrite Hk, Z.eqb_refl in H0. cbn in H0. b2p. by subst.
Qed.

(** What a power failure may leave of the volatile fields. *)
Definition crashed (d : dict Z) : dict Z :=
  {| capacity_ := 0; chunk_num_ := 0; size_ := 12345;
     chunk_table_ := (fun c => {| Chunk.tags_ := (fun t => if t =? 0 then 0 else 1) <$> Chunk.tags_ c;
                                  Chunk.size_ := 200; Chunk.overflow_count_ := 77;
                                  Chunk.is_migrating := false; Chunk.value_ := Chunk.value_ c |})
                     <$> chunk_table_ d |}.

Definition crash_image : dict Z := crashed overflown_table.

Lemma crash_image_ok :
  Forall chunk_image (chunk_table_ crash_image) /\ NoDup (image crash_image).*1.
Proof.
  split.
  - apply (forallb_Forall' chunk_imageb); [apply chunk_imageb_sound|by_eval].
  - eapply bool_decide_eq_true_1. by_eval.
Qed.

(** The allocator's list of reported blocks. *)
Definition collect (m : list (Z * Z)) (k v : Z) : list (Z * Z) := (k, v) :: m.


(** Thread 1 first, then thread 0, thread 2 last. *)
Definition crash_schedule : list Z :=
  let incs := thread_incs 4 3 (shape (reload_base 4 crash_image)) in incs 1 ++ incs 0 ++ incs 2.


Lemma Reload_roundtrip_witness :
  dict_wfb overflown_table = true /\
  exists d', Reload overflown_table 50 true collect 4 [] =
      Ret (d', foldl (fun m kv => collect m kv.1 kv.2) [] (entries overflown_table)) /\
    dict_wf d' [] /\ to_map d' = to_map overflown_table.
Proof.
  split; [by_eval|].
  apply (Reload_roundtrip collect overflown_table [] 50 4); [by_wfb|lia|by_eval|by_eval].
Defined.

(** ** Images that recovery does not repair *)

(** Sixteen keys fill a table of one chunk; key 3 is deleted, and the power
    fails when the item has reached persistent memory and the tag has not. *)
Definition stale_tag_image : dict Z :=
  let d := filled 14 (seqZ 1 14) in
  upd d 0 (fun c => {| Chunk.tags_ := Chunk.tags_ c; Chunk.size_ := Chunk.size_ c;
                       Chunk.overflow_count_ := Chunk.overflow_count_ c;
                       Chunk.is_migrating := Chunk.is_migrating c;
                       Chunk.value_ := Chunk.value_ (Chunk.Delete c 2) |}).

(** A stale tag survives recovery: Delete flushes the item and not the tag,
    and Reload leaves the tags of empty slots as they are.  The slot is then
    reported to the allocator under the key [2^64 - 1], the self check fails,
    and the next insertion, forced or not, dies in [CHECK(it.HasNext())]. *)
Theorem Reload_keeps_stale_tag :
  exists d m, Reload stale_tag_image 14 true collect 4 [] = Ret (d, m) /\
    (kEmptyKey, 30) ∈ m /\ Valid d 384 = Ret false /\
    Set_ d 100 7 None true = Err CheckFailed /\ Set_ d 100 7 None false = Err CheckFailed.
Proof.
  eexists _, _. split; [vm_compute; reflexivity|]. split; [|vm_compute; auto].
  eapply bool_decide_eq_true_1. by_eval.
Qed.

(** Reload does not reset [is_migrating]: after a failure in the middle of a
    migration, the lookup of an absent key whose probe sequence meets the
    marked chunk retries for ever. *)
Theorem Reload_keeps_migrating :
  exists d m,
    Reload (upd overflown_table 0 (fun c => Chunk.with_migrating c true)) 56 true collect 4 [] =
      Ret (d, m) /\ Get d 4 = Ret (Some 40) /\ Get d 1000 = Err Diverges.
Proof. eexists _, _. split; [vm_compute; reflexivity|]. vm_compute; auto. Qed.

(** The key [2^64 - 1] can be stored and read, and recovery drops it: its
    item looks like a free slot. *)
Theorem Reload_drops_empty_key :
  let d := filled 14 [kEmptyKey] in
  Get d kEmptyKey = Ret (Some (10 * kEmptyKey)) /\
  exists d' m', Reload d 14 true collect 4 [] = Ret (d', m') /\ size_ d' = 0.
Proof.
  split; [by_eval|]. eexists _, _. split; [vm_compute; reflexivity|by_eval].
Qed.
End Images.
