(* ===== verification/PetHashStores.v ===== *)
(** * PetHash: the stores of an operation (src/pet_kv/pet_hash.h)

    The index lives in memory that outlives the process, so what matters when
    the process or the machine dies is the order of the single stores.  Here
    [Insert], [Delete] and [Set] are given as the list of the stores they make,
    in program order, with the flushes of the persistent instance between them.
    [Insert_as_stores] shows that running the list is running the method.

    The assignment [value_[i] = val] of a 16-byte item is one statement of the
    source; the parameter [how] says what the compiler makes of it. *)

From stdpp Require Import base numbers list gmap.
From Stdlib Require Import ZArith Lia.
From S2P Require Import Prelude F14Chunk PetHashDict PetHashInv PetHashOps.

(** One store for the whole item, the value before the key, or the key before
    the value. *)
Inductive item_write := Whole | ValueFirst | KeyFirst.

#[export] Instance item_write_eq_dec : EqDecision item_write.
Proof. solve_decision. Defined.

Module Stores.
Section Stores.
Import PetHash.
Context {V : Type} `{!Inhabited V}.

(** The members are those of [F14Chunk] and [PetHash]; [pos] is the chunk.
    [Flush] is [clflushopt_range] of the item. *)
Inductive store :=
  | StOverflow (pos n : Z)
  | StChunkSize (pos n : Z)
  | StItem (pos : Z) (i : nat) (item : Z * V)
  | StFirst (pos : Z) (i : nat) (key : Z)
  | StSecond (pos : Z) (i : nat) (value : V)
  | StTag (pos : Z) (i : nat) (tag : Z)
  | StSize (n : Z)
  | Flush (pos : Z) (i : nat).

Definition with_tag (c : Chunk.chunk V) (i : nat) (tag : Z) : Chunk.chunk V :=
  {| Chunk.tags_ := <[i := tag]> (Chunk.tags_ c); Chunk.size_ := Chunk.size_ c;
     Chunk.overflow_count_ := Chunk.overflow_count_ c; Chunk.is_migrating := Chunk.is_migrating c;
     Chunk.value_ := Chunk.value_ c |}.

Definition with_values (c : Chunk.chunk V) (l : list (Z * V)) : Chunk.chunk V :=
  {| Chunk.tags_ := Chunk.tags_ c; Chunk.size_ := Chunk.size_ c;
     Chunk.overflow_count_ := Chunk.overflow_count_ c; Chunk.is_migrating := Chunk.is_migrating c;
     Chunk.value_ := l |}.

Definition apply_store (d : dict V) (st : store) : dict V :=
  match st with
  | StOverflow pos n => upd d pos (fun c => Chunk.with_overflow c n)
  | StChunkSize pos n => upd d pos (fun c => Chunk.with_size c n)
  | StItem pos i item => upd d pos (fun c => with_values c (<[i := item]> (Chunk.value_ c)))
  | StFirst pos i key => upd d pos (fun c => with_values c (alter (fun kv => (key, kv.2)) i (Chunk.value_ c)))
  | StSecond pos i value => upd d pos (fun c => write_second c i value)
  | StTag pos i tag => upd d pos (fun c => with_tag c i tag)
  | StSize n => with_size d n
  | Flush _ _ => d
  end.

Definition run (d : dict V) (l : list store) : dict V := foldl apply_store d l.

(** ** Chunks *)

(** [if (overflow_count_ != 255) ++overflow_count_] for [delta = 1], and the
    decrement for [delta = -1]. *)
Definition counter_stores (delta : Z) (d : dict V) (pos : Z) : list store :=
  let n := Chunk.overflow_count_ (at_ d pos) in
  if n =? 255 then [] else [StOverflow pos (u8 (n + delta))].

Definition item_stores (how : item_write) (pos : Z) (i : nat) (item : Z * V) : list store :=
  match how with
  | Whole => [StItem pos i item]
  | ValueFirst => [StSecond pos i item.2; StFirst pos i item.1]
  | KeyFirst => [StFirst pos i item.1; StSecond pos i item.2]
  end.

(** [F14Chunk::Set] *)
Definition set_stores (how : item_write) (pos : Z) (i : nat) (tag : Z) (item : Z * V) : list store :=
  item_stores how pos i item ++ [Flush pos i; StTag pos i tag].

(** [F14Chunk::Insert] *)
Definition chunk_insert_stores (how : item_write) (d : dict V) (pos key : Z) (value : V) (sign : Z) :
    outcome (list store * nat) :=
  let chunk := at_ d pos in
  _ ← CHECK (Chunk.size_ chunk <? kMaxSize);
  let size := u8 (Chunk.size_ chunk + 1) in
  let it := Chunk.MatchTag (Chunk.with_size chunk size) 0 in
  _ ← CHECK (HasNext it);
  let '(i, _) := Next it in
  Ret (StChunkSize pos size :: set_stores how pos i sign (key, value), i).

(** [F14Chunk::Delete] *)
Definition chunk_delete_stores (d : dict V) (pos : Z) (i : nat) : list store :=
  [StTag pos i 0; StFirst pos i kEmptyKey; Flush pos i;
   StChunkSize pos (u8 (Chunk.size_ (at_ d pos) - 1))].

(** ** The index *)

Fixpoint walk_stores (delta : Z) (fuel : nat) (d : dict V) (pos chunk_id step : Z) :
    outcome (list store) :=
  if pos =? chunk_id then Ret []
  else match fuel with
       | O => Err Diverges
       | S fuel' =>
           let st := counter_stores delta d pos in
           l ← walk_stores delta fuel' (run d st) (next_pos d pos step) chunk_id step;
           Ret (st ++ l)
       end.

Definition delete_stores (d : dict V) (key : Z) : outcome (list store) :=
  r ← GetInternal d key;
  match r with
  | None => Ret []
  | Some (pos, id) =>
      let chunk_id := item_pos pos id / kChunkSize in
      let chunk_offset := Z.to_nat (item_pos pos id mod kChunkSize) in
      let step := ProbeDelta (Sign (Hash key)) in
      l ← walk_stores (-1) (Z.to_nat (chunk_num_ d)) d (home d key) chunk_id step;
      let d := run d l in
      Ret (l ++ chunk_delete_stores d chunk_id chunk_offset ++ [StSize (u64 (size_ d - 1))])
  end.

Fixpoint expire_loop_stores (ids : list nat) (d : dict V) (pos : Z) (f : Z -> V -> bool -> bool) :
    outcome (list store) :=
  match ids with
  | [] => Ret []
  | id :: ids' =>
      let chunk := at_ d pos in
      if Chunk.InUse chunk id then
        let it := Chunk.Get chunk id in
        if f it.1 it.2 false then expire_loop_stores ids' d pos f
        else l ← delete_stores d it.1;
             l' ← expire_loop_stores ids' (run d l) pos f;
             Ret (l ++ l')
      else expire_loop_stores ids' d pos f
  end.

Definition expire_stores (d : dict V) (pos : Z) (check_func : CheckFuncT) : outcome (list store) :=
  match check_func with
  | Some f =>
      if kChunkSize - 2 <=? Chunk.size_ (at_ d pos) then expire_loop_stores (seq 0 14) d pos f
      else Ret []
  | None => Ret []
  end.

(** The overwrite of an item that the second search finds is not flushed. *)
Fixpoint insert_loop_stores (how : item_write) (n : nat) (i : Z) (d : dict V) (key : Z) (value : V)
    (sign step pos : Z) (check_func : CheckFuncT) (force_insert : bool) :
    outcome (list store * (Z * nat)) :=
  match n with
  | O => Err LogFatal
  | S n' =>
      le ← expire_stores d pos check_func;
      let d := run d le in
      let chunk := at_ d pos in
      match Chunk.find_slot chunk key sign with
      | Some id => Ret (le ++ [StSecond pos id value], (pos, id))
      | None =>
          if Chunk.size_ chunk <? kChunkSize then
            '(li, id) ← chunk_insert_stores how d pos key value sign;
            Ret (le ++ li ++ [StSize (u64 (size_ d + 1))], (pos, id))
          else if Full d then
            if force_insert then
              let it := Chunk.Get chunk (Z.to_nat ((sign + i) mod kChunkSize)) in
              ld ← delete_stores d it.1;
              '(l, p) ← insert_loop_stores how n' (i + 1) (run d ld) key value sign step pos
                          check_func force_insert;
              Ret (le ++ ld ++ l, p)
            else Err LogFatal
          else
            let lc := counter_stores 1 d pos in
            '(l, p) ← insert_loop_stores how n' (i + 1) (run d lc) key value sign step
                        (next_pos d pos step) check_func force_insert;
            Ret (le ++ lc ++ l, p)
      end
  end.

Definition insert_stores (how : item_write) (d : dict V) (key : Z) (value : V) (check_func : CheckFuncT)
    (force_insert : bool) : outcome (list store * (Z * nat)) :=
  let sign := Sign (Hash key) in
  insert_loop_stores how (Z.to_nat (chunk_num_ d)) 0 d key value sign (ProbeDelta sign)
    (HomeChunk d key) check_func force_insert.

(** [PetHash::Set] *)
Definition dict_set_stores (how : item_write) (d : dict V) (key : Z) (value : V) (check_func : CheckFuncT)
    (is_force : bool) : outcome (list store * (Z * nat)) :=
  r ← GetReturnPtr d key;
  match r with
  | Some p => Ret ([StSecond p.1 p.2 value; Flush p.1 p.2], p)
  | None => insert_stores how d key value check_func is_force
  end.

(** ** What a failure leaves *)

(** The store was to the item that a later [Flush] writes back. *)
Definition flushed (st : store) (later : list store) : bool :=
  let hit pos i := existsb (fun st' => match st' with
                                       | Flush pos' i' => (pos =? pos') && (i =? i')%nat
                                       | _ => false
                                       end) later in
  match st with
  | StItem pos i _ | StFirst pos i _ | StSecond pos i _ => hit pos i
  | _ => false
  end.

(** The stores [s] that are in memory after a power failure, when [ex] have
    been executed: any of them may still be in a cache, except those to an
    item that has been flushed since. *)
Inductive survives : list store -> list store -> Prop :=
  | sv_nil : survives [] []
  | sv_keep st ex s : survives ex s -> survives (st :: ex) (st :: s)
  | sv_lose st ex s : flushed st ex = false -> survives ex s -> survives (st :: ex) s.
End Stores.
Arguments store : clear implicits.
End Stores.

(** ** Running the stores is running the method *)

Section Runs.
Import PetHash Stores.
Context {V : Type} `{!Inhabited V}.
Implicit Types (d : dict V) (l : list (store V)).

Lemma run_app d l1 l2 : run d (l1 ++ l2) = run (run d l1) l2.
Proof. apply foldl_app. Qed.

Lemma list_alter_alter {A} (f g : A -> A) i (l : list A) : alter g i (alter f i l) = alter (g ∘ f) i l.
Proof. revert i. induction l as [|y l IH]; intros [|i]; cbn; [done..|]. f_equal. apply IH. Qed.

Lemma upd_ext d pos f g : f (at_ d pos) = g (at_ d pos) -> upd d pos f = upd d pos g.
Proof.
  intros H. unfold upd. f_equal. apply list_alter_ext; [|done].
  intros c Hc. unfold at_ in H. by rewrite (list_lookup_total_correct _ _ _ Hc) in H.
Qed.

Lemma upd_upd d pos f g : upd (upd d pos f) pos g = upd d pos (g ∘ f).
Proof. unfold upd. cbn [chunk_table_ capacity_ chunk_num_ size_]. by rewrite list_alter_alter. Qed.

Lemma upd_id d pos f : f (at_ d pos) = at_ d pos -> upd d pos f = d.
Proof.
  intros H. rewrite (upd_ext _ _ f id) by done. unfold upd. replace (alter id _ _) with (chunk_table_ d); [by destruct d|].
  symmetry. apply list_alter_id. done.
Qed.

Lemma alter_const {A} (x : A) i (l : list A) : alter (fun _ => x) i l = <[i := x]> l.
Proof. revert i. induction l as [|y l IH]; intros [|i]; cbn; [done..|]. f_equal. apply IH. Qed.

Lemma run_inc d pos : run d (counter_stores 1 d pos) = upd d pos Chunk.IncOverflow.
Proof.
  unfold counter_stores. destruct (_ =? 255) eqn:E; cbn.
  - symmetry. apply upd_id. unfold Chunk.IncOverflow. by rewrite E.
  - apply upd_ext. unfold Chunk.IncOverflow. by rewrite E.
Qed.

Lemma run_dec d pos : run d (counter_stores (-1) d pos) = upd d pos Chunk.DecOverflow.
Proof.
  unfold counter_stores. destruct (_ =? 255) eqn:E; cbn.
  - symmetry. apply upd_id. unfold Chunk.DecOverflow. by rewrite E.
  - apply upd_ext. unfold Chunk.DecOverflow. by rewrite E.
Qed.

Lemma run_item how d pos i item :
  run d (item_stores how pos i item) =
  upd d pos (fun c => with_values c (<[i := item]> (Chunk.value_ c))).
Proof.
  destruct item as [k v], how; cbn [item_stores run foldl apply_store fst snd]; [done| |];
    rewrite upd_upd; apply upd_ext; unfold compose, write_second, with_values;
    cbn [Chunk.value_ Chunk.tags_ Chunk.size_ Chunk.overflow_count_ Chunk.is_migrating];
    f_equal; by rewrite list_alter_alter, <- alter_const.
Qed.

Lemma chunk_insert_run how d pos key value sign :
  ('(c, i) ← Chunk.Insert (at_ d pos) key value sign; Ret (upd d pos (fun _ => c), i)) =
  ('(l, i) ← chunk_insert_stores how d pos key value sign; Ret (run d l, i)).
Proof.
  unfold Chunk.Insert, chunk_insert_stores. destruct (_ <? _); cbn [CHECK mbind outcome_bind]; [|done].
  destruct (HasNext _); cbn [CHECK mbind outcome_bind]; [|done].
  destruct (Next _) as [i it]. cbn [mbind outcome_bind]. f_equal. f_equal.
  change (run d (?st :: ?l)) with (run (apply_store d st) l). unfold set_stores. rewrite run_app, run_item.
  cbn [run foldl apply_store]. rewrite !upd_upd. by apply upd_ext.
Qed.

Lemma chunk_delete_run d pos i :
  run d (chunk_delete_stores d pos i) = upd d pos (fun c => Chunk.Delete c i).
Proof. unfold chunk_delete_stores. cbn [run foldl apply_store]. rewrite !upd_upd. by apply upd_ext. Qed.

Lemma walk_run fuel d pos chunk_id step :
  walk_path Chunk.DecOverflow fuel d pos chunk_id step =
  (l ← walk_stores (-1) fuel d pos chunk_id step; Ret (run d l)).
Proof.
  revert d pos. induction fuel as [|fuel IH]; intros d pos; cbn [walk_path walk_stores];
    destruct (pos =? chunk_id); try done.
  rewrite run_dec, IH. destruct (walk_stores _ _ _ _ _ _) as [l|]; cbn [mbind outcome_bind]; [|done].
  by rewrite run_app, run_dec.
Qed.

Lemma delete_run d key : Delete d key = (l ← delete_stores d key; Ret (run d l)).
Proof.
  unfold Delete, delete_stores. destruct (GetInternal d key) as [[[pos id]|]|]; cbn [mbind outcome_bind]; [|done..].
  rewrite walk_run. destruct (walk_stores _ _ _ _ _ _) as [l|]; cbn [mbind outcome_bind]; [|done].
  by rewrite !run_app, chunk_delete_run.
Qed.

Lemma expire_run d pos cf : expire d pos cf = (l ← expire_stores d pos cf; Ret (run d l)).
Proof.
  unfold expire, expire_stores. destruct cf as [f|]; [|done]. destruct (_ <=? _); [|done].
  generalize (seq 0 14). intros ids. revert d.
  induction ids as [|id ids IH]; intros d; cbn [expire_loop expire_loop_stores]; [done|].
  destruct (Chunk.InUse _ _); [|apply IH]. destruct (f _ _ _); [apply IH|].
  rewrite delete_run. destruct (delete_stores _ _) as [l|]; cbn [mbind outcome_bind]; [|done].
  rewrite IH. destruct (expire_loop_stores _ _ _ _) as [l'|]; cbn [mbind outcome_bind]; [|done].
  by rewrite run_app.
Qed.

Lemma insert_loop_run how n i d key value sign step pos cf force :
  insert_loop n i d key value sign step pos cf force =
  ('(l, p) ← insert_loop_stores how n i d key value sign step pos cf force; Ret (run d l, p)).
Proof.
  revert i d pos. induction n as [|n IH]; intros i d pos; cbn [insert_loop insert_loop_stores]; [done|].
  rewrite expire_run. destruct (expire_stores d pos cf) as [le|]; cbn [mbind outcome_bind]; [|done].
  destruct (Chunk.find_slot _ _ _) as [id|]; [cbn [mbind outcome_bind]; by rewrite run_app|].
  destruct (_ <? _).
  { pose proof (chunk_insert_run how (run d le) pos key value sign) as HI. revert HI.
    destruct (Chunk.Insert _ _ _ _) as [[c id]|]; destruct (chunk_insert_stores _ _ _ _ _ _) as [[li id']|];
      cbn [mbind outcome_bind]; intros HI; [|done|done|congruence].
    injection HI as H1 ->. by rewrite !run_app, <- H1. }
  destruct (Full _); [destruct force; [|done]|].
  - rewrite delete_run. destruct (delete_stores _ _) as [ld|]; cbn [mbind outcome_bind]; [|done].
    rewrite IH. destruct (insert_loop_stores _ _ _ _ _ _ _ _ _ _ _) as [[l p]|];
      cbn [mbind outcome_bind]; [|done]. by rewrite !run_app.
  - rewrite run_inc, IH. destruct (insert_loop_stores _ _ _ _ _ _ _ _ _ _ _) as [[l p]|];
      cbn [mbind outcome_bind]; [|done]. by rewrite !run_app, run_inc.
Qed.

Lemma insert_run how d key value cf force :
  Insert d key value cf force =
  ('(l, p) ← insert_stores how d key value cf force; Ret (run d l, p)).
Proof. apply insert_loop_run. Qed.

End Runs.
