(* ===== verification/PetHashCrash.v ===== *)
(** * PetHash: failures in the middle of an operation

    What [Reload] makes of the image that a killed process or a power failure
    leaves, for every point of an [Insert] or [Delete], and what the self check
    [Valid] says of these images.  [PetHashStores] gives the stores. *)

From stdpp Require Import base numbers list gmap.
From Stdlib Require Import ZArith Lia.
From S2P Require Import Prelude F14Chunk PetHashDict PetHashInv PetHashOps PetHashInsert PetHashSpec.
From S2P Require Import PetHashValid PetHashReload PetHashStores.

(** ** What recovery reads *)

Section Items.
Import PetHash Stores.
Context {V : Type} `{!Inhabited V}.
Implicit Types (d : dict V) (c : Chunk.chunk V) (l s ex : list (store V)) (m : gmap Z V).

#[local] Coercion dw_core : dict_wf >-> dict_core.
#[local] Hint Resolve dw_core : core.

(** The members of the chunks that [Reload] does not compute again. *)
Definition items c : list Z * list (Z * V) * bool := (Chunk.tags_ c, Chunk.value_ c, Chunk.is_migrating c).

Definition items_of d := items <$> chunk_table_ d.

Definition effect (st : store V) (t : list (list Z * list (Z * V) * bool)) :=
  match st with
  | StItem pos i kv => alter (fun x => (x.1.1, <[i := kv]> x.1.2, x.2)) (Z.to_nat pos) t
  | StFirst pos i k => alter (fun x => (x.1.1, alter (fun kv => (k, kv.2)) i x.1.2, x.2)) (Z.to_nat pos) t
  | StSecond pos i v => alter (fun x => (x.1.1, alter (fun kv => (kv.1, v)) i x.1.2, x.2)) (Z.to_nat pos) t
  | StTag pos i tag => alter (fun x => (<[i := tag]> x.1.1, x.1.2, x.2)) (Z.to_nat pos) t
  | _ => t
  end.

Lemma items_upd d pos f g :
  (forall c, items (f c) = g (items c)) -> items_of (upd d pos f) = alter g (Z.to_nat pos) (items_of d).
Proof.
  intros H. unfold items_of, upd. cbn [chunk_table_]. revert pos.
  enough (forall i, items <$> alter f i (chunk_table_ d) = alter g i (items <$> chunk_table_ d)) by eauto.
  induction (chunk_table_ d) as [|c t IH]; intros [|i]; cbn; [done..| |]; f_equal; auto.
Qed.

Lemma items_apply d st : items_of (apply_store d st) = effect st (items_of d).
Proof.
  assert (Hid : forall pos (t : list (list Z * list (Z * V) * bool)), alter id pos t = t).
  { intros pos t. by apply list_alter_id. }
  destruct st; cbn [apply_store effect]; try (by apply items_upd); try done;
    rewrite <- (Hid (Z.to_nat pos) (items_of d)); by apply items_upd.
Qed.

Lemma items_run d s : items_of (run d s) = foldl (fun t st => effect st t) (items_of d) s.
Proof. revert d. induction s as [|st s IH]; intros d; [done|].
  change (run d (st :: s)) with (run (apply_store d st) s). by rewrite IH, items_apply.
Qed.

(** Stores that recovery does not see. *)
Definition volatile (st : store V) : Prop :=
  match st with
  | StOverflow _ _ | StChunkSize _ _ | StSize _ | Flush _ _ => True
  | _ => False
  end.

Lemma items_volatile d s1 s2 :
  Forall volatile s1 -> items_of (run d (s1 ++ s2)) = items_of (run d s2).
Proof.
  rewrite !items_run, foldl_app. intros H. f_equal. induction H as [|st s Hst _ IH]; [done|].
  by destruct st.
Qed.

(** [d'] has the chunks of [d] and recovery reads the map [m] in it. *)
Record recoverable d d' m : Prop := {
  rc_len : length (chunk_table_ d') = length (chunk_table_ d);
  rc_im : Forall chunk_image (chunk_table_ d');
  rc_nodup : NoDup (image d').*1;
  rc_map : list_to_map (image d') = m
}.

Lemma image_items d d' : items_of d = items_of d' -> image d = image d'.
Proof.
  intros H. unfold image. f_equal.
  transitivity ((fun it => filter (fun kv : Z * V => kv.1 <> kEmptyKey) it.1.2) <$> items_of d);
    [|rewrite H]; unfold items_of; by rewrite <- list_fmap_compose.
Qed.

Lemma chunk_image_items c c' : items c = items c' -> chunk_image c -> chunk_image c'.
Proof. intros H [H1 H2 H3 H4 H5]. injection H as Ht Hv Hm. split; rewrite <- ?Ht, <- ?Hv, <- ?Hm; done. Qed.

Lemma recoverable_items d d1 d2 m : items_of d1 = items_of d2 -> recoverable d d1 m -> recoverable d d2 m.
Proof.
  intros H [Hl Hi Hn Hm]. pose proof (image_items _ _ H) as Him. split; rewrite <- ?Him; [|..|done|done].
  - rewrite <- Hl. apply (f_equal length) in H. unfold items_of in H. by rewrite !length_fmap in H.
  - rewrite Forall_lookup in Hi |- *. intros i c Hc. apply (f_equal (.!! i)) in H.
    unfold items_of in H. rewrite !list_lookup_fmap, Hc in H. cbn in H.
    destruct (chunk_table_ d1 !! i) as [c1|] eqn:E; [|done]. cbn in H. injection H as H1 H2 H3.
    eapply chunk_image_items; [|by eapply Hi]. unfold items. congruence.
Qed.

Lemma recoverable_Reload {M} (sv : M -> Z -> V -> M) d d' m (a : M) capacity threads :
  dict_core d -> recoverable d d' m -> OverFallChunkNum capacity = Ret (chunk_num_ d) -> 0 < threads ->
  exists d2 a', Reload d' capacity true sv threads a = Ret (d2, a') /\ dict_wf d2 [] /\ to_map d2 = m.
Proof.
  intros Hd [Hl Hi Hn Hm] HO Hk. pose proof (dw_num _ Hd) as HN. rewrite (dw_len _ Hd) in Hl.
  eexists _, _. split; [by eapply (Reload_result sv d' a capacity true capacity (chunk_num_ d))|].
  destruct (recovered_wf (chunk_num_ d) d' HN Hl Hi Hn) as (? & ? & _). split; [done|congruence].
Qed.

Lemma recoverable_wf d :
  dict_wf d [] -> to_map d !! kEmptyKey = None -> recoverable d d (to_map d).
Proof.
  intros Hwf Hno. destruct (wf_image d Hwf Hno) as [Hi He]. split; [done|done| |]; rewrite He; [|done].
  apply (dw_nodup _ Hwf).
Qed.

(** ** An item written to a free slot *)

Lemma filter_insert_free (l : list (Z * V)) i kv v0 :
  l !! i = Some (kEmptyKey, v0) ->
  let f := filter (fun kv : Z * V => kv.1 <> kEmptyKey) in
  (kv.1 <> kEmptyKey -> f (<[i := kv]> l) ≡ₚ kv :: f l) /\ (kv.1 = kEmptyKey -> f (<[i := kv]> l) = f l).
Proof.
  intros Hi f. unfold f. rewrite insert_take_drop by (by apply lookup_lt_Some in Hi).
  rewrite <- (take_drop_middle l i _ Hi) at 3 6.
  rewrite !filter_app, !filter_cons. rewrite (decide_False (P := kEmptyKey <> kEmptyKey)) by auto.
  split; intros Hk; [rewrite decide_True by done|rewrite decide_False by auto]; [|done].
  by rewrite <- Permutation_middle.
Qed.

(** Writing [kv] into the free slot [i] of chunk [pos], with or without its tag. *)
Lemma recoverable_slot d pos i kv f :
  dict_wf d [] -> to_map d !! kEmptyKey = None -> 0 <= pos < chunk_num_ d ->
  Chunk.tags_ (at_ d pos) !! i = Some 0 -> 0 <= kv.1 < 2 ^ 64 -> to_map d !! kv.1 = None ->
  (exists tag, (kv.1 = kEmptyKey -> tag = 0) /\
     items (f (at_ d pos)) =
     (<[i := tag]> (Chunk.tags_ (at_ d pos)), <[i := kv]> (Chunk.value_ (at_ d pos)), false)) ->
  recoverable d (upd d pos f) (if decide (kv.1 = kEmptyKey) then to_map d else <[kv.1 := kv.2]> (to_map d)).
Proof.
  intros Hwf Hno Hpos Hti Hkr Hk (tag & Htag & Hf). pose proof (recoverable_wf d Hwf Hno) as [_ Him Hnd Hmap].
  destruct (at_wf _ _ Hwf Hpos) as [Hc _]. pose proof (at_lookup _ _ Hwf Hpos) as Hat.
  injection Hf as Hft Hfv Hfm.
  assert (Hi14 : (i < 14)%nat) by (apply lookup_lt_Some in Hti; by rewrite (wf_tags _ Hc) in Hti).
  pose proof (Get_lookup (at_ d pos) i ltac:(by rewrite (wf_value _ Hc))) as Hvi.
  destruct (wf_slot _ Hc _ _ _ Hti Hvi) as (_ & Hfree & _). specialize (Hfree eq_refl).
  destruct (Chunk.Get (at_ d pos) i) as [k0 v0] eqn:EG. cbn [fst] in Hfree. subst k0.
  assert (Hic : chunk_image (f (at_ d pos))).
  { pose proof (Forall_lookup_1 _ _ _ _ Him Hat) as [I1 I2 I3 I4 I5].
    split; rewrite ?Hft, ?Hfv, ?length_insert; try done.
    - intros x (j & Hx)%list_elem_of_lookup. apply list_lookup_insert_Some in Hx as [(_ & <- & _)|[_ Hx]]; [done|].
      by eapply I4, list_elem_of_lookup_2.
    - intros j x Hx Hxk. destruct (decide (j = i)) as [->|Hne].
      + rewrite list_lookup_insert_eq in Hx by lia. simplify_eq.
        rewrite list_lookup_insert_eq by lia. by rewrite Htag.
      + rewrite list_lookup_insert_ne in Hx by done. rewrite list_lookup_insert_ne by done. by eapply I5. }
  destruct (filter_insert_free _ _ kv _ Hvi) as [F1 F2].
  assert (HP : image (upd d pos f) ≡ₚ (if decide (kv.1 = kEmptyKey) then [] else [kv]) ++ image d).
  { unfold image, upd. cbn [chunk_table_]. rewrite (list_alter_as_insert _ _ _ _ Hat), list_fmap_insert.
    destruct (concat_insert_perm (image_ents <$> chunk_table_ d) (Z.to_nat pos) (image_ents (at_ d pos)))
      as (rest & E1 & E2); [by rewrite list_lookup_fmap, Hat|].
    rewrite E2, E1. unfold image_ents at 1. rewrite Hfv.
    destruct (decide _) as [E|E]; [rewrite (F2 E)|rewrite (F1 E)]; done. }
  assert (Hnd' : NoDup (image (upd d pos f)).*1).
  { rewrite HP, fmap_app. destruct (decide _); [done|]. cbn. apply NoDup_cons. split; [|done].
    destruct (wf_image d Hwf Hno) as [_ ->]. by apply to_map_None. }
  split; [by cbn; rewrite length_alter| |done|].
  - cbn. rewrite (list_alter_as_insert _ _ _ _ Hat). by apply Forall_insert.
  - rewrite (list_to_map_proper _ _ Hnd' HP). destruct (decide _); cbn; by rewrite Hmap.
Qed.
End Items.

(** ** The stores of an insertion *)

Section Shape.
Import PetHash Stores.
Context {V : Type} `{!Inhabited V}.
Implicit Types (d : dict V) (l s ex : list (store V)) (m : gmap Z V).

#[local] Coercion dw_core : dict_wf >-> dict_core.
#[local] Hint Resolve dw_core : core.

Notation sgn k := (Sign (Hash k)).
Notation stp k := (ProbeDelta (Sign (Hash k))).

Lemma wf_weaken d (ex : list Z) : dict_wf d ex -> dict_wf d [].
Proof.
  intros [Hd Hc]. split; [done|]. eapply cov_le; [|exact Hc]. intros p. rewrite app_nil_r, occ_app.
  pose proof (occ_nonneg p ex). lia.
Qed.

(** The table is that of [d] as far as its contents go. *)
Record like d d' : Prop := {
  lk_wf : dict_wf d' [];
  lk_map : to_map d' = to_map d;
  lk_size : size_ d' = size_ d;
  lk_num : chunk_num_ d' = chunk_num_ d;
  lk_cap : capacity_ d' = capacity_ d
}.

Lemma like_trans d1 d2 d3 : like d1 d2 -> like d2 d3 -> like d1 d3.
Proof. intros [] []. split; congruence. Qed.

Definition is_counter (st : store V) : Prop := match st with StOverflow _ _ => True | _ => False end.

Lemma counter_volatile l : Forall is_counter l -> Forall volatile l.
Proof. intros H. eapply Forall_impl; [exact H|]. by intros []. Qed.

(** The counters of the full chunks passed on the way. *)
Definition passes d l : Prop := Forall is_counter l /\ forall n, like d (run d (take n l)).

Lemma passes_inc d pos l k j :
  at_round d k j pos -> Z.of_nat (S j) < chunk_num_ d ->
  passes (upd d pos Chunk.IncOverflow) l -> passes d (counter_stores 1 d pos ++ l).
Proof.
  intros Hr Hj [Hv Hn]. destruct (at_round_next d k j pos Hr Hj) as (Hr2 & Hm2 & _).
  assert (Hd : like d d) by (split; [eapply wf_weaken, Hr|done..]).
  assert (Hl2 : like d (upd d pos Chunk.IncOverflow)) by (split; [eapply wf_weaken, Hr2|done..]).
  split; [apply Forall_app; split; [|done]; unfold counter_stores; destruct (_ =? 255); by repeat constructor|].
  intros n. pose proof (run_inc d pos) as HI. unfold counter_stores in *.
  destruct (_ =? 255); cbn [app].
  - cbn in HI. rewrite <- HI in Hn. apply Hn.
  - destruct n as [|n]; [done|]. cbn [take].
    change (run d (?st :: ?q)) with (run (run d [st]) q). rewrite HI. by eapply like_trans.
Qed.

Lemma insert_loop_shape how n j (m : nat) d k v pos force :
  at_round d k j pos -> Full d = false ->
  (j <= m)%nat -> (m < j + n)%nat -> Z.of_nat m < chunk_num_ d ->
  Chunk.size_ (at_ d (stepN (chunk_num_ d) (home d k) (stp k) (Z.of_nat m))) < 14 ->
  exists lc p i,
    insert_loop_stores how n (Z.of_nat j) d k v (sgn k) (stp k) pos None force =
    Ret (lc ++ StChunkSize p (u8 (Chunk.size_ (at_ (run d lc) p) + 1)) ::
         set_stores how p i (sgn k) (k, v) ++ [StSize (u64 (size_ d + 1))], (p, i)) /\
    passes d lc /\ 0 <= p < chunk_num_ d /\ Chunk.size_ (at_ (run d lc) p) < 14 /\
    Chunk.tags_ (at_ (run d lc) p) !! i = Some 0.
Proof.
  revert j d pos. induction n as [|n IH]; intros j d pos Hr HF Hjm Hmn Hm Hs; [lia|].
  pose proof (at_round_pos _ _ _ _ Hr) as Hpos. pose proof (ar_wf _ _ _ _ Hr) as Hwf.
  cbn [insert_loop_stores expire_stores mbind outcome_bind]. change (run d []) with d.
  rewrite (absent_find d pos k) by (eauto || apply (ar_abs _ _ _ _ Hr)).
  destruct (Chunk.size_ (at_ d pos) <? kChunkSize) eqn:Hlt; b2p; unfold kChunkSize, kMaxSize in Hlt.
  - destruct (at_wf _ _ Hwf Hpos) as [Hc _]. destruct (free_slot _ Hc Hlt) as [HN Hi].
    exists [], pos, (Next (Chunk.MatchTag (at_ d pos) 0)).1. unfold chunk_insert_stores.
    rewrite (proj2 (Z.ltb_lt _ _)) by (unfold kMaxSize; lia). cbn [CHECK mbind outcome_bind].
    rewrite (MatchTag_tags (at_ d pos)) by (done || apply (wf_tags _ Hc)). rewrite HN. cbn [CHECK mbind outcome_bind].
    split_and!; try (done || lia). split; [done|]. intros q. rewrite take_nil. split; [by eapply wf_weaken|done..].
  - rewrite HF, run_inc.
    assert (Hne : j <> m) by (intros ->; rewrite <- (ar_pos _ _ _ _ Hr) in Hs; lia).
    destruct (at_round_next d k j pos Hr) as (Hr2 & Hm2 & Hsh2); [lia|].
    set (d2 := upd d pos Chunk.IncOverflow) in *. replace (Z.of_nat j + 1) with (Z.of_nat (S j)) by lia.
    destruct (IH (S j) d2 (next_pos d pos (stp k))) as (lc & p & i & HI & Hpa & Hp & Hsz & Ht);
      [done| |lia|lia|done| |].
    + eapply (Full_shrinks d); [apply Hwf|apply (ar_wf _ _ _ _ Hr2)|done|done].
    + eapply Z.le_lt_trans; [|exact Hs]. apply (sh_chunk d d2); [done|].
      pose proof (pow2_num_range _ (dw_num _ Hwf)). apply Z.mod_pos_bound. lia.
    + rewrite HI. cbn [mbind outcome_bind]. exists (counter_stores 1 d pos ++ lc), p, i.
      rewrite run_app, run_inc. fold d2. rewrite <- app_assoc. split_and!; try (done || apply Hp).
      apply (passes_inc d pos lc k j); [done|lia|done].
Qed.

(** The insertion of a new key below the maximal load: the counters of the
    chunks passed, then the stores of [F14Chunk::Insert], then [size_++]. *)
Lemma insert_shape how d k v force :
  dict_wf d [] -> 0 <= k < 2 ^ 64 -> to_map d !! k = None -> Full d = false ->
  exists lc p i, 
    let l := lc ++ StChunkSize p (u8 (Chunk.size_ (at_ (run d lc) p) + 1)) ::
             set_stores how p i (sgn k) (k, v) ++ [StSize (u64 (size_ d + 1))] in
    insert_stores how d k v None force = Ret (l, (p, i)) /\
    inserted (run d l) (p, i) (to_map d) k v /\
    passes d lc /\ 0 <= p < chunk_num_ d /\ Chunk.size_ (at_ (run d lc) p) < 14 /\
    Chunk.tags_ (at_ (run d lc) p) !! i = Some 0.
Proof.
  intros Hwf Hk Hno HF. destruct (chunk_ahead d k Hwf HF) as (m & Hm & Hs).
  destruct (insert_loop_shape how (Z.to_nat (chunk_num_ d)) 0 m d k v (HomeChunk d k) force)
    as (lc & p & i & HI & Hr); [by apply at_round_0|done|lia|lia|lia|done|].
  exists lc, p, i. split; [exact HI|]. split; [|done].
  destruct (Insert_free d k v None force Hwf Hk Hno HF) as (d' & r & mm & HIn & Hpu & Hins).
  apply purge_None in Hpu as ->. rewrite (insert_run how) in HIn. unfold insert_stores in HIn.
  change 0 with (Z.of_nat 0) in HIn. rewrite HI in HIn. cbn [mbind outcome_bind] in HIn. by simplify_eq.
Qed.
End Shape.

(** ** Failures during an insertion *)

Section Atomic.
Import PetHash Stores.
Context {V : Type} `{!Inhabited V}.
Implicit Types (d : dict V) (l s ex : list (store V)) (m : gmap Z V).

#[local] Coercion dw_core : dict_wf >-> dict_core.
#[local] Hint Resolve dw_core : core.

Notation sgn k := (Sign (Hash k)).

(** What a failure can leave of the executed stores: when the item is one
    store, any image of a power failure; when the value goes before the key,
    the image of a killed process, in which every executed store is. *)
Definition leaves (how : item_write) ex s : Prop :=
  match how with
  | Whole => survives ex s
  | ValueFirst => s = ex
  | KeyFirst => False
  end.

Lemma survives_app l1 l2 s :
  survives (l1 ++ l2) s -> Forall volatile l1 ->
  exists s1 s2, s = s1 ++ s2 /\ Forall volatile s1 /\ survives l2 s2.
Proof.
  revert s. induction l1 as [|st l1 IH]; intros s Hs Hv; [by exists [], s|].
  apply Forall_cons in Hv as [Hst Hv]. cbn [app] in Hs.
  inversion Hs as [|? ? s' Hs'|? ? ? _ Hs']; subst;
    destruct (IH _ Hs' Hv) as (s1 & s2 & -> & ? & ?); [exists (st :: s1), s2|exists s1, s2]; auto.
Qed.

(** The stores of the insertion proper. *)
Definition insert_tail (how : item_write) p n i k (v : V) z : list (store V) :=
  StChunkSize p n :: set_stores how p i (sgn k) (k, v) ++ [StSize z].

(** The three images that recovery can tell apart, and when the last two are
    certain. *)
Definition stage how p i k (v : V) d d' (durable : Prop) : Prop :=
  (~ durable /\
     (items_of d' = items_of d \/ how = ValueFirst /\ items_of d' = items_of (run d [StSecond p i v]))) \/
  items_of d' = items_of (run d [StItem p i (k, v)]) \/
  items_of d' = items_of (run d [StItem p i (k, v); StTag p i (sgn k)]).

Lemma items_value_first p i k (v : V) d :
  items_of (run d [StSecond p i v; StFirst p i k]) = items_of (run d [StItem p i (k, v)]).
Proof.
  change [StSecond p i v; StFirst p i k] with (item_stores ValueFirst p i (k, v)).
  change [StItem p i (k, v)] with (item_stores Whole p i (k, v)). by rewrite !run_item.
Qed.

Lemma leaves_stage how p n i k (v : V) z d q s :
  leaves how (take q (insert_tail how p n i k v z)) s ->
  stage how p i k v d (run d s)
    (Flush p i ∈ take q (insert_tail how p n i k v z)).
Proof.
  unfold insert_tail, set_stores, stage. intros Hs.
  destruct how; [|cbn [leaves] in Hs; subst s|done]; cbn [item_stores app fst snd] in *.
  - destruct q as [|[|[|[|[|q]]]]]; cbn [take leaves] in Hs |- *; rewrite ?take_nil in *;
      repeat match goal with
             | H : survives (_ :: _) _ |- _ => inversion H; clear H; subst
             | H : survives [] _ |- _ => inversion H; clear H; subst
             | H : flushed _ _ = false |- _ => cbn in H; rewrite Z.eqb_refl, Nat.eqb_refl in H; discriminate H
             end;
      rewrite ?items_run; cbn; auto; left; (split; [set_solver|auto]).
  - pose proof (items_value_first p i k v d) as HV. rewrite !items_run in HV. cbn in HV.
    destruct q as [|[|[|[|[|[|q]]]]]]; cbn [take]; rewrite ?take_nil; rewrite !items_run; cbn;
      rewrite ?HV; auto; left; (split; [set_solver|auto]).
Qed.

Lemma stage_recoverable how p i k (v : V) d d' b :
  dict_wf d [] -> 0 <= k < kEmptyKey -> to_map d !! k = None -> to_map d !! kEmptyKey = None ->
  0 <= p < chunk_num_ d -> Chunk.tags_ (at_ d p) !! i = Some 0 ->
  stage how p i k v d d' b ->
  recoverable d d' (to_map d) /\ ~ b \/ recoverable d d' (<[k := v]> (to_map d)).
Proof.
  intros Hwf Hk Hno Hem Hp Ht. destruct (at_wf _ _ Hwf Hp) as [Hc Hm].
  pose proof (fun kv f => recoverable_slot d p i kv f Hwf Hem Hp Ht) as HR.
  assert (Hrk : 0 <= k < 2 ^ 64 /\ k <> kEmptyKey) by (unfold kEmptyKey, u64_max in *; lia).
  assert (Hti : Chunk.tags_ (at_ d p) = <[i := 0]> (Chunk.tags_ (at_ d p))) by (by rewrite list_insert_id).
  intros [[Hb [H|[-> H]]]|[H|H]]; [left; split; [|done]|left; split; [|done]|right|right];
    (eapply recoverable_items; [symmetry; exact H|]).
  - by apply recoverable_wf.
  - pose proof (Get_lookup (at_ d p) i ltac:(rewrite (wf_value _ Hc), <- (wf_tags _ Hc); by eapply lookup_lt_Some))
      as Hv. destruct (wf_slot _ Hc _ _ _ Ht Hv) as (_ & Hfree & _). specialize (Hfree eq_refl).
    specialize (HR (kEmptyKey, v) (fun c => write_second c i v)). rewrite decide_True in HR by done. apply HR.
    + unfold kEmptyKey, u64_max. cbn. lia.
    + done.
    + exists 0. split; [done|]. unfold items, write_second. cbn [Chunk.tags_ Chunk.value_ Chunk.is_migrating].
      rewrite Hm, <- Hti, (list_alter_as_insert _ _ _ _ Hv), Hfree. done.
  - specialize (HR (k, v) (fun c => with_values c (<[i := (k, v)]> (Chunk.value_ c)))).
    cbn [fst snd] in HR. rewrite decide_False in HR by apply Hrk. apply HR; [lia|done|].
    exists 0. split; [intros; lia|]. unfold items. cbn. by rewrite Hm, <- Hti.
  - cbn [run foldl apply_store]. rewrite upd_upd.
    specialize (HR (k, v) ((fun c => with_tag c i (sgn k)) ∘ (fun c => with_values c (<[i := (k, v)]> (Chunk.value_ c))))).
    cbn [fst snd] in HR. rewrite decide_False in HR by apply Hrk. apply HR; [lia|done|].
    exists (sgn k). split; [intros; lia|]. unfold items, compose. cbn. by rewrite Hm.
Qed.

Lemma leaves_app how l1 l2 s :
  leaves how (l1 ++ l2) s -> Forall volatile l1 ->
  exists s1 s2, s = s1 ++ s2 /\ Forall volatile s1 /\ leaves how l2 s2.
Proof. destruct how; [apply survives_app|intros -> ?; by exists l1, l2|done]. Qed.

Lemma insert_stage how lc p n i k (v : V) z d ex s :
  Forall is_counter lc -> ex `prefix_of` lc ++ insert_tail how p n i k v z -> leaves how ex s ->
  stage how p i k v d (run d s) (Flush p i ∈ ex).
Proof.
  intros Hc [rest Hex] Hs. apply (f_equal (take (length ex))) in Hex.
  rewrite take_app_length, take_app in Hex.
  set (q := (length ex - length lc)%nat) in *.
  assert (Hct : Forall is_counter (take (length ex) lc)) by (by apply Forall_take).
  set (lc' := take (length ex) lc) in *. clearbody lc' q. subst ex.
  apply leaves_app in Hs as (s1 & s2 & -> & Hv1 & Hs2); [|by apply counter_volatile].
  destruct (leaves_stage _ _ _ _ _ _ _ d _ _ Hs2) as [[Hd Hi]|Hi]; unfold stage;
    rewrite items_volatile by done; [left|by right]. split; [|done].
  rewrite elem_of_app. intros [Hin|]; [|done]. rewrite Forall_forall in Hct. by apply Hct in Hin.
Qed.

Lemma free_slot_items d d' p i :
  dict_core d -> dict_core d' -> chunk_num_ d' = chunk_num_ d -> 0 <= p < chunk_num_ d ->
  items_of d' = items_of d -> Chunk.tags_ (at_ d' p) !! i = Chunk.tags_ (at_ d p) !! i.
Proof.
  intros Hd Hd' Hn Hp Hit. apply (f_equal (.!! Z.to_nat p)) in Hit. unfold items_of in Hit.
  rewrite !list_lookup_fmap in Hit.
  rewrite (at_lookup _ _ Hd Hp), (at_lookup _ _ Hd' ltac:(by rewrite Hn)) in Hit.
  cbn in Hit. injection Hit as Hit _ _. by rewrite Hit.
Qed.

Lemma insert_recoverable how d k v force :
  dict_wf d [] -> 0 <= k < kEmptyKey -> to_map d !! k = None -> to_map d !! kEmptyKey = None ->
  Full d = false ->
  exists l p, insert_stores how d k v None force = Ret (l, p) /\
    forall ex s, ex `prefix_of` l -> leaves how ex s ->
      recoverable d (run d s) (to_map d) /\ ~ (Flush p.1 p.2 ∈ ex) \/
      recoverable d (run d s) (<[k := v]> (to_map d)).
Proof.
  intros Hwf Hk Hno Hem HF.
  destruct (insert_shape how d k v force Hwf) as (lc & p & i & HI & _ & [Hv Hlk] & Hp & _ & Ht);
    [unfold kEmptyKey, u64_max in Hk; lia|done|done|].
  eexists _, (p, i). split; [exact HI|]. intros ex s Hex Hs. cbn [fst snd].
  eapply stage_recoverable; [done..| |eapply insert_stage; [exact Hv|exact Hex|exact Hs]].
  specialize (Hlk (length lc)). rewrite firstn_all in Hlk.
  rewrite <- (free_slot_items d (run d lc)); [done|apply Hwf|apply (lk_wf _ _ Hlk)|apply (lk_num _ _ Hlk)|done|].
  rewrite <- (app_nil_r lc). by rewrite (items_volatile d lc []) by (by apply counter_volatile).
Qed.

End Atomic.

(** ** What lookups read *)

(** Equality on the elements is enough for [list_find]. *)
Lemma list_find_ext_in {A} (P Q : A -> Prop) `{!forall x, Decision (P x)} `{!forall x, Decision (Q x)} l :
  (forall x, x ∈ l -> P x <-> Q x) -> list_find P l = list_find Q l.
Proof.
  induction l as [|x l IH]; intros Hpq; [done|]. cbn [list_find].
  rewrite IH by (intros; apply Hpq; set_solver).
  destruct (decide (P x)), (decide (Q x)); try done; exfalso; specialize (Hpq x ltac:(set_solver)); tauto.
Qed.

Section Lookups.
Import PetHash Stores.
Context {V : Type} `{!Inhabited V}.
Implicit Types (d : dict V) (c : Chunk.chunk V) (l : list (store V)).

#[local] Coercion dw_core : dict_wf >-> dict_core.
#[local] Hint Resolve dw_core : core.

(** The chunks differ at most in their sizes and in the items of free slots. *)
Record chunk_eq c c' : Prop := {
  ce_tags : Chunk.tags_ c' = Chunk.tags_ c;
  ce_len : length (Chunk.tags_ c) = 14%nat;
  ce_ov : Chunk.overflow_count_ c' = Chunk.overflow_count_ c;
  ce_mig : Chunk.is_migrating c' = Chunk.is_migrating c;
  ce_get : forall i tag, Chunk.tags_ c !! i = Some tag -> tag <> 0 -> Chunk.Get c' i = Chunk.Get c i
}.

Record probe_eq d d' : Prop := {
  pe_num : chunk_num_ d' = chunk_num_ d;
  pe_cap : capacity_ d' = capacity_ d;
  pe_at : forall pos, 0 <= pos < chunk_num_ d -> chunk_eq (at_ d pos) (at_ d' pos)
}.

Lemma chunk_eq_trans c1 c2 c3 : chunk_eq c1 c2 -> chunk_eq c2 c3 -> chunk_eq c1 c3.
Proof.
  intros [T1 L1 O1 M1 G1] [T2 L2 O2 M2 G2]. split; try congruence.
  intros i tag Ht Hn. rewrite (G2 i tag), (G1 i tag); congruence.
Qed.

Lemma probe_eq_trans d1 d2 d3 : probe_eq d1 d2 -> probe_eq d2 d3 -> probe_eq d1 d3.
Proof.
  intros [N1 C1 A1] [N2 C2 A2]. split; try congruence. intros pos Hp.
  eapply chunk_eq_trans; [by apply A1|apply A2; by rewrite N1].
Qed.

Lemma chunk_eq_refl c : length (Chunk.tags_ c) = 14%nat -> chunk_eq c c.
Proof. by split. Qed.

Lemma find_slot_eq c c' key tag : chunk_eq c c' -> tag <> 0 -> Chunk.find_slot c' key tag = Chunk.find_slot c key tag.
Proof.
  intros [Ht Hl _ _ Hg] Hn. unfold Chunk.find_slot. rewrite (MatchTag_tags c c') by done.
  pose proof (MatchTag_range c tag).
  rewrite !find_loop_spec by (lia || apply set_bits_length). f_equal. apply list_find_ext_in.
  intros i [_ Hi]%elem_of_set_bits. apply MatchTag_testbit in Hi; [|done]. by rewrite (Hg i tag).
Qed.

Lemma get_loop_eq n d d' key sign step pos touch :
  probe_eq d d' -> pow2_num (chunk_num_ d) -> 0 <= pos < chunk_num_ d -> sign <> 0 ->
  get_loop n d' key sign step pos touch = get_loop n d key sign step pos touch /\
  forall pos' id, get_loop n d key sign step pos touch = Found pos' id ->
    0 <= pos' < chunk_num_ d /\ Chunk.tags_ (at_ d pos') !! id = Some sign.
Proof.
  intros Hpe HN. revert pos touch. induction n as [|n IH]; intros pos touch Hpos Hs; [done|].
  cbn [get_loop]. pose proof (pe_at _ _ Hpe pos Hpos) as Hc.
  rewrite (find_slot_eq _ _ key sign Hc Hs), (ce_ov _ _ Hc), (ce_mig _ _ Hc).
  destruct (Chunk.find_slot _ _ _) as [id|] eqn:E.
  { split; [done|]. intros ? ? [= <- <-]. split; [done|]. apply find_slot_Some in E; [apply E|apply Hc]. }
  destruct (_ =? 0); [done|]. unfold next_pos at 1. rewrite (pe_num _ _ Hpe).
  apply IH; [|done]. by apply (nextN_range _ HN).
Qed.

Lemma Get_eq d d' key :
  probe_eq d d' -> pow2_num (chunk_num_ d) -> PetHash.Get d' key = PetHash.Get d key.
Proof.
  intros Hpe HN. unfold PetHash.Get, GetInternal.
  replace (home d' key) with (home d key) by (unfold home; by rewrite (pe_num _ _ Hpe)). rewrite (pe_num _ _ Hpe).
  pose proof (Sign_range (Hash key)).
  destruct (get_loop_eq (Z.to_nat (chunk_num_ d)) d d' key (Sign (Hash key)) (ProbeDelta (Sign (Hash key)))
    (home d key) false Hpe HN) as [-> Hf]; [by apply home_range|lia|].
  destruct (get_loop _ _ _ _ _ _ _) as [pos id|[]] eqn:E; [|done..].
  cbn [mbind outcome_bind]. destruct (Hf _ _ eq_refl) as [Hp Ht].
  rewrite (ce_get _ _ (pe_at _ _ Hpe pos Hp) id (Sign (Hash key))); [done|exact Ht|lia].
Qed.

Lemma valid_loop_eq n i d d' t :
  probe_eq d d' -> pow2_num (chunk_num_ d) -> capacity_ d = chunk_num_ d * 14 ->
  0 <= i -> i + Z.of_nat n <= capacity_ d -> valid_loop n i d' t = valid_loop n i d t.
Proof.
  intros Hpe HN Hcap. revert i t. induction n as [|n IH]; intros i t Hi Hn; [done|]. cbn [valid_loop].
  unfold IndexInUse, GetById. rewrite (pe_cap _ _ Hpe), (proj2 (Z.leb_gt _ _)) by lia.
  assert (Hp : 0 <= i / kChunkSize < chunk_num_ d).
  { unfold kChunkSize, kMaxSize. split; [apply Z.div_pos; lia|apply Z.div_lt_upper_bound; lia]. }
  pose proof (pe_at _ _ Hpe _ Hp) as Hc. unfold Chunk.InUse at 1. rewrite (ce_tags _ _ Hc).
  fold (Chunk.InUse (at_ d (i / kChunkSize)) (Z.to_nat (i mod kChunkSize))).
  destruct (Chunk.InUse _ _) eqn:Hu; [|apply IH; lia].
  apply InUse_lookup in Hu as (tag & Ht & Htn);
    [|rewrite (ce_len _ _ Hc); pose proof (Z.mod_pos_bound i 14); unfold kChunkSize, kMaxSize; lia].
  rewrite (ce_get _ _ Hc _ tag) by done. rewrite (Get_eq d d') by done.
  destruct (PetHash.Get _ _) as [[?|]|]; cbn [mbind outcome_bind]; [apply IH; lia|done..].
Qed.

(** [Valid] compares three counts. *)
Lemma Valid_counts d ms total :
  pow2_num (chunk_num_ d) -> capacity_ d = chunk_num_ d * 14 -> 0 <= size_ d <= capacity_ d ->
  MemorySize (capacity_ d) true = Ret ms -> valid_loop (Z.to_nat (capacity_ d)) 0 d 0 = Ret (Some total) ->
  Valid d ms = Ret ((total =? chunk_table_total_num d) && (total =? size_ d)).
Proof.
  intros HN Hcap Hs HM HV. pose proof (pow2_num_range _ HN). unfold Valid, kChunkSize, kMaxSize.
  rewrite (proj2 (Z.eqb_neq (capacity_ d) 0)) by lia. cbn [andb].
  rewrite (proj2 (Z.ltb_ge (capacity_ d) (size_ d))) by lia.
  rewrite u64_small, (proj2 (Z.eqb_eq (chunk_num_ d * 14) (capacity_ d))) by lia. cbn [negb].
  rewrite HM. cbn [mbind outcome_bind]. rewrite Z.eqb_refl. cbn [negb]. by rewrite HV.
Qed.

Lemma wf_valid_loop d : dict_wf d [] -> valid_loop (Z.to_nat (capacity_ d)) 0 d 0 = Ret (Some (size_ d)).
Proof.
  intros Hwf. pose proof (flat_tags_length d Hwf) as Hl. pose proof (pow2_num_range _ (dw_num _ Hwf)).
  pose proof (dw_cap _ Hwf). replace (Z.to_nat (capacity_ d)) with (length (flat_tags d)) by lia.
  rewrite (valid_loop_count (flat_tags d)) by (done || lia). by rewrite Z.add_0_l, nonzeros_flat by eauto.
Qed.

(** ** The sizes of the chunks *)

Definition sizes_of d := Chunk.size_ <$> chunk_table_ d.

Lemma total_sizes d d' : sizes_of d = sizes_of d' -> chunk_table_total_num d = chunk_table_total_num d'.
Proof.
  unfold sizes_of, chunk_table_total_num. generalize 0. revert d'.
  assert (Hg : forall (t t' : list (Chunk.chunk V)) z, Chunk.size_ <$> t = Chunk.size_ <$> t' ->
    foldl (fun acc c => u64 (acc + Chunk.size_ c)) z t = foldl (fun acc c => u64 (acc + Chunk.size_ c)) z t').
  { induction t as [|c t IH]; intros [|c' t'] z H; try done. injection H as H1 H2. cbn [foldl].
    rewrite H1. by apply IH. }
  intros d' z H. by apply Hg.
Qed.

Definition keeps_sizes (st : store V) : Prop := match st with StChunkSize _ _ => False | _ => True end.

Lemma sizes_run d l : Forall keeps_sizes l -> sizes_of (run d l) = sizes_of d.
Proof.
  intros H. revert d. induction H as [|st l Hst _ IH]; intros d; [done|].
  change (run d (st :: l)) with (run (apply_store d st) l). rewrite IH.
  assert (Hu : forall pos f, (forall c, Chunk.size_ (f c) = Chunk.size_ c) -> sizes_of (upd d pos f) = sizes_of d).
  { intros pos f Hf. unfold sizes_of, upd. cbn [chunk_table_].
    apply list_eq. intros j. rewrite !list_lookup_fmap.
    destruct (decide (j = Z.to_nat pos)) as [->|Hne];
      [rewrite list_lookup_alter_eq|by rewrite list_lookup_alter_ne by done].
    destruct (chunk_table_ d !! Z.to_nat pos); cbn; [|done]. by rewrite Hf. }
  destruct st; cbn [apply_store]; try done; by apply Hu.
Qed.
End Lookups.

(** ** The self check during an insertion *)

Section Checks.
Import PetHash Stores.
Context {V : Type} `{!Inhabited V}.
Implicit Types (d : dict V) (c : Chunk.chunk V) (l : list (store V)).

#[local] Coercion dw_core : dict_wf >-> dict_core.
#[local] Hint Resolve dw_core : core.

Notation sgn k := (Sign (Hash k)).

(** A store to slot [i] of chunk [p] that is not the tag, or to the chunk's size. *)
Definition slot_store p i (st : store V) : Prop :=
  match st with
  | StChunkSize p' _ => p' = p
  | StItem p' i' _ | StFirst p' i' _ | StSecond p' i' _ => p' = p /\ i' = i
  | Flush _ _ => True
  | _ => False
  end.

Lemma chunk_eq_values c n (l : list (Z * V)) i :
  length (Chunk.tags_ c) = 14%nat -> Chunk.tags_ c !! i = Some 0 ->
  (forall j, j <> i -> l !! j = Chunk.value_ c !! j) ->
  chunk_eq c (with_values (Chunk.with_size c n) l).
Proof.
  intros Hl Ht Hv. split; try done. intros j tag Hj Hn. unfold Chunk.Get. cbn.
  rewrite !list_lookup_total_alt, Hv by congruence. done.
Qed.

Lemma probe_eq_store d p i st :
  length (chunk_table_ d) = Z.to_nat (chunk_num_ d) ->
  (forall q, 0 <= q < chunk_num_ d -> length (Chunk.tags_ (at_ d q)) = 14%nat) ->
  0 <= p < chunk_num_ d -> Chunk.tags_ (at_ d p) !! i = Some 0 -> slot_store p i st ->
  probe_eq d (apply_store d st).
Proof.
  intros Hlen H14 Hp Ht Hst.
  assert (Hu : forall f n (l : list (Z * V)), f (at_ d p) = with_values (Chunk.with_size (at_ d p) n) l ->
    (forall j, j <> i -> l !! j = Chunk.value_ (at_ d p) !! j) -> probe_eq d (upd d p f)).
  { intros f n l Hf Hl. split; [done|done|]. intros q Hq. rewrite at_upd by (done || lia).
    destruct (decide (q = p)) as [->|]; [|by apply chunk_eq_refl, H14].
    rewrite Hf. apply (chunk_eq_values _ _ _ i); [by apply H14|done|done]. }
  destruct st; cbn [slot_store] in Hst; try done; cbn [apply_store].
  - subst. by apply (Hu _ n (Chunk.value_ (at_ d p))).
  - destruct Hst as [-> ->]. eapply (Hu _ (Chunk.size_ (at_ d p))); [reflexivity|].
    intros j Hj. by apply list_lookup_insert_ne.
  - destruct Hst as [-> ->]. eapply (Hu _ (Chunk.size_ (at_ d p))); [reflexivity|].
    intros j Hj. by apply list_lookup_alter_ne.
  - destruct Hst as [-> ->]. eapply (Hu _ (Chunk.size_ (at_ d p))); [reflexivity|].
    intros j Hj. by apply list_lookup_alter_ne.
  - split; [done|done|]. intros q Hq. by apply chunk_eq_refl, H14.
Qed.

Lemma probe_eq_stores d p i l :
  dict_core d -> 0 <= p < chunk_num_ d -> Chunk.tags_ (at_ d p) !! i = Some 0 ->
  Forall (slot_store p i) l -> probe_eq d (run d l).
Proof.
  intros Hd Hp Ht Hl.
  assert (Hlen := dw_len _ Hd).
  assert (H14 : forall q, 0 <= q < chunk_num_ d -> length (Chunk.tags_ (at_ d q)) = 14%nat).
  { intros q Hq. apply (at_wf _ _ Hd Hq). }
  clear Hd. revert d Hp Ht Hlen H14.
  induction Hl as [|st l Hst _ IH]; intros d Hp Ht Hlen H14.
  - split; [done|done|]. intros q Hq. by apply chunk_eq_refl, H14.
  - pose proof (probe_eq_store d p i st Hlen H14 Hp Ht Hst) as Hpe.
    change (run d (st :: l)) with (run (apply_store d st) l). eapply probe_eq_trans; [exact Hpe|].
    pose proof (pe_num _ _ Hpe) as Hn. apply IH; rewrite ?Hn; try done.
    + by rewrite (ce_tags _ _ (pe_at _ _ Hpe p Hp)).
    + rewrite <- Hlen. destruct st; cbn; rewrite ?length_alter; done.
    + intros q Hq. rewrite (ce_tags _ _ (pe_at _ _ Hpe q Hq)). by apply H14.
Qed.

Lemma probe_eq_size d n : dict_core d -> probe_eq d (with_size d n).
Proof. intros Hd. split; [done|done|]. intros q Hq. apply chunk_eq_refl. apply (at_wf _ _ Hd Hq). Qed.

(** A table whose chunks count one entry more than the table is rejected. *)
Lemma Valid_rejects d (dn df : dict V) ms :
  dict_wf d [] -> probe_eq d dn -> dict_wf df [] -> sizes_of dn = sizes_of df ->
  0 <= size_ dn <= capacity_ d -> size_ df <> size_ d \/ size_ d <> size_ dn ->
  MemorySize (capacity_ d) true = Ret ms -> Valid dn ms = Ret false.
Proof.
  intros Hwf Hpe Hdf Hsz Hs Hne HM. pose proof (dw_num _ Hwf) as HN. pose proof (dw_cap _ Hwf) as Hcap.
  assert (HV : valid_loop (Z.to_nat (capacity_ dn)) 0 dn 0 = Ret (Some (size_ d))).
  { rewrite (pe_cap _ _ Hpe). pose proof (pow2_num_range _ HN).
    rewrite (valid_loop_eq _ 0 d dn 0) by (done || lia). by apply wf_valid_loop. }
  rewrite (Valid_counts dn ms (size_ d)); rewrite ?(pe_num _ _ Hpe); try done;
    try (rewrite (pe_cap _ _ Hpe); done || lia).
  rewrite (total_sizes dn df Hsz), total_num_size by eauto.
  f_equal. apply andb_false_iff. rewrite !Z.eqb_neq. naive_solver.
Qed.

Lemma run_frame d l : frame d (run d l).
Proof.
  revert d. induction l as [|st l IH]; intros d; [done|].
  change (run d (st :: l)) with (run (apply_store d st) l). etrans; [|apply IH]. by destruct st.
Qed.

Definition keeps_size (st : store V) : Prop := match st with StSize _ => False | _ => True end.

Lemma size_run d l : Forall keeps_size l -> size_ (run d l) = size_ d.
Proof.
  intros H. revert d. induction H as [|st l Hst _ IH]; intros d; [done|].
  change (run d (st :: l)) with (run (apply_store d st) l). rewrite IH. by destruct st.
Qed.

(** Some stores of the insertion: none is the tag, or all but [size_++]. *)
Lemma tail_split how p n i k (v : V) z q :
  let t := insert_tail how p n i k v z in
  (0 < q < length t)%nat ->
  Forall keeps_size (take q t) /\ Forall keeps_sizes (drop q t) /\
  (Forall (slot_store p i) (take q t) \/ t = take q t ++ [StSize z]).
Proof.
  cbn zeta. intros Hq. destruct q as [|q]; [lia|]. unfold insert_tail, set_stores in *.
  destruct how; cbn [item_stores fst snd app length] in *;
    do 5 (try (destruct q as [|q];
      [cbn; split_and!; (repeat constructor) || ((left; repeat constructor) || (right; reflexivity))|])); lia.
Qed.

Lemma Valid_in_tail how lc p i k (v : V) d ms q :
  let d1 := run d lc in
  let t := insert_tail how p (u8 (Chunk.size_ (at_ d1 p) + 1)) i k v (u64 (size_ d + 1)) in
  dict_wf d1 [] -> size_ d1 = size_ d -> dict_wf (run d1 t) [] -> size_ (run d1 t) = size_ d + 1 ->
  0 <= p < chunk_num_ d1 -> Chunk.tags_ (at_ d1 p) !! i = Some 0 ->
  MemorySize (capacity_ d1) true = Ret ms -> capacity_ (run d1 t) = capacity_ d1 ->
  (0 < q < length t)%nat -> Valid (run d1 (take q t)) ms = Ret false.
Proof.
  intros d1 t Hwf1 Hs1 Hwft Hst Hp Ht HM Hcap Hq. pose proof (size_bound _ Hwf1) as Hb1.
  pose proof (dw_cap _ Hwf1) as Hc1.
  destruct (tail_split how p (u8 (Chunk.size_ (at_ d1 p) + 1)) i k v (u64 (size_ d + 1)) q Hq)
    as (Hk & Hd & Hl). fold t in Hk, Hd, Hl. apply (size_run d1) in Hk.
  assert (Hsz : sizes_of (run d1 (take q t)) = sizes_of (run d1 t)).
  { rewrite <- (take_drop q t) at 2. by rewrite run_app, (sizes_run _ (drop q t)). }
  destruct Hl as [Hl|E].
  - apply (Valid_rejects d1 _ (run d1 t)); [done| |done|done|rewrite Hk; lia|left; lia|done].
    by apply (probe_eq_stores d1 p i); [eauto|..].
  - assert (Hr : run d1 t = with_size (run d1 (take q t)) (u64 (size_ d + 1))) by (rewrite E at 1; by rewrite run_app).
    apply (Valid_rejects (run d1 t) _ (run d1 t)); [done| |done|done|rewrite Hk, Hcap; lia|right; lia|by rewrite Hcap].
    assert (E2 : with_size (run d1 t) (size_ (run d1 (take q t))) = run d1 (take q t))
      by (rewrite Hr; by destruct (run d1 (take q t))).
    pose proof (probe_eq_size (run d1 t) (size_ (run d1 (take q t))) Hwft) as HP. by rewrite E2 in HP.
Qed.

(** The images of an insertion as a killed process leaves them: well formed
    before the chunk's [size_++] at [before], rejected from there to the last
    store. *)
Lemma insert_checks how d k v force memory_size :
  dict_wf d [] -> 0 <= k < 2 ^ 64 -> to_map d !! k = None -> Full d = false ->
  MemorySize (capacity_ d) true = Ret memory_size ->
  exists l p before n, insert_stores how d k v None force = Ret (l, p) /\
    l !! before = Some (StChunkSize p.1 n) /\ dict_wf (run d l) [] /\
    forall q, ((q <= before)%nat -> like d (run d (take q l))) /\
      ((before < q < length l)%nat -> Valid (run d (take q l)) memory_size = Ret false).
Proof.
  intros Hwf Hk Hno HF HM.
  destruct (insert_shape how d k v force Hwf Hk Hno HF) as (lc & p & i & HI & Hins & [_ Hlk] & Hp & Hsz & Ht).
  fold (insert_tail how p (u8 (Chunk.size_ (at_ (run d lc) p) + 1)) i k v (u64 (size_ d + 1))) in HI, Hins.
  set (t := insert_tail _ _ _ _ _ _ _) in *.
  assert (Hlc : like d (run d lc)) by (rewrite <- (firstn_all lc); apply Hlk).
  destruct Hins as (Hwf2 & Hm2 & _).
  exists (lc ++ t), (p, i), (length lc), (u8 (Chunk.size_ (at_ (run d lc) p) + 1)).
  split; [done|]. split; [by rewrite lookup_app_r, Nat.sub_diag by lia|]. split; [done|].
  rewrite run_app in Hwf2, Hm2.
  assert (Hs2 : size_ (run (run d lc) t) = size_ d + 1).
  { rewrite (size_map _ (dw_core _ _ Hwf2)), Hm2, map_size_insert_None, (size_map d (dw_core _ _ Hwf)) by done. lia. }
  intros q. rewrite take_app, run_app, length_app. split; intros Hq.
  - replace (q - length lc)%nat with 0%nat by lia. change (run ?x (take 0 t)) with x. apply Hlk.
  - rewrite (take_ge lc) by lia. destruct Hlc.
    apply (Valid_in_tail how lc p i k v d); try done; [congruence|by rewrite lk_cap0| |].
    + apply run_frame.
    + fold t. lia.
Qed.

(** The self check while an insertion is under way, for a process that
    is killed: Valid accepts the images before the chunk's [size_++] and after
    the index's [size_++], and rejects every image in between, although
    recovery would repair it. *)
Theorem Valid_during_insert how d k v force memory_size :
  dict_wf d [] -> 0 <= k < 2 ^ 64 -> to_map d !! k = None -> Full d = false ->
  MemorySize (capacity_ d) true = Ret memory_size ->
  exists l p before n, insert_stores how d k v None force = Ret (l, p) /\
    l !! before = Some (StChunkSize p.1 n) /\
    forall executed, Valid (run d (take executed l)) memory_size =
      Ret (bool_decide (executed <= before \/ length l <= executed)%nat).
Proof.
  intros Hwf Hk Hno HF HM.
  destruct (insert_checks how d k v force memory_size Hwf Hk Hno HF HM) as (l & p & b & n & HI & Hb & Hwf2 & Hq).
  exists l, p, b, n. split; [done|]. split; [done|]. intros q. destruct (Hq q) as [Hq1 Hq2]. clear Hq.
  assert (Hv : forall d', dict_wf d' [] -> frame d d' -> Valid d' memory_size = Ret true).
  { intros d' Hd' [_ Hc]. rewrite (Valid_size _ memory_size memory_size Hd') by (by rewrite Hc).
    by rewrite Z.eqb_refl. }
  destruct (decide (q <= b)%nat) as [H1|H1].
  - rewrite bool_decide_true by auto. apply Hv; [apply (lk_wf _ _ (Hq1 H1))|apply run_frame].
  - destruct (decide (length l <= q)%nat) as [H2|H2].
    + rewrite bool_decide_true by auto. rewrite take_ge by done. apply Hv; [done|apply run_frame].
    + rewrite bool_decide_false by (intros [?|?]; lia). apply Hq2. lia.
Qed.
End Checks.

(** ** Failures during a deletion *)

Section Deletes.
Import PetHash Stores.
Context {V : Type} `{!Inhabited V}.
Implicit Types (d : dict V) (l s ex : list (store V)) (m : gmap Z V).

#[local] Coercion dw_core : dict_wf >-> dict_core.
#[local] Hint Resolve dw_core : core.

Lemma walk_counters delta fuel d pos chunk_id step l :
  walk_stores delta fuel d pos chunk_id step = Ret l -> Forall is_counter l.
Proof.
  revert d pos l. induction fuel as [|fuel IH]; intros d pos l; cbn [walk_stores];
    destruct (pos =? chunk_id); intros H; inv_ret; try done; try constructor.
  apply Forall_app. split; [|by eapply IH]. unfold counter_stores. destruct (_ =? 255); by repeat constructor.
Qed.

(** The tag of an entry is cleared before its key. *)
Lemma recoverable_untagged d pos i :
  dict_wf d [] -> to_map d !! kEmptyKey = None -> recoverable d (run d [StTag pos i 0]) (to_map d).
Proof.
  intros Hwf Hno. destruct (recoverable_wf d Hwf Hno) as [Hl Hi Hn Hm].
  assert (Him : image (run d [StTag pos i 0]) = image d).
  { unfold image. cbn. f_equal. apply list_eq. intros j. rewrite !list_lookup_fmap.
    destruct (decide (j = Z.to_nat pos)) as [->|Hne];
      [rewrite list_lookup_alter_eq|by rewrite list_lookup_alter_ne by done].
    by destruct (chunk_table_ d !! Z.to_nat pos). }
  split; rewrite ?Him; try done; cbn; [by rewrite length_alter|].
  apply Forall_alter; [done|]. intros c Hc [I1 I2 I3 I4 I5].
  split; unfold with_tag; cbn [Chunk.tags_ Chunk.value_ Chunk.is_migrating]; rewrite ?length_insert; try done.
  intros j kv Hj Hk. destruct (decide (j = i)) as [->|Hne].
  - apply list_lookup_insert_eq. rewrite I1, <- I2. by eapply lookup_lt_Some.
  - rewrite list_lookup_insert_ne by done. by eapply I5.
Qed.

Lemma delete_shape d k :
  dict_wf d [] -> is_Some (to_map d !! k) ->
  exists lc p i n z, let l := lc ++ [StTag p i 0; StFirst p i kEmptyKey; Flush p i; StChunkSize p n; StSize z] in
    delete_stores d k = Ret l /\ Forall is_counter lc /\ dict_wf (run d l) [] /\ to_map (run d l) = delete k (to_map d).
Proof.
  intros Hwf [v Hk]. destruct (Delete_total d [] k Hwf) as (d' & HD & Hwf' & Hm' & _).
  rewrite delete_run in HD. unfold delete_stores in *.
  destruct (GetInternal_total d [] k Hwf) as [[_ ?]|(c & id & w & HG & _)]; [congruence|].
  rewrite HG in HD |- *. cbn [mbind outcome_bind] in HD |- *.
  destruct (walk_stores _ _ _ _ _ _) as [lc|] eqn:E; [|done]. cbn [mbind outcome_bind] in HD |- *.
  injection HD as HD. exists lc. do 4 eexists. split; [reflexivity|]. split; [by eapply walk_counters|].
  unfold chunk_delete_stores in HD. cbn [app] in HD. by rewrite HD.
Qed.

(** [C29] A deletion survives the death of the process: killed after any of
    its stores, the table that recovery builds holds the old map or the map
    without the key, and the latter once the empty key has been flushed.  (After
    a power failure this does not hold: [Reload_keeps_stale_tag].) *)
Theorem Delete_kill_atomic {M} (set_valid : M -> Z -> V -> M) d k capacity threads (a : M) :
  dict_wf d [] -> is_Some (to_map d !! k) -> to_map d !! kEmptyKey = None ->
  OverFallChunkNum capacity = Ret (chunk_num_ d) -> 0 < threads ->
  exists l p i, delete_stores d k = Ret l /\ Delete d k = Ret (run d l) /\
    forall ex, ex `prefix_of` l ->
    exists d' a', Reload (run d ex) capacity true set_valid threads a = Ret (d', a') /\ dict_wf d' [] /\
      (to_map d' = to_map d /\ (Flush p i ∉ ex) \/ to_map d' = delete k (to_map d)).
Proof.
  intros Hwf Hk Hem HO Hth. destruct (delete_shape d k Hwf Hk) as (lc & p & i & n & z & HD & Hc & Hwf' & Hm').
  eexists _, p, i. split; [exact HD|]. split; [by rewrite delete_run, HD|].
  set (t := [StTag p i 0; StFirst p i kEmptyKey; Flush p i; StChunkSize p n; StSize z]) in *.
  assert (Hf : recoverable d (run d (lc ++ t)) (delete k (to_map d))).
  { rewrite <- Hm'. destruct (recoverable_wf _ Hwf') as [Hl Hi Hn Hmp]; [by rewrite Hm', lookup_delete_None; auto|].
    split; [|done..]. rewrite (dw_len _ Hwf'), (dw_len _ Hwf). by rewrite (proj1 (run_frame d (lc ++ t))). }
  intros ex [rest Hex]. apply (f_equal (take (length ex))) in Hex. rewrite take_app_length, take_app in Hex.
  set (q := (length ex - length lc)%nat) in *.
  assert (Hct : Forall is_counter (take (length ex) lc)) by (by apply Forall_take).
  set (lc' := take (length ex) lc) in *. clearbody lc' q. subst ex.
  assert (Hr : recoverable d (run d (lc' ++ take q t)) (to_map d) /\ Flush p i ∉ lc' ++ take q t \/
    recoverable d (run d (lc' ++ take q t)) (delete k (to_map d))).
  { assert (Hfl : Flush p i ∉ lc') by (intros Hin; rewrite Forall_forall in Hct; by apply Hct in Hin).
    pose proof (items_volatile d lc' (take q t) (counter_volatile _ Hct)) as Hit.
    pose proof (items_volatile d lc t (counter_volatile _ Hc)) as Hit2.
    unfold t in *. destruct q as [|[|q]]; cbn [take] in *; [left|left|right].
    - split; [|set_solver]. eapply recoverable_items; [symmetry; exact Hit|]. by apply recoverable_wf.
    - split; [|set_solver]. eapply recoverable_items; [symmetry; exact Hit|]. by apply recoverable_untagged.
    - eapply recoverable_items; [|exact Hf]. rewrite Hit, Hit2, !items_run.
      destruct q as [|[|[|q]]]; cbn [take]; rewrite ?take_nil; reflexivity. }
  destruct Hr as [[Hr Hn]|Hr];
    destruct (recoverable_Reload set_valid d _ _ a capacity threads Hwf Hr HO Hth) as (d' & a' & ? & ? & ?);
    exists d', a'; auto.
Qed.
End Deletes.

(** ** Concrete failures *)

Section Failures.
Import PetHash Stores.


Lemma Valid_during_insert_witness :
  exists l p before n, insert_stores ValueFirst overflown_table 68 7 None false = Ret (l, p) /\
    l !! before = Some (StChunkSize p.1 n) /\
    forall executed, Valid (run overflown_table (take executed l)) 1344 =
      Ret (bool_decide (executed <= before \/ length l <= executed)%nat).
Proof.
  apply (Valid_during_insert ValueFirst overflown_table 68 7 false 1344); [by_wfb|lia|by_eval|by_eval|by_eval].
Defined.

Lemma Delete_kill_atomic_witness :
  exists l p i, delete_stores overflown_table 64 = Ret l /\ Delete overflown_table 64 = Ret (run overflown_table l) /\
    forall ex, ex `prefix_of` l ->
    exists d' a', Reload (run overflown_table ex) 56 true collect 4 [] = Ret (d', a') /\ dict_wf d' [] /\
      (to_map d' = to_map overflown_table /\ (Flush p i ∉ ex) \/
       to_map d' = delete 64 (to_map overflown_table)).
Proof.
  apply (Delete_kill_atomic collect overflown_table 64 56 4 []);
    [by_wfb|eexists; by_eval|by_eval|by_eval|lia].
Defined.

(** With the key stored first, a process that dies between the two stores of
    the item leaves the new key with the value of the entry that was in the
    slot before: key 64 is deleted, key 68 takes its slot, and recovery finds
    the value of 64 under 68. *)
Theorem key_first_tears_item :
  let run :=
    ld ← delete_stores overflown_table 64;
    let d := run overflown_table ld in
    '(l, p) ← insert_stores KeyFirst d 68 7 None false;
    '(d', _) ← Reload (run d (take 3 l)) 56 true collect 4 [];
    before ← PetHash.Get d 68;
    after ← PetHash.Get d' 68;
    Ret (l !! 2%nat, p, before, after) in
  run = Ret (Some (StFirst 3 0 68), (3, 0%nat), None, Some 640).
Proof. vm_compute. reflexivity. Qed.
End Failures.
