(* ===== verification/PetHashMigration.v ===== *)
(** * PetHash: hotness-aware migration

    [migrate_key] moves a hot key to its home chunk.  When the home chunk has
    a free slot, the source decrements the overflow counter of the chunk the
    key leaves, where [Delete] decrements those of the chunks on the way to
    it; the table below shows the effect. *)

From stdpp Require Import base numbers list gmap.
From Stdlib Require Import ZArith Lia.
From S2P Require Import Prelude F14Chunk PetHashDict PetHashInv PetHashOps PetHashInsert PetHashSpec.

Section Tables.
Import PetHash.

(** Key 60 has overflowed from chunk 0 to chunk 1, key 57 from chunk 1 to
    chunk 2; then key 4 of chunk 0 was deleted. *)
Definition chained_table : dict Z :=
  match Delete (filled 56 (((fun i => 4 * i) <$> seqZ 1 14) ++ [60] ++
                           ((fun i => 4 * i + 1) <$> seqZ 1 14))) 4 with
  | Ret d => d
  | Err _ => inhabitant
  end.

(** Migration of a hot key into a home chunk with a free slot can lose
    another key: the table is well formed and has key 57, the migration of key
    60 succeeds, and key 57 is then no longer found although its item is still
    in the table. *)
Theorem migrate_key_loses_other :
  dict_wfb chained_table = true /\ Get chained_table 57 = Ret (Some 570) /\
  exists d', HotnessAwareMigration chained_table [60] = Ret d' /\
    Get d' 60 = Ret (Some 600) /\ Get d' 57 = Ret None /\
    to_map d' !! 57 = Some 570 /\ size_ d' = size_ chained_table.
Proof.
  split; [by_eval|]. split; [by_eval|]. eexists. split; [vm_compute; reflexivity|].
  vm_compute. auto.
Qed.
End Tables.
