(* ===== verification/BitMap.v ===== *)
(** * BitMap (src/base/bitmap.h)

    A bit map of [n] bits in 64-bit words; the allocator keeps one per chunk.
    [Get], [Set] and [Clear] as operations on single bits, [FirstZeroPos] and
    [SetZeroPos] as the search for the first zero, [NumberOfOnes] as the
    cardinality of [ones]. *)

From stdpp Require Import base numbers list gmap.
From Stdlib Require Import ZArith Lia.
From S2P Require Import Prelude.

Module BitMap.

Record bitmap := Build_bitmap { n : Z; bits : list Z }.

(** [sizeof(BitMap)]: an [int] and the padding before the 8-byte words. *)
Definition sizeof_BitMap : Z := 8.

Definition MemorySize (n : Z) : outcome Z :=
  _ ← CHECK (Z.rem n 64 =? 0);
  Ret (u64 (sizeof_BitMap + u64 (Z.quot n 64) * 8)).

(** [BitMap(int n)] *)
Definition make (n : Z) : outcome bitmap :=
  _ ← CHECK (Z.rem n 64 =? 0);
  Ret {| n := n; bits := replicate (Z.to_nat (Z.quot n 64)) 0 |}.

Definition word (b : bitmap) (pos : Z) : Z := bits b !!! Z.to_nat (Z.quot pos 64).

Definition upd_word (b : bitmap) (pos : Z) (f : Z -> Z) : bitmap :=
  {| n := n b; bits := alter f (Z.to_nat (Z.quot pos 64)) (bits b) |}.

Definition Get (b : bitmap) (pos : Z) : bool :=
  negb (Z.land (Z.shiftr (word b pos) (Z.rem pos 64)) 1 =? 0).

Definition Set_ (b : bitmap) (pos : Z) : bitmap :=
  upd_word b pos (fun v => Z.lor v (u64 (Z.shiftl 1 (Z.rem pos 64)))).

Fixpoint ones_loop (b : bitmap) (k : nat) (i ret : Z) : Z :=
  match k with
  | O => ret
  | S k' => ones_loop b k' (i + 1) (if Get b i then ret + 1 else ret)
  end.

Definition NumberOfOnes (b : bitmap) : Z := ones_loop b (Z.to_nat (n b)) 0 0.

(** [memset(bits, 0, n / 8)]: [n / 64] words. *)
Definition Clear_all (b : bitmap) : bitmap :=
  {| n := n b;
     bits := replicate (Z.to_nat (Z.quot (n b) 64)) 0 ++ drop (Z.to_nat (Z.quot (n b) 64)) (bits b) |}.

Definition Clear (b : bitmap) (pos : Z) : bitmap :=
  upd_word b pos (fun v => Z.land v (u64 (Z.lnot (Z.shiftl 1 (Z.rem pos 64))))).

(** The loop over the words: the first with a zero bit, and that bit. *)
Fixpoint zero_loop (l : list Z) (i : Z) : option (Z * nat) :=
  match l with
  | [] => None
  | v :: l' =>
      let b := u64 (Z.lnot v) in
      if negb (b =? 0) then Some (i, ctz b) else zero_loop l' (i + 1)
  end.

Definition zero_pos (b : bitmap) : option (Z * nat) :=
  zero_loop (take (Z.to_nat (Z.quot (n b) 64)) (bits b)) 0.

Definition FirstZeroPos (b : bitmap) : Z :=
  match zero_pos b with
  | Some (i, pos) => i * 64 + Z.of_nat pos
  | None => -1
  end.

Definition SetZeroPos (b : bitmap) : bitmap * Z :=
  match zero_pos b with
  | Some (i, pos) =>
      ({| n := n b;
          bits := alter (fun v => Z.lor v (u64 (Z.shiftl 1 (Z.of_nat pos)))) (Z.to_nat i) (bits b) |},
       i * 64 + Z.of_nat pos)
  | None => (b, -1)
  end.
End BitMap.

Section Facts.
Import BitMap.

Record bitmap_wf (b : bitmap) : Prop := {
  bw_n : 0 <= n b < 2 ^ 31;
  bw_div : n b mod 64 = 0;
  bw_len : length (bits b) = Z.to_nat (n b / 64);
  bw_word : Forall (fun w => 0 <= w < 2 ^ 64) (bits b)
}.

(** The positions of the one bits. *)
Definition ones (b : bitmap) : list Z := filter (fun i => Get b i = true) (seqZ 0 (n b)).

Lemma pos_split b p :
  bitmap_wf b -> 0 <= p < n b ->
  Z.quot p 64 = p / 64 /\ Z.rem p 64 = p mod 64 /\ 0 <= p mod 64 < 64 /\
  0 <= p / 64 < n b / 64 /\ p = 64 * (p / 64) + p mod 64.
Proof.
  intros Hb Hp. pose proof (bw_div _ Hb). pose proof (Z.div_mod (n b) 64 ltac:(lia)).
  pose proof (Z.div_mod p 64 ltac:(lia)). pose proof (Z.mod_pos_bound p 64 ltac:(lia)).
  rewrite Z.quot_div_nonneg, Z.rem_mod_nonneg by lia.
  split_and!; try lia.
Qed.

Lemma word_range b p : bitmap_wf b -> 0 <= p < n b -> 0 <= word b p < 2 ^ 64.
Proof.
  intros Hb Hp. destruct (pos_split b p Hb Hp) as (Hq & _ & _ & Hd & _).
  unfold word. rewrite Hq. pose proof (bw_word _ Hb) as HF.
  destruct (lookup_lt_is_Some_2 (bits b) (Z.to_nat (p / 64))) as [w Hw].
  { rewrite (bw_len _ Hb). lia. }
  rewrite (list_lookup_total_correct _ _ _ Hw). exact (Forall_lookup_1 _ _ _ _ HF Hw).
Qed.

Lemma land_1_testbit x i : 0 <= i -> negb (Z.land (Z.shiftr x i) 1 =? 0) = Z.testbit x i.
Proof.
  intros Hi. change 1 with (2 ^ 1 - 1). rewrite land_mask by lia.
  change (2 ^ 1) with 2. rewrite Zmod_odd, <- Z.bit0_odd, Z.shiftr_spec by lia.
  rewrite Z.add_0_l. by destruct (Z.testbit x i).
Qed.

Lemma Get_testbit b p : bitmap_wf b -> 0 <= p < n b -> Get b p = Z.testbit (word b p) (p mod 64).
Proof.
  intros Hb Hp. destruct (pos_split b p Hb Hp) as (_ & Hr & ? & _).
  unfold Get. rewrite Hr. apply land_1_testbit. lia.
Qed.

Lemma u64_bit (i : Z) : 0 <= i < 64 -> u64 (Z.shiftl 1 i) = 2 ^ i.
Proof.
  intros Hi. rewrite shiftl1_pow2 by lia. apply u64_small.
  split; [apply Z.pow_nonneg; lia|apply Z.pow_lt_mono_r; lia].
Qed.

Lemma u64_testbit x j : 0 <= j -> Z.testbit (u64 x) j = (j <? 64) && Z.testbit x j.
Proof.
  intros Hj. unfold u64. destruct (j <? 64) eqn:E; b2p.
  - by rewrite Z.mod_pow2_bits_low by lia.
  - by rewrite Z.mod_pow2_bits_high by lia.
Qed.

Lemma u64_of_testbits x : 0 <= x -> (forall j, 64 <= j -> Z.testbit x j = false) -> x < 2 ^ 64.
Proof.
  intros Hx Hb. destruct (Z.eq_dec x 0) as [->|]; [lia|].
  apply Z.log2_lt_pow2; [lia|]. destruct (Z.lt_ge_cases (Z.log2 x) 64) as [|Hge]; [done|].
  specialize (Hb (Z.log2 x) Hge). rewrite Z.bit_log2 in Hb by lia. done.
Qed.

(** Setting or clearing bit [i] of a word. *)
Definition set_bit (v i : Z) : Z := Z.lor v (u64 (Z.shiftl 1 i)).
Definition clear_bit (v i : Z) : Z := Z.land v (u64 (Z.lnot (Z.shiftl 1 i))).

Lemma set_bit_testbit v i j :
  0 <= i < 64 -> 0 <= j -> Z.testbit (set_bit v i) j = (j =? i) || Z.testbit v j.
Proof.
  intros Hi Hj. unfold set_bit. rewrite Z.lor_spec, u64_bit, Z.pow2_bits_eqb by lia.
  rewrite orb_comm. f_equal. apply Z.eqb_sym.
Qed.

Lemma clear_bit_testbit v i j :
  0 <= v < 2 ^ 64 -> 0 <= i < 64 -> 0 <= j ->
  Z.testbit (clear_bit v i) j = negb (j =? i) && Z.testbit v j.
Proof.
  intros Hv Hi Hj. unfold clear_bit. rewrite Z.land_spec, u64_testbit, Z.lnot_spec by lia.
  rewrite shiftl1_pow2, Z.pow2_bits_eqb by lia. rewrite (Z.eqb_sym i j).
  destruct (j <? 64) eqn:E; b2p; [cbn [andb]; apply andb_comm|].
  rewrite (testbit_above v 64) by lia. by destruct (j =? i).
Qed.

Lemma set_bit_range v i : 0 <= v < 2 ^ 64 -> 0 <= i < 64 -> 0 <= set_bit v i < 2 ^ 64.
Proof.
  intros Hv Hi. assert (0 <= set_bit v i).
  { unfold set_bit. apply Z.lor_nonneg. pose proof (u64_range (Z.shiftl 1 i)). lia. }
  split; [done|]. apply u64_of_testbits; [done|]. intros j Hj.
  rewrite set_bit_testbit by lia. rewrite (testbit_above v 64) by lia.
  rewrite orb_false_r. apply Z.eqb_neq. lia.
Qed.

Lemma clear_bit_range v i : 0 <= v < 2 ^ 64 -> 0 <= i < 64 -> 0 <= clear_bit v i < 2 ^ 64.
Proof.
  intros Hv Hi. assert (0 <= clear_bit v i) by (unfold clear_bit; apply Z.land_nonneg; lia).
  split; [done|]. apply u64_of_testbits; [done|]. intros j Hj.
  rewrite clear_bit_testbit by lia. rewrite (testbit_above v 64) by lia. apply andb_false_r.
Qed.

Lemma upd_word_wf b p f :
  bitmap_wf b -> 0 <= p < n b -> (forall v, 0 <= v < 2 ^ 64 -> 0 <= f v < 2 ^ 64) ->
  bitmap_wf (upd_word b p f).
Proof.
  intros Hb Hp Hf. split; cbn [upd_word n bits]; [apply Hb|apply Hb|..].
  - rewrite length_alter. apply Hb.
  - apply Forall_alter; [apply Hb|]. intros x _ Hx. by apply Hf.
Qed.

Lemma word_upd b p q f :
  bitmap_wf b -> 0 <= p < n b -> 0 <= q < n b ->
  word (upd_word b p f) q = if decide (q / 64 = p / 64) then f (word b q) else word b q.
Proof.
  intros Hb Hp Hq. destruct (pos_split b p Hb Hp) as (Ep & _ & _ & Hdp & _).
  destruct (pos_split b q Hb Hq) as (Eq & _ & _ & Hdq & _).
  unfold word, upd_word. cbn [bits]. rewrite Ep, Eq. case_decide as E.
  - rewrite E, list_lookup_total_alter_eq; [done|]. rewrite (bw_len _ Hb). lia.
  - rewrite list_lookup_total_alter_ne by lia. done.
Qed.

Lemma same_pos p q : p / 64 = q / 64 -> p mod 64 = q mod 64 -> p = q.
Proof. intros. rewrite (Z.div_mod p 64), (Z.div_mod q 64) by lia. lia. Qed.

Lemma Get_Set b p q :
  bitmap_wf b -> 0 <= p < n b -> 0 <= q < n b ->
  Get (Set_ b p) q = (q =? p) || Get b q.
Proof.
  intros Hb Hp Hq. destruct (pos_split b p Hb Hp) as (_ & Rp & Hmp & _).
  destruct (pos_split b q Hb Hq) as (_ & _ & Hmq & _).
  assert (Hwf : bitmap_wf (Set_ b p)).
  { unfold Set_. rewrite Rp. apply upd_word_wf; [done|done|]. intros v Hv. by apply set_bit_range. }
  rewrite Get_testbit, (Get_testbit b q) by done. unfold Set_. rewrite word_upd, Rp by done.
  case_decide as E.
  - fold (set_bit (word b q) (p mod 64)). rewrite set_bit_testbit by lia. f_equal.
    destruct (q =? p) eqn:E2; b2p; [subst; apply Z.eqb_refl|].
    apply Z.eqb_neq. intros Em. by apply E2, same_pos.
  - destruct (q =? p) eqn:E2; b2p; [by subst|]. done.
Qed.

Lemma Get_Clear b p q :
  bitmap_wf b -> 0 <= p < n b -> 0 <= q < n b ->
  Get (Clear b p) q = negb (q =? p) && Get b q.
Proof.
  intros Hb Hp Hq. destruct (pos_split b p Hb Hp) as (_ & Rp & Hmp & _).
  destruct (pos_split b q Hb Hq) as (_ & _ & Hmq & _).
  assert (Hwf : bitmap_wf (Clear b p)).
  { unfold Clear. rewrite Rp. apply upd_word_wf; [done|done|]. intros v Hv. by apply clear_bit_range. }
  rewrite Get_testbit, (Get_testbit b q) by done. unfold Clear. rewrite word_upd, Rp by done.
  case_decide as E.
  - fold (clear_bit (word b q) (p mod 64)).
    rewrite clear_bit_testbit by (lia || by apply word_range). f_equal. f_equal.
    destruct (q =? p) eqn:E2; b2p; [subst; apply Z.eqb_refl|].
    apply Z.eqb_neq. intros Em. by apply E2, same_pos.
  - destruct (q =? p) eqn:E2; b2p; [by subst|]. done.
Qed.

Lemma Set_wf b p : bitmap_wf b -> 0 <= p < n b -> bitmap_wf (Set_ b p).
Proof.
  intros Hb Hp. destruct (pos_split b p Hb Hp) as (_ & Rp & Hmp & _). unfold Set_. rewrite Rp.
  apply upd_word_wf; [done|done|]. intros v Hv. by apply set_bit_range.
Qed.

Lemma Clear_wf b p : bitmap_wf b -> 0 <= p < n b -> bitmap_wf (Clear b p).
Proof.
  intros Hb Hp. destruct (pos_split b p Hb Hp) as (_ & Rp & Hmp & _). unfold Clear. rewrite Rp.
  apply upd_word_wf; [done|done|]. intros v Hv. by apply clear_bit_range.
Qed.

(** ** Counting *)

Lemma ones_loop_count b k i r :
  ones_loop b k i r = r + Z.of_nat (length (filter (fun j => Get b j = true) (seqZ i (Z.of_nat k)))).
Proof.
  revert i r. induction k as [|k IH]; intros i r; cbn [ones_loop]; [rewrite seqZ_nil by lia; cbn; lia|].
  rewrite IH, Nat2Z.inj_succ, (seqZ_cons i), filter_cons by lia.
  replace (Z.pred (Z.succ (Z.of_nat k))) with (Z.of_nat k) by lia.
  replace (Z.succ i) with (i + 1) by lia.
  destruct (Get b i); [rewrite decide_True by done|rewrite decide_False by done]; cbn [length]; lia.
Qed.

Lemma NumberOfOnes_ones b : bitmap_wf b -> NumberOfOnes b = Z.of_nat (length (ones b)).
Proof.
  intros Hb. unfold NumberOfOnes, ones. rewrite ones_loop_count, Z2Nat.id by apply Hb. done.
Qed.

Lemma elem_of_ones b p : p ∈ ones b <-> Get b p = true /\ 0 <= p < n b.
Proof. unfold ones. rewrite list_elem_of_filter, elem_of_seqZ. intuition lia. Qed.

Lemma NoDup_ones b : NoDup (ones b).
Proof. apply NoDup_filter, NoDup_seqZ. Qed.

Lemma ones_Set b p :
  bitmap_wf b -> 0 <= p < n b -> Get b p = false -> ones (Set_ b p) ≡ₚ p :: ones b.
Proof.
  intros Hb Hp Hg. unfold ones. change (n (Set_ b p)) with (n b). apply (filter_flip _ _ (Hdec := Z.eq_dec)).
  - apply NoDup_seqZ.
  - apply elem_of_seqZ. lia.
  - rewrite Get_Set, Z.eqb_refl by done. done.
  - congruence.
  - intros q Hne Hq%elem_of_seqZ. rewrite Get_Set by (done || lia).
    by rewrite (proj2 (Z.eqb_neq q p) Hne).
Qed.

Lemma ones_Clear b p :
  bitmap_wf b -> 0 <= p < n b -> Get b p = true -> ones b ≡ₚ p :: ones (Clear b p).
Proof.
  intros Hb Hp Hg. unfold ones. change (n (Clear b p)) with (n b). apply (filter_flip _ _ (Hdec := Z.eq_dec)).
  - apply NoDup_seqZ.
  - apply elem_of_seqZ. lia.
  - done.
  - rewrite Get_Clear, Z.eqb_refl by done. done.
  - intros q Hne Hq%elem_of_seqZ. rewrite Get_Clear by (done || lia).
    by rewrite (proj2 (Z.eqb_neq q p) Hne).
Qed.

(** ** The search for a zero *)

Lemma lnot_ctz w :
  0 <= w < 2 ^ 64 -> u64 (Z.lnot w) <> 0 ->
  let c := ctz (u64 (Z.lnot w)) in
  (c < 64)%nat /\ Z.testbit w (Z.of_nat c) = false /\
  forall j, 0 <= j < Z.of_nat c -> Z.testbit w j = true.
Proof.
  intros Hw Hn. cbn zeta. pose proof (u64_range (Z.lnot w)) as Hr.
  set (x := u64 (Z.lnot w)) in *.
  assert (Hc : (ctz x < 64)%nat) by (apply ctz_bound; change (Z.of_nat 64) with 64; lia).
  split; [done|]. split.
  - pose proof (ctz_bit x ltac:(lia)) as Hb. unfold x at 1 in Hb.
    rewrite u64_testbit, Z.lnot_spec in Hb by lia.
    apply andb_true_iff in Hb as [_ Hb]. by apply negb_true_iff in Hb.
  - intros j Hj. pose proof (ctz_low x (Z.to_nat j) ltac:(lia) ltac:(lia)) as Hb.
    rewrite Z2Nat.id in Hb by lia. unfold x in Hb at 1.
    rewrite u64_testbit, Z.lnot_spec, (proj2 (Z.ltb_lt j 64)) in Hb by lia.
    cbn in Hb. by apply negb_false_iff in Hb.
Qed.

Lemma lnot_zero w : 0 <= w < 2 ^ 64 -> u64 (Z.lnot w) = 0 -> forall j, 0 <= j < 64 -> Z.testbit w j = true.
Proof.
  intros Hw H0 j Hj.
  assert (Hb : Z.testbit (u64 (Z.lnot w)) j = false) by (rewrite H0; apply Z.bits_0).
  rewrite u64_testbit, Z.lnot_spec, (proj2 (Z.ltb_lt j 64)) in Hb by lia.
  cbn in Hb. by apply negb_false_iff in Hb.
Qed.

Lemma zero_loop_spec l i :
  Forall (fun w => 0 <= w < 2 ^ 64) l ->
  match zero_loop l i with
  | Some (j, c) => exists (t : nat) w, j = i + Z.of_nat t /\ l !! t = Some w /\ (c < 64)%nat /\
      Z.testbit w (Z.of_nat c) = false /\
      (forall q, 0 <= q < Z.of_nat c -> Z.testbit w q = true) /\
      (forall t' w' q, (t' < t)%nat -> l !! t' = Some w' -> 0 <= q < 64 -> Z.testbit w' q = true)
  | None => forall t w q, l !! t = Some w -> 0 <= q < 64 -> Z.testbit w q = true
  end.
Proof.
  intros Hl. revert i. induction Hl as [|w l Hw Hl IH]; intros i; cbn [zero_loop]; [done|].
  destruct (u64 (Z.lnot w) =? 0) eqn:E; b2p; cbn [negb].
  - pose proof (lnot_zero w Hw E) as Hall. specialize (IH (i + 1)).
    destruct (zero_loop l (i + 1)) as [[j c]|].
    + destruct IH as (t & w' & -> & Ht & Hc & Hf & Hlow & Hprev).
      exists (S t), w'. split_and!; [lia|done|done|done|done|].
      intros [|t'] w'' q Ht' Hw'' Hq; [cbn in Hw''; simplify_eq; by apply Hall|].
      eapply Hprev; [|done|done]. lia.
    + intros [|t] w' q Ht Hq; [cbn in Ht; simplify_eq; by apply Hall|by eapply IH].
  - destruct (lnot_ctz w Hw E) as (Hc & Hf & Hlow).
    exists 0%nat, w. split_and!; [lia|done|done|done|done|]. intros; lia.
Qed.

Lemma word_lookup b (t : nat) w q :
  bits b !! t = Some w -> 0 <= q < 64 -> word b (64 * Z.of_nat t + q) = w.
Proof.
  intros Hw Hq. unfold word. rewrite Z.quot_div_nonneg by lia.
  replace ((64 * Z.of_nat t + q) / 64) with (Z.of_nat t).
  - rewrite Nat2Z.id. by apply list_lookup_total_correct.
  - symmetry. rewrite Z.mul_comm, Z.div_add_l by lia. rewrite (Z.div_small q) by lia. lia.
Qed.

Lemma zero_pos_spec b :
  bitmap_wf b ->
  match zero_pos b with
  | Some (i, c) => let p := i * 64 + Z.of_nat c in
      0 <= i /\ (c < 64)%nat /\ 0 <= p < n b /\ Get b p = false /\
      (forall q, 0 <= q < p -> Get b q = true)
  | None => forall q, 0 <= q < n b -> Get b q = true
  end.
Proof.
  intros Hb. pose proof (bw_div _ Hb) as Hd. pose proof (bw_n _ Hb).
  pose proof (Z.div_mod (n b) 64 ltac:(lia)) as Hdm.
  unfold zero_pos. rewrite Z.quot_div_nonneg by lia.
  rewrite take_ge by (rewrite (bw_len _ Hb); lia).
  pose proof (zero_loop_spec (bits b) 0 (bw_word _ Hb)) as Hz.
  assert (Hlk : forall q, 0 <= q < n b -> bits b !! Z.to_nat (q / 64) = Some (word b q)).
  { intros q Hq. destruct (pos_split b q Hb Hq) as (Eq & _ & _ & Hdq & _). unfold word. rewrite Eq.
    apply list_lookup_lookup_total_lt. rewrite (bw_len _ Hb). lia. }
  destruct (zero_loop (bits b) 0) as [[i c]|].
  - destruct Hz as (t & w & -> & Ht & Hc & Hf & Hlow & Hprev). cbn zeta.
    pose proof (lookup_lt_Some _ _ _ Ht) as Hlt. rewrite (bw_len _ Hb) in Hlt.
    assert (Hp : 0 <= (0 + Z.of_nat t) * 64 + Z.of_nat c < n b) by lia.
    assert (Hmod : ((0 + Z.of_nat t) * 64 + Z.of_nat c) mod 64 = Z.of_nat c).
    { rewrite Z.add_comm, Z.mod_add by lia. apply Z.mod_small. lia. }
    split_and!; try lia.
    + rewrite Get_testbit, Hmod by done.
      replace ((0 + Z.of_nat t) * 64 + Z.of_nat c) with (64 * Z.of_nat t + Z.of_nat c) by lia.
      by rewrite (word_lookup b t w) by (done || lia).
    + intros q Hq. assert (Hqn : 0 <= q < n b) by lia. rewrite Get_testbit by done.
      pose proof (Hlk q Hqn) as Hwq. destruct (pos_split b q Hb Hqn) as (_ & _ & Hm & Hdq & Eq).
      destruct (decide (Z.to_nat (q / 64) < t)%nat) as [Hlt'|Hge]; [by eapply Hprev|].
      assert (Z.to_nat (q / 64) = t) as Et by lia. rewrite Et, Ht in Hwq.
      injection Hwq as Hwq. rewrite <- Hwq. apply Hlow. lia.
  - intros q Hq. rewrite Get_testbit by done. eapply Hz; [by apply Hlk|].
    apply Z.mod_pos_bound. lia.
Qed.

Lemma FirstZeroPos_spec b :
  bitmap_wf b ->
  (FirstZeroPos b = -1 /\ forall q, 0 <= q < n b -> Get b q = true) \/
  (0 <= FirstZeroPos b < n b /\ Get b (FirstZeroPos b) = false /\
   forall q, 0 <= q < FirstZeroPos b -> Get b q = true).
Proof.
  intros Hb. pose proof (zero_pos_spec b Hb) as Hz. unfold FirstZeroPos.
  destruct (zero_pos b) as [[i c]|]; [right|by left]. cbn zeta in Hz. naive_solver.
Qed.

Lemma SetZeroPos_spec b :
  bitmap_wf b ->
  SetZeroPos b = if decide (FirstZeroPos b = -1) then (b, -1)
                 else (Set_ b (FirstZeroPos b), FirstZeroPos b).
Proof.
  intros Hb. pose proof (zero_pos_spec b Hb) as Hz. unfold SetZeroPos, FirstZeroPos.
  destruct (zero_pos b) as [[i c]|]; [|done]. cbn zeta in Hz.
  destruct Hz as (Hi & Hc & Hp & _). rewrite decide_False by lia.
  f_equal. unfold Set_, upd_word. destruct (pos_split b _ Hb Hp) as (Eq & Er & _).
  rewrite Eq, Er. rewrite Z.div_add_l by lia. rewrite (Z.div_small (Z.of_nat c)) by lia.
  rewrite (Z.add_comm (i * 64)), Z.mod_add, (Z.mod_small (Z.of_nat c)) by lia.
  by rewrite Z.add_0_r.
Qed.

(** The bit map of the constructor. *)
Lemma make_wf m b :
  0 <= m < 2 ^ 31 -> m mod 64 = 0 -> make m = Ret b -> bitmap_wf b /\ n b = m /\ ones b = [].
Proof.
  intros Hm Hd Hmk. unfold make in Hmk. inv_ret. simplify_eq. cbn [n].
  assert (Hb : bitmap_wf {| n := m; bits := replicate (Z.to_nat (Z.quot m 64)) 0 |}).
  { split; cbn [n bits]; [done|done| |].
    - by rewrite length_replicate, Z.quot_div_nonneg by lia.
    - apply Forall_replicate. lia. }
  split_and!; [done|done|]. apply list_filter_none. intros q Hq%elem_of_seqZ. cbn [n] in Hq.
  rewrite Get_testbit by (done || (cbn; lia)). unfold word. cbn [bits].
  destruct (pos_split _ q Hb ltac:(cbn; lia)) as (Eq & _ & _ & Hdq & _). cbn [n] in Hdq. rewrite Eq.
  rewrite lookup_total_replicate_2 by (rewrite Z.quot_div_nonneg; lia). by rewrite Z.bits_0.
Qed.

Lemma make_Ret m : m mod 64 = 0 -> 0 <= m -> exists b, make m = Ret b.
Proof.
  intros Hd Hm. unfold make. rewrite Z.rem_mod_nonneg, Hd by lia. cbn. eauto.
Qed.

Lemma Clear_all_make b : bitmap_wf b -> ones b = [] -> Clear_all b = b.
Proof.
  intros Hb H0. destruct b as [m ws]. unfold Clear_all. cbn [n bits]. f_equal.
  pose proof (bw_n _ Hb). pose proof (bw_len _ Hb) as Hl. pose proof (bw_div _ Hb). cbn [n bits] in *.
  rewrite Z.quot_div_nonneg, drop_ge, app_nil_r by lia.
  apply list_eq. intros i. destruct (decide (i < length ws)%nat) as [Hi|Hi].
  - rewrite lookup_replicate_2 by lia. destruct (lookup_lt_is_Some_2 ws i Hi) as [w Hw].
    rewrite Hw. f_equal. pose proof (Forall_lookup_1 _ _ _ _ (bw_word _ Hb) Hw) as Hr. cbn in Hr.
    apply Z.bits_inj'. intros j Hj. rewrite Z.bits_0.
    destruct (Z.lt_ge_cases j 64); [|by rewrite (testbit_above w 64) by lia].
    set (q := 64 * Z.of_nat i + j).
    pose proof (Z.div_mod m 64 ltac:(lia)).
    assert (Hq : 0 <= q < n {| n := m; bits := ws |}) by (cbn; lia).
    destruct (Z.testbit w j) eqn:Ej; [|done]. exfalso.
    assert (q ∈ ones {| n := m; bits := ws |}) as Hin; [|rewrite H0 in Hin; by apply not_elem_of_nil in Hin].
    apply elem_of_ones. split; [|done]. rewrite Get_testbit by done.
    unfold q. rewrite (word_lookup _ i w) by (done || lia).
    rewrite Z.add_comm, Z.mul_comm, Z.mod_add, Z.mod_small by lia. done.
  - rewrite !lookup_ge_None_2; [done|lia|rewrite length_replicate; lia].
Qed.

(** SetZeroPos takes the first zero bit and only that one: the position
    was zero, all positions below were one, the result differs from the map
    there only, and the number of ones grows by one; it gives -1, and leaves
    the map, exactly when all bits are one. *)
Theorem SetZeroPos_first_zero b :
  bitmap_wf b ->
  let '(b', p) := SetZeroPos b in
  bitmap_wf b' /\ n b' = n b /\
  (p = -1 /\ b' = b /\ NumberOfOnes b = n b \/
   0 <= p < n b /\ Get b p = false /\ (forall q, 0 <= q < p -> Get b q = true) /\
   (forall q, 0 <= q < n b -> Get b' q = (q =? p) || Get b q) /\
   NumberOfOnes b' = NumberOfOnes b + 1 /\ NumberOfOnes b < n b).
Proof.
  intros Hb. rewrite SetZeroPos_spec by done. pose proof (bw_n _ Hb).
  destruct (FirstZeroPos_spec b Hb) as [[E Hall]|(Hp & Hg & Hlow)].
  - rewrite E, decide_True by done. split_and!; [done|done|]. left. split_and!; [done|done|].
    rewrite NumberOfOnes_ones by done. unfold ones. rewrite list_filter_all.
    + rewrite length_seqZ. lia.
    + intros q Hq%elem_of_seqZ. apply Hall. lia.
  - rewrite decide_False by lia. split_and!; [by apply Set_wf|done|]. right.
    pose proof (ones_Set b _ Hb Hp Hg) as HP. split_and!; try done; try lia.
    + intros q Hq. by apply Get_Set.
    + rewrite !NumberOfOnes_ones by (try apply Set_wf; done). rewrite HP. cbn [length]. lia.
    + rewrite NumberOfOnes_ones by done.
      pose proof (length_filter (fun i => Get (Set_ b (FirstZeroPos b)) i = true) (seqZ 0 (n b))) as Hl.
      change (filter _ _) with (ones (Set_ b (FirstZeroPos b))) in Hl.
      rewrite HP, length_seqZ in Hl. cbn [length] in Hl. lia.
Qed.

Lemma SetZeroPos_first_zero_witness :
  bitmap_wf {| n := 128; bits := [u64_max; 5] |} /\
  let '(b', p) := SetZeroPos {| n := 128; bits := [u64_max; 5] |} in
  p = 65 /\ NumberOfOnes b' = NumberOfOnes {| n := 128; bits := [u64_max; 5] |} + 1.
Proof.
  assert (Hb : bitmap_wf {| n := 128; bits := [u64_max; 5] |}).
  { split; cbn; [lia|done|done|]. repeat constructor; unfold u64_max; lia. }
  split; [exact Hb|]. pose proof (SetZeroPos_first_zero _ Hb) as Ht. revert Ht.
  assert (E : (SetZeroPos {| n := 128; bits := [u64_max; 5] |}).2 = 65) by by_eval. revert E.
  destruct (SetZeroPos _) as [b' p]. cbn [snd]. intros -> (_ & _ & [(H & _ & _)|(_ & _ & _ & _ & Ht & _)]).
  - exfalso. lia.
  - split; [reflexivity|exact Ht].
Defined.
End Facts.
