(* ===== verification/ShmCommon.v ===== *)
(** * PetKVData (src/pet_kv/shm_common.h)

    The 64-bit word that the index stores for a key: the offset of the value
    in units of eight bytes in its upper [offset_bit] bits, a reduced expiry
    time in the others.  [kConfig] is an argument, since [PetMultiKV] changes
    it; [choose_config] is the loop of its constructor (src/pet_kv/pet_kv.cc). *)

From stdpp Require Import base numbers list.
From Stdlib Require Import ZArith Lia.
From S2P Require Import Prelude.

Module PetKVData.

Record Config := Build_Config {
  kExpireReductBit : Z;
  kExpireReductMark : Z;
  kExpireBit : Z;
  kExpireMark : Z;
  kNoMallocOffset : Z
}.

(** [1LL << b]: undefined for a shift of 64 or more. *)
Definition shl1 (b : Z) : outcome Z :=
  if (0 <=? b) && (b <? 64) then Ret (i64 (Z.shiftl 1 b)) else Err Undefined.

(** [explicit Config(int offset_bit)]; the fields are [uint64_t]. *)
Definition make_config (offset_bit : Z) : outcome Config :=
  _ ← CHECK (32 <=? offset_bit);
  let kExpireBit := u64 (64 - offset_bit) in
  let kExpireReductBit := u64 (32 - kExpireBit) in
  e ← shl1 kExpireBit;
  r ← shl1 kExpireReductBit;
  o ← shl1 offset_bit;
  Ret {| kExpireReductBit := kExpireReductBit; kExpireReductMark := u64 (r - 1);
         kExpireBit := kExpireBit; kExpireMark := u64 (e - 1); kNoMallocOffset := u64 (o - 1) |}.

(** [data_value] is the whole object. *)
Definition shm_malloc_offset (kConfig : Config) (data_value : Z) : Z :=
  let offset := Z.shiftr data_value (kExpireBit kConfig) in
  if offset =? kNoMallocOffset kConfig then -1 else i64 (u64 (Z.shiftl offset 3)).

Definition SetShmMallocOffset (kConfig : Config) (data_value shm_malloc_offset : Z) : Z :=
  let o := if shm_malloc_offset =? -1 then i64 (kNoMallocOffset kConfig)
           else Z.shiftr shm_malloc_offset 3 in
  Z.lor (Z.land data_value (kExpireMark kConfig)) (u64 (Z.shiftl o (kExpireBit kConfig))).

(** [explicit PetKVData(int64_t offset)] *)
Definition make (kConfig : Config) (offset : Z) : Z := SetShmMallocOffset kConfig 0 offset.

Definition expire_timet (kConfig : Config) (data_value : Z) : Z :=
  u32 (u64 (Z.shiftl (Z.land data_value (kExpireMark kConfig)) (kExpireReductBit kConfig))).

(** The search of [PetMultiKV::PetMultiKV] for the number of offset bits, from
    [i] on. *)
Fixpoint choose_loop (n : nat) (i shard_memory : Z) (kConfig : Config) : outcome Config :=
  match n with
  | O => Ret kConfig
  | S n' =>
      b ← shl1 i;
      if shard_memory <? b then make_config (i - 3)
      else choose_loop n' (i + 1) shard_memory kConfig
  end.

Definition choose_config (shard_memory : Z) (kConfig : Config) : outcome Config :=
  if Z.shiftl 1 35 <=? shard_memory then choose_loop 29 36 shard_memory kConfig
  else Ret kConfig.
End PetKVData.

Section Facts.
Import PetKVData.

(** A configuration made for [b] offset bits. *)
Definition config_bits (c : Config) (b : Z) : Prop := 33 <= b <= 62 /\ make_config b = Ret c.

Lemma config_fields c b :
  config_bits c b ->
  kExpireBit c = 64 - b /\ kExpireMark c = 2 ^ (64 - b) - 1 /\
  kExpireReductBit c = b - 32 /\ kNoMallocOffset c = 2 ^ b - 1.
Proof.
  intros [Hb Hm]. unfold make_config in Hm. rewrite (proj2 (Z.leb_le 32 b)) in Hm by lia.
  cbn [CHECK mbind outcome_bind] in Hm.
  assert (Hp : forall j, 0 <= j <= 62 -> 0 < 2 ^ j <= 2 ^ 62).
  { intros j Hj. split; [apply Z.pow_pos_nonneg; lia|apply Z.pow_le_mono_r; lia]. }
  assert (Hs : forall j, 0 <= j <= 62 -> shl1 j = Ret (2 ^ j)).
  { intros j Hj. unfold shl1. rewrite (proj2 (Z.leb_le 0 j)), (proj2 (Z.ltb_lt j 64)) by lia. cbn [andb].
    rewrite shiftl1_pow2, i64_small by (pose proof (Hp j Hj); lia). done. }
  rewrite (u64_small (64 - b)), (u64_small (32 - (64 - b))) in Hm by lia.
  rewrite !Hs in Hm by lia. cbn [mbind outcome_bind] in Hm. injection Hm as <-.
  cbn [kExpireBit kExpireMark kExpireReductBit kNoMallocOffset].
  pose proof (Hp (64 - b) ltac:(lia)). pose proof (Hp b ltac:(lia)).
  split_and!; [done|apply u64_small; lia|lia|apply u64_small; lia].
Qed.

(** The two parts of the word do not overlap. *)
Lemma word_parts k x o :
  0 <= k <= 64 -> 0 <= x -> 0 <= o < 2 ^ (64 - k) ->
  let w := Z.lor (Z.land x (2 ^ k - 1)) (u64 (Z.shiftl o k)) in
  Z.shiftr w k = o /\ Z.land w (2 ^ k - 1) = x mod 2 ^ k.
Proof.
  intros Hk Hx Ho. cbn zeta.
  assert (Hsh : 0 <= Z.shiftl o k < 2 ^ 64).
  { rewrite Z.shiftl_mul_pow2 by lia. replace (2 ^ 64) with (2 ^ (64 - k) * 2 ^ k)
      by (rewrite <- Z.pow_add_r by lia; f_equal; lia).
    split; [apply Z.mul_nonneg_nonneg; [lia|apply Z.pow_nonneg; lia]|].
    apply Zmult_lt_compat_r; [apply Z.pow_pos_nonneg; lia|lia]. }
  rewrite u64_small, land_mask by lia. split.
  - apply Z.bits_inj'. intros i Hi. rewrite Z.shiftr_spec, Z.lor_spec, Z.shiftl_spec by lia.
    rewrite Z.mod_pow2_bits_high by lia. cbn. f_equal. lia.
  - rewrite land_mask by lia. apply Z.bits_inj'. intros i Hi.
    destruct (Z.lt_ge_cases i k).
    + rewrite !Z.mod_pow2_bits_low, Z.lor_spec, Z.shiftl_spec_low, Z.mod_pow2_bits_low by lia.
      apply orb_false_r.
    + rewrite !Z.mod_pow2_bits_high by lia. done.
Qed.

(** What is stored is what is read. *)
Lemma offset_roundtrip c b data_value o :
  config_bits c b -> 0 <= data_value -> 0 <= o -> o mod 8 = 0 -> o < 8 * (2 ^ b - 1) ->
  o < 2 ^ 63 ->
  shm_malloc_offset c (SetShmMallocOffset c data_value o) = o.
Proof.
  intros Hc Hd Ho H8 Hlt H63. destruct (config_fields c b Hc) as (E1 & E2 & _ & E4).
  destruct Hc as [Hb _]. unfold shm_malloc_offset, SetShmMallocOffset. rewrite E1, E2, E4.
  rewrite (proj2 (Z.eqb_neq o (-1))) by lia.
  assert (Hq : 0 <= Z.shiftr o 3 < 2 ^ b - 1).
  { rewrite Z.shiftr_div_pow2 by lia. change (2 ^ 3) with 8.
    split; [apply Z.div_pos; lia|apply Z.div_lt_upper_bound; lia]. }
  destruct (word_parts (64 - b) data_value (Z.shiftr o 3)) as [-> _]; [lia|lia| |].
  { replace (64 - (64 - b)) with b by lia. lia. }
  rewrite (proj2 (Z.eqb_neq _ _)) by lia.
  replace (Z.shiftl (Z.shiftr o 3) 3) with o.
  - rewrite u64_small, i64_small by lia. done.
  - rewrite Z.shiftr_div_pow2, Z.shiftl_mul_pow2 by lia. change (2 ^ 3) with 8.
    pose proof (Z.div_mod o 8 ltac:(lia)). lia.
Qed.

(** The offset of a value survives the packing into the index word: every
    offset that is a multiple of eight and below the marker comes back, the
    marker [-1] comes back, and the expiry bits of the word are not touched. *)
Theorem SetShmMallocOffset_roundtrip c b data_value o :
  config_bits c b -> 0 <= data_value < 2 ^ 64 ->
  (o = -1 \/ 0 <= o < 2 ^ 63 /\ o mod 8 = 0 /\ o < 8 * (2 ^ b - 1)) ->
  shm_malloc_offset c (SetShmMallocOffset c data_value o) = o /\
  expire_timet c (SetShmMallocOffset c data_value o) = expire_timet c data_value.
Proof.
  intros Hc Hd Ho. destruct (config_fields c b Hc) as (E1 & E2 & _ & E4).
  pose proof Hc as [Hb _].
  assert (Hpow : 0 < 2 ^ b <= 2 ^ 62)
    by (split; [apply Z.pow_pos_nonneg; lia|apply Z.pow_le_mono_r; lia]).
  assert (Hex : forall q, 0 <= q < 2 ^ b ->
    Z.land (Z.lor (Z.land data_value (2 ^ (64 - b) - 1)) (u64 (Z.shiftl q (64 - b)))) (2 ^ (64 - b) - 1)
    = Z.land data_value (2 ^ (64 - b) - 1)).
  { intros q Hq. destruct (word_parts (64 - b) data_value q) as [_ ->]; [lia|lia| |].
    - replace (64 - (64 - b)) with b by lia. done.
    - symmetry. apply land_mask. lia. }
  destruct Ho as [->|(Ho & H8 & Hlt)].
  - unfold shm_malloc_offset, SetShmMallocOffset, expire_timet. rewrite E1, E2, E4.
    rewrite (Z.eqb_refl (-1)), (i64_small (2 ^ b - 1)) by lia.
    destruct (word_parts (64 - b) data_value (2 ^ b - 1)) as [-> _]; [lia|lia| |].
    { replace (64 - (64 - b)) with b by lia. lia. }
    rewrite Z.eqb_refl. split; [done|]. by rewrite Hex by lia.
  - split; [apply (offset_roundtrip c b); (done || lia)|].
    unfold expire_timet, SetShmMallocOffset. rewrite E1, E2.
    rewrite (proj2 (Z.eqb_neq o (-1))) by lia. rewrite Hex; [done|].
    rewrite Z.shiftr_div_pow2 by lia. change (2 ^ 3) with 8.
    split; [apply Z.div_pos; lia|apply Z.div_lt_upper_bound; lia].
Qed.

(** The configuration that [PetKV] starts with. *)
Definition config48 : Config :=
  {| kExpireReductBit := 16; kExpireReductMark := 65535; kExpireBit := 16; kExpireMark := 65535;
     kNoMallocOffset := 281474976710655 |}.

Lemma config48_bits : config_bits config48 48.
Proof. split; [lia|by_eval]. Qed.

Lemma SetShmMallocOffset_roundtrip_witness :
  make_config 48 = Ret config48 /\
  shm_malloc_offset config48 (SetShmMallocOffset config48 1234 (8 * 4097)) = 8 * 4097 /\
  expire_timet config48 (SetShmMallocOffset config48 1234 (8 * 4097)) = expire_timet config48 1234.
Proof.
  split; [by_eval|]. apply (SetShmMallocOffset_roundtrip config48 48); [apply config48_bits|lia|].
  right. split_and!; try lia. by_eval.
Defined.

Lemma choose_loop_spec n i mem c0 :
  36 <= i -> i + Z.of_nat n = 65 -> 2 ^ (i - 1) <= mem < 2 ^ 62 ->
  exists c b, choose_loop n i mem c0 = Ret c /\ config_bits c b /\ mem < 8 * 2 ^ b.
Proof.
  revert i. induction n as [|n IH]; intros i Hi Hn Hm.
  - exfalso. assert (2 ^ 62 <= 2 ^ (i - 1)) by (apply Z.pow_le_mono_r; lia). lia.
  - assert (Hi62 : i <= 62).
    { destruct (Z.le_gt_cases i 62) as [|Hgt]; [done|].
      assert (2 ^ 62 <= 2 ^ (i - 1)) by (apply Z.pow_le_mono_r; lia). lia. }
    assert (0 < 2 ^ i <= 2 ^ 62)
      by (split; [apply Z.pow_pos_nonneg; lia|apply Z.pow_le_mono_r; lia]).
    cbn [choose_loop]. unfold shl1. rewrite (proj2 (Z.leb_le 0 i)), (proj2 (Z.ltb_lt i 64)) by lia.
    cbn [andb mbind outcome_bind]. rewrite shiftl1_pow2, i64_small by lia.
    destruct (mem <? 2 ^ i) eqn:E; b2p.
    + assert (exists c, make_config (i - 3) = Ret c) as [c Hc].
      { assert (Hs : forall j, 0 <= j < 64 -> exists z, shl1 j = Ret z).
        { intros j Hj. unfold shl1. rewrite (proj2 (Z.leb_le 0 j)), (proj2 (Z.ltb_lt j 64)) by lia.
          cbn. eauto. }
        unfold make_config. rewrite (proj2 (Z.leb_le 32 _)) by lia. cbn [CHECK mbind outcome_bind].
        rewrite (u64_small (64 - (i - 3))), (u64_small (32 - _)) by lia.
        destruct (Hs (64 - (i - 3)) ltac:(lia)) as [? ->].
        destruct (Hs (32 - (64 - (i - 3))) ltac:(lia)) as [? ->].
        destruct (Hs (i - 3) ltac:(lia)) as [? ->]. cbn. eauto. }
      exists c, (i - 3). split_and!; [done|split; [lia|done]|].
      change 8 with (2 ^ 3). rewrite <- Z.pow_add_r by lia. replace (3 + (i - 3)) with i by lia. done.
    + apply IH; [lia|lia|]. replace (i + 1 - 1) with i by lia. lia.
Qed.

Lemma choose_config_bits shard_memory :
  0 <= shard_memory < 2 ^ 62 ->
  exists c b, choose_config shard_memory config48 = Ret c /\ config_bits c b /\ shard_memory < 8 * 2 ^ b.
Proof.
  intros Hm. unfold choose_config. destruct (Z.shiftl 1 35 <=? shard_memory) eqn:E; b2p; rewrite shiftl1_pow2 in E by lia.
  - apply choose_loop_spec; [lia|lia|change (36 - 1) with 35; lia].
  - exists config48, 48. split_and!; [done|apply config48_bits|lia].
Qed.

(** The offset width that PetMultiKV chooses for its shards is enough: every
    block of the shard's memory has an offset that comes back from the index
    word. *)
Theorem choose_config_sufficient shard_memory o data_value :
  0 <= shard_memory < 2 ^ 62 -> 0 <= data_value ->
  0 <= o -> o mod 8 = 0 -> o + 8 <= shard_memory ->
  exists c, choose_config shard_memory config48 = Ret c /\
    shm_malloc_offset c (SetShmMallocOffset c data_value o) = o.
Proof.
  intros Hm Hd Ho H8 Hlt. destruct (choose_config_bits shard_memory Hm) as (c & b & HC & Hc & Hb).
  exists c. split; [done|]. apply (offset_roundtrip c b); (done || lia).
Qed.

Lemma choose_config_sufficient_witness :
  exists c, choose_config (2 ^ 36) config48 = Ret c /\
    shm_malloc_offset c (SetShmMallocOffset c 0 (2 ^ 36 - 2097152)) = 2 ^ 36 - 2097152.
Proof. apply (choose_config_sufficient (2 ^ 36)); [lia|lia|lia|by_eval|lia]. Defined.
End Facts.
