(* ===== verification/SimpleMalloc.v ===== *)
(** * PersistSimpleMalloc (src/memory/persist_malloc.h)

    The bump allocator of the map engines.  Pointers are offsets from [data_];
    the shared-memory file that backs it is the state it is opened with. *)

From stdpp Require Import base numbers list gmap.
From Stdlib Require Import ZArith Lia.
From S2P Require Import Prelude.

Module SimpleMalloc.

Record state := Build_state {
  allocated_ : Z;
  nr_malloc_ : Z;
  meta_data_block_ : gmap Z Z;
  memory_size_ : Z;
  slab_size_ : Z
}.

(** The constructor: [Initialize] and the skipped first block. *)
Definition open (meta : gmap Z Z) (memory_size slab_size : Z) : state :=
  {| allocated_ := u64 (0 + slab_size); nr_malloc_ := 0; meta_data_block_ := meta;
     memory_size_ := memory_size; slab_size_ := slab_size |}.

Definition New (s : state) (malloc_size : Z) : outcome (state * Z) :=
  _ ← CHECK (malloc_size =? slab_size_ s);
  let offset := allocated_ s in
  let wrap := u64 (memory_size_ s) <=? u64 (offset + slab_size_ s) in
  let allocated := if wrap then 0 else u64 (offset + malloc_size) in
  let offset := if wrap then 0 else offset in
  _ ← CHECK (u64 (offset + slab_size_ s) <=? u64 (memory_size_ s));
  Ret ({| allocated_ := allocated; nr_malloc_ := u64 (nr_malloc_ s + 1);
          meta_data_block_ := <[offset / u64 (slab_size_ s) := u64 malloc_size]> (meta_data_block_ s);
          memory_size_ := memory_size_ s; slab_size_ := slab_size_ s |}, offset).

Definition Free (s : state) (memory_data : Z) : outcome bool := Err LogFatal.
Definition AddMallocs4Recovery (s : state) (shm_offset : Z) : outcome state := Err LogFatal.
Definition total_malloc (s : state) : Z := nr_malloc_ s.
Definition Initialize (s : state) : state :=
  {| allocated_ := 0; nr_malloc_ := nr_malloc_ s; meta_data_block_ := meta_data_block_ s;
     memory_size_ := memory_size_ s; slab_size_ := slab_size_ s |}.

Definition GetMallocData (s : state) (offset : Z) : Z := offset.
Definition GetMallocSize (s : state) (offset : Z) : Z :=
  i32 (default 0 (meta_data_block_ s !! (Z.quot offset (slab_size_ s)))).
Definition GetMallocOffset (s : state) (data : Z) : outcome Z :=
  _ ← CHECK (0 <=? data);
  _ ← CHECK (data + slab_size_ s <? memory_size_ s);
  Ret data.

Fixpoint New_n (k : nat) (s : state) : outcome (state * list Z) :=
  match k with
  | O => Ret (s, [])
  | S k' =>
      '(s, p) ← New s (slab_size_ s);
      '(s, ps) ← New_n k' s;
      Ret (s, p :: ps)
  end.
End SimpleMalloc.

Section Facts.
Import SimpleMalloc.

(** What the operations keep: the next offset is a multiple of the slab size
    inside the memory. *)
Record simple_wf (s : state) : Prop := {
  sm_slab : 0 < slab_size_ s < 2 ^ 31;
  sm_mem : slab_size_ s <= memory_size_ s < 2 ^ 62;
  sm_mult : allocated_ s mod slab_size_ s = 0;
  sm_next : 0 <= allocated_ s <= memory_size_ s
}.

Lemma New_eq s :
  simple_wf s ->
  let wrap := memory_size_ s <=? allocated_ s + slab_size_ s in
  let offset := if wrap then 0 else allocated_ s in
  New s (slab_size_ s) =
  Ret ({| allocated_ := if wrap then 0 else allocated_ s + slab_size_ s;
          nr_malloc_ := u64 (nr_malloc_ s + 1);
          meta_data_block_ := <[offset / slab_size_ s := slab_size_ s]> (meta_data_block_ s);
          memory_size_ := memory_size_ s; slab_size_ := slab_size_ s |}, offset).
Proof.
  intros [Hs Hm Hd Hn]. cbn zeta. unfold New. rewrite Z.eqb_refl. cbn [CHECK mbind outcome_bind].
  rewrite (u64_small (memory_size_ s)), (u64_small (allocated_ s + slab_size_ s)),
    (u64_small (slab_size_ s)) by lia.
  destruct (memory_size_ s <=? allocated_ s + slab_size_ s) eqn:E; b2p.
  - rewrite (u64_small (0 + slab_size_ s)), (proj2 (Z.leb_le (0 + _) _)) by lia. done.
  - rewrite (u64_small (allocated_ s + slab_size_ s)), (proj2 (Z.leb_le (_ + _) _)) by lia. done.
Qed.

(** Every allocation of the simple allocator succeeds, inside the memory, at
    a multiple of the slab size, and its size is recorded. *)
Theorem SimpleMalloc_New_in_bounds s :
  simple_wf s ->
  exists s' p, New s (slab_size_ s) = Ret (s', p) /\ simple_wf s' /\
    0 <= p /\ p + slab_size_ s <= memory_size_ s /\ p mod slab_size_ s = 0 /\
    GetMallocSize s' p = slab_size_ s.
Proof.
  intros Hwf. pose proof Hwf as [Hs Hm Hd Hn]. rewrite (New_eq s Hwf). eexists _, _. split; [done|].
  destruct (memory_size_ s <=? allocated_ s + slab_size_ s) eqn:E; b2p.
  - split_and!; try (rewrite ?Z.mod_0_l; lia).
    + split; cbn; rewrite ?Z.mod_0_l; lia.
    + unfold GetMallocSize. cbn [meta_data_block_ slab_size_].
      rewrite Z.quot_div_nonneg, lookup_insert_eq by lia. apply i32_small. lia.
  - split_and!; try lia.
    + split; cbn; try lia. rewrite Z.add_mod, Hd, Z.mod_same by lia. done.
    + unfold GetMallocSize. cbn [meta_data_block_ slab_size_].
      rewrite Z.quot_div_nonneg, lookup_insert_eq by lia. apply i32_small. lia.
Qed.

Lemma SimpleMalloc_New_in_bounds_witness :
  exists s' p, New (open ∅ 1024 64) 64 = Ret (s', p) /\ simple_wf s' /\
    0 <= p /\ p + 64 <= 1024 /\ p mod 64 = 0 /\ GetMallocSize s' p = 64.
Proof.
  apply (SimpleMalloc_New_in_bounds (open ∅ 1024 64)). split; try (vm_compute; intuition congruence).
Defined.

Lemma New_n_lap k s :
  simple_wf s -> allocated_ s + Z.of_nat k * slab_size_ s < memory_size_ s ->
  exists s', New_n k s = Ret (s', (fun i => allocated_ s + i * slab_size_ s) <$> seqZ 0 (Z.of_nat k)).
Proof.
  revert s. induction k as [|k IH]; intros s Hwf Hlt; [by exists s|].
  pose proof Hwf as [Hs Hm Hd Hn]. cbn [New_n].
  rewrite (New_eq s Hwf). cbn zeta.
  rewrite (proj2 (Z.leb_gt _ _)) by nia. cbn [mbind outcome_bind].
  edestruct IH as (s' & HI); [| |].
  3:{ rewrite HI. cbn [mbind outcome_bind allocated_ slab_size_]. exists s'.
      rewrite Nat2Z.inj_succ, (seqZ_cons 0 (Z.succ _)) by lia. rewrite fmap_cons. do 2 f_equal. f_equal; [lia|].
      rewrite <- (fmap_add_seqZ 1 0). rewrite <- list_fmap_compose.
      replace (Z.pred (Z.succ (Z.of_nat k))) with (Z.of_nat k) by lia.
      apply list_fmap_ext. intros _ i _. cbn. lia. }
  - split; cbn; try lia. rewrite Z.add_mod, Hd, Z.mod_same by lia. done.
  - cbn. nia.
Qed.

(** Before the memory is used up, consecutive allocations are consecutive
    blocks: no two of them overlap. *)
Theorem SimpleMalloc_lap_disjoint k s :
  simple_wf s -> allocated_ s + Z.of_nat k * slab_size_ s < memory_size_ s ->
  exists s' ps, New_n k s = Ret (s', ps) /\ length ps = k /\
    forall i j p q, ps !! i = Some p -> ps !! j = Some q -> (i < j)%nat -> p + slab_size_ s <= q.
Proof.
  intros Hwf Hlt. pose proof Hwf as [Hs _ _ _]. destruct (New_n_lap k s Hwf Hlt) as (s' & ->).
  eexists _, _. split; [done|]. rewrite length_fmap, length_seqZ. split; [lia|].
  intros i j p q Hi Hj Hij. rewrite list_lookup_fmap in Hi, Hj.
  apply fmap_Some in Hi as (x & Hx & ->). apply fmap_Some in Hj as (y & Hy & ->).
  apply lookup_seqZ in Hx as [-> _]. apply lookup_seqZ in Hy as [-> _]. nia.
Qed.

Lemma SimpleMalloc_lap_disjoint_witness :
  exists s' ps, New_n 10 (open ∅ 1024 64) = Ret (s', ps) /\ length ps = 10%nat /\
    forall i j p q, ps !! i = Some p -> ps !! j = Some q -> (i < j)%nat -> p + 64 <= q.
Proof.
  apply (SimpleMalloc_lap_disjoint 10 (open ∅ 1024 64)); [|by_eval].
  split; try (vm_compute; intuition congruence).
Defined.

(** When the memory is used up, the allocator starts over at offset 0 and
    sets the next offset to 0 as well: two consecutive allocations return the
    same block. *)
Theorem SimpleMalloc_wrap_returns_block_twice s :
  simple_wf s -> 2 * slab_size_ s < memory_size_ s ->
  memory_size_ s <= allocated_ s + slab_size_ s ->
  exists s1 s2, New s (slab_size_ s) = Ret (s1, 0) /\ New s1 (slab_size_ s1) = Ret (s2, 0).
Proof.
  intros Hwf Hm Hw. pose proof Hwf as [Hs Hm' _ _]. rewrite (New_eq s Hwf).
  rewrite (proj2 (Z.leb_le _ _)) by lia. eexists _, _. split; [done|].
  rewrite New_eq.
  - cbn [allocated_ memory_size_ slab_size_]. rewrite (proj2 (Z.leb_gt _ _)) by lia. done.
  - split; cbn; rewrite ?Z.mod_0_l; lia.
Qed.

Lemma SimpleMalloc_wrap_returns_block_twice_witness :
  exists s1 s2,
    New {| allocated_ := 960; nr_malloc_ := 14; meta_data_block_ := ∅; memory_size_ := 1024;
           slab_size_ := 64 |} 64 = Ret (s1, 0) /\ New s1 (slab_size_ s1) = Ret (s2, 0).
Proof.
  apply (SimpleMalloc_wrap_returns_block_twice
    {| allocated_ := 960; nr_malloc_ := 14; meta_data_block_ := ∅; memory_size_ := 1024;
       slab_size_ := 64 |}); cbn; try lia.
  split; cbn; lia || done.
Defined.
End Facts.
