(* ===== verification/MemoryPool.v ===== *)
(** * PersistMemoryPool (src/memory/persist_malloc.h)

    The slab allocator of [PetKV]: 2 MB chunks, each cut into slabs of one size
    with a bit map in its header.  A [Chunk*] is the index of the chunk in
    [chunks_], a [char*] the offset from [shm_file_.Data()], the header of
    chunk [i] is at [i * kChunkSize].  The template parameter
    [PERFECT_FIT_MOD] is the argument [pf]; [meta_] are the [int]s that [New]
    writes in front of a block when it is false. *)

From stdpp Require Import base numbers list gmap.
From Stdlib Require Import ZArith Lia.
From S2P Require Import Prelude BitMap.

Module MemoryPool.

Definition kChunkSize : Z := 2 * 1024 * 1024.
Definition kMetaDataSize : Z := 8.

(** [sizeof(ChunkHeader)]: [bool], two [int]s, [bool], aligned to 8. *)
Definition sizeof_ChunkHeader : Z := 16.

(** ** Chunk *)

Record chunk := Build_chunk {
  (* ChunkHeader, in the file *)
  is_used : bool;
  slab_size_ : Z;
  nr_entries_ : Z;
  bitmap_ : BitMap.bitmap;
  (* the object *)
  data_ : option Z;
  is_recovered : bool;
  allocated_entries_ : Z;
  chunk_id_ : Z
}.

Definition header_ (c : chunk) : Z := chunk_id_ c * kChunkSize.

Definition HeaderSize (nr_entries : Z) : outcome Z :=
  m ← BitMap.MemorySize nr_entries;
  Ret (u64 (sizeof_ChunkHeader + m)).

(** [Chunk(char *chunk_start, uint64 chunk_id)] on the header in the file. *)
Definition attach (c : chunk) (chunk_id : Z) : chunk :=
  {| is_used := is_used c; slab_size_ := slab_size_ c; nr_entries_ := nr_entries_ c;
     bitmap_ := bitmap_ c; data_ := None; is_recovered := false; allocated_entries_ := 0;
     chunk_id_ := chunk_id |}.

Definition chunk_Initialize (c : chunk) : chunk :=
  {| is_used := false; slab_size_ := slab_size_ c; nr_entries_ := nr_entries_ c;
     bitmap_ := bitmap_ c; data_ := data_ c; is_recovered := is_recovered c;
     allocated_entries_ := allocated_entries_ c; chunk_id_ := chunk_id_ c |}.

(** [while (HeaderSize(nr_entries) + nr_entries * slab_size > kChunkSize)
    nr_entries -= 64;] *)
Fixpoint use_loop (fuel : nat) (nr_entries slab_size : Z) : outcome Z :=
  h ← HeaderSize nr_entries;
  if kChunkSize <? u64 (h + i32 (nr_entries * slab_size)) then
    match fuel with
    | O => Err Diverges
    | S fuel' => use_loop fuel' (nr_entries - 64) slab_size
    end
  else Ret nr_entries.

(** [ChunkHeader::Initialize] and the rest of [Use]. *)
Definition Use (c : chunk) (slab_size : Z) : outcome chunk :=
  if slab_size =? 0 then Err Undefined
  else
    let nr_entries := i32 (kChunkSize / u64 slab_size) in
    let nr_entries := nr_entries - Z.rem nr_entries 64 in
    nr_entries ← use_loop (Z.to_nat nr_entries) nr_entries slab_size;
    _ ← CHECK (0 <? nr_entries);
    b ← BitMap.make nr_entries;
    h ← HeaderSize nr_entries;
    Ret {| is_used := true; slab_size_ := slab_size; nr_entries_ := nr_entries;
           bitmap_ := BitMap.Clear_all b; data_ := Some (header_ c + h); is_recovered := true;
           allocated_entries_ := 0; chunk_id_ := chunk_id_ c |}.

Definition Recovery (c : chunk) : outcome chunk :=
  if is_recovered c then Ret c
  else
    h ← HeaderSize (nr_entries_ c);
    Ret {| is_used := is_used c; slab_size_ := slab_size_ c; nr_entries_ := nr_entries_ c;
           bitmap_ := bitmap_ c; data_ := Some (header_ c + h); is_recovered := true;
           allocated_entries_ := BitMap.NumberOfOnes (bitmap_ c); chunk_id_ := chunk_id_ c |}.

Definition Full (c : chunk) : bool := allocated_entries_ c =? nr_entries_ c.

Definition with_bitmap (c : chunk) (b : BitMap.bitmap) (allocated : Z) : chunk :=
  {| is_used := is_used c; slab_size_ := slab_size_ c; nr_entries_ := nr_entries_ c;
     bitmap_ := b; data_ := data_ c; is_recovered := is_recovered c;
     allocated_entries_ := allocated; chunk_id_ := chunk_id_ c |}.

Definition Entry (c : chunk) (entry_id : Z) : outcome Z :=
  data ← deref (data_ c);
  Ret (data + i32 (entry_id * slab_size_ c)).

Definition EntryId (c : chunk) (memory_data : Z) : outcome Z :=
  data ← deref (data_ c);
  Ret (i32 (Z.quot (memory_data - data) (slab_size_ c))).

(** [None] is [nullptr]. *)
Definition Malloc (c : chunk) : outcome (chunk * option Z) :=
  c ← Recovery c;
  let '(b, entry_id) := BitMap.SetZeroPos (bitmap_ c) in
  if entry_id =? -1 then Ret (c, None)
  else
    let c := with_bitmap c b (allocated_entries_ c + 1) in
    p ← Entry c entry_id;
    Ret (c, Some p).

Definition chunk_Free (c : chunk) (memory_data : Z) : outcome chunk :=
  c ← Recovery c;
  e ← EntryId c memory_data;
  Ret (with_bitmap c (BitMap.Clear (bitmap_ c) e) (allocated_entries_ c - 1)).

Definition GetMallocedIds (c : chunk) : outcome (list Z) :=
  let ids := filter (fun i => BitMap.Get (bitmap_ c) i = true) (seqZ 0 (nr_entries_ c)) in
  _ ← CHECK (Z.of_nat (length ids) =? allocated_entries_ c);
  Ret ids.

Fixpoint mapM {A B} (f : A -> outcome B) (l : list A) : outcome (list B) :=
  match l with
  | [] => Ret []
  | a :: l' => b ← f a; bs ← mapM f l'; Ret (b :: bs)
  end.

Definition GetMallocedData (c : chunk) : outcome (list Z) :=
  let ids := filter (fun i => BitMap.Get (bitmap_ c) i = true) (seqZ 0 (nr_entries_ c)) in
  data ← mapM (Entry c) ids;
  _ ← CHECK (Z.of_nat (length data) =? allocated_entries_ c);
  Ret data.

(** ** Pool *)

Record pool := Build_pool {
  chunks_ : list chunk;
  free_chunks_ : list Z;
  size_to_chunks_ : gmap Z (list Z);
  size_to_last_used_chunk_ : gmap Z Z;
  allocated_slab_sizes_ : list Z;
  total_malloc_ : Z;
  meta_ : gmap Z Z
}.

#[export] Instance chunk_inhabited : Inhabited chunk :=
  populate {| is_used := false; slab_size_ := 0; nr_entries_ := 0;
              bitmap_ := {| BitMap.n := 0; BitMap.bits := [] |}; data_ := None;
              is_recovered := false; allocated_entries_ := 0; chunk_id_ := 0 |}.

Definition at_ (p : pool) (i : Z) : chunk := chunks_ p !!! Z.to_nat i.

Definition with_chunk (p : pool) (i : Z) (c : chunk) : pool :=
  {| chunks_ := <[Z.to_nat i := c]> (chunks_ p); free_chunks_ := free_chunks_ p;
     size_to_chunks_ := size_to_chunks_ p; size_to_last_used_chunk_ := size_to_last_used_chunk_ p;
     allocated_slab_sizes_ := allocated_slab_sizes_ p; total_malloc_ := total_malloc_ p;
     meta_ := meta_ p |}.

Definition with_total (p : pool) (t : Z) : pool :=
  {| chunks_ := chunks_ p; free_chunks_ := free_chunks_ p;
     size_to_chunks_ := size_to_chunks_ p; size_to_last_used_chunk_ := size_to_last_used_chunk_ p;
     allocated_slab_sizes_ := allocated_slab_sizes_ p; total_malloc_ := t; meta_ := meta_ p |}.

Definition with_meta (p : pool) (m : gmap Z Z) : pool :=
  {| chunks_ := chunks_ p; free_chunks_ := free_chunks_ p;
     size_to_chunks_ := size_to_chunks_ p; size_to_last_used_chunk_ := size_to_last_used_chunk_ p;
     allocated_slab_sizes_ := allocated_slab_sizes_ p; total_malloc_ := total_malloc_ p; meta_ := m |}.

(** The loop of the constructor over the chunks of an existing file. *)
Fixpoint recover_loop (ids : list Z) (p : pool) : outcome pool :=
  match ids with
  | [] => Ret p
  | i :: ids' =>
      let each := at_ p i in
      if is_used each then
        l ← deref (size_to_chunks_ p !! slab_size_ each);
        c ← Recovery each;
        recover_loop ids'
          {| chunks_ := <[Z.to_nat i := c]> (chunks_ p); free_chunks_ := free_chunks_ p;
             size_to_chunks_ := <[slab_size_ each := l ++ [i]]> (size_to_chunks_ p);
             size_to_last_used_chunk_ := size_to_last_used_chunk_ p;
             allocated_slab_sizes_ := allocated_slab_sizes_ p;
             total_malloc_ := total_malloc_ p + allocated_entries_ c; meta_ := meta_ p |}
      else
        recover_loop ids'
          {| chunks_ := chunks_ p; free_chunks_ := free_chunks_ p ++ [i];
             size_to_chunks_ := size_to_chunks_ p;
             size_to_last_used_chunk_ := size_to_last_used_chunk_ p;
             allocated_slab_sizes_ := allocated_slab_sizes_ p;
             total_malloc_ := total_malloc_ p; meta_ := meta_ p |}
  end.

(** The constructor, on the headers ([file]) and the metadata of the file;
    [slab_sizes] in increasing order, as [std::set] keeps them.  [Valid()] is
    [true]. *)
Definition open (file : list chunk) (meta : gmap Z Z) (file_exists : bool) (memory_size : Z)
    (slab_sizes : list Z) : outcome pool :=
  let nr_chunks := memory_size / kChunkSize in
  _ ← CHECK (Z.of_nat (length slab_sizes) <=? nr_chunks);
  let chunks := (fun i => attach (file !!! Z.to_nat i) i) <$> seqZ 0 nr_chunks in
  let queues := list_to_map ((fun slab => (slab, [])) <$> slab_sizes) in
  if file_exists then
    recover_loop (seqZ 0 nr_chunks)
      {| chunks_ := chunks; free_chunks_ := []; size_to_chunks_ := queues;
         size_to_last_used_chunk_ := ∅; allocated_slab_sizes_ := slab_sizes; total_malloc_ := 0;
         meta_ := meta |}
  else
    Ret {| chunks_ := chunk_Initialize <$> chunks; free_chunks_ := seqZ 0 nr_chunks;
           size_to_chunks_ := queues; size_to_last_used_chunk_ := ∅;
           allocated_slab_sizes_ := slab_sizes; total_malloc_ := 0; meta_ := meta |}.

(** The scan over the chunks of a size: the first that is not full. *)
Definition first_not_full (p : pool) (ids : list Z) : option Z :=
  snd <$> list_find (fun i => Full (at_ p i) = false) ids.

(** The three branches of [NewInternal]: the last used chunk, a fresh one, and
    the scan. *)
Definition new_last (p : pool) (i : Z) : outcome (pool * option Z) :=
  '(c, r) ← Malloc (at_ p i);
  _ ← CHECK (match r with Some _ => true | None => false end);
  Ret (with_chunk p i c, r).

Definition new_fresh (p : pool) (slab_size front : Z) (rest : list Z) : outcome (pool * option Z) :=
  c ← Use (at_ p front) slab_size;
  chunks ← deref (size_to_chunks_ p !! slab_size);
  '(c, r) ← Malloc c;
  Ret ({| chunks_ := <[Z.to_nat front := c]> (chunks_ p); free_chunks_ := rest;
          size_to_chunks_ := <[slab_size := chunks ++ [front]]> (size_to_chunks_ p);
          size_to_last_used_chunk_ := <[slab_size := front]> (size_to_last_used_chunk_ p);
          allocated_slab_sizes_ := allocated_slab_sizes_ p;
          total_malloc_ := total_malloc_ p; meta_ := meta_ p |}, r).

Definition new_scan (p : pool) (slab_size : Z) : outcome (pool * option Z) :=
  chunks ← deref (size_to_chunks_ p !! slab_size);
  match first_not_full p chunks with
  | Some i => '(c, r) ← Malloc (at_ p i); Ret (with_chunk p i c, r)
  | None => Err LogFatal
  end.

(** From the label [final] on. *)
Definition new_final (r : pool * option Z) : outcome (pool * Z) :=
  match r.2 with
  | Some ptr => Ret (with_total r.1 (total_malloc_ r.1 + 1), ptr)
  | None => Err CheckFailed
  end.

Definition NewInternal (p : pool) (slab_size : Z) : outcome (pool * Z) :=
  let last := size_to_last_used_chunk_ p !! slab_size in
  let usable := match last with Some i => negb (Full (at_ p i)) | None => false end in
  r ← match last, usable, free_chunks_ p with
      | Some i, true, _ => new_last p i
      | _, _, front :: rest => new_fresh p slab_size front rest
      | _, _, [] => new_scan p slab_size
      end;
  new_final r.

(** [allocated_slab_sizes_.lower_bound(x)] *)
Definition lower_bound (l : list Z) (x : Z) : option Z := snd <$> list_find (fun s => x <= s) l.

Definition New (pf : bool) (p : pool) (memory_size : Z) : outcome (pool * Z) :=
  if pf then NewInternal p memory_size
  else
    match lower_bound (allocated_slab_sizes_ p) (kMetaDataSize + memory_size) with
    | None => Err CheckFailed
    | Some slab =>
        '(p, ptr) ← NewInternal p slab;
        Ret (with_meta p (<[ptr := memory_size]> (meta_ p)), ptr + kMetaDataSize)
    end.

(** [GetChunkID]: the division is one of [uint64_t]s. *)
Definition GetChunkID (offset : Z) : Z := i64 (u64 offset / kChunkSize).

Definition Free (pf : bool) (p : pool) (memory_data : Z) : outcome (pool * bool) :=
  let memory_data := if pf then memory_data else memory_data - kMetaDataSize in
  let chunk_id := i32 (GetChunkID memory_data) in
  if (0 <=? chunk_id) && (chunk_id <? Z.of_nat (length (chunks_ p))) then
    c ← chunk_Free (at_ p chunk_id) memory_data;
    Ret (with_total (with_chunk p chunk_id c) (total_malloc_ p - 1), true)
  else Ret (p, false).

Definition GetMallocsAppend (pf : bool) (p : pool) : outcome (list Z) :=
  l ← mapM GetMallocedData (chunks_ p);
  Ret ((fun each => if pf then each else each + kMetaDataSize) <$> concat l).

Definition GetMallocData (p : pool) (offset : Z) : Z := offset.

Definition GetMallocOffset (p : pool) (data : Z) : outcome Z :=
  _ ← CHECK (Z.shiftl (Z.shiftr data 3) 3 =? data);
  Ret data.

Definition GetMallocSize (pf : bool) (p : pool) (data : Z) : outcome Z :=
  if pf then
    c ← deref (chunks_ p !! Z.to_nat (GetChunkID data));
    Ret (slab_size_ c)
  else Ret (default 0 (meta_ p !! (data - kMetaDataSize))).

Definition total_malloc (p : pool) : Z := u64 (total_malloc_ p).

Definition Initialize (p : pool) : pool := p.

Definition Healthy (p : pool) : bool := true.

Definition AddMallocs4Recovery (p : pool) (shm_offset : Z) : pool := p.
End MemoryPool.
