(* ===== verification/MemoryPoolInv.v ===== *)
(** * PersistMemoryPool: the invariant

    A used chunk has its slabs inside its 2 MB, its bit map says which slabs
    are allocated, and [allocated_entries_] counts them; the queues partition
    the chunks; [total_malloc_] is the number of allocated blocks.  The lemmas
    here are about single chunks and about the pool with one chunk replaced. *)

From stdpp Require Import base numbers list gmap.
From Stdlib Require Import ZArith Lia.
From S2P Require Import Prelude BitMap MemoryPool.

Section Inv.
Import MemoryPool.
Implicit Types (c : chunk) (p : pool) (i e s : Z).

(** The size of the header of a chunk with [nr] entries. *)
Definition hs (nr : Z) : Z := 24 + nr / 8.

Definition entry_ptr i c e : Z := i * kChunkSize + hs (nr_entries_ c) + e * slab_size_ c.

(** What is in the file for a used chunk. *)
Record header_ok c : Prop := {
  ho_slab : 0 < slab_size_ c;
  ho_nr : 0 < nr_entries_ c;
  ho_div : nr_entries_ c mod 64 = 0;
  ho_fit : hs (nr_entries_ c) + nr_entries_ c * slab_size_ c <= kChunkSize;
  ho_bm : bitmap_wf (bitmap_ c);
  ho_n : BitMap.n (bitmap_ c) = nr_entries_ c
}.

Record used_ok i c : Prop := {
  uo_header : header_ok c;
  uo_data : data_ c = Some (i * kChunkSize + hs (nr_entries_ c));
  uo_rec : is_recovered c = true;
  uo_alloc : allocated_entries_ c = Z.of_nat (length (ones (bitmap_ c)))
}.

Definition chunk_ok i c : Prop := chunk_id_ c = i /\ (is_used c = true -> used_ok i c).

(** The allocated blocks: address and size. *)
Definition blocks i c : list (Z * Z) :=
  if is_used c then (fun e => (entry_ptr i c e, slab_size_ c)) <$> ones (bitmap_ c) else [].

Definition live p : list (Z * Z) := concat (imap (fun (j : nat) c => blocks (Z.of_nat j) c) (chunks_ p)).

Definition npool p : Z := Z.of_nat (length (chunks_ p)).

Record pool_wf p : Prop := {
  pw_len : npool p < 2 ^ 31;
  pw_chunk : forall i, 0 <= i < npool p -> chunk_ok i (at_ p i);
  pw_free_nd : NoDup (free_chunks_ p);
  pw_free : forall i, i ∈ free_chunks_ p <-> 0 <= i < npool p /\ is_used (at_ p i) = false;
  pw_queue : forall s l, size_to_chunks_ p !! s = Some l ->
    forall i, i ∈ l <-> 0 <= i < npool p /\ is_used (at_ p i) = true /\ slab_size_ (at_ p i) = s;
  pw_dom : forall i, 0 <= i < npool p -> is_used (at_ p i) = true ->
    is_Some (size_to_chunks_ p !! slab_size_ (at_ p i));
  pw_last : forall s i, size_to_last_used_chunk_ p !! s = Some i ->
    0 <= i < npool p /\ is_used (at_ p i) = true /\ slab_size_ (at_ p i) = s;
  pw_total : total_malloc_ p = Z.of_nat (length (live p))
}.

(** ** Headers *)

Lemma HeaderSize_hs nr :
  0 <= nr < 2 ^ 31 -> nr mod 64 = 0 -> HeaderSize nr = Ret (hs nr).
Proof.
  intros Hn Hd. unfold HeaderSize, BitMap.MemorySize. rewrite Z.rem_mod_nonneg, Hd by lia.
  cbn [CHECK Z.eqb mbind outcome_bind]. f_equal. unfold hs, sizeof_ChunkHeader, BitMap.sizeof_BitMap.
  rewrite Z.quot_div_nonneg by lia. pose proof (Z.div_mod nr 64 ltac:(lia)).
  assert (Hq : 0 <= nr / 64 < 2 ^ 31) by (split; [apply Z.div_pos; lia|apply Z.div_lt_upper_bound; lia]).
  rewrite (u64_small (nr / 64)) by lia. rewrite (u64_small (8 + _)) by lia.
  rewrite u64_small by lia. replace (nr / 8) with (nr / 64 * 8); [lia|].
  apply Z.div_unique with 0; lia.
Qed.

Lemma hs_bounds nr : 0 <= nr -> 24 <= hs nr <= 24 + nr.
Proof.
  intros Hn. unfold hs. pose proof (Z.div_mod nr 8 ltac:(lia)).
  pose proof (Z.mod_pos_bound nr 8 ltac:(lia)). lia.
Qed.

Lemma header_nr_bound c : header_ok c -> nr_entries_ c < 2 ^ 21 /\ slab_size_ c < 2 ^ 21.
Proof.
  intros [Hs Hn Hd Hf Hb _]. unfold kChunkSize in Hf. pose proof (hs_bounds (nr_entries_ c) ltac:(lia)).
  split; nia.
Qed.

(** The loop of [Use] ends with the largest fitting number of entries. *)
Lemma use_loop_spec fuel nr slab :
  0 < slab < 2 ^ 20 -> 0 <= nr <= 2 ^ 21 -> nr mod 64 = 0 -> nr * slab <= 2 ^ 21 ->
  nr <= 64 * Z.of_nat fuel ->
  exists nr', use_loop fuel nr slab = Ret nr' /\ 0 <= nr' <= nr /\ nr' mod 64 = 0 /\
    hs nr' + nr' * slab <= kChunkSize /\
    (nr' < nr -> kChunkSize < hs (nr' + 64) + (nr' + 64) * slab).
Proof.
  intros Hs. revert nr. induction fuel as [|fuel IH]; intros nr Hn Hd Hp Hf.
  - assert (nr = 0) as -> by lia. exists 0. cbn [use_loop]. rewrite HeaderSize_hs by done.
    cbn [mbind outcome_bind]. rewrite (proj2 (Z.ltb_ge _ _)) by (rewrite Z.mul_0_l; by vm_compute).
    split_and!; done.
  - cbn [use_loop]. rewrite HeaderSize_hs by (done || lia). cbn [mbind outcome_bind].
    pose proof (hs_bounds nr ltac:(lia)).
    rewrite i32_small by nia. rewrite u64_small by nia.
    destruct (kChunkSize <? hs nr + nr * slab) eqn:E; b2p.
    + assert (64 <= nr).
      { destruct (decide (nr = 0)) as [->|]; [|pose proof (Z.div_mod nr 64 ltac:(lia)); lia].
        change (hs 0) with 24 in E. unfold kChunkSize in E. lia. }
      destruct (IH (nr - 64)) as (nr' & HI & Hr & Hd' & Hfit & Hmax); [lia| |nia|lia|].
      { rewrite <- (Z.mod_add (nr - 64) 1 64) by lia. by replace (nr - 64 + 1 * 64) with nr by lia. }
      exists nr'. split_and!; try done; try lia. intros _.
      destruct (decide (nr' < nr - 64)); [by apply Hmax|].
      replace (nr' + 64) with nr by lia. done.
    + exists nr. split_and!; try done; try lia.
Qed.

Lemma Use_spec c slab :
  0 < slab <= 32767 ->
  exists c', Use c slab = Ret c' /\ used_ok (chunk_id_ c) c' /\ is_used c' = true /\
    slab_size_ c' = slab /\ chunk_id_ c' = chunk_id_ c /\ ones (bitmap_ c') = [].
Proof.
  intros Hs. unfold Use. rewrite (proj2 (Z.eqb_neq slab 0)) by lia.
  rewrite (u64_small slab) by lia.
  pose proof (Z.div_mod kChunkSize slab ltac:(lia)) as Hdm.
  pose proof (Z.mod_pos_bound kChunkSize slab ltac:(lia)) as Hmb.
  set (q := kChunkSize / slab) in *. set (r := kChunkSize mod slab) in *. clearbody r.
  unfold kChunkSize in Hdm.
  assert (Hq : 64 <= q <= 2 ^ 21) by nia.
  rewrite (i32_small q) by lia. rewrite Z.rem_mod_nonneg by lia.
  pose proof (Z.mod_pos_bound q 64 ltac:(lia)). pose proof (Z.div_mod q 64 ltac:(lia)).
  set (nr0 := q - q mod 64).
  assert (Hnr0 : nr0 mod 64 = 0).
  { unfold nr0. replace (q - q mod 64) with (q / 64 * 64) by lia. apply Z.mod_mul. lia. }
  assert (Hq64 : 1 <= q / 64) by (apply Z.div_le_lower_bound; lia).
  destruct (use_loop_spec (Z.to_nat nr0) nr0 slab) as (nr & -> & Hr & Hd & Hfit & Hmax);
    [lia|lia|done|nia|lia|].
  cbn [mbind outcome_bind].
  assert (Hpos : 0 < nr).
  { destruct (decide (nr = 0)) as [->|]; [|lia]. exfalso.
    specialize (Hmax ltac:(lia)). change (hs (0 + 64)) with 32 in Hmax.
    unfold kChunkSize in Hmax. lia. }
  rewrite (proj2 (Z.ltb_lt 0 nr)) by lia. cbn [CHECK mbind outcome_bind].
  destruct (make_Ret nr Hd ltac:(lia)) as [b Hb]. rewrite Hb. cbn [mbind outcome_bind].
  rewrite HeaderSize_hs by (done || lia). cbn [mbind outcome_bind].
  destruct (make_wf nr b ltac:(lia) Hd Hb) as (Hbw & Hn & Ho).
  rewrite Clear_all_make by done.
  eexists. split; [done|]. split_and!; try done. split; [split; cbn; (done || lia)|done|done|].
  cbn [allocated_entries_ bitmap_]. by rewrite Ho.
Qed.

(** A slab that does not fit sixty-four times in a chunk is refused. *)
Lemma Use_too_large c slab : 32768 <= slab < 2 ^ 31 -> Use c slab = Err CheckFailed.
Proof.
  intros Hs. unfold Use. rewrite (proj2 (Z.eqb_neq slab 0)) by lia.
  rewrite (u64_small slab) by lia.
  assert (Hq : 0 <= kChunkSize / slab <= 64).
  { unfold kChunkSize. split; [apply Z.div_pos; lia|].
    apply Z.div_le_upper_bound; lia. }
  rewrite (i32_small (kChunkSize / slab)) by lia. rewrite Z.rem_mod_nonneg by lia.
  destruct (decide (kChunkSize / slab = 64)) as [E|E].
  - rewrite E. change (64 - 64 mod 64) with 64.
    assert (slab = 32768) as ->.
    { pose proof (Z.div_mod kChunkSize slab ltac:(lia)). rewrite E in H.
      pose proof (Z.mod_pos_bound kChunkSize slab ltac:(lia)). unfold kChunkSize in *. lia. }
    by_eval.
  - rewrite Z.mod_small by lia. rewrite Z.sub_diag. cbn. done.
Qed.

(** ** Allocation and release in a chunk *)

Lemma Full_iff i c :
  used_ok i c -> Full c = false <-> BitMap.FirstZeroPos (bitmap_ c) <> -1.
Proof.
  intros [Hh _ _ Ha]. unfold Full. rewrite Z.eqb_neq, Ha.
  destruct (FirstZeroPos_spec (bitmap_ c) (ho_bm _ Hh)) as [[E Hall]|(Hp & Hg & _)].
  - rewrite E. split; [|done]. intros Hne. exfalso. apply Hne. unfold ones.
    pose proof (ho_nr _ Hh). rewrite list_filter_all, length_seqZ, (ho_n _ Hh) by
      (intros q Hq%elem_of_seqZ; apply Hall; lia). lia.
  - split; [lia|]. intros _. pose proof (ho_nr _ Hh). rewrite <- (ho_n _ Hh) in *. intros Heq.
    pose proof (ones_Set _ _ (ho_bm _ Hh) Hp Hg) as HP.
    pose proof (length_filter (fun q => BitMap.Get (BitMap.Set_ (bitmap_ c) (BitMap.FirstZeroPos (bitmap_ c))) q = true)
      (seqZ 0 (BitMap.n (bitmap_ c)))) as Hl.
    change (filter _ _) with (ones (BitMap.Set_ (bitmap_ c) (BitMap.FirstZeroPos (bitmap_ c)))) in Hl.
    rewrite HP, length_seqZ in Hl. cbn [length] in Hl. lia.
Qed.

Lemma Entry_ptr i c e :
  used_ok i c -> 0 <= e < nr_entries_ c -> Entry c e = Ret (entry_ptr i c e).
Proof.
  intros [Hh Hd _ _] He. unfold Entry, entry_ptr. rewrite Hd. cbn [deref mbind outcome_bind].
  pose proof (header_nr_bound c Hh). pose proof (ho_fit _ Hh). pose proof (ho_slab _ Hh).
  pose proof (hs_bounds (nr_entries_ c) ltac:(lia)). unfold kChunkSize in *.
  rewrite i32_small by nia. done.
Qed.

Lemma EntryId_ptr i c e :
  used_ok i c -> 0 <= e < nr_entries_ c -> EntryId c (entry_ptr i c e) = Ret e.
Proof.
  intros [Hh Hd _ _] He. unfold EntryId, entry_ptr. rewrite Hd. cbn [deref mbind outcome_bind].
  pose proof (header_nr_bound c Hh). pose proof (ho_slab _ Hh).
  replace (_ + e * slab_size_ c - _) with (e * slab_size_ c) by lia.
  rewrite Z.quot_mul by lia. rewrite i32_small by lia. done.
Qed.

Lemma with_bitmap_ok i c b n :
  used_ok i c -> bitmap_wf b -> BitMap.n b = nr_entries_ c -> n = Z.of_nat (length (ones b)) ->
  used_ok i (with_bitmap c b n).
Proof. intros [[] ? ? ?] ? ? ?. by split; [split|..]. Qed.

Lemma blocks_used i c :
  is_used c = true -> blocks i c = (fun e => (entry_ptr i c e, slab_size_ c)) <$> ones (bitmap_ c).
Proof. unfold blocks. by intros ->. Qed.

(** The same chunk but for the bit map and the counter. *)
Definition same_chunk c c' : Prop :=
  is_used c' = is_used c /\ slab_size_ c' = slab_size_ c /\ chunk_id_ c' = chunk_id_ c /\
  nr_entries_ c' = nr_entries_ c.

Lemma Malloc_ok i c :
  used_ok i c -> is_used c = true -> Full c = false ->
  exists c' e, Malloc c = Ret (c', Some (entry_ptr i c e)) /\ 0 <= e < nr_entries_ c /\
    used_ok i c' /\ same_chunk c c' /\
    blocks i c' ≡ₚ (entry_ptr i c e, slab_size_ c) :: blocks i c.
Proof.
  intros Hu Hus HF. pose proof Hu as [Hh Hd Hr Ha]. apply (Full_iff i c Hu) in HF.
  destruct (FirstZeroPos_spec (bitmap_ c) (ho_bm _ Hh)) as [[E _]|(Hp & Hg & _)]; [done|].
  unfold Malloc, Recovery. rewrite Hr. cbn [mbind outcome_bind].
  rewrite SetZeroPos_spec, decide_False by (done || apply (ho_bm _ Hh)).
  set (e := BitMap.FirstZeroPos (bitmap_ c)) in *.
  rewrite (proj2 (Z.eqb_neq e (-1))) by done.
  set (c' := with_bitmap c (BitMap.Set_ (bitmap_ c) e) (allocated_entries_ c + 1)).
  pose proof (ones_Set _ _ (ho_bm _ Hh) Hp Hg) as HP. rewrite (ho_n _ Hh) in Hp.
  assert (Hu' : used_ok i c').
  { apply with_bitmap_ok; [done|apply Set_wf; [apply (ho_bm _ Hh)|by rewrite (ho_n _ Hh)]| |].
    - apply (ho_n _ Hh).
    - rewrite HP, Ha. cbn [length]. lia. }
  exists c', e. rewrite (Entry_ptr i c' e) by done. cbn [mbind outcome_bind].
  split_and!; try done; try lia.
  rewrite !blocks_used by done. change (bitmap_ c') with (BitMap.Set_ (bitmap_ c) e). by rewrite HP.
Qed.

Lemma Free_ok i c e :
  used_ok i c -> is_used c = true -> e ∈ ones (bitmap_ c) ->
  exists c', chunk_Free c (entry_ptr i c e) = Ret c' /\ used_ok i c' /\ same_chunk c c' /\
    blocks i c ≡ₚ (entry_ptr i c e, slab_size_ c) :: blocks i c'.
Proof.
  intros Hu Hus [Hg He]%elem_of_ones. pose proof Hu as [Hh Hd Hr Ha].
  unfold chunk_Free, Recovery. rewrite Hr. cbn [mbind outcome_bind].
  pose proof (ones_Clear _ _ (ho_bm _ Hh) He Hg) as HP.
  assert (He' : 0 <= e < nr_entries_ c) by (by rewrite <- (ho_n _ Hh)).
  rewrite (EntryId_ptr i c e Hu He'). cbn [mbind outcome_bind].
  eexists. split; [done|]. split_and!; try done.
  - apply with_bitmap_ok; [done|apply Clear_wf; [apply (ho_bm _ Hh)|done]|apply (ho_n _ Hh)|].
    rewrite Ha, HP. cbn [length]. lia.
  - rewrite !blocks_used by done. rewrite HP at 1. done.
Qed.

(** ** The pool with one chunk replaced *)

Lemma pool_at_lookup p i : 0 <= i < npool p -> chunks_ p !! Z.to_nat i = Some (at_ p i).
Proof. intros Hi. unfold at_. apply list_lookup_lookup_total_lt. unfold npool in Hi. lia. Qed.

Lemma at_insert p i j c :
  0 <= i < npool p -> 0 <= j -> <[Z.to_nat i := c]> (chunks_ p) !!! Z.to_nat j =
  if decide (j = i) then c else at_ p j.
Proof.
  intros Hi Hj. unfold npool in Hi. case_decide as E.
  - subst. apply list_lookup_total_insert_eq. lia.
  - apply list_lookup_total_insert_ne. lia.
Qed.

Lemma live_insert p i c :
  0 <= i < npool p ->
  exists rest, live p ≡ₚ blocks i (at_ p i) ++ rest /\
    concat (imap (fun (j : nat) c => blocks (Z.of_nat j) c) (<[Z.to_nat i := c]> (chunks_ p)))
      ≡ₚ blocks i c ++ rest.
Proof.
  intros Hi. unfold live. rewrite imap_insert.
  destruct (concat_insert_perm (imap (fun (j : nat) c => blocks (Z.of_nat j) c) (chunks_ p)) (Z.to_nat i)
    (blocks i (at_ p i))) as (rest & H1 & H2).
  { rewrite list_lookup_imap, pool_at_lookup by done. cbn. by rewrite Z2Nat.id by lia. }
  exists rest. rewrite Z2Nat.id by lia. auto.
Qed.

(** A chunk changed by an allocation ([k = 1]) or a release ([k = -1]). *)
Lemma with_chunk_wf p i c k :
  pool_wf p -> 0 <= i < npool p -> is_used (at_ p i) = true ->
  used_ok i c -> same_chunk (at_ p i) c ->
  k = Z.of_nat (length (blocks i c)) - Z.of_nat (length (blocks i (at_ p i))) ->
  pool_wf (with_total (with_chunk p i c) (total_malloc_ p + k)).
Proof.
  intros Hp Hi Hus Hc (E1 & E2 & E3 & _) Hk.
  assert (Hat : forall j, 0 <= j -> at_ (with_total (with_chunk p i c) (total_malloc_ p + k)) j
    = if decide (j = i) then c else at_ p j).
  { intros j Hj. apply (at_insert p i j c Hi Hj). }
  assert (Hn : npool (with_total (with_chunk p i c) (total_malloc_ p + k)) = npool p).
  { unfold npool. cbn. by rewrite length_insert. }
  assert (Hsame : forall j, 0 <= j < npool p ->
    is_used (at_ (with_total (with_chunk p i c) (total_malloc_ p + k)) j) = is_used (at_ p j) /\
    slab_size_ (at_ (with_total (with_chunk p i c) (total_malloc_ p + k)) j) = slab_size_ (at_ p j)).
  { intros j Hj. rewrite Hat by lia. case_decide; [subst; by rewrite E1, E2|done]. }
  destruct Hp as [Hlen Hch Hfn Hfr Hq Hdom Hlast Htot]. split; rewrite ?Hn.
  - done.
  - intros j Hj. rewrite Hat by lia. case_decide; [subst|by apply Hch].
    split; [|done]. rewrite E3. apply (Hch i Hj).
  - exact Hfn.
  - intros j. cbn [free_chunks_ with_total with_chunk]. rewrite Hfr.
    split; intros [Hj Hu]; destruct (Hsame j Hj) as [Hs _]; (split; [done|congruence]).
  - intros s l Hl j. rewrite (Hq s l Hl j).
    split; intros (Hj & Hu & Hs); destruct (Hsame j Hj) as [Hs1 Hs2]; (split_and!; [lia|lia|congruence..]).
  - intros j Hj Hu. destruct (Hsame j Hj) as [Hs1 Hs2]. rewrite Hs2. apply Hdom; [done|congruence].
  - intros s j Hl. destruct (Hlast s j Hl) as (Hj & Hu & Hs). destruct (Hsame j Hj) as [Hs1 Hs2].
    split_and!; [lia|lia|congruence..].
  - destruct (live_insert p i c Hi) as (rest & H1 & H2). rewrite H1, length_app in Htot.
    unfold live. cbn [chunks_ total_malloc_ with_total with_chunk].
    rewrite H2, length_app. lia.
Qed.

(** ** The blocks that still fit

    A chunk in use has room for blocks of its own size, a free chunk for as
    many as [Use] puts there. *)

Definition per_chunk (slab : Z) : Z :=
  match Use inhabitant slab with Ret c => nr_entries_ c | Err _ => 0 end.

Definition chunk_room (slab : Z) c : Z :=
  if is_used c then if slab_size_ c =? slab then nr_entries_ c - allocated_entries_ c else 0
  else per_chunk slab.

Definition pool_room p (slab : Z) : Z := sumZ (chunk_room slab) (chunks_ p).

Lemma Use_per_chunk c slab c' : Use c slab = Ret c' -> nr_entries_ c' = per_chunk slab.
Proof.
  unfold per_chunk, Use. destruct (slab =? 0); [done|].
  destruct (use_loop _ _ _) as [nr|]; [|done]. cbn [mbind outcome_bind].
  destruct (CHECK _); [|done]. cbn [mbind outcome_bind]. destruct (BitMap.make nr); [|done]. cbn [mbind outcome_bind].
  destruct (HeaderSize nr); [|done]. cbn [mbind outcome_bind]. intros H. injection H as <-. done.
Qed.

Lemma per_chunk_bounds slab : 0 < slab <= 32767 ->
  0 < per_chunk slab /\ per_chunk slab mod 64 = 0 /\ hs (per_chunk slab) + per_chunk slab * slab <= kChunkSize.
Proof.
  intros Hs. destruct (Use_spec inhabitant slab Hs) as (c & HU & [Hh _ _ _] & _ & Hsl & _).
  rewrite <- (Use_per_chunk _ _ _ HU). destruct Hh as [_ Hn Hd Hf _ _]. by rewrite Hsl in Hf.
Qed.

Lemma allocated_entries_bound i c : used_ok i c -> 0 <= allocated_entries_ c <= nr_entries_ c.
Proof.
  intros [Hh _ _ ->]. pose proof (ho_nr _ Hh). unfold ones.
  pose proof (length_filter (fun q => BitMap.Get (bitmap_ c) q = true) (seqZ 0 (BitMap.n (bitmap_ c)))) as Hl.
  rewrite length_seqZ in Hl. rewrite (ho_n _ Hh) in *. lia.
Qed.

Lemma chunk_room_nonneg slab i c : 0 < slab <= 32767 -> chunk_ok i c -> 0 <= chunk_room slab c.
Proof.
  intros Hs [_ Hc]. unfold chunk_room. pose proof (per_chunk_bounds slab Hs).
  destruct (is_used c); [|lia]. pose proof (allocated_entries_bound i c (Hc eq_refl)). destruct (_ =? _); lia.
Qed.

(** One block more in a chunk. *)
Lemma chunk_room_malloc i c c' b :
  used_ok i c -> used_ok i c' -> is_used c = true -> same_chunk c c' -> blocks i c' ≡ₚ b :: blocks i c ->
  chunk_room (slab_size_ c) c' = chunk_room (slab_size_ c) c - 1.
Proof.
  intros Hc Hc' Hu (E1 & E2 & _ & E4) HP. unfold chunk_room. rewrite E1, E2, E4, Hu, Z.eqb_refl.
  rewrite (uo_alloc _ _ Hc), (uo_alloc _ _ Hc'). rewrite !blocks_used in HP by congruence.
  apply Permutation_length in HP. cbn [length] in HP. rewrite !length_fmap in HP. lia.
Qed.

Lemma pool_room_nonneg p slab : pool_wf p -> 0 < slab <= 32767 -> 0 <= pool_room p slab.
Proof.
  intros Hp Hs. apply sumZ_nonneg. intros c (i & Hi)%list_elem_of_lookup.
  pose proof (lookup_lt_Some _ _ _ Hi). apply (chunk_room_nonneg slab (Z.of_nat i)); [done|].
  pose proof (pw_chunk _ Hp (Z.of_nat i)) as Hc. unfold at_, npool in Hc. rewrite Nat2Z.id in Hc.
  rewrite (list_lookup_total_correct _ _ _ Hi) in Hc. apply Hc. lia.
Qed.

Lemma pool_room_insert p p' i c slab :
  0 <= i < npool p -> chunks_ p' = <[Z.to_nat i := c]> (chunks_ p) ->
  pool_room p' slab = pool_room p slab - chunk_room slab (at_ p i) + chunk_room slab c.
Proof. intros Hi E. unfold pool_room. rewrite E. by apply sumZ_insert, pool_at_lookup. Qed.
End Inv.
