(* ===== verification/MemoryPoolSpec.v ===== *)
(** * PersistMemoryPool: allocation, release, recovery

    [NewInternal] on each of its branches, [Free], the disjointness of the
    allocated blocks, and the reconstruction of the pool from the chunk
    headers.  [live] is the list of allocated blocks. *)

From stdpp Require Import base numbers list gmap.
From Stdlib Require Import ZArith Lia.
From S2P Require Import Prelude BitMap MemoryPool MemoryPoolInv.

Section Spec.
Import MemoryPool.
Implicit Types (c : chunk) (p : pool) (i e s slab : Z).

(** What an allocation of a block of [slab] bytes leaves. *)
Record allocated p p' ptr slab : Prop := {
  al_wf : pool_wf p';
  al_live : live p' ≡ₚ (ptr, slab) :: live p;
  al_sizes : allocated_slab_sizes_ p' = allocated_slab_sizes_ p;
  al_meta : meta_ p' = meta_ p;
  al_num : npool p' = npool p;
  al_dom : forall s, is_Some (size_to_chunks_ p !! s) -> is_Some (size_to_chunks_ p' !! s);
  al_room : pool_room p' slab = pool_room p slab - 1
}.

Lemma malloc_in p i slab :
  pool_wf p -> 0 <= i < npool p -> is_used (at_ p i) = true -> slab_size_ (at_ p i) = slab ->
  Full (at_ p i) = false ->
  exists c ptr, Malloc (at_ p i) = Ret (c, Some ptr) /\
    allocated p (with_total (with_chunk p i c) (total_malloc_ p + 1)) ptr slab.
Proof.
  intros Hp Hi Hus Hs HF. pose proof (proj2 (pw_chunk _ Hp i Hi) Hus) as Hu.
  destruct (Malloc_ok i (at_ p i) Hu Hus HF) as (c & e & HM & He & Hu' & Hsame & HP).
  exists c, (entry_ptr i (at_ p i) e). split; [done|]. split; try done.
  - apply with_chunk_wf; try done. rewrite HP. cbn [length]. lia.
  - destruct (live_insert p i c Hi) as (rest & H1 & H2).
    unfold live at 1. cbn [chunks_ with_total with_chunk]. by rewrite H2, H1, HP, Hs.
  - unfold npool. cbn. by rewrite length_insert.
  - rewrite (pool_room_insert p (with_total (with_chunk p i c) _) i c slab Hi eq_refl), <- Hs.
    rewrite (chunk_room_malloc i (at_ p i) c (entry_ptr i (at_ p i) e, slab_size_ (at_ p i))) by done. lia.
Qed.

(** The pool after the first free chunk has become [c'], a chunk in use for
    blocks of [slab] bytes. *)
Section TakeFront.
Context (p : pool) (front : Z) (rest : list Z) (slab : Z) (q : list Z) (c' : chunk) (n : Z).
Context (Hp : pool_wf p) (Hfree : free_chunks_ p = front :: rest) (Hq : size_to_chunks_ p !! slab = Some q).
Context (Hok : chunk_ok front c') (Hus : is_used c' = true) (Hsl : slab_size_ c' = slab).

Definition front_taken : pool :=
  {| chunks_ := <[Z.to_nat front := c']> (chunks_ p); free_chunks_ := rest;
     size_to_chunks_ := <[slab := q ++ [front]]> (size_to_chunks_ p);
     size_to_last_used_chunk_ := <[slab := front]> (size_to_last_used_chunk_ p);
     allocated_slab_sizes_ := allocated_slab_sizes_ p; total_malloc_ := n; meta_ := meta_ p |}.

Lemma front_free : 0 <= front < npool p /\ is_used (at_ p front) = false.
Proof using Hp Hfree. apply (pw_free _ Hp). rewrite Hfree. apply elem_of_cons. by left. Qed.

Lemma front_at j : 0 <= j -> at_ front_taken j = if decide (j = front) then c' else at_ p j.
Proof using Hp Hfree. intros Hj. apply (at_insert p front j c'); [apply front_free|done]. Qed.

Lemma front_queue s l j : size_to_chunks_ front_taken !! s = Some l ->
  j ∈ l <-> 0 <= j < npool p /\ is_used (at_ front_taken j) = true /\ slab_size_ (at_ front_taken j) = s.
Proof using Hp Hfree Hq Hus Hsl.
  destruct front_free as [Hi Hun]. pose proof front_at as Hat. intros Hl. cbn [size_to_chunks_ front_taken] in Hl.
  assert (Hcase : forall l0, size_to_chunks_ p !! s = Some l0 -> j <> front ->
    j ∈ l0 <-> 0 <= j < npool p /\ is_used (at_ front_taken j) = true /\ slab_size_ (at_ front_taken j) = s).
  { intros l0 Hl0 Hne. rewrite (pw_queue _ Hp s l0 Hl0 j).
    split; intros (Hr & H1 & H2); (split; [done|]); [rewrite Hat, decide_False by lia; done|].
    rewrite Hat, decide_False in H1, H2 by lia. done. }
  destruct (decide (s = slab)) as [->|Hne].
  - rewrite lookup_insert_eq in Hl. injection Hl as <-. rewrite elem_of_app, list_elem_of_singleton.
    destruct (decide (j = front)) as [->|Hjf].
    + split; [|by right]. intros _. split; [done|]. rewrite Hat, decide_True by lia. split; congruence.
    + rewrite (Hcase q Hq Hjf). naive_solver.
  - rewrite lookup_insert_ne in Hl by done. destruct (decide (j = front)) as [->|Hjf]; [|by apply Hcase].
    rewrite (pw_queue _ Hp s l Hl front). split; [intros (_ & ? & _); congruence|].
    rewrite Hat, decide_True by lia. intros (_ & _ & ?). congruence.
Qed.

Lemma front_taken_wf : n = Z.of_nat (length (live front_taken)) -> pool_wf front_taken.
Proof using Hp Hfree Hq Hok Hus Hsl.
  destruct front_free as [Hi Hun]. pose proof front_at as Hat. intros Hn.
  assert (Hnp : npool front_taken = npool p) by (unfold npool; cbn; by rewrite length_insert).
  pose proof (pw_free_nd _ Hp) as Hnd. rewrite Hfree in Hnd. apply NoDup_cons in Hnd as [Hnin Hnd].
  split; rewrite ?Hnp; try done.
  - apply (pw_len _ Hp).
  - intros j Hj. rewrite Hat by lia. case_decide; [by subst|by apply (pw_chunk _ Hp)].
  - intros j. cbn [free_chunks_ front_taken]. split.
    + intros Hj. assert (Hne : j <> front) by (intros ->; done).
      assert (j ∈ free_chunks_ p) as [Hr Hu0]%(pw_free _ Hp) by (rewrite Hfree; set_solver).
      split; [done|]. by rewrite Hat, decide_False by lia.
    + intros [Hr Hu0]. rewrite Hat in Hu0 by lia. case_decide as E; [subst; congruence|].
      assert (Hj : j ∈ free_chunks_ p) by (by apply (pw_free _ Hp)). rewrite Hfree in Hj. set_solver.
  - intros s l Hl j. by apply front_queue.
  - intros j Hj Hu0. rewrite Hat in Hu0 |- * by lia. cbn [size_to_chunks_ front_taken]. case_decide as E.
    + rewrite Hsl, lookup_insert_eq. eauto.
    + pose proof (pw_dom _ Hp j Hj Hu0). destruct (decide (slab = slab_size_ (at_ p j))) as [<-|];
        [rewrite lookup_insert_eq; eauto|by rewrite lookup_insert_ne].
  - intros s j Hl. cbn [size_to_last_used_chunk_ front_taken] in Hl.
    apply lookup_insert_Some in Hl as [[<- <-]|[Hne Hl]].
    + split; [done|]. rewrite Hat, decide_True by lia. split; congruence.
    + destruct (pw_last _ Hp s j Hl) as (Hj & Hu0 & Hs0). split; [done|]. rewrite Hat by lia.
      case_decide; [subst; congruence|done].
Qed.
End TakeFront.

(** The chunk taken from the free list. *)
Lemma take_free p front rest slab q :
  pool_wf p -> free_chunks_ p = front :: rest -> 0 < slab <= 32767 ->
  size_to_chunks_ p !! slab = Some q ->
  exists c c' ptr, Use (at_ p front) slab = Ret c /\ Malloc c = Ret (c', Some ptr) /\
    allocated p (front_taken p front rest slab q c' (total_malloc_ p + 1)) ptr slab.
Proof.
  intros Hp Hfree Hs Hq. destruct (front_free p front rest Hp Hfree) as [Hi Hun].
  destruct (pw_chunk _ Hp front Hi) as [Hid _].
  destruct (Use_spec (at_ p front) slab Hs) as (c & HU & Hu & Hus & Hsl & Hid' & Ho).
  rewrite Hid in Hu.
  assert (HF : Full c = false).
  { unfold Full. apply Z.eqb_neq. rewrite (uo_alloc _ _ Hu), Ho.
    pose proof (ho_nr _ (uo_header _ _ Hu)). cbn. lia. }
  destruct (Malloc_ok front c Hu Hus HF) as (c' & e & HM & He & Hu' & Hsame & HP).
  pose proof Hsame as (E1 & E2 & E3 & _).
  exists c, c', (entry_ptr front c e). split; [done|]. split; [done|].
  set (p' := front_taken p front rest slab q c' (total_malloc_ p + 1)).
  assert (Hb : blocks front c = []) by (rewrite blocks_used, Ho by done; done).
  assert (Hlive : live p' ≡ₚ (entry_ptr front c e, slab) :: live p).
  { destruct (live_insert p front c' Hi) as (r & H1 & H2). unfold live at 1. cbn [chunks_ p' front_taken].
    rewrite H2, HP, H1, Hb, Hsl. unfold blocks. by rewrite Hun. }
  split; try done.
  - apply front_taken_wf; try done; [split; [congruence|done]|congruence|congruence|].
    fold p'. rewrite Hlive, (pw_total _ Hp). cbn [length]. lia.
  - unfold npool. cbn. by rewrite length_insert.
  - intros s Hsome. cbn [size_to_chunks_ p' front_taken]. destruct (decide (s = slab)) as [->|];
      [rewrite lookup_insert_eq; eauto|by rewrite lookup_insert_ne].
  - rewrite (pool_room_insert p p' front c' slab Hi eq_refl), <- Hsl.
    rewrite (chunk_room_malloc front c c' (entry_ptr front c e, slab_size_ c)) by done. unfold chunk_room.
    rewrite Hun, Hus, Z.eqb_refl, (uo_alloc _ _ Hu), Ho, Hsl, (Use_per_chunk _ _ _ HU). cbn [length]. lia.
Qed.

(** All chunks of a slab size are full. *)
Definition exhausted p slab : Prop :=
  free_chunks_ p = [] /\
  forall i, 0 <= i < npool p -> is_used (at_ p i) = true -> slab_size_ (at_ p i) = slab ->
    Full (at_ p i) = true.

Lemma exhausted_room p slab : pool_wf p -> exhausted p slab -> pool_room p slab = 0.
Proof.
  intros Hp [Hf HF]. unfold pool_room. rewrite (sumZ_const _ _ 0); [lia|].
  intros c (i & Hi)%list_elem_of_lookup. pose proof (lookup_lt_Some _ _ _ Hi).
  assert (Hat : at_ p (Z.of_nat i) = c) by (unfold at_; rewrite Nat2Z.id; by apply list_lookup_total_correct).
  assert (Hr : 0 <= Z.of_nat i < npool p) by (unfold npool; lia).
  unfold chunk_room. rewrite <- Hat. destruct (is_used (at_ p (Z.of_nat i))) eqn:Hu.
  - destruct (_ =? slab) eqn:E; b2p; [|done]. pose proof (HF _ Hr Hu E) as Hfull. unfold Full in Hfull. b2p. lia.
  - assert (Z.of_nat i ∈ free_chunks_ p) as Hin by (by apply (pw_free _ Hp)). rewrite Hf in Hin. by apply not_elem_of_nil in Hin.
Qed.

Lemma new_scan_total p slab :
  pool_wf p -> free_chunks_ p = [] -> is_Some (size_to_chunks_ p !! slab) ->
  (exists p' ptr, (r ← new_scan p slab; new_final r) = Ret (p', ptr) /\ allocated p p' ptr slab) \/
  (new_scan p slab = Err LogFatal /\ exhausted p slab).
Proof.
  intros Hp Hfree [q Hq]. unfold new_scan. rewrite Hq. cbn [deref mbind outcome_bind].
  unfold first_not_full.
  destruct (list_find _ q) as [[k i]|] eqn:E; cbn [fmap option_fmap option_map snd].
  - left. apply list_find_Some in E as (Hk & HF & _). apply list_elem_of_lookup_2 in Hk.
    apply (pw_queue _ Hp slab q Hq) in Hk as (Hi & Hu & Hsl).
    destruct (malloc_in p i slab Hp Hi Hu Hsl HF) as (c & ptr & -> & Hal).
    cbn [mbind outcome_bind new_final fst snd]. eauto.
  - right. split; [done|]. split; [done|]. intros i Hi Hu Hsl.
    apply list_find_None in E. rewrite Forall_forall in E.
    assert (Hin : i ∈ q) by (by apply (pw_queue _ Hp slab q Hq)).
    specialize (E i Hin). cbn in E. by destruct (Full (at_ p i)).
Qed.

Lemma NewInternal_total p slab :
  pool_wf p -> 0 < slab <= 32767 -> is_Some (size_to_chunks_ p !! slab) ->
  (exists p' ptr, NewInternal p slab = Ret (p', ptr) /\ allocated p p' ptr slab) \/
  (NewInternal p slab = Err LogFatal /\ exhausted p slab).
Proof.
  intros Hp Hs Hq. unfold NewInternal.
  assert (Hnext : (exists p' ptr,
      (r ← match free_chunks_ p with
           | front :: rest => new_fresh p slab front rest
           | [] => new_scan p slab
           end; new_final r) = Ret (p', ptr) /\ allocated p p' ptr slab) \/
    ((r ← match free_chunks_ p with
          | front :: rest => new_fresh p slab front rest
          | [] => new_scan p slab
          end; new_final r) = Err LogFatal /\ exhausted p slab)).
  { destruct (free_chunks_ p) as [|front rest] eqn:Ef.
    - destruct (new_scan_total p slab Hp Ef Hq) as [|[-> Hex]]; [by left|by right].
    - left. destruct Hq as [q Hq].
      destruct (take_free p front rest slab q Hp Ef Hs Hq) as (c & c' & ptr & HU & HM & Hal).
      unfold new_fresh. rewrite HU. cbn [mbind outcome_bind]. rewrite Hq. cbn [deref mbind outcome_bind].
      rewrite HM. cbn [mbind outcome_bind new_final fst snd]. eauto. }
  destruct (size_to_last_used_chunk_ p !! slab) as [i|] eqn:El; [|by destruct (free_chunks_ p)].
  destruct (pw_last _ Hp slab i El) as (Hi & Hu & Hsl).
  destruct (Full (at_ p i)) eqn:HF; cbn [negb]; [by destruct (free_chunks_ p)|].
  left. destruct (malloc_in p i slab Hp Hi Hu Hsl HF) as (c & ptr & HM & Hal).
  unfold new_last. rewrite HM. cbn [CHECK mbind outcome_bind new_final fst snd]. eauto.
Qed.

(** ** The allocated blocks *)

Lemma elem_of_live p a n :
  pool_wf p ->
  (a, n) ∈ live p <-> exists i e, 0 <= i < npool p /\ is_used (at_ p i) = true /\
    e ∈ ones (bitmap_ (at_ p i)) /\ a = entry_ptr i (at_ p i) e /\ n = slab_size_ (at_ p i).
Proof.
  intros Hp. unfold live. rewrite elem_of_concat. split.
  - intros (j & l & Hl & Hin). rewrite list_lookup_imap in Hl. apply fmap_Some in Hl as (c & Hc & ->).
    pose proof (lookup_lt_Some _ _ _ Hc) as Hlt.
    assert (Hat : at_ p (Z.of_nat j) = c).
    { unfold at_. rewrite Nat2Z.id. by apply list_lookup_total_correct. }
    unfold blocks in Hin. destruct (is_used c) eqn:Hu; [|by apply not_elem_of_nil in Hin].
    apply list_elem_of_fmap in Hin as (e & [= -> ->] & He).
    exists (Z.of_nat j), e. rewrite Hat. unfold npool. split_and!; try done; lia.
  - intros (i & e & Hi & Hu & He & -> & ->). exists (Z.to_nat i), (blocks i (at_ p i)). split.
    + rewrite list_lookup_imap, pool_at_lookup by done. cbn. by rewrite Z2Nat.id by lia.
    + rewrite blocks_used by done. apply list_elem_of_fmap. eauto.
Qed.

(** A block lies in its chunk, behind the header. *)
Lemma entry_bounds i c e :
  used_ok i c -> e ∈ ones (bitmap_ c) ->
  i * kChunkSize + 24 <= entry_ptr i c e /\ entry_ptr i c e + slab_size_ c <= (i + 1) * kChunkSize /\
  0 <= e < nr_entries_ c.
Proof.
  intros [Hh _ _ _] [_ He]%elem_of_ones. rewrite (ho_n _ Hh) in He. unfold entry_ptr.
  pose proof (ho_fit _ Hh). pose proof (ho_slab _ Hh). pose proof (hs_bounds (nr_entries_ c) ltac:(lia)).
  split_and!; nia.
Qed.

Lemma live_sep p a n a' n' :
  pool_wf p -> (a, n) ∈ live p -> (a', n') ∈ live p -> a <> a' -> a + n <= a' \/ a' + n' <= a.
Proof.
  intros Hp (i & e & Hi & Hu & He & -> & ->)%(elem_of_live _ _ _ Hp)
    (j & f & Hj & Hu' & Hf & -> & ->)%(elem_of_live _ _ _ Hp) Hne.
  pose proof (proj2 (pw_chunk _ Hp i Hi) Hu) as Hc. pose proof (proj2 (pw_chunk _ Hp j Hj) Hu') as Hd.
  destruct (entry_bounds _ _ _ Hc He) as (B1 & B2 & B3).
  destruct (entry_bounds _ _ _ Hd Hf) as (D1 & D2 & D3).
  unfold kChunkSize in *. destruct (Z.lt_trichotomy i j) as [|[->|]]; [left; nia| |right; nia].
  pose proof (ho_slab _ (uo_header _ _ Hc)). unfold entry_ptr in *.
  destruct (Z.lt_trichotomy e f) as [|[->|]]; [left; nia|done|right; nia].
Qed.

Lemma blocks_NoDup i c : used_ok i c -> NoDup (blocks i c).*1.
Proof.
  intros Hu. unfold blocks. destruct (is_used c); [|constructor]. rewrite <- list_fmap_compose.
  apply NoDup_fmap_2; [|apply NoDup_ones]. intros e f He. unfold compose, entry_ptr in He. cbn in He.
  pose proof (ho_slab _ (uo_header _ _ Hu)). nia.
Qed.

Lemma live_NoDup p : pool_wf p -> NoDup (live p).*1.
Proof.
  intros Hp. unfold live. rewrite fmap_concat.
  assert (Hlk : forall k l, (fmap (M := list) fst <$> imap (fun (j : nat) c => blocks (Z.of_nat j) c) (chunks_ p)) !! k = Some l ->
    0 <= Z.of_nat k < npool p /\ l = (blocks (Z.of_nat k) (at_ p (Z.of_nat k))).*1).
  { intros k l Hl. rewrite list_lookup_fmap, list_lookup_imap in Hl.
    apply fmap_Some in Hl as (x & Hx & ->). apply fmap_Some in Hx as (c & Hc & ->).
    pose proof (lookup_lt_Some _ _ _ Hc). split; [unfold npool; lia|].
    unfold at_. by rewrite Nat2Z.id, (list_lookup_total_correct _ _ _ Hc). }
  apply NoDup_concat_intro.
  - intros k l (Hk & ->)%Hlk. destruct (is_used (at_ p (Z.of_nat k))) eqn:Hu.
    + apply blocks_NoDup. by apply (pw_chunk _ Hp).
    + unfold blocks. rewrite Hu. constructor.
  - intros k j l l' x (Hk & ->)%Hlk (Hj & ->)%Hlk Hx Hx'.
    unfold blocks in Hx, Hx'.
    destruct (is_used (at_ p (Z.of_nat k))) eqn:Hu; [|by apply not_elem_of_nil in Hx].
    destruct (is_used (at_ p (Z.of_nat j))) eqn:Hu'; [|by apply not_elem_of_nil in Hx'].
    apply list_elem_of_fmap in Hx as (? & -> & (e & -> & He)%list_elem_of_fmap).
    apply list_elem_of_fmap in Hx' as (? & Hx' & (f & -> & Hf)%list_elem_of_fmap). cbn [fst] in *.
    pose proof (proj2 (pw_chunk _ Hp _ Hk) Hu) as Hc. pose proof (proj2 (pw_chunk _ Hp _ Hj) Hu') as Hd.
    destruct (entry_bounds _ _ _ Hc He) as (B1 & B2 & _).
    destruct (entry_bounds _ _ _ Hd Hf) as (D1 & D2 & _).
    pose proof (ho_slab _ (uo_header _ _ Hc)). pose proof (ho_slab _ (uo_header _ _ Hd)).
    unfold kChunkSize in *. lia.
Qed.

(** ** Release *)

Lemma GetChunkID_at i a : 0 <= i < 2 ^ 31 -> i * kChunkSize <= a < (i + 1) * kChunkSize -> GetChunkID a = i.
Proof.
  intros Hi Ha. unfold GetChunkID, kChunkSize in *. rewrite u64_small by lia.
  assert (Hq : a / (2 * 1024 * 1024) = i).
  { symmetry. apply Z.div_unique with (a - 2 * 1024 * 1024 * i); lia. }
  rewrite Hq. apply i64_small. lia.
Qed.

Lemma Free_live pf p a n :
  pool_wf p -> (a, n) ∈ live p ->
  exists p', Free pf p (if pf then a else a + kMetaDataSize) = Ret (p', true) /\ pool_wf p' /\
    live p ≡ₚ (a, n) :: live p' /\ meta_ p' = meta_ p /\
    allocated_slab_sizes_ p' = allocated_slab_sizes_ p /\ npool p' = npool p /\
    size_to_chunks_ p' = size_to_chunks_ p.
Proof.
  intros Hp (i & e & Hi & Hu & He & -> & ->)%(elem_of_live _ _ _ Hp).
  pose proof (proj2 (pw_chunk _ Hp i Hi) Hu) as Hc. pose proof (pw_len _ Hp) as Hlen.
  destruct (entry_bounds _ _ _ Hc He) as (B1 & B2 & B3).
  pose proof (ho_slab _ (uo_header _ _ Hc)) as Hsl.
  unfold Free. set (a := entry_ptr i (at_ p i) e) in *.
  replace (if pf then _ else _ - _) with a by (destruct pf; lia).
  rewrite (GetChunkID_at i a) by (unfold kChunkSize in *; lia).
  rewrite (i32_small i) by lia. unfold npool in Hi.
  rewrite (proj2 (Z.leb_le 0 i)), (proj2 (Z.ltb_lt i _)) by lia. cbn [andb].
  destruct (Free_ok i (at_ p i) e Hc Hu He) as (c' & HF & Hc' & Hsame & HP).
  fold a in HF, HP. rewrite HF. cbn [mbind outcome_bind]. eexists. split; [done|].
  split_and!; try done.
  - apply (with_chunk_wf p i c' (-1)); try done. rewrite HP. cbn [length]. lia.
  - destruct (live_insert p i c' Hi) as (rest & H1 & H2).
    unfold live at 2. cbn [chunks_ with_total with_chunk]. by rewrite H2, H1, HP.
  - unfold npool. cbn. by rewrite length_insert.
Qed.
End Spec.
