(* ===== verification/MemoryPoolRecover.v ===== *)
(** * PersistMemoryPool: opening a file

    A new file gives an empty pool; an existing one gives back the blocks that
    were allocated in it, whatever the volatile state was, since the headers
    and bit maps of the chunks are in the file.  Then the properties of the
    allocator as its clients see them. *)

From stdpp Require Import base numbers list gmap.
From Stdlib Require Import ZArith Lia.
From S2P Require Import Prelude BitMap MemoryPool MemoryPoolInv MemoryPoolSpec.

Section Recover.
Import MemoryPool.
Implicit Types (c : chunk) (p : pool) (i e s slab : Z) (F : list chunk).

(** The queues that the constructor makes. *)
Definition queues (slab_sizes : list Z) : gmap Z (list Z) :=
  list_to_map ((fun slab => (slab, [])) <$> slab_sizes).

Lemma queues_lookup l s : queues l !! s = if decide (s ∈ l) then Some [] else None.
Proof.
  unfold queues. case_decide as E.
  - induction l as [|x l IH]; [by apply not_elem_of_nil in E|]. cbn [fmap list_fmap list_to_map foldr uncurry fst snd].
    destruct (decide (s = x)) as [->|Hne]; [by rewrite lookup_insert_eq|].
    rewrite lookup_insert_ne by done. apply IH. set_solver.
  - apply not_elem_of_list_to_map_1. intros Hin.
    rewrite <- list_fmap_compose in Hin. apply list_elem_of_fmap in Hin as (x & -> & Hx). done.
Qed.

(** The chunk of the constructor, recovered when it is in use. *)
Definition recovered c i : chunk :=
  if is_used c then
    {| is_used := is_used c; slab_size_ := slab_size_ c; nr_entries_ := nr_entries_ c;
       bitmap_ := bitmap_ c; data_ := Some (i * kChunkSize + hs (nr_entries_ c)); is_recovered := true;
       allocated_entries_ := Z.of_nat (length (ones (bitmap_ c))); chunk_id_ := i |}
  else attach c i.

Lemma recovered_ok c i : (is_used c = true -> header_ok c) -> chunk_ok i (recovered c i).
Proof.
  intros Hh. unfold recovered, chunk_ok. destruct (is_used c) eqn:E; cbn; [|split; [done|congruence]].
  split; [done|]. intros _. specialize (Hh eq_refl). split; try done. destruct Hh. by split.
Qed.

Lemma recovered_blocks c i : blocks i (recovered c i) = blocks i c.
Proof. unfold recovered, blocks. destruct (is_used c) eqn:E; cbn; rewrite ?E; done. Qed.

Lemma Recovery_attach c i :
  is_used c = true -> header_ok c -> Recovery (attach c i) = Ret (recovered c i).
Proof.
  intros Hu Hh. unfold Recovery, attach, recovered. cbn [is_recovered nr_entries_ is_used]. rewrite Hu.
  pose proof (header_nr_bound c Hh). pose proof (ho_nr _ Hh).
  rewrite HeaderSize_hs by (lia || apply (ho_div _ Hh)). cbn [mbind outcome_bind].
  unfold header_. cbn [chunk_id_ slab_size_ bitmap_]. by rewrite NumberOfOnes_ones by apply (ho_bm _ Hh).
Qed.

(** The headers of an existing file: used chunks are well formed and have one
    of the slab sizes. *)
Definition file_ok F (slabs : list Z) : Prop :=
  Z.of_nat (length F) < 2 ^ 31 /\
  forall c, c ∈ F -> is_used c = true -> header_ok c /\ slab_size_ c ∈ slabs.

Notation fat F i := (F !!! Z.to_nat i).

(** The state of the loop after the chunks below [k]. *)
Record rec_state F (slabs : list Z) (k : Z) (q : pool) : Prop := {
  rs_len : length (chunks_ q) = length F;
  rs_chunk : forall i, 0 <= i < Z.of_nat (length F) ->
    at_ q i = if decide (i < k) then recovered (fat F i) i else attach (fat F i) i;
  rs_free : free_chunks_ q = filter (fun i => is_used (fat F i) = false) (seqZ 0 k);
  rs_queue : forall s, size_to_chunks_ q !! s =
    if decide (s ∈ slabs) then
      Some (filter (fun i => is_used (fat F i) = true /\ slab_size_ (fat F i) = s) (seqZ 0 k))
    else None;
  rs_last : size_to_last_used_chunk_ q = ∅;
  rs_slabs : allocated_slab_sizes_ q = slabs;
  rs_total : total_malloc_ q = Z.of_nat (length (concat ((fun i => blocks i (fat F i)) <$> seqZ 0 k)))
}.

Lemma fat_in F i : 0 <= i < Z.of_nat (length F) -> fat F i ∈ F.
Proof.
  intros Hi. eapply list_elem_of_lookup_2. apply list_lookup_lookup_total_lt. lia.
Qed.

Lemma seqZ_snoc (k : nat) : seqZ 0 (Z.of_nat (S k)) = seqZ 0 (Z.of_nat k) ++ [Z.of_nat k].
Proof.
  rewrite Nat2Z.inj_succ, <- Z.add_1_r, seqZ_app by lia. by rewrite (seqZ_cons _ 1), (seqZ_nil _ (Z.pred 1)) by lia.
Qed.

(** One round of the recovery loop, on a chunk in use. *)
Lemma recover_step_used F slabs (k : nat) q :
  file_ok F slabs -> (k < length F)%nat -> rec_state F slabs (Z.of_nat k) q -> is_used (fat F (Z.of_nat k)) = true ->
  exists q', (forall ids, recover_loop (Z.of_nat k :: ids) q = recover_loop ids q') /\
    rec_state F slabs (Z.of_nat (S k)) q' /\ meta_ q' = meta_ q.
Proof.
  intros [_ HF] Hk [Hl Hc Hfr Hq Hla Hsl Ht] Hu.
  assert (Hik : 0 <= Z.of_nat k < Z.of_nat (length F)) by lia.
  pose proof (Hc (Z.of_nat k) Hik) as Hck. rewrite decide_False in Hck by lia.
  pose proof (seqZ_snoc k) as Hsnoc. pose proof (fat_in F (Z.of_nat k) Hik) as Hin.
  set (c := fat F (Z.of_nat k)) in *.
  assert (Hnp : npool q = Z.of_nat (length F)) by (unfold npool; lia).
  destruct (HF c Hin Hu) as [Hh Hs]. eexists. split; [|split].
  - intros ids. cbn [recover_loop]. rewrite Hck. cbn [is_used slab_size_ attach]. rewrite Hu.
    rewrite Hq, decide_True by done. cbn [deref mbind outcome_bind].
    rewrite Recovery_attach by done. cbn [mbind outcome_bind]. reflexivity.
  - split; cbn [chunks_ free_chunks_ size_to_chunks_ size_to_last_used_chunk_ allocated_slab_sizes_ total_malloc_]; try done.
    + by rewrite length_insert.
    + intros i Hi. unfold at_. cbn [chunks_].
      rewrite at_insert by (rewrite ?Hnp; lia). destruct (decide (i = Z.of_nat k)) as [->|Hne].
      * rewrite decide_True by lia. done.
      * rewrite Hc by done. destruct (decide (i < Z.of_nat k)), (decide (i < Z.of_nat (S k))); (done || lia).
    + rewrite Hfr, Hsnoc, filter_app. rewrite filter_cons_False by (fold c; congruence). by rewrite app_nil_r.
    + intros s. rewrite Hsnoc, filter_app. destruct (decide (s = slab_size_ c)) as [->|Hne].
      * rewrite lookup_insert_eq, decide_True by done. by rewrite filter_cons_True by done.
      * rewrite lookup_insert_ne, Hq by done. rewrite filter_cons_False by (fold c; intros [_ ?]; congruence).
        by rewrite app_nil_r.
    + rewrite Hsnoc, fmap_app, concat_app, length_app, Ht. cbn [fmap list_fmap concat].
      rewrite app_nil_r. fold c. unfold blocks at 3. rewrite Hu, length_fmap.
      unfold recovered. rewrite Hu. cbn [allocated_entries_]. lia.
  - done.
Qed.

(** One round on a free chunk. *)
Lemma recover_step_free F slabs (k : nat) q :
  (k < length F)%nat -> rec_state F slabs (Z.of_nat k) q -> is_used (fat F (Z.of_nat k)) = false ->
  exists q', (forall ids, recover_loop (Z.of_nat k :: ids) q = recover_loop ids q') /\
    rec_state F slabs (Z.of_nat (S k)) q' /\ meta_ q' = meta_ q.
Proof.
  intros Hk [Hl Hc Hfr Hq Hla Hsl Ht] Hu.
  assert (Hik : 0 <= Z.of_nat k < Z.of_nat (length F)) by lia.
  pose proof (Hc (Z.of_nat k) Hik) as Hck. rewrite decide_False in Hck by lia.
  pose proof (seqZ_snoc k) as Hsnoc. set (c := fat F (Z.of_nat k)) in *. eexists. split; [|split].
  - intros ids. cbn [recover_loop]. rewrite Hck. cbn [is_used attach]. rewrite Hu. reflexivity.
  - split; cbn [chunks_ free_chunks_ size_to_chunks_ size_to_last_used_chunk_ allocated_slab_sizes_ total_malloc_]; try done.
    + intros i Hi. unfold at_ in *. cbn [chunks_]. rewrite Hc by done.
      destruct (decide (i = Z.of_nat k)) as [->|Hne].
      * rewrite decide_False, decide_True by lia. fold c. unfold recovered. by rewrite Hu.
      * destruct (decide (i < Z.of_nat k)), (decide (i < Z.of_nat (S k))); (done || lia).
    + rewrite Hfr, Hsnoc, filter_app. by rewrite filter_cons_True by done.
    + intros s. rewrite Hq, Hsnoc, filter_app.
      rewrite filter_cons_False by (fold c; intros [? _]; congruence). by rewrite app_nil_r.
    + rewrite Hsnoc, fmap_app, concat_app, length_app, Ht. cbn [fmap list_fmap concat].
      rewrite app_nil_r. fold c. unfold blocks at 3. rewrite Hu. cbn [length]. lia.
  - done.
Qed.

Lemma recover_step F slabs (k : nat) q :
  file_ok F slabs -> (k < length F)%nat -> rec_state F slabs (Z.of_nat k) q ->
  exists q', (forall ids, recover_loop (Z.of_nat k :: ids) q = recover_loop ids q') /\
    rec_state F slabs (Z.of_nat (S k)) q' /\ meta_ q' = meta_ q.
Proof.
  intros HF Hk Hr. destruct (is_used (fat F (Z.of_nat k))) eqn:Hu; [by eapply recover_step_used|by eapply recover_step_free].
Qed.

Lemma recover_loop_ok F slabs (n k : nat) q :
  file_ok F slabs -> (k + n = length F)%nat -> rec_state F slabs (Z.of_nat k) q ->
  exists q', recover_loop (seqZ (Z.of_nat k) (Z.of_nat n)) q = Ret q' /\
    rec_state F slabs (Z.of_nat (length F)) q' /\ meta_ q' = meta_ q.
Proof.
  intros HF. revert k q. induction n as [|n IH]; intros k q Hk Hr.
  - exists q. rewrite seqZ_nil by lia. replace (length F) with k by lia. done.
  - destruct (recover_step F slabs k q HF ltac:(lia) Hr) as (q' & Hstep & Hr' & Hm').
    rewrite Nat2Z.inj_succ, seqZ_cons by lia. rewrite Hstep.
    replace (Z.succ (Z.of_nat k)) with (Z.of_nat (S k)) by lia.
    replace (Z.pred (Z.succ (Z.of_nat n))) with (Z.of_nat n) by lia.
    destruct (IH (S k) q' ltac:(lia) Hr') as (q'' & -> & ? & Hm). exists q''. split_and!; [done|done|congruence].
Qed.

Lemma rec_state_wf F slabs q :
  file_ok F slabs -> rec_state F slabs (Z.of_nat (length F)) q ->
  pool_wf q /\ live q = concat ((fun i => blocks i (fat F i)) <$> seqZ 0 (Z.of_nat (length F))).
Proof.
  intros [Hlen HF] [Hl Hc Hfr Hq Hla Hsl Ht].
  assert (Hnp : npool q = Z.of_nat (length F)) by (unfold npool; lia).
  assert (Hat : forall i, 0 <= i < Z.of_nat (length F) -> at_ q i = recovered (fat F i) i).
  { intros i Hi. rewrite Hc, decide_True by lia. done. }
  assert (Hus : forall i, 0 <= i < Z.of_nat (length F) ->
    is_used (at_ q i) = is_used (fat F i) /\ slab_size_ (at_ q i) = slab_size_ (fat F i)).
  { intros i Hi. rewrite Hat by done. unfold recovered. destruct (is_used (fat F i)) eqn:E; cbn; by rewrite ?E. }
  assert (Hlive : live q = concat ((fun i => blocks i (fat F i)) <$> seqZ 0 (Z.of_nat (length F)))).
  { unfold live. f_equal. apply list_eq. intros j. rewrite list_lookup_imap, list_lookup_fmap.
    destruct (decide (j < length F)%nat) as [Hj|Hj].
    - rewrite lookup_seqZ_lt by lia.
      pose proof (pool_at_lookup q (Z.of_nat j) ltac:(lia)) as Hlk. rewrite Nat2Z.id in Hlk. rewrite Hlk.
      rewrite Hat by lia. cbn [fmap option_fmap option_map]. rewrite Z.add_0_l.
      by rewrite recovered_blocks.
    - rewrite lookup_seqZ_ge, lookup_ge_None_2 by lia. done. }
  split; [|done]. split; rewrite ?Hnp.
  - done.
  - intros i Hi. rewrite Hat by done. apply recovered_ok. intros Hu. by apply (HF _ (fat_in F i Hi)).
  - rewrite Hfr. apply NoDup_filter, NoDup_seqZ.
  - intros i. rewrite Hfr, list_elem_of_filter, elem_of_seqZ. split.
    + intros [Hu Hi]. split; [lia|]. by destruct (Hus i ltac:(lia)) as [-> _].
    + intros [Hi Hu]. destruct (Hus i Hi) as [Hu' _]. split; [congruence|lia].
  - intros s l Hsl' i. rewrite Hq in Hsl'. case_decide; [|done]. injection Hsl' as <-.
    rewrite list_elem_of_filter, elem_of_seqZ. split.
    + intros [[Hu Hs] Hi]. split; [lia|]. by destruct (Hus i ltac:(lia)) as [-> ->].
    + intros (Hi & Hu & Hs). destruct (Hus i Hi) as [Hu' Hs']. split; [split; congruence|lia].
  - intros i Hi Hu. destruct (Hus i Hi) as [Hu' Hs']. rewrite Hs', Hq. rewrite decide_True; [eauto|].
    apply (HF _ (fat_in F i Hi)). congruence.
  - intros s i Hs. rewrite Hla, lookup_empty in Hs. done.
  - by rewrite Ht, Hlive.
Qed.

Lemma open_existing F meta memory_size slabs :
  file_ok F slabs -> memory_size / kChunkSize = Z.of_nat (length F) ->
  Z.of_nat (length slabs) <= Z.of_nat (length F) ->
  exists q, open F meta true memory_size slabs = Ret q /\ pool_wf q /\ npool q = Z.of_nat (length F) /\
    live q = concat ((fun i => blocks i (fat F i)) <$> seqZ 0 (Z.of_nat (length F))) /\
    meta_ q = meta /\ allocated_slab_sizes_ q = slabs /\
    (forall s, s ∈ slabs -> is_Some (size_to_chunks_ q !! s)).
Proof.
  intros HF Hm Hsl. unfold open. rewrite Hm. rewrite (proj2 (Z.leb_le _ _) Hsl).
  cbn [CHECK mbind outcome_bind]. set (p0 := Build_pool _ _ _ _ _ _ _).
  assert (Hr0 : rec_state F slabs (Z.of_nat 0) p0).
  { split; cbn [chunks_ free_chunks_ size_to_chunks_ size_to_last_used_chunk_ allocated_slab_sizes_
      total_malloc_ p0].
    - rewrite length_fmap, length_seqZ. lia.
    - intros i Hi. rewrite decide_False by lia. unfold at_. cbn [chunks_ p0].
      apply list_lookup_total_correct. rewrite list_lookup_fmap, lookup_seqZ_lt by lia.
      cbn. do 2 f_equal; [f_equal|]; lia.
    - done.
    - intros s. fold (queues slabs). apply queues_lookup.
    - done.
    - done.
    - done. }
  destruct (recover_loop_ok F slabs (length F) 0 p0 HF ltac:(lia) Hr0) as (q & HR & Hr & Hmeta).
  exists q. destruct (rec_state_wf F slabs q HF Hr) as [Hwf Hlive].
  split_and!; try done.
  - unfold npool. by rewrite (rs_len _ _ _ _ Hr).
  - apply (rs_slabs _ _ _ _ Hr).
  - intros s Hs. rewrite (rs_queue _ _ _ _ Hr), decide_True by done. eauto.
Qed.

Lemma live_blocks p :
  live p = concat ((fun i => blocks i (at_ p i)) <$> seqZ 0 (npool p)).
Proof.
  unfold live, npool. f_equal. apply list_eq. intros j. rewrite list_lookup_imap, list_lookup_fmap.
  destruct (decide (j < length (chunks_ p))%nat) as [Hj|Hj].
  - rewrite lookup_seqZ_lt by lia.
    pose proof (pool_at_lookup p (Z.of_nat j) ltac:(unfold npool; lia)) as Hlk. rewrite Nat2Z.id in Hlk.
    rewrite Hlk. cbn. by rewrite ?Z.add_0_l.
  - rewrite lookup_seqZ_ge, lookup_ge_None_2 by lia. done.
Qed.

Lemma pool_file_ok p slabs :
  pool_wf p -> (forall i, 0 <= i < npool p -> is_used (at_ p i) = true -> slab_size_ (at_ p i) ∈ slabs) ->
  file_ok (chunks_ p) slabs.
Proof.
  intros Hp Hs. split; [apply (pw_len _ Hp)|]. intros c (j & Hj)%list_elem_of_lookup Hu.
  pose proof (lookup_lt_Some _ _ _ Hj).
  assert (Hat : at_ p (Z.of_nat j) = c).
  { unfold at_. rewrite Nat2Z.id. by apply list_lookup_total_correct. }
  rewrite <- Hat in *. assert (0 <= Z.of_nat j < npool p) by (unfold npool; lia). split; [|by apply Hs].
  by apply (pw_chunk _ Hp).
Qed.

Lemma open_new F meta memory_size slabs :
  0 <= memory_size / kChunkSize < 2 ^ 31 -> Z.of_nat (length slabs) <= memory_size / kChunkSize ->
  exists q, open F meta false memory_size slabs = Ret q /\ pool_wf q /\ live q = [] /\
    npool q = memory_size / kChunkSize /\ meta_ q = meta /\ allocated_slab_sizes_ q = slabs /\
    (forall s, s ∈ slabs -> is_Some (size_to_chunks_ q !! s)).
Proof.
  intros Hn Hsl. unfold open. rewrite (proj2 (Z.leb_le _ _) Hsl). cbn [CHECK mbind outcome_bind].
  eexists. split; [done|]. set (q := Build_pool _ _ _ _ _ _ _). set (n := memory_size / kChunkSize) in *.
  assert (Hnp : npool q = n) by (unfold npool, q; cbn; rewrite !length_fmap, length_seqZ; lia).
  assert (Hun : forall i, 0 <= i < n -> is_used (at_ q i) = false /\ chunk_id_ (at_ q i) = i).
  { intros i Hi. assert (Hlk : chunks_ q !! Z.to_nat i = Some (chunk_Initialize (attach (F !!! Z.to_nat i) i))).
    { cbn [chunks_ q]. rewrite !list_lookup_fmap, lookup_seqZ_lt by lia. cbn. do 3 f_equal; [f_equal|]; lia. }
    unfold at_. by rewrite (list_lookup_total_correct _ _ _ Hlk). }
  assert (Hlive : live q = []).
  { rewrite live_blocks, Hnp. apply concat_fmap_nil. intros i Hi%elem_of_seqZ.
    unfold blocks. by destruct (Hun i ltac:(lia)) as [-> _]. }
  split_and!; try done.
  - split; rewrite ?Hnp.
    + lia.
    + intros i Hi. destruct (Hun i Hi) as [Hu Hid]. split; [done|congruence].
    + apply NoDup_seqZ.
    + intros i. cbn [free_chunks_ q]. rewrite elem_of_seqZ. split; [|lia].
      intros Hi. split; [lia|]. apply Hun. lia.
    + intros s l Hl i. cbn [size_to_chunks_ q] in Hl. fold (queues slabs) in Hl.
      rewrite queues_lookup in Hl. case_decide; [|done]. injection Hl as <-.
      split; [by intros ?%not_elem_of_nil|]. intros (Hi & Hu & _). destruct (Hun i Hi). congruence.
    + intros i Hi Hu. destruct (Hun i Hi). congruence.
    + intros s i Hs. cbn in Hs. by rewrite lookup_empty in Hs.
    + by rewrite Hlive.
  - intros s Hs. cbn [size_to_chunks_ q]. fold (queues slabs). rewrite queues_lookup, decide_True by done.
    eauto.
Qed.
End Recover.
