(* ===== verification/MallocApi.v ===== *)
(** * MallocApi (src/memory/malloc.h)

    The allocator interface of [PetKV], the operations as a class and what a
    client may rely on as laws over the list of allocated blocks; then the two
    instances of [PersistMemoryPool] satisfy the laws.  A block is its address
    and the size that [GetMallocSize] gives for it. *)

From stdpp Require Import base numbers list gmap.
From Stdlib Require Import ZArith Lia.
From S2P Require Import Prelude BitMap MemoryPool MemoryPoolInv MemoryPoolSpec MemoryPoolRecover.

Class MallocApi (M : Type) := {
  m_New : M -> Z -> outcome (M * Z);
  m_Free : M -> Z -> outcome (M * bool);
  m_GetMallocData : M -> Z -> Z;
  m_GetMallocOffset : M -> Z -> outcome Z;
  m_GetMallocSize : M -> Z -> outcome Z;
  m_Initialize : M -> M;
  m_total_malloc : M -> Z;
  m_AddMallocs4Recovery : M -> Z -> M
}.

(** Two blocks without a common byte. *)
Definition sep (b b' : Z * Z) : Prop := b.1 + b.2 <= b'.1 \/ b'.1 + b'.2 <= b.1.

Lemma sep_sym b b' : sep b b' -> sep b' b.
Proof. unfold sep. lia. Qed.

Class MallocLaws (M : Type) `{!MallocApi M} := {
  m_wf : M -> Prop;
  (** the sizes the allocator was set up for *)
  m_accepts : M -> Z -> Prop;
  (** the allocated blocks, and the end of the memory *)
  m_live : M -> list (Z * Z);
  m_bound : M -> Z;
  m_New_law m n : m_wf m -> m_accepts m n ->
    (exists m' ptr, m_New m n = Ret (m', ptr) /\ m_wf m' /\ m_live m' ≡ₚ (ptr, n) :: m_live m /\
      m_bound m' = m_bound m /\ forall n', m_accepts m n' -> m_accepts m' n') \/
    m_New m n = Err LogFatal;
  m_Free_law m ptr n : m_wf m -> (ptr, n) ∈ m_live m ->
    exists m', m_Free m ptr = Ret (m', true) /\ m_wf m' /\ m_live m ≡ₚ (ptr, n) :: m_live m' /\
      m_bound m' = m_bound m /\ forall n', m_accepts m n' -> m_accepts m' n';
  m_live_ptr m ptr n : m_wf m -> (ptr, n) ∈ m_live m ->
    0 <= ptr < 2 ^ 52 /\ ptr <= m_bound m /\ ptr mod 8 = 0 /\ 0 <= n /\ m_GetMallocData m ptr = ptr /\
    m_GetMallocOffset m ptr = Ret ptr /\ m_GetMallocSize m ptr = Ret n;
  m_live_nodup m : m_wf m -> NoDup (m_live m).*1;
  m_live_sep m b b' : m_wf m -> b ∈ m_live m -> b' ∈ m_live m -> b.1 <> b'.1 -> sep b b';
  m_total_law m : m_wf m -> m_total_malloc m = Z.of_nat (length (m_live m));
  m_Initialize_law m : m_Initialize m = m;
  m_Recovery_law m offset : m_AddMallocs4Recovery m offset = m
}.

(** ** The pool as an allocator *)

Section Pool.
Import MemoryPool.
Implicit Types (p : pool).

(** The template argument, as a type that selects the instance. *)
Record pool_of (pf : bool) := PoolOf { the_pool : pool }.
#[local] Arguments PoolOf {pf} _.
#[local] Arguments the_pool {pf} _.

#[export] Instance pool_malloc (pf : bool) : MallocApi (pool_of pf) := {|
  m_New m n := '(p, ptr) ← New pf (the_pool m) n; Ret (PoolOf p, ptr);
  m_Free m ptr := '(p, b) ← Free pf (the_pool m) ptr; Ret (PoolOf p, b);
  m_GetMallocData m offset := GetMallocData (the_pool m) offset;
  m_GetMallocOffset m data := GetMallocOffset (the_pool m) data;
  m_GetMallocSize m offset := GetMallocSize pf (the_pool m) (GetMallocData (the_pool m) offset);
  m_Initialize m := PoolOf (Initialize (the_pool m));
  m_total_malloc m := total_malloc (the_pool m);
  m_AddMallocs4Recovery m offset := PoolOf (AddMallocs4Recovery (the_pool m) offset)
|}.

(** A pool whose slab sizes are multiples of eight that fit in a chunk. *)
Record good_pool (pf : bool) p : Prop := {
  gp_wf : pool_wf p;
  gp_slabs : forall s, s ∈ allocated_slab_sizes_ p ->
    0 < s <= 32767 /\ s mod 8 = 0 /\ is_Some (size_to_chunks_ p !! s);
  gp_used : forall a n, (a, n) ∈ live p -> n ∈ allocated_slab_sizes_ p;
  gp_meta : pf = false -> forall a n, (a, n) ∈ live p ->
    exists sz, meta_ p !! a = Some sz /\ 0 <= sz /\ sz + kMetaDataSize <= n
}.

Definition block_of (pf : bool) (meta : gmap Z Z) (b : Z * Z) : Z * Z :=
  if pf then b else (b.1 + kMetaDataSize, default 0 (meta !! b.1)).

Definition pool_live (pf : bool) p : list (Z * Z) := block_of pf (meta_ p) <$> live p.

Definition pool_accepts (pf : bool) p (n : Z) : Prop :=
  if pf then n ∈ allocated_slab_sizes_ p
  else 0 <= n /\ exists s, s ∈ allocated_slab_sizes_ p /\ kMetaDataSize + n <= s.

Lemma pool_wf_meta p m : pool_wf p -> pool_wf (with_meta p m).
Proof. intros []. by split. Qed.

(** Where a live block is. *)
Lemma live_bounds p a n :
  pool_wf p -> (a, n) ∈ live p ->
  24 <= a /\ a + n <= npool p * kChunkSize /\ 0 < n /\
  GetChunkID a = a / kChunkSize /\ (n mod 8 = 0 -> a mod 8 = 0) /\
  chunks_ p !! Z.to_nat (a / kChunkSize) = Some (at_ p (a / kChunkSize)) /\
  slab_size_ (at_ p (a / kChunkSize)) = n.
Proof.
  intros Hp (i & e & Hi & Hu & He & -> & ->)%(elem_of_live _ _ _ Hp).
  pose proof (proj2 (pw_chunk _ Hp i Hi) Hu) as Hc. pose proof (pw_len _ Hp).
  destruct (entry_bounds _ _ _ Hc He) as (B1 & B2 & B3). pose proof (uo_header _ _ Hc) as Hh.
  pose proof (ho_slab _ Hh). unfold kChunkSize in *.
  assert (Hd : entry_ptr i (at_ p i) e / (2 * 1024 * 1024) = i).
  { symmetry. apply Z.div_unique with (entry_ptr i (at_ p i) e - 2 * 1024 * 1024 * i); lia. }
  rewrite Hd. split_and!; try lia.
  - apply GetChunkID_at; unfold kChunkSize; lia.
  - intros H8. unfold entry_ptr, hs, kChunkSize.
    pose proof (ho_div _ Hh) as Hdiv. pose proof (Z.div_mod (nr_entries_ (at_ p i)) 64 ltac:(lia)) as E1.
    replace (nr_entries_ (at_ p i) / 8) with (nr_entries_ (at_ p i) / 64 * 8)
      by (apply Z.div_unique with 0; lia).
    pose proof (Z.div_mod (slab_size_ (at_ p i)) 8 ltac:(lia)) as E2.
    rewrite E2, H8, Z.add_0_r.
    set (x := slab_size_ (at_ p i) / 8). set (y := nr_entries_ (at_ p i) / 64).
    replace (i * (2 * 1024 * 1024) + (24 + y * 8) + e * (8 * x))
      with ((i * 262144 + 3 + y + e * x) * 8) by lia. apply Z.mod_mul. lia.
  - by apply pool_at_lookup.
Qed.

Lemma live_length p : pool_wf p -> Z.of_nat (length (live p)) <= npool p * 2 ^ 21.
Proof.
  intros Hp. rewrite live_blocks. pose proof (pw_chunk _ Hp) as Hc.
  assert (Hn : 0 <= npool p) by (unfold npool; lia).
  transitivity (Z.of_nat (length (seqZ 0 (npool p)) * Z.to_nat (2 ^ 21))); [|rewrite length_seqZ; lia].
  apply Nat2Z.inj_le. rewrite <- (length_fmap (fun i => blocks i (at_ p i)) (seqZ 0 (npool p))).
  apply concat_length_le. intros l (i & -> & Hi%elem_of_seqZ)%list_elem_of_fmap.
  unfold blocks. destruct (is_used (at_ p i)) eqn:Hu; [|cbn; lia]. rewrite length_fmap.
  pose proof (proj2 (Hc i ltac:(lia)) Hu) as [Hh _ _ _]. pose proof (header_nr_bound _ Hh).
  unfold ones. etrans; [apply length_filter|]. rewrite length_seqZ, (ho_n _ Hh). lia.
Qed.

Lemma lower_bound_Some l x s :
  lower_bound l x = Some s -> s ∈ l /\ x <= s.
Proof.
  unfold lower_bound. intros H. apply fmap_Some in H as ([k s'] & H & ->).
  apply list_find_Some in H as (Hk & Hx & _). by eapply list_elem_of_lookup_2 in Hk.
Qed.

Lemma lower_bound_None l x : lower_bound l x = None -> forall s, s ∈ l -> s < x.
Proof.
  unfold lower_bound. intros H s Hs. apply fmap_None, list_find_None in H.
  rewrite Forall_forall in H. specialize (H s Hs). cbn in H. lia.
Qed.

(** The slab that [New] takes for a request. *)
Lemma New_total (pf : bool) p n :
  good_pool pf p -> pool_accepts pf p n ->
  (exists p' a slab, New pf p n = Ret (p', if pf then a else a + kMetaDataSize) /\
     good_pool pf p' /\ live p' ≡ₚ (a, slab) :: live p /\
     allocated_slab_sizes_ p' = allocated_slab_sizes_ p /\ npool p' = npool p /\
     (if pf then slab = n /\ meta_ p' = meta_ p
      else n + kMetaDataSize <= slab /\ meta_ p' = <[a := n]> (meta_ p))) \/
  New pf p n = Err LogFatal.
Proof.
  intros [Hp Hs Hus Hm] Hacc.
  assert (Hmain : forall slab, slab ∈ allocated_slab_sizes_ p ->
    (exists p' ptr, NewInternal p slab = Ret (p', ptr) /\ allocated p p' ptr slab) \/
    NewInternal p slab = Err LogFatal).
  { intros slab Hin. destruct (Hs slab Hin) as (Hr & _ & Hq).
    destruct (NewInternal_total p slab Hp Hr Hq) as [|[? _]]; [by left|by right]. }
  destruct pf; unfold New; cbn [pool_accepts] in Hacc.
  - destruct (Hmain n Hacc) as [(p' & a & HN & [Hwf Hl Hsz Hme Hnp Hd])|]; [left|by right].
    exists p', a, n. split_and!; try done. split; try done.
    + intros s Hin. rewrite Hsz in Hin. destruct (Hs s Hin) as (? & ? & ?). auto.
    + intros a' n' Hin. rewrite Hl in Hin. rewrite Hsz.
      apply elem_of_cons in Hin as [[= -> ->]|Hin]; [done|by eapply Hus].
  - destruct Hacc as [Hn (s0 & Hs0 & Hle)].
    destruct (lower_bound _ _) as [slab|] eqn:E; [|pose proof (lower_bound_None _ _ E s0 Hs0); lia].
    apply lower_bound_Some in E as [Hin Hge].
    destruct (Hmain slab Hin) as [(p' & a & -> & [Hwf Hl Hsz Hme Hnp Hd])| ->]; [left|by right].
    cbn [mbind outcome_bind]. exists (with_meta p' (<[a := n]> (meta_ p'))), a, slab.
    split_and!; try done; try lia; [|by cbn; rewrite Hme].
    assert (Hnd : a ∉ (live p).*1).
    { pose proof (live_NoDup p' Hwf) as Hnd. rewrite Hl in Hnd. by apply NoDup_cons in Hnd as [? _]. }
    split.
    + by apply pool_wf_meta.
    + intros s Hin'. cbn in Hin'. rewrite Hsz in Hin'. destruct (Hs s Hin') as (? & ? & ?). auto.
    + intros a' n' Hin'. change (live (with_meta p' _)) with (live p') in Hin'. rewrite Hl in Hin'.
      cbn. rewrite Hsz. apply elem_of_cons in Hin' as [[= -> ->]|Hin']; [done|by eapply Hus].
    + intros _ a' n' Hin'. change (live (with_meta p' _)) with (live p') in Hin'. rewrite Hl in Hin'.
      cbn. rewrite Hme. apply elem_of_cons in Hin' as [[= -> ->]|Hin'].
      * exists n. rewrite lookup_insert_eq. split_and!; [done|lia|lia].
      * rewrite lookup_insert_ne; [by apply Hm|]. intros <-. apply Hnd, list_elem_of_fmap.
        by exists (a, n').
Qed.

Lemma pool_live_cons (pf : bool) p p' a slab n :
  NoDup ((a, slab) :: live p).*1 -> live p' ≡ₚ (a, slab) :: live p ->
  (if pf then slab = n /\ meta_ p' = meta_ p
   else n + kMetaDataSize <= slab /\ meta_ p' = <[a := n]> (meta_ p)) ->
  pool_live pf p' ≡ₚ ((if pf then a else a + kMetaDataSize), n) :: pool_live pf p.
Proof.
  intros Hnd Hl Hm. unfold pool_live. rewrite Hl. rewrite fmap_cons. destruct pf.
  - destruct Hm as [-> ->]. done.
  - destruct Hm as [_ ->]. unfold block_of at 1. cbn [fst snd]. rewrite lookup_insert_eq. cbn [default].
    assert (HE : block_of false (<[a := n]> (meta_ p)) <$> live p = block_of false (meta_ p) <$> live p).
    { apply list_fmap_ext. intros k [b s] Hk. unfold block_of. cbn [fst].
      rewrite lookup_insert_ne; [done|]. intros <-. apply NoDup_cons in Hnd as [Hnin _]. apply Hnin.
      apply list_elem_of_fmap. exists (a, s). split; [done|]. by eapply list_elem_of_lookup_2. }
    by rewrite HE.
Qed.

Lemma elem_of_pool_live (pf : bool) p ptr n :
  good_pool pf p -> (ptr, n) ∈ pool_live pf p ->
  exists a slab, (a, slab) ∈ live p /\ ptr = (if pf then a else a + kMetaDataSize) /\
    (if pf then n = slab else meta_ p !! a = Some n /\ 0 <= n /\ n + kMetaDataSize <= slab).
Proof.
  intros Hg Hin. apply list_elem_of_fmap in Hin as ([a slab] & E & Hin). exists a, slab.
  split; [done|]. unfold block_of in E. destruct pf; cbn [fst snd] in E; simplify_eq; [done|].
  destruct (gp_meta _ _ Hg eq_refl a slab Hin) as (sz & Hsz & ? & ?). rewrite Hsz. by split_and!.
Qed.

#[export] Program Instance pool_laws (pf : bool) : MallocLaws (pool_of pf) := {|
  m_wf m := good_pool pf (the_pool m);
  m_accepts m n := pool_accepts pf (the_pool m) n;
  m_live m := pool_live pf (the_pool m);
  m_bound m := npool (the_pool m) * kChunkSize
|}.
Next Obligation.
  intros pf [p] n Hg Hacc. cbn in *.
  destruct (New_total pf p n Hg Hacc) as [(p' & a & slab & -> & Hg' & Hl & Hsz & Hnp & Hm)| ->]; [left|by right].
  cbn [mbind outcome_bind]. eexists _, _. split; [done|]. cbn [the_pool]. split_and!; [done| |by rewrite Hnp|].
  - apply pool_live_cons with slab; [|done|done].
    rewrite <- Hl. apply live_NoDup, Hg'.
  - intros n'. unfold pool_accepts. by rewrite Hsz.
Qed.
Next Obligation.
  intros pf [p] ptr n Hg Hin. cbn in *.
  destruct (elem_of_pool_live pf p ptr n Hg Hin) as (a & slab & Hl & -> & Hn).
  destruct (Free_live pf p a slab (gp_wf _ _ Hg) Hl) as (p' & -> & Hwf & HP & Hme & Hsz & Hnp & Hq).
  cbn [mbind outcome_bind]. eexists. split; [done|]. cbn [the_pool]. split_and!.
  - destruct Hg as [_ Hs Hus Hm]. split; rewrite ?Hme, ?Hsz, ?Hq; try done.
    + intros a' n' Hin'. apply (Hus a'). rewrite HP. by right.
    + intros Hpf a' n' Hin'. apply (Hm Hpf). rewrite HP. by right.
  - unfold pool_live. rewrite HP, fmap_cons, Hme. f_equiv. unfold block_of. cbn [fst snd].
    destruct pf; [by rewrite Hn|]. by destruct Hn as (-> & _).
  - by rewrite Hnp.
  - intros n'. unfold pool_accepts. by rewrite Hsz.
Qed.
Next Obligation.
  intros pf [p] ptr n Hg Hin. cbn in *.
  destruct (elem_of_pool_live pf p ptr n Hg Hin) as (a & slab & Hl & -> & Hn).
  destruct (live_bounds p a slab (gp_wf _ _ Hg) Hl) as (B1 & B2 & B3 & B4 & B5 & B6 & B7).
  pose proof (pw_len _ (gp_wf _ _ Hg)) as Hlen.
  destruct (gp_slabs _ _ Hg slab (gp_used _ _ Hg a slab Hl)) as (_ & H8 & _). specialize (B5 H8).
  pose proof (Z.div_mod a 8 ltac:(lia)) as Hd.
  assert (Hr : 0 <= (if pf then a else a + kMetaDataSize) < 2 ^ 52 /\
    (if pf then a else a + kMetaDataSize) mod 8 = 0).
  { unfold kChunkSize, kMetaDataSize in *. destruct pf; [split; [lia|done]|].
    destruct Hn as (_ & Hn0 & Hn1). split; [lia|]. rewrite Z.add_mod, B5 by lia. done. }
  assert (Hb : (if pf then a else a + kMetaDataSize) <= npool p * kChunkSize).
  { destruct pf; [lia|]. destruct Hn as (_ & Hn0 & Hn1). lia. }
  set (ptr := if pf then a else a + kMetaDataSize) in *. destruct Hr as [Hr Hm8].
  split_and!; try lia; try done.
  - destruct pf; [subst; lia|by destruct Hn as (_ & ? & _)].
  - unfold GetMallocOffset. rewrite Z.shiftr_div_pow2, Z.shiftl_mul_pow2 by lia. change (2 ^ 3) with 8.
    pose proof (Z.div_mod ptr 8 ltac:(lia)).
    rewrite (proj2 (Z.eqb_eq _ _)) by lia. done.
  - unfold GetMallocSize, GetMallocData, ptr. destruct pf.
    + rewrite B4, B6. cbn. by rewrite B7, Hn.
    + destruct Hn as (Hn & _). replace (a + kMetaDataSize - kMetaDataSize) with a by lia. by rewrite Hn.
Qed.
Next Obligation.
  intros pf [p] Hg. cbn in *. pose proof (live_NoDup p (gp_wf _ _ Hg)) as Hnd.
  unfold pool_live. rewrite <- list_fmap_compose. destruct pf; [exact Hnd|].
  unfold compose, block_of. cbn [fst].
  change (fun x : Z * Z => x.1 + kMetaDataSize) with ((fun z => z + kMetaDataSize) ∘ @fst Z Z).
  rewrite list_fmap_compose. apply NoDup_fmap_2; [|done]. intros x y. lia.
Qed.
Next Obligation.
  intros pf [p] [x n] [x' n'] Hg Hb Hb' Hne. cbn in *. unfold sep. cbn [fst snd].
  destruct (elem_of_pool_live pf p x n Hg Hb) as (a & s & Hl & -> & Hn).
  destruct (elem_of_pool_live pf p x' n' Hg Hb') as (a' & s' & Hl' & -> & Hn').
  assert (Hne' : a <> a') by (intros ->; by destruct pf).
  destruct (live_sep p a s a' s' (gp_wf _ _ Hg) Hl Hl' Hne'); destruct pf; unfold kMetaDataSize in *; cbn in *; lia.
Qed.
Next Obligation.
  intros pf [p] Hg. cbn in *. unfold total_malloc, pool_live. rewrite length_fmap, (pw_total _ (gp_wf _ _ Hg)).
  apply u64_small. pose proof (live_length p (gp_wf _ _ Hg)). pose proof (pw_len _ (gp_wf _ _ Hg)).
  unfold npool in *. nia.
Qed.
Next Obligation. by intros pf []. Qed.
Next Obligation. by intros pf []. Qed.
End Pool.
