(* ===== verification/PoolProps.v ===== *)
(** * PersistMemoryPool: what its clients get

    The properties of the slab allocator, with pools opened on new files as
    concrete instances. *)

From stdpp Require Import base numbers list gmap.
From Stdlib Require Import ZArith Lia.
From S2P Require Import Prelude BitMap MemoryPool MemoryPoolInv MemoryPoolSpec MemoryPoolRecover MallocApi.

Section Props.
Import MemoryPool.
Implicit Types (p : pool).

(** [C9] A block from NewInternal is new: it overlaps no allocated block, lies
    inside one chunk behind its header, and all other blocks stay allocated;
    and allocation fails only when there is no free chunk and every chunk of
    the slab size is full. *)
Theorem NewInternal_fresh p slab :
  pool_wf p -> 0 < slab <= 32767 -> is_Some (size_to_chunks_ p !! slab) ->
  match NewInternal p slab with
  | Ret (p', a) =>
      pool_wf p' /\ live p' ≡ₚ (a, slab) :: live p /\
      (forall b, b ∈ live p -> sep (a, slab) b) /\
      (exists i, 0 <= i < npool p /\ i * kChunkSize + 24 <= a /\ a + slab <= (i + 1) * kChunkSize)
  | Err f => f = LogFatal /\ exhausted p slab
  end.
Proof.
  intros Hp Hs Hq. destruct (NewInternal_total p slab Hp Hs Hq) as [(p' & a & -> & Hal)|[-> Hex]]; [|done].
  destruct Hal as [Hwf Hl _ _ Hn _]. split_and!; [done|done| |].
  - intros [b n] Hb. apply (live_sep p' a slab b n Hwf); [rewrite Hl; set_solver..|].
    intros ->. pose proof (live_NoDup p' Hwf) as Hnd. rewrite Hl in Hnd.
    apply NoDup_cons in Hnd as [Hnin _]. apply Hnin, list_elem_of_fmap. by exists (b, n).
  - assert (Hin : (a, slab) ∈ live p') by (rewrite Hl; set_solver).
    apply (elem_of_live _ _ _ Hwf) in Hin as (i & e & Hi & Hu & He & -> & ->).
    pose proof (proj2 (pw_chunk _ Hwf i Hi) Hu) as Hc. exists i.
    destruct (entry_bounds _ _ _ Hc He) as (? & ? & _). rewrite <- Hn. split_and!; lia.
Qed.

(** Free gives a block back: it returns true, exactly that block leaves the
    allocated ones, and the pool stays well formed. *)
Theorem Free_releases (pf : bool) p a n :
  pool_wf p -> (a, n) ∈ live p ->
  exists p', Free pf p (if pf then a else a + kMetaDataSize) = Ret (p', true) /\ pool_wf p' /\
    live p ≡ₚ (a, n) :: live p' /\ (a ∉ (live p').*1).
Proof.
  intros Hp Hin. destruct (Free_live pf p a n Hp Hin) as (p' & HF & Hwf & HP & _).
  exists p'. split_and!; try done. pose proof (live_NoDup p Hp) as Hnd. rewrite HP in Hnd.
  by apply NoDup_cons in Hnd as [? _].
Qed.

(** [C30] Recovery of the allocator: opening the file of a pool again gives a
    well-formed pool with the same allocated blocks and the same count of
    them, from the headers and bit maps of the chunks only. *)
Theorem pool_reopen p memory_size slabs :
  pool_wf p -> memory_size / kChunkSize = npool p -> Z.of_nat (length slabs) <= npool p ->
  (forall i, 0 <= i < npool p -> is_used (at_ p i) = true -> slab_size_ (at_ p i) ∈ slabs) ->
  exists q, open (chunks_ p) (meta_ p) true memory_size slabs = Ret q /\ pool_wf q /\
    live q = live p /\ meta_ q = meta_ p /\ total_malloc q = total_malloc p.
Proof.
  intros Hp Hm Hl Hs. pose proof (pool_file_ok p slabs Hp Hs) as HF.
  destruct (open_existing (chunks_ p) (meta_ p) memory_size slabs HF Hm Hl)
    as (q & HO & Hwf & _ & Hlive & Hme & _).
  exists q. assert (Hq : live q = live p) by (by rewrite Hlive, live_blocks).
  split_and!; try done. unfold total_malloc.
  by rewrite (pw_total _ Hwf), (pw_total _ Hp), Hq.
Qed.

(** Slab sizes that are multiples of eight give blocks whose offset passes
    the check of GetMallocOffset, so that the offset can be stored in units of
    eight bytes. *)
Theorem GetMallocOffset_aligned (pf : bool) p a n :
  pool_wf p -> (a, n) ∈ live p -> n mod 8 = 0 ->
  let ptr := if pf then a else a + kMetaDataSize in
  GetMallocOffset p ptr = Ret ptr /\ ptr mod 8 = 0.
Proof.
  intros Hp Hin H8. destruct (live_bounds p a n Hp Hin) as (B1 & _ & _ & _ & Ha & _). specialize (Ha H8).
  cbn zeta. set (ptr := if pf then _ else _).
  assert (Hm : ptr mod 8 = 0).
  { unfold ptr, kMetaDataSize. destruct pf; [done|]. rewrite Z.add_mod, Ha by lia. done. }
  split; [|done]. unfold GetMallocOffset. rewrite Z.shiftr_div_pow2, Z.shiftl_mul_pow2 by lia.
  change (2 ^ 3) with 8. pose proof (Z.div_mod ptr 8 ltac:(lia)).
  rewrite (proj2 (Z.eqb_eq _ _)) by lia. done.
Qed.

(** The number of slabs that Use puts in a chunk: for slabs up to 32767 bytes
    header, bit map and slabs fit in the 2 MB of the chunk and no sixty-four
    slabs more would; a larger slab is refused. *)
Theorem Use_fits c slab :
  0 < slab < 2 ^ 31 ->
  match Use c slab with
  | Ret c' => slab <= 32767 /\ is_used c' = true /\ slab_size_ c' = slab /\ 0 < nr_entries_ c' /\
      nr_entries_ c' mod 64 = 0 /\
      sizeof_ChunkHeader + 8 + nr_entries_ c' / 8 + nr_entries_ c' * slab <= kChunkSize /\
      BitMap.NumberOfOnes (bitmap_ c') = 0
  | Err f => 32767 < slab /\ f = CheckFailed
  end.
Proof.
  intros Hs. destruct (decide (slab <= 32767)) as [Hle|Hgt].
  - destruct (Use_spec c slab ltac:(lia)) as (c' & -> & Hu & Hus & Hsl & _ & Ho).
    pose proof (uo_header _ _ Hu) as Hh. split_and!; try done; try (by apply Hh).
    + pose proof (ho_fit _ Hh). rewrite Hsl in *. unfold hs, sizeof_ChunkHeader in *. lia.
    + by rewrite NumberOfOnes_ones, Ho by apply (ho_bm _ Hh).
  - rewrite Use_too_large by lia. split; [lia|done].
Qed.

(** ** Concrete pools *)

Definition empty_pool (memory_size : Z) (slabs : list Z) : pool :=
  match open [] ∅ false memory_size slabs with
  | Ret p => p
  | Err _ => Build_pool [] [] ∅ ∅ [] 0 ∅
  end.

(** [k] blocks of [slab] bytes. *)
Fixpoint new_n (k : nat) (slab : Z) (p : pool) : outcome (pool * list Z) :=
  match k with
  | O => Ret (p, [])
  | S k' => '(p, a) ← NewInternal p slab; '(p, l) ← new_n k' slab p; Ret (p, a :: l)
  end.

Lemma empty_pool_ok memory_size slabs :
  0 <= memory_size / kChunkSize < 2 ^ 31 -> Z.of_nat (length slabs) <= memory_size / kChunkSize ->
  pool_wf (empty_pool memory_size slabs) /\ npool (empty_pool memory_size slabs) = memory_size / kChunkSize /\
  live (empty_pool memory_size slabs) = [] /\
  forall s, s ∈ slabs -> is_Some (size_to_chunks_ (empty_pool memory_size slabs) !! s).
Proof.
  intros Hm Hl. unfold empty_pool.
  destruct (open_new [] ∅ memory_size slabs Hm Hl) as (q & -> & ? & ? & ? & _ & _ & ?). done.
Qed.

Lemma NewInternal_fresh_witness :
  match NewInternal (empty_pool (2 * kChunkSize) [64; 128]) 64 with
  | Ret (p', a) =>
      pool_wf p' /\ live p' ≡ₚ (a, 64) :: live (empty_pool (2 * kChunkSize) [64; 128]) /\
      (forall b, b ∈ live (empty_pool (2 * kChunkSize) [64; 128]) -> sep (a, 64) b) /\
      (exists i, 0 <= i < npool (empty_pool (2 * kChunkSize) [64; 128]) /\
        i * kChunkSize + 24 <= a /\ a + 64 <= (i + 1) * kChunkSize)
  | Err f => f = LogFatal /\ exhausted (empty_pool (2 * kChunkSize) [64; 128]) 64
  end.
Proof.
  destruct (empty_pool_ok (2 * kChunkSize) [64; 128]) as (Hwf & _ & _ & Hd); [by vm_compute|by vm_compute|].
  apply NewInternal_fresh; [exact Hwf|lia|apply Hd; set_solver].
Defined.

(** One chunk of slabs of 32000 bytes, the first of them allocated. *)
Definition one_block : pool :=
  match NewInternal (empty_pool kChunkSize [32000]) 32000 with
  | Ret (p, _) => p
  | Err _ => empty_pool 0 []
  end.

Lemma one_block_wf : pool_wf one_block.
Proof.
  destruct (empty_pool_ok kChunkSize [32000]) as (Hwf & _ & _ & Hd); [by vm_compute|by vm_compute|].
  pose proof (NewInternal_total _ 32000 Hwf ltac:(lia) (Hd 32000 ltac:(set_solver))) as HT.
  unfold one_block. destruct HT as [(p' & a & -> & [Hwf' _ _ _ _ _])|[_ [Hf _]]]; [done|].
  exfalso. vm_compute in Hf. done.
Qed.

Lemma one_block_live : (32, 32000) ∈ live one_block.
Proof. eapply bool_decide_eq_true_1. by_eval. Qed.

Lemma Free_releases_witness :
  (32, 32000) ∈ live one_block /\
  exists p', Free true one_block 32 = Ret (p', true) /\ pool_wf p' /\
    live one_block ≡ₚ (32, 32000) :: live p' /\ (32 ∉ (live p').*1).
Proof.
  split; [apply one_block_live|].
  apply (Free_releases true one_block 32 32000); [apply one_block_wf|apply one_block_live].
Defined.

Lemma pool_reopen_witness :
  exists q, open (chunks_ one_block) (meta_ one_block) true (kChunkSize + 5) [32000] = Ret q /\
    pool_wf q /\ live q = live one_block /\ meta_ q = meta_ one_block /\
    total_malloc q = total_malloc one_block.
Proof.
  apply (pool_reopen one_block (kChunkSize + 5) [32000]).
  - apply one_block_wf.
  - by_eval.
  - by vm_compute.
  - intros i Hi _. assert (i = 0) as -> by (change (npool one_block) with 1 in Hi; lia).
    eapply bool_decide_eq_true_1. by_eval.
Defined.

Lemma GetMallocOffset_aligned_witness :
  GetMallocOffset one_block 32 = Ret 32 /\ 32 mod 8 = 0.
Proof.
  apply (GetMallocOffset_aligned true one_block 32 32000);
    [apply one_block_wf|apply one_block_live|by_eval].
Defined.

Lemma Use_fits_witness :
  match Use inhabitant 1032 with
  | Ret c' => 1032 <= 32767 /\ is_used c' = true /\ slab_size_ c' = 1032 /\ 0 < nr_entries_ c' /\
      nr_entries_ c' mod 64 = 0 /\
      sizeof_ChunkHeader + 8 + nr_entries_ c' / 8 + nr_entries_ c' * 1032 <= kChunkSize /\
      BitMap.NumberOfOnes (bitmap_ c') = 0
  | Err f => 32767 < 1032 /\ f = CheckFailed
  end.
Proof. apply (Use_fits inhabitant 1032). lia. Defined.

(** With a slab size that is not a multiple of eight the second block of a
    chunk has an offset that GetMallocOffset refuses: a store of values of
    such a fixed size dies at its second insertion. *)
Theorem GetMallocOffset_unaligned :
  exists p a b, new_n 2 30004 (empty_pool kChunkSize [30004]) = Ret (p, [a; b]) /\
    GetMallocOffset p a = Ret a /\ GetMallocOffset p b = Err CheckFailed.
Proof.
  destruct (new_n 2 30004 (empty_pool kChunkSize [30004])) as [[p l]|f] eqn:E; [|by vm_compute in E].
  exists p, 32, 30036. assert (l = [32; 30036]) as ->.
  { assert (Hl : match new_n 2 30004 (empty_pool kChunkSize [30004]) with Ret (_, l) => l | _ => [] end
      = [32; 30036]) by by_eval. by rewrite E in Hl. }
  split_and!; [done|by_eval|by_eval].
Qed.
End Props.
