(* ===== verification/PoolRoom.v ===== *)
(** * PersistMemoryPool: how many blocks fit

    [pool_room] counts the blocks of a slab size that still fit: allocation
    takes exactly one of them, and it fails exactly when there is none.  The
    interface [MallocRoom] says so to the clients of the allocator. *)

From stdpp Require Import base numbers list gmap.
From Stdlib Require Import ZArith Lia.
From S2P Require Import Prelude BitMap MemoryPool MemoryPoolInv MemoryPoolSpec MemoryPoolRecover MallocApi PoolProps.

Class MallocRoom (M : Type) `{!MallocApi M} `{!MallocLaws M} := {
  (** the blocks of a size that still fit *)
  m_room : M -> Z -> Z;
  m_room_law m n : m_wf m -> m_accepts m n ->
    match m_New m n with
    | Ret (m', _) => 0 < m_room m n /\ m_room m' n = m_room m n - 1
    | Err f => f = LogFatal /\ m_room m n = 0
    end
}.

Section Room.
Import MemoryPool.
Implicit Types (p : pool).

Lemma NewInternal_room p slab :
  pool_wf p -> 0 < slab <= 32767 -> is_Some (size_to_chunks_ p !! slab) ->
  match NewInternal p slab with
  | Ret (p', a) => allocated p p' a slab /\ 0 < pool_room p slab
  | Err f => f = LogFatal /\ pool_room p slab = 0
  end.
Proof.
  intros Hp Hs Hq. destruct (NewInternal_total p slab Hp Hs Hq) as [(p' & a & -> & Hal)|[-> Hex]].
  - split; [done|]. pose proof (pool_room_nonneg p' slab (al_wf _ _ _ _ Hal) Hs). rewrite (al_room _ _ _ _ Hal) in *. lia.
  - split; [done|]. by apply exhausted_room.
Qed.

(** [C10] The pool gives exactly the blocks that fit: a sequence of allocations
    of one slab size succeeds if and only if there is room for all of them, it
    uses up one place per block, and the first allocation without room is
    fatal. *)
Theorem new_n_exact k slab p :
  pool_wf p -> 0 < slab <= 32767 -> is_Some (size_to_chunks_ p !! slab) ->
  match new_n k slab p with
  | Ret (p', l) => pool_wf p' /\ length l = k /\ Z.of_nat k <= pool_room p slab /\
      pool_room p' slab = pool_room p slab - Z.of_nat k
  | Err f => f = LogFatal /\ pool_room p slab < Z.of_nat k
  end.
Proof.
  intros Hp Hs. revert p Hp. induction k as [|k IH]; intros p Hp Hq; cbn [new_n].
  { pose proof (pool_room_nonneg p slab Hp Hs). split_and!; (done || lia). }
  pose proof (NewInternal_room p slab Hp Hs Hq) as HN.
  destruct (NewInternal p slab) as [[p1 a]|f]; cbn [mbind outcome_bind]; [|destruct HN; split; [done|lia]].
  destruct HN as [[Hwf _ _ _ _ Hd Hr] Hpos]. specialize (IH p1 Hwf (Hd slab Hq)).
  destruct (new_n k slab p1) as [[p2 l]|f]; cbn [mbind outcome_bind].
  - destruct IH as (H1 & H2 & H3 & H4). cbn [length]. split_and!; (done || lia).
  - destruct IH. split; [done|lia].
Qed.

(** A pool on a new file: as many blocks as its chunks have slabs. *)
Lemma open_new_room F meta memory_size slabs q slab :
  open F meta false memory_size slabs = Ret q -> 0 <= memory_size ->
  pool_room q slab = memory_size / kChunkSize * per_chunk slab.
Proof.
  unfold open. intros H Hm. destruct (CHECK _); [|done]. cbn [mbind outcome_bind] in H. injection H as <-.
  assert (0 <= memory_size / kChunkSize) by (apply Z.div_pos; unfold kChunkSize; lia).
  unfold pool_room. cbn [chunks_]. rewrite (sumZ_const _ _ (per_chunk slab)).
  - rewrite !length_fmap, length_seqZ, Z2Nat.id by done. done.
  - intros c (c0 & -> & _)%list_elem_of_fmap. done.
Qed.

(** The bytes of the blocks are within the file. *)
Lemma new_room_bytes F meta memory_size slabs q slab :
  open F meta false memory_size slabs = Ret q -> 0 <= memory_size -> 0 < slab <= 32767 ->
  pool_room q slab * slab <= memory_size.
Proof.
  intros HO Hm Hs. rewrite (open_new_room _ _ _ _ _ _ HO Hm).
  destruct (per_chunk_bounds slab Hs) as (H1 & _ & H3). pose proof (hs_bounds (per_chunk slab) ltac:(lia)).
  assert (0 <= memory_size / kChunkSize) by (apply Z.div_pos; unfold kChunkSize; lia).
  pose proof (Z.mul_div_le memory_size kChunkSize ltac:(done)).
  transitivity (memory_size / kChunkSize * kChunkSize); [|lia].
  rewrite <- Z.mul_assoc. apply Z.mul_le_mono_nonneg_l; lia.
Qed.

(** ** The allocator interface *)

(** The slab for a request. *)
Definition slab_of (pf : bool) p (n : Z) : option Z :=
  if pf then Some n else lower_bound (allocated_slab_sizes_ p) (kMetaDataSize + n).

Definition request_room (pf : bool) p (n : Z) : Z :=
  match slab_of pf p n with Some s => pool_room p s | None => 0 end.

Lemma New_room (pf : bool) p n :
  good_pool pf p -> pool_accepts pf p n ->
  match New pf p n with
  | Ret (p', _) => 0 < request_room pf p n /\ request_room pf p' n = request_room pf p n - 1
  | Err f => f = LogFatal /\ request_room pf p n = 0
  end.
Proof.
  intros [Hp Hs _ _] Hacc. unfold request_room, slab_of, New, pool_accepts in *. destruct pf.
  - destruct (Hs n Hacc) as (Hr & _ & Hq). pose proof (NewInternal_room p n Hp Hr Hq) as HN.
    destruct (NewInternal p n) as [[p' a]|f]; [|done]. destruct HN as [Hal Hpos].
    by rewrite (al_room _ _ _ _ Hal).
  - destruct Hacc as [Hn (s0 & Hs0 & Hle)].
    destruct (lower_bound _ _) as [slab|] eqn:E; [|pose proof (lower_bound_None _ _ E s0 Hs0); lia].
    apply lower_bound_Some in E as Hin. destruct (Hs slab (proj1 Hin)) as (Hr & _ & Hq).
    pose proof (NewInternal_room p slab Hp Hr Hq) as HN.
    destruct (NewInternal p slab) as [[p' a]|f]; cbn [mbind outcome_bind]; [|done]. destruct HN as [Hal Hpos].
    cbn [allocated_slab_sizes_ with_meta]. rewrite (al_sizes _ _ _ _ Hal), E. split; [done|].
    exact (al_room _ _ _ _ Hal).
Qed.

#[export] Program Instance pool_malloc_room (pf : bool) : MallocRoom (pool_of pf) := {|
  m_room m n := request_room pf (the_pool pf m) n
|}.
Next Obligation.
  intros pf [p] n Hg Hacc. cbn in *. pose proof (New_room pf p n Hg Hacc) as HN.
  by destruct (New pf p n) as [[p' a]|f].
Qed.

(** ** Concrete pools *)

Lemma new_n_exact_witness :
  pool_room (empty_pool (3 * kChunkSize) [32000; 64]) 32000 = 192 /\
  match new_n 5 32000 (empty_pool (3 * kChunkSize) [32000; 64]) with
  | Ret (p', l) => pool_wf p' /\ length l = 5%nat /\ Z.of_nat 5 <= pool_room (empty_pool (3 * kChunkSize) [32000; 64]) 32000 /\
      pool_room p' 32000 = pool_room (empty_pool (3 * kChunkSize) [32000; 64]) 32000 - Z.of_nat 5
  | Err f => f = LogFatal /\ pool_room (empty_pool (3 * kChunkSize) [32000; 64]) 32000 < Z.of_nat 5
  end.
Proof.
  split; [by_eval|].
  destruct (empty_pool_ok (3 * kChunkSize) [32000; 64]) as (Hwf & _ & _ & Hd); [by vm_compute|by vm_compute|].
  apply (new_n_exact 5 32000 (empty_pool (3 * kChunkSize) [32000; 64])); [exact Hwf|lia|apply Hd; set_solver].
Defined.
End Room.
