(* ===== verification/Epoch.v ===== *)
(** * Epoch-based reclamation (src/memory/epoch_manager.h)

    [MinEpochTable] (one queue of protected epochs per thread) and
    [EpochManager].  The operations are functions on the state; since readers
    and writers run in different threads, [step] is the transition relation of
    their atomic actions, with the load of the epoch and its publication in
    [Protect] as two actions, and the increment and the recomputation in
    [BumpCurrentEpoch] as two.

    [GetHash] (CityHash, a library) is a parameter: it only selects the slot
    where the search for a free entry starts. *)

From stdpp Require Import base numbers list gmap.
From Stdlib Require Import ZArith Lia.
From S2P Require Import Prelude.

Module Epoch.
Section Epoch.
Context (GetHash : Z -> Z).

(** [MinEpochTable::Entry] *)
Record Entry := Build_Entry {
  thread_id_ : Z;
  epoch_list_ : list Z
}.

Definition entry_EnqueProtect (e : Entry) (current_epoch : Z) : Entry :=
  {| thread_id_ := thread_id_ e; epoch_list_ := epoch_list_ e ++ [current_epoch] |}.

(** [pop_front] of an empty deque is undefined. *)
Definition DequeUnProtect (e : Entry) : outcome Entry :=
  match epoch_list_ e with
  | [] => Err Undefined
  | _ :: l => Ret {| thread_id_ := thread_id_ e; epoch_list_ := l |}
  end.

(** [std::min_element]: the first smallest element. *)
Definition MinEpoch (e : Entry) : Z :=
  match epoch_list_ e with
  | [] => 0
  | x :: l => foldl (fun m y => if y <? m then y else m) x l
  end.

Definition PendingEpochNum (e : Entry) : Z := i32 (Z.of_nat (length (epoch_list_ e))).

(** The manager and its table; [thread_local_entry] is the slot each thread
    has cached. *)
Record manager := Build_manager {
  current_epoch_ : Z;
  safe_to_reclaim_epoch_ : Z;
  table_ : list Entry;
  thread_local_entry : gmap Z nat
}.

Definition max_thread_num_ (m : manager) : Z := Z.of_nat (length (table_ m)).

Definition with_table (m : manager) (t : list Entry) : manager :=
  {| current_epoch_ := current_epoch_ m; safe_to_reclaim_epoch_ := safe_to_reclaim_epoch_ m;
     table_ := t; thread_local_entry := thread_local_entry m |}.

(** [EpochManager()]: 64 entries. *)
Definition make (max_thread_num : nat) : manager :=
  {| current_epoch_ := 1; safe_to_reclaim_epoch_ := 0;
     table_ := replicate max_thread_num {| thread_id_ := 0; epoch_list_ := [] |};
     thread_local_entry := ∅ |}.

(** One pass of [ReserveEntry]: the first free entry from [start_index] on.
    When a pass finds none the source tries again for two seconds and then
    dies; without other threads every pass is the same. *)
Fixpoint reserve_loop (n : nat) (i start_index : Z) (t : list Entry) : option nat :=
  match n with
  | O => None
  | S n' =>
      let indexToTest := Z.to_nat (u64 (start_index + i) mod Z.of_nat (length t)) in
      match t !! indexToTest with
      | Some e => if thread_id_ e =? 0 then Some indexToTest else reserve_loop n' (i + 1) start_index t
      | None => None
      end
  end.

Definition ReserveEntry (m : manager) (start_index thread_id : Z) : outcome (manager * nat) :=
  match reserve_loop (length (table_ m)) 0 start_index (table_ m) with
  | Some k =>
      Ret ({| current_epoch_ := current_epoch_ m; safe_to_reclaim_epoch_ := safe_to_reclaim_epoch_ m;
              table_ := alter (fun e => {| thread_id_ := thread_id; epoch_list_ := epoch_list_ e |}) k (table_ m);
              thread_local_entry := <[thread_id := k]> (thread_local_entry m) |}, k)
  | None => Err LogFatal
  end.

Definition GetEntryForThread (m : manager) (thread : Z) : outcome (manager * nat) :=
  match thread_local_entry m !! thread with
  | Some k => Ret (m, k)
  | None => ReserveEntry m (GetHash thread mod max_thread_num_ m) thread
  end.

Definition EnqueProtect (m : manager) (thread current_epoch : Z) : outcome manager :=
  '(m, k) ← GetEntryForThread m thread;
  Ret (with_table m (alter (fun e => entry_EnqueProtect e current_epoch) k (table_ m))).

Definition PopUnprotect (m : manager) (thread : Z) : outcome manager :=
  '(m, k) ← GetEntryForThread m thread;
  e ← deref (table_ m !! k);
  e' ← DequeUnProtect e;
  Ret (with_table m (<[k := e']> (table_ m))).

(** The loop over the entries. *)
Definition oldest_call (t : list Entry) (current_epoch : Z) : Z :=
  foldl (fun oldest e =>
    let entryEpoch := MinEpoch e in
    if negb (entryEpoch =? 0) && (entryEpoch <? oldest) then entryEpoch else oldest) current_epoch t.

Definition table_ComputeNewSafeToReclaimEpoch (t : list Entry) (current_epoch : Z) : Z :=
  u64 (oldest_call t current_epoch - 1).

Definition Protect (m : manager) (thread : Z) : outcome manager :=
  EnqueProtect m thread (current_epoch_ m).

Definition UnProtect (m : manager) (thread : Z) : outcome manager := PopUnprotect m thread.

Definition GetCurrentEpoch (m : manager) : Z := current_epoch_ m.

Definition ComputeNewSafeToReclaimEpoch (m : manager) (currentEpoch : Z) : manager :=
  {| current_epoch_ := current_epoch_ m;
     safe_to_reclaim_epoch_ := table_ComputeNewSafeToReclaimEpoch (table_ m) currentEpoch;
     table_ := table_ m; thread_local_entry := thread_local_entry m |}.

(** [current_epoch_.fetch_add(1)] *)
Definition fetch_add_epoch (m : manager) : manager * Z :=
  ({| current_epoch_ := u64 (current_epoch_ m + 1);
      safe_to_reclaim_epoch_ := safe_to_reclaim_epoch_ m;
      table_ := table_ m; thread_local_entry := thread_local_entry m |}, current_epoch_ m).

Definition BumpCurrentEpoch (m : manager) : manager :=
  let '(m, newEpoch) := fetch_add_epoch m in
  ComputeNewSafeToReclaimEpoch m newEpoch.

Definition IsSafeToReclaim (m : manager) (epoch : Z) : bool := epoch <=? safe_to_reclaim_epoch_ m.

Definition MaxPendingEpochNumPerThread (m : manager) : Z :=
  foldl (fun ret e => Z.max ret (PendingEpochNum e)) 0 (table_ m).
End Epoch.
End Epoch.

(** ** The minimum *)

Section Facts.
Import Epoch.
Implicit Types (m : manager) (t : list Entry).

Lemma min_fold (l : list Z) x :
  let r := foldl (fun a y => if y <? a then y else a) x l in
  (r = x \/ r ∈ l) /\ r <= x /\ forall y, y ∈ l -> r <= y.
Proof.
  cbn zeta. revert x. induction l as [|y l IH]; intros x; cbn [foldl].
  - split_and!; [by left|lia|]. intros y Hy. by apply not_elem_of_nil in Hy.
  - destruct (y <? x) eqn:E; b2p.
    + destruct (IH y) as (Hin & Hle & Hall). split_and!; [set_solver|lia|].
      intros z [->|Hz]%elem_of_cons; [done|by apply Hall].
    + destruct (IH x) as (Hin & Hle & Hall). split_and!; [set_solver|lia|].
      intros z [->|Hz]%elem_of_cons; [lia|by apply Hall].
Qed.

Lemma MinEpoch_le (e : Entry) (x : Z) : x ∈ epoch_list_ e -> MinEpoch e <= x.
Proof.
  unfold MinEpoch. destruct (epoch_list_ e) as [|y l]; [by intros ?%not_elem_of_nil|].
  destruct (min_fold l y) as (_ & Hle & Hall). intros [->|Hx]%elem_of_cons; [done|by apply Hall].
Qed.

Lemma MinEpoch_pos (e : Entry) :
  (forall x : Z, x ∈ epoch_list_ e -> 0 < x) -> epoch_list_ e <> [] -> 0 < MinEpoch e.
Proof.
  intros Hpos Hne. unfold MinEpoch. destruct (epoch_list_ e) as [|y l] eqn:E; [done|].
  destruct (min_fold l y) as ([->|Hin] & _ & _); apply Hpos; set_solver.
Qed.

Lemma oldest_call_le t (c : Z) :
  oldest_call t c <= c /\
  forall (e : Entry) (x : Z), e ∈ t -> (forall y : Z, y ∈ epoch_list_ e -> 0 < y) -> x ∈ epoch_list_ e -> oldest_call t c <= x.
Proof.
  unfold oldest_call. revert c. induction t as [|e t IH]; intros c; cbn [foldl].
  - split; [lia|]. intros e x He. by apply not_elem_of_nil in He.
  - set (c' := if negb (MinEpoch e =? 0) && (MinEpoch e <? c) then MinEpoch e else c). destruct (IH c') as [Hle Hall].
    assert (Hc' : c' <= c).
    { unfold c'. destruct (_ && _) eqn:E; [b2p; lia|lia]. }
    split; [lia|]. intros e' x [->|He]%elem_of_cons Hpos Hx; [|by eapply Hall].
    assert (c' <= MinEpoch e).
    { unfold c'. assert (0 < MinEpoch e) by (apply MinEpoch_pos; [done|intros E; rewrite E in Hx; set_solver]).
      destruct (negb (MinEpoch e =? 0) && (MinEpoch e <? c)) eqn:E; [lia|].
      rewrite (proj2 (Z.eqb_neq _ _)) in E by lia. cbn in E. b2p. lia. }
    pose proof (MinEpoch_le e x Hx). lia.
Qed.

Lemma oldest_call_ge t (c b : Z) :
  b <= c -> (forall (e : Entry) (x : Z), e ∈ t -> x ∈ epoch_list_ e -> b <= x) -> b <= oldest_call t c.
Proof.
  unfold oldest_call. revert c. induction t as [|e t IH]; intros c Hc Hall; cbn [foldl]; [done|].
  apply IH; [|intros e' x He'; apply Hall; set_solver].
  destruct (_ && _) eqn:E; [|done]. b2p. unfold MinEpoch in *.
  destruct (epoch_list_ e) as [|y l] eqn:El; [done|].
  destruct (min_fold l y) as ([->|Hin] & _ & _); apply (Hall e); rewrite ?El; set_solver.
Qed.

(** The queues of protected epochs, one per entry. *)
Definition lists m : list (list Z) := epoch_list_ <$> table_ m.

Section Concurrent.
Context (GetHash : Z -> Z).

Lemma GetEntryForThread_lists m thread m' k :
  GetEntryForThread GetHash m thread = Ret (m', k) ->
  current_epoch_ m' = current_epoch_ m /\ safe_to_reclaim_epoch_ m' = safe_to_reclaim_epoch_ m /\
  lists m' = lists m.
Proof.
  unfold GetEntryForThread. destruct (thread_local_entry m !! thread); [intros; by simplify_eq|].
  unfold ReserveEntry. destruct (reserve_loop _ _ _ _) as [j|]; [|done].
  intros [= <- <-]. split_and!; [done|done|]. unfold lists. cbn [table_].
  apply list_eq. intros i. rewrite !list_lookup_fmap.
  destruct (decide (i = j)) as [->|Hne].
  - rewrite list_lookup_alter_eq. by destruct (table_ m !! j).
  - by rewrite list_lookup_alter_ne.
Qed.

Lemma EnqueProtect_lists m thread e m' :
  EnqueProtect GetHash m thread e = Ret m' ->
  exists k, current_epoch_ m' = current_epoch_ m /\ safe_to_reclaim_epoch_ m' = safe_to_reclaim_epoch_ m /\
    lists m' = alter (fun l => l ++ [e]) k (lists m).
Proof.
  unfold EnqueProtect. intros H. inv_ret. destruct x as [m1 k]. inv_ret. simplify_eq.
  apply GetEntryForThread_lists in H as (Hc & Hs & Hl). exists k. split_and!; [done|done|].
  rewrite <- Hl. unfold lists. cbn [table_ with_table].
  apply list_eq. intros i. rewrite list_lookup_fmap. destruct (decide (i = k)) as [->|Hne].
  - rewrite !list_lookup_alter_eq, list_lookup_fmap. by destruct (table_ m1 !! k).
  - by rewrite !list_lookup_alter_ne, list_lookup_fmap by done.
Qed.

Lemma UnProtect_lists m thread m' :
  UnProtect GetHash m thread = Ret m' ->
  exists k x l, current_epoch_ m' = current_epoch_ m /\
    safe_to_reclaim_epoch_ m' = safe_to_reclaim_epoch_ m /\
    lists m !! k = Some (x :: l) /\ lists m' = <[k := l]> (lists m).
Proof.
  unfold UnProtect, PopUnprotect. intros H. inv_ret. destruct x as [m1 k]. inv_ret. simplify_eq.
  apply GetEntryForThread_lists in H as (Hc & Hs & Hl). unfold deref in H0.
  destruct (table_ m1 !! k) as [e|] eqn:Ek; [|done]. simplify_eq. unfold DequeUnProtect in H1.
  destruct (epoch_list_ x) as [|y l] eqn:El; [done|]. simplify_eq.
  exists k, y, l. split_and!; [done|done| |].
  - rewrite <- Hl. unfold lists. rewrite list_lookup_fmap, Ek. cbn. by rewrite El.
  - rewrite <- Hl. unfold lists. cbn [table_ with_table]. by rewrite list_fmap_insert.
Qed.

(** ** Readers and writers *)

(** The shared state, the epochs loaded and not yet published, the increments
    whose recomputation is to come, and, for the statement only, the epoch at
    the time each protection was published. *)
Record sys := Build_sys {
  mgr : manager;
  loaded : gmap Z Z;
  bumping : list Z;
  stamps : list (list Z)
}.

Inductive step : sys -> sys -> Prop :=
  | step_load m ld bp st thread :
      step (Build_sys m ld bp st) (Build_sys m (<[thread := current_epoch_ m]> ld) bp st)
  | step_publish m ld bp st thread e m' k :
      ld !! thread = Some e -> EnqueProtect GetHash m thread e = Ret m' ->
      lists m' = alter (fun l => l ++ [e]) k (lists m) ->
      step (Build_sys m ld bp st)
           (Build_sys m' (delete thread ld) bp (alter (fun l => l ++ [current_epoch_ m]) k st))
  | step_unprotect m ld bp st thread m' k x l sx sl :
      UnProtect GetHash m thread = Ret m' ->
      lists m !! k = Some (x :: l) -> lists m' = <[k := l]> (lists m) -> st !! k = Some (sx :: sl) ->
      step (Build_sys m ld bp st) (Build_sys m' ld bp (<[k := sl]> st))
  | step_fetch_add m ld bp st :
      current_epoch_ m < 2 ^ 64 - 1 ->
      step (Build_sys m ld bp st)
           (Build_sys (fetch_add_epoch m).1 ld ((fetch_add_epoch m).2 :: bp) st)
  | step_compute m ld bp st old bp1 bp2 :
      bp = bp1 ++ old :: bp2 ->
      step (Build_sys m ld bp st) (Build_sys (ComputeNewSafeToReclaimEpoch m old) ld (bp1 ++ bp2) st).

Definition init (n : nat) : sys :=
  {| mgr := make n; loaded := ∅; bumping := []; stamps := replicate n [] |}.

Definition reachable (n : nat) (s : sys) : Prop := rtc step (init n) s.

Record sys_inv (s : sys) : Prop := {
  si_cur : 1 <= current_epoch_ (mgr s) < 2 ^ 64;
  si_safe : 0 <= safe_to_reclaim_epoch_ (mgr s) < current_epoch_ (mgr s);
  si_loaded : forall (th e : Z), loaded s !! th = Some e -> 1 <= e <= current_epoch_ (mgr s);
  si_bump : forall old, old ∈ bumping s -> 1 <= old < current_epoch_ (mgr s);
  si_prot : Forall2 (Forall2 (fun e st => 1 <= e <= st /\ st <= current_epoch_ (mgr s) /\
              safe_to_reclaim_epoch_ (mgr s) < st)) (lists (mgr s)) (stamps s)
}.

Lemma Forall2_weaken {A B} (P Q : A -> B -> Prop) (l : list (list A)) (k : list (list B)) :
  (forall x y, P x y -> Q x y) -> Forall2 (Forall2 P) l k -> Forall2 (Forall2 Q) l k.
Proof. intros HPQ H. eapply Forall2_impl; [exact H|]. intros. by eapply Forall2_impl. Qed.

Lemma lists_pos m st cur safe :
  Forall2 (Forall2 (fun e s => 1 <= e <= s /\ s <= cur /\ safe < s)) (lists m) st ->
  forall e, e ∈ table_ m -> forall y : Z, y ∈ epoch_list_ e -> 0 < y.
Proof.
  intros HF e He y Hy. apply list_elem_of_lookup in He as [i Hi].
  assert (Hl : lists m !! i = Some (epoch_list_ e)) by (unfold lists; by rewrite list_lookup_fmap, Hi).
  destruct (Forall2_lookup_l _ _ _ _ _ HF Hl) as (sl & _ & HF').
  apply list_elem_of_lookup in Hy as [j Hj].
  destruct (Forall2_lookup_l _ _ _ _ _ HF' Hj) as (s & _ & ? & _). lia.
Qed.

Lemma step_inv s s' : step s s' -> sys_inv s -> sys_inv s'.
Proof.
  intros Hst [Hc Hs Hl Hb Hp]. destruct Hst; cbn [mgr loaded bumping stamps] in *.
  - split; cbn [mgr loaded bumping stamps]; try done. intros t e Ht.
    apply lookup_insert_Some in Ht as [[_ <-]|[_ Ht]]; [lia|by eapply Hl].
  - destruct (EnqueProtect_lists _ _ _ _ H0) as (_ & Ec & Es & _).
    split; cbn [mgr loaded bumping stamps]; rewrite ?Ec, ?Es; try done.
    + intros t x Ht. apply lookup_delete_Some in Ht as [_ Ht]. by eapply Hl.
    + rewrite H1. apply Forall2_alter; [done|]. intros l sl Hli Hsi HF. apply Forall2_app; [done|].
      constructor; [|constructor]. specialize (Hl _ _ H). lia.
  - destruct (UnProtect_lists _ _ _ H) as (_ & _ & _ & Ec & Es & _).
    split; cbn [mgr loaded bumping stamps]; rewrite ?Ec, ?Es; try done.
    rewrite H1. pose proof (Forall2_lookup_lr _ _ _ _ _ _ Hp H0 H2) as HF.
    apply Forall2_cons in HF as [_ HF]. by apply Forall2_insert.
  - split; cbn [mgr loaded bumping stamps fetch_add_epoch fst snd current_epoch_ safe_to_reclaim_epoch_];
      rewrite ?u64_small by lia; try lia.
    + intros t e Ht. specialize (Hl _ _ Ht). lia.
    + intros old [->|Ho]%elem_of_cons; [lia|]. specialize (Hb _ Ho). lia.
    + eapply Forall2_weaken; [|exact Hp]. cbn. intros. lia.
  - subst bp. assert (Hold : 1 <= old < current_epoch_ m) by (apply Hb; set_solver).
    pose proof (lists_pos _ _ _ _ Hp) as Hpos.
    destruct (oldest_call_le (table_ m) old) as [Hle Hall].
    pose proof (oldest_call_ge (table_ m) old 1 ltac:(lia)
      ltac:(intros e x He Hx; specialize (Hpos e He x Hx); lia)) as Hge.
    assert (Hnew : table_ComputeNewSafeToReclaimEpoch (table_ m) old = oldest_call (table_ m) old - 1).
    { unfold table_ComputeNewSafeToReclaimEpoch. apply u64_small. lia. }
    split; cbn [mgr loaded bumping stamps ComputeNewSafeToReclaimEpoch current_epoch_ safe_to_reclaim_epoch_];
      rewrite ?Hnew; try done; try lia.
    + intros o Ho. apply Hb. set_solver.
    + change (lists (ComputeNewSafeToReclaimEpoch m old)) with (lists m).
      apply Forall2_same_length_lookup. split; [by eapply Forall2_length|].
      intros i l sl Hli Hsi. pose proof (Forall2_lookup_lr _ _ _ _ _ _ Hp Hli Hsi) as HF.
      apply Forall2_same_length_lookup. split; [by eapply Forall2_length|].
      intros j e st' He Hst'. destruct (Forall2_lookup_lr _ _ _ _ _ _ HF He Hst') as (H1 & H2 & _).
      split_and!; [lia|lia|lia|].
      unfold lists in Hli. rewrite list_lookup_fmap in Hli. apply fmap_Some in Hli as (en & Hen & ->).
      pose proof (list_elem_of_lookup_2 _ _ _ Hen) as Hin.
      specialize (Hall en e Hin (Hpos en Hin) ltac:(by eapply list_elem_of_lookup_2)). lia.
Qed.

Lemma reachable_inv n s : reachable n s -> sys_inv s.
Proof.
  unfold reachable. intros Hr. assert (Hi : sys_inv (init n)).
  { split; cbn; try lia.
    - intros t e Ht. by rewrite lookup_empty in Ht.
    - intros o Ho. by apply not_elem_of_nil in Ho.
    - unfold lists. cbn. rewrite fmap_replicate. cbn. clear Hr. induction n as [|n IH]; cbn; [constructor|].
      constructor; [constructor|exact IH]. }
  revert Hi. induction Hr as [|x y z Hxy _ IH]; [done|]. intros Hx. apply IH. by eapply step_inv.
Qed.

Lemma steps_mono s s' : rtc step s s' -> sys_inv s -> current_epoch_ (mgr s) <= current_epoch_ (mgr s').
Proof.
  induction 1 as [|x y z Hxy _ IH]; intros Hi; [done|].
  pose proof (step_inv _ _ Hxy Hi) as Hi'. specialize (IH Hi'). etrans; [|exact IH].
  destruct Hxy; cbn [mgr]; try done.
  - by destruct (EnqueProtect_lists _ _ _ _ H0) as (_ & -> & _).
  - by destruct (UnProtect_lists _ _ _ H) as (_ & _ & _ & -> & _).
  - cbn. rewrite u64_small; destruct Hi as [Hc _ _ _ _]; cbn in Hc; lia.
Qed.
End Concurrent.

(** [C14] Reclamation is safe under every interleaving of the atomic actions of
    readers and writers: when a block is retired, it gets the current epoch;
    as long as any protection that was published before is still in force, the
    epoch of the block is not safe to reclaim. *)
Theorem retired_not_reclaimed GetHash n s s' k sts st :
  reachable GetHash n s -> rtc (step GetHash) s s' ->
  stamps s' !! k = Some sts -> st ∈ sts -> st <= current_epoch_ (mgr s) ->
  IsSafeToReclaim (mgr s') (GetCurrentEpoch (mgr s)) = false.
Proof.
  intros Hr Hss Hk Hst Hle. assert (Hr' : reachable GetHash n s') by (unfold reachable in *; by etrans).
  destruct (reachable_inv _ _ _ Hr') as [_ _ _ _ Hp].
  destruct (Forall2_lookup_r _ _ _ _ _ Hp Hk) as (l & _ & HF).
  apply list_elem_of_lookup in Hst as [j Hj].
  destruct (Forall2_lookup_r _ _ _ _ _ HF Hj) as (e & _ & _ & _ & Hs).
  unfold IsSafeToReclaim, GetCurrentEpoch. apply Z.leb_gt. lia.
Qed.

(** Reclamation makes progress: when no protection is in force, one bump
    makes every earlier epoch safe. *)
Theorem bump_reclaims m r :
  0 < current_epoch_ m < 2 ^ 64 -> (forall e, e ∈ table_ m -> epoch_list_ e = []) ->
  r < current_epoch_ m -> IsSafeToReclaim (BumpCurrentEpoch m) r = true.
Proof.
  intros Hc Hn Hr. unfold IsSafeToReclaim, BumpCurrentEpoch, fetch_add_epoch. cbn.
  unfold table_ComputeNewSafeToReclaimEpoch. apply Z.leb_le.
  pose proof (oldest_call_ge (table_ m) (current_epoch_ m) (current_epoch_ m) ltac:(lia)
    ltac:(intros e x He Hx; rewrite (Hn e He) in Hx; by apply not_elem_of_nil in Hx)).
  destruct (oldest_call_le (table_ m) (current_epoch_ m)) as [Hle _].
  rewrite u64_small by lia. lia.
Qed.

(** A reader that protects itself, then a bump by a writer. *)
Definition reader_manager : manager :=
  match EnqueProtect (fun x => x) (make 2) 7 1 with Ret m => m | Err _ => make 2 end.

Definition reader_sys : sys :=
  Build_sys reader_manager (delete 7 (<[7 := 1]> ∅)) [] (alter (fun l => l ++ [1]) 1%nat [[]; []]).

Definition writer_sys : sys :=
  let s := Build_sys (fetch_add_epoch reader_manager).1 (delete 7 (<[7 := 1]> ∅)) [1]
             (alter (fun l => l ++ [1]) 1%nat [[]; []]) in
  Build_sys (ComputeNewSafeToReclaimEpoch (mgr s) 1) (loaded s) [] (stamps s).

Lemma retired_not_reclaimed_witness :
  reachable (fun x => x) 2 reader_sys /\ rtc (step (fun x => x)) reader_sys writer_sys /\
  current_epoch_ (mgr writer_sys) = 2 /\
  IsSafeToReclaim (mgr writer_sys) (GetCurrentEpoch (mgr reader_sys)) = false.
Proof.
  assert (Hr : reachable (fun x => x) 2 reader_sys).
  { eapply rtc_l; [apply (step_load _ (make 2) ∅ [] (replicate 2 []) 7)|].
    eapply rtc_l; [|apply rtc_refl].
    eapply (step_publish _ (make 2) (<[7 := 1]> ∅) [] (replicate 2 []) 7 1 reader_manager 1%nat);
      by_eval. }
  assert (Hs : rtc (step (fun x => x)) reader_sys writer_sys).
  { eapply rtc_l; [apply step_fetch_add; by_eval|]. eapply rtc_l; [|apply rtc_refl].
    apply (step_compute _ _ _ _ _ 1 [] []). by_eval. }
  split; [exact Hr|]. split; [exact Hs|]. split; [by_eval|].
  apply (retired_not_reclaimed (fun x => x) 2 reader_sys writer_sys 1 [1] 1 Hr Hs);
    [by_eval|set_solver|by vm_compute].
Defined.

Lemma bump_reclaims_witness : IsSafeToReclaim (BumpCurrentEpoch (make 64)) 0 = true.
Proof.
  apply (bump_reclaims (make 64) 0); [cbn; lia| |cbn; lia].
  intros e He. cbn [make table_] in He. apply elem_of_replicate in He as [-> _]. done.
Defined.
End Facts.
