(* ===== verification/Recycle.v ===== *)
(** * Delayed release of blocks (src/memory/malloc.h)

    [DirectRecycle], [DelayedRecycle] (by time) and [ShmEpochRecycle] (by
    epoch) over any allocator of the interface.  The clock is read twice in
    [DelayedRecycle::Recycle]; the two values are arguments.  A null pointer
    is [None]. *)

From stdpp Require Import base numbers list gmap.
From Stdlib Require Import ZArith Lia.
From S2P Require Import Prelude BitMap MemoryPool MemoryPoolInv MallocApi PoolProps Epoch.

Module Recycle.
Section Recycle.
Context {M : Type} `{!MallocApi M}.

(** [CHECK(malloc_->Free(p))] *)
Definition free_checked (m : M) (p : Z) : outcome M :=
  '(m, b) ← m_Free m p;
  _ ← CHECK b;
  Ret m.

(** The loop [while (recycle_ptr_.size() && ready(front)) { Free; pop; }] *)
Fixpoint drain (ready : Z -> bool) (q : list (Z * Z)) (m : M) : outcome (list (Z * Z) * M) :=
  match q with
  | [] => Ret ([], m)
  | (t, p) :: q' =>
      if ready t then m' ← free_checked m p; drain ready q' m'
      else Ret (q, m)
  end.

Definition push (q : list (Z * Z)) (t : Z) (ptr : option Z) : list (Z * Z) :=
  match ptr with
  | Some p => q ++ [(t, p)]
  | None => q
  end.

(** [DirectRecycle::Recycle]: the result of [Free] is dropped. *)
Definition Direct_Recycle (m : M) (p : Z) : outcome M :=
  '(m, _) ← m_Free m p;
  Ret m.

Record Delayed := Build_Delayed { d_recycle_ptr_ : list (Z * Z); delay_ts_ : Z }.

Definition Delayed_Recycle (r : Delayed) (m : M) (ptr : option Z) (now now' : Z) :
    outcome (Delayed * M) :=
  let q := push (d_recycle_ptr_ r) now ptr in
  let recyle_ts := i64 (now' - delay_ts_ r) in
  '(q, m) ← drain (fun t => t <? recyle_ts) q m;
  Ret ({| d_recycle_ptr_ := q; delay_ts_ := delay_ts_ r |}, m).

Definition Delayed_Clear (r : Delayed) (m : M) : outcome (Delayed * M) :=
  '(q, m) ← drain (fun _ => true) (d_recycle_ptr_ r) m;
  Ret ({| d_recycle_ptr_ := q; delay_ts_ := delay_ts_ r |}, m).

Definition Delayed_GetPendingNum (r : Delayed) : Z := Z.of_nat (length (d_recycle_ptr_ r)).

Definition SetDelayTs (r : Delayed) (delay_ts : Z) : Delayed :=
  {| d_recycle_ptr_ := d_recycle_ptr_ r; delay_ts_ := delay_ts |}.

Record EpochRecycle := Build_EpochRecycle { recycle_ptr_ : list (Z * Z); recycled_count : Z }.

Definition Epoch_make : EpochRecycle := {| recycle_ptr_ := []; recycled_count := 0 |}.

Definition Epoch_Recycle (r : EpochRecycle) (g : Epoch.manager) (m : M) (ptr : option Z) :
    outcome (EpochRecycle * Epoch.manager * M) :=
  let recycled_count := i64 (recycled_count r + 1) in
  let removal_epoch := Epoch.GetCurrentEpoch g in
  let q := push (recycle_ptr_ r) removal_epoch ptr in
  let g := if Z.rem recycled_count 1000 =? 0 then Epoch.BumpCurrentEpoch g else g in
  '(q, m) ← drain (Epoch.IsSafeToReclaim g) q m;
  Ret ({| recycle_ptr_ := q; recycled_count := recycled_count |}, g, m).

Definition Epoch_Clear (r : EpochRecycle) (m : M) : outcome (EpochRecycle * M) :=
  '(q, m) ← drain (fun _ => true) (recycle_ptr_ r) m;
  Ret ({| recycle_ptr_ := q; recycled_count := recycled_count r |}, m).

Definition Epoch_GetPendingNum (r : EpochRecycle) : Z := Z.of_nat (length (recycle_ptr_ r)).
End Recycle.
End Recycle.

Section Facts.
Import Recycle.
Context {M : Type} `{!MallocApi M} `{!MallocLaws M}.
Implicit Types (m : M) (q : list (Z * Z)).

(** The queued pointers are allocated, and none is queued twice. *)
Definition pending_ok q m : Prop := NoDup q.*2 /\ forall p, p ∈ q.*2 -> p ∈ (m_live m).*1.

(** What releasing the blocks at the addresses [ps] leaves. *)
Record released m m' (ps : list Z) : Prop := {
  rl_wf : m_wf m';
  rl_live : exists bs, bs.*1 = ps /\ m_live m ≡ₚ bs ++ m_live m';
  rl_bound : m_bound m' = m_bound m;
  rl_acc : forall n, m_accepts m n -> m_accepts m' n
}.

Lemma released_nil m : m_wf m -> released m m [].
Proof. intros Hm. split; [done|by exists []|done|done]. Qed.

Lemma free_checked_ok m p :
  m_wf m -> p ∈ (m_live m).*1 -> exists m', free_checked m p = Ret m' /\ released m m' [p].
Proof.
  intros Hm Hp. apply list_elem_of_fmap in Hp as ([p' n] & -> & Hin). cbn [fst].
  destruct (m_Free_law m p' n Hm Hin) as (m' & HF & Hm' & HP & Hb & Hacc).
  exists m'. unfold free_checked. rewrite HF. split; [done|]. split; [done| |done|done].
  by exists [(p', n)].
Qed.

Lemma released_live m m' ps p :
  m_wf m -> released m m' ps -> p ∈ (m_live m).*1 -> p ∉ ps -> p ∈ (m_live m').*1.
Proof.
  intros Hm [_ (bs & <- & HP) _ _] Hp Hn. rewrite HP, fmap_app, elem_of_app in Hp. by destruct Hp.
Qed.

Lemma released_trans m1 m2 m3 ps qs :
  released m1 m2 ps -> released m2 m3 qs -> released m1 m3 (ps ++ qs).
Proof.
  intros [_ (bs & <- & H1) B1 A1] [Hw (cs & <- & H2) B2 A2]. split; [done| |congruence|by eauto].
  exists (bs ++ cs). rewrite fmap_app. split; [done|]. by rewrite H1, H2, (assoc_L (++)).
Qed.

Lemma drain_ok ready q m :
  m_wf m -> pending_ok q m ->
  exists fr rest m', drain ready q m = Ret (rest, m') /\ q = fr ++ rest /\
    Forall (fun tp => ready tp.1 = true) fr /\
    match rest with [] => True | (t, _) :: _ => ready t = false end /\
    released m m' fr.*2 /\ pending_ok rest m'.
Proof.
  revert m. induction q as [|[t p] q IH]; intros m Hm Hok.
  - exists [], [], m. split_and!; try done. by apply released_nil.
  - cbn [drain]. destruct (ready t) eqn:Er.
    + destruct Hok as [Hnd Hin]. cbn in Hnd, Hin. apply NoDup_cons in Hnd as [Hp Hnd].
      destruct (free_checked_ok m p Hm ltac:(apply Hin; set_solver)) as (m1 & -> & Hr1).
      cbn [mbind outcome_bind].
      destruct (IH m1 (rl_wf _ _ _ Hr1)) as (fr & rest & m' & -> & -> & Hall & Hrest & Hr & Hok').
      { split; [done|]. intros x Hx. eapply released_live; [exact Hm|exact Hr1|apply Hin; set_solver|].
        intros ->%list_elem_of_singleton. done. }
      exists ((t, p) :: fr), rest, m'. split_and!; try done; [by constructor|].
      cbn. eapply (released_trans m m1 m' [p]); done.
    + exists [], ((t, p) :: q), m. split_and!; try done. by apply released_nil.
Qed.

Lemma Epoch_Recycle_gen r g m p :
  m_wf m -> pending_ok (push (recycle_ptr_ r) (Epoch.GetCurrentEpoch g) (Some p)) m ->
  exists r' g' m' fr, Epoch_Recycle r g m (Some p) = Ret (r', g', m') /\
    push (recycle_ptr_ r) (Epoch.GetCurrentEpoch g) (Some p) = fr ++ recycle_ptr_ r' /\
    released m m' fr.*2 /\ pending_ok (recycle_ptr_ r') m' /\
    Forall (fun tp => Epoch.IsSafeToReclaim g' tp.1 = true) fr /\
    match recycle_ptr_ r' with [] => True | (t, _) :: _ => Epoch.IsSafeToReclaim g' t = false end.
Proof.
  intros Hm Hok. unfold Epoch_Recycle.
  set (g' := if Z.rem _ 1000 =? 0 then _ else g).
  destruct (drain_ok (Epoch.IsSafeToReclaim g') _ m Hm Hok)
    as (fr & rest & m' & -> & Hq & ? & ? & ? & ?).
  cbn [mbind outcome_bind]. eexists _, g', m', fr. split; [done|]. by cbn [recycle_ptr_].
Qed.

(** A block that is recycled by epoch is released only when its epoch is
    safe: the call returns, the blocks it releases are the longest prefix of
    the queue whose epochs are safe, each is released once, and all others,
    the new one included unless it is among them, stay allocated and queued. *)
Theorem Epoch_Recycle_safe r g m p :
  m_wf m -> pending_ok (push (recycle_ptr_ r) (Epoch.GetCurrentEpoch g) (Some p)) m ->
  exists r' g' m' fr, Epoch_Recycle r g m (Some p) = Ret (r', g', m') /\
    push (recycle_ptr_ r) (Epoch.GetCurrentEpoch g) (Some p) = fr ++ recycle_ptr_ r' /\
    Forall (fun tp => Epoch.IsSafeToReclaim g' tp.1 = true) fr /\
    match recycle_ptr_ r' with [] => True | (t, _) :: _ => Epoch.IsSafeToReclaim g' t = false end /\
    released m m' fr.*2 /\ pending_ok (recycle_ptr_ r') m'.
Proof.
  intros Hm Hok. destruct (Epoch_Recycle_gen r g m p Hm Hok) as (r' & g' & m' & fr & ? & ? & ? & ? & ? & ?).
  exists r', g', m', fr. by split_and!.
Qed.

Lemma Epoch_Clear_gen r m :
  m_wf m -> pending_ok (recycle_ptr_ r) m ->
  exists r' m', Epoch_Clear r m = Ret (r', m') /\ recycle_ptr_ r' = [] /\
    released m m' (recycle_ptr_ r).*2.
Proof.
  intros Hm Hok. unfold Epoch_Clear.
  destruct (drain_ok (fun _ => true) _ m Hm Hok) as (fr & rest & m' & -> & Hq & _ & Hrest & Hr & _).
  destruct rest as [|[]]; [|done]. rewrite app_nil_r in Hq. subst fr.
  cbn [mbind outcome_bind]. by eexists _, m'.
Qed.

(** Destroying the recycler releases every queued block. *)
Theorem Epoch_Clear_releases_all r m :
  m_wf m -> pending_ok (recycle_ptr_ r) m ->
  exists r' m', Epoch_Clear r m = Ret (r', m') /\ recycle_ptr_ r' = [] /\
    released m m' (recycle_ptr_ r).*2.
Proof. apply Epoch_Clear_gen. Qed.

(** A block that is recycled by time is released only when it has waited
    for the delay. *)
Theorem Delayed_Recycle_waits r m p now now' :
  m_wf m -> pending_ok (push (d_recycle_ptr_ r) now (Some p)) m ->
  - 2 ^ 62 <= now' - delay_ts_ r < 2 ^ 62 ->
  exists r' m' fr, Delayed_Recycle r m (Some p) now now' = Ret (r', m') /\
    push (d_recycle_ptr_ r) now (Some p) = fr ++ d_recycle_ptr_ r' /\
    Forall (fun tp => tp.1 + delay_ts_ r < now') fr /\
    released m m' fr.*2 /\ pending_ok (d_recycle_ptr_ r') m'.
Proof.
  intros Hm Hok Hts. unfold Delayed_Recycle. rewrite i64_small by lia.
  destruct (drain_ok (fun t => t <? now' - delay_ts_ r) _ m Hm Hok)
    as (fr & rest & m' & -> & Hq & Hall & _ & Hr & Hok').
  cbn [mbind outcome_bind]. eexists _, m', fr. split; [done|]. split_and!; try done.
  eapply Forall_impl; [exact Hall|]. intros [t x] Ht. cbn in *. b2p. lia.
Qed.
End Facts.

(** ** A pool with one block *)

Section Witness.
Import Recycle.

Definition one_malloc : pool_of true := PoolOf true one_block.

Lemma one_malloc_live : m_live one_malloc = [(32, 32000)].
Proof. by_eval. Qed.

Lemma one_malloc_wf : m_wf one_malloc.
Proof.
  split; cbn [the_pool one_malloc].
  - apply one_block_wf.
  - intros s Hs. assert (s = 32000) as ->.
    { change (MemoryPool.allocated_slab_sizes_ one_block) with [32000] in Hs. set_solver. }
    split_and!; done.
  - intros a n Hin. change (live one_block) with [(32, 32000)] in Hin.
    apply list_elem_of_singleton in Hin. simplify_eq.
    change (MemoryPool.allocated_slab_sizes_ one_block) with [32000]. set_solver.
  - done.
Qed.

Lemma one_pending t : pending_ok [(t, 32)] one_malloc.
Proof.
  split; [apply NoDup_singleton|]. intros p Hp. rewrite one_malloc_live.
  cbn in Hp |- *. set_solver.
Qed.

Lemma Epoch_Recycle_safe_witness :
  exists r' g' m' fr, Epoch_Recycle Epoch_make (Epoch.make 64) one_malloc (Some 32) = Ret (r', g', m') /\
    push [] 1 (Some 32) = fr ++ recycle_ptr_ r' /\
    Forall (fun tp => Epoch.IsSafeToReclaim g' tp.1 = true) fr /\
    match recycle_ptr_ r' with [] => True | (t, _) :: _ => Epoch.IsSafeToReclaim g' t = false end /\
    released one_malloc m' fr.*2 /\ pending_ok (recycle_ptr_ r') m'.
Proof.
  apply (Epoch_Recycle_safe Epoch_make (Epoch.make 64) one_malloc 32);
    [apply one_malloc_wf|apply one_pending].
Defined.

Lemma Epoch_Clear_releases_all_witness :
  let r := {| recycle_ptr_ := [(5, 32)]; recycled_count := 1 |} in
  exists r' m', Epoch_Clear r one_malloc = Ret (r', m') /\ recycle_ptr_ r' = [] /\
    released one_malloc m' [32].
Proof.
  apply (Epoch_Clear_releases_all {| recycle_ptr_ := [(5, 32)]; recycled_count := 1 |} one_malloc);
    [apply one_malloc_wf|apply one_pending].
Defined.

Lemma Delayed_Recycle_waits_witness :
  let r := {| d_recycle_ptr_ := []; delay_ts_ := 1000000 |} in
  exists r' m' fr, Delayed_Recycle r one_malloc (Some 32) 7 7 = Ret (r', m') /\
    push [] 7 (Some 32) = fr ++ d_recycle_ptr_ r' /\
    Forall (fun tp => tp.1 + 1000000 < 7) fr /\
    released one_malloc m' fr.*2 /\ pending_ok (d_recycle_ptr_ r') m'.
Proof.
  apply (Delayed_Recycle_waits {| d_recycle_ptr_ := []; delay_ts_ := 1000000 |} one_malloc 32 7 7);
    [apply one_malloc_wf|apply one_pending|cbn; lia].
Defined.
End Witness.
