(* ===== verification/PetKV.v ===== *)
(** * PetKV and PetMultiKV (src/pet_kv/pet_kv.h, src/pet_kv/pet_kv.cc)

    The key-value store of one shard: the index of [PetHash] with packed
    offsets as values, the allocator (any instance of the interface), the epoch
    recycler and the bytes of the value file; then the shards.  [CityHash] is
    the parameter [GetHashWithLevel].

    An [Update] is one run under [modify_lock_]; the epoch manager is shared
    by the shards and threaded through the calls. *)

From stdpp Require Import base numbers list gmap.
From Stdlib Require Import ZArith Lia.
From S2P Require Import Prelude F14Chunk PetHashDict ShmCommon MemoryPool MallocApi Epoch Recycle.

(** ** Bytes of the value file *)

(** [memcpy(addr, bs, size)] *)
Fixpoint write_bytes (mem : gmap Z Z) (addr : Z) (bs : list Z) : gmap Z Z :=
  match bs with
  | [] => mem
  | b :: bs' => write_bytes (<[addr := b]> mem) (addr + 1) bs'
  end.

Definition read_bytes (mem : gmap Z Z) (addr size : Z) : list Z :=
  (fun i => default 0 (mem !! (addr + i))) <$> seqZ 0 size.

Module PetKV.
Section PetKV.
Context {M : Type} `{!MallocApi M} (kConfig : PetKVData.Config).

Record petkv := Build_petkv {
  dict_ : PetHash.dict Z;
  shm_malloc_ : M;
  shm_recycle_ : Recycle.EpochRecycle;
  memory_ : gmap Z Z;
  pre_known_value_size_ : Z
}.

(** [PetKVReadData]; [data] is [None] for [nullptr]. *)
Record PetKVReadData := Build_PetKVReadData {
  r_expire_timet : Z;
  r_data : option Z;
  r_size : Z
}.

Definition with_parts (kv : petkv) (d : PetHash.dict Z) (m : M) (r : Recycle.EpochRecycle)
    (mem : gmap Z Z) : petkv :=
  {| dict_ := d; shm_malloc_ := m; shm_recycle_ := r; memory_ := mem;
     pre_known_value_size_ := pre_known_value_size_ kv |}.

Definition Get (kv : petkv) (key : Z) : outcome PetKVReadData :=
  r ← PetHash.Get (dict_ kv) key;
  match r with
  | None => Ret {| r_expire_timet := 0; r_data := None; r_size := 0 |}
  | Some cache =>
      let offset := PetKVData.shm_malloc_offset kConfig cache in
      size ← (if pre_known_value_size_ kv =? 0 then m_GetMallocSize (shm_malloc_ kv) offset
              else Ret (pre_known_value_size_ kv));
      Ret {| r_expire_timet := PetKVData.expire_timet kConfig cache;
             r_data := Some (m_GetMallocData (shm_malloc_ kv) offset); r_size := size |}
  end.

(** [p_cache->SetShmMallocOffset(offset)] through the pointer into the index. *)
Definition set_offset (d : PetHash.dict Z) (p : Z * nat) (offset : Z) : PetHash.dict Z :=
  PetHash.write_ptr d p (PetKVData.SetShmMallocOffset kConfig (PetHash.read_ptr d p) offset).

(** [FREE_SHM(shm_malloc_->GetMallocData(offset))] *)
Definition FREE_SHM (r : Recycle.EpochRecycle) (g : Epoch.manager) (m : M) (offset : Z) :
    outcome (Recycle.EpochRecycle * Epoch.manager * M) :=
  Recycle.Epoch_Recycle r g m (Some (m_GetMallocData m offset)).

(** [New] and [Insert] never return [nullptr] here: the allocator dies when it
    is out of memory, and so does [Insert] when the dict is. *)
Definition Update (kv : petkv) (g : Epoch.manager) (key : Z) (log : list Z) :
    outcome (petkv * Epoch.manager * bool) :=
  found ← PetHash.GetReturnPtr (dict_ kv) key;
  '(m, value) ← m_New (shm_malloc_ kv) (Z.of_nat (length log));
  let mem := write_bytes (memory_ kv) value log in
  offset ← m_GetMallocOffset m value;
  let new_cache := PetKVData.make kConfig offset in
  let new_offset := PetKVData.shm_malloc_offset kConfig new_cache in
  '(d, p_cache, r, g, m) ←
    match found with
    | None =>
        '(d, p_cache) ← PetHash.Insert (dict_ kv) key new_cache None true;
        Ret (set_offset d p_cache new_offset, p_cache, shm_recycle_ kv, g, m)
    | Some p_cache =>
        let old := PetKVData.shm_malloc_offset kConfig (PetHash.read_ptr (dict_ kv) p_cache) in
        '(r, g, m) ← FREE_SHM (shm_recycle_ kv) g m old;
        Ret (set_offset (dict_ kv) p_cache new_offset, p_cache, r, g, m)
    end;
  '(r, g, m) ←
    (if negb (PetKVData.shm_malloc_offset kConfig (PetHash.read_ptr d p_cache) =? new_offset)
     then FREE_SHM r g m new_offset
     else Ret (r, g, m));
  Ret (with_parts kv d m r mem, g, true).

Definition key_num (kv : petkv) : Z := PetHash.Size (dict_ kv).

(** [PetKV::Valid] with the size of the dict file. *)
Definition Valid (kv : petkv) (dict_file_size : Z) : outcome bool :=
  PetHash.Valid (dict_ kv) dict_file_size.

(** The constructor, on the allocator opened on its file, the content of the
    dict file (zeroed when it is new, or when it had another size and was
    created again) and whether the file of the valid tag had its size;
    [capacity] is an [int]. *)
Definition open (m : M) (dict_file : PetHash.dict Z) (valid_file : bool) (mem : gmap Z Z)
    (capacity : Z) (pre_known_value_size : Z) : outcome petkv :=
  let dict_size := u64 capacity in
  dict_memory_size ← MemorySize dict_size true;
  let m := if valid_file then m else m_Initialize m in
  valid ← PetHash.Valid dict_file dict_memory_size;
  '(d, m) ←
    (if negb valid then d ← PetHash.Initialize 0 dict_size true; Ret (d, m)
     else PetHash.Reload dict_file dict_size true
            (fun m (_ : Z) value =>
               m_AddMallocs4Recovery m (PetKVData.shm_malloc_offset kConfig value)) 4 m);
  _ ← CHECK (PetHash.Size d =? m_total_malloc m);
  Ret {| dict_ := d; shm_malloc_ := m; shm_recycle_ := Recycle.Epoch_make; memory_ := mem;
         pre_known_value_size_ := pre_known_value_size |}.

(** [~PetKV]: the recycler releases what it has queued. *)
Definition close (kv : petkv) : outcome petkv :=
  '(r, m) ← Recycle.Epoch_Clear (shm_recycle_ kv) (shm_malloc_ kv);
  Ret (with_parts kv (dict_ kv) m r (memory_ kv)).
End PetKV.
Arguments petkv : clear implicits.
End PetKV.

Module PetMultiKV.
Section PetMultiKV.
Context {M : Type} `{!MallocApi M} (kConfig : PetKVData.Config).
Context (GetHashWithLevel : Z -> Z -> Z).

Record multikv := Build_multikv {
  shm_kv_ : list (PetKV.petkv M);
  shard_num_ : Z;
  multi_pre_known_value_size_ : Z
}.

Definition GetShard (kv : multikv) (key : Z) : Z := GetHashWithLevel key 1 mod shard_num_ kv.

Definition Update (kv : multikv) (g : Epoch.manager) (key : Z) (log : list Z) :
    outcome (multikv * Epoch.manager * bool) :=
  let s := Z.to_nat (GetShard kv key) in
  shard ← deref (shm_kv_ kv !! s);
  '(shard, g, b) ← PetKV.Update kConfig shard g key log;
  Ret ({| shm_kv_ := <[s := shard]> (shm_kv_ kv); shard_num_ := shard_num_ kv;
          multi_pre_known_value_size_ := multi_pre_known_value_size_ kv |}, g, b).

Definition Get (kv : multikv) (key : Z) : outcome PetKV.PetKVReadData :=
  shard ← deref (shm_kv_ kv !! Z.to_nat (GetShard kv key));
  PetKV.Get kConfig shard key.

(** [BatchGet]: for each key the address of its floats ([None]: the zero
    buffer) and their number. *)
Fixpoint BatchGet (kv : multikv) (keys : list Z) : outcome (list (option Z * Z)) :=
  match keys with
  | [] => Ret []
  | key :: keys' =>
      read_data ← Get kv key;
      let v := if PetKV.r_size read_data =? 0 then (None, u64 (multi_pre_known_value_size_ kv) / 4)
               else (PetKV.r_data read_data, u64 (PetKV.r_size read_data) / 4) in
      vs ← BatchGet kv keys';
      Ret (v :: vs)
  end.

Definition key_num (kv : multikv) : Z :=
  foldl (fun n shard => i64 (n + PetKV.key_num shard)) 0 (shm_kv_ kv).

Definition shard_num (kv : multikv) : Z := shard_num_ kv.
End PetMultiKV.
Arguments multikv : clear implicits.

(** The files of a shard: headers and metadata of the value file and whether it
    was there, the index, whether the file of the valid tag had its size, and
    the bytes of the values. *)
Record shard_files := Build_shard_files {
  value_file : list MemoryPool.chunk;
  value_meta : gmap Z Z;
  value_exists : bool;
  dict_file : PetHash.dict Z;
  valid_file : bool;
  value_data : gmap Z Z
}.

(** The slab sizes for values of unknown size, or the one known size. *)
Definition slab_sizes (pre_known_value_size : Z) : list Z :=
  if pre_known_value_size =? 0 then [8 + 32; 8 + 64; 8 + 128; 8 + 512; 8 + 1024] else [pre_known_value_size].

(** [PersistMemoryPool<false>] for values of unknown size. *)
Notation pool_for pre := (pool_of (negb (pre =? 0))).

Definition LoadShard (kConfig : PetKVData.Config) (shard_memory shard_cache_capacity pre : Z) (f : shard_files) :
    outcome (PetKV.petkv (pool_for pre)) :=
  m ← MemoryPool.open (value_file f) (value_meta f) (value_exists f) shard_memory (slab_sizes pre);
  PetKV.open kConfig (PoolOf _ m) (dict_file f) (valid_file f) (value_data f) shard_cache_capacity pre.

(** The constructor: the static [kConfig] may change before the shards are
    loaded; the threads of the shards share nothing else. *)
Definition open (kConfig : PetKVData.Config) (shard_num shard_memory shard_cache_capacity pre : Z)
    (files : Z -> shard_files) : outcome (PetKVData.Config * multikv (pool_for pre)) :=
  kConfig ← PetKVData.choose_config shard_memory kConfig;
  shards ← MemoryPool.mapM (fun i => LoadShard kConfig shard_memory shard_cache_capacity pre (files i)) (seqZ 0 shard_num);
  Ret (kConfig, {| shm_kv_ := shards; shard_num_ := shard_num; multi_pre_known_value_size_ := pre |}).
End PetMultiKV.
