(* ===== verification/PetKVSpec.v ===== *)
(** * PetKV as a map from keys to byte strings

    The invariant ties the index, the allocator and the recycler together:
    every offset in the index and every queued block is an allocated block,
    and none occurs twice.  [contents] reads the store as a finite map;
    [Get] and [Update] refine lookup and insertion.  The theorems are proved
    against the laws of the allocator interface. *)

From stdpp Require Import base numbers list gmap.
From Stdlib Require Import ZArith Lia.
From S2P Require Import Prelude F14Chunk PetHashDict PetHashInv PetHashOps PetHashInsert PetHashSpec.
From S2P Require Import ShmCommon MallocApi Epoch Recycle PetKV.

(** ** Bytes *)

Lemma write_bytes_lookup mem a bs x :
  write_bytes mem a bs !! x =
  if decide (a <= x < a + Z.of_nat (length bs)) then bs !! Z.to_nat (x - a) else mem !! x.
Proof.
  revert mem a. induction bs as [|b bs IH]; intros mem a; cbn [write_bytes length].
  - rewrite decide_False by lia. done.
  - rewrite IH. destruct (decide (a + 1 <= x < a + 1 + Z.of_nat (length bs))) as [Hx|Hx].
    + rewrite decide_True by lia. replace (Z.to_nat (x - a)) with (S (Z.to_nat (x - (a + 1)))) by lia. done.
    + destruct (decide (x = a)) as [->|Hne].
      * rewrite lookup_insert_eq, decide_True by lia. by rewrite Z.sub_diag.
      * rewrite lookup_insert_ne, decide_False by lia. done.
Qed.

Lemma read_write_same mem a bs : read_bytes (write_bytes mem a bs) a (Z.of_nat (length bs)) = bs.
Proof.
  unfold read_bytes. apply list_eq. intros i. rewrite list_lookup_fmap.
  destruct (decide (i < length bs)%nat) as [Hi|Hi].
  - rewrite lookup_seqZ_lt by lia. cbn [fmap option_fmap option_map].
    rewrite write_bytes_lookup, decide_True by lia.
    replace (Z.to_nat (a + (0 + Z.of_nat i) - a)) with i by lia.
    by destruct (lookup_lt_is_Some_2 bs i Hi) as [x ->].
  - rewrite lookup_seqZ_ge, lookup_ge_None_2 by lia. done.
Qed.

Lemma read_write_sep mem a bs a' n :
  sep (a, Z.of_nat (length bs)) (a', n) -> read_bytes (write_bytes mem a bs) a' n = read_bytes mem a' n.
Proof.
  unfold sep. cbn [fst snd]. intros Hs. unfold read_bytes. apply list_fmap_ext. intros i x Hx.
  apply lookup_seqZ in Hx as [-> Hi]. by rewrite write_bytes_lookup, decide_False by lia.
Qed.

Section Spec.
Import PetKV.
Context {M : Type} `{!MallocApi M} `{!MallocLaws M}.
Context (cfg : PetKVData.Config) (bits : Z) (Hcfg : config_bits cfg bits).
Implicit Types (kv : petkv M) (D : gmap Z Z).

Notation off := (PetKVData.shm_malloc_offset cfg).

(** The offsets in a map of packed words. *)
Definition offsets D : list Z := off <$> (map_to_list D).*2.

Definition dmap kv : gmap Z Z := to_map (dict_ kv).

Definition pending kv : list Z := (Recycle.recycle_ptr_ (shm_recycle_ kv)).*2.

Record kv_wf kv : Prop := {
  kw_dict : dict_wf (dict_ kv) [];
  kw_word : forall k w, dmap kv !! k = Some w -> 0 <= w;
  kw_mal : m_wf (shm_malloc_ kv);
  kw_bound : m_bound (shm_malloc_ kv) < 8 * (2 ^ bits - 1);
  kw_nodup : NoDup (offsets (dmap kv) ++ pending kv);
  kw_live : forall p, p ∈ offsets (dmap kv) ++ pending kv -> p ∈ (m_live (shm_malloc_ kv)).*1;
  kw_size : pre_known_value_size_ kv <> 0 -> forall k w n,
    dmap kv !! k = Some w -> (off w, n) ∈ m_live (shm_malloc_ kv) -> n = pre_known_value_size_ kv
}.

(** The size that [Get] reports for an offset, and the bytes there. *)
Definition size_at kv (o : Z) : Z :=
  if pre_known_value_size_ kv =? 0 then
    match m_GetMallocSize (shm_malloc_ kv) o with Ret n => n | Err _ => 0 end
  else pre_known_value_size_ kv.

Definition value_of kv (w : Z) : list Z := read_bytes (memory_ kv) (off w) (size_at kv (off w)).

Definition contents kv : gmap Z (list Z) := value_of kv <$> dmap kv.

Lemma offsets_elem D k w : D !! k = Some w -> off w ∈ offsets D.
Proof.
  intros Hk. unfold offsets. apply list_elem_of_fmap. exists w. split; [done|].
  apply list_elem_of_fmap. exists (k, w). split; [done|]. by apply elem_of_map_to_list.
Qed.

Lemma offsets_elem_inv D o : o ∈ offsets D -> exists k w, D !! k = Some w /\ o = off w.
Proof.
  unfold offsets. intros (w & -> & Hw)%list_elem_of_fmap.
  apply list_elem_of_fmap in Hw as ([k w'] & -> & Hin). apply elem_of_map_to_list in Hin. eauto.
Qed.

Lemma offsets_insert D k w : D !! k = None -> offsets (<[k := w]> D) ≡ₚ off w :: offsets D.
Proof. intros Hk. unfold offsets. by rewrite map_to_list_insert. Qed.

Lemma offsets_sub D D' : D' ⊆ D -> exists rest, offsets D ≡ₚ offsets D' ++ rest.
Proof.
  intros Hs. apply map_to_list_submseteq in Hs. apply submseteq_Permutation in Hs as [l Hl].
  exists (off <$> l.*2). unfold offsets. by rewrite Hl, !fmap_app.
Qed.

(** A live block has one size. *)
Lemma live_unique (m : M) p n n' : m_wf m -> (p, n) ∈ m_live m -> (p, n') ∈ m_live m -> n = n'.
Proof.
  intros Hm H1 H2. pose proof (m_live_nodup m Hm) as Hnd.
  apply list_elem_of_lookup in H1 as [i Hi]. apply list_elem_of_lookup in H2 as [j Hj].
  assert (i = j) as ->.
  { eapply (NoDup_lookup _ _ _ p Hnd); rewrite list_lookup_fmap, ?Hi, ?Hj; done. }
  congruence.
Qed.

Lemma entry_block kv k w :
  kv_wf kv -> dmap kv !! k = Some w ->
  exists n, (off w, n) ∈ m_live (shm_malloc_ kv) /\ size_at kv (off w) = n /\ 0 <= n.
Proof.
  intros Hkv Hk. pose proof (kw_live _ Hkv (off w)) as Hl.
  rewrite elem_of_app in Hl. specialize (Hl (or_introl (offsets_elem _ _ _ Hk))).
  apply list_elem_of_fmap in Hl as ([p n] & E & Hin). cbn in E. subst p. exists n. split; [done|].
  destruct (m_live_ptr _ _ _ (kw_mal _ Hkv) Hin) as (_ & _ & _ & Hn & _ & _ & Hsz).
  unfold size_at. destruct (_ =? 0) eqn:E; b2p; [by rewrite Hsz|].
  split; [|done]. symmetry. by eapply (kw_size _ Hkv E).
Qed.

Lemma contents_lookup kv k : contents kv !! k = value_of kv <$> dmap kv !! k.
Proof. unfold contents. apply lookup_fmap. Qed.

(** The packed word of a block of the allocator. *)
Lemma word_of_block kv (m : M) p n w :
  kv_wf kv -> m_wf m -> m_bound m = m_bound (shm_malloc_ kv) -> (p, n) ∈ m_live m -> 0 <= w ->
  off (PetKVData.SetShmMallocOffset cfg w p) = p /\ 0 <= PetKVData.SetShmMallocOffset cfg w p.
Proof.
  intros Hkv Hm Hb Hin Hw. destruct (m_live_ptr _ _ _ Hm Hin) as (Hp & Hpb & H8 & _).
  pose proof (kw_bound _ Hkv). split; [apply (offset_roundtrip cfg bits); (done || lia)|].
  unfold PetKVData.SetShmMallocOffset. destruct (config_fields cfg bits Hcfg) as (_ & -> & _ & _).
  destruct Hcfg as [Hbits _]. assert (0 < 2 ^ (64 - bits)) by (apply Z.pow_pos_nonneg; lia).
  apply Z.lor_nonneg. split; [apply Z.land_nonneg; lia|apply u64_range].
Qed.

(** ** The store after an update *)

(** [mm] are the entries that stay, [ptr] is the block of the new value. *)
Lemma install kv d' m2 r' mem' mm key w1 ptr (log : list Z) m1 :
  kv_wf kv -> dict_wf d' [] -> to_map d' = <[key := w1]> mm -> off w1 = ptr -> 0 <= w1 ->
  mm ⊆ dmap kv -> mm !! key = None ->
  m_wf m1 -> m_live m1 ≡ₚ (ptr, Z.of_nat (length log)) :: m_live (shm_malloc_ kv) ->
  m_wf m2 -> m_bound m2 = m_bound (shm_malloc_ kv) ->
  (forall x, x ∈ m_live m2 -> x ∈ m_live m1) ->
  let q := (Recycle.recycle_ptr_ r').*2 in
  NoDup (offsets mm ++ q) -> ptr ∉ offsets mm ++ q ->
  (forall p, p ∈ ptr :: offsets mm ++ q -> p ∈ (m_live m2).*1) ->
  mem' = write_bytes (memory_ kv) ptr log ->
  (pre_known_value_size_ kv <> 0 -> Z.of_nat (length log) = pre_known_value_size_ kv) ->
  let kv' := with_parts kv d' m2 r' mem' in
  kv_wf kv' /\ contents kv' = <[key := log]> (value_of kv <$> mm).
Proof.
  intros Hkv Hd Hmap Hw1 Hw1p Hsub Hnk Hm1 Hl1 Hm2 Hb2 Hsub2 q Hnd Hfresh Hlive -> Hpre kv'.
  assert (Hnew : forall n, (ptr, n) ∈ m_live m2 -> n = Z.of_nat (length log)).
  { intros n Hn. apply Hsub2 in Hn. eapply live_unique; [exact Hm1|exact Hn|]. rewrite Hl1. set_solver. }
  assert (Hold : forall k w n, mm !! k = Some w -> (off w, n) ∈ m_live m2 ->
    (off w, n) ∈ m_live (shm_malloc_ kv) /\ off w <> ptr).
  { intros k w n Hk Hn. assert (Hne : off w <> ptr).
    { intros E. apply Hfresh. rewrite <- E. apply elem_of_app. left. by eapply offsets_elem. }
    split; [|done]. apply Hsub2 in Hn. rewrite Hl1 in Hn. apply elem_of_cons in Hn as [E|]; [|done].
    congruence. }
  assert (Hkv' : kv_wf kv').
  { split; unfold dmap, pending; cbn [kv' with_parts dict_ shm_malloc_ shm_recycle_ pre_known_value_size_];
      rewrite ?Hmap.
    - done.
    - intros k w Hk. apply lookup_insert_Some in Hk as [[_ <-]|[_ Hk]]; [done|].
      eapply (kw_word _ Hkv), lookup_weaken; done.
    - done.
    - rewrite Hb2. apply (kw_bound _ Hkv).
    - rewrite offsets_insert, Hw1 by done. cbn. by apply NoDup_cons.
    - intros p Hp. rewrite offsets_insert, Hw1 in Hp by done. by apply Hlive.
    - intros Hp k w n Hk Hin. apply lookup_insert_Some in Hk as [[_ <-]|[_ Hk]].
      + rewrite Hw1 in Hin. rewrite (Hnew n Hin). by apply Hpre.
      + destruct (Hold k w n Hk Hin) as [Hin' _].
        eapply (kw_size _ Hkv Hp k); [by eapply lookup_weaken|done]. }
  split; [done|]. apply map_eq. intros k. rewrite contents_lookup. unfold dmap at 1. cbn [dict_ kv' with_parts].
  rewrite Hmap. destruct (decide (k = key)) as [->|Hne].
  - rewrite !lookup_insert_eq. cbn. f_equal. unfold value_of.
    destruct (entry_block kv' key w1 Hkv') as (n & Hin & -> & _).
    { unfold dmap. cbn. by rewrite Hmap, lookup_insert_eq. }
    cbn [shm_malloc_ kv' with_parts] in Hin. rewrite Hw1 in Hin |- *. rewrite (Hnew n Hin).
    apply read_write_same.
  - rewrite !lookup_insert_ne, lookup_fmap by done. destruct (mm !! k) as [w|] eqn:Ek; [|done].
    cbn. f_equal. unfold value_of.
    destruct (entry_block kv' k w Hkv') as (n & Hin & -> & _).
    { unfold dmap. cbn. by rewrite Hmap, lookup_insert_ne. }
    cbn [shm_malloc_ kv' with_parts] in Hin. destruct (Hold k w n Ek Hin) as [Hin' Hnp].
    destruct (entry_block kv k w Hkv) as (n' & Hin'' & -> & _); [by eapply lookup_weaken|].
    rewrite (live_unique _ _ _ _ (kw_mal _ Hkv) Hin'' Hin'). cbn [memory_ kv' with_parts].
    apply read_write_sep. apply (m_live_sep m1); [done| | |cbn; congruence]; rewrite Hl1; set_solver.
Qed.

(** What an insertion of a new key does to the map of the index. *)
Lemma Insert_new (d : PetHash.dict Z) key (w : Z) :
  dict_wf d [] -> 0 <= key < 2 ^ 64 -> to_map d !! key = None ->
  PetHash.Full d = false \/ 2 <= PetHash.chunk_num_ d ->
  exists d' p mm, PetHash.Insert d key w None true = Ret (d', p) /\ inserted d' p mm key w /\
    mm ⊆ to_map d /\ mm !! key = None /\
    (mm = to_map d \/ PetHash.Full d = true /\ exists victim, is_Some (to_map d !! victim) /\
      mm = delete victim (to_map d)).
Proof.
  intros Hd Hk Hno [HF|HN].
  - destruct (Insert_free d key w None true Hd Hk Hno HF) as (d' & p & mm & HI & ->%purge_None & Hins).
    exists d', p, (to_map d). split_and!; try done. by left.
  - destruct (Insert_forced d key w None Hd Hk Hno HN)
      as (d1 & d' & p & mm & [= <-] & _ & HI & Hins & [->%purge_None|(HF & _ & Hv & ->%purge_None)]).
    + exists d', p, (to_map d). split_and!; try done. by left.
    + eexists d', p, _. split_and!; [done|done|apply delete_subseteq| |].
      * rewrite lookup_delete_None. by right.
      * right. split; [done|]. eexists. split; [|done]. by eexists.
Qed.

(** The block that [Update] allocates. *)
Lemma Update_alloc kv n :
  kv_wf kv -> m_accepts (shm_malloc_ kv) n ->
  (exists m1 ptr, m_New (shm_malloc_ kv) n = Ret (m1, ptr) /\ m_wf m1 /\
    m_live m1 ≡ₚ (ptr, n) :: m_live (shm_malloc_ kv) /\ m_bound m1 = m_bound (shm_malloc_ kv) /\
    (forall n', m_accepts (shm_malloc_ kv) n' -> m_accepts m1 n') /\
    m_GetMallocOffset m1 ptr = Ret ptr /\
    off (PetKVData.make cfg ptr) = ptr /\ 0 <= PetKVData.make cfg ptr /\
    ptr ∉ offsets (dmap kv) ++ pending kv) \/
  m_New (shm_malloc_ kv) n = Err LogFatal.
Proof.
  intros Hkv Hacc.
  destruct (m_New_law _ n (kw_mal _ Hkv) Hacc) as [(m1 & ptr & HN & Hm1 & Hl1 & Hb1 & Hacc1)|]; [left|by right].
  exists m1, ptr. assert (Hin : (ptr, n) ∈ m_live m1) by (rewrite Hl1; set_solver).
  destruct (m_live_ptr m1 ptr n Hm1 Hin) as (_ & _ & _ & _ & _ & Ho & _).
  destruct (word_of_block kv m1 ptr n 0 Hkv Hm1 Hb1 Hin ltac:(lia)) as [Hoff Hpos].
  split_and!; try done. intros Hp%(kw_live _ Hkv).
  pose proof (m_live_nodup m1 Hm1) as Hnd. rewrite Hl1 in Hnd. by apply NoDup_cons in Hnd as [? _].
Qed.

Lemma read_ptr_map (d : PetHash.dict Z) key p w :
  dict_wf d [] -> PetHash.GetReturnPtr d key = Ret (Some p) -> to_map d !! key = Some w ->
  PetHash.read_ptr d p = w.
Proof.
  intros Hd HG Hm. pose proof (Get_lookup_map d [] key Hd) as HL. unfold PetHash.Get in HL.
  unfold PetHash.GetReturnPtr in HG. rewrite HG, Hm in HL. destruct p. cbn in HL. by simplify_eq.
Qed.

(** The old block of a key goes to the recycler: what is released and what
    stays queued, beside the blocks [R] of the other keys. *)
Lemma retire_old kv g key w0 (m1 : M) ptr n :
  kv_wf kv -> dmap kv !! key = Some w0 -> m_wf m1 ->
  m_live m1 ≡ₚ (ptr, n) :: m_live (shm_malloc_ kv) -> ptr ∉ offsets (dmap kv) ++ pending kv ->
  let R := offsets (delete key (dmap kv)) in
  exists r' g' m2 fr, FREE_SHM (shm_recycle_ kv) g m1 (off w0) = Ret (r', g', m2) /\
    released m1 m2 fr /\ let q' := (Recycle.recycle_ptr_ r').*2 in
    NoDup (R ++ q') /\ ptr ∉ R ++ q' /\ (forall p, p ∈ ptr :: R ++ q' -> p ∈ (m_live m2).*1) /\
    (length (m_live m2) + length (pending kv) + 1 = length (m_live m1) + length q')%nat.
Proof.
  intros Hkv Hk Hm1 Hl1 Hfresh R.
  assert (Hdel : offsets (dmap kv) ≡ₚ off w0 :: R).
  { rewrite <- (insert_delete_id (dmap kv) key w0 Hk) at 1. apply offsets_insert, lookup_delete_eq. }
  set (q := pending kv) in *. pose proof (kw_nodup _ Hkv) as Hnd. fold q in Hnd.
  assert (HP : offsets (dmap kv) ++ q ≡ₚ off w0 :: R ++ q) by (by rewrite Hdel).
  rewrite HP in Hnd. cbn in Hnd.
  assert (Hin1 : forall p, p ∈ off w0 :: R ++ q -> p ∈ (m_live m1).*1).
  { intros p Hp. rewrite Hl1. cbn. right. apply (kw_live _ Hkv). fold q. by rewrite HP. }
  assert (Hfr : ptr ∉ off w0 :: R ++ q) by (by rewrite <- HP).
  destruct (Epoch_Recycle_gen (shm_recycle_ kv) g m1 (off w0) Hm1) as (r' & g' & m2 & fr & HR & Hq & Hrel & _).
  { unfold Recycle.push. split; rewrite fmap_app; cbn; change ((Recycle.recycle_ptr_ (shm_recycle_ kv)).*2) with q.
    - rewrite <- Permutation_cons_append. apply NoDup_cons in Hnd as [Hn0 Hnd].
      apply NoDup_app in Hnd as (_ & _ & Hnd). apply NoDup_cons. split; [set_solver|done].
    - intros p Hp. apply Hin1. set_solver. }
  unfold Recycle.push in Hq. set (q' := (Recycle.recycle_ptr_ r').*2).
  assert (HQ : q ++ [off w0] ≡ₚ fr.*2 ++ q').
  { unfold q, pending, q'. rewrite <- fmap_app, <- Hq, fmap_app. done. }
  assert (Hsame : forall p, p ∈ R ++ fr.*2 ++ q' -> p ∈ off w0 :: R ++ q) by (intros p; rewrite <- HQ; set_solver).
  assert (Hall : NoDup (R ++ fr.*2 ++ q')).
  { rewrite <- HQ. rewrite (assoc_L (++)), <- Permutation_cons_append. exact Hnd. }
  apply NoDup_app in Hall as (H1 & H2 & H3). apply NoDup_app in H3 as (_ & H4 & H5).
  exists r', g', m2, fr.*2. cbn zeta. fold q'. split_and!; [|done| | | |].
  - unfold FREE_SHM. assert (Hx : off w0 ∈ (m_live m1).*1) by (apply Hin1; set_solver).
    apply list_elem_of_fmap in Hx as ([x z] & E & Hx). cbn in E. subst x.
    by destruct (m_live_ptr m1 _ _ Hm1 Hx) as (_ & _ & _ & _ & -> & _).
  - apply NoDup_app. split_and!; set_solver.
  - intros Hp. apply Hfr, Hsame. set_solver.
  - intros p Hp. eapply released_live; [exact Hm1|exact Hrel| |].
    + apply elem_of_cons in Hp as [->|Hp]; [rewrite Hl1; set_solver|]. apply Hin1, Hsame. set_solver.
    + intros Hf. apply elem_of_cons in Hp as [->|Hp]; [apply Hfr, Hsame; set_solver|set_solver].
  - destruct (rl_live _ _ _ Hrel) as (bs & Hbs & ->). apply Permutation_length in HQ.
    rewrite !length_app in *. rewrite <- Hbs, length_fmap in HQ. cbn in HQ. fold q. lia.
Qed.

(** The blocks that are allocated and neither in the index nor queued. *)
Definition leaked kv : Z :=
  Z.of_nat (length (m_live (shm_malloc_ kv))) - Z.of_nat (size (dmap kv)) - Z.of_nat (length (pending kv)).

(** [Update] of a key that is present. *)
Lemma Update_present kv g key (log : list Z) w0 :
  kv_wf kv -> dmap kv !! key = Some w0 -> m_accepts (shm_malloc_ kv) (Z.of_nat (length log)) ->
  (pre_known_value_size_ kv <> 0 -> Z.of_nat (length log) = pre_known_value_size_ kv) ->
  (exists kv' g', Update cfg kv g key log = Ret (kv', g', true) /\ kv_wf kv' /\
    contents kv' = <[key := log]> (contents kv) /\ leaked kv' = leaked kv /\
    forall n', m_accepts (shm_malloc_ kv) n' -> m_accepts (shm_malloc_ kv') n') \/
  m_New (shm_malloc_ kv) (Z.of_nat (length log)) = Err LogFatal /\ Update cfg kv g key log = Err LogFatal.
Proof.
  intros Hkv Hk Hacc Hpre. pose proof (kw_dict _ Hkv) as Hd.
  destruct (GetInternal_total (dict_ kv) [] key Hd) as [[_ Hno]|(c & id & v & HG & _)];
    [unfold dmap in Hk; congruence|].
  assert (HGR : PetHash.GetReturnPtr (dict_ kv) key = Ret (Some (c, id))) by exact HG.
  pose proof (read_ptr_map _ _ _ _ Hd HGR Hk) as Hrd.
  destruct (Update_alloc kv _ Hkv Hacc)
    as [(m1 & ptr & HN & Hm1 & Hl1 & Hb1 & Hacc1 & Ho & Hoff & Hpos & Hfresh)|HN]; [left|right].
  2: { split; [done|]. unfold Update. rewrite HGR. cbn [mbind outcome_bind]. by rewrite HN. }
  destruct (retire_old kv g key w0 m1 ptr _ Hkv Hk Hm1 Hl1 Hfresh)
    as (r' & g' & m2 & fr & HR & Hrel & Hnd & Hnf & Hlv & Hcount).
  destruct (word_of_block kv m1 ptr (Z.of_nat (length log)) w0 Hkv Hm1 Hb1) as [Hw1 Hw1p];
    [rewrite Hl1; set_solver|by eapply (kw_word _ Hkv)|].
  set (w1 := PetKVData.SetShmMallocOffset cfg w0 ptr) in *.
  destruct (write_ptr_total (dict_ kv) [] key (c, id) w1 Hd HG) as (Hd' & Hmap & _ & Hrd').
  eexists _, g'. split.
  { unfold Update. rewrite HGR. cbn [mbind outcome_bind]. rewrite HN. cbn [mbind outcome_bind].
    rewrite Ho. cbn [mbind outcome_bind]. rewrite Hrd, HR. cbn [mbind outcome_bind].
    unfold set_offset. rewrite Hrd, Hoff. fold w1. rewrite Hrd', Hw1, Z.eqb_refl. done. }
  destruct (install kv (PetHash.write_ptr (dict_ kv) (c, id) w1) m2 r' (write_bytes (memory_ kv) ptr log)
    (delete key (dmap kv)) key w1 ptr log m1) as [Hkv' Hcont]; try done.
  - rewrite Hmap. fold (dmap kv). by rewrite insert_delete_eq.
  - apply delete_subseteq.
  - apply lookup_delete_eq.
  - apply (rl_wf _ _ _ Hrel).
  - by rewrite (rl_bound _ _ _ Hrel).
  - intros x Hx. destruct (rl_live _ _ _ Hrel) as (bs & _ & ->). apply elem_of_app. by right.
  - split_and!; [done| | |].
    + rewrite Hcont. unfold contents. rewrite fmap_delete. by rewrite insert_delete_eq.
    + unfold leaked, pending, dmap in *. cbn [with_parts dict_ shm_malloc_ shm_recycle_]. rewrite Hmap, map_size_insert, Hk.
      apply Permutation_length in Hl1. cbn [length] in Hl1. cbn beta iota. unfold Datatypes.id. lia.
    + intros n' Hn'. cbn. by apply (rl_acc _ _ _ Hrel), Hacc1.
Qed.

(** [Update] of a new key: [mm] are the entries that stay. *)
Lemma Update_absent kv g key (log : list Z) :
  kv_wf kv -> 0 <= key < 2 ^ 64 -> dmap kv !! key = None ->
  PetHash.Full (dict_ kv) = false \/ 2 <= PetHash.chunk_num_ (dict_ kv) ->
  m_accepts (shm_malloc_ kv) (Z.of_nat (length log)) ->
  (pre_known_value_size_ kv <> 0 -> Z.of_nat (length log) = pre_known_value_size_ kv) ->
  (exists kv' mm w, Update cfg kv g key log = Ret (kv', g, true) /\ kv_wf kv' /\
    contents kv' = <[key := log]> (value_of kv <$> mm) /\ dmap kv' = <[key := w]> mm /\
    (mm = dmap kv \/ PetHash.Full (dict_ kv) = true /\ exists victim, is_Some (dmap kv !! victim) /\
      mm = delete victim (dmap kv)) /\
    leaked kv' = leaked kv + (Z.of_nat (size (dmap kv)) - Z.of_nat (size mm)) /\
    (exists ptr, m_New (shm_malloc_ kv) (Z.of_nat (length log)) = Ret (shm_malloc_ kv', ptr)) /\
    forall n', m_accepts (shm_malloc_ kv) n' -> m_accepts (shm_malloc_ kv') n') \/
  m_New (shm_malloc_ kv) (Z.of_nat (length log)) = Err LogFatal /\ Update cfg kv g key log = Err LogFatal.
Proof.
  intros Hkv Hkey Hk Hroom Hacc Hpre. pose proof (kw_dict _ Hkv) as Hd.
  assert (HGR : PetHash.GetReturnPtr (dict_ kv) key = Ret None).
  { destruct (GetInternal_total (dict_ kv) [] key Hd) as [[HG _]|(c & id & v & _ & _ & _ & Hm & _)];
      [exact HG|unfold dmap in Hk; congruence]. }
  destruct (Update_alloc kv _ Hkv Hacc)
    as [(m1 & ptr & HN & Hm1 & Hl1 & Hb1 & Hacc1 & Ho & Hoff & Hpos & Hfresh)|HN]; [left|right].
  2: { split; [done|]. unfold Update. rewrite HGR. cbn [mbind outcome_bind]. by rewrite HN. }
  destruct (Insert_new (dict_ kv) key (PetKVData.make cfg ptr) Hd Hkey Hk Hroom)
    as (d' & p & mm & HI & (Hd' & Hmap & HG') & Hsub & Hnk & Hcase).
  assert (Hrd : PetHash.read_ptr d' p = PetKVData.make cfg ptr).
  { eapply read_ptr_map; [exact Hd'|exact HG'|]. by rewrite Hmap, lookup_insert_eq. }
  destruct (word_of_block kv m1 ptr (Z.of_nat (length log)) (PetKVData.make cfg ptr) Hkv Hm1 Hb1)
    as [Hw1 Hw1p]; [rewrite Hl1; set_solver|done|].
  set (w1 := PetKVData.SetShmMallocOffset cfg (PetKVData.make cfg ptr) ptr) in *.
  destruct (write_ptr_total d' [] key p w1 Hd' HG') as (Hd2 & Hmap2 & _ & Hrd2).
  rewrite Hmap, insert_insert_eq in Hmap2.
  destruct (offsets_sub _ _ Hsub) as [rest HP]. set (q := pending kv) in *.
  assert (Hsame : forall x, x ∈ offsets mm ++ q -> x ∈ offsets (dmap kv) ++ q) by (intros x; rewrite HP; set_solver).
  eexists _, mm, w1. split.
  { unfold Update. rewrite HGR. cbn [mbind outcome_bind]. rewrite HN. cbn [mbind outcome_bind].
    rewrite Ho. cbn [mbind outcome_bind]. rewrite HI. cbn [mbind outcome_bind].
    unfold set_offset. rewrite Hoff, Hrd. fold w1. rewrite Hrd2, Hw1, Z.eqb_refl. done. }
  destruct (install kv (PetHash.write_ptr d' p w1) m1 (shm_recycle_ kv) (write_bytes (memory_ kv) ptr log)
    mm key w1 ptr log m1) as [Hkv' Hcont]; try done.
  - pose proof (kw_nodup _ Hkv) as Hnd. fold q in Hnd. rewrite HP in Hnd.
    apply NoDup_app in Hnd as (H1 & H2 & H3). apply NoDup_app in H1 as (H1 & _ & _).
    apply NoDup_app. split_and!; [done|set_solver|done].
  - intros Hx. by apply Hfresh, Hsame.
  - intros x Hx. rewrite Hl1. cbn. apply elem_of_cons in Hx as [->|Hx]; [left|right].
    by apply (kw_live _ Hkv), Hsame.
  - split_and!; try done; [|by eexists]. unfold leaked. apply Permutation_length in Hl1.
    unfold pending, dmap in *. cbn [with_parts dict_ shm_malloc_ shm_recycle_ length] in *.
    rewrite Hmap2, map_size_insert, Hnk. cbn beta iota. lia.
Qed.
End Spec.
