(* ===== verification/PetKVProps.v ===== *)
(** * What a shard promises

    The theorems on [PetKV] of src/pet_kv: reads, updates in place, insertions
    with and without eviction, and restarts, over any allocator that keeps the
    laws of the interface; then a store on a pool as the concrete case. *)

From stdpp Require Import base numbers list gmap.
From Stdlib Require Import ZArith Lia.
From S2P Require Import Prelude F14Chunk PetHashDict PetHashInv PetHashOps PetHashInsert PetHashSpec.
From S2P Require Import PetHashValid PetHashReload ShmCommon MemoryPool MemoryPoolInv MallocApi PoolProps.
From S2P Require Import Epoch Recycle PetKV PetKVSpec.

Section Props.
Import PetKV.
Context {M : Type} `{!MallocApi M} `{!MallocLaws M}.
Context (cfg : PetKVData.Config) (bits : Z) (Hcfg : config_bits cfg bits).
Implicit Types (kv : petkv M).

Notation off := (PetKVData.shm_malloc_offset cfg).
Notation kv_wf := (kv_wf cfg bits).
Notation contents := (contents cfg).

Lemma Get_value kv key :
  kv_wf kv ->
  exists r, Get cfg kv key = Ret r /\
    match contents kv !! key with
    | None => r_data r = None /\ r_size r = 0
    | Some log => exists p, r_data r = Some p /\ r_size r = Z.of_nat (length log) /\
                    read_bytes (memory_ kv) p (r_size r) = log
    end.
Proof.
  intros Hkv. rewrite contents_lookup. unfold Get.
  rewrite (Get_lookup_map _ [] key (kw_dict _ _ _ Hkv)). cbn [mbind outcome_bind]. fold (dmap kv).
  destruct (dmap kv !! key) as [w|] eqn:Hk; cbn [fmap option_fmap option_map]; [|by eexists].
  destruct (entry_block cfg bits kv key w Hkv Hk) as (n & Hin & Hsz & Hn).
  destruct (m_live_ptr _ _ _ (kw_mal _ _ _ Hkv) Hin) as (_ & _ & _ & _ & Hdata & _ & Hms).
  assert (Hsize : (if pre_known_value_size_ kv =? 0 then m_GetMallocSize (shm_malloc_ kv) (off w)
    else Ret (pre_known_value_size_ kv)) = Ret n).
  { unfold size_at in Hsz. destruct (_ =? 0); [done|by rewrite Hsz]. }
  rewrite Hsize, Hdata. cbn [mbind outcome_bind]. eexists. split; [done|]. cbn.
  exists (off w). unfold value_of. rewrite Hsz. split_and!; [done| |done].
  unfold read_bytes. rewrite length_fmap, length_seqZ. lia.
Qed.

(** [C2] A read refines lookup: Get of a key gives the address and the length of
    exactly the bytes that are stored for it, and a null pointer and the size
    zero for a key that is not stored. *)
Theorem PetKV_Get_refines kv key :
  kv_wf kv ->
  exists r, Get cfg kv key = Ret r /\
    match contents kv !! key with
    | None => r_data r = None /\ r_size r = 0
    | Some log => exists p, r_data r = Some p /\ r_size r = Z.of_nat (length log) /\
                    read_bytes (memory_ kv) p (r_size r) = log
    end.
Proof. apply Get_value. Qed.

Lemma dmap_contents kv key : is_Some (contents kv !! key) <-> is_Some (dmap kv !! key).
Proof. rewrite contents_lookup. apply fmap_is_Some. Qed.

(** A new key below the maximal load: nothing but one block is taken. *)
Lemma Update_new kv g key log :
  kv_wf kv -> 0 <= key < 2 ^ 64 -> contents kv !! key = None -> PetHash.Full (dict_ kv) = false ->
  m_accepts (shm_malloc_ kv) (Z.of_nat (length log)) ->
  (pre_known_value_size_ kv <> 0 -> Z.of_nat (length log) = pre_known_value_size_ kv) ->
  (exists kv' ptr, Update cfg kv g key log = Ret (kv', g, true) /\ kv_wf kv' /\
    contents kv' = <[key := log]> (contents kv) /\ leaked kv' = leaked kv /\
    m_New (shm_malloc_ kv) (Z.of_nat (length log)) = Ret (shm_malloc_ kv', ptr) /\
    forall n, m_accepts (shm_malloc_ kv) n -> m_accepts (shm_malloc_ kv') n) \/
  m_New (shm_malloc_ kv) (Z.of_nat (length log)) = Err LogFatal /\ Update cfg kv g key log = Err LogFatal.
Proof.
  intros Hkv Hkey Hno HF Hacc Hpre.
  assert (Hk : dmap kv !! key = None) by (rewrite contents_lookup in Hno; by apply fmap_None in Hno).
  destruct (Update_absent cfg bits Hcfg kv g key log Hkv Hkey Hk (or_introl HF) Hacc Hpre)
    as [(kv' & mm & w & HU & Hkv' & Hc & _ & Hmm & Hle & (ptr & HN) & Hac)|]; [left|by right].
  assert (mm = dmap kv) as -> by (destruct Hmm as [|[? _]]; [done|congruence]).
  exists kv', ptr. split_and!; try done. lia.
Qed.

Lemma Update_insert kv g key log :
  kv_wf kv -> 0 <= key < 2 ^ 64 ->
  is_Some (contents kv !! key) \/ PetHash.Full (dict_ kv) = false ->
  m_accepts (shm_malloc_ kv) (Z.of_nat (length log)) ->
  (pre_known_value_size_ kv <> 0 -> Z.of_nat (length log) = pre_known_value_size_ kv) ->
  (exists kv' g', Update cfg kv g key log = Ret (kv', g', true) /\ kv_wf kv' /\
    contents kv' = <[key := log]> (contents kv) /\ leaked kv' = leaked kv /\
    forall n, m_accepts (shm_malloc_ kv) n -> m_accepts (shm_malloc_ kv') n) \/
  m_New (shm_malloc_ kv) (Z.of_nat (length log)) = Err LogFatal /\ Update cfg kv g key log = Err LogFatal.
Proof.
  intros Hkv Hkey Hroom Hacc Hpre.
  destruct (dmap kv !! key) as [w0|] eqn:Hk; [by eapply Update_present|].
  assert (Hno : contents kv !! key = None) by (by rewrite contents_lookup, Hk).
  destruct Hroom as [[? ?]|HF]; [congruence|].
  destruct (Update_new kv g key log Hkv Hkey Hno HF Hacc Hpre)
    as [(kv' & ptr & HU & Hkv' & Hc & Hle & _ & Hac)|]; [left|by right].
  by exists kv', g.
Qed.


(** [C31] A new key at the maximal load, on an index of two chunks or more: the
    update stores its bytes, and at most one other key leaves the store.  The
    block of a key that leaves is neither queued nor released: it leaks. *)
Theorem PetKV_Update_evicts kv g key log :
  kv_wf kv -> 0 <= key < 2 ^ 64 -> contents kv !! key = None ->
  2 <= PetHash.chunk_num_ (dict_ kv) -> m_accepts (shm_malloc_ kv) (Z.of_nat (length log)) ->
  (pre_known_value_size_ kv <> 0 -> Z.of_nat (length log) = pre_known_value_size_ kv) ->
  (exists kv' g', Update cfg kv g key log = Ret (kv', g', true) /\ kv_wf kv' /\
    (contents kv' = <[key := log]> (contents kv) /\ leaked kv' = leaked kv \/
     PetHash.Full (dict_ kv) = true /\ exists victim, is_Some (contents kv !! victim) /\
       contents kv' = <[key := log]> (delete victim (contents kv)) /\ leaked kv' = leaked kv + 1)) \/
  m_New (shm_malloc_ kv) (Z.of_nat (length log)) = Err LogFatal /\ Update cfg kv g key log = Err LogFatal.
Proof.
  intros Hkv Hkey Hno HN Hacc Hpre.
  assert (Hk : dmap kv !! key = None) by (rewrite contents_lookup in Hno; by apply fmap_None in Hno).
  destruct (Update_absent cfg bits Hcfg kv g key log Hkv Hkey Hk (or_intror HN) Hacc Hpre)
    as [(kv' & mm & w & HU & Hkv' & Hc & _ & Hmm & Hle & _)|]; [left|by right].
  exists kv', g. split_and!; try done. destruct Hmm as [->|(HF & v & [wv Hv] & ->)]; [left|right].
  - split; [done|lia].
  - split; [done|]. exists v. split_and!.
    + rewrite dmap_contents. by eexists.
    + rewrite Hc, fmap_delete. done.
    + rewrite Hle, map_size_delete, Hv. assert (size (dmap kv) <> 0%nat); [|lia].
      intros E%map_size_empty_inv. by rewrite E, lookup_empty in Hv.
Qed.

(** ** Opening a store *)

(** The number of chunks for an [int] capacity. *)
Lemma int_chunks capacity N :
  0 <= capacity < 2 ^ 31 -> OverFallChunkNum capacity = Ret N -> 0 < N /\ N * 14 < 2 ^ 32.
Proof.
  intros Hc HO. unfold OverFallChunkNum, kChunkSize, kMaxSize in HO. rewrite u64_small in HO by lia.
  pose proof (Z.div_mod (capacity + 14 - 1) 14 ltac:(lia)).
  pose proof (Z.mod_pos_bound (capacity + 14 - 1) 14 ltac:(lia)).
  destruct (Next2Power_spec ((capacity + 14 - 1) / 14)) as (k & Hk & HN & _ & Hmin); [lia|].
  rewrite HN in HO. injection HO as <-.
  assert (k <= 28).
  { destruct Hmin as [->|Hmin]; [lia|].
    assert (2 ^ (k - 1) < 2 ^ 28) as Hlt by lia. apply Z.pow_lt_mono_r_iff in Hlt; lia. }
  assert (2 ^ k <= 2 ^ 28) by (apply Z.pow_le_mono_r; lia).
  assert (0 < 2 ^ k) by (apply Z.pow_pos_nonneg; lia). lia.
Qed.

Lemma int_MemorySize capacity N :
  0 <= capacity < 2 ^ 31 -> OverFallChunkNum capacity = Ret N ->
  exists m, MemorySize capacity true = Ret m /\ 0 < m.
Proof.
  intros Hc HO. pose proof (int_chunks capacity N Hc HO).
  unfold MemorySize, apply_load_factor. cbn [mbind outcome_bind]. rewrite HO. cbn [mbind outcome_bind].
  eexists. split; [done|]. unfold sizeof_PetHash, sizeof_ChunkT. rewrite u64_small; lia.
Qed.

Lemma open_empty (m : M) dict_file valid_file mem capacity pre :
  m_wf m -> m_live m = [] -> m_bound m < 8 * (2 ^ bits - 1) -> 0 <= capacity < 2 ^ 31 ->
  PetHash.capacity_ dict_file = 0 ->
  exists kv, open cfg m dict_file valid_file mem capacity pre = Ret kv /\ kv_wf kv /\
    contents kv = ∅ /\ leaked kv = 0 /\ capacity <= PetHash.capacity_ (dict_ kv) < 2 ^ 32 /\
    shm_malloc_ kv = m /\ pre_known_value_size_ kv = pre.
Proof.
  intros Hm Hl Hb Hc Hz. unfold open. rewrite u64_small by lia.
  destruct (Initialize_ok 0 capacity true capacity) as (d & HI & Hd & Hmap & Hsz & Hcap & HO); [done|lia|].
  pose proof (int_chunks capacity _ Hc HO). destruct (int_MemorySize capacity _ Hc HO) as (ms & -> & Hms). cbn [mbind outcome_bind].
  assert ((if valid_file then m else m_Initialize m) = m) as ->.
  { destruct valid_file; [done|]. apply m_Initialize_law. }
  assert (PetHash.Valid dict_file ms = Ret false) as ->.
  { unfold PetHash.Valid. rewrite Hz. cbn [Z.eqb andb]. by rewrite (proj2 (Z.ltb_lt 0 ms)) by lia. }
  cbn [mbind outcome_bind negb]. rewrite HI. cbn [mbind outcome_bind].
  rewrite m_total_law, Hl by done. unfold PetHash.Size. rewrite Hsz. cbn [CHECK mbind outcome_bind].
  eexists. split; [done|]. unfold leaked, contents, dmap, pending. cbn. rewrite Hmap, Hl. pose proof (dw_cap _ (dw_core _ _ Hd)). split_and!; try done; [|lia|lia].
  split; unfold dmap, pending; cbn; rewrite ?Hmap; try done.
  - apply NoDup_nil_2.
  - intros p Hp. change (p ∈ @nil Z) in Hp. by apply elem_of_nil in Hp.
Qed.

(** A store on a new dict file and an allocator without blocks opens, is
    empty, and has room for the capacity asked for. *)
Theorem PetKV_open_new (m : M) dict_file valid_file mem capacity pre :
  m_wf m -> m_live m = [] -> m_bound m < 8 * (2 ^ bits - 1) -> 0 <= capacity < 2 ^ 31 ->
  PetHash.capacity_ dict_file = 0 ->
  exists kv, open cfg m dict_file valid_file mem capacity pre = Ret kv /\ kv_wf kv /\
    contents kv = ∅ /\ leaked kv = 0 /\ capacity <= PetHash.capacity_ (dict_ kv).
Proof.
  intros H1 H2 H3 H4 H5. destruct (open_empty m dict_file valid_file mem capacity pre H1 H2 H3 H4 H5)
    as (kv & HO & Hkv & Hc & Hl & Hcap & _).
  exists kv. split_and!; (done || lia).
Qed.

(** [~PetKV] *)
Lemma close_ok kv :
  kv_wf kv ->
  exists kv1, close kv = Ret kv1 /\ dict_ kv1 = dict_ kv /\ memory_ kv1 = memory_ kv /\
    pending kv1 = [] /\ released (shm_malloc_ kv) (shm_malloc_ kv1) (pending kv).
Proof.
  intros Hkv. unfold close.
  destruct (Epoch_Clear_gen (shm_recycle_ kv) (shm_malloc_ kv) (kw_mal _ _ _ Hkv)) as (r' & m' & -> & Hr & Hrel).
  { split.
    - pose proof (kw_nodup _ _ _ Hkv) as Hnd. by apply NoDup_app in Hnd as (_ & _ & ?).
    - intros p Hp. apply (kw_live _ _ _ Hkv), elem_of_app. by right. }
  cbn [mbind outcome_bind]. eexists. split; [done|]. split_and!; try done. unfold pending. cbn. by rewrite Hr.
Qed.

(** The well-formed store that a restart gives. *)
Lemma reopened_wf kv (d' : PetHash.dict Z) (m m1 : M) :
  kv_wf kv -> dict_wf d' [] -> to_map d' = dmap kv ->
  released (shm_malloc_ kv) m1 (pending kv) -> m_wf m -> m_live m = m_live m1 -> m_bound m = m_bound m1 ->
  let kv2 := {| dict_ := d'; shm_malloc_ := m; shm_recycle_ := Recycle.Epoch_make;
                memory_ := memory_ kv; pre_known_value_size_ := pre_known_value_size_ kv |} in
  kv_wf kv2 /\ contents kv2 = contents kv.
Proof.
  intros Hkv Hd Hmap Hrel Hm Hl Hb kv2.
  pose proof (kw_nodup _ _ _ Hkv) as Hnd. apply NoDup_app in Hnd as (Hnd1 & Hnd2 & Hnd3).
  assert (Hsub : forall x, x ∈ m_live m -> x ∈ m_live (shm_malloc_ kv)).
  { intros x. rewrite Hl. destruct (rl_live _ _ _ Hrel) as (bs & _ & ->). rewrite elem_of_app. by right. }
  assert (Hkv2 : kv_wf kv2).
  { split; unfold dmap, pending; cbn [kv2 dict_ shm_malloc_ shm_recycle_ pre_known_value_size_]; rewrite ?Hmap.
    - done.
    - apply (kw_word _ _ _ Hkv).
    - done.
    - rewrite Hb, (rl_bound _ _ _ Hrel). apply (kw_bound _ _ _ Hkv).
    - cbn. by rewrite app_nil_r.
    - intros p. cbn. rewrite app_nil_r, Hl. intros Hp.
      eapply released_live; [apply (kw_mal _ _ _ Hkv)|exact Hrel| |by apply Hnd2].
      apply (kw_live _ _ _ Hkv), elem_of_app. by left.
    - intros Hpre k w n Hk Hin. eapply (kw_size _ _ _ Hkv Hpre k); [done|by apply Hsub]. }
  split; [done|]. apply map_eq. intros k. rewrite !contents_lookup.
  assert (dmap kv2 = dmap kv) as Hdm by exact Hmap. rewrite Hdm.
  destruct (dmap kv !! k) as [w|] eqn:Hk; [|done]. cbn [fmap option_fmap option_map]. f_equal.
  unfold value_of. cbn [memory_ kv2]. f_equal.
  destruct (entry_block cfg bits kv2 k w Hkv2) as (n & Hin & -> & _); [by rewrite Hdm|].
  destruct (entry_block cfg bits kv k w Hkv Hk) as (n' & Hin' & -> & _).
  eapply live_unique; [apply (kw_mal _ _ _ Hkv)| |exact Hin']. by apply Hsub.
Qed.

(** The constructor on a well-formed index: recovery, then the comparison of the
    number of keys with the number of blocks. *)
Lemma open_wf (m : M) (d : PetHash.dict Z) mem capacity pre :
  dict_wf d [] -> to_map d !! kEmptyKey = None -> 0 <= capacity < 2 ^ 31 ->
  OverFallChunkNum capacity = Ret (PetHash.chunk_num_ d) -> m_wf m ->
  exists d', dict_wf d' [] /\ to_map d' = to_map d /\
    open cfg m d true mem capacity pre =
    (_ ← CHECK (Z.of_nat (size (to_map d)) =? Z.of_nat (length (m_live m)));
     Ret {| dict_ := d'; shm_malloc_ := m; shm_recycle_ := Recycle.Epoch_make; memory_ := mem;
            pre_known_value_size_ := pre |}).
Proof.
  intros Hd Hno Hc HO Hm. pose proof (int_chunks _ _ Hc HO) as [Hn0 Hn]. unfold open. rewrite u64_small by lia.
  destruct (int_MemorySize capacity _ Hc HO) as (ms & HM & Hms). rewrite HM. cbn [mbind outcome_bind].
  rewrite (MemorySize_same _ _ (dw_num _ (dw_core _ _ Hd)) HO), <- (dw_cap _ (dw_core _ _ Hd)) in HM.
  rewrite (Valid_size _ ms ms Hd HM), Z.eqb_refl. cbn [mbind outcome_bind negb].
  set (sv := fun (m : M) (_ value : Z) => m_AddMallocs4Recovery m (off value)).
  destruct (Reload_wf sv d m capacity 4 Hd ltac:(lia) Hno HO) as (d' & -> & Hd' & Hmap & HN').
  assert (Hrep : forall l, report sv m l = m).
  { intros l. unfold report. induction l as [|[k w] l IH]; [done|]. cbn [foldl fst snd]. unfold sv at 2.
    by rewrite m_Recovery_law. }
  exists d'. split; [done|]. split; [done|]. rewrite Hrep. cbn [mbind outcome_bind]. rewrite m_total_law by done.
  do 4 f_equal. unfold PetHash.Size. rewrite (size_map d' (dw_core _ _ Hd')), Hmap. apply u32_small.
  pose proof (size_bound d (dw_core _ _ Hd)) as Hsb. rewrite (size_map _ (dw_core _ _ Hd)) in Hsb. lia.
Qed.

(** [C11] Restart: closing a store and opening it again, on an allocator that has
    recovered its blocks, gives a store with the same contents if no block
    has leaked.  If one has, the check of the constructor that compares the
    number of keys with the number of blocks kills the process. *)
Theorem PetKV_restart kv capacity :
  kv_wf kv -> contents kv !! kEmptyKey = None -> 0 <= capacity < 2 ^ 31 ->
  OverFallChunkNum capacity = Ret (PetHash.chunk_num_ (dict_ kv)) ->
  exists kv1, close kv = Ret kv1 /\
    forall m, m_wf m -> m_live m = m_live (shm_malloc_ kv1) -> m_bound m = m_bound (shm_malloc_ kv1) ->
    let reopened := open cfg m (dict_ kv1) true (memory_ kv1) capacity (pre_known_value_size_ kv) in
    (leaked kv = 0 -> exists kv2, reopened = Ret kv2 /\ kv_wf kv2 /\ contents kv2 = contents kv /\
       leaked kv2 = 0) /\
    (leaked kv <> 0 -> reopened = Err CheckFailed).
Proof.
  intros Hkv Hno Hc HO. pose proof (kw_dict _ _ _ Hkv) as Hd.
  destruct (close_ok kv Hkv) as (kv1 & Hcl & Hd1 & Hmem & Hp1 & Hrel). exists kv1. split; [done|].
  intros m Hm Hl Hb. cbn zeta. rewrite Hd1, Hmem.
  assert (Hno' : to_map (dict_ kv) !! kEmptyKey = None) by (rewrite contents_lookup in Hno; by apply fmap_None in Hno).
  destruct (open_wf m (dict_ kv) (memory_ kv) capacity (pre_known_value_size_ kv) Hd Hno' Hc HO Hm)
    as (d' & Hd' & Hmap & ->). fold (dmap kv) in Hmap |- *. rewrite Hl.
  assert (Hlen : Z.of_nat (length (m_live (shm_malloc_ kv1))) = Z.of_nat (size (dmap kv)) + leaked kv).
  { unfold leaked. destruct (rl_live _ _ _ Hrel) as (bs & Hbs & HP). apply Permutation_length in HP.
    rewrite length_app in HP. rewrite <- Hbs, length_fmap. lia. }
  rewrite Hlen. split; intros Hlk.
  - rewrite Hlk, Z.add_0_r, Z.eqb_refl. cbn [CHECK mbind outcome_bind]. eexists. split; [done|].
    destruct (reopened_wf kv d' m (shm_malloc_ kv1) Hkv Hd' Hmap Hrel Hm Hl Hb) as [? ?].
    split_and!; try done. unfold leaked, dmap, pending. cbn [dict_ shm_malloc_ shm_recycle_].
    rewrite Hmap, Hl, Hlen, Hlk. fold (dmap kv). cbn. lia.
  - by rewrite (proj2 (Z.eqb_neq _ _)) by lia.
Qed.

(** ** Runs of updates *)

Fixpoint updates kv (g : Epoch.manager) (l : list (Z * list Z)) : outcome (petkv M * Epoch.manager) :=
  match l with
  | [] => Ret (kv, g)
  | (key, log) :: l' => '(kv, g, _) ← Update cfg kv g key log; updates kv g l'
  end.

Lemma write_ptr_frame (d : PetHash.dict Z) p v : frame d (PetHash.write_ptr d p v).
Proof. by destruct p. Qed.

Lemma Update_frame kv g key log kv' g' b :
  Update cfg kv g key log = Ret (kv', g', b) ->
  frame (dict_ kv) (dict_ kv') /\ pre_known_value_size_ kv' = pre_known_value_size_ kv.
Proof.
  unfold Update, set_offset, PetHash.Insert. intros H. inv_tuple. split; [|done].
  match goal with H : match ?o with Some _ => _ | None => _ end = Ret _ |- _ => destruct o end; inv_tuple.
  - apply write_ptr_frame.
  - etrans; [by eapply insert_loop_frame|apply write_ptr_frame].
Qed.

Lemma updates_insert kv g l :
  kv_wf kv -> Forall (fun u => 0 <= u.1 < 2 ^ 64) l ->
  Forall (fun u => m_accepts (shm_malloc_ kv) (Z.of_nat (length u.2)) /\
    (pre_known_value_size_ kv <> 0 -> Z.of_nat (length u.2) = pre_known_value_size_ kv)) l ->
  (Z.of_nat (size (contents kv)) + Z.of_nat (length l)) * 100 < PetHash.capacity_ (dict_ kv) * 90 + 100 ->
  (exists kv' g', updates kv g l = Ret (kv', g') /\ kv_wf kv' /\
    contents kv' = foldl (fun c u => <[u.1 := u.2]> c) (contents kv) l /\ leaked kv' = leaked kv) \/
  updates kv g l = Err LogFatal.
Proof.
  revert kv g. induction l as [|[key log] l IH]; intros kv g Hkv Hk Hl Hc; [left; by eexists _, _|].
  apply Forall_cons in Hk as [Hk0 Hk]. apply Forall_cons in Hl as [[Ha Hp] Hl]. cbn [length fst snd] in *.
  assert (Hsz : PetHash.size_ (dict_ kv) = Z.of_nat (size (contents kv))).
  { rewrite (size_map _ (dw_core _ _ (kw_dict _ _ _ Hkv))). unfold contents. by rewrite map_size_fmap. }
  assert (HF : PetHash.Full (dict_ kv) = false).
  { apply not_Full_intro; [apply (dw_core _ _ (kw_dict _ _ _ Hkv))|]. rewrite Hsz. lia. }
  cbn [updates foldl fst snd].
  destruct (Update_insert kv g key log Hkv Hk0 (or_intror HF) Ha Hp)
    as [(kv1 & g1 & HU & Hkv1 & Hc1 & Hl1 & Ha1)|[_ HU]]; rewrite HU; cbn [mbind outcome_bind]; [|by right].
  apply Update_frame in HU as [[_ Hcap] Hpre].
  rewrite <- Hc1, <- Hl1. apply IH; [done|done| |].
  - rewrite Hpre. eapply Forall_impl; [exact Hl|]. intros u [? ?]. auto.
  - rewrite Hcap, Hc1, map_size_insert. destruct (contents kv !! key); unfold Datatypes.id; lia.
Qed.

(** A run of updates that fits in the maximal load refines the run of
    insertions: the last bytes written for each key are what the store holds,
    nothing leaks, and the run stops early only when the allocator is out of
    memory. *)
Theorem PetKV_updates_refine kv g l :
  kv_wf kv -> Forall (fun u => 0 <= u.1 < 2 ^ 64) l ->
  Forall (fun u => m_accepts (shm_malloc_ kv) (Z.of_nat (length u.2)) /\
    (pre_known_value_size_ kv <> 0 -> Z.of_nat (length u.2) = pre_known_value_size_ kv)) l ->
  (Z.of_nat (size (contents kv)) + Z.of_nat (length l)) * 100 < PetHash.capacity_ (dict_ kv) * 90 + 100 ->
  (exists kv' g', updates kv g l = Ret (kv', g') /\ kv_wf kv' /\
    contents kv' = foldl (fun c u => <[u.1 := u.2]> c) (contents kv) l /\ leaked kv' = leaked kv) \/
  updates kv g l = Err LogFatal.
Proof. apply updates_insert. Qed.
End Props.

(** ** A store of two chunks on a pool of one chunk *)

Section Store.
Import PetKV.

Definition new_malloc : pool_of true := PoolOf true (empty_pool MemoryPool.kChunkSize [256]).

Lemma new_malloc_wf : m_wf new_malloc.
Proof.
  destruct (empty_pool_ok MemoryPool.kChunkSize [256]) as (Hwf & _ & Hl & Hs); [by vm_compute|by vm_compute|].
  split; cbn [the_pool new_malloc].
  - done.
  - intros s Hin. split_and!; [..|by apply Hs]; apply list_elem_of_singleton in Hin as ->; done || lia.
  - intros a n Hin. rewrite Hl in Hin. by apply elem_of_nil in Hin.
  - done.
Qed.

Definition zero_file : PetHash.dict Z := PetHash.Build_dict 0 0 0 [].

Definition value_bytes (b : Z) : list Z := replicate 256 b.

Lemma PetKV_open_new_witness :
  exists kv, open config48 new_malloc zero_file false ∅ 28 256 = Ret kv /\ kv_wf config48 48 kv /\
    contents config48 kv = ∅ /\ leaked kv = 0 /\ 28 <= PetHash.capacity_ (dict_ kv).
Proof.
  apply (PetKV_open_new config48 48 new_malloc zero_file false ∅ 28 256);
    [apply new_malloc_wf|by_eval|by_eval|lia|done].
Defined.

(** The store after an update of each of the keys [ks]. *)
Definition puts (ks : list Z) : list (Z * list Z) := (fun k => (k, value_bytes k)) <$> ks.

Definition store (ks : list Z) : petkv (pool_of true) :=
  match kv ← open config48 new_malloc zero_file false ∅ 28 256;
        updates config48 kv (Epoch.make 64) (puts ks) with
  | Ret (kv, _) => kv
  | Err _ => Build_petkv zero_file new_malloc Recycle.Epoch_make ∅ 0
  end.

Definition runs {A} (o : outcome A) : bool := match o with Ret _ => true | Err _ => false end.

Lemma store_ok ks :
  forallb (fun k => (0 <=? k) && (k <? 2 ^ 64)) ks = true -> (length ks <= 26)%nat ->
  runs (kv ← open config48 new_malloc zero_file false ∅ 28 256;
        updates config48 kv (Epoch.make 64) (puts ks)) = true ->
  kv_wf config48 48 (store ks) /\ leaked (store ks) = 0 /\
  contents config48 (store ks) =
    foldl (fun c u => <[u.1 := u.2]> c) ∅ (puts ks).
Proof.
  intros Hks Hn. unfold store.
  destruct (open_empty config48 48 new_malloc zero_file false ∅ 28 256) as (kv & HO & Hkv & Hc & Hl & Hcap);
    [apply new_malloc_wf|by_eval|by_eval|lia|done|].
  assert (Hm : MemoryPool.allocated_slab_sizes_ (the_pool _ (shm_malloc_ kv)) = [256] /\
    pre_known_value_size_ kv = 256).
  { assert (E : match open config48 new_malloc zero_file false ∅ 28 256 with
      | Ret kv => (MemoryPool.allocated_slab_sizes_ (the_pool _ (shm_malloc_ kv)), pre_known_value_size_ kv)
      | Err _ => ([], 0) end = ([256], 256)) by by_eval.
    rewrite HO in E. by simplify_eq. }
  rewrite HO. cbn [mbind outcome_bind].
  destruct (updates_insert config48 48 config48_bits kv (Epoch.make 64) (puts ks))
    as [(kv' & g' & -> & Hkv' & Hc' & Hl')| ->]; [done| | | | |done].
  - apply Forall_forall. intros u (k & -> & Hk)%list_elem_of_fmap. cbn [fst].
    apply list_elem_of_In in Hk. rewrite forallb_forall in Hks. apply Hks in Hk. b2p. lia.
  - apply Forall_forall. intros u (k & -> & _)%list_elem_of_fmap.
    destruct Hm as [Hm ->]. unfold value_bytes. cbn [snd]. rewrite length_replicate. split; [|done].
    cbn. rewrite Hm. by apply list_elem_of_singleton.
  - rewrite Hc, map_size_empty. unfold puts. rewrite length_fmap. lia.
  - intros _. rewrite Hl', Hl, Hc', Hc. done.
Qed.

Definition three : list Z := [1; 2; 3].

Lemma three_ok :
  kv_wf config48 48 (store three) /\ leaked (store three) = 0 /\
  contents config48 (store three) = foldl (fun c u => <[u.1 := u.2]> c) ∅ (puts three).
Proof. apply (store_ok three); [by_eval|apply Nat.leb_le; by_eval|by_eval]. Qed.

(** Fourteen keys of chunk 0 and twelve of chunk 1: the maximal load. *)
Definition loaded : list Z := ((fun k => 2 * k) <$> seqZ 1 14) ++ ((fun k => 2 * k + 1) <$> seqZ 1 12).

Lemma loaded_ok :
  kv_wf config48 48 (store loaded) /\ leaked (store loaded) = 0 /\
  contents config48 (store loaded) = foldl (fun c u => <[u.1 := u.2]> c) ∅ (puts loaded).
Proof. apply (store_ok loaded); [by_eval|apply Nat.leb_le; by_eval|by_eval]. Qed.

Lemma accepts_256 (kv : petkv (pool_of true)) b :
  MemoryPool.allocated_slab_sizes_ (the_pool _ (shm_malloc_ kv)) = [256] ->
  m_accepts (shm_malloc_ kv) (Z.of_nat (length (value_bytes b))).
Proof. intros H. cbn. rewrite H. by apply list_elem_of_singleton. Qed.

Lemma PetKV_Get_refines_witness :
  contents config48 (store three) !! 2 = Some (value_bytes 2) /\
  exists r, Get config48 (store three) 2 = Ret r /\
    match contents config48 (store three) !! 2 with
    | None => r_data r = None /\ r_size r = 0
    | Some log => exists p, r_data r = Some p /\ r_size r = Z.of_nat (length log) /\
                    read_bytes (memory_ (store three)) p (r_size r) = log
    end.
Proof.
  destruct three_ok as (Hkv & _ & Hc).
  split; [rewrite Hc; by_eval|]. exact (PetKV_Get_refines config48 48 (store three) 2 Hkv).
Defined.


Lemma PetKV_Update_evicts_witness :
  (exists kv' g', Update config48 (store loaded) (Epoch.make 64) 100 (value_bytes 7) = Ret (kv', g', true) /\
    kv_wf config48 48 kv' /\
    (contents config48 kv' = <[100 := value_bytes 7]> (contents config48 (store loaded)) /\
       leaked kv' = leaked (store loaded) \/
     PetHash.Full (dict_ (store loaded)) = true /\
     exists victim, is_Some (contents config48 (store loaded) !! victim) /\
       contents config48 kv' = <[100 := value_bytes 7]> (delete victim (contents config48 (store loaded))) /\
       leaked kv' = leaked (store loaded) + 1)) \/
  m_New (shm_malloc_ (store loaded)) 256 = Err LogFatal /\
  Update config48 (store loaded) (Epoch.make 64) 100 (value_bytes 7) = Err LogFatal.
Proof.
  destruct loaded_ok as (Hkv & _ & Hc).
  apply (PetKV_Update_evicts config48 48 config48_bits (store loaded) (Epoch.make 64) 100 (value_bytes 7)).
  - exact Hkv.
  - lia.
  - rewrite Hc. by_eval.
  - apply Z.leb_le. by_eval.
  - apply accepts_256. by_eval.
  - intros _. by_eval.
Defined.

Lemma PetKV_updates_refine_witness :
  (exists kv' g', updates config48 (store three) (Epoch.make 64) (puts [2; 9; 2]) = Ret (kv', g') /\
    kv_wf config48 48 kv' /\
    contents config48 kv' =
      foldl (fun c u => <[u.1 := u.2]> c) (contents config48 (store three)) (puts [2; 9; 2]) /\
    leaked kv' = leaked (store three)) \/
  updates config48 (store three) (Epoch.make 64) (puts [2; 9; 2]) = Err LogFatal.
Proof.
  destruct three_ok as (Hkv & _ & Hc).
  apply (PetKV_updates_refine config48 48 config48_bits (store three) (Epoch.make 64) (puts [2; 9; 2])).
  - exact Hkv.
  - repeat constructor; cbn; lia.
  - apply Forall_forall. intros u (k & -> & _)%list_elem_of_fmap.
    split; [apply (accepts_256 (store three)); by_eval|intros _; by_eval].
  - rewrite Hc. by_eval.
Defined.

Lemma PetKV_restart_witness :
  leaked (store three) = 0 /\
  exists kv1, close (store three) = Ret kv1 /\
    forall m : pool_of true, m_wf m -> m_live m = m_live (shm_malloc_ kv1) -> m_bound m = m_bound (shm_malloc_ kv1) ->
    let reopened := open config48 m (dict_ kv1) true (memory_ kv1) 28 256 in
    (leaked (store three) = 0 -> exists kv2, reopened = Ret kv2 /\ kv_wf config48 48 kv2 /\
       contents config48 kv2 = contents config48 (store three) /\ leaked kv2 = 0) /\
    (leaked (store three) <> 0 -> reopened = Err CheckFailed).
Proof.
  destruct three_ok as (Hkv & Hl & Hc). split; [exact Hl|].
  apply (PetKV_restart config48 48 (store three) 28); [exact Hkv|rewrite Hc; by_eval|lia|by_eval].
Defined.

(** An eviction makes the store unable to restart: fill an index of two
    chunks to its maximal load, update one more key, close the store, and open
    pool and store again on their files: the constructor dies in
    [CHECK_EQ(dict_->Size(), shm_malloc_->total_malloc())]. *)
Theorem eviction_blocks_restart :
  let run :=
    '(kv, _, b) ← Update config48 (store loaded) (Epoch.make 64) 100 (value_bytes 7);
    kv1 ← close kv;
    let m := the_pool _ (shm_malloc_ kv1) in
    p ← MemoryPool.open (MemoryPool.chunks_ m) (MemoryPool.meta_ m) true MemoryPool.kChunkSize [256];
    Ret (kv, b, kv1, p) in
  match run with
  | Ret (kv, b, kv1, p) =>
      b = true /\ key_num kv = key_num (store loaded) /\
      open config48 (PoolOf true p) (dict_ kv1) true (memory_ kv1) 28 256 = Err CheckFailed
  | Err _ => False
  end.
Proof. vm_compute. auto. Qed.
End Store.
