(* ===== verification/PetKVCrash.v ===== *)
(** * A shard whose process is killed (src/pet_kv/pet_kv.h, pet_kv.cc)

    [PetKV_restart] closes the store first.  Here the process dies: the index
    and the allocator are what the last stores left, and the blocks in the
    queue of the recycler are still allocated.  The constructor compares the
    number of keys with the number of blocks, so a store opens again only if no
    block is queued, leaked, or allocated for an update that was under way. *)

From stdpp Require Import base numbers list gmap.
From Stdlib Require Import ZArith Lia.
From S2P Require Import Prelude F14Chunk PetHashDict PetHashInv PetHashOps PetHashInsert PetHashSpec.
From S2P Require Import PetHashValid PetHashReload PetHashStores PetHashCrash ShmCommon MallocApi MemoryPool.
From S2P Require Import Epoch Recycle PetKV PetKVSpec PetKVProps.

Section Killed.
Import PetKV.
Context {M : Type} `{!MallocApi M} `{!MallocLaws M}.
Context (cfg : PetKVData.Config) (bits : Z) (Hcfg : config_bits cfg bits).
Implicit Types (kv : petkv M).

Notation kv_wf := (kv_wf cfg bits).
Notation contents := (contents cfg).

Lemma New_ok (m m1 : M) n ptr :
  m_wf m -> m_accepts m n -> m_New m n = Ret (m1, ptr) ->
  m_wf m1 /\ length (m_live m1) = S (length (m_live m)).
Proof.
  intros Hm Ha HN. destruct (m_New_law m n Hm Ha) as [(m' & p' & HN' & Hm' & HP & _)|HN'];
    rewrite HN in HN'; [|done]. injection HN' as <- _. by rewrite HP.
Qed.

Lemma blocks_count kv :
  kv_wf kv ->
  0 <= leaked kv /\
  Z.of_nat (length (m_live (shm_malloc_ kv))) =
    Z.of_nat (size (dmap kv)) + leaked kv + Z.of_nat (length (pending kv)).
Proof.
  intros Hkv. split; [|unfold leaked; lia].
  pose proof (NoDup_submseteq _ _ (kw_nodup _ _ _ Hkv) (kw_live _ _ _ Hkv)) as Hs.
  apply submseteq_length in Hs. rewrite length_app, length_fmap in Hs. unfold leaked, offsets in *.
  rewrite !length_fmap, length_map_to_list in Hs. lia.
Qed.

(** [C12] The process is killed between two operations: the store opens again,
    with the same contents, exactly if no block is leaked and none waits in the
    queue of the recycler; otherwise the constructor dies, on every start. *)
Theorem PetKV_killed kv capacity (m : M) :
  kv_wf kv -> contents kv !! kEmptyKey = None -> 0 <= capacity < 2 ^ 31 ->
  OverFallChunkNum capacity = Ret (PetHash.chunk_num_ (dict_ kv)) ->
  m_wf m -> m_live m = m_live (shm_malloc_ kv) -> m_bound m = m_bound (shm_malloc_ kv) ->
  let reopened := open cfg m (dict_ kv) true (memory_ kv) capacity (pre_known_value_size_ kv) in
  if bool_decide (leaked kv = 0 /\ pending kv = [])
  then exists kv2, reopened = Ret kv2 /\ kv_wf kv2 /\ contents kv2 = contents kv
  else reopened = Err CheckFailed.
Proof.
  intros Hkv Hno Hc HO Hm Hl Hb. cbn zeta. pose proof (kw_dict _ _ _ Hkv) as Hd.
  assert (Hno' : to_map (dict_ kv) !! kEmptyKey = None) by (rewrite contents_lookup in Hno; by apply fmap_None in Hno).
  destruct (open_wf cfg m (dict_ kv) (memory_ kv) capacity (pre_known_value_size_ kv) Hd Hno' Hc HO Hm)
    as (d' & Hd' & Hmap & ->). fold (dmap kv) in Hmap |- *.
  destruct (blocks_count kv Hkv) as [H0 Hn]. rewrite Hl, Hn. case_bool_decide as Hcase.
  - destruct Hcase as [Hlk Hp]. rewrite Hlk, Hp. cbn [length]. rewrite !Z.add_0_r, Z.eqb_refl.
    cbn [CHECK mbind outcome_bind]. eexists. split; [done|].
    apply (reopened_wf cfg bits kv d' m (shm_malloc_ kv)); try done.
    rewrite Hp. apply released_nil, (kw_mal _ _ _ Hkv).
  - rewrite (proj2 (Z.eqb_neq _ _)); [done|]. intros E. apply Hcase.
    assert (leaked kv = 0 /\ length (pending kv) = 0%nat) as [? ?%nil_length_inv] by lia. done.
Qed.

(** An index that the self check rejects is emptied. *)
Lemma open_rejected (m : M) (d : PetHash.dict Z) mem capacity pre ms :
  0 <= capacity < 2 ^ 31 -> MemorySize capacity true = Ret ms -> PetHash.Valid d ms = Ret false ->
  m_wf m -> m_live m <> [] -> open cfg m d true mem capacity pre = Err CheckFailed.
Proof.
  intros Hc HM HV Hm Hl. unfold open. rewrite u64_small, HM by lia. cbn [mbind outcome_bind].
  rewrite HV. cbn [mbind outcome_bind negb].
  destruct (Initialize_ok 0 capacity true capacity) as (d' & -> & _ & _ & Hs & _); [done|lia|].
  cbn [mbind outcome_bind]. unfold PetHash.Size. rewrite Hs, m_total_law by done.
  rewrite (proj2 (Z.eqb_neq _ _)); [done|]. destruct (m_live m); [done|]. cbn [length]. by rewrite u32_small by lia.
Qed.

(** The process is killed inside an Update of a new key: after the
    allocation of the block and before the last store of Insert, wherever that
    is, the files do not open again: the index has a key less than the
    allocator has blocks, or the self check has rejected and emptied it. *)
Theorem PetKV_killed_in_Update how kv key n (m1 m : M) ptr capacity mem :
  kv_wf kv -> 0 <= key < 2 ^ 64 -> contents kv !! key = None -> contents kv !! kEmptyKey = None ->
  PetHash.Full (dict_ kv) = false -> m_accepts (shm_malloc_ kv) n ->
  m_New (shm_malloc_ kv) n = Ret (m1, ptr) ->
  0 <= capacity < 2 ^ 31 -> OverFallChunkNum capacity = Ret (PetHash.chunk_num_ (dict_ kv)) ->
  m_wf m -> m_live m = m_live m1 ->
  exists l p, Stores.insert_stores how (dict_ kv) key (PetKVData.make cfg ptr) None true = Ret (l, p) /\
    forall executed, (executed < length l)%nat ->
      open cfg m (Stores.run (dict_ kv) (take executed l)) true mem capacity (pre_known_value_size_ kv) =
      Err CheckFailed.
Proof.
  intros Hkv Hk Hno Hem HF Hacc HN Hc HO Hm Hl. pose proof (kw_dict _ _ _ Hkv) as Hd.
  rewrite contents_lookup in Hno, Hem. apply fmap_None in Hno, Hem. unfold dmap in Hno, Hem.
  destruct (New_ok _ _ _ _ (kw_mal _ _ _ Hkv) Hacc HN) as [_ HP].
  destruct (int_MemorySize capacity _ Hc HO) as (ms & HM & _).
  destruct (insert_checks how (dict_ kv) key (PetKVData.make cfg ptr) true ms Hd Hk Hno HF)
    as (l & p & b & z & HI & _ & _ & Hq).
  { rewrite (dw_cap _ (dw_core _ _ Hd)), <- (MemorySize_same _ _ (dw_num _ (dw_core _ _ Hd)) HO). done. }
  exists l, p. split; [done|]. intros q Hlt. destruct (Hq q) as [H1 H2].
  destruct (decide (q <= b)%nat) as [Hqb|Hqb].
  - destruct (H1 Hqb) as [Hw Hmp _ Hnm _].
    destruct (open_wf cfg m (Stores.run (dict_ kv) (take q l)) mem capacity (pre_known_value_size_ kv) Hw)
      as (d' & _ & _ & ->); [by rewrite Hmp|done|by rewrite Hnm|done|].
    destruct (blocks_count kv Hkv) as [H0 Hn]. rewrite Hmp, Hl, HP. fold (dmap kv).
    by rewrite (proj2 (Z.eqb_neq _ _)) by lia.
  - eapply open_rejected; [done|exact HM|apply H2; lia|done|]. intros E. rewrite <- Hl, E in HP. done.
Qed.
End Killed.

(** ** The store of three keys *)

Section Store.
Import PetKV.

Lemma PetKV_killed_witness :
  leaked (store three) = 0 /\ pending (store three) = [] /\
  exists kv2, open config48 (shm_malloc_ (store three)) (dict_ (store three)) true (memory_ (store three)) 28 256
      = Ret kv2 /\ kv_wf config48 48 kv2 /\ contents config48 kv2 = contents config48 (store three).
Proof.
  destruct three_ok as (Hkv & Hl & Hc). assert (Hp : pending (store three) = []) by by_eval.
  split; [exact Hl|]. split; [exact Hp|].
  pose proof (PetKV_killed config48 48 (store three) 28 (shm_malloc_ (store three)) Hkv) as H.
  rewrite (bool_decide_eq_true_2 _ (conj Hl Hp)) in H.
  apply H; [rewrite Hc; by_eval|lia|by_eval|apply (kw_mal _ _ _ Hkv)|reflexivity|reflexivity].
Defined.

(** One update of a stored key is enough: its old block waits in the queue. *)
Theorem killed_after_overwrite :
  match Update config48 (store three) (Epoch.make 64) 2 (value_bytes 7) with
  | Ret (kv, _, b) =>
      b = true /\
      (let m := the_pool _ (shm_malloc_ kv) in
       p ← MemoryPool.open (MemoryPool.chunks_ m) (MemoryPool.meta_ m) true MemoryPool.kChunkSize [256];
       open config48 (PoolOf true p) (dict_ kv) true (memory_ kv) 28 256) = Err CheckFailed
  | Err _ => False
  end.
Proof. vm_compute. auto. Qed.

Definition three_malloc : pool_of true * Z :=
  match m_New (shm_malloc_ (store three)) 256 with Ret r => r | Err _ => (new_malloc, 0) end.

Lemma PetKV_killed_in_Update_witness :
  exists l p, Stores.insert_stores Whole (dict_ (store three)) 9 (PetKVData.make config48 three_malloc.2) None true
      = Ret (l, p) /\
    forall executed, (executed < length l)%nat ->
      open config48 three_malloc.1 (Stores.run (dict_ (store three)) (take executed l)) true ∅ 28 256 =
      Err CheckFailed.
Proof.
  destruct three_ok as (Hkv & _ & Hc).
  assert (HN : m_New (shm_malloc_ (store three)) 256 = Ret (three_malloc.1, three_malloc.2)) by by_eval.
  assert (Ha : m_accepts (shm_malloc_ (store three)) 256) by (apply (accepts_256 (store three) 0); by_eval).
  apply (PetKV_killed_in_Update config48 48 Whole (store three) 9 256 three_malloc.1 three_malloc.1 three_malloc.2 28 ∅
    Hkv); [lia|rewrite Hc; by_eval|rewrite Hc; by_eval|by_eval|exact Ha|exact HN|lia|by_eval| |reflexivity].
  exact (proj1 (New_ok _ _ _ _ (kw_mal _ _ _ Hkv) Ha HN)).
Defined.
End Store.
