(* ===== verification/PetMultiKVSpec.v ===== *)
(** * PetMultiKV: the shards together

    The invariant: every shard is well formed, and a key is in the shard that
    [GetShard] gives for it.  The store is then the disjoint union of its
    shards, and [Get], [Update], [BatchGet] and [key_num] are the operations of
    that union.  [GetHashWithLevel] (CityHash) is any function. *)

From stdpp Require Import base numbers list gmap.
From Stdlib Require Import ZArith Lia.
From S2P Require Import Prelude F14Chunk PetHashDict PetHashInv PetHashOps PetHashInsert PetHashSpec.
From S2P Require Import ShmCommon MallocApi Epoch Recycle PetKV PetKVSpec PetKVProps.

(** ** Disjoint unions of a list of maps *)

Section Unions.
Context {A : Type}.
Implicit Types (ms : list (gmap Z A)).

Definition apart ms : Prop :=
  forall i j m m' k, ms !! i = Some m -> ms !! j = Some m' -> is_Some (m !! k) -> is_Some (m' !! k) -> i = j.

Lemma apart_cons m ms : apart (m :: ms) -> apart ms /\ m ##ₘ ⋃ ms.
Proof.
  intros H. split.
  - intros i j m1 m2 k H1 H2 S1 S2. assert (S i = S j) by (by eapply (H (S i) (S j) m1 m2 k)). lia.
  - apply map_disjoint_spec. intros k x y Hx Hy.
    assert (exists j m', ms !! j = Some m' /\ is_Some (m' !! k)) as (j & m' & Hj & Hs).
    { clear H Hx. induction ms as [|m' ms IH]; [by rewrite union_list_nil, lookup_empty in Hy|].
      cbn in Hy. apply lookup_union_Some_raw in Hy as [Hy|[_ Hy]]; [exists O, m'; by split|].
      destruct (IH Hy) as (j & m'' & ? & ?). by exists (S j), m''. }
    by specialize (H O (S j) m m' k eq_refl Hj (mk_is_Some _ _ Hx) Hs).
Qed.

Lemma union_lookup ms s m k :
  ms !! s = Some m -> (forall i m', ms !! i = Some m' -> i <> s -> m' !! k = None) -> (⋃ ms) !! k = m !! k.
Proof.
  revert s. induction ms as [|m0 ms IH]; intros s Hs Hno; [done|]. cbn. destruct s as [|s].
  - injection Hs as <-. assert (E : (⋃ ms) !! k = None); [|rewrite lookup_union, E; by destruct (m0 !! k)].
    clear IH. assert (H : forall i m', ms !! i = Some m' -> m' !! k = None).
    { intros i m' Hi. by apply (Hno (S i)). }
    clear Hno. induction ms as [|m1 ms IH]; [apply lookup_empty|]. cbn.
    apply lookup_union_None. split; [by apply (H O)|]. apply IH. intros i m' Hi. by apply (H (S i)).
  - rewrite lookup_union_r by (by apply (Hno O)). apply (IH s); [done|].
    intros i m' Hi Hne. apply (Hno (S i)); [done|lia].
Qed.

Lemma union_size ms : apart ms -> size (⋃ ms) = sum_list (size <$> ms).
Proof.
  induction ms as [|m ms IH]; intros H; [done|]. apply apart_cons in H as [H Hd]. cbn.
  by rewrite map_size_disj_union, IH.
Qed.
End Unions.

Section Spec.
Import PetMultiKV.
Context {M : Type} `{!MallocApi M} `{!MallocLaws M}.
Context (cfg : PetKVData.Config) (bits : Z) (Hcfg : config_bits cfg bits).
Context (GetHashWithLevel : Z -> Z -> Z).
Implicit Types (kv : multikv M) (s : PetKV.petkv M).

Notation GetShard := (GetShard GetHashWithLevel).
Notation contents := (contents cfg).

Record multi_wf kv : Prop := {
  mw_num : 0 < shard_num_ kv < 2 ^ 31;
  mw_len : Z.of_nat (length (shm_kv_ kv)) = shard_num_ kv;
  mw_shard : Forall (kv_wf cfg bits) (shm_kv_ kv);
  mw_pre : Forall (fun s => PetKV.pre_known_value_size_ s = multi_pre_known_value_size_ kv) (shm_kv_ kv);
  mw_cap : Forall (fun s => PetHash.capacity_ (PetKV.dict_ s) < 2 ^ 32) (shm_kv_ kv);
  mw_part : forall i s k, shm_kv_ kv !! i = Some s -> is_Some (contents s !! k) ->
    GetShard kv k = Z.of_nat i
}.

(** The contents of all shards. *)
Definition multi_contents kv : gmap Z (list Z) := ⋃ (contents <$> shm_kv_ kv).

Lemma shard_of kv key :
  multi_wf kv -> exists s, shm_kv_ kv !! Z.to_nat (GetShard kv key) = Some s /\ kv_wf cfg bits s /\
    PetKV.pre_known_value_size_ s = multi_pre_known_value_size_ kv /\
    PetHash.capacity_ (PetKV.dict_ s) < 2 ^ 32 /\
    multi_contents kv !! key = contents s !! key.
Proof.
  intros Hkv. pose proof (mw_num _ Hkv). pose proof (mw_len _ Hkv).
  assert (HS : 0 <= GetShard kv key < shard_num_ kv) by (apply Z.mod_pos_bound; lia).
  destruct (lookup_lt_is_Some_2 (shm_kv_ kv) (Z.to_nat (GetShard kv key))) as [s Hs]; [lia|].
  exists s. split_and!; [done|by eapply Forall_lookup_1; [apply (mw_shard _ Hkv)|]
    |by eapply (Forall_lookup_1 _ _ _ _ (mw_pre _ Hkv))|by eapply (Forall_lookup_1 _ _ _ _ (mw_cap _ Hkv))|].
  apply (union_lookup _ (Z.to_nat (GetShard kv key))); [by rewrite list_lookup_fmap, Hs|].
  intros i m' Hi Hne. rewrite list_lookup_fmap in Hi. apply fmap_Some in Hi as (s' & Hs' & ->).
  apply eq_None_not_Some. intros Hk. pose proof (mw_part _ Hkv i s' key Hs' Hk). lia.
Qed.

Lemma multi_apart kv : multi_wf kv -> apart (contents <$> shm_kv_ kv).
Proof.
  intros Hkv i j m m' k Hi Hj Hm Hm'. rewrite list_lookup_fmap in Hi, Hj.
  apply fmap_Some in Hi as (s & Hs & ->). apply fmap_Some in Hj as (s' & Hs' & ->).
  pose proof (mw_part _ Hkv i s k Hs Hm). pose proof (mw_part _ Hkv j s' k Hs' Hm'). lia.
Qed.

(** Replacing the shard of a key by one that differs in that key only. *)
Lemma multi_insert kv key log s s' :
  multi_wf kv -> shm_kv_ kv !! Z.to_nat (GetShard kv key) = Some s -> kv_wf cfg bits s' ->
  contents s' = <[key := log]> (contents s) ->
  PetKV.pre_known_value_size_ s' = PetKV.pre_known_value_size_ s ->
  PetHash.capacity_ (PetKV.dict_ s') = PetHash.capacity_ (PetKV.dict_ s) ->
  let kv' := {| shm_kv_ := <[Z.to_nat (GetShard kv key) := s']> (shm_kv_ kv); shard_num_ := shard_num_ kv;
                multi_pre_known_value_size_ := multi_pre_known_value_size_ kv |} in
  multi_wf kv' /\ multi_contents kv' = <[key := log]> (multi_contents kv).
Proof.
  intros Hkv Hs Hs' Hc Hp Hcap kv'. pose proof (lookup_lt_Some _ _ _ Hs) as Hlt.
  assert (Hkv' : multi_wf kv').
  { destruct Hkv as [H1 H2 H3 H4 H5 H6]. split; cbn [kv' shm_kv_ shard_num_ multi_pre_known_value_size_];
      rewrite ?length_insert; try done.
    - by apply Forall_insert.
    - apply Forall_insert; [done|]. rewrite Hp. by apply (Forall_lookup_1 _ _ _ _ H4 Hs).
    - apply Forall_insert; [done|]. rewrite Hcap. by apply (Forall_lookup_1 _ _ _ _ H5 Hs).
    - intros i x k Hi Hk. change (GetShard kv' k) with (GetShard kv k).
      apply list_lookup_insert_Some in Hi as [(<- & <- & _)|[_ Hi]]; [|by eapply H6].
      rewrite Hc in Hk. destruct (decide (k = key)) as [->|Hne].
      + assert (0 <= GetShard kv key < shard_num_ kv) by (apply Z.mod_pos_bound; lia). lia.
      + rewrite lookup_insert_ne in Hk by done. by eapply H6. }
  split; [done|]. apply map_eq. intros k.
  destruct (shard_of kv' k Hkv') as (x' & Hx' & _ & _ & _ & ->).
  change (GetShard kv' k) with (GetShard kv k) in Hx'. cbn [kv' shm_kv_] in Hx'.
  destruct (shard_of kv k Hkv) as (x & Hx & _ & _ & _ & Hux).
  destruct (decide (k = key)) as [->|Hne].
  - rewrite lookup_insert_eq. rewrite list_lookup_insert_eq in Hx' by done. injection Hx' as <-.
    by rewrite Hc, lookup_insert_eq.
  - rewrite lookup_insert_ne, Hux by done.
    apply list_lookup_insert_Some in Hx' as [(E & <- & _)|[_ Hx']]; [|congruence].
    rewrite Hc, lookup_insert_ne by done. rewrite E in Hs. congruence.
Qed.

Lemma multi_Update kv g key log :
  multi_wf kv -> 0 <= key < 2 ^ 64 ->
  (forall s, shm_kv_ kv !! Z.to_nat (GetShard kv key) = Some s ->
    (is_Some (contents s !! key) \/ PetHash.Full (PetKV.dict_ s) = false) /\
    m_accepts (PetKV.shm_malloc_ s) (Z.of_nat (length log))) ->
  (multi_pre_known_value_size_ kv <> 0 -> Z.of_nat (length log) = multi_pre_known_value_size_ kv) ->
  (exists kv' g', Update cfg GetHashWithLevel kv g key log = Ret (kv', g', true) /\ multi_wf kv' /\
    multi_contents kv' = <[key := log]> (multi_contents kv)) \/
  Update cfg GetHashWithLevel kv g key log = Err LogFatal.
Proof.
  intros Hkv Hkey Hroom Hpre. destruct (shard_of kv key Hkv) as (s & Hs & Hsw & Hsp & _ & _).
  destruct (Hroom s Hs) as [Hr Ha]. unfold Update. rewrite Hs. cbn [deref mbind outcome_bind].
  destruct (Update_insert cfg bits Hcfg s g key log Hsw Hkey Hr Ha) as [(s' & g' & HU & Hs' & Hc & _)|[_ ->]].
  { by rewrite Hsp. }
  2: by right.
  left. apply Update_frame in HU as HF. rewrite HU. destruct HF as [[_ Hcap] Hp].
  cbn [mbind outcome_bind]. eexists _, g'. split; [done|]. by apply multi_insert with s.
Qed.


(** What [BatchGet] returns for a key: the address and the number of floats. *)
Definition batch_entry kv (key : Z) (r : option Z * Z) : Prop :=
  match multi_contents kv !! key with
  | Some log =>
      if decide (log = []) then r = (None, u64 (multi_pre_known_value_size_ kv) / 4)
      else exists p s, r = (Some p, Z.of_nat (length log) / 4) /\
             shm_kv_ kv !! Z.to_nat (GetShard kv key) = Some s /\
             read_bytes (PetKV.memory_ s) p (Z.of_nat (length log)) = log
  | None => r = (None, u64 (multi_pre_known_value_size_ kv) / 4)
  end.

Lemma multi_Get kv key :
  multi_wf kv -> exists s r, shm_kv_ kv !! Z.to_nat (GetShard kv key) = Some s /\
    Get cfg GetHashWithLevel kv key = Ret r /\
    match multi_contents kv !! key with
    | None => PetKV.r_data r = None /\ PetKV.r_size r = 0
    | Some log => exists p, PetKV.r_data r = Some p /\ PetKV.r_size r = Z.of_nat (length log) /\
                    read_bytes (PetKV.memory_ s) p (PetKV.r_size r) = log
    end.
Proof.
  intros Hkv. destruct (shard_of kv key Hkv) as (s & Hs & Hsw & _ & _ & ->).
  destruct (Get_value cfg bits s key Hsw) as (r & HG & Hr). exists s, r. split; [done|]. split; [|done].
  unfold Get. by rewrite Hs.
Qed.

(** BatchGet returns one result per key, in order: the address and the
    number of floats of the bytes stored for the key, and the zero buffer with
    the configured number of floats for a key without bytes. *)
Theorem PetMultiKV_BatchGet_refines kv keys :
  multi_wf kv -> (forall k log, multi_contents kv !! k = Some log -> Z.of_nat (length log) < 2 ^ 64) ->
  exists vs, BatchGet cfg GetHashWithLevel kv keys = Ret vs /\ Forall2 (batch_entry kv) keys vs.
Proof.
  intros Hkv Hlen. induction keys as [|key keys (vs & HB & Hvs)]; [by exists []|]. cbn [BatchGet].
  destruct (multi_Get kv key Hkv) as (s & r & Hs & -> & Hr). cbn [mbind outcome_bind].
  rewrite HB. cbn [mbind outcome_bind]. eexists. split; [done|]. constructor; [|done]. unfold batch_entry.
  destruct (multi_contents kv !! key) as [log|] eqn:Hk; [|by destruct Hr as [_ ->]].
  destruct Hr as (p & -> & Hsz & Hrd). rewrite Hsz in Hrd |- *. destruct (decide (log = [])) as [->|Hne]; [done|].
  assert (length log <> O) by (by destruct log).
  rewrite (proj2 (Z.eqb_neq _ _)) by lia. exists p, s. rewrite u64_small; [done|]. split; [lia|by eapply Hlen].
Qed.

Lemma key_num_sum (l : list (PetKV.petkv M)) z :
  Forall (kv_wf cfg bits) l -> Forall (fun s => PetHash.capacity_ (PetKV.dict_ s) < 2 ^ 32) l ->
  0 <= z -> z + Z.of_nat (length l) * 2 ^ 32 < 2 ^ 63 ->
  foldl (fun n s => i64 (n + PetKV.key_num s)) z l = z + Z.of_nat (sum_list (size <$> (contents <$> l))).
Proof.
  revert z. induction l as [|s l IH]; intros z Hw Hc Hz Hb; [cbn; lia|].
  apply Forall_cons in Hw as [Hw Hws]. apply Forall_cons in Hc as [Hc Hcs]. cbn [length] in Hb.
  cbn [foldl]. rewrite !fmap_cons. cbn [sum_list_with].
  pose proof (kw_dict _ _ _ Hw) as Hd. pose proof (size_bound _ (dw_core _ _ Hd)) as Hsb.
  assert (Hk : PetKV.key_num s = Z.of_nat (size (contents s))).
  { unfold PetKV.key_num, PetHash.Size. pose proof (dw_cap _ (dw_core _ _ Hd)).
    rewrite (size_map _ (dw_core _ _ Hd)) in Hsb |- *. rewrite u32_small by lia.
    unfold contents, dmap. by rewrite map_size_fmap. }
  assert (Z.of_nat (size (contents s)) < 2 ^ 32).
  { pose proof (dw_cap _ (dw_core _ _ Hd)). rewrite (size_map _ (dw_core _ _ Hd)) in Hsb.
    unfold contents, dmap. rewrite map_size_fmap. lia. }
  rewrite Hk, i64_small by lia. rewrite IH by (done || lia). cbn. lia.
Qed.

(** key_num counts the keys of the sharded store. *)
Theorem PetMultiKV_key_num_counts kv :
  multi_wf kv -> key_num kv = Z.of_nat (size (multi_contents kv)).
Proof.
  intros Hkv. unfold multi_contents. rewrite union_size by by apply multi_apart.
  unfold key_num. rewrite key_num_sum; [done|apply (mw_shard _ Hkv)|apply (mw_cap _ Hkv)|lia|].
  rewrite (mw_len _ Hkv). pose proof (mw_num _ Hkv). lia.
Qed.
End Spec.

(** ** Two shards *)

Section Shards.
Import PetMultiKV.

Definition by_key (key _ : Z) : Z := key.

Definition two_shards : multikv (pool_of true) := Build_multikv [store [2; 4]; store [1; 3]] 2 256.

Lemma puts_dom ks (c : gmap Z (list Z)) k :
  is_Some (foldl (fun c u => <[u.1 := u.2]> c) c (puts ks) !! k) -> k ∈ ks \/ is_Some (c !! k).
Proof.
  revert c. induction ks as [|x ks IH]; intros c Hk; [by right|]. apply IH in Hk as [Hk|Hk]; [left; by right|].
  cbn [fst snd] in Hk. destruct (decide (x = k)) as [->|Hne]; [left; by left|].
  rewrite lookup_insert_ne in Hk by done. by right.
Qed.

Lemma store_shard ks :
  forallb (fun k => (0 <=? k) && (k <? 2 ^ 64)) ks = true -> (length ks <= 26)%nat ->
  runs (kv ← PetKV.open config48 new_malloc zero_file false ∅ 28 256;
        updates config48 kv (Epoch.make 64) (puts ks)) = true ->
  kv_wf config48 48 (store ks) /\ forall k, is_Some (contents config48 (store ks) !! k) -> k ∈ ks.
Proof.
  intros H1 H2 H3. destruct (store_ok ks H1 H2 H3) as (Hkv & _ & Hc). split; [done|].
  intros k. rewrite Hc. intros [Hk|[? Hk]]%puts_dom; [done|by rewrite lookup_empty in Hk].
Qed.

Lemma pair_wf (s0 s1 : PetKV.petkv (pool_of true)) :
  kv_wf config48 48 s0 -> kv_wf config48 48 s1 ->
  PetKV.pre_known_value_size_ s0 = 256 -> PetKV.pre_known_value_size_ s1 = 256 ->
  PetHash.capacity_ (PetKV.dict_ s0) = 28 -> PetHash.capacity_ (PetKV.dict_ s1) = 28 ->
  (forall k, is_Some (contents config48 s0 !! k) -> k mod 2 = 0) ->
  (forall k, is_Some (contents config48 s1 !! k) -> k mod 2 = 1) ->
  multi_wf config48 48 by_key (Build_multikv [s0; s1] 2 256).
Proof.
  intros H0 H1 P0 P1 C0 C1 D0 D1. split; cbn; rewrite ?Forall_cons, ?Forall_nil.
  - lia.
  - done.
  - done.
  - done.
  - split_and!; [rewrite C0; lia|rewrite C1; lia|done].
  - intros [|[|i]] s k Hi Hk; simplify_eq/=; [by apply D0|by apply D1].
Qed.

Lemma two_shards_wf : multi_wf config48 48 by_key two_shards.
Proof.
  destruct (store_shard [2; 4]) as [H1 D1]; [by_eval|cbn; lia|by_eval|].
  destruct (store_shard [1; 3]) as [H2 D2]; [by_eval|cbn; lia|by_eval|].
  apply pair_wf; [exact H1|exact H2|by_eval|by_eval|by_eval|by_eval| |].
  - intros k Hk%D1. rewrite !elem_of_cons, elem_of_nil in Hk. by destruct Hk as [->|[->|?]].
  - intros k Hk%D2. rewrite !elem_of_cons, elem_of_nil in Hk. by destruct Hk as [->|[->|?]].
Qed.


Lemma PetMultiKV_BatchGet_refines_witness :
  exists vs, BatchGet config48 by_key two_shards [3; 8; 2] = Ret vs /\
    Forall2 (batch_entry config48 by_key two_shards) [3; 8; 2] vs.
Proof.
  apply (PetMultiKV_BatchGet_refines config48 48 by_key two_shards [3; 8; 2]); [apply two_shards_wf|].
  intros k log Hk. destruct (shard_of config48 48 by_key two_shards k two_shards_wf) as (s & Hs & Hw & Hp & _ & E).
  rewrite E, contents_lookup in Hk. apply fmap_Some in Hk as (w & _ & ->).
  unfold value_of, size_at, read_bytes. rewrite Hp. cbn [Z.eqb two_shards multi_pre_known_value_size_].
  rewrite length_fmap, length_seqZ. lia.
Defined.

Lemma PetMultiKV_key_num_counts_witness :
  key_num two_shards = Z.of_nat (size (multi_contents config48 two_shards)).
Proof. apply (PetMultiKV_key_num_counts config48 48 by_key two_shards). apply two_shards_wf. Defined.
End Shards.
