(* ===== verification/Engines.v ===== *)
(** * The storage engines (src/kv_engine)

    The engines that keep an index of packed offsets beside values in a
    [PersistSimpleMalloc]: [KVEngineMap], [KVEngineMapPM], [KVEngineMultiMapPM],
    [KVEngineF14], [KVEngineDash] and [HashAPI]; then [KVEngineFakeKV] and the
    engine over [PetMultiKV].  A hash table of a library is a parameter, an
    instance of [IndexApi]; [std::unordered_map] is a finite map. *)

From stdpp Require Import base numbers list gmap.
From Stdlib Require Import ZArith Lia.
From S2P Require Import Prelude ShmCommon SimpleMalloc MallocApi Epoch Recycle PetKV.

(** ** Index tables *)

Class IndexApi (I : Type) := {
  idx_find : I -> Z -> option Z;
  idx_insert : I -> Z -> Z -> I
}.

(** What the engines rely on, with a table that stands for a map: lookup gives
    the entry of the map, and a key that is not in the table can be inserted
    without a change to the others. *)
Class IndexLaws (I : Type) `{!IndexApi I} := {
  idx_rep : I -> gmap Z Z -> Prop;
  idx_find_law i m k : idx_rep i m -> idx_find i k = m !! k;
  idx_insert_law i m k w : idx_rep i m -> m !! k = None -> idx_rep (idx_insert i k w) (<[k := w]> m)
}.

(** [std::unordered_map]: [insert] of a key that is there changes nothing. *)
#[export] Instance unordered_map : IndexApi (gmap Z Z) := {|
  idx_find i k := i !! k;
  idx_insert i k w := match i !! k with Some _ => i | None => <[k := w]> i end
|}.

#[export] Program Instance unordered_map_laws : IndexLaws (gmap Z Z) := {| idx_rep i m := i = m |}.
Next Obligation. by intros i m k ->. Qed.
Next Obligation. intros i m k w -> Hk. cbn. by rewrite Hk. Qed.

(** An array of tables, one per shard of the hash. *)
Record sharded (hash : Z -> Z) (n : Z) (I : Type) := Shards { tables : list I }.
Arguments Shards {hash n I} _.
Arguments tables {hash n I} _.

#[export] Instance sharded_index {I} `{!IndexApi I} (hash : Z -> Z) n : IndexApi (sharded hash n I) := {|
  idx_find s k := t ← tables s !! Z.to_nat (hash k mod n); idx_find t k;
  idx_insert s k w := Shards (alter (fun t => idx_insert t k w) (Z.to_nat (hash k mod n)) (tables s))
|}.

#[export] Program Instance sharded_laws {I} `{!IndexApi I} `{!IndexLaws I} (hash : Z -> Z) n :
    IndexLaws (sharded hash n I) := {|
  idx_rep s m := 0 < n /\ length (tables s) = Z.to_nat n /\
    forall i t, tables s !! i = Some t -> exists mi, idx_rep t mi /\
      forall k, hash k mod n = Z.of_nat i -> mi !! k = m !! k
|}.
Next Obligation.
  intros I HA HL hash n s m k (Hn & Hl & Hs). pose proof (Z.mod_pos_bound (hash k) n Hn). cbn.
  destruct (lookup_lt_is_Some_2 (tables s) (Z.to_nat (hash k mod n))) as [t Ht]; [lia|]. rewrite Ht. cbn.
  destruct (Hs _ _ Ht) as (mi & Hr & Hk). rewrite (idx_find_law t mi k Hr). apply Hk. lia.
Qed.
Next Obligation.
  intros I HA HL hash n s m k w (Hn & Hl & Hs) Hk. pose proof (Z.mod_pos_bound (hash k) n Hn). cbn.
  split_and!; [done|by rewrite length_alter|]. intros i t Ht.
  destruct (decide (i = Z.to_nat (hash k mod n))) as [->|Hne].
  - rewrite list_lookup_alter_eq in Ht. apply fmap_Some in Ht as (t0 & Ht0 & ->).
    destruct (Hs _ _ Ht0) as (mi & Hr & Hi). exists (<[k := w]> mi). split.
    + apply idx_insert_law; [done|]. rewrite Hi by lia. done.
    + intros k' Hk'. destruct (decide (k' = k)) as [->|]; [by rewrite !lookup_insert_eq|].
      rewrite !lookup_insert_ne by done. by apply Hi.
  - rewrite list_lookup_alter_ne in Ht by done. destruct (Hs _ _ Ht) as (mi & Hr & Hi).
    exists mi. split; [done|]. intros k' Hk'. rewrite lookup_insert_ne; [by apply Hi|].
    intros <-. lia.
Qed.

(** ** Values behind an index *)

Module Engine.
Section Engine.
Context {I : Type} `{!IndexApi I} (kConfig : PetKVData.Config).

Record engine := Build_engine {
  hash_table_ : I;
  value_size_ : Z;
  shm_malloc_ : SimpleMalloc.state;
  memory_ : gmap Z Z
}.

(** The constructor; [value_file] is the metadata of the value file and
    [valid_file] whether the file of the valid tag had its size. *)
Definition open (table : I) (value_file : gmap Z Z) (mem : gmap Z Z) (valid_file : bool)
    (capacity value_size : Z) : engine :=
  let m := SimpleMalloc.open value_file (i64 (capacity * value_size)) value_size in
  {| hash_table_ := table; value_size_ := value_size;
     shm_malloc_ := if valid_file then m else SimpleMalloc.Initialize m; memory_ := mem |}.

(** The address and the size that a packed word stands for. *)
Definition locate (e : engine) (read_value : Z) : Z * Z :=
  let offset := PetKVData.shm_malloc_offset kConfig read_value in
  (SimpleMalloc.GetMallocData (shm_malloc_ e) offset, SimpleMalloc.GetMallocSize (shm_malloc_ e) offset).

Definition Get (e : engine) (key : Z) : list Z :=
  match idx_find (hash_table_ e) key with
  | None => []
  | Some read_value => let '(data, size) := locate e read_value in read_bytes (memory_ e) data size
  end.

Definition Put (e : engine) (key : Z) (value : list Z) : outcome engine :=
  '(m, sync_data) ← SimpleMalloc.New (shm_malloc_ e) (i32 (Z.of_nat (length value)));
  offset ← SimpleMalloc.GetMallocOffset m sync_data;
  let data_value := PetKVData.SetShmMallocOffset kConfig 0 offset in
  Ret {| hash_table_ := idx_insert (hash_table_ e) key data_value; value_size_ := value_size_ e;
         shm_malloc_ := m; memory_ := write_bytes (memory_ e) sync_data value |}.

(** The loop body of [BatchGet]: address and number of floats; [None] for a key
    that is not found (no floats). *)
Definition batch_entry (e : engine) (k : Z) : option Z * Z :=
  match idx_find (hash_table_ e) k with
  | None => (None, 0)
  | Some read_value => let '(data, size) := locate e read_value in (Some data, i32 (u64 size / 4))
  end.

Definition BatchGet (e : engine) (keys : list Z) : list (option Z * Z) := batch_entry e <$> keys.
End Engine.
Arguments engine : clear implicits.
End Engine.

(** *** The engines of the repository

    They differ in the table, in the file of the index, and in what they
    return for a key that is missing from a batch: [KVEngineDash] and [HashAPI]
    a null array, the others an array over a temporary empty string. *)

Module KVEngineMap.
Definition kv : Type := Engine.engine (gmap Z Z).
Definition open (value_file mem : gmap Z Z) (valid_file : bool) (capacity value_size : Z) : kv :=
  Engine.open ∅ value_file mem valid_file capacity value_size.
Definition Get (cfg : PetKVData.Config) (e : kv) (key : Z) : list Z := Engine.Get cfg e key.
Definition Put (cfg : PetKVData.Config) (e : kv) (key : Z) (value : list Z) : outcome kv :=
  Engine.Put cfg e key value.
Definition BatchGet (cfg : PetKVData.Config) (e : kv) (keys : list Z) : list (option Z * Z) :=
  Engine.BatchGet cfg e keys.
End KVEngineMap.

Module KVEngineMapPM.
Definition kv : Type := Engine.engine (gmap Z Z).
Definition open (value_file mem : gmap Z Z) (valid_file : bool) (capacity value_size : Z) : kv :=
  Engine.open ∅ value_file mem valid_file capacity value_size.
Definition Get (cfg : PetKVData.Config) (e : kv) (key : Z) : list Z := Engine.Get cfg e key.
Definition Put (cfg : PetKVData.Config) (e : kv) (key : Z) (value : list Z) : outcome kv :=
  Engine.Put cfg e key value.
Definition BatchGet (cfg : PetKVData.Config) (e : kv) (keys : list Z) : list (option Z * Z) :=
  Engine.BatchGet cfg e keys.
End KVEngineMapPM.

(** [GetHash] (CityHash) is a parameter. *)
Module KVEngineMultiMapPM.
Section KVEngineMultiMapPM.
Context (GetHash : Z -> Z) (cfg : PetKVData.Config).
Definition kShardNum : Z := 32.
Definition kv : Type := Engine.engine (sharded GetHash kShardNum (gmap Z Z)).
Definition open (value_file mem : gmap Z Z) (valid_file : bool) (capacity value_size : Z) : kv :=
  Engine.open (Shards (replicate (Z.to_nat kShardNum) ∅)) value_file mem valid_file capacity value_size.
Definition Get (e : kv) (key : Z) : list Z := Engine.Get cfg e key.
Definition Put (e : kv) (key : Z) (value : list Z) : outcome kv := Engine.Put cfg e key value.
Definition BatchGet (e : kv) (keys : list Z) : list (option Z * Z) := Engine.BatchGet cfg e keys.
End KVEngineMultiMapPM.
End KVEngineMultiMapPM.

(** The tables of folly, Dash and HashEvaluation are parameters. *)
Module KVEngineF14.
Section KVEngineF14.
Context {I : Type} `{!IndexApi I} (cfg : PetKVData.Config).
Definition kv : Type := Engine.engine I.
Definition open (table : I) (value_file mem : gmap Z Z) (valid_file : bool) (capacity value_size : Z) : kv :=
  Engine.open table value_file mem valid_file capacity value_size.
Definition Get (e : kv) (key : Z) : list Z := Engine.Get cfg e key.
Definition Put (e : kv) (key : Z) (value : list Z) : outcome kv := Engine.Put cfg e key value.

(** With [FLAGS_prefetch_method] 0 a plain loop, otherwise a loop by index that
    prefetches the next key. *)
Fixpoint prefetch_loop (e : kv) (keys : list Z) (n : nat) (i : nat) : outcome (list (option Z * Z)) :=
  match n with
  | O => Ret []
  | S n' =>
      key ← deref (keys !! i);
      rest ← prefetch_loop e keys n' (S i);
      Ret (Engine.batch_entry cfg e key :: rest)
  end.
Definition BatchGet (prefetch_method : Z) (e : kv) (keys : list Z) : outcome (list (option Z * Z)) :=
  if prefetch_method =? 0 then Ret (Engine.BatchGet cfg e keys)
  else prefetch_loop e keys (length keys) 0.
End KVEngineF14.
End KVEngineF14.

Module KVEngineDash.
Section KVEngineDash.
Context {I : Type} `{!IndexApi I} (cfg : PetKVData.Config).
Definition kv : Type := Engine.engine I.
Definition open (table : I) (value_file mem : gmap Z Z) (valid_file : bool) (capacity value_size : Z) : kv :=
  Engine.open table value_file mem valid_file capacity value_size.
Definition Get (e : kv) (key : Z) : list Z := Engine.Get cfg e key.
Definition Put (e : kv) (key : Z) (value : list Z) : outcome kv := Engine.Put cfg e key value.
Definition BatchGet (e : kv) (keys : list Z) : list (option Z * Z) := Engine.BatchGet cfg e keys.
End KVEngineDash.
End KVEngineDash.

Module HashAPI.
Section HashAPI.
Context {I : Type} `{!IndexApi I} (cfg : PetKVData.Config).

(** The index of a name, made by one of the creation functions of the
    libraries; [None] for a name the constructor refuses. *)
Context (create_pclht create_level create_clevel create_ccehvm : I).

Inductive hash_name := clht | level | clevel | cceh | ccehvm | other_name.

Definition kv : Type := Engine.engine I.
Definition open (name : hash_name) (value_file mem : gmap Z Z) (valid_file : bool)
    (capacity value_size : Z) : outcome kv :=
  table ← match name with
          | clht => Ret create_pclht
          | level => Ret create_level
          | clevel => Ret create_clevel
          | ccehvm => Ret create_ccehvm
          | cceh | other_name => Err LogFatal
          end;
  Ret (Engine.open table value_file mem valid_file capacity value_size).
Definition Get (e : kv) (key : Z) : list Z := Engine.Get cfg e key.
Definition Put (e : kv) (key : Z) (value : list Z) : outcome kv := Engine.Put cfg e key value.
Definition BatchGet (e : kv) (keys : list Z) : list (option Z * Z) := Engine.BatchGet cfg e keys.
End HashAPI.
End HashAPI.

(** ** KVEngineFakeKV: addresses without an index *)

Module KVEngineFakeKV.
Record kv := Build_kv {
  value_size_ : Z;
  shm_malloc_ : SimpleMalloc.state;
  memory_ : gmap Z Z
}.
Definition open (value_file mem : gmap Z Z) (valid_file : bool) (capacity value_size : Z) : kv :=
  let m := SimpleMalloc.open value_file (i64 (capacity * value_size)) value_size in
  {| value_size_ := value_size; shm_malloc_ := if valid_file then m else SimpleMalloc.Initialize m;
     memory_ := mem |}.
Definition Get (e : kv) (key : Z) : list Z :=
  read_bytes (memory_ e) (SimpleMalloc.GetMallocData (shm_malloc_ e) (i64 key)) (value_size_ e).
Definition Put (e : kv) (key : Z) (value : list Z) : kv :=
  {| value_size_ := value_size_ e; shm_malloc_ := shm_malloc_ e;
     memory_ := write_bytes (memory_ e) (SimpleMalloc.GetMallocData (shm_malloc_ e) (i64 key)) value |}.
Definition BatchGet (e : kv) (keys : list Z) : list (option Z * Z) :=
  (fun k => (Some (SimpleMalloc.GetMallocData (shm_malloc_ e) 0 + u64 (k * value_size_ e)),
             i32 (u64 (value_size_ e) / 4))) <$> keys.
End KVEngineFakeKV.

(** ** KVEnginePetKV *)

Module KVEnginePetKV.
Section KVEnginePetKV.
Context {M : Type} `{!MallocApi M} (cfg : PetKVData.Config) (GetHashWithLevel : Z -> Z -> Z).

Definition kv : Type := PetMultiKV.multikv M.

Definition shard_num : Z := 16.

(** [value] keeps its content when the key is missing. *)
Definition Get (e : kv) (key : Z) (value : list Z) : outcome (list Z) :=
  kv_data ← PetMultiKV.Get cfg GetHashWithLevel e key;
  match PetKV.r_data kv_data with
  | None => Ret value
  | Some data =>
      shard ← deref (PetMultiKV.shm_kv_ e !! Z.to_nat (PetMultiKV.GetShard GetHashWithLevel e key));
      Ret (read_bytes (PetKV.memory_ shard) data (PetKV.r_size kv_data))
  end.

Definition Put (e : kv) (g : Epoch.manager) (key : Z) (value : list Z) : outcome (kv * Epoch.manager) :=
  '(e, g, b) ← PetMultiKV.Update cfg GetHashWithLevel e g key value;
  _ ← CHECK b;
  Ret (e, g).

Fixpoint plain_loop (e : kv) (keys : list Z) : outcome (list (option Z * Z)) :=
  match keys with
  | [] => Ret []
  | k :: keys' =>
      kv_data ← PetMultiKV.Get cfg GetHashWithLevel e k;
      rest ← plain_loop e keys';
      Ret ((PetKV.r_data kv_data, i32 (u64 (PetKV.r_size kv_data) / 4)) :: rest)
  end.

Definition BatchGet (prefetch_method : Z) (e : kv) (keys : list Z) : outcome (list (option Z * Z)) :=
  if prefetch_method =? 0 then plain_loop e keys
  else if prefetch_method =? 1 then PetMultiKV.BatchGet cfg GetHashWithLevel e keys
  else Ret [].
End KVEnginePetKV.

(** The constructor, on the [kConfig] of the process; it passes the value size
    0 (unknown). *)
Definition open (kConfig : PetKVData.Config) (files : Z -> PetMultiKV.shard_files) (capacity value_size : Z) :
    outcome (PetKVData.Config * kv (M := pool_of false)) :=
  PetMultiKV.open kConfig shard_num (Z.quot (i64 (value_size * capacity)) shard_num)
    (i32 (Z.quot capacity shard_num)) 0 files.
End KVEnginePetKV.
