(* ===== verification/EnginesSpec.v ===== *)
(** * The storage engines as maps from keys to bytes

    [holds e C]: the engine [e] stores the map [C].  Reading refines lookup and
    inserting a new key refines insertion, for every index that keeps the laws
    of [IndexApi]; what happens to a key that is already there, and the
    addresses of the fake engine, are shown on concrete runs. *)

From stdpp Require Import base numbers list gmap.
From Stdlib Require Import ZArith Lia.
From S2P Require Import Prelude F14Chunk PetHashDict PetHashInv PetHashSpec ShmCommon SimpleMalloc MallocApi.
From S2P Require Import Epoch Recycle PetKV PetKVSpec PetKVProps PetMultiKVSpec Engines.

Section Spec.
Import Engine.
Context {I : Type} `{!IndexApi I} `{!IndexLaws I}.
Context (cfg : PetKVData.Config) (bits : Z) (Hcfg : config_bits cfg bits).
Implicit Types (e : engine I) (D : gmap Z Z).

Notation off := (PetKVData.shm_malloc_offset cfg).
Notation slab e := (SimpleMalloc.slab_size_ (shm_malloc_ e)).
Notation next e := (SimpleMalloc.allocated_ (shm_malloc_ e)).
Notation limit e := (SimpleMalloc.memory_size_ (shm_malloc_ e)).

(** The engine on an index that stands for [D]: the values are whole blocks
    below the next free one, in the first pass over the memory. *)
Record engine_rep e D : Prop := {
  er_index : idx_rep (hash_table_ e) D;
  er_simple : simple_wf (shm_malloc_ e);
  er_align : slab e mod 8 = 0;
  er_bound : limit e < 8 * (2 ^ bits - 1);
  er_block : forall k w, D !! k = Some w -> 0 <= off w /\ off w mod slab e = 0 /\ off w + slab e <= next e;
  er_size : forall k w, D !! k = Some w -> SimpleMalloc.GetMallocSize (shm_malloc_ e) (off w) = slab e
}.

Definition engine_contents e D : gmap Z (list Z) := (fun w => read_bytes (memory_ e) (off w) (slab e)) <$> D.

Definition holds e (C : gmap Z (list Z)) : Prop := exists D, engine_rep e D /\ C = engine_contents e D.

(** The next block is still in the first pass. *)
Definition room e : Prop := next e + slab e < limit e.

Lemma locate_block e D k w :
  engine_rep e D -> D !! k = Some w -> locate cfg e w = (off w, slab e) /\ 0 < slab e < 2 ^ 31.
Proof.
  intros He Hk. pose proof (sm_slab _ (er_simple _ _ He)). unfold locate, SimpleMalloc.GetMallocData.
  by rewrite (er_size _ _ He k w Hk).
Qed.

(** [BatchGet] gives for each key where its bytes are. *)
Lemma BatchGet_holds e C keys :
  holds e C ->
  Forall2 (fun k r => match C !! k with
    | None => r = (None, 0)
    | Some v => exists p, r = (Some p, Z.of_nat (length v) / 4) /\
                  read_bytes (memory_ e) p (Z.of_nat (length v)) = v
    end) keys (BatchGet cfg e keys).
Proof.
  intros (D & He & ->).
  assert (Hlen : forall w, 0 < slab e -> Z.of_nat (length (read_bytes (memory_ e) (off w) (slab e))) = slab e).
  { intros w Hw. unfold read_bytes. rewrite length_fmap, length_seqZ. lia. }
  unfold BatchGet. apply Forall2_fmap_r, Forall_Forall2_diag, Forall_forall. intros k _. cbn beta delta [compose].
  unfold batch_entry, engine_contents. rewrite lookup_fmap, (idx_find_law _ _ k (er_index _ _ He)).
  destruct (D !! k) as [w|] eqn:Hk; [|done]. cbn [fmap option_fmap option_map].
  destruct (locate_block e D k w He Hk) as [-> Hs]. rewrite Hlen by lia. exists (off w). split; [|done].
  assert (0 <= slab e / 4 < 2 ^ 31) by (split; [apply Z.div_pos; lia|apply Z.div_lt_upper_bound; lia]).
  by rewrite u64_small, i32_small by lia.
Qed.

(** [Get] gives the bytes of a key. *)
Lemma Get_holds e C key : holds e C -> Get cfg e key = default [] (C !! key).
Proof.
  intros (D & He & ->).
  unfold Get, engine_contents. rewrite lookup_fmap, (idx_find_law _ _ key (er_index _ _ He)).
  destruct (D !! key) as [w|] eqn:Hk; [|done]. cbn [fmap option_fmap option_map].
  by rewrite (proj1 (locate_block e D key w He Hk)).
Qed.

(** The values are whole floats. *)
Lemma holds_floats e C k v : holds e C -> C !! k = Some v -> 4 * (Z.of_nat (length v) / 4) = Z.of_nat (length v).
Proof.
  intros (D & He & ->) Hv. unfold engine_contents in Hv. rewrite lookup_fmap in Hv.
  destruct (D !! k) as [w|]; [|done]. cbn in Hv. simplify_eq. unfold read_bytes.
  rewrite length_fmap, length_seqZ. pose proof (sm_slab _ (er_simple _ _ He)). pose proof (er_align _ _ He).
  rewrite Z2Nat.id by lia. pose proof (Z.div_mod (slab e) 8). pose proof (Z.div_mod (slab e) 4).
  assert (slab e mod 4 = 0); [|lia]. apply Z.mod_divide; [lia|]. exists (2 * (slab e / 8)). lia.
Qed.

(** Reading from an engine refines lookup: Get returns the bytes of the key,
    nothing for a missing key, and BatchGet gives for each key the address and
    the number of floats of those bytes. *)
Theorem Engine_Get_refines e C key keys :
  holds e C ->
  Get cfg e key = default [] (C !! key) /\
  Forall2 (fun k r => match C !! k with
    | None => r = (None, 0)
    | Some v => exists p, r = (Some p, Z.of_nat (length v) / 4) /\
                  read_bytes (memory_ e) p (Z.of_nat (length v)) = v
    end) keys (BatchGet cfg e keys).
Proof.
  intros HC. split; [by apply Get_holds|by apply BatchGet_holds].
Qed.

Lemma Put_block e D (value : list Z) :
  engine_rep e D -> Z.of_nat (length value) = slab e -> room e ->
  exists m, SimpleMalloc.New (shm_malloc_ e) (i32 (Z.of_nat (length value))) = Ret (m, next e) /\
    SimpleMalloc.GetMallocOffset m (next e) = Ret (next e) /\ simple_wf m /\
    SimpleMalloc.slab_size_ m = slab e /\ SimpleMalloc.memory_size_ m = limit e /\
    SimpleMalloc.allocated_ m = next e + slab e /\
    SimpleMalloc.meta_data_block_ m = <[next e / slab e := slab e]> (SimpleMalloc.meta_data_block_ (shm_malloc_ e)).
Proof.
  intros He Hl Hroom. pose proof (er_simple _ _ He) as Hs. pose proof Hs as [Hs1 Hs2 Hs3 Hs4]. unfold room in Hroom.
  rewrite Hl, i32_small by lia. pose proof (New_eq _ Hs) as HN. cbn zeta in HN.
  rewrite (proj2 (Z.leb_gt _ _)) in HN by lia. eexists. split; [exact HN|]. split_and!; try done.
  - unfold SimpleMalloc.GetMallocOffset. cbn.
    by rewrite (proj2 (Z.leb_le _ _)), (proj2 (Z.ltb_lt _ _)) by lia.
  - split; cbn; try lia. rewrite Z.add_mod, Hs3, Z.mod_same by lia. done.
Qed.

(** The new word stands for the next block. *)
Lemma Put_word e D :
  engine_rep e D -> room e -> off (PetKVData.SetShmMallocOffset cfg 0 (next e)) = next e.
Proof.
  intros He Hroom. destruct (er_simple _ _ He) as [Hs1 Hs2 Hs3 Hs4]. unfold room in Hroom.
  pose proof (er_bound _ _ He). apply (offset_roundtrip cfg bits); try done; try lia.
  apply Z.mod_divide; [lia|]. apply Z.mod_divide in Hs3; [|lia].
  pose proof (er_align _ _ He) as Ha. apply Z.mod_divide in Ha; [|lia]. by etrans.
Qed.

Lemma Put_holds e C key (value : list Z) :
  holds e C -> C !! key = None -> Z.of_nat (length value) = slab e -> room e ->
  exists e', Put cfg e key value = Ret e' /\ holds e' (<[key := value]> C) /\
    next e' = next e + slab e /\ limit e' = limit e /\ slab e' = slab e.
Proof.
  intros (D & He & ->) Hno Hl Hroom. pose proof (Put_word e D He Hroom) as Hw.
  destruct (Put_block e D value He Hl Hroom) as (m & HN & HO & Hsm & Hsl & Hlim & Hnx & Hmeta).
  set (w := PetKVData.SetShmMallocOffset cfg 0 (next e)) in *.
  assert (HD : D !! key = None) by (unfold engine_contents in Hno; rewrite lookup_fmap in Hno; by apply fmap_None in Hno).
  pose proof (er_simple _ _ He) as [Hs1 Hs2 Hs3 Hs4].
  eexists. split; [unfold Put; rewrite HN; cbn [mbind outcome_bind]; rewrite HO; done|]. cbn [shm_malloc_].
  split_and!; try done. fold w. exists (<[key := w]> D). split.
  - split; cbn [hash_table_ shm_malloc_]; rewrite ?Hsl, ?Hlim, ?Hnx; try done.
    + apply idx_insert_law; [apply (er_index _ _ He)|done].
    + apply (er_align _ _ He).
    + apply (er_bound _ _ He).
    + intros k x Hk. apply lookup_insert_Some in Hk as [[_ <-]|[_ Hk]]; [rewrite Hw; lia|].
      destruct (er_block _ _ He k x Hk) as (? & ? & ?). lia.
    + intros k x Hk. unfold SimpleMalloc.GetMallocSize. rewrite Hmeta, Hsl.
      apply lookup_insert_Some in Hk as [[_ <-]|[_ Hk]].
      * rewrite Hw, Z.quot_div_nonneg, lookup_insert_eq by lia. apply i32_small. lia.
      * destruct (er_block _ _ He k x Hk) as (B1 & B2 & B3).
        pose proof (er_size _ _ He k x Hk) as Hsz. unfold SimpleMalloc.GetMallocSize in Hsz.
        rewrite Z.quot_div_nonneg in Hsz |- * by lia. rewrite lookup_insert_ne; [done|].
        pose proof (Z.div_mod (next e) (slab e) ltac:(lia)). pose proof (Z.div_mod (off x) (slab e) ltac:(lia)). nia.
  - unfold engine_contents. cbn [memory_ shm_malloc_]. rewrite Hsl, fmap_insert, Hw.
    rewrite <- Hl at 1. rewrite read_write_same. f_equal. apply map_fmap_ext. intros k x Hk.
    destruct (er_block _ _ He k x Hk) as (B1 & B2 & B3). symmetry. apply read_write_sep.
    unfold sep. cbn. lia.
Qed.

(** [C15] Inserting a new key into an engine refines insertion, as long as the
    memory of the values has not been used up once: the key gets the bytes, no
    other key changes. *)
Theorem Engine_Put_refines e C key (value : list Z) :
  holds e C -> C !! key = None -> Z.of_nat (length value) = slab e -> room e ->
  exists e', Put cfg e key value = Ret e' /\ holds e' (<[key := value]> C) /\
    next e' = next e + slab e /\ limit e' = limit e /\ slab e' = slab e.
Proof. apply Put_holds. Qed.

(** The prefetching loop of [KVEngineF14] visits the keys in order. *)
Lemma prefetch_same e (keys : list Z) n i :
  (i + n = length keys)%nat -> KVEngineF14.prefetch_loop cfg e keys n i = Ret (batch_entry cfg e <$> drop i keys).
Proof.
  revert i. induction n as [|n IH]; intros i Hi; cbn [KVEngineF14.prefetch_loop].
  - by rewrite drop_ge by lia.
  - destruct (lookup_lt_is_Some_2 keys i) as [k Hk]; [lia|]. rewrite Hk. cbn [deref mbind outcome_bind].
    rewrite IH by lia. cbn [mbind outcome_bind]. by rewrite (drop_S keys k i Hk).
Qed.

(** The two loops of KVEngineF14::BatchGet, with and without prefetching,
    give the same result. *)
Theorem F14_prefetch_equivalent prefetch_method e keys :
  KVEngineF14.BatchGet cfg prefetch_method e keys = Ret (BatchGet cfg e keys).
Proof.
  unfold KVEngineF14.BatchGet. destruct (_ =? 0); [done|].
  rewrite prefetch_same by lia. by rewrite drop_0.
Qed.
End Spec.

(** ** A key that is already there *)

Section Existing.
Import Engine.
Context (cfg : PetKVData.Config) (bits : Z) (Hcfg : config_bits cfg bits).
Implicit Types (e : engine (gmap Z Z)).

Notation slab e := (SimpleMalloc.slab_size_ (shm_malloc_ e)).
Notation next e := (SimpleMalloc.allocated_ (shm_malloc_ e)).

(** The engines on std::unordered_map do not update: Put of a key that is
    there takes a block and stores the new bytes in it, and the key keeps its
    old bytes. *)
Theorem Map_Put_existing_keeps e C key (value old : list Z) :
  holds cfg bits e C -> C !! key = Some old -> Z.of_nat (length value) = slab e -> room e ->
  exists e', KVEngineMap.Put cfg e key value = Ret e' /\ holds cfg bits e' C /\
    KVEngineMap.Get cfg e' key = old /\ next e' = next e + slab e.
Proof.
  intros (D & He & ->) Hin Hl Hroom. pose proof (er_index _ _ _ _ He) as HD. cbn in HD.
  destruct (Put_block cfg bits e D value He Hl Hroom) as (m & HN & HO & Hsm & Hsl & Hlim & Hnx & Hmeta).
  pose proof Hin as Hin'. unfold engine_contents in Hin'. rewrite lookup_fmap in Hin'.
  apply fmap_Some in Hin' as (w & Hk & Hold).
  pose proof (er_simple _ _ _ _ He) as [Hs1 Hs2 Hs3 Hs4].
  eexists. split.
  { unfold KVEngineMap.Put, Put. rewrite HN. cbn [mbind outcome_bind]. rewrite HO. cbn [mbind outcome_bind].
    cbn [idx_insert unordered_map]. rewrite HD, Hk. done. }
  assert (Hrep : engine_rep cfg bits {| hash_table_ := D; value_size_ := value_size_ e; shm_malloc_ := m;
    memory_ := write_bytes (memory_ e) (next e) value |} D).
  { split; cbn [hash_table_ shm_malloc_]; rewrite ?Hsl, ?Hlim, ?Hnx; try done.
    - apply (er_align _ _ _ _ He).
    - apply (er_bound _ _ _ _ He).
    - intros k x Hx. destruct (er_block _ _ _ _ He k x Hx) as (? & ? & ?). lia.
    - intros k x Hx. destruct (er_block _ _ _ _ He k x Hx) as (B1 & B2 & B3).
      pose proof (er_size _ _ _ _ He k x Hx) as Hsz. unfold SimpleMalloc.GetMallocSize in *. rewrite Hmeta, Hsl.
      rewrite Z.quot_div_nonneg in Hsz |- * by lia. rewrite lookup_insert_ne; [done|].
      pose proof (Z.div_mod (next e) (slab e) ltac:(lia)).
      pose proof (Z.div_mod (PetKVData.shm_malloc_offset cfg x) (slab e) ltac:(lia)). nia. }
  assert (Hsame : forall x k, D !! k = Some x ->
    read_bytes (write_bytes (memory_ e) (next e) value) (PetKVData.shm_malloc_offset cfg x) (slab e) =
    read_bytes (memory_ e) (PetKVData.shm_malloc_offset cfg x) (slab e)).
  { intros x k Hx. destruct (er_block _ _ _ _ He k x Hx) as (? & ? & ?). apply read_write_sep. unfold sep. cbn. lia. }
  split_and!; try done.
  - exists D. split; [done|]. unfold engine_contents. cbn [memory_ shm_malloc_]. rewrite Hsl.
    apply map_fmap_ext. intros k x Hx. symmetry. by eapply Hsame.
  - unfold KVEngineMap.Get, Get. cbn [idx_find unordered_map hash_table_]. rewrite Hk.
    rewrite (proj1 (locate_block cfg bits _ D key w Hrep Hk)). cbn [memory_ shm_malloc_]. rewrite Hsl, Hold.
    by eapply Hsame.
Qed.
End Existing.

(** ** The engine over PetMultiKV *)

Section PetKVEngine.
Import KVEnginePetKV.
Context {M : Type} `{!MallocApi M} `{!MallocLaws M}.
Context (cfg : PetKVData.Config) (bits : Z) (Hcfg : config_bits cfg bits) (hash : Z -> Z -> Z).
Implicit Types (e : kv (M := M)).

Notation contents := (multi_contents cfg).
Notation shard e key := (PetMultiKV.shm_kv_ e !! Z.to_nat (PetMultiKV.GetShard hash e key)).

Lemma engine_Get e key d :
  multi_wf cfg bits hash e -> Get cfg hash e key d = Ret (default d (contents e !! key)).
Proof.
  intros He. destruct (multi_Get cfg bits hash e key He) as (s & r & Hs & HG & Hr).
  unfold Get. rewrite HG. cbn [mbind outcome_bind]. destruct (contents e !! key) as [log|].
  - destruct Hr as (p & -> & _ & Hrd). rewrite Hs. cbn [deref mbind outcome_bind]. by rewrite Hrd.
  - by destruct Hr as [-> _].
Qed.

(** The engine over PetMultiKV: a Put below the maximal load is read back by
    Get, every other key reads as before, and Get leaves the output string of
    the caller as it was for a missing key. *)
Theorem PetKVEngine_Put_Get e g key value :
  multi_wf cfg bits hash e -> 0 <= key < 2 ^ 64 ->
  (forall s, shard e key = Some s ->
    (is_Some (PetKVSpec.contents cfg s !! key) \/ PetHash.Full (PetKV.dict_ s) = false) /\
    m_accepts (PetKV.shm_malloc_ s) (Z.of_nat (length value))) ->
  (PetMultiKV.multi_pre_known_value_size_ e <> 0 ->
    Z.of_nat (length value) = PetMultiKV.multi_pre_known_value_size_ e) ->
  (exists e' g', Put cfg hash e g key value = Ret (e', g') /\ multi_wf cfg bits hash e' /\
    forall k d, Get cfg hash e' k d =
      if decide (k = key) then Ret value else Get cfg hash e k d) \/
  Put cfg hash e g key value = Err LogFatal.
Proof.
  intros He Hk Hroom Hpre.
  destruct (multi_Update cfg bits Hcfg hash e g key value He Hk Hroom Hpre)
    as [(e' & g' & HU & He' & Hc)|HU]; [left|right]; unfold Put; rewrite HU; cbn [mbind outcome_bind]; [|done].
  exists e', g'. split_and!; [done|done|]. intros k d. rewrite !engine_Get, Hc by done.
  destruct (decide (k = key)) as [->|Hne]; [by rewrite lookup_insert_eq|by rewrite lookup_insert_ne].
Qed.

(** The two batch reads of the engine agree: with values of unknown size and
    no empty value, reading key by key and PetMultiKV::BatchGet return the
    same addresses and lengths. *)
Theorem PetKVEngine_BatchGet_agree e keys :
  multi_wf cfg bits hash e -> PetMultiKV.multi_pre_known_value_size_ e = 0 ->
  (forall k log, contents e !! k = Some log -> 0 < Z.of_nat (length log) < 2 ^ 31) ->
  exists vs, BatchGet cfg hash 0 e keys = Ret vs /\ BatchGet cfg hash 1 e keys = Ret vs /\
    length vs = length keys.
Proof.
  intros He Hpre Hlen. unfold BatchGet. rewrite !Z.eqb_refl. change (1 =? 0) with false. cbn match.
  induction keys as [|k keys (vs & IH1 & IH2 & IH3)]; [by exists []|].
  destruct (multi_Get cfg bits hash e k He) as (s & r & Hs & HG & Hr).
  cbn [plain_loop PetMultiKV.BatchGet]. rewrite HG. cbn [mbind outcome_bind]. rewrite IH1, IH2. cbn [mbind outcome_bind].
  eexists. split; [done|]. split; [|cbn; by rewrite IH3]. do 2 f_equal.
  destruct (contents e !! k) as [log|] eqn:Hk.
  - destruct Hr as (p & -> & -> & _). specialize (Hlen k log Hk). rewrite (proj2 (Z.eqb_neq _ _)) by lia.
    rewrite u64_small by lia. rewrite i32_small; [done|].
    split; [pose proof (Z.div_pos (Z.of_nat (length log)) 4); lia|apply Z.div_lt_upper_bound; lia].
  - destruct Hr as [-> ->]. cbn [Z.eqb]. by rewrite Hpre.
Qed.
End PetKVEngine.

(** ** Concrete engines *)

Section Examples.

(** Ten values of 64 bytes. *)
Definition map_engine : KVEngineMap.kv := KVEngineMap.open ∅ ∅ true 10 64.

Definition map_put (e : KVEngineMap.kv) (k b : Z) : KVEngineMap.kv :=
  match KVEngineMap.Put config48 e k (replicate 64 b) with Ret e => e | Err _ => e end.

Lemma map_engine_holds : holds config48 48 map_engine ∅.
Proof.
  exists ∅. split; [|done]. split; try (intros k w Hk; by rewrite lookup_empty in Hk); try (by vm_compute).
Qed.

Definition one_put : KVEngineMap.kv := map_put map_engine 7 1.

Lemma one_put_holds : holds config48 48 one_put {[7 := replicate 64 1]}.
Proof.
  destruct (Put_holds config48 48 config48_bits map_engine ∅ 7 (replicate 64 1)) as (e & HP & He & _);
    [apply map_engine_holds|done|done|by vm_compute|].
  unfold one_put, map_put, KVEngineMap.Put. rewrite HP. exact He.
Qed.

Lemma Engine_Get_refines_witness :
  Engine.Get config48 one_put 7 = default [] (({[7 := replicate 64 1]} : gmap Z (list Z)) !! 7) /\
  Forall2 (fun k r => match ({[7 := replicate 64 1]} : gmap Z (list Z)) !! k with
    | None => r = (None, 0)
    | Some v => exists p, r = (Some p, Z.of_nat (length v) / 4) /\
                  read_bytes (Engine.memory_ one_put) p (Z.of_nat (length v)) = v
    end) [7; 8] (Engine.BatchGet config48 one_put [7; 8]).
Proof. apply (Engine_Get_refines config48 48 one_put _ 7 [7; 8]). apply one_put_holds. Defined.

Lemma Engine_Put_refines_witness :
  exists e', Engine.Put config48 one_put 9 (replicate 64 2) = Ret e' /\
    holds config48 48 e' (<[9 := replicate 64 2]> {[7 := replicate 64 1]}) /\
    SimpleMalloc.allocated_ (Engine.shm_malloc_ e') = 128 + 64 /\
    SimpleMalloc.memory_size_ (Engine.shm_malloc_ e') = 640 /\
    SimpleMalloc.slab_size_ (Engine.shm_malloc_ e') = 64.
Proof.
  apply (Engine_Put_refines config48 48 config48_bits one_put _ 9 (replicate 64 2));
    [apply one_put_holds|by_eval|by_eval|by vm_compute].
Defined.

Lemma Map_Put_existing_keeps_witness :
  exists e', KVEngineMap.Put config48 one_put 7 (replicate 64 2) = Ret e' /\
    holds config48 48 e' {[7 := replicate 64 1]} /\
    KVEngineMap.Get config48 e' 7 = replicate 64 1 /\
    SimpleMalloc.allocated_ (Engine.shm_malloc_ e') = 128 + 64.
Proof.
  apply (Map_Put_existing_keeps config48 48 one_put _ 7 (replicate 64 2) (replicate 64 1));
    [apply one_put_holds|by_eval|by_eval|by vm_compute].
Defined.

(** KVEngineFakeKV puts and gets a key at the byte offset that is the key,
    and its BatchGet reads at the key times the value size: what a Put has
    stored, and Get returns, is not what BatchGet reads. *)
Theorem Fake_BatchGet_other_address :
  let value := replicate 64 5 in
  let e := KVEngineFakeKV.Put (KVEngineFakeKV.open ∅ ∅ true 10 64) 3 value in
  KVEngineFakeKV.Get e 3 = value /\
  KVEngineFakeKV.BatchGet e [3] = [(Some 192, 16)] /\
  read_bytes (KVEngineFakeKV.memory_ e) 192 64 = replicate 64 0.
Proof. vm_compute. auto. Qed.

Lemma PetKVEngine_Put_Get_witness :
  (exists e' g', KVEnginePetKV.Put config48 by_key two_shards (Epoch.make 64) 6 (value_bytes 9) = Ret (e', g') /\
    multi_wf config48 48 by_key e' /\
    forall k d, KVEnginePetKV.Get config48 by_key e' k d =
      if decide (k = 6) then Ret (value_bytes 9) else KVEnginePetKV.Get config48 by_key two_shards k d) \/
  KVEnginePetKV.Put config48 by_key two_shards (Epoch.make 64) 6 (value_bytes 9) = Err LogFatal.
Proof.
  apply (PetKVEngine_Put_Get config48 48 config48_bits by_key two_shards (Epoch.make 64) 6 (value_bytes 9)).
  - apply two_shards_wf.
  - lia.
  - intros s Hs. change (Some (store [2; 4]) = Some s) in Hs. apply (inj Some) in Hs. rewrite <- Hs.
    split; [right; by_eval|]. apply accepts_256. by_eval.
  - intros _. by_eval.
Defined.
End Examples.
