(* ===== verification/ShmFile.v ===== *)
(** * Shared-memory files (src/memory/shm_file.h, src/memory/shm_file.cc)

    [PMMmapRegisterCenter], which cuts the device into named regions and keeps
    their table in its first 32 MB, and [ShmFile] in its two modes.  A C string
    is the list of its bytes before the terminator; addresses are the numbers
    the source computes with; the bytes of the regions are not part of the
    state, a region that is cleared is reported. *)

From stdpp Require Import base numbers list gmap.
From Stdlib Require Import ZArith Lia.
From S2P Require Import Prelude.

(** [strncmp(a, b, n) == 0] and the content that [strncpy(dst, s, n)] leaves in
    a zeroed array of more than [n] bytes. *)
Definition strncmp_eq (a b : list Z) (n : nat) : bool := bool_decide (take n a = take n b).
Definition strncpy (s : list Z) (n : nat) : list Z := take n s.

Module RegisterCenter.

Definition MM_META_NR : Z := 1000.
Definition kMagic : Z := 3735928559.
Definition kMetaMagic : Z := 1717986918.
Definition align : Z := 2 * 1024 * 1024.
Definition sizeof_MetaBlock : Z := 2 * 4096 * 4096.
Definition dax_mm_size_ : Z := 140 * 1024 * 1024 * 1024.

Record MmMeta := Build_MmMeta {
  file_name_ : list Z;
  offset_ : Z;
  size_ : Z;
  meta_magic_ : Z
}.

(** [mmMeta_] has the first [mmMetaNr_] entries of the table; the others are
    free.  [reinitialized] is the static flag of [ReInitialize]. *)
Record center := Build_center {
  magic_ : Z;
  mmMeta_ : list MmMeta;
  shmfile_mmap_addr_start_ : Z;
  shmfile_mmap_addr_ : Z;
  reinitialized : bool
}.

Definition mmMetaNr_ (c : center) : Z := Z.of_nat (length (mmMeta_ c)).

Definition shmfile_mmap_data_addr_start_ (c : center) : Z :=
  u64 (shmfile_mmap_addr_start_ c + sizeof_MetaBlock).

Definition Valid (c : center) : bool :=
  (magic_ c =? kMagic) && forallb (fun i => meta_magic_ i =? kMetaMagic) (mmMeta_ c).

(** [ReInitialize]: the table is cleared, the next free address is not. *)
Definition ReInitialize (c : center) : outcome center :=
  if reinitialized c then Err LogFatal
  else
    let c := {| magic_ := kMagic; mmMeta_ := []; shmfile_mmap_addr_start_ := shmfile_mmap_addr_start_ c;
                shmfile_mmap_addr_ := shmfile_mmap_addr_ c; reinitialized := true |} in
    _ ← CHECK (Valid c);
    Ret c.

(** The constructor, on the table found on the device mapped at [data]; in
    memory mode the table is initialized first. *)
Definition open (device : center) (use_dram : bool) (numa_id data : Z) : outcome center :=
  _ ← CHECK (negb (numa_id =? -1));
  c ← (if use_dram then ReInitialize device else Ret device);
  Ret {| magic_ := magic_ c; mmMeta_ := mmMeta_ c; shmfile_mmap_addr_start_ := data;
         shmfile_mmap_addr_ := u64 (data + sizeof_MetaBlock); reinitialized := reinitialized c |}.

Fixpoint find_loop (items : list MmMeta) (name : list Z) : outcome (option MmMeta) :=
  match items with
  | [] => Ret None
  | item :: items' =>
      if strncmp_eq (file_name_ item) name 64 then
        _ ← CHECK (meta_magic_ item =? kMetaMagic);
        Ret (Some item)
      else find_loop items' name
  end.

Definition FindIfExists (c : center) (name : list Z) : outcome (option MmMeta) := find_loop (mmMeta_ c) name.

(** The center, the address returned, and the region that was cleared. *)
Definition append_register (c : center) (name : list Z) (size : Z) : outcome (center * Z * option (Z * Z)) :=
  _ ← CHECK (negb (size =? 0));
  let new_size := u64 (u64 (size + align - 1) / align * align) in
  let ret := shmfile_mmap_addr_ c in
  let start := shmfile_mmap_data_addr_start_ c in
  _ ← CHECK (start <=? ret);
  _ ← CHECK (u64 (ret + size) <? u64 (start + dax_mm_size_));
  let item := {| file_name_ := strncpy name 50; offset_ := u64 (ret - start); size_ := size;
                 meta_magic_ := kMetaMagic |} in
  let c := {| magic_ := magic_ c; mmMeta_ := mmMeta_ c ++ [item];
              shmfile_mmap_addr_start_ := shmfile_mmap_addr_start_ c;
              shmfile_mmap_addr_ := u64 (ret + new_size); reinitialized := reinitialized c |} in
  _ ← CHECK (mmMetaNr_ c <=? MM_META_NR);
  Ret (c, ret, Some (ret, size)).

Definition Register (c : center) (name : list Z) (size : Z) : outcome (center * Z * option (Z * Z)) :=
  item ← FindIfExists c name;
  match item with
  | None => append_register c name size
  | Some item =>
      if negb (size_ item =? size) then
        c ← ReInitialize c;
        append_register c name size
      else
        let start := shmfile_mmap_data_addr_start_ c in
        Ret ({| magic_ := magic_ c; mmMeta_ := mmMeta_ c;
                shmfile_mmap_addr_start_ := shmfile_mmap_addr_start_ c;
                shmfile_mmap_addr_ := Z.max (shmfile_mmap_addr_ c) (u64 (start + offset_ item + size_ item));
                reinitialized := reinitialized c |}, u64 (start + offset_ item), None)
  end.

Definition ForRDMAMemoryRegion (c : center) : Z * Z :=
  (shmfile_mmap_data_addr_start_ c, u64 (shmfile_mmap_addr_ c - shmfile_mmap_data_addr_start_ c)).
End RegisterCenter.

Module ShmFile.

(** A file of the file system: its size and bytes. *)
Record file := Build_file { f_size : Z; f_bytes : gmap Z Z }.

Notation fs := (gmap (list Z) file).

Record shm_file := Build_shm_file {
  filename_ : list Z;
  mapped : bool;
  s_size_ : Z
}.

Definition make : shm_file := {| filename_ := []; mapped := false; s_size_ := 0 |}.

(** [ClearFsDax] *)
Definition ClearFsDax (s : shm_file) : shm_file := if mapped s then make else s.

(** [InitializeFsDax]: [fallocate] creates a missing file with its size and
    zero bytes; [open] and [mmap] of a file that exists succeed. *)
Definition InitializeFsDax (s : shm_file) (files : fs) (filename : list Z) (size : Z) : shm_file * fs * bool :=
  let s := ClearFsDax s in
  let files := match files !! filename with
               | None => <[filename := Build_file size ∅]> files
               | Some _ => files
               end in
  let size_ := match files !! filename with Some f => f_size f | None => 0 end in
  if negb (size_ =? size) then ({| filename_ := filename_ s; mapped := mapped s; s_size_ := size_ |}, files, false)
  else ({| filename_ := filename; mapped := true; s_size_ := size_ |}, files, true).

(** [InitializeDevDax]: the memory comes from the register center; the file is
    only a marker, of one byte.  The result is never false; [fd_] stays as it
    is.  The last component is [data_]. *)
Definition InitializeDevDax (c : RegisterCenter.center) (s : shm_file) (files : fs) (filename : list Z) (size : Z) :
    outcome (RegisterCenter.center * shm_file * fs * bool * Z) :=
  '(c, data, _) ← RegisterCenter.Register c filename (u64 size);
  let files := match files !! filename with
               | None => <[filename := Build_file 1 {[0 := 97]}]> files
               | Some _ => files
               end in
  Ret (c, {| filename_ := filename; mapped := mapped s; s_size_ := size |}, files, true, data).

(** [Initialize]; [dax] says that the device exists.  [mmap_addr] is the address
    that the system gives to a mapped file. *)
Definition Initialize (use_dram dax : bool) (c : RegisterCenter.center) (s : shm_file) (files : fs)
    (filename : list Z) (size mmap_addr : Z) :
    outcome (RegisterCenter.center * shm_file * fs * bool * Z) :=
  if use_dram then InitializeDevDax c s files filename size
  else if dax then InitializeDevDax c s files filename size
  else let '(s, files, ok) := InitializeFsDax s files filename size in Ret (c, s, files, ok, mmap_addr).

(** [Clear] *)
Definition Clear (dax : bool) (s : shm_file) : shm_file := if dax then s else ClearFsDax s.

(** The idiom of all clients: initialize, and on failure delete the file and
    initialize again; the result also tells whether the old file was kept. *)
Definition initialize_or_recreate (s : shm_file) (files : fs) (filename : list Z) (size : Z) :
    outcome (shm_file * fs * bool) :=
  let '(s, files, ok) := InitializeFsDax s files filename size in
  if ok then Ret (s, files, true)
  else
    let files := delete filename files in
    let '(s, files, ok) := InitializeFsDax s files filename size in
    _ ← CHECK ok;
    Ret (s, files, false).
End ShmFile.

(** ** Facts *)

Section Facts.
Import RegisterCenter.
Implicit Types (c : center).

Notation dstart c := (shmfile_mmap_data_addr_start_ c).

(** The regions of the table lie one after the other below the next free
    address; the device is mapped where its addresses do not wrap. *)
Record center_wf c : Prop := {
  cw_start : 0 <= shmfile_mmap_addr_start_ c < 2 ^ 48;
  cw_next : dstart c <= shmfile_mmap_addr_ c < dstart c + dax_mm_size_ + align;
  cw_items : forall item, item ∈ mmMeta_ c -> 0 < size_ item /\ 0 <= offset_ item /\
    dstart c + offset_ item + size_ item <= shmfile_mmap_addr_ c /\ meta_magic_ item = kMetaMagic;
  cw_apart : forall i j a b, mmMeta_ c !! i = Some a -> mmMeta_ c !! j = Some b -> (i < j)%nat ->
    offset_ a + size_ a <= offset_ b
}.

Lemma dstart_eq c : center_wf c -> dstart c = shmfile_mmap_addr_start_ c + sizeof_MetaBlock.
Proof.
  intros Hc. pose proof (cw_start _ Hc). unfold shmfile_mmap_data_addr_start_, sizeof_MetaBlock.
  rewrite u64_small; lia.
Qed.

Lemma find_loop_wf (items : list MmMeta) name :
  (forall i, i ∈ items -> meta_magic_ i = kMetaMagic) ->
  exists o, find_loop items name = Ret o /\
    match o with
    | None => forall i, i ∈ items -> take 64 (file_name_ i) <> take 64 name
    | Some i => i ∈ items /\ take 64 (file_name_ i) = take 64 name
    end.
Proof.
  induction items as [|i items IH]; intros Hm; cbn [find_loop].
  - exists None. split; [done|]. intros i Hi. by apply elem_of_nil in Hi.
  - unfold strncmp_eq. destruct (decide (take 64 (file_name_ i) = take 64 name)) as [E|E].
    + rewrite bool_decide_true by done. rewrite (Hm i) by set_solver. rewrite Z.eqb_refl. cbn [CHECK mbind outcome_bind].
      exists (Some i). split; [done|]. split; [set_solver|done].
    + rewrite bool_decide_false by done. destruct IH as (o & -> & Ho); [set_solver|]. exists o. split; [done|].
      destruct o as [x|]; [set_solver|]. intros x [->|Hx]%elem_of_cons; [done|by apply Ho].
Qed.

Lemma append_register_wf c name size c' r z :
  center_wf c -> 0 <= size < 2 ^ 60 -> append_register c name size = Ret (c', r, z) ->
  center_wf c' /\ r = shmfile_mmap_addr_ c /\ z = Some (r, size) /\ 0 < size /\
  mmMeta_ c' = mmMeta_ c ++ [Build_MmMeta (strncpy name 50) (r - dstart c) size kMetaMagic] /\
  dstart c' = dstart c /\ r + size < dstart c + dax_mm_size_.
Proof.
  intros Hc Hs H. pose proof (dstart_eq c Hc) as Hd. destruct Hc as [Hst Hn Hi Ha].
  unfold append_register in H. inv_ret. b2p.
  unfold sizeof_MetaBlock, dax_mm_size_, align in *.
  rewrite (u64_small (shmfile_mmap_addr_ c - dstart c)) in * by lia.
  rewrite (u64_small (size + _ - 1)) in * by lia.
  assert (Hsz : size <> 0) by (destruct (size =? 0) eqn:E; b2p; done).
  rewrite (u64_small (_ + size)), (u64_small (dstart c + _)) in H1 by lia.
  set (k := (size + 2 * 1024 * 1024 - 1) / (2 * 1024 * 1024)) in *.
  assert (Hk : size <= k * (2 * 1024 * 1024) < size + 2 * 1024 * 1024).
  { pose proof (Z.div_mod (size + 2 * 1024 * 1024 - 1) (2 * 1024 * 1024) ltac:(lia)) as Hdm.
    pose proof (Z.mod_pos_bound (size + 2 * 1024 * 1024 - 1) (2 * 1024 * 1024) ltac:(lia)). fold k in Hdm. lia. }
  rewrite (u64_small (k * _)) by lia. rewrite (u64_small (shmfile_mmap_addr_ c + _)) by lia.
  split_and!; try done; try lia.
  match goal with |- center_wf ?x => assert (Hds : dstart x = dstart c) by done end.
  split; rewrite ?Hds; cbn [shmfile_mmap_addr_start_ shmfile_mmap_addr_ mmMeta_].
  - done.
  - unfold dax_mm_size_, align. lia.
  - intros item [Hin|Hin]%elem_of_app.
    + destruct (Hi item Hin) as (? & ? & ? & ?). split_and!; done || lia.
    + apply list_elem_of_singleton in Hin as ->. cbn. split_and!; done || lia.
  - intros i j a b Hia Hjb Hij. apply lookup_app_Some in Hjb as [Hjb|[Hlen Hjb]].
    + rewrite lookup_app_l in Hia by (apply lookup_lt_Some in Hjb; lia). by eapply Ha.
    + apply list_lookup_singleton_Some in Hjb as [Hj <-]. cbn.
      rewrite lookup_app_l in Hia by lia. apply list_elem_of_lookup_2, Hi in Hia as (? & ? & ? & ?). lia.
Qed.

(** The regions in use: address and size. *)
Definition regions c : list (Z * Z) := (fun i => (dstart c + offset_ i, size_ i)) <$> mmMeta_ c.

(** The register center gives out disjoint regions: a name that is not in
    the table gets a cleared region that overlaps no region of the table and
    lies on the device, a name that is there with the same size gets its
    region back and nothing is cleared; the table stays well formed. *)
Theorem Register_disjoint c name size c' r z :
  center_wf c -> 0 <= size < 2 ^ 60 ->
  (forall item, FindIfExists c name = Ret (Some item) -> size_ item = size) ->
  Register c name size = Ret (c', r, z) ->
  center_wf c' /\ r + size <= dstart c + dax_mm_size_ + align /\
  (z = None /\ (r, size) ∈ regions c /\ regions c' = regions c \/
   z = Some (r, size) /\ regions c' = regions c ++ [(r, size)] /\
     forall b, b ∈ regions c -> b.1 + b.2 <= r).
Proof.
  intros Hc Hs Hsame H. pose proof (dstart_eq c Hc) as Hd. unfold Register in H. inv_ret.
  rename H into HF, x into o. destruct (find_loop_wf (mmMeta_ c) name) as (o' & HF' & Ho).
  { intros i Hi. by apply (cw_items _ Hc). }
  assert (o' = o) as -> by (unfold FindIfExists in HF; congruence). destruct o as [item|].
  - rewrite (Hsame item HF), Z.eqb_refl in H0. cbn [negb] in H0. inv_ret.
    destruct Ho as [Hin _]. destruct (cw_items _ Hc item Hin) as (I1 & I2 & I3 & I4).
    pose proof (cw_start _ Hc). pose proof (cw_next _ Hc). unfold sizeof_MetaBlock, dax_mm_size_, align in *.
    rewrite <- (Hsame item HF). rewrite (u64_small (_ + size_ item)), (u64_small (_ + offset_ item)) by lia.
    rewrite Z.max_l by lia. split_and!; [by destruct c, Hc|lia|]. left. split_and!; try done.
    apply list_elem_of_fmap. by exists item.
  - destruct (append_register_wf c name size c' r z Hc Hs H0) as (Hc' & -> & -> & Hp & Hm & Hds & Hlt).
    split_and!; [done|unfold align; lia|]. right. split; [done|]. unfold regions. rewrite Hm, Hds, fmap_app. cbn.
    split; [do 3 f_equal; lia|]. intros b (i & -> & Hi)%list_elem_of_fmap. cbn.
    destruct (cw_items _ Hc i Hi) as (_ & _ & ? & _). lia.
Qed.

(** A region is found again: after a name of at most fifty bytes that was
    not in the table has been registered, registering it again with the same
    size gives the same region, without clearing it. *)
Theorem Register_found_again c name size c' r z :
  center_wf c -> 0 <= size < 2 ^ 60 -> (length name <= 50)%nat ->
  FindIfExists c name = Ret None -> Register c name size = Ret (c', r, z) ->
  exists c2, Register c' name size = Ret (c2, r, None) /\ mmMeta_ c2 = mmMeta_ c'.
Proof.
  intros Hc Hs Hlen HF H. unfold Register in H. rewrite HF in H. cbn [mbind outcome_bind] in H.
  destruct (append_register_wf c name size c' r z Hc Hs H) as (Hc' & Hr & -> & Hp & Hm & Hds & Hlt).
  pose proof (dstart_eq c Hc) as Hd. pose proof (cw_start _ Hc). pose proof (cw_next _ Hc).
  unfold sizeof_MetaBlock, dax_mm_size_, align in *.
  set (item := Build_MmMeta (strncpy name 50) (r - dstart c) size kMetaMagic) in *.
  assert (HF' : FindIfExists c' name = Ret (Some item)).
  { unfold FindIfExists in *. rewrite Hm. clear Hm H. induction (mmMeta_ c) as [|i l IH]; cbn [find_loop app] in *.
    - cbn [file_name_ item]. unfold strncmp_eq, strncpy.
      rewrite bool_decide_true by (by rewrite (take_ge name 50) by lia). done.
    - destruct (strncmp_eq (file_name_ i) name 64); [|by apply IH].
      destruct (meta_magic_ i =? kMetaMagic); by cbn in HF. }
  unfold Register. rewrite HF'. cbn [mbind outcome_bind size_ item]. rewrite Z.eqb_refl. cbn [negb offset_ size_ item].
  assert (Haddr : u64 (dstart c' + (r - dstart c)) = r) by (rewrite Hds, u64_small; lia).
  rewrite Haddr. by eexists.
Qed.
End Facts.

(** Initialize, and on failure delete and initialize again, always ends with
    the file mapped at the size asked for; the bytes of a file of that size
    are kept, a file of another size is replaced by zeros, and no other file
    changes. *)
Theorem initialize_or_recreate_spec (s : ShmFile.shm_file) (files : gmap (list Z) ShmFile.file) filename size :
  exists s' files' kept, ShmFile.initialize_or_recreate s files filename size = Ret (s', files', kept) /\
    ShmFile.mapped s' = true /\ ShmFile.s_size_ s' = size /\ ShmFile.filename_ s' = filename /\
    files' = match files !! filename with
             | Some f => if ShmFile.f_size f =? size then files
                         else <[filename := ShmFile.Build_file size ∅]> files
             | None => <[filename := ShmFile.Build_file size ∅]> files
             end.
Proof.
  unfold ShmFile.initialize_or_recreate, ShmFile.InitializeFsDax.
  destruct (files !! filename) as [f|] eqn:Hf.
  - rewrite Hf. destruct (ShmFile.f_size f =? size) eqn:E; b2p; cbn [negb]; [by eexists _, _, _|].
    cbv beta iota zeta. rewrite lookup_delete_eq, lookup_insert_eq. cbn [ShmFile.f_size]. rewrite Z.eqb_refl. cbn [negb CHECK mbind outcome_bind].
    eexists _, _, _. split_and!; try done. by rewrite insert_delete_eq.
  - rewrite lookup_insert_eq. cbn [ShmFile.f_size]. rewrite Z.eqb_refl. cbn [negb]. by eexists _, _, _.
Qed.

(** ** Concrete devices *)

Section Devices.
Import RegisterCenter.

Definition empty_device : center := Build_center kMagic [] 0 0 false.

Definition dram_center : center :=
  match open empty_device true 0 4096 with Ret c => c | Err _ => empty_device end.

Definition file_a : list Z := [47; 97].
Definition file_b : list Z := [47; 98].

Definition registered (c : center) (name : list Z) (size : Z) : center :=
  match Register c name size with Ret (c, _, _) => c | Err _ => c end.

Lemma dram_center_wf : center_wf dram_center.
Proof.
  split.
  - vm_compute. intuition congruence.
  - vm_compute. intuition congruence.
  - intros item Hi. by apply elem_of_nil in Hi.
  - intros i j a b Hi. change (@nil MmMeta !! i = Some a) in Hi. by rewrite lookup_nil in Hi.
Qed.

Lemma Register_disjoint_witness :
  center_wf (registered dram_center file_a 5000) /\
  4096 + 33554432 + 5000 <= shmfile_mmap_data_addr_start_ dram_center + dax_mm_size_ + align /\
  (Some (4096 + 33554432, 5000) = None /\ (4096 + 33554432, 5000) ∈ regions dram_center /\
     regions (registered dram_center file_a 5000) = regions dram_center \/
   Some (4096 + 33554432, 5000) = Some (4096 + 33554432, 5000) /\
     regions (registered dram_center file_a 5000) = regions dram_center ++ [(4096 + 33554432, 5000)] /\
     forall b, b ∈ regions dram_center -> b.1 + b.2 <= 4096 + 33554432).
Proof.
  apply (Register_disjoint dram_center file_a 5000 (registered dram_center file_a 5000) (4096 + 33554432)
    (Some (4096 + 33554432, 5000))); [apply dram_center_wf|lia|by vm_compute|by_eval].
Defined.

Lemma Register_found_again_witness :
  exists c2, Register (registered dram_center file_a 5000) file_a 5000 = Ret (c2, 4096 + 33554432, None) /\
    mmMeta_ c2 = mmMeta_ (registered dram_center file_a 5000).
Proof.
  apply (Register_found_again dram_center file_a 5000 (registered dram_center file_a 5000) (4096 + 33554432)
    (Some (4096 + 33554432, 5000))); [apply dram_center_wf|lia|cbn; lia|by_eval|by_eval].
Defined.

Definition addr_of (o : outcome (center * Z * option (Z * Z))) : option (Z * option (Z * Z)) :=
  match o with Ret (_, r, z) => Some (r, z) | Err _ => None end.

(** A name of more than fifty bytes is stored truncated and never found
    again: registering it a second time clears a second region. *)
Theorem Register_long_name_lost :
  let name := replicate 51 97 in
  addr_of (Register dram_center name 5000) = Some (33558528, Some (33558528, 5000)) /\
  addr_of (Register (registered dram_center name 5000) name 5000) = Some (35655680, Some (35655680, 5000)).
Proof. vm_compute. auto. Qed.

(** After a restart on a device the next free address is the start of the
    data: a new file that is registered before the files of the table gets,
    and clears, the region of the first of them. *)
Theorem Register_after_restart_overlaps :
  let before := registered (registered dram_center file_a 5000) file_b 5000 in
  match open before false 0 4096 with
  | Ret c => addr_of (Register c [47; 99] 5000) = Some (33558528, Some (33558528, 5000)) /\
             addr_of (Register (registered c [47; 99] 5000) file_a 5000) = Some (33558528, None)
  | Err _ => False
  end.
Proof. vm_compute. auto. Qed.
End Devices.
