(* ===== verification/Array.v ===== *)
(** * ConstArray and MutableArray (src/base/array.h)

    An array is a pointer and a number of elements; the elements are read from
    and written to a byte memory, little endian.  [T] is an unsigned type of
    [sizeof_T] bytes. *)

From stdpp Require Import base numbers list gmap.
From Stdlib Require Import ZArith Lia.
From S2P Require Import Prelude MallocApi PetKV PetKVSpec.

(** ** Little-endian words *)

Fixpoint le_bytes (n : nat) (x : Z) : list Z :=
  match n with
  | O => []
  | S n' => x mod 256 :: le_bytes n' (x / 256)
  end.

Fixpoint le_value (bs : list Z) : Z :=
  match bs with
  | [] => 0
  | b :: bs' => b + 256 * le_value bs'
  end.

Module Array.
Section Array.
Context (sizeof_T : Z).
Implicit Types (mem : gmap Z Z).

Record array := Build_array { list_ : option Z; size : Z }.

Definition of_ptr (list : Z) (size : Z) : array := {| list_ := Some list; size := size |}.

(** [ConstArray(const std::vector<T> &)] *)
Definition of_vector (data : Z) (vector_size : Z) : array := {| list_ := Some data; size := i32 vector_size |}.

(** [ConstArray(const std::string &)] *)
Definition of_string (data : Z) (data_size : Z) : array :=
  {| list_ := Some data; size := i32 (data_size / sizeof_T) |}.

Definition empty : array := {| list_ := None; size := 0 |}.

(** [SetData(const void *, int)]: [data_size] is converted to [size_t]. *)
Definition SetData (data data_size : Z) : array :=
  if u64 data_size mod sizeof_T =? 0 then {| list_ := Some data; size := i32 (u64 data_size / sizeof_T) |}
  else empty.

(** [MutableArray::SetData] asserts instead (and is like it with [NDEBUG]). *)
Definition MutableSetData (data data_size : Z) : outcome array :=
  if u64 data_size mod sizeof_T =? 0 then Ret {| list_ := Some data; size := i32 (u64 data_size / sizeof_T) |}
  else Err CheckFailed.

(** [operator[]], reading. *)
Definition get mem (a : array) (n : Z) : outcome Z :=
  list ← deref (list_ a);
  Ret (le_value (read_bytes mem (list + n * sizeof_T) sizeof_T)).

(** [operator[]] of a mutable array, writing. *)
Definition set mem (a : array) (n x : Z) : outcome (gmap Z Z) :=
  list ← deref (list_ a);
  Ret (write_bytes mem (list + n * sizeof_T) (le_bytes (Z.to_nat sizeof_T) x)).

Definition front mem (a : array) : outcome Z := get mem a 0.
Definition back mem (a : array) : outcome Z := get mem a (size a - 1).
Definition Size (a : array) : Z := size a.

(** [AppendToVector], from index [i] on, [n] elements. *)
Fixpoint append_loop mem (a : array) (n : nat) (i : Z) (vector : list Z) : outcome (list Z) :=
  match n with
  | O => Ret vector
  | S n' => x ← get mem a i; append_loop mem a n' (i + 1) (vector ++ [x])
  end.
Definition AppendToVector mem (a : array) (vector : list Z) : outcome (list Z) :=
  append_loop mem a (Z.to_nat (size a)) 0 vector.
Definition CopyToVector mem (a : array) (vector : list Z) : outcome (list Z) := AppendToVector mem a [].
Definition ToVector mem (a : array) : outcome (list Z) := AppendToVector mem a [].

Definition binary_size (a : array) : Z := sizeof_T * size a.
Definition as_string mem (a : array) : list Z :=
  match list_ a with
  | Some list => read_bytes mem list (binary_size a)
  | None => []
  end.
End Array.
End Array.

(** ** Facts *)

Lemma le_bytes_length n x : length (le_bytes n x) = n.
Proof. revert x. induction n as [|n IH]; intros x; cbn; [done|]. by rewrite IH. Qed.

Lemma le_value_bytes n x : 0 <= x < 256 ^ Z.of_nat n -> le_value (le_bytes n x) = x.
Proof.
  revert x. induction n as [|n IH]; intros x Hx; [cbn in *; lia|]. cbn [le_bytes le_value].
  rewrite Nat2Z.inj_succ, Z.pow_succ_r in Hx by lia.
  rewrite IH; [pose proof (Z.div_mod x 256); lia|].
  split; [apply Z.div_pos; lia|apply Z.div_lt_upper_bound; lia].
Qed.

Lemma le_bytes_range n x : Forall (fun b => 0 <= b < 256) (le_bytes n x).
Proof.
  revert x. induction n as [|n IH]; intros x; [constructor|]. constructor; [|apply IH]. apply Z.mod_pos_bound. lia.
Qed.

Section Facts.
Import Array.
Context (n : nat) (Hn : (0 < n)%nat).
Implicit Types (mem : gmap Z Z).

Notation T := (Z.of_nat n).

Definition encode (xs : list Z) : list Z := concat (le_bytes n <$> xs).

Lemma encode_length xs : length (encode xs) = (n * length xs)%nat.
Proof.
  clear Hn.
  unfold encode. induction xs as [|x xs IH]; cbn; [lia|]. rewrite length_app, le_bytes_length, IH. lia.
Qed.

Lemma read_bytes_split mem a k m :
  0 <= k -> 0 <= m -> read_bytes mem a (k + m) = read_bytes mem a k ++ read_bytes mem (a + k) m.
Proof.
  clear Hn.
  intros Hk Hm. unfold read_bytes. rewrite seqZ_app by lia. rewrite fmap_app. f_equal.
  rewrite Z.add_0_l. pose proof (fmap_add_seqZ k 0 m) as Hsh. rewrite Z.add_0_r in Hsh.
  rewrite <- Hsh, <- list_fmap_compose.
  apply list_fmap_ext. intros _ i _. cbn. by rewrite Z.add_assoc.
Qed.

Lemma read_bytes_length mem a k : length (read_bytes mem a k) = Z.to_nat k.
Proof. clear Hn. unfold read_bytes. by rewrite length_fmap, length_seqZ. Qed.

(** A memory that has the bytes of [xs] at [a] has the element [i] there. *)
Lemma encoded_element mem a xs i x :
  read_bytes mem a (T * Z.of_nat (length xs)) = encode xs -> xs !! i = Some x ->
  read_bytes mem (a + Z.of_nat i * T) T = le_bytes n x.
Proof.
  revert a i. induction xs as [|y xs IH]; intros a i Hr Hi; [done|].
  replace (T * Z.of_nat (length (y :: xs))) with (T + T * Z.of_nat (length xs)) in Hr by (cbn [length]; lia).
  rewrite read_bytes_split in Hr by lia. cbn [encode fmap list_fmap concat] in Hr.
  apply app_inj_1 in Hr as [H1 H2]; [|rewrite read_bytes_length, le_bytes_length; lia].
  destruct i as [|i]; cbn in Hi.
  - simplify_eq. by replace (a + Z.of_nat 0 * T) with a by lia.
  - replace (a + Z.of_nat (S i) * T) with (a + T + Z.of_nat i * T) by lia. by apply IH.
Qed.

Lemma append_loop_encoded mem a xs k i vector :
  read_bytes mem a (T * Z.of_nat (length xs)) = encode xs -> Forall (fun x => 0 <= x < 256 ^ T) xs ->
  (i + k = length xs)%nat ->
  append_loop T mem (of_ptr a (Z.of_nat (length xs))) k (Z.of_nat i) vector = Ret (vector ++ drop i xs).
Proof.
  intros Hr Hx. revert i vector. induction k as [|k IH]; intros i vector Hi; cbn [append_loop].
  - rewrite drop_ge by lia. by rewrite app_nil_r.
  - destruct (lookup_lt_is_Some_2 xs i) as [x Hxi]; [lia|]. unfold get. cbn [of_ptr list_ deref mbind outcome_bind].
    rewrite (encoded_element mem a xs i x Hr Hxi), le_value_bytes by (by apply (Forall_lookup_1 _ _ _ _ Hx Hxi)).
    replace (Z.of_nat i + 1) with (Z.of_nat (S i)) by lia.
    etrans; [apply IH; lia|]. by rewrite (drop_S xs x i Hxi), <- app_assoc.
Qed.

(** An array over the bytes of a vector gives the vector back: ToVector and
    as_string invert the encoding of the elements. *)
Theorem Array_roundtrip mem a xs :
  Forall (fun x => 0 <= x < 256 ^ T) xs -> T * Z.of_nat (length xs) < 2 ^ 31 ->
  read_bytes mem a (T * Z.of_nat (length xs)) = encode xs ->
  let arr := of_string T a (T * Z.of_nat (length xs)) in
  ToVector T mem arr = Ret xs /\ as_string T mem arr = encode xs /\ Size arr = Z.of_nat (length xs).
Proof.
  intros Hx Hl Hr. cbn zeta. assert (Hdiv : T * Z.of_nat (length xs) / T = Z.of_nat (length xs)).
  { rewrite Z.mul_comm. apply Z.div_mul. lia. }
  assert (Ha : of_string T a (T * Z.of_nat (length xs)) = of_ptr a (Z.of_nat (length xs))).
  { unfold of_string, of_ptr. rewrite Hdiv, i32_small; [done|]. nia. }
  rewrite Ha. split_and!; [|by unfold as_string, binary_size; cbn [of_ptr list_ size]|done].
  unfold ToVector, AppendToVector. cbn [of_ptr size]. rewrite Nat2Z.id.
  pose proof (append_loop_encoded mem a xs (length xs) 0 [] Hr Hx eq_refl) as H. exact H.
Qed.
End Facts.

Lemma Array_roundtrip_witness :
  let arr := Array.of_string 8 100 24 in
  Array.ToVector 8 (write_bytes ∅ 100 (encode 8 [5; 6; 700])) arr = Ret [5; 6; 700] /\
  Array.as_string 8 (write_bytes ∅ 100 (encode 8 [5; 6; 700])) arr = encode 8 [5; 6; 700] /\
  Array.Size arr = 3.
Proof.
  apply (Array_roundtrip 8 ltac:(lia) (write_bytes ∅ 100 (encode 8 [5; 6; 700])) 100 [5; 6; 700]).
  - repeat constructor; cbn; lia.
  - cbn. lia.
  - by_eval.
Defined.
