(* ===== verification/Ps.v ===== *)
(** * The parameter server (src/ps)

    The roles of the processes ([Postoffice]), the partition of the keys over
    the servers ([ShardManager]), the service threads of a server
    (petps_server.cc), the client of one server (petps_client.cc) and the
    client of all servers (allshards_ps_client.h).

    A handler returns the call of the RDMA library (DSM) that it makes, [dsm_op],
    with its arguments; the library is modelled in Dsm.v, which performs these
    calls.  CityHash
    ([GetHash]) is a parameter. *)

From stdpp Require Import base numbers list gmap.
From Stdlib Require Import ZArith Lia.
From S2P Require Import Prelude PetKV Epoch Array.

(** ** Postoffice.h, Postoffice.cc *)

Module Postoffice.
Inductive ActorEnum := ACTOR_SERVER | ACTOR_CLIENT.

(** An id that the constructor does not set is [None]. *)
Record postoffice := Build_postoffice {
  num_servers_ : Z;
  num_clients_ : Z;
  global_id_ : Z;
  server_id_ : option Z;
  client_id_ : option Z;
  actor_ : ActorEnum
}.

(** The constructor, from the flags; the connection to memcached is not
    modelled. *)
Definition make (num_server_processes num_client_processes g_id : Z) : outcome postoffice :=
  if (0 <=? g_id) && (g_id <? num_server_processes) then
    Ret {| num_servers_ := num_server_processes; num_clients_ := num_client_processes; global_id_ := g_id;
           server_id_ := Some g_id; client_id_ := None; actor_ := ACTOR_SERVER |}
  else if (num_server_processes <=? g_id) && (g_id <? i32 (num_server_processes + num_client_processes)) then
    Ret {| num_servers_ := num_server_processes; num_clients_ := num_client_processes; global_id_ := g_id;
           server_id_ := None; client_id_ := Some (g_id - num_server_processes); actor_ := ACTOR_CLIENT |}
  else Err LogFatal.

Definition IsServer (p : postoffice) : bool := match actor_ p with ACTOR_SERVER => true | ACTOR_CLIENT => false end.
Definition IsClient (p : postoffice) : bool := match actor_ p with ACTOR_SERVER => false | ACTOR_CLIENT => true end.
Definition ServerID (p : postoffice) : option Z := server_id_ p.
Definition ClientID (p : postoffice) : option Z := client_id_ p.
Definition GlobalID (p : postoffice) : Z := global_id_ p.
Definition NumServers (p : postoffice) : Z := num_servers_ p.
Definition NumClients (p : postoffice) : Z := num_clients_ p.
End Postoffice.

(** ** shard_manager.h *)

Definition KeyPartition (GetHash : Z -> Z) (num_servers key : Z) : Z := i32 (GetHash key mod u64 num_servers).

(** ** petps_magic.h *)

Definition FINISH_MAGIC : Z := 123456789.
Definition WR_ID_DEFAULT : Z := 0.
Definition WR_ID_GET : Z := 1.
Definition WR_ID_SG_GET : Z := 2.
Definition WR_ID_PUT : Z := 3.

(** ** Messages *)

Inductive RpcType :=
  | GET | PUT | DEL | GET_SERVER_THREADIDS
  | RESP_GET_OK | RESP_GET_NOT_FOUND | RESP_PUT | RESP_DEL_OK | RESP_DEL_NOT_FOUND | RESP_GET_SERVER_THREADIDS.

#[export] Instance RpcType_eq_dec : EqDecision RpcType.
Proof. solve_decision. Defined.

Record RawMessage := Build_RawMessage {
  m_type : RpcType;
  node_id : Z;
  t_id : Z;
  receive_gaddr : Z;
  extra_data : list Z
}.

(** What a handler asks of the RDMA library: a write of one buffer, a write
    gathered from several, a message back. *)
Inductive dsm_op :=
  | rdma_write (gaddr : Z) (buf : list Z) (wr_id : Z)
  | write_from_pm_vec (gaddr : Z) (sourcelist : list (list Z)) (wr_id : Z)
  | rpc_call (node t : Z) (ids : list Z).

(** The keys in the payload of a message. *)
Fixpoint decode (count : nat) (bs : list Z) : list Z :=
  match count with
  | O => []
  | S c => le_value (take 8 bs) :: decode c (drop 8 bs)
  end.

Definition kv_count (recv : RawMessage) : Z := Z.of_nat (length (extra_data recv)) / 8.
Definition message_keys (recv : RawMessage) : list Z := decode (Z.to_nat (kv_count recv)) (extra_data recv).

(** ** base_kv.h: what the server needs of an engine

    [kv_binary_data] are the bytes that an array returned by [BatchGet] stands
    for; [kv_Get] has the old content of its [value] argument as an argument;
    [unsigned tid] is the index of the thread. *)
Class BaseKV (K : Type) := {
  kv_array : Type;
  kv_Get : K -> Z -> list Z -> Z -> outcome (list Z);
  kv_Put : K -> Z -> list Z -> Z -> outcome K;
  kv_BatchGet : K -> list Z -> Z -> outcome (list kv_array);
  kv_binary_data : K -> kv_array -> list Z
}.

(** ** petps_server.cc *)

Module Server.
Section Server.
Context {K : Type} `{!BaseKV K}.
Context (GetHash : Z -> Z) (FLAGS_max_kv_num_per_request : Z) (FLAGS_use_sglist : bool).

(** [tp] are the counters [tp[i][0]]. *)
Record server := Build_server {
  base_kv_ : K;
  thread_count_ : Z;
  tp : list Z;
  epoch_manager_ : Epoch.manager;
  serving_thread_id : Z
}.

Definition kMaxThread : Z := 128.

(** The constructor's choice of the memory that is registered with the RNIC:
    the region of the engine, or huge pages at [huge]. *)
Definition choose_region (pm_address : Z * Z) (huge : Z) : Z * Z :=
  if FLAGS_use_sglist then
    if (pm_address.1 =? 0) || (pm_address.2 =? 0) then (huge, 100 * 1024 * 1024) else pm_address
  else (huge, 100 * 1024 * 1024).

(** The constructor and [Start], which clears the counters. *)
Definition make (base_kv : K) (thread_count : Z) (g : Epoch.manager) : outcome server :=
  _ ← CHECK (thread_count <=? kMaxThread);
  Ret {| base_kv_ := base_kv; thread_count_ := thread_count; tp := replicate (Z.to_nat kMaxThread) 0;
         epoch_manager_ := g; serving_thread_id := 0 |}.

Definition GetThroughputCounterSum (s : server) : Z :=
  foldl (fun sum x => u64 (sum + x)) 0 (take (Z.to_nat (thread_count_ s)) (tp s)).

Definition with_kv (s : server) (kv : K) : server :=
  {| base_kv_ := kv; thread_count_ := thread_count_ s; tp := tp s; epoch_manager_ := epoch_manager_ s;
     serving_thread_id := serving_thread_id s |}.

Definition with_epoch (s : server) (g : Epoch.manager) : server :=
  {| base_kv_ := base_kv_ s; thread_count_ := thread_count_ s; tp := tp s; epoch_manager_ := g;
     serving_thread_id := serving_thread_id s |}.

(** A remainder by 0 is undefined. *)
Definition RpcGetServerServingThreadIDs (s : server) (recv : RawMessage) : outcome (server * dsm_op) :=
  _ ← CHECK (match m_type recv with GET_SERVER_THREADIDS => true | _ => false end);
  if thread_count_ s =? 0 then Err Undefined else
  let r := serving_thread_id s in
  let r' := i32 (r + 1) in
  Ret ({| base_kv_ := base_kv_ s; thread_count_ := thread_count_ s; tp := tp s;
          epoch_manager_ := epoch_manager_ s; serving_thread_id := i32 (r' + 1) |},
       rpc_call (node_id recv) (t_id recv) [Z.rem r (thread_count_ s); Z.rem r' (thread_count_ s)]).

(** [GetString] gives the random string of the i-th draw. *)
Fixpoint put_loop (kv : K) (keys : list Z) (thread_id : Z) (GetString : nat -> list Z) (i : nat) : outcome K :=
  match keys with
  | [] => Ret kv
  | key :: keys' => kv ← kv_Put kv key (GetString i) thread_id; put_loop kv keys' thread_id GetString (S i)
  end.

Definition RpcPsPut (s : server) (thread_id : Z) (recv : RawMessage) (GetString : nat -> list Z) :
    outcome (server * dsm_op) :=
  kv ← put_loop (base_kv_ s) (message_keys recv) thread_id GetString 0;
  Ret (with_kv s kv, rdma_write (receive_gaddr recv) [49; 50; 51; 0] WR_ID_PUT).

(** [self] is [pthread_self()] of the service thread [thread_id]. *)
Definition RpcPsGet (s : server) (self thread_id : Z) (recv : RawMessage) : outcome (server * dsm_op) :=
  g ← Epoch.Protect GetHash (epoch_manager_ s) self;
  let batch_get_kv_count := kv_count recv in
  count ← deref (tp s !! Z.to_nat thread_id);
  let tp := <[Z.to_nat thread_id := u64 (count + batch_get_kv_count)]> (tp s) in
  let keys := message_keys recv in
  _ ← CHECK (batch_get_kv_count <=? FLAGS_max_kv_num_per_request);
  values ← kv_BatchGet (base_kv_ s) keys thread_id;
  _ ← CHECK (Z.of_nat (length values) =? batch_get_kv_count);
  let data := kv_binary_data (base_kv_ s) <$> values in
  g ← Epoch.UnProtect GetHash g self;
  Ret ({| base_kv_ := base_kv_ s; thread_count_ := thread_count_ s; tp := tp; epoch_manager_ := g;
          serving_thread_id := serving_thread_id s |},
       if FLAGS_use_sglist then write_from_pm_vec (receive_gaddr recv) data WR_ID_SG_GET
       else rdma_write (receive_gaddr recv) (concat data) WR_ID_GET).

(** One round of the polling loop: [rpc_fast_wait] reports a completion or a
    message. *)
Inductive poll_event :=
  | Completion (wr_id : Z)
  | Message (recv : RawMessage).

Definition poll_step (s : server) (self thread_id : Z) (GetString : nat -> list Z) (e : poll_event) :
    outcome (server * option dsm_op) :=
  match e with
  | Completion wr_id =>
      if wr_id =? WR_ID_SG_GET then
        g ← Epoch.UnProtect GetHash (epoch_manager_ s) self;
        Ret (with_epoch s g, None)
      else Ret (s, None)
  | Message recv =>
      '(s, op) ← match m_type recv with
                 | GET_SERVER_THREADIDS => RpcGetServerServingThreadIDs s recv
                 | PUT => RpcPsPut s thread_id recv GetString
                 | GET => RpcPsGet s self thread_id recv
                 | _ => Err LogFatal
                 end;
      Ret (s, Some op)
  end.
End Server.
Arguments server : clear implicits.
End Server.

(** ** petps_client.h, petps_client.cc *)

Module Client.
Section Client.
Context (FLAGS_value_size : Z).

(** What the clients of a process share: the static variables
    [round_robin] and [client_memory_offset_acc], and the memory, where the
    answers arrive; [base_] is the address of the first receive buffer. *)
Record process := Build_process {
  base_ : Z;
  round_robin : Z;
  client_memory_offset_acc : Z;
  memory_ : gmap Z Z
}.

Record client := Build_client {
  shard_ : Z;
  rpcIDAcc_ : Z;
  serverThreadIdsRoutedTo_ : list Z;
  rpcId2PollMap_ : gmap Z Z
}.

Definition make (shard : Z) : client :=
  {| shard_ := shard; rpcIDAcc_ := 0; serverThreadIdsRoutedTo_ := []; rpcId2PollMap_ := ∅ |}.

(** [InitThread]: [reply] is the message that [GetServerThreadIDs] receives,
    its type and the thread ids in it. *)
Definition InitThread (c : client) (reply : RpcType * list Z) : outcome client :=
  _ ← CHECK (match reply.1 with RESP_GET_SERVER_THREADIDS => true | _ => false end);
  Ret {| shard_ := shard_ c; rpcIDAcc_ := rpcIDAcc_ c; serverThreadIdsRoutedTo_ := reply.2;
         rpcId2PollMap_ := rpcId2PollMap_ c |}.

Definition with_memory (p : process) (mem : gmap Z Z) : process :=
  {| base_ := base_ p; round_robin := round_robin p;
     client_memory_offset_acc := client_memory_offset_acc p; memory_ := mem |}.

Definition with_round_robin (p : process) (r : Z) : process :=
  {| base_ := base_ p; round_robin := r;
     client_memory_offset_acc := client_memory_offset_acc p; memory_ := memory_ p |}.

Definition SelectServerThreadID (p : process) (c : client) : outcome (process * Z) :=
  ret ← deref (serverThreadIdsRoutedTo_ c !! Z.to_nat (round_robin p));
  Ret (with_round_robin p ((round_robin p + 1) mod Z.of_nat (length (serverThreadIdsRoutedTo_ c))), ret).

Definition GetReceiveBuffer (p : process) (size : Z) : process * Z :=
  ({| base_ := base_ p; round_robin := round_robin p;
      client_memory_offset_acc := u64 (client_memory_offset_acc p + size); memory_ := memory_ p |},
   base_ p + client_memory_offset_acc p).

(** The 4-byte word that is polled. *)
Definition poll_word (mem : gmap Z Z) (addr : Z) : Z := le_value (read_bytes mem addr 4).

(** A missing id is inserted with a null pointer, which is then read. *)
Definition QueryRPCFinished (p : process) (c : client) (rpc_id : Z) : outcome bool :=
  poll ← deref (rpcId2PollMap_ c !! u64 rpc_id);
  Ret (negb (poll_word (memory_ p) poll =? FINISH_MAGIC)).

(** [WaitRPCFinish] on the memories that the polls see, one after the other. *)
Fixpoint wait_loop (p : process) (poll : Z) (memories : list (gmap Z Z)) : outcome process :=
  match memories with
  | [] => Err Diverges
  | mem :: memories' =>
      if poll_word mem poll =? FINISH_MAGIC then wait_loop (with_memory p mem) poll memories'
      else Ret (with_memory p mem)
  end.

Definition WaitRPCFinish (p : process) (c : client) (rpc_id : Z) (memories : list (gmap Z Z)) : outcome process :=
  poll ← deref (rpcId2PollMap_ c !! u64 rpc_id);
  wait_loop p poll memories.

Definition RevokeRPCResource (c : client) (rpc_id : Z) : client :=
  {| shard_ := shard_ c; rpcIDAcc_ := rpcIDAcc_ c; serverThreadIdsRoutedTo_ := serverThreadIdsRoutedTo_ c;
     rpcId2PollMap_ := delete (u64 rpc_id) (rpcId2PollMap_ c) |}.

(** What the two requests share: the poll word is set to [FINISH_MAGIC] and
    entered in the map, then the message is sent to a thread of the server. *)
Definition send (p : process) (c : client) (type : RpcType) (keys : list Z) (values poll : Z) :
    outcome (process * client * RawMessage * Z) :=
  let c := {| shard_ := shard_ c; rpcIDAcc_ := rpcIDAcc_ c;
              serverThreadIdsRoutedTo_ := serverThreadIdsRoutedTo_ c;
              rpcId2PollMap_ := <[rpcIDAcc_ c := poll]> (rpcId2PollMap_ c) |} in
  let p := with_memory p (write_bytes (memory_ p) poll (le_bytes 4 FINISH_MAGIC)) in
  let m := {| m_type := type; node_id := 0; t_id := 0; receive_gaddr := values; extra_data := encode 8 keys |} in
  '(p, thread) ← SelectServerThreadID p c;
  Ret (p, c, m, thread).

(** [rpcIDAcc_++; return rpcIDAcc_ - 1] *)
Definition next_id (c : client) : client * Z :=
  ({| shard_ := shard_ c; rpcIDAcc_ := u64 (rpcIDAcc_ c + 1);
      serverThreadIdsRoutedTo_ := serverThreadIdsRoutedTo_ c; rpcId2PollMap_ := rpcId2PollMap_ c |},
   i32 (rpcIDAcc_ c)).

(** [GetParameter]: also the message to the server of [shard_], the server
    thread it goes to, and the rpc id.  The poll word is the last word of the
    answer.  A synchronous call waits; [memories] is what its polls see. *)
Definition GetParameter (p : process) (c : client) (keys : list Z) (values : Z) (isAsync : bool)
    (memories : list (gmap Z Z)) : outcome (process * client * RawMessage * Z * Z) :=
  '(p, c, m, thread) ← send p c GET keys values (values + i32 (Z.of_nat (length keys) * FLAGS_value_size) - 4);
  p ← (if isAsync then Ret p else WaitRPCFinish p c (i32 (rpcIDAcc_ c)) memories);
  let '(c, id) := next_id c in
  Ret (p, c, m, thread, id).

(** [FakePutParameter] polls the first word. *)
Definition FakePutParameter (p : process) (c : client) (keys : list Z) (values : Z) :
    outcome (process * client * RawMessage * Z * Z) :=
  '(p, c, m, thread) ← send p c PUT keys values values;
  let '(c, id) := next_id c in
  Ret (p, c, m, thread, id).
End Client.
End Client.

(** ** allshards_ps_client.h *)

Module AllShards.
Section AllShards.
Context (FLAGS_value_size FLAGS_max_kv_num_per_request : Z) (partition : Z -> Z) (RPC_DEBUG : bool).

(** [batchRpcId2CbMap_] holds what the call-back captures: the keys, the
    destination and the request id. *)
Record allshards := Build_allshards {
  clients_ : list Client.client;
  batchRpcId2RpcListMap_ : gmap Z (list Z);
  batchRpcId2CbMap_ : gmap Z (list Z * Z * Z);
  num_shards_ : Z;
  batchRpcIDAcc_ : Z;
  partitioned_recv_buffer_ : list (list Z)
}.

Definition MAGIC_RPC_ID_FOR_EMPTY_REQUEST : Z := u64 (-1).

Definition make (clients : list Client.client) (num_shards : Z) : allshards :=
  {| clients_ := clients; batchRpcId2RpcListMap_ := ∅; batchRpcId2CbMap_ := ∅; num_shards_ := num_shards;
     batchRpcIDAcc_ := 0; partitioned_recv_buffer_ := replicate (Z.to_nat num_shards) [] |}.

(** [GetReceiveBuffer]: a buffer per shard; the buffer that is returned comes
    from [new] and is not part of the state. *)
Fixpoint recv_loop (p : Client.process) (buffers : list (list Z)) : Client.process * list (list Z) :=
  match buffers with
  | [] => (p, [])
  | b :: buffers' =>
      let '(p, a) := Client.GetReceiveBuffer p (u64 (i32 (FLAGS_max_kv_num_per_request * FLAGS_value_size))) in
      let '(p, bs) := recv_loop p buffers' in
      (p, (b ++ [a]) :: bs)
  end.

Definition GetReceiveBuffer (p : Client.process) (w : allshards) : Client.process * allshards :=
  let '(p, bs) := recv_loop p (partitioned_recv_buffer_ w) in
  (p, {| clients_ := clients_ w; batchRpcId2RpcListMap_ := batchRpcId2RpcListMap_ w;
         batchRpcId2CbMap_ := batchRpcId2CbMap_ w; num_shards_ := num_shards_ w;
         batchRpcIDAcc_ := batchRpcIDAcc_ w; partitioned_recv_buffer_ := bs |}).

(** [partitioned_key_buffer_] after the loop over the keys. *)
Fixpoint partition_loop (keys : list Z) (buffers : list (list Z)) : list (list Z) :=
  match keys with
  | [] => buffers
  | k :: keys' => partition_loop keys' (alter (fun b => b ++ [k]) (Z.to_nat (partition k)) buffers)
  end.

(** [resize(500)] of the buffers that are longer. *)
Definition partitioned_keys (w : allshards) (keys : list Z) : list (list Z) :=
  (fun b => if 500 <? Z.of_nat (length b) then take 500 b else b) <$>
  partition_loop keys (replicate (Z.to_nat (num_shards_ w)) []).

(** The requests to the shards; [memories] is what the polls of a shard see. *)
Fixpoint request_loop (p : Client.process) (clients : list Client.client) (buffers : list (list Z))
    (recv : list (list Z)) (async_req_id : Z) (isAsync : bool) (memories : list (list (gmap Z Z))) :
    outcome (Client.process * list Client.client * list (RawMessage * Z) * list Z) :=
  match buffers with
  | [] => Ret (p, clients, [], [])
  | keys :: buffers' =>
      _ ← CHECK (Z.of_nat (length keys) <=? 500);
      c ← deref (head clients);
      r ← deref (head recv);
      a ← deref (r !! Z.to_nat async_req_id);
      '(p, c, m, thread, id) ← Client.GetParameter FLAGS_value_size p c keys a isAsync
                                   (default [] (head memories));
      '(p, cs, ms, ids) ← request_loop p (tail clients) buffers' (tail recv) async_req_id isAsync
                             (tail memories);
      Ret (p, c :: cs, (m, thread) :: ms, id :: ids)
  end.

(** The batch id is returned as an [int]. *)
Definition GetParameter (p : Client.process) (w : allshards) (keys : list Z) (values : Z) (isAsync : bool)
    (async_req_id : Z) (memories : list (list (gmap Z Z))) :
    outcome (Client.process * allshards * list (RawMessage * Z) * Z) :=
  '(p, cs, ms, shard_rpc_ids) ←
     request_loop p (clients_ w) (partitioned_keys w keys) (partitioned_recv_buffer_ w) async_req_id isAsync memories;
  let id := batchRpcIDAcc_ w in
  Ret (p,
       {| clients_ := cs; batchRpcId2RpcListMap_ := <[id := shard_rpc_ids]> (batchRpcId2RpcListMap_ w);
          batchRpcId2CbMap_ := <[id := (keys, values, async_req_id)]> (batchRpcId2CbMap_ w);
          num_shards_ := num_shards_ w; batchRpcIDAcc_ := u64 (id + 1);
          partitioned_recv_buffer_ := partitioned_recv_buffer_ w |},
       ms, i32 id).

(** The body of the call-back with [RPC_DEBUG]: it copies the answers of the
    shards, each in its buffer [recv], to the order of the keys. *)
Fixpoint gather_loop (mem : gmap Z Z) (keys : list Z) (values acc : Z) (recv offset_accs : list Z) : gmap Z Z :=
  match keys with
  | [] => mem
  | k :: keys' =>
      let shard := Z.to_nat (partition k) in
      let src := recv !!! shard + offset_accs !!! shard in
      let mem := write_bytes mem (values + acc) (read_bytes mem src FLAGS_value_size) in
      gather_loop mem keys' values (acc + FLAGS_value_size) recv
        (alter (fun o => o + FLAGS_value_size) shard offset_accs)
  end.

Definition gather (mem : gmap Z Z) (num_shards : Z) (keys : list Z) (values : Z) (recv : list Z) : gmap Z Z :=
  gather_loop mem keys values 0 recv (replicate (Z.to_nat num_shards) 0).

Definition callback (p : Client.process) (w : allshards) (cb : list Z * Z * Z) : Client.process :=
  let '(keys, values, async_req_id) := cb in
  if RPC_DEBUG then
    Client.with_memory p
      (gather (Client.memory_ p) (num_shards_ w) keys values
         ((fun r => r !!! Z.to_nat async_req_id) <$> partitioned_recv_buffer_ w))
  else p.

(** From shard [i] on; [ids] are the rpc ids of these shards. *)
Fixpoint query_loop (p : Client.process) (w : allshards) (rpc_id : Z) (clients : list Client.client)
    (n : nat) (ids : list Z) : outcome (Client.process * bool) :=
  match n with
  | O => Ret (p, true)
  | S n' =>
      shard_rpc_id ← deref (head ids);
      if u64 shard_rpc_id =? MAGIC_RPC_ID_FOR_EMPTY_REQUEST then
        query_loop p w rpc_id (tail clients) n' (tail ids)
      else
        c ← deref (head clients);
        b ← Client.QueryRPCFinished p c shard_rpc_id;
        if b : bool then
          cb ← deref (batchRpcId2CbMap_ w !! u64 rpc_id);
          query_loop (callback p w cb) w rpc_id (tail clients) n' (tail ids)
        else Ret (p, false)
  end.

Definition QueryRPCFinished (p : Client.process) (w : allshards) (rpc_id : Z) : outcome (Client.process * bool) :=
  query_loop p w rpc_id (clients_ w) (Z.to_nat (num_shards_ w))
    (default [] (batchRpcId2RpcListMap_ w !! u64 rpc_id)).

(** [memories] is what the polls of a shard see. *)
Fixpoint wait_all (p : Client.process) (clients : list Client.client) (n : nat) (ids : list Z)
    (memories : list (list (gmap Z Z))) : outcome Client.process :=
  match n with
  | O => Ret p
  | S n' =>
      shard_rpc_id ← deref (head ids);
      if u64 shard_rpc_id =? MAGIC_RPC_ID_FOR_EMPTY_REQUEST then
        wait_all p (tail clients) n' (tail ids) (tail memories)
      else
        c ← deref (head clients);
        p ← Client.WaitRPCFinish p c shard_rpc_id (default [] (head memories));
        wait_all p (tail clients) n' (tail ids) (tail memories)
  end.

Definition WaitRPCFinish (p : Client.process) (w : allshards) (rpc_id : Z) (memories : list (list (gmap Z Z))) :
    outcome Client.process :=
  wait_all p (clients_ w) (Z.to_nat (num_shards_ w)) (default [] (batchRpcId2RpcListMap_ w !! u64 rpc_id)) memories.

Fixpoint revoke_loop (clients : list Client.client) (ids : list Z) : list Client.client :=
  match clients, ids with
  | c :: clients', id :: ids' =>
      (if u64 id =? MAGIC_RPC_ID_FOR_EMPTY_REQUEST then c else Client.RevokeRPCResource c id)
      :: revoke_loop clients' ids'
  | _, _ => clients
  end.

Definition RevokeRPCResource (w : allshards) (rpc_id : Z) : outcome allshards :=
  let ids := default [] (batchRpcId2RpcListMap_ w !! u64 rpc_id) in
  if (Z.to_nat (num_shards_ w) <=? length ids)%nat then
    Ret {| clients_ := revoke_loop (clients_ w) (take (Z.to_nat (num_shards_ w)) ids);
           batchRpcId2RpcListMap_ := delete (u64 rpc_id) (batchRpcId2RpcListMap_ w);
           batchRpcId2CbMap_ := delete (u64 rpc_id) (batchRpcId2CbMap_ w);
           num_shards_ := num_shards_ w; batchRpcIDAcc_ := batchRpcIDAcc_ w;
           partitioned_recv_buffer_ := partitioned_recv_buffer_ w |}
  else Err Undefined.
End AllShards.
End AllShards.
