(* ===== verification/Memcached.v ===== *)
(** * The memcached connection of XPostoffice (src/ps/Postoffice.cc)

    [trim], the reading of memcached.conf, and the two retry loops.  libmemcached
    is a parameter: a call either fails or, as documented, a set stores the value
    and a get returns a malloc'ed, NUL-terminated copy of it.  Strings are lists of
    bytes.  The theorems: what [trim] removes, that a get which is tried until it
    succeeds gives what a set has stored, up to the first NUL, and that the loops
    end as soon as one call succeeds. *)

From stdpp Require Import base numbers list gmap.
From Stdlib Require Import ZArith Lia.
From S2P Require Import Prelude.

Module Memcached.

Definition space : Z := 32.

(** [find_first_not_of(" ")] and [find_last_not_of(" ")]; [None]: npos. *)
Fixpoint find_first_not_of (s : list Z) : option nat :=
  match s with
  | [] => None
  | c :: s' => if c =? space then S <$> find_first_not_of s' else Some 0%nat
  end.

Fixpoint find_last_not_of (s : list Z) : option nat :=
  match s with
  | [] => None
  | c :: s' => match find_last_not_of s' with
               | Some i => Some (S i)
               | None => if c =? space then None else Some 0%nat
               end
  end.

(** [erase(0, n)] removes [n] characters, or all if [n] is npos; [npos + 1] is
    0, from which on everything is erased. *)
Definition trim (s : list Z) : list Z :=
  match s with
  | [] => []
  | _ =>
      let res := match find_first_not_of s with Some n => drop n s | None => [] end in
      match find_last_not_of res with
      | Some n => take (S n) res
      | None => []
      end
  end.

(** [ConnectMemcached]: the first two lines of memcached.conf ([None]: the file
    cannot be opened; a missing line is empty); [stoi] throws if it finds no
    number. *)
Definition ConnectMemcached (conf : option (list (list Z))) (stoi : list Z -> option Z) : outcome (list Z * Z) :=
  match conf with
  | None => Err LogFatal
  | Some lines =>
      let addr := default [] (lines !! 0%nat) in
      let port := default [] (lines !! 1%nat) in
      match stoi (trim port) with
      | Some p => Ret (trim addr, p)
      | None => Err CheckFailed
      end
  end.

(** [std::string(res)] of a NUL-terminated copy. *)
Fixpoint c_str (bytes : list Z) : list Z :=
  match bytes with
  | [] => []
  | c :: bytes' => if c =? 0 then [] else c :: c_str bytes'
  end.

(** The calls of [memcached_get], in order: the bytes, or a failure. *)
Fixpoint MemCachedGet (answers : list (option (list Z))) : outcome (list Z) :=
  match answers with
  | [] => Err Diverges
  | Some bytes :: _ => Ret (c_str bytes)
  | None :: answers' => MemCachedGet answers'
  end.

(** The calls of [memcached_set]: [true] is MEMCACHED_SUCCESS.  [store] is the
    content of the server. *)
Fixpoint MemCachedSet (store : gmap (list Z) (list Z)) (key value : list Z) (rcs : list bool) : outcome (gmap (list Z) (list Z)) :=
  match rcs with
  | [] => Err Diverges
  | true :: _ => Ret (<[key := value]> store)
  | false :: rcs' => MemCachedSet store key value rcs'
  end.
End Memcached.

Import Memcached.

Lemma first_not_of s :
  match find_first_not_of s with
  | Some n => Forall (fun c => c = space) (take n s) /\ (exists c, s !! n = Some c /\ c <> space)
  | None => Forall (fun c => c = space) s
  end.
Proof.
  induction s as [|c s IH]; cbn [find_first_not_of]; [by constructor|]. destruct (c =? space) eqn:E; b2p.
  - destruct (find_first_not_of s) as [n|]; cbn; [|by constructor]. destruct IH. split; [by constructor|done].
  - split; [by constructor|]. by exists c.
Qed.

Lemma last_not_of s :
  match find_last_not_of s with
  | Some n => Forall (fun c => c = space) (drop (S n) s) /\ (exists c, s !! n = Some c /\ c <> space)
  | None => Forall (fun c => c = space) s
  end.
Proof.
  induction s as [|c s IH]; cbn [find_last_not_of]; [by constructor|]. destruct (find_last_not_of s) as [n|]; [exact IH|].
  destruct (c =? space) eqn:E; b2p; [by constructor|]. split; [exact IH|by exists c].
Qed.

Lemma last_of_first s n c : s !! n = Some c -> c <> space -> find_last_not_of (drop n s) <> None.
Proof.
  intros Hn Hc E. pose proof (last_not_of (drop n s)) as H. rewrite E in H.
  apply (Forall_lookup_1 _ _ 0%nat c) in H; [done|]. by rewrite lookup_drop, Nat.add_0_r.
Qed.

(** [trim] removes exactly the spaces at both ends. *)
Theorem trim_spaces s :
  exists l r, s = l ++ trim s ++ r /\ Forall (fun c => c = space) l /\ Forall (fun c => c = space) r /\
    (forall c, head (trim s) = Some c -> c <> space) /\ (forall c, last (trim s) = Some c -> c <> space).
Proof.
  destruct s as [|c0 s0]; [by exists [], []|]. unfold trim. set (s := c0 :: s0). cbv zeta.
  pose proof (first_not_of s) as Hf. destruct (find_first_not_of s) as [n|]; cycle 1.
  { exists s, []. cbn. by rewrite app_nil_r. }
  destruct Hf as (Hl & c & Hc & Hns). set (res := drop n s).
  pose proof (last_not_of res) as Hr. destruct (find_last_not_of res) as [k|] eqn:Ek; cycle 1.
  { by destruct (last_of_first s n c Hc Hns). }
  destruct Hr as (Hr & d & Hd & Hds). exists (take n s), (drop (S k) res).
  rewrite take_drop. unfold res at 1. rewrite take_drop. split_and!; try done.
  - intros x Hx. rewrite head_lookup, lookup_take_lt in Hx by lia. unfold res in Hx.
    rewrite lookup_drop, Nat.add_0_r in Hx. congruence.
  - intros x Hx. rewrite (take_S_r _ _ _ Hd), last_snoc in Hx. congruence.
Qed.

Lemma c_str_id bytes : 0 ∉ bytes -> c_str bytes = bytes.
Proof.
  induction bytes as [|c bytes IH]; intros H; [done|]. apply not_elem_of_cons in H as [Hc H]. cbn.
  rewrite (proj2 (Z.eqb_neq _ _)) by done. by rewrite IH.
Qed.

(** What [memcached_get] answers on a server with [store]: [false] are the calls
    that fail. *)
Definition answers (store : gmap (list Z) (list Z)) (key : list Z) (rcs : list bool) : list (option (list Z)) :=
  (fun rc : bool => if rc then store !! key else None) <$> rcs.

Lemma MemCachedSet_stores store key value rcs :
  true ∈ rcs -> MemCachedSet store key value rcs = Ret (<[key := value]> store).
Proof.
  induction rcs as [|[] rcs IH]; intros H; [by apply elem_of_nil in H|done|]. apply IH. set_solver.
Qed.

Lemma MemCachedGet_answers store key value rcs :
  store !! key = Some value -> true ∈ rcs -> MemCachedGet (answers store key rcs) = Ret (c_str value).
Proof.
  intros Hk. induction rcs as [|[] rcs IH]; intros H; [by apply elem_of_nil in H| |].
  - cbn. by rewrite Hk.
  - apply IH. set_solver.
Qed.

(** A process that sets a key and one that polls for it: if some call of each
    succeeds, the second receives the value of the first, up to its first NUL. *)
Theorem MemCached_roundtrip store key value rcs rcs' :
  true ∈ rcs -> true ∈ rcs' ->
  exists store', MemCachedSet store key value rcs = Ret store' /\
    MemCachedGet (answers store' key rcs') = Ret (c_str value) /\ (0 ∉ value -> c_str value = value).
Proof.
  intros H1 H2. exists (<[key := value]> store). split; [by apply MemCachedSet_stores|].
  split; [apply MemCachedGet_answers; [apply lookup_insert_eq|done]|apply c_str_id].
Qed.

Lemma MemCached_roundtrip_witness :
  exists store', MemCachedSet ∅ [107] [49; 50] [false; true] = Ret store' /\
    MemCachedGet (answers store' [107] [false; false; true]) = Ret [49; 50].
Proof.
  destruct (MemCached_roundtrip ∅ [107] [49; 50] [false; true] [false; false; true]) as (store' & H1 & H2 & _);
    [set_solver|set_solver|]. exists store'. split; [exact H1|exact H2].
Defined.

(** The bytes behind a NUL are lost. *)
Theorem MemCached_truncates : MemCachedGet [None; Some [49; 0; 50]] = Ret [49].
Proof. reflexivity. Qed.
