(* ===== verification/PsSpec.v ===== *)
(** * The parameter server: what a request gets

    The theorems on src/ps: a GET of a client, served by a server thread, ends
    with the values of its keys in the buffer of the client; the client of all
    servers puts the answers of the shards in the order of the keys.  [deliver]
    is what a call of the RDMA library does to the memory of the client; the
    hypotheses say that a write copies its buffer, and a gathered write its
    buffers one after the other.  DsmSpec.v shows what the library does. *)

From stdpp Require Import base numbers list gmap.
From Stdlib Require Import ZArith Lia.
From S2P Require Import Prelude ShmCommon SimpleMalloc MallocApi PetKV PetKVSpec PetKVProps Epoch Array Engines.
From S2P Require Import EnginesSpec Ps.

(** ** The engine seen from the server

    [kv_holds] is the map that the engine stores, [kv_room kv size keys] says
    that it can take values of [size] bytes for the new keys [keys]. *)

Class BaseKVLaws (K : Type) `{!BaseKV K} := {
  kv_holds : K -> gmap Z (list Z) -> Prop;
  kv_room : K -> Z -> list Z -> Prop;
  kv_room_perm kv size l l' : l ≡ₚ l' -> kv_room kv size l -> kv_room kv size l';
  kv_Get_law kv C key tid : kv_holds kv C -> kv_Get kv key [] tid = Ret (default [] (C !! key));
  kv_Put_law kv C key value tid keys :
    kv_holds kv C -> 0 <= key < 2 ^ 64 -> kv_room kv (Z.of_nat (length value)) (key :: keys) -> C !! key = None ->
    exists kv', kv_Put kv key value tid = Ret kv' /\ kv_holds kv' (<[key := value]> C) /\
      kv_room kv' (Z.of_nat (length value)) keys;
  kv_BatchGet_law kv C keys tid : kv_holds kv C ->
    exists vs, kv_BatchGet kv keys tid = Ret vs /\
      Forall2 (fun k a => kv_binary_data kv a = default [] (C !! k)) keys vs
}.

Lemma CHECK_leb a b : a <= b -> CHECK (a <=? b) = Ret tt.
Proof. intros H. unfold CHECK. by rewrite (proj2 (Z.leb_le a b) H). Qed.

(** ** Messages *)

Lemma decode_encode (keys : list Z) :
  Forall (fun k => 0 <= k < 2 ^ 64) keys -> decode (length keys) (encode 8 keys) = keys.
Proof.
  induction 1 as [|k keys Hk _ IH]; [done|]. cbn [length decode encode fmap list_fmap concat].
  rewrite take_app_length', drop_app_length' by (by rewrite le_bytes_length).
  fold (encode 8 keys). rewrite IH, le_value_bytes; [done|]. change (256 ^ Z.of_nat 8) with (2 ^ 64). lia.
Qed.

Lemma kv_count_encode m (keys : list Z) :
  extra_data m = encode 8 keys -> kv_count m = Z.of_nat (length keys).
Proof.
  intros E. unfold kv_count. rewrite E, encode_length, Nat2Z.inj_mul, Z.mul_comm. by apply Z.div_mul.
Qed.

Lemma message_keys_encode m (keys : list Z) :
  extra_data m = encode 8 keys -> Forall (fun k => 0 <= k < 2 ^ 64) keys -> message_keys m = keys.
Proof.
  intros E Hk. unfold message_keys. rewrite (kv_count_encode m keys E), Nat2Z.id, E. by apply decode_encode.
Qed.

(** ** Protection of a service thread *)

Section Protection.
Context (GetHash : Z -> Z).

(** The slot of a thread is in the table. *)
Definition slots_ok (g : Epoch.manager) : Prop :=
  forall t k, Epoch.thread_local_entry g !! t = Some k -> (k < length (Epoch.table_ g))%nat.

Lemma reserve_loop_lt n i start (t : list Epoch.Entry) k :
  Epoch.reserve_loop n i start t = Some k -> (k < length t)%nat.
Proof.
  revert i. induction n as [|n IH]; intros i H; cbn in H; [done|].
  destruct (t !! _) as [e|] eqn:E; [|done]. destruct (_ =? 0); [|by eapply IH].
  simplify_eq. by apply lookup_lt_Some in E.
Qed.

Lemma GetEntry_slot g self g' k :
  slots_ok g -> Epoch.GetEntryForThread GetHash g self = Ret (g', k) ->
  Epoch.thread_local_entry g' !! self = Some k /\ (k < length (Epoch.table_ g'))%nat /\
  (Epoch.epoch_list_ <$> Epoch.table_ g') = (Epoch.epoch_list_ <$> Epoch.table_ g).
Proof.
  intros Hg. unfold Epoch.GetEntryForThread, Epoch.ReserveEntry.
  destruct (Epoch.thread_local_entry g !! self) as [k0|] eqn:E.
  - intros [= <- <-]. split_and!; [done|by eapply Hg|done].
  - destruct (Epoch.reserve_loop _ _ _ _) as [k0|] eqn:ER; [|done]. intros [= <- <-]. cbn.
    split_and!; [by rewrite lookup_insert_eq|rewrite length_alter; by eapply reserve_loop_lt|].
    apply list_eq. intros i. rewrite !list_lookup_fmap. destruct (decide (i = k0)) as [->|].
    + rewrite list_lookup_alter_eq. by destruct (Epoch.table_ g !! k0).
    + by rewrite list_lookup_alter_ne.
Qed.

(** A thread that has protected itself can unprotect itself; if it had no
    other protection under way, the table is as before. *)
Lemma Protect_UnProtect g self g1 :
  slots_ok g -> Epoch.Protect GetHash g self = Ret g1 ->
  exists g2 k, Epoch.UnProtect GetHash g1 self = Ret g2 /\ Epoch.thread_local_entry g2 !! self = Some k /\
    (k < length (Epoch.table_ g))%nat /\
    ((Epoch.epoch_list_ <$> Epoch.table_ g) !! k = Some [] ->
     Epoch.epoch_list_ <$> Epoch.table_ g2 = Epoch.epoch_list_ <$> Epoch.table_ g).
Proof.
  intros Hg HP. unfold Epoch.Protect, Epoch.EnqueProtect in HP. inv_tuple.
  match goal with H : Epoch.GetEntryForThread _ _ _ = Ret (?m, ?n) |- _ => rename m into g0, n into k, H into HE end.
  destruct (GetEntry_slot g self g0 k Hg HE) as (Hk & Hlt & Hl).
  destruct (lookup_lt_is_Some_2 _ _ Hlt) as [e He].
  unfold Epoch.UnProtect, Epoch.PopUnprotect, Epoch.GetEntryForThread.
  cbn [Epoch.with_table Epoch.thread_local_entry Epoch.table_]. rewrite Hk. cbn [mbind outcome_bind Epoch.table_ Epoch.with_table].
  rewrite list_lookup_alter_eq, He. cbn [fmap option_fmap option_map deref mbind outcome_bind].
  unfold Epoch.DequeUnProtect. cbn [Epoch.entry_EnqueProtect Epoch.epoch_list_].
  destruct (Epoch.epoch_list_ e ++ [Epoch.current_epoch_ g]) as [|x l] eqn:El.
  { by destruct (Epoch.epoch_list_ e). }
  cbn [mbind outcome_bind]. eexists _, k. split; [done|]. split; [done|].
  split; [rewrite <- (length_fmap Epoch.epoch_list_ (Epoch.table_ g)), <- Hl, length_fmap; exact Hlt|]. intros H0.
  rewrite <- Hl in H0 |- *. rewrite list_lookup_fmap, He in H0. cbn in H0. simplify_eq. rewrite H0 in El.
  cbn in El. simplify_eq. cbn [Epoch.with_table Epoch.table_]. apply list_eq. intros i. rewrite !list_lookup_fmap.
  destruct (decide (i = k)) as [->|Hne].
  - rewrite list_lookup_insert_eq by (by rewrite length_alter). rewrite He. cbn. by rewrite H0.
  - by rewrite list_lookup_insert_ne, list_lookup_alter_ne.
Qed.
End Protection.

(** ** Buffers of values of one size *)

Lemma concat_same_length (bss : list (list Z)) vs :
  Forall (fun b => length b = vs) bss -> length (concat bss) = (vs * length bss)%nat.
Proof. induction 1 as [|b bss Hb _ IH]; cbn; [lia|]. rewrite length_app, Hb, IH. lia. Qed.

Lemma read_concat mem a vs (bss : list (list Z)) i b :
  0 <= vs -> Forall (fun b => Z.of_nat (length b) = vs) bss ->
  read_bytes mem a (vs * Z.of_nat (length bss)) = concat bss -> bss !! i = Some b ->
  read_bytes mem (a + Z.of_nat i * vs) vs = b.
Proof.
  intros Hvs HF. revert a i. induction HF as [|b0 bss Hb _ IH]; intros a i Hr Hi; [done|].
  replace (vs * Z.of_nat (length (b0 :: bss))) with (vs + vs * Z.of_nat (length bss)) in Hr by (cbn [length]; lia).
  rewrite read_bytes_split in Hr by lia. cbn [concat] in Hr.
  apply app_inj_1 in Hr as [H1 H2]; [|rewrite read_bytes_length; lia].
  destruct i as [|i]; cbn in Hi.
  - simplify_eq. change (Z.of_nat 0) with 0. by rewrite Z.mul_0_l, Z.add_0_r.
  - replace (a + Z.of_nat (S i) * vs) with (a + vs + Z.of_nat i * vs) by lia. by apply IH.
Qed.

(** The last [k] bytes of a region. *)
Lemma read_tail mem a n k bs :
  0 <= k <= n -> read_bytes mem a n = bs -> read_bytes mem (a + n - k) k = drop (Z.to_nat (n - k)) bs.
Proof.
  intros Hk Hr. replace n with ((n - k) + k) in Hr by lia. rewrite read_bytes_split in Hr by lia. subst bs.
  rewrite drop_app_length' by (rewrite read_bytes_length; lia). f_equal. lia.
Qed.

(** ** GET of one server *)

Section Get.
Context {K : Type} `{!BaseKV K, !BaseKVLaws K}.
Context (GetHash : Z -> Z) (max_kv : Z) (use_sglist : bool).

(** What a call of the RDMA library leaves in the memory of the client. *)
Context (deliver : dsm_op -> gmap Z Z -> gmap Z Z).

(** A write copies its buffer; a gathered write its buffers, in order. *)
Definition copies : Prop :=
  (forall gaddr buf wr mem, deliver (rdma_write gaddr buf wr) mem = write_bytes mem gaddr buf) /\
  (forall gaddr l wr mem, deliver (write_from_pm_vec gaddr l wr) mem = write_bytes mem gaddr (concat l)).

Definition values_of (C : gmap Z (list Z)) (keys : list Z) : list (list Z) :=
  (fun k => default [] (C !! k)) <$> keys.

(** The service thread [tid], of the system thread [self], can serve. *)
Definition serving (s : Server.server K) (self tid : Z) : Prop :=
  slots_ok (Server.epoch_manager_ s) /\ is_Some (Server.tp s !! Z.to_nat tid) /\
  exists g, Epoch.Protect GetHash (Server.epoch_manager_ s) self = Ret g.

Lemma RpcPsGet_run s self tid recv keys C :
  kv_holds (Server.base_kv_ s) C -> serving s self tid ->
  extra_data recv = encode 8 keys -> Forall (fun k => 0 <= k < 2 ^ 64) keys ->
  Z.of_nat (length keys) <= max_kv ->
  exists s', Server.RpcPsGet GetHash max_kv use_sglist s self tid recv =
      Ret (s', if use_sglist then write_from_pm_vec (receive_gaddr recv) (values_of C keys) WR_ID_SG_GET
               else rdma_write (receive_gaddr recv) (concat (values_of C keys)) WR_ID_GET) /\
    Server.base_kv_ s' = Server.base_kv_ s /\
    Server.tp s' !! Z.to_nat tid =
      (fun n => u64 (n + Z.of_nat (length keys))) <$> Server.tp s !! Z.to_nat tid.
Proof.
  intros HC (Hg & [n Hn] & g & HP) He Hk Hm. unfold Server.RpcPsGet. rewrite HP, Hn. cbn [mbind outcome_bind deref].
  rewrite (kv_count_encode _ _ He), (message_keys_encode _ _ He Hk). rewrite CHECK_leb by done.
  cbn [mbind outcome_bind]. destruct (kv_BatchGet_law _ _ keys tid HC) as (vs & Hb & HF). rewrite Hb.
  cbn [mbind outcome_bind]. rewrite <- (Forall2_length _ _ _ HF), Z.eqb_refl.
  cbn [CHECK mbind outcome_bind].
  destruct (Protect_UnProtect _ _ _ _ Hg HP) as (g2 & k & HU & _). rewrite HU. cbn [mbind outcome_bind].
  assert (Hd : kv_binary_data (Server.base_kv_ s) <$> vs = values_of C keys).
  { unfold values_of. clear -HF. induction HF as [|k a ks vs Ha _ IH]; [done|]. cbn [fmap list_fmap]. by rewrite Ha, IH. }
  rewrite Hd. eexists. split; [done|]. cbn [Server.base_kv_ Server.tp]. split; [done|].
  rewrite list_lookup_insert_eq by (by eapply lookup_lt_Some). done.
Qed.

(** A service thread answers a GET: with a message of at most
    max_kv_num_per_request keys, it writes to the buffer of the client the
    values of the keys one after the other, in the order of the message, with
    and without a gather list; the engine is as before, and the throughput
    counter of the thread advances by the number of keys. *)
Lemma RpcPsGet_delivers s self tid recv keys C :
  copies -> kv_holds (Server.base_kv_ s) C -> serving s self tid ->
  extra_data recv = encode 8 keys -> Forall (fun k => 0 <= k < 2 ^ 64) keys ->
  Z.of_nat (length keys) <= max_kv ->
  exists s' op, Server.RpcPsGet GetHash max_kv use_sglist s self tid recv = Ret (s', op) /\
    (forall mem, deliver op mem = write_bytes mem (receive_gaddr recv) (concat (values_of C keys))) /\
    Server.base_kv_ s' = Server.base_kv_ s /\
    Server.tp s' !! Z.to_nat tid =
      (fun n => u64 (n + Z.of_nat (length keys))) <$> Server.tp s !! Z.to_nat tid.
Proof.
  intros [D1 D2] HC Hs He Hk Hm. destruct (RpcPsGet_run s self tid recv keys C HC Hs He Hk Hm) as (s' & HR & Hkv & Htp).
  eexists s', _. split; [exact HR|]. split; [|done]. intros mem. destruct use_sglist; [apply D2|apply D1].
Qed.

(** No thread is protected. *)
Definition idle (g : Epoch.manager) : Prop := Forall (fun e => Epoch.epoch_list_ e = []) (Epoch.table_ g).

Lemma UnProtect_idle g self k :
  idle g -> Epoch.thread_local_entry g !! self = Some k -> (k < length (Epoch.table_ g))%nat ->
  Epoch.UnProtect GetHash g self = Err Undefined.
Proof.
  intros Hi Hk Hlt. destruct (lookup_lt_is_Some_2 _ _ Hlt) as [e He].
  unfold Epoch.UnProtect, Epoch.PopUnprotect, Epoch.GetEntryForThread. rewrite Hk. cbn [mbind outcome_bind].
  rewrite He. cbn [mbind outcome_bind deref]. unfold Epoch.DequeUnProtect. by rewrite (Forall_lookup_1 _ _ _ _ Hi He).
Qed.

Lemma Protect_UnProtect_idle g self g1 g2 :
  slots_ok g -> idle g -> Epoch.Protect GetHash g self = Ret g1 -> Epoch.UnProtect GetHash g1 self = Ret g2 ->
  Epoch.UnProtect GetHash g2 self = Err Undefined.
Proof.
  intros Hg Hi HP HU. destruct (Protect_UnProtect _ _ _ _ Hg HP) as (g2' & k & HU' & Hk & Hlt & Hl).
  rewrite HU in HU'. simplify_eq. destruct (lookup_lt_is_Some_2 _ _ Hlt) as [e He].
  assert (H0 : (Epoch.epoch_list_ <$> Epoch.table_ g) !! k = Some []).
  { rewrite list_lookup_fmap, He. cbn. by rewrite (Forall_lookup_1 _ _ _ _ Hi He). }
  specialize (Hl H0) as Heq.
  apply (UnProtect_idle _ _ k); [|done|].
  - apply (Forall_fmap Epoch.epoch_list_ (fun l => l = [])). rewrite Heq. by apply Forall_fmap.
  - by rewrite <- (length_fmap Epoch.epoch_list_), Heq, length_fmap.
Qed.

(** With a gather list the service thread leaves its protection twice:
    RpcPsGet unprotects before it posts the write, and the polling loop
    unprotects again when the write completes, which pops an empty deque. *)
Theorem sglist_completion_unprotects_twice s self tid recv s' op GetString :
  slots_ok (Server.epoch_manager_ s) -> idle (Server.epoch_manager_ s) ->
  Server.RpcPsGet GetHash max_kv use_sglist s self tid recv = Ret (s', op) ->
  Server.poll_step GetHash max_kv use_sglist s' self tid GetString (Server.Completion WR_ID_SG_GET) = Err Undefined.
Proof.
  intros Hg Hi HR. unfold Server.RpcPsGet in HR. inv_tuple. cbn [Server.poll_step Server.epoch_manager_].
  rewrite Z.eqb_refl. by erewrite Protect_UnProtect_idle.
Qed.

(** *** The client's side *)

Context (vs : Z).

Lemma GetParameter_sends p c keys values t :
  Client.serverThreadIdsRoutedTo_ c !! Z.to_nat (Client.round_robin p) = Some t ->
  let poll := values + i32 (Z.of_nat (length keys) * vs) - 4 in
  exists p1 c1 m, Client.GetParameter vs p c keys values true [] = Ret (p1, c1, m, t, i32 (Client.rpcIDAcc_ c)) /\
    m_type m = GET /\ receive_gaddr m = values /\ extra_data m = encode 8 keys /\
    Client.memory_ p1 = write_bytes (Client.memory_ p) poll (le_bytes 4 FINISH_MAGIC) /\
    Client.rpcId2PollMap_ c1 !! Client.rpcIDAcc_ c = Some poll /\
    Client.round_robin p1 = (Client.round_robin p + 1) mod Z.of_nat (length (Client.serverThreadIdsRoutedTo_ c)).
Proof.
  intros Ht. cbn zeta. unfold Client.GetParameter, Client.send, Client.SelectServerThreadID.
  cbn [Client.serverThreadIdsRoutedTo_ Client.with_memory Client.round_robin]. rewrite Ht.
  cbn [mbind outcome_bind deref]. eexists _, _, _. split; [done|]. split_and!; try done. cbn. by rewrite lookup_insert_eq.
Qed.

Lemma query_at p c id poll :
  0 <= id < 2 ^ 31 -> Client.rpcId2PollMap_ c !! id = Some poll ->
  Client.QueryRPCFinished p c (i32 id) = Ret (negb (Client.poll_word (Client.memory_ p) poll =? FINISH_MAGIC)).
Proof.
  intros Hid Hp. unfold Client.QueryRPCFinished. rewrite i32_small, u64_small by lia. by rewrite Hp.
Qed.

Lemma poll_word_magic mem poll :
  Client.poll_word (write_bytes mem poll (le_bytes 4 FINISH_MAGIC)) poll = FINISH_MAGIC.
Proof.
  unfold Client.poll_word. change 4 with (Z.of_nat (length (le_bytes 4 FINISH_MAGIC))).
  rewrite read_write_same. done.
Qed.

(** Polls that see the memory without the answer do not end the wait; the
    first that sees another word does. *)
Lemma wait_loop_ends p poll mems mem :
  Forall (fun m => Client.poll_word m poll = FINISH_MAGIC) mems -> Client.poll_word mem poll <> FINISH_MAGIC ->
  Client.wait_loop p poll (mems ++ [mem]) = Ret (Client.with_memory p mem).
Proof.
  intros HF Hm. revert p. induction HF as [|m mems H _ IH]; intros p; cbn [app Client.wait_loop].
  - by rewrite (proj2 (Z.eqb_neq _ _) Hm).
  - by rewrite H, Z.eqb_refl, IH.
Qed.

(** The answer of a request for keys that the engine holds, with values of
    [vs] bytes. *)
Definition answered (C : gmap Z (list Z)) (keys : list Z) : Prop :=
  Forall (fun k => exists v, C !! k = Some v /\ Z.of_nat (length v) = vs) keys.

Lemma answered_length C keys :
  0 <= vs -> answered C keys -> Z.of_nat (length (concat (values_of C keys))) = Z.of_nat (length keys) * vs.
Proof.
  intros Hvs. induction 1 as [|k keys (v & Hv & Hl) _ IH]; [done|]. cbn [values_of fmap list_fmap concat length].
  rewrite length_app, Nat2Z.inj_add. fold (values_of C keys). rewrite IH, Hv. cbn [from_option id].
  rewrite Nat2Z.inj_succ, Z.mul_succ_l. unfold id. lia.
Qed.

Lemma answered_sizes C keys : answered C keys -> Forall (fun b => Z.of_nat (length b) = vs) (values_of C keys).
Proof. induction 1 as [|k keys (v & Hv & Hl) _ IH]; constructor; [by rewrite Hv|done]. Qed.

(** A GET end to end: the client sends the request, a thread of the server
    answers it, the answer is delivered.  Before the delivery the request is
    not finished.  After it the value of the i-th key is at offset i *
    value_size of the buffer, and the request is finished if the last word of
    the last value is not FINISH_MAGIC (it is not finished if it is); a wait
    whose polls see the memory before and then after the delivery returns. *)
Theorem GetParameter_end_to_end p c keys values t s self C n :
  copies -> kv_holds (Server.base_kv_ s) C -> serving s self t ->
  Client.serverThreadIdsRoutedTo_ c !! Z.to_nat (Client.round_robin p) = Some t ->
  0 <= Client.rpcIDAcc_ c < 2 ^ 31 -> 4 <= vs -> keys <> [] ->
  Z.of_nat (length keys) * vs < 2 ^ 31 -> Z.of_nat (length keys) <= max_kv ->
  Forall (fun k => 0 <= k < 2 ^ 64) keys -> answered C keys ->
  exists p1 c1 m id s' op,
    Client.GetParameter vs p c keys values true [] = Ret (p1, c1, m, t, id) /\
    Client.QueryRPCFinished p1 c1 id = Ret false /\
    Server.RpcPsGet GetHash max_kv use_sglist s self t m = Ret (s', op) /\
    let p2 := Client.with_memory p1 (deliver op (Client.memory_ p1)) in
    let last_word := le_value (drop (Z.to_nat (Z.of_nat (length keys) * vs - 4)) (concat (values_of C keys))) in
    (forall i k v, keys !! i = Some k -> C !! k = Some v ->
       read_bytes (Client.memory_ p2) (values + Z.of_nat i * vs) vs = v) /\
    Client.QueryRPCFinished p2 c1 id = Ret (negb (last_word =? FINISH_MAGIC)) /\
    (last_word <> FINISH_MAGIC ->
     Client.WaitRPCFinish p1 c1 id (replicate n (Client.memory_ p1) ++ [Client.memory_ p2]) = Ret p2).
Proof.
  intros HD HC Hs Ht Hid Hvs Hne Hlen Hmax Hk HA.
  destruct (GetParameter_sends p c keys values t Ht) as (p1 & c1 & m & HG & _ & Hga & He & Hm1 & Hpoll & _).
  destruct (RpcPsGet_delivers s self t m keys C HD HC Hs He Hk Hmax) as (s' & op & HR & Hop & _).
  pose proof (answered_length C keys ltac:(lia) HA) as Hl.
  assert (0 < Z.of_nat (length keys)) by (destruct keys; [done|cbn; lia]).
  rewrite i32_small in Hpoll, Hm1 by nia. set (N := Z.of_nat (length keys) * vs) in *.
  assert (4 <= N) by (unfold N; nia).
  exists p1, c1, m, (i32 (Client.rpcIDAcc_ c)), s', op. split; [done|].
  split; [rewrite (query_at p1 c1 _ _ Hid Hpoll), Hm1, poll_word_magic; done|]. split; [done|]. cbn zeta.
  rewrite Hop, Hga. set (mem2 := write_bytes _ values _).
  assert (Hr : read_bytes mem2 values N = concat (values_of C keys)).
  { unfold mem2. rewrite <- Hl. apply read_write_same. }
  assert (Hw : Client.poll_word mem2 (values + N - 4) =
               le_value (drop (Z.to_nat (N - 4)) (concat (values_of C keys)))).
  { unfold Client.poll_word. f_equal. apply (read_tail mem2 values N 4); [lia|done]. }
  split_and!.
  - intros i k v Hi Hv. cbn [Client.memory_ Client.with_memory].
    apply (read_concat mem2 values vs (values_of C keys)); [lia|by apply answered_sizes| |].
    + unfold values_of at 1. by rewrite length_fmap, Z.mul_comm.
    + unfold values_of. rewrite list_lookup_fmap, Hi. cbn. by rewrite Hv.
  - rewrite (query_at _ c1 _ _ Hid Hpoll). cbn [Client.memory_ Client.with_memory]. by rewrite Hw.
  - intros Hn. unfold Client.WaitRPCFinish. rewrite i32_small, u64_small, Hpoll by lia. cbn [deref mbind outcome_bind].
    apply wait_loop_ends; [|by rewrite Hw]. apply Forall_replicate. rewrite Hm1. apply poll_word_magic.
Qed.

(** A request for no key, which the client of all servers sends to a shard
    that has none of the keys of a batch, is never finished: the answer is
    empty, and the word that is polled, in front of the buffer, keeps
    FINISH_MAGIC. *)
Theorem empty_request_never_finishes p c values t s self C :
  copies -> kv_holds (Server.base_kv_ s) C -> serving s self t -> 0 <= max_kv ->
  Client.serverThreadIdsRoutedTo_ c !! Z.to_nat (Client.round_robin p) = Some t ->
  0 <= Client.rpcIDAcc_ c < 2 ^ 31 ->
  exists p1 c1 m id s' op,
    Client.GetParameter vs p c [] values true [] = Ret (p1, c1, m, t, id) /\
    Server.RpcPsGet GetHash max_kv use_sglist s self t m = Ret (s', op) /\
    deliver op (Client.memory_ p1) = Client.memory_ p1 /\
    read_bytes (Client.memory_ p1) (values - 4) 4 = le_bytes 4 FINISH_MAGIC /\
    Client.QueryRPCFinished (Client.with_memory p1 (deliver op (Client.memory_ p1))) c1 id = Ret false.
Proof.
  intros HD HC Hs Hmax Ht Hid.
  destruct (GetParameter_sends p c [] values t Ht) as (p1 & c1 & m & HG & _ & Hga & He & Hm1 & Hpoll & _).
  destruct (RpcPsGet_delivers s self t m [] C HD HC Hs He ltac:(constructor) Hmax)
    as (s' & op & HR & Hop & _).
  cbn [length] in Hpoll, Hm1. rewrite Z.mul_0_l, (i32_small 0), Z.add_0_r in Hpoll, Hm1 by lia.
  exists p1, c1, m, (i32 (Client.rpcIDAcc_ c)), s', op. split; [done|]. split; [done|]. split; [by rewrite Hop|].
  split.
  - rewrite Hm1. change 4 with (Z.of_nat (length (le_bytes 4 FINISH_MAGIC))) at 3. apply read_write_same.
  - rewrite (query_at _ c1 _ _ Hid Hpoll). cbn [Client.memory_ Client.with_memory].
    rewrite Hop. cbn [values_of fmap list_fmap concat write_bytes]. by rewrite Hm1, poll_word_magic.
Qed.
End Get.

(** ** The client of all servers *)

Section AllShardsSpec.
Import AllShards.
Context (vs max_kv : Z) (partition : Z -> Z).
Implicit Types (w : allshards) (keys : list Z).

(** The keys of shard [s], in the order of the request. *)
Definition shard_keys (s : nat) keys : list Z := filter (fun k => Z.to_nat (partition k) = s) keys.

Lemma shard_keys_app s k1 k2 : shard_keys s (k1 ++ k2) = shard_keys s k1 ++ shard_keys s k2.
Proof. apply filter_app. Qed.

Lemma partition_loop_shard keys (buffers : list (list Z)) s :
  partition_loop partition keys buffers !! s = (fun b => b ++ shard_keys s keys) <$> buffers !! s.
Proof.
  revert buffers. induction keys as [|k keys IH]; intros buffers; cbn [partition_loop].
  - destruct (buffers !! s); cbn; [by rewrite app_nil_r|done].
  - rewrite IH. unfold shard_keys. rewrite filter_cons. destruct (decide (Z.to_nat (partition k) = s)) as [->|Hne].
    + rewrite list_lookup_alter_eq. destruct (buffers !! s); cbn; [|done]. by rewrite <- app_assoc.
    + by rewrite list_lookup_alter_ne.
Qed.

Lemma partitioned_keys_shard w keys s :
  (s < Z.to_nat (num_shards_ w))%nat -> Z.of_nat (length (shard_keys s keys)) <= 500 ->
  partitioned_keys partition w keys !! s = Some (shard_keys s keys).
Proof.
  intros Hs Hl. unfold partitioned_keys. rewrite list_lookup_fmap, partition_loop_shard, lookup_replicate_2 by done.
  cbn. by rewrite (proj2 (Z.ltb_ge _ _) Hl).
Qed.

Lemma partition_loop_length keys (buffers : list (list Z)) :
  length (partition_loop partition keys buffers) = length buffers.
Proof.
  revert buffers. induction keys as [|k keys IH]; intros buffers; cbn [partition_loop]; [done|].
  by rewrite IH, length_alter.
Qed.

Lemma partitioned_keys_length w keys :
  length (partitioned_keys partition w keys) = Z.to_nat (num_shards_ w).
Proof. unfold partitioned_keys. by rewrite length_fmap, partition_loop_length, length_replicate. Qed.

Lemma partitioned_keys_short w keys :
  Forall (fun b => Z.of_nat (length b) <= 500) (partitioned_keys partition w keys).
Proof.
  unfold partitioned_keys. apply Forall_fmap, Forall_true. intros b. cbn. destruct (500 <? _) eqn:E; [|lia].
  rewrite length_take. lia.
Qed.

(** The clients of the shards have the same number [L] of server threads. *)
Definition clients_ready (L : nat) (p : Client.process) (clients : list Client.client) : Prop :=
  0 <= Client.round_robin p < Z.of_nat L /\
  Forall (fun c => length (Client.serverThreadIdsRoutedTo_ c) = L) clients.

(** The message asks for [keys], with the answer at [a]. *)
Definition asks (m : RawMessage) keys (a : Z) : Prop :=
  m_type m = GET /\ receive_gaddr m = a /\ extra_data m = encode 8 keys.

Lemma request_loop_run L id (buffers : list (list Z)) p clients (recv : list (list Z)) :
  clients_ready L p clients -> length clients = length buffers -> length recv = length buffers ->
  Forall (fun b => Z.of_nat (length b) <= 500) buffers ->
  Forall (fun r => is_Some (r !! Z.to_nat id)) recv ->
  exists p' cs ms ids, request_loop vs p clients buffers recv id true [] = Ret (p', cs, ms, ids) /\
    length ms = length buffers /\ length ids = length buffers /\
    forall s keys r a, buffers !! s = Some keys -> recv !! s = Some r -> r !! Z.to_nat id = Some a ->
      exists m t c c', ms !! s = Some (m, t) /\ asks m keys a /\
        clients !! s = Some c /\ cs !! s = Some c' /\ t ∈ Client.serverThreadIdsRoutedTo_ c /\
        ids !! s = Some (i32 (Client.rpcIDAcc_ c)) /\
        Client.rpcId2PollMap_ c' !! Client.rpcIDAcc_ c = Some (a + i32 (Z.of_nat (length keys) * vs) - 4).
Proof.
  revert p clients recv. induction buffers as [|b buffers IH]; intros p clients recv [Hr HL] Hc Hv Hb Hi.
  { eexists p, clients, [], []. split; [done|]. split_and!; [done|done|]. intros s keys r a Hs. done. }
  destruct clients as [|c clients]; [done|]. destruct recv as [|r recv]; [done|].
  apply Forall_cons in HL as [Hlc HL], Hb as [Hlb Hb], Hi as [[a Ha] Hi].
  assert (Ht : exists t, Client.serverThreadIdsRoutedTo_ c !! Z.to_nat (Client.round_robin p) = Some t).
  { apply lookup_lt_is_Some_2. lia. }
  destruct Ht as [t Ht]. destruct (GetParameter_sends vs p c b a t Ht) as
    (p1 & c1 & m & HG & Hm1 & Hm2 & Hm3 & _ & Hpoll & Hrr).
  destruct (IH p1 clients recv) as (p' & cs & ms & ids & HR & Hl1 & Hl2 & Hms); [|cbn in *; lia..|done|done|].
  { split; [|done]. rewrite Hrr, Hlc. apply Z.mod_pos_bound. lia. }
  cbn [request_loop head tail default]. rewrite CHECK_leb by done. cbn [mbind outcome_bind head deref].
  rewrite Ha. cbn [mbind outcome_bind deref from_option]. rewrite HG. cbn [mbind outcome_bind]. rewrite HR.
  eexists _, _, _, _. split; [done|]. split_and!; [cbn; lia|cbn; lia|].
  intros [|s] keys r0 a0 Hk Hr0 Ha0; cbn in Hk, Hr0.
  - simplify_eq. exists m, t, c, c1. split_and!; try done. by eapply list_elem_of_lookup_2.
  - by eapply Hms.
Qed.

(** The client of all servers partitions a request: if no shard has more
    than 500 of the keys, the message to each shard asks for exactly the keys
    of the shard, in the order of the request, with the answer in the buffer of
    the shard. *)
Theorem AllShards_GetParameter_partitions L p w keys values req :
  clients_ready L p (clients_ w) -> Z.of_nat (length (clients_ w)) = num_shards_ w ->
  length (partitioned_recv_buffer_ w) = length (clients_ w) ->
  Forall (fun r => is_Some (r !! Z.to_nat req)) (partitioned_recv_buffer_ w) ->
  (forall s, Z.of_nat (length (shard_keys s keys)) <= 500) ->
  exists p' w' ms id, GetParameter vs partition p w keys values true req [] = Ret (p', w', ms, id) /\
    length ms = Z.to_nat (num_shards_ w) /\
    forall s r a, partitioned_recv_buffer_ w !! s = Some r -> r !! Z.to_nat req = Some a ->
      exists m t, ms !! s = Some (m, t) /\ asks m (shard_keys s keys) a.
Proof.
  intros Hr Hn Hb Hi Hk. pose proof (partitioned_keys_length w keys) as Hpl.
  destruct (request_loop_run L req (partitioned_keys partition w keys) p (clients_ w) (partitioned_recv_buffer_ w))
    as (p' & cs & ms & ids & HR & Hl1 & Hl2 & Hms); [done|lia|lia|apply partitioned_keys_short|done|].
  unfold GetParameter. rewrite HR. cbn [mbind outcome_bind]. eexists _, _, _, _. split; [done|]. split; [lia|].
  intros s r a Hs Ha. destruct (Hms s (shard_keys s keys) r a) as (m & t & c & c' & Hm & Hask & _); [|done|done|by exists m, t].
  apply partitioned_keys_shard; [|done]. apply lookup_lt_Some in Hs. lia.
Qed.

(** *** Gathering the answers *)

Context (val : Z -> list Z) (Hvs : 0 < vs) (Hval : forall k, Z.of_nat (length (val k)) = vs).

(** The buffers of the shards hold the answers for [keys]. *)
Definition answers (mem : gmap Z Z) (recv : list Z) keys : Prop :=
  forall s a, recv !! s = Some a ->
    read_bytes mem a (vs * Z.of_nat (length (shard_keys s keys))) = concat (val <$> shard_keys s keys).

(** The destination does not meet the buffers. *)
Definition apart (recv : list Z) (values : Z) keys : Prop :=
  forall s a, recv !! s = Some a ->
    sep (values, vs * Z.of_nat (length keys)) (a, vs * Z.of_nat (length (shard_keys s keys))).

Lemma concat_vals_length keys : Z.of_nat (length (concat (val <$> keys))) = vs * Z.of_nat (length keys).
Proof.
  induction keys as [|k keys IH]; cbn [fmap list_fmap concat]; [cbn; lia|].
  rewrite length_app, Nat2Z.inj_add, IH, Hval. cbn [length]. lia.
Qed.

(** The answer for the key after [pre] in the buffer of its shard. *)
Lemma answer_at mem recv pre k keys a :
  answers mem recv (pre ++ k :: keys) -> recv !! Z.to_nat (partition k) = Some a ->
  read_bytes mem (a + vs * Z.of_nat (length (shard_keys (Z.to_nat (partition k)) pre))) vs = val k.
Proof.
  intros HA Ha. specialize (HA _ _ Ha). rewrite shard_keys_app in HA. set (s := Z.to_nat (partition k)) in *.
  assert (Hk : shard_keys s (k :: keys) = k :: shard_keys s keys).
  { unfold shard_keys at 1. by rewrite filter_cons_True. }
  rewrite Hk in HA. rewrite (Z.mul_comm vs (Z.of_nat (length (shard_keys s pre)))).
  eapply read_concat; [lia| |rewrite <- HA; f_equal; by rewrite length_fmap|].
  - apply Forall_fmap, Forall_true. intros x. apply Hval.
  - rewrite fmap_app, lookup_app_r; rewrite length_fmap; [|done]. by rewrite Nat.sub_diag.
Qed.

Lemma gather_loop_spec mem recv values pre keys (offs : list Z) :
  (forall k, k ∈ pre ++ keys -> Z.to_nat (partition k) < length recv)%nat -> length offs = length recv ->
  (forall s, (s < length recv)%nat -> offs !!! s = vs * Z.of_nat (length (shard_keys s pre))) ->
  answers mem recv (pre ++ keys) -> apart recv values (pre ++ keys) ->
  read_bytes mem values (vs * Z.of_nat (length pre)) = concat (val <$> pre) ->
  read_bytes (gather_loop vs partition mem keys values (vs * Z.of_nat (length pre)) recv offs)
    values (vs * Z.of_nat (length (pre ++ keys))) = concat (val <$> (pre ++ keys)).
Proof.
  revert mem pre offs. induction keys as [|k keys IH]; intros mem pre offs Hp Ho Hoff HA Hsep Hr.
  { cbn [gather_loop]. by rewrite app_nil_r. }
  cbn [gather_loop].
  assert (Hs : (Z.to_nat (partition k) < length recv)%nat) by (apply Hp; set_solver).
  pose proof (answer_at mem recv pre k keys) as Hat.
  remember (Z.to_nat (partition k)) as s eqn:Es.
  destruct (lookup_lt_is_Some_2 _ _ Hs) as [a Ha]. rewrite (list_lookup_total_correct _ _ _ Ha), (Hoff s Hs).
  rewrite (Hat a HA Ha). set (mem' := write_bytes _ _ _).
  replace (pre ++ k :: keys) with ((pre ++ [k]) ++ keys) in * by (by rewrite <- app_assoc).
  replace (vs * Z.of_nat (length pre) + vs) with (vs * Z.of_nat (length (pre ++ [k])))
    by (rewrite length_app; cbn; lia).
  assert (Hlen : Z.of_nat (length ((pre ++ [k]) ++ keys)) = Z.of_nat (length pre) + 1 + Z.of_nat (length keys)).
  { rewrite !length_app. cbn. lia. }
  apply IH; [done|by rewrite length_alter| | |done|].
  - intros s' Hs'. rewrite shard_keys_app, length_app. unfold shard_keys at 2. rewrite filter_cons, filter_nil.
    destruct (decide (s = s')) as [Heq|Hne].
    + rewrite <- Heq, list_lookup_total_alter by lia. rewrite Hoff by done.
      rewrite (decide_True (P := s = s /\ _)) by (split; [done|lia]). rewrite decide_True by (by rewrite Es). cbn. lia.
    + rewrite list_lookup_total_alter_ne by done. rewrite Hoff by done. rewrite decide_False by (by rewrite <- Es). cbn. lia.
  - intros s' a' Ha'. rewrite <- (HA s' a' Ha'). apply read_write_sep. specialize (Hsep s' a' Ha').
    unfold sep in *. cbn [fst snd] in *. rewrite Hval. rewrite Hlen in Hsep. nia.
  - rewrite length_app, Nat2Z.inj_add, Z.mul_add_distr_l, read_bytes_split, fmap_app, concat_app by (cbn; lia). f_equal.
    + rewrite <- Hr. apply read_write_sep. unfold sep. cbn [fst snd]. lia.
    + cbn. rewrite app_nil_r, Z.mul_1_r. 
      pose proof (read_write_same mem (values + vs * Z.of_nat (length pre)) (val k)) as Hw.
      by rewrite Hval in Hw.
Qed.

(** The call-back of the client of all servers puts the answers in the order of
    the keys: if the buffer of each shard holds the values of the keys of that
    shard one after the other, then afterwards the destination holds the values
    of all keys in the order of the request. *)
Lemma gather_in_order mem recv values keys :
  (forall k, k ∈ keys -> Z.to_nat (partition k) < length recv)%nat ->
  answers mem recv keys -> apart recv values keys ->
  read_bytes (gather vs partition mem (Z.of_nat (length recv)) keys values recv) values
    (vs * Z.of_nat (length keys)) = concat (val <$> keys).
Proof.
  intros Hp HA Hs. unfold gather. rewrite Nat2Z.id.
  pose proof (gather_loop_spec mem recv values [] keys (replicate (length recv) 0)) as H.
  change (vs * Z.of_nat (length [])) with (vs * 0) in H. rewrite Z.mul_0_r in H. cbn [app] in H. apply H; try done.
  - by rewrite length_replicate.
  - intros s Hs'. rewrite lookup_total_replicate_2 by done. cbn. lia.
Qed.
End AllShardsSpec.

(** ** A server on the map engine *)

#[local] Instance map_base : BaseKV KVEngineMap.kv := {|
  kv_array := option Z * Z;
  kv_Get e key _ _ := Ret (KVEngineMap.Get config48 e key);
  kv_Put e key value _ := KVEngineMap.Put config48 e key value;
  kv_BatchGet e keys _ := Ret (KVEngineMap.BatchGet config48 e keys);
  kv_binary_data e a := match a.1 with
                        | Some p => read_bytes (Engine.memory_ e) p (4 * a.2)
                        | None => []
                        end
|}.

(** The values fit in the first pass over the value memory. *)
Definition map_room (e : KVEngineMap.kv) (size : Z) (keys : list Z) : Prop :=
  let m := Engine.shm_malloc_ e in
  size = SimpleMalloc.slab_size_ m /\
  SimpleMalloc.allocated_ m + Z.of_nat (length keys) * SimpleMalloc.slab_size_ m < SimpleMalloc.memory_size_ m.

#[local] Program Instance map_base_laws : BaseKVLaws KVEngineMap.kv := {|
  kv_holds e C := holds config48 48 e C; kv_room := map_room
|}.
Next Obligation. intros e size l l' HP. unfold map_room. by rewrite HP. Qed.
Next Obligation. intros e C key tid HC. cbn. f_equal. by eapply Get_holds. Qed.
Next Obligation.
  intros e C key value tid keys HC _ [Hsz Hroom] Hno. cbn [length] in Hroom.
  assert (0 < SimpleMalloc.slab_size_ (Engine.shm_malloc_ e)).
  { destruct HC as (D & He & _). destruct (er_simple _ _ _ _ He). lia. }
  destruct (Put_holds config48 48 config48_bits e C key value HC Hno Hsz) as (e' & HP & HC' & Hn & Hl & Hs);
    [unfold room; nia|].
  exists e'. split; [exact HP|]. split; [exact HC'|]. unfold map_room. rewrite Hn, Hl, Hs. split; [done|nia].
Qed.
Next Obligation.
  intros e C keys tid HC. eexists. split; [done|].
  eapply Forall2_impl; [exact (BatchGet_holds config48 48 e C keys HC)|].
  intros k r Hr. cbn beta in Hr. destruct (C !! k) as [v|] eqn:Hk; [|by subst r].
  destruct Hr as (p & -> & Hr). cbn. by rewrite (holds_floats config48 48 e C k v HC Hk).
Qed.

Definition deliver_copy (op : dsm_op) (mem : gmap Z Z) : gmap Z Z :=
  match op with
  | rdma_write gaddr buf _ => write_bytes mem gaddr buf
  | write_from_pm_vec gaddr l _ => write_bytes mem gaddr (concat l)
  | rpc_call _ _ _ => mem
  end.

Definition one_server : Server.server KVEngineMap.kv :=
  {| Server.base_kv_ := one_put; Server.thread_count_ := 2; Server.tp := replicate 128 0;
     Server.epoch_manager_ := Epoch.make 64; Server.serving_thread_id := 0 |}.

Definition one_process : Client.process :=
  {| Client.base_ := 4096; Client.round_robin := 0; Client.client_memory_offset_acc := 0; Client.memory_ := ∅ |}.

Definition one_client : Client.client :=
  {| Client.shard_ := 0; Client.rpcIDAcc_ := 0; Client.serverThreadIdsRoutedTo_ := [0; 1];
     Client.rpcId2PollMap_ := ∅ |}.

Lemma deliver_copy_copies : copies deliver_copy.
Proof. done. Qed.

Lemma one_server_serving : serving (fun x => x) one_server 5 0.
Proof.
  split; [|split].
  - intros t k H. done.
  - by eexists.
  - by eexists.
Qed.

Lemma GetParameter_end_to_end_witness :
  exists p c id, Client.QueryRPCFinished p c id = Ret true /\
    read_bytes (Client.memory_ p) 4096 64 = replicate 64 1.
Proof.
  destruct (GetParameter_end_to_end (fun x => x) 300 true deliver_copy 64 one_process one_client [7] 4096 0
              one_server 5 {[7 := replicate 64 1]} 3) as (p & c & m & id & s' & op & _ & _ & _ & HV & HQ & _);
    [exact deliver_copy_copies|exact one_put_holds|exact one_server_serving|done|cbn; lia|lia|done|cbn; lia|cbn; lia|
     repeat constructor; lia|repeat constructor; eexists; split; [done|done]|].
  eexists _, c, id. split; [exact HQ|]. exact (HV 0%nat 7 (replicate 64 1) eq_refl eq_refl).
Defined.

Lemma empty_request_never_finishes_witness :
  exists p c id, Client.QueryRPCFinished p c id = Ret false.
Proof.
  destruct (empty_request_never_finishes (fun x => x) 300 true deliver_copy 64 one_process one_client 4096 0
              one_server 5 {[7 := replicate 64 1]}) as (p & c & m & id & s' & op & _ & _ & _ & _ & HQ);
    [exact deliver_copy_copies|exact one_put_holds|exact one_server_serving|lia|done|cbn; lia|].
  eexists _, c, id. exact HQ.
Defined.

Lemma sglist_completion_unprotects_twice_witness :
  match Server.RpcPsGet (fun x => x) 300 true one_server 5 0
          {| m_type := GET; node_id := 1; t_id := 0; receive_gaddr := 4096; extra_data := encode 8 [7] |} with
  | Ret (s', _) => Server.poll_step (fun x => x) 300 true s' 5 0 (fun _ => []) (Server.Completion WR_ID_SG_GET)
                   = Err Undefined
  | Err _ => False
  end.
Proof.
  destruct (Server.RpcPsGet _ _ _ _ _ _ _) as [[s' op]|] eqn:E; [|by vm_compute in E].
  eapply (sglist_completion_unprotects_twice (fun x => x) 300 true one_server); [| |exact E].
  - intros t k H. done.
  - by apply Forall_replicate.
Defined.

(** Two shards, by the parity of the key. *)
Definition parity (k : Z) : Z := k mod 2.

Definition two_clients : AllShards.allshards :=
  {| AllShards.clients_ := [one_client; one_client]; AllShards.batchRpcId2RpcListMap_ := ∅;
     AllShards.batchRpcId2CbMap_ := ∅; AllShards.num_shards_ := 2; AllShards.batchRpcIDAcc_ := 0;
     AllShards.partitioned_recv_buffer_ := [[4096]; [8192]] |}.

Lemma AllShards_GetParameter_partitions_witness :
  exists p w ms id, AllShards.GetParameter 64 parity one_process two_clients [5; 2; 3] 0 true 0 [] =
      Ret (p, w, ms, id) /\ length ms = 2%nat /\
    exists m t, ms !! 1%nat = Some (m, t) /\ asks m [5; 3] 8192.
Proof.
  destruct (AllShards_GetParameter_partitions 64 parity 2 one_process two_clients [5; 2; 3] 0 0)
    as (p & w & ms & id & HG & Hl & Hm).
  - split; [cbn; lia|by repeat constructor].
  - done.
  - done.
  - repeat constructor; by eexists.
  - intros s. unfold shard_keys. transitivity (Z.of_nat (length [5; 2; 3])); [|cbn; lia].
    apply inj_le, length_filter.
  - exists p, w, ms, id. split; [exact HG|]. split; [exact Hl|]. exact (Hm 1%nat [8192] 8192 eq_refl eq_refl).
Defined.
