(* ===== verification/PsAllShards.v ===== *)
(** * The client of all servers, end to end

    A batch of keys goes through AllShardsParameterClientWrapper
    (allshards_ps_client.h) to the servers of all shards (petps_server.cc) and
    back: the requests of the wrapper, the answers of the servers, their
    delivery in any order, the polls of QueryRPCFinished and the call-back that
    gathers the answers. *)

From stdpp Require Import base numbers list gmap.
From Stdlib Require Import ZArith Lia.
From S2P Require Import Prelude ShmCommon SimpleMalloc MallocApi PetKV PetKVSpec PetKVProps Epoch Array Engines.
From S2P Require Import EnginesSpec Ps PsSpec.

(** ** Writes to separate regions *)

Definition writes (mem : gmap Z Z) (l : list (Z * list Z)) : gmap Z Z :=
  foldl (fun m w => write_bytes m w.1 w.2) mem l.

Definition region (w : Z * list Z) : Z * Z := (w.1, Z.of_nat (length w.2)).

Lemma writes_sep l mem a n :
  (forall w, w ∈ l -> sep (region w) (a, n)) -> read_bytes (writes mem l) a n = read_bytes mem a n.
Proof.
  revert mem. induction l as [|w l IH]; intros mem H; cbn; [done|].
  rewrite IH by set_solver. apply read_write_sep. apply (H w). set_solver.
Qed.

(** The write [i] is read back if the later ones are apart from it. *)
Lemma writes_read l mem i a bs :
  l !! i = Some (a, bs) ->
  (forall j w, l !! j = Some w -> i <> j -> sep (region w) (a, Z.of_nat (length bs))) ->
  read_bytes (writes mem l) a (Z.of_nat (length bs)) = bs.
Proof.
  intros Hi Hs. rewrite <- (take_drop_middle _ _ _ Hi). unfold writes. rewrite foldl_app. cbn.
  fold (writes (write_bytes (writes mem (take i l)) a bs) (drop (S i) l)).
  rewrite writes_sep; [apply read_write_same|]. intros w [j Hj]%list_elem_of_lookup_1.
  rewrite lookup_drop in Hj. eapply Hs; [exact Hj|lia].
Qed.

(** A part of a region. *)
Lemma sep_part (b : Z * Z) a n a' n' : sep b (a, n) -> a <= a' -> a' + n' <= a + n -> sep b (a', n').
Proof. unfold sep. cbn. lia. Qed.

(** Two memories that agree on a region agree on its parts. *)
Lemma read_part mem mem' a n a' n' :
  read_bytes mem a n = read_bytes mem' a n -> a <= a' -> 0 <= n' -> a' + n' <= a + n ->
  read_bytes mem a' n' = read_bytes mem' a' n'.
Proof.
  intros H Ha Hn He. replace n with ((a' - a) + (n' + (a + n - a' - n'))) in H by lia.
  rewrite !(read_bytes_split _ a) in H by lia. replace (a + (a' - a)) with a' in H by lia.
  apply app_inj_1 in H as [_ H]; [|by rewrite !read_bytes_length].
  rewrite !(read_bytes_split _ a' n') in H by lia. apply app_inj_1 in H as [H _]; [done|by rewrite !read_bytes_length].
Qed.

(** A list from the elements that exist for every position. *)
Lemma list_of_exists {A} (n : nat) (P : nat -> A -> Prop) :
  (forall i, (i < n)%nat -> exists x, P i x) ->
  exists l, length l = n /\ forall i, (i < n)%nat -> exists x, l !! i = Some x /\ P i x.
Proof.
  induction n as [|n IH]; intros H; [by exists []; split; [|lia]|].
  destruct IH as (l & Hl & HP); [intros i Hi; apply H; lia|]. destruct (H n) as [x Hx]; [lia|].
  exists (l ++ [x]). rewrite length_app. split; [cbn; lia|]. intros i Hi. destruct (decide (i = n)) as [->|].
  - exists x. by rewrite lookup_app_r, Hl, Nat.sub_diag by lia.
  - destruct (HP i) as (y & Hy & HPy); [lia|]. exists y. by rewrite lookup_app_l by lia.
Qed.

Section EndToEnd.
Import AllShards.
Context {K : Type} `{!BaseKV K, !BaseKVLaws K}.
Context (GetHash : Z -> Z) (max_kv : Z) (use_sglist : bool) (deliver : dsm_op -> gmap Z Z -> gmap Z Z).
Context (vs : Z) (partition : Z -> Z) (val : Z -> list Z).
Implicit Types (w : allshards) (keys : list Z).

(** ** The call-back only writes the destination *)

Lemma gather_loop_frame mem keys values acc recv (offs : list Z) a n :
  0 <= vs -> 0 <= n -> sep (values + acc, vs * Z.of_nat (length keys)) (a, n) ->
  read_bytes (gather_loop vs partition mem keys values acc recv offs) a n = read_bytes mem a n.
Proof.
  intros Hv Hn. revert mem acc offs. induction keys as [|k keys IH]; intros mem acc offs Hs; cbn [gather_loop]; [done|].
  cbn [length] in Hs. unfold sep in Hs. cbn [fst snd] in Hs. rewrite IH by (unfold sep; cbn [fst snd]; lia).
  apply read_write_sep. unfold sep. cbn [fst snd]. rewrite read_bytes_length. lia.
Qed.

(** ** What the requests leave in the memory of the client *)

Definition poll_of keys (a : Z) : Z := a + i32 (Z.of_nat (length keys) * vs) - 4.

Lemma request_loop_memory (buffers : list (list Z)) p clients recv id p' cs ms ids :
  request_loop vs p clients buffers recv id true [] = Ret (p', cs, ms, ids) ->
  Client.memory_ p' = writes (Client.memory_ p)
    (zip_with (fun keys r => (poll_of keys (r !!! Z.to_nat id), le_bytes 4 FINISH_MAGIC)) buffers recv).
Proof.
  revert p clients recv p' cs ms ids. induction buffers as [|b buffers IH]; intros p clients recv p' cs ms ids HR.
  { cbn in HR. by simplify_eq. }
  cbn [request_loop default head tail] in HR. destruct (CHECK _) as [[]|]; [|done]. cbn [mbind outcome_bind] in HR.
  destruct clients as [|c clients]; [done|]. destruct recv as [|r recv]; [done|]. cbn [head deref mbind outcome_bind] in HR.
  destruct (r !! Z.to_nat id) as [a|] eqn:Ea; [|done]. cbn [deref mbind outcome_bind from_option] in HR.
  unfold Client.GetParameter, Client.send in HR. inv_tuple.
  match goal with H : request_loop _ _ _ _ _ _ _ _ = _ |- _ => apply IH in H as -> end.
  cbn [zip_with]. unfold writes. cbn [foldl fst snd]. rewrite (list_lookup_total_correct _ _ _ Ea).
  match goal with H : Client.SelectServerThreadID _ _ = _ |- _ =>
    unfold Client.SelectServerThreadID in H; inv_tuple end. done.
Qed.

(** ** Polling *)

Section Query.
Context (w : allshards) (rpc_id : Z) (keys : list Z) (values req : Z).
Notation recv := ((fun r : list Z => r !!! Z.to_nat req) <$> partitioned_recv_buffer_ w).
Notation size s := (vs * Z.of_nat (length (shard_keys partition s keys))).
Notation poll s := (poll_of (shard_keys partition s keys) (recv !!! s)).

(** The buffers of the shards are the same. *)
Definition same (mem mem' : gmap Z Z) : Prop :=
  forall s a, recv !! s = Some a -> read_bytes mem a (size s) = read_bytes mem' a (size s).

(** The answer of shard [s] is in its buffer. *)
Definition finished (mem : gmap Z Z) (s : nat) : bool := negb (Client.poll_word mem (poll s) =? FINISH_MAGIC).

(** The requests that wait, from shard [i] on: the client of a shard polls the
    last word of its buffer. *)
Definition polled (i : nat) (clients : list Client.client) (ids : list Z) : Prop :=
  forall j, (j < length ids)%nat -> exists c id, clients !! j = Some c /\ ids !! j = Some (i32 id) /\
    0 <= id < 2 ^ 31 /\ Client.rpcId2PollMap_ c !! id = Some (poll (i + j)).

Context (Hvs : 4 <= vs) (Hcb : batchRpcId2CbMap_ w !! u64 rpc_id = Some (keys, values, req)).
Context (Hne : forall s, (s < length recv)%nat -> shard_keys partition s keys <> [] /\ size s < 2 ^ 31).
Context (Hap : apart vs partition recv values keys).

Lemma polled_tail i c clients id ids : polled i (c :: clients) (id :: ids) -> polled (S i) clients ids.
Proof.
  intros H j Hj. destruct (H (S j)) as (c' & id' & Hc & Hid & Hr & Hp); [cbn; lia|]. exists c', id'.
  rewrite Nat.add_succ_comm. exact (conj Hc (conj Hid (conj Hr Hp))).
Qed.

(** The polled word is in the buffer of the shard. *)
Lemma poll_inside s a : recv !! s = Some a -> poll s = a + size s - 4 /\ 4 <= size s.
Proof.
  intros Ha. destruct (Hne s) as [Hk Hs]; [by eapply lookup_lt_Some|]. unfold poll_of.
  rewrite (list_lookup_total_correct _ _ _ Ha). destruct (shard_keys partition s keys) as [|k ks]; [done|].
  cbn [length] in *. rewrite i32_small by nia. nia.
Qed.

Lemma finished_same mem mem' s : (s < length recv)%nat -> same mem mem' -> finished mem s = finished mem' s.
Proof.
  intros Hs Hm. destruct (lookup_lt_is_Some_2 _ _ Hs) as [a Ha]. destruct (poll_inside s a Ha) as [Hp H4].
  unfold finished, Client.poll_word. rewrite (read_part mem mem' a (size s)); try lia. by apply Hm.
Qed.

Lemma same_callback p mem : same (Client.memory_ p) mem ->
  same (Client.memory_ (callback vs partition true p w (keys, values, req))) mem.
Proof.
  intros Hm s a Ha. rewrite <- (Hm s a Ha). cbn [callback Client.memory_ Client.with_memory]. unfold gather.
  apply gather_loop_frame; [lia|lia|]. rewrite Z.add_0_r. by apply Hap.
Qed.

Lemma query_loop_run mem i clients ids p :
  polled i clients ids -> (i + length ids = length recv)%nat -> same (Client.memory_ p) mem ->
  exists p', query_loop vs partition true p w rpc_id clients (length ids) ids =
      Ret (p', forallb (finished mem) (seq i (length ids))) /\ same (Client.memory_ p') mem /\
    (forallb (finished mem) (seq i (length ids)) = true -> ids <> [] -> exists q, same q mem /\
       Client.memory_ p' = gather vs partition q (num_shards_ w) keys values recv).
Proof.
  revert i clients p. induction ids as [|id0 ids IH]; intros i clients p Hp Hl Hm; [by exists p|].
  destruct (Hp 0%nat) as (c & id & Hc & Hid & Hr & Hpoll); [cbn; lia|]. cbn in Hid. simplify_eq.
  destruct clients as [|c' clients]; [done|]. cbn in Hc. simplify_eq. rewrite Nat.add_0_r in Hpoll.
  cbn [length] in *. cbn [query_loop head deref mbind outcome_bind tail]. rewrite i32_small, u64_small by lia.
  rewrite (proj2 (Z.eqb_neq _ _)) by (change MAGIC_RPC_ID_FOR_EMPTY_REQUEST with (2 ^ 64 - 1); lia).
  rewrite <- (i32_small id) by lia. rewrite (query_at p c id _ Hr Hpoll). cbn [mbind outcome_bind seq forallb].
  fold (finished (Client.memory_ p) i). rewrite (finished_same _ mem) by (done || lia).
  destruct (finished mem i) eqn:Ef; cbn [andb]; [|by eexists].
  rewrite Hcb. cbn [deref mbind outcome_bind].
  destruct (IH (S i) clients (callback vs partition true p w (keys, values, req))) as (p' & HQ & Hs & Hg);
    [by eapply polled_tail|lia|by apply same_callback|].
  exists p'. split; [exact HQ|]. split; [done|]. intros Hall _. destruct ids as [|id1 ids].
  - cbn in HQ. simplify_eq. exists (Client.memory_ p). done.
  - by apply Hg.
Qed.
End Query.

(** ** The batch *)

Notation recv_of w req := ((fun r : list Z => r !!! Z.to_nat req) <$> partitioned_recv_buffer_ w).
Notation size s keys := (vs * Z.of_nat (length (shard_keys partition s keys))).

(** The values of the keys of a shard, as the server of the shard sends them. *)
Definition shard_answer keys (s : nat) : list Z := concat (val <$> shard_keys partition s keys).

(** The wrapper and the servers are set up for the batch: a client, a server
    and a buffer for every shard, the buffers apart from each other and from
    the destination; every shard has at least one and at most 500 of the keys,
    its server holds their values, and the last word of its answer is not
    FINISH_MAGIC. *)
Record batch_ready (L : nat) (p : Client.process) w keys (values req self : Z) (servers : list (Server.server K)) :
    Prop := {
  br_shards : num_shards_ w = Z.of_nat (length (clients_ w));
  br_some : clients_ w <> [];
  br_recv : length (partitioned_recv_buffer_ w) = length (clients_ w);
  br_servers : length servers = length (clients_ w);
  br_slot : Forall (fun r => is_Some (r !! Z.to_nat req)) (partitioned_recv_buffer_ w);
  br_clients : clients_ready L p (clients_ w);
  br_ids : Forall (fun c => 0 <= Client.rpcIDAcc_ c < 2 ^ 31) (clients_ w);
  br_batch : 0 <= batchRpcIDAcc_ w < 2 ^ 31;
  br_keys : forall k, k ∈ keys -> 0 <= k < 2 ^ 64 /\ (Z.to_nat (partition k) < length (clients_ w))%nat;
  br_sizes : forall s, (s < length (clients_ w))%nat ->
    shard_keys partition s keys <> [] /\ Z.of_nat (length (shard_keys partition s keys)) <= 500 `min` max_kv /\
    size s keys < 2 ^ 31;
  br_apart : apart vs partition (recv_of w req) values keys;
  br_sep : forall s s' a a', recv_of w req !! s = Some a -> recv_of w req !! s' = Some a' -> s <> s' ->
    sep (a, size s keys) (a', size s' keys);
  br_holds : forall s sv c, servers !! s = Some sv -> clients_ w !! s = Some c ->
    (forall t, t ∈ Client.serverThreadIdsRoutedTo_ c -> serving GetHash sv self t) /\
    exists C, kv_holds (Server.base_kv_ sv) C /\
      forall k, k ∈ shard_keys partition s keys -> C !! k = Some (val k);
  br_words : forall s, (s < length (clients_ w))%nat ->
    le_value (drop (Z.to_nat (size s keys - 4)) (shard_answer keys s)) <> FINISH_MAGIC
}.

(** The deliveries of the answers of the shards [order], one after the other. *)
Definition delivered (ops : list dsm_op) (mem : gmap Z Z) (order : list nat) : gmap Z Z :=
  foldl (fun m s => from_option (fun op => deliver op m) m (ops !! s)) mem order.

Lemma delivered_writes (ops : list dsm_op) (recv : list Z) keys mem order :
  (forall s, s ∈ order -> exists op, ops !! s = Some op /\
     forall mem, deliver op mem = write_bytes mem (recv !!! s) (shard_answer keys s)) ->
  delivered ops mem order = writes mem ((fun s => (recv !!! s, shard_answer keys s)) <$> order).
Proof.
  revert mem. induction order as [|s order IH]; intros mem H; [done|]. cbn.
  destruct (H s) as (op & Hop & Hd); [set_solver|]. rewrite Hop. cbn. rewrite Hd. apply IH. set_solver.
Qed.

Section Batch.
Context (Hvs : 4 <= vs) (Hval : forall k, Z.of_nat (length (val k)) = vs) (HD : copies deliver).
Context (L : nat) (p : Client.process) (w : allshards) (keys : list Z) (values req self : Z).
Context (servers : list (Server.server K)) (HB : batch_ready L p w keys values req self servers).
Notation recv := (recv_of w req).
Notation n := (length (clients_ w)).

Lemma shard_answer_length s : Z.of_nat (length (shard_answer keys s)) = size s keys.
Proof. unfold shard_answer. apply (concat_vals_length vs val Hval). Qed.

Lemma recv_length : length recv = n.
Proof. rewrite length_fmap. apply (br_recv _ _ _ _ _ _ _ _ HB). Qed.

(** The server of a shard answers the message for it. *)
Lemma server_answers s sv c m t a :
  servers !! s = Some sv -> clients_ w !! s = Some c -> t ∈ Client.serverThreadIdsRoutedTo_ c ->
  asks m (shard_keys partition s keys) a ->
  exists sv' op, Server.RpcPsGet GetHash max_kv use_sglist sv self t m = Ret (sv', op) /\
    forall mem, deliver op mem = write_bytes mem a (shard_answer keys s).
Proof.
  intros Hsv Hc Ht (_ & <- & He). destruct (br_holds _ _ _ _ _ _ _ _ HB _ _ _ Hsv Hc) as [Hs (C & HC & Hk)].
  destruct (br_sizes _ _ _ _ _ _ _ _ HB s) as (_ & Hl & _); [by eapply lookup_lt_Some|].
  destruct (RpcPsGet_delivers GetHash max_kv use_sglist deliver sv self t m (shard_keys partition s keys) C HD HC (Hs t Ht) He)
    as (sv' & op & HR & Hop & _); [|lia|].
  - apply Forall_forall. intros k Hin. apply (br_keys _ _ _ _ _ _ _ _ HB).
    by apply list_elem_of_filter in Hin as [_ ?].
  - exists sv', op. split; [exact HR|]. intros mem. rewrite Hop. unfold shard_answer, values_of. do 2 f_equal.
    apply list_fmap_ext. intros i k Hi. by rewrite (Hk k (list_elem_of_lookup_2 _ _ _ Hi)).
Qed.

(** A write for shard [s] is apart from the buffer of another shard. *)
Lemma shard_sep s s' a a' :
  recv !! s = Some a -> recv !! s' = Some a' -> s <> s' -> sep (region (a, shard_answer keys s)) (a', size s' keys).
Proof. intros. unfold region. cbn [fst snd]. rewrite shard_answer_length. by apply (br_sep _ _ _ _ _ _ _ _ HB). Qed.

Lemma shard_poll s a : recv !! s = Some a ->
  poll_of (shard_keys partition s keys) a = a + size s keys - 4 /\ 4 <= size s keys.
Proof.
  intros Ha. pose proof (poll_inside w keys req Hvs) as Hin.
  specialize (Hin ltac:(intros s' Hs'; destruct (br_sizes _ _ _ _ _ _ _ _ HB s') as (? & _ & ?); [by rewrite <- recv_length|done]) s a Ha).
  by rewrite (list_lookup_total_correct _ _ _ Ha) in Hin.
Qed.

(** Before any delivery the polled word of every shard is FINISH_MAGIC. *)
Lemma request_loop_unfinished p1 cs ms ids s a :
  request_loop vs p (clients_ w) (partitioned_keys partition w keys) (partitioned_recv_buffer_ w) req true [] =
    Ret (p1, cs, ms, ids) -> recv !! s = Some a ->
  Client.poll_word (Client.memory_ p1) (a + size s keys - 4) = FINISH_MAGIC.
Proof.
  intros HR Ha. apply request_loop_memory in HR as ->. unfold Client.poll_word.
  set (l := zip_with _ _ _).
  assert (Hl : forall i b, recv !! i = Some b -> l !! i = Some (b + size i keys - 4, le_bytes 4 FINISH_MAGIC)).
  { intros i b Hb. pose proof (shard_poll i b Hb) as [Hp _]. unfold l. rewrite lookup_zip_with.
    assert (Hi : (i < n)%nat) by (rewrite <- recv_length; by eapply lookup_lt_Some).
    rewrite partitioned_keys_shard; [|rewrite (br_shards _ _ _ _ _ _ _ _ HB); lia|
      destruct (br_sizes _ _ _ _ _ _ _ _ HB i Hi) as (_ & ? & _); lia].
    rewrite list_lookup_fmap in Hb. destruct (partitioned_recv_buffer_ w !! i) as [r|]; [|done].
    cbn in Hb |- *. simplify_eq. by rewrite Hp. }
  assert (Hll : length l = n).
  { unfold l. rewrite length_zip_with, partitioned_keys_length, (br_recv _ _ _ _ _ _ _ _ HB), (br_shards _ _ _ _ _ _ _ _ HB). lia. }
  pose proof (writes_read l (Client.memory_ p) s _ _ (Hl s a Ha)) as Hw.
  change (Z.of_nat (length (le_bytes 4 FINISH_MAGIC))) with 4 in Hw. rewrite Hw; [by vm_compute|].
  intros j [b bs] Hj Hne. destruct (lookup_lt_is_Some_2 recv j) as [b' Hb'].
  { rewrite recv_length, <- Hll. by eapply lookup_lt_Some. }
  rewrite (Hl j b' Hb') in Hj. simplify_eq. pose proof (br_sep _ _ _ _ _ _ _ _ HB s j a b' Ha Hb' Hne) as Hs.
  pose proof (shard_poll s a Ha) as [_ ?]. pose proof (shard_poll j b' Hb') as [_ ?].
  unfold region, sep in *. cbn [fst snd] in *. change (Z.of_nat (length (le_bytes 4 FINISH_MAGIC))) with 4. lia.
Qed.

(** After the deliveries [order] exactly the shards in [order] have answered. *)
Lemma delivered_shard ops mem order s a :
  NoDup order -> Forall (fun i => i < n)%nat order ->
  (forall i, (i < n)%nat -> exists op, ops !! i = Some op /\
     forall mem, deliver op mem = write_bytes mem (recv !!! i) (shard_answer keys i)) ->
  recv !! s = Some a ->
  read_bytes (delivered ops mem order) a (size s keys) =
    if decide (s ∈ order) then shard_answer keys s else read_bytes mem a (size s keys).
Proof.
  intros Hnd Hlt Hops Ha. rewrite Forall_forall in Hlt. rewrite (delivered_writes ops recv keys) by (intros i Hi; by apply Hops, Hlt).
  set (l := _ <$> order).
  assert (Hl : forall j x, l !! j = Some x -> exists i, order !! j = Some i /\ x = (recv !!! i, shard_answer keys i) /\
             recv !! i = Some (recv !!! i)).
  { intros j x Hj. unfold l in Hj. rewrite list_lookup_fmap in Hj. destruct (order !! j) as [i|] eqn:Ej; [|done].
    cbn in Hj. simplify_eq. exists i. split_and!; try done. apply list_lookup_lookup_total_lt. rewrite recv_length.
    apply Hlt. by eapply list_elem_of_lookup_2. }
  destruct (decide (s ∈ order)) as [Hin|Hout].
  - apply list_elem_of_lookup_1 in Hin as [j Hj]. rewrite <- shard_answer_length.
    apply (writes_read l mem j).
    + unfold l. by rewrite list_lookup_fmap, Hj, <- (list_lookup_total_correct _ _ _ Ha).
    + intros j' x Hj' Hne. destruct (Hl j' x Hj') as (i & Hi & -> & Hri). rewrite shard_answer_length.
      eapply shard_sep; [done|done|]. intros ->. apply Hne. by eapply NoDup_lookup.
  - apply writes_sep. intros x [j Hj]%list_elem_of_lookup_1. destruct (Hl j x Hj) as (i & Hi & -> & Hri).
    eapply shard_sep; [done|done|]. intros ->. apply Hout. by eapply list_elem_of_lookup_2.
Qed.

(** What belongs to shard [s]. *)
Lemma shard_parts s : (s < n)%nat ->
  exists r a sv c, partitioned_recv_buffer_ w !! s = Some r /\ r !! Z.to_nat req = Some a /\ recv !!! s = a /\
    servers !! s = Some sv /\ clients_ w !! s = Some c /\
    partitioned_keys partition w keys !! s = Some (shard_keys partition s keys).
Proof.
  destruct HB as [Hns Hsome Hrl Hsl Hslot Hcl Hids Hbt Hk Hsz Hap Hsep Hh Hw].
  intros Hs. destruct (lookup_lt_is_Some_2 (partitioned_recv_buffer_ w) s) as [r Hr]; [lia|].
  destruct (Forall_lookup_1 _ _ _ _ Hslot Hr) as [a Ha]. cbn beta in Ha.
  destruct (lookup_lt_is_Some_2 servers s) as [sv Hsv]; [lia|].
  destruct (lookup_lt_is_Some_2 (clients_ w) s) as [c Hc]; [lia|]. exists r, a, sv, c. split_and!; try done.
  - rewrite list_lookup_total_alt, list_lookup_fmap, Hr. cbn. by apply list_lookup_total_correct.
  - apply partitioned_keys_shard; [lia|]. destruct (Hsz s Hs) as (_ & ? & _). lia.
Qed.

(** The requests: every shard gets its message, the answers of the servers
    exist, and the wrapper polls the buffers. *)
Lemma batch_sent :
  exists p1 w1 ms (ops : list dsm_op),
    GetParameter vs partition p w keys values true req [] = Ret (p1, w1, ms, i32 (batchRpcIDAcc_ w)) /\
    (forall s sv, servers !! s = Some sv -> exists m t sv' op, ms !! s = Some (m, t) /\ ops !! s = Some op /\
       Server.RpcPsGet GetHash max_kv use_sglist sv self t m = Ret (sv', op)) /\
    (forall s, (s < n)%nat -> exists op, ops !! s = Some op /\
       forall mem, deliver op mem = write_bytes mem (recv !!! s) (shard_answer keys s)) /\
    (forall s a, recv !! s = Some a -> Client.poll_word (Client.memory_ p1) (a + size s keys - 4) = FINISH_MAGIC) /\
    partitioned_recv_buffer_ w1 = partitioned_recv_buffer_ w /\ num_shards_ w1 = num_shards_ w /\
    batchRpcId2CbMap_ w1 !! batchRpcIDAcc_ w = Some (keys, values, req) /\
    exists ids, length ids = n /\ batchRpcId2RpcListMap_ w1 !! batchRpcIDAcc_ w = Some ids /\
      polled w keys req 0 (clients_ w1) ids.
Proof.
  destruct HB as [Hns Hsome Hrl Hsl Hslot Hcl Hids Hbt Hk Hsz Hap Hsep Hh Hw].
  pose proof (partitioned_keys_length partition w keys) as Hpl.
  destruct (request_loop_run vs L req (partitioned_keys partition w keys) p (clients_ w) (partitioned_recv_buffer_ w))
    as (p1 & cs & ms & ids & HR & _ & Hl2 & Hms); [done|lia|lia|apply partitioned_keys_short|done|].
  destruct (list_of_exists n (fun s op => (forall mem, deliver op mem = write_bytes mem (recv !!! s) (shard_answer keys s)) /\
              forall sv, servers !! s = Some sv -> exists m t sv', ms !! s = Some (m, t) /\
                Server.RpcPsGet GetHash max_kv use_sglist sv self t m = Ret (sv', op))) as (ops & Hlo & Hops).
  { intros s Hs. destruct (shard_parts s Hs) as (r & a & sv & c & Hr & Ha & -> & Hsv & Hc & Hpk).
    destruct (Hms s _ r a Hpk Hr Ha) as (m & t & c0 & c' & Hm & Hask & Hc0 & _ & Ht & _).
    rewrite Hc in Hc0. simplify_eq. destruct (server_answers s sv c0 m t a Hsv Hc Ht Hask) as (sv' & op & HS & Hop).
    exists op. split; [done|]. intros sv0 Hsv0. rewrite Hsv in Hsv0. simplify_eq. by exists m, t, sv'. }
  unfold GetParameter. rewrite HR. cbn [mbind outcome_bind]. eexists p1, _, ms, ops. split; [done|].
  split_and!; try done.
  - intros s sv Hsv. destruct (Hops s) as (op & Ho & _ & HS); [rewrite <- Hsl; by eapply lookup_lt_Some|].
    destruct (HS sv Hsv) as (m & t & sv' & Hm & HS'). by exists m, t, sv', op.
  - intros s Hs. destruct (Hops s Hs) as (op & Ho & Hd & _). by exists op.
  - intros s a Ha. by eapply request_loop_unfinished.
  - cbn. by rewrite lookup_insert_eq.
  - exists ids. split; [lia|]. cbn [batchRpcId2RpcListMap_ clients_]. split; [by rewrite lookup_insert_eq|].
    intros s Hs. destruct (shard_parts s) as (r & a & sv & c & Hr & Ha & Hra & Hsv & Hc & Hpk); [lia|].
    destruct (Hms s _ r a Hpk Hr Ha) as (m & t & c0 & c' & _ & _ & Hc0 & Hc' & _ & Hid & Hpoll).
    exists c', (Client.rpcIDAcc_ c0). split; [done|]. split; [done|].
    split; [exact (Forall_lookup_1 _ _ _ _ Hids Hc0)|]. rewrite Nat.add_0_l, Hra. exact Hpoll.
Qed.

(** The answer of a shard has been delivered exactly if its polled word says so. *)
Lemma finished_delivered p1 ops order s :
  NoDup order -> Forall (fun i => i < n)%nat order ->
  (forall i, (i < n)%nat -> exists op, ops !! i = Some op /\
     forall mem, deliver op mem = write_bytes mem (recv !!! i) (shard_answer keys i)) ->
  (forall i a, recv !! i = Some a -> Client.poll_word (Client.memory_ p1) (a + size i keys - 4) = FINISH_MAGIC) ->
  (s < n)%nat -> finished w keys req (delivered ops (Client.memory_ p1) order) s = bool_decide (s ∈ order).
Proof.
  intros Hnd Hlt Hops Hun Hs. destruct (lookup_lt_is_Some_2 recv s) as [a Ha]; [by rewrite recv_length|].
  pose proof (shard_poll s a Ha) as [Hp H4]. pose proof (delivered_shard ops (Client.memory_ p1) order s a Hnd Hlt Hops Ha) as Hr.
  unfold finished. rewrite (list_lookup_total_correct _ _ _ Ha), Hp. unfold Client.poll_word in *.
  case_bool_decide as Hin; [rewrite decide_True in Hr by done|rewrite decide_False in Hr by done].
  - rewrite (read_tail _ a (size s keys) 4 (shard_answer keys s)) by (done || lia).
    by rewrite (proj2 (Z.eqb_neq _ _) (br_words _ _ _ _ _ _ _ _ HB s Hs)).
  - rewrite (read_part _ (Client.memory_ p1) a (size s keys)) by (done || lia). by rewrite (Hun s a Ha).
Qed.

(** When all answers are delivered and gathered, the destination is right. *)
Lemma gathered_all p1 ops order q :
  NoDup order -> Forall (fun i => i < n)%nat order -> (forall s, (s < n)%nat -> s ∈ order) ->
  (forall i, (i < n)%nat -> exists op, ops !! i = Some op /\
     forall mem, deliver op mem = write_bytes mem (recv !!! i) (shard_answer keys i)) ->
  same w keys req q (delivered ops (Client.memory_ p1) order) ->
  read_bytes (gather vs partition q (num_shards_ w) keys values recv) values (vs * Z.of_nat (length keys)) =
    concat (val <$> keys).
Proof.
  intros Hnd Hlt Hall Hops Hq. rewrite (br_shards _ _ _ _ _ _ _ _ HB), <- recv_length.
  apply (gather_in_order vs partition val); [lia|done| | |exact (br_apart _ _ _ _ _ _ _ _ HB)].
  - intros k Hk. rewrite recv_length. by apply (br_keys _ _ _ _ _ _ _ _ HB).
  - intros s a Ha. rewrite (Hq s a Ha), (delivered_shard ops _ order s a Hnd Hlt Hops Ha). apply decide_True, Hall.
    rewrite <- recv_length. by eapply lookup_lt_Some.
Qed.

End Batch.
End EndToEnd.

(** ** Two servers on the map engine *)

#[local] Existing Instance map_base.
#[local] Existing Instance map_base_laws.

(** The keys 7 and 8, each on the server of its parity. *)
Definition value_of_key (k : Z) : list Z := replicate 64 (if k =? 7 then 1 else 2).

Definition even_put : KVEngineMap.kv := map_put map_engine 8 2.

Lemma even_put_holds : holds config48 48 even_put {[8 := replicate 64 2]}.
Proof.
  destruct (Put_holds config48 48 config48_bits map_engine ∅ 8 (replicate 64 2)) as (e & HP & He & _);
    [apply map_engine_holds|done|done|by vm_compute|].
  unfold even_put, map_put, KVEngineMap.Put. rewrite HP. exact He.
Qed.

Definition even_server : Server.server KVEngineMap.kv :=
  {| Server.base_kv_ := even_put; Server.thread_count_ := 2; Server.tp := replicate 128 0;
     Server.epoch_manager_ := Epoch.make 64; Server.serving_thread_id := 0 |}.

(** A server that has not served yet serves on each of its threads. *)
Lemma fresh_serving kv t : 0 <= t <= 1 ->
  serving (fun x => x) {| Server.base_kv_ := kv : KVEngineMap.kv; Server.thread_count_ := 2; Server.tp := replicate 128 0;
     Server.epoch_manager_ := Epoch.make 64; Server.serving_thread_id := 0 |} 5 t.
Proof.
  intros Ht. split; [|split].
  - intros t' k H. done.
  - apply lookup_lt_is_Some_2. cbn [Server.tp]. rewrite length_replicate. lia.
  - by eexists.
Qed.

Lemma two_batch_ready :
  batch_ready (fun x => x) 300 64 parity value_of_key 2 one_process two_clients [8; 7] 0 0 5 [even_server; one_server].
Proof.
  assert (E0 : shard_keys parity 0 [8; 7] = [8]) by done. assert (E1 : shard_keys parity 1 [8; 7] = [7]) by done.
  split; try done.
  - repeat constructor; by eexists.
  - split; [cbn; lia|by repeat constructor].
  - repeat constructor; cbn; lia.
  - intros k Hk. unfold parity. pose proof (Z.mod_pos_bound k 2 ltac:(lia)). cbn [two_clients AllShards.clients_ length].
    split; [|lia]. set_solver by lia.
  - intros [|[|s]] Hs; [rewrite E0|rewrite E1|cbn in Hs; lia]; (split; [done|cbn [length]; lia]).
  - intros [|[|s]] a Ha; vm_compute in Ha; [rewrite E0|rewrite E1|done]; simplify_eq; unfold sep; cbn; lia.
  - intros [|[|s]] [|[|s']] a a' Ha Ha' Hne; vm_compute in Ha, Ha'; try done; rewrite E0, E1; simplify_eq; unfold sep; cbn; lia.
  - intros [|[|s]] sv c Hsv Hc; cbn in Hsv, Hc; [simplify_eq..|done].
    + split; [intros t Ht; apply fresh_serving; cbn in Ht; set_solver by lia|].
      exists {[8 := replicate 64 2]}. split; [exact even_put_holds|]. rewrite E0. intros k Hk.
      apply list_elem_of_singleton in Hk as ->. done.
    + split; [intros t Ht; apply fresh_serving; cbn in Ht; set_solver by lia|].
      exists {[7 := replicate 64 1]}. split; [exact one_put_holds|]. rewrite E1. intros k Hk.
      apply list_elem_of_singleton in Hk as ->. done.
  - intros [|[|s]] Hs; [by vm_compute..|cbn in Hs; lia].
Qed.

