(* ===== verification/LoadDB.v ===== *)
(** * Loading the data (src/ps/load_db.h)

    [LoadDBHelper] of a server: [PreLoadDB] stores, for every key up to the
    capacity that belongs to the server, an embedding whose floats are the key;
    [CheckDBLoad] reads them back.  The threads of [PreLoadDB] work on ranges
    of the keys; a run is given by the order of their puts.  [partition] is
    [ShardManager::KeyPartition].

    A [float] is its 32 bits; the conversion of an integer rounds to nearest,
    ties to even. *)

From stdpp Require Import base numbers list gmap.
From Stdlib Require Import ZArith Lia.
From S2P Require Import Prelude ShmCommon SimpleMalloc MallocApi PetKV PetKVSpec PetKVProps Epoch Array Engines.
From S2P Require Import EnginesSpec Ps PsSpec.

(** ** Floats *)

(** The bits of [(float)key]: with [n] the position of the leading bit, the
    mantissa [q] has 24 bits; a carry out of the rounding goes into the
    exponent. *)
Definition f32_of_u64 (key : Z) : Z :=
  if key =? 0 then 0
  else
    let n := Z.log2 key in
    let q := if n <=? 23 then key * 2 ^ (23 - n)
             else
               let s := n - 23 in
               let q := key / 2 ^ s in
               let r := key mod 2 ^ s in
               let half := 2 ^ (s - 1) in
               if (half <? r) || ((half =? r) && Z.odd q) then q + 1 else q in
    (n + 126) * 2 ^ 23 + q.

(** The number that the bits stand for, in units of 2^-149; [None] for
    infinities and NaN. *)
Definition f32_value (bits : Z) : option Z :=
  let sign := bits / 2 ^ 31 in
  let exp := bits / 2 ^ 23 mod 2 ^ 8 in
  let man := bits mod 2 ^ 23 in
  let v := if exp =? 0 then man else (2 ^ 23 + man) * 2 ^ (exp - 1) in
  if exp =? 255 then None else Some (if sign =? 0 then v else - v).

(** [std::fabs(emb - key) < 1e-6]: two floats that are this near have an exact
    difference, so that the comparison is one of numbers. *)
Definition near (emb key : Z) : bool :=
  match f32_value emb, f32_value (f32_of_u64 key) with
  | Some x, Some y => Z.abs (x - y) * 10 ^ 6 <? 2 ^ 149
  | _, _ => false
  end.

Module LoadDBHelper.
Section LoadDBHelper.
Context {K : Type} `{!BaseKV K}.
Context (FLAGS_value_size : Z) (partition : Z -> Z).

Record helper := Build_helper {
  kv_ : K;
  server_id_ : Z;
  warm_thread_count_ : Z;
  warmup_kv_count_in_this_ps_ : option Z;
  warm_capacity_ : Z
}.

(** The constructor, on a server. *)
Definition make (kv : K) (p : Postoffice.postoffice) (warm_thread_count all_ps_warm_capacity : Z) : outcome helper :=
  _ ← CHECK (Postoffice.IsServer p);
  id ← deref (Postoffice.ServerID p);
  Ret {| kv_ := kv; server_id_ := id; warm_thread_count_ := warm_thread_count;
         warmup_kv_count_in_this_ps_ := None; warm_capacity_ := all_ps_warm_capacity |}.

Definition warm_kv_per_thread (h : helper) (threads : Z) : Z :=
  u64 (Z.quot (i64 (i64 (warm_capacity_ h + threads) - 1)) threads).

Definition start : Z := 1.
Definition end_ (h : helper) : Z := u64 (i64 (warm_capacity_ h + 1)).

Definition range_start (h : helper) (threads i : Z) : Z := u64 (start + u64 (u64 i * warm_kv_per_thread h threads)).
Definition range_end (h : helper) (threads i : Z) : Z :=
  Z.min (end_ h) (u64 (start + u64 (u64 (i + 1) * warm_kv_per_thread h threads))).

(** The keys from [lo] to [hi] that belong to this server. *)
Definition own_keys (h : helper) (lo hi : Z) : list Z :=
  filter (fun j => partition j = server_id_ h) (seqZ lo (hi - lo)).

(** [insert_to_this_db] *)
Definition own_count (h : helper) : Z := Z.of_nat (length (own_keys h start (end_ h))).

(** The string that is stored for a key: [FLAGS_value_size] bytes of the pool,
    which has 32 KB filled with ['e'] before the floats are written. *)
Definition embedding (key : Z) : list Z :=
  let n := u64 FLAGS_value_size / 4 in
  encode 4 (replicate (Z.to_nat n) (f32_of_u64 key)) ++
  replicate (Z.to_nat (FLAGS_value_size - 4 * n)) 101.

Definition put (kv : K) (key tid : Z) : outcome K :=
  if (0 <=? FLAGS_value_size) && (FLAGS_value_size <=? 32 * 1024) then kv_Put kv key (embedding key) tid
  else Err Undefined.

(** The puts of loading thread [i], in its order. *)
Definition thread_puts (h : helper) (i : Z) : list (Z * Z) :=
  (fun key => (key, i)) <$>
  own_keys h (range_start h (warm_thread_count_ h) i) (range_end h (warm_thread_count_ h) i).

Fixpoint run_puts (kv : K) (puts : list (Z * Z)) : outcome K :=
  match puts with
  | [] => Ret kv
  | (key, tid) :: puts' => kv ← put kv key tid; run_puts kv puts'
  end.

(** [PreLoadDB]; [order] is the order of the puts of the threads. *)
Definition PreLoadDB (h : helper) (shuffle_load : bool) (order : list (Z * Z)) : outcome helper :=
  _ ← (if warm_thread_count_ h =? 0 then Err Undefined else Ret tt);
  kv ← (if shuffle_load then
          _ ← CHECK (1 =? warm_thread_count_ h);
          run_puts (kv_ h) ((fun key => (key, 0)) <$> own_keys h start (end_ h))
        else run_puts (kv_ h) order);
  Ret {| kv_ := kv; server_id_ := server_id_ h; warm_thread_count_ := warm_thread_count_ h;
         warmup_kv_count_in_this_ps_ := Some (own_count h); warm_capacity_ := warm_capacity_ h |}.

(** *** CheckDBLoad *)

Definition check_thread_num : Z := 36.

(** The loop of a checking thread has an [int] counter: it starts at the
    truncated start of the range, is compared as an unsigned 64-bit number, and
    must not pass 2^31 - 1. *)
Definition check_keys (h : helper) (i : Z) : outcome (list Z) :=
  let j := i32 (range_start h check_thread_num i) in
  let hi := range_end h check_thread_num i in
  if u64 j <? hi then
    if hi <? 2 ^ 31 then Ret (own_keys h j hi) else Err Undefined
  else Ret [].

(** The floats of a value, which must have [n] of them. *)
Definition floats_near (n : nat) (value : list Z) (key : Z) : outcome bool :=
  if (length value <? 4 * n)%nat then Err Undefined
  else Ret (forallb (fun k => near (le_value (take 4 (drop (4 * k) value))) key) (seq 0 n)).

Fixpoint check_loop (h : helper) (i : Z) (keys : list Z) (right_missing : Z * Z) : outcome (Z * Z) :=
  match keys with
  | [] => Ret right_missing
  | key :: keys' =>
      value ← kv_Get (kv_ h) key [] i;
      r ← match value with
          | [] => Ret (right_missing.1, right_missing.2 + 1)
          | _ => subright ← floats_near (Z.to_nat (u64 FLAGS_value_size / 4)) value key;
                 Ret (if subright : bool then (right_missing.1 + 1, right_missing.2) else right_missing)
          end;
      check_loop h i keys' r
  end.

(** The sums over the threads; they only read, so that their order does not
    matter. *)
Fixpoint check_threads (h : helper) (threads : list Z) (sums : Z * Z) : outcome (Z * Z) :=
  match threads with
  | [] => Ret sums
  | i :: threads' =>
      keys ← check_keys h i;
      '(rights, missing) ← check_loop h i keys (0, 0);
      check_threads h threads' (u64 (sums.1 + rights), u64 (sums.2 + missing))
  end.

(** The numbers of right and of missing values, and whether all the loaded keys
    have been found right. *)
Definition CheckDBLoad (h : helper) : outcome (Z * Z * bool) :=
  count ← deref (warmup_kv_count_in_this_ps_ h);
  '(inserted_kv_nr, missing_kv_nr) ← check_threads h (seqZ 0 check_thread_num) (0, 0);
  if inserted_kv_nr =? count then Ret (inserted_kv_nr, missing_kv_nr, true)
  else if count =? 0 then Err Undefined
  else Ret (inserted_kv_nr, missing_kv_nr, false).
End LoadDBHelper.
Arguments helper : clear implicits.
End LoadDBHelper.

(** ** The floats of a key are near the key *)

Lemma f32_of_u64_range key : 0 <= key < 2 ^ 64 -> 0 <= f32_of_u64 key < 192 * 2 ^ 23.
Proof.
  intros Hk. unfold f32_of_u64. destruct (key =? 0) eqn:E0; b2p; [lia|].
  assert (Hn : 0 <= Z.log2 key <= 63).
  { split; [apply Z.log2_nonneg|]. apply Z.lt_succ_r. change (Z.succ 63) with 64. apply Z.log2_lt_pow2; lia. }
  destruct (Z.log2_spec key ltac:(lia)) as [Hlo Hhi]. set (n := Z.log2 key) in *.
  assert (Hq : forall q, 0 <= q <= 2 ^ 24 -> 0 <= (n + 126) * 2 ^ 23 + q < 192 * 2 ^ 23) by lia.
  apply Hq. destruct (n <=? 23) eqn:E; b2p.
  - split; [nia|]. replace (2 ^ 24) with (2 ^ Z.succ n * 2 ^ (23 - n)); [nia|].
    rewrite <- Z.pow_add_r by lia. f_equal. lia.
  - assert (0 <= key / 2 ^ (n - 23) < 2 ^ 24).
    { split; [apply Z.div_pos; lia|]. apply Z.div_lt_upper_bound; [lia|].
      rewrite <- Z.pow_add_r by lia. by replace (n - 23 + 24) with (Z.succ n) by lia. }
    cbv zeta. destruct (_ || _); lia.
Qed.

Lemma f32_finite key : 0 <= key < 2 ^ 64 -> exists v, f32_value (f32_of_u64 key) = Some v.
Proof.
  intros Hk. pose proof (f32_of_u64_range key Hk) as Hr. unfold f32_value.
  assert (He : f32_of_u64 key / 2 ^ 23 mod 2 ^ 8 <> 255).
  { assert (0 <= f32_of_u64 key / 2 ^ 23 < 192) by (split; [apply Z.div_pos|apply Z.div_lt_upper_bound]; lia).
    rewrite Z.mod_small by lia. lia. }
  rewrite (proj2 (Z.eqb_neq _ _) He). by eexists.
Qed.

Lemma near_self key : 0 <= key < 2 ^ 64 -> near (f32_of_u64 key) key = true.
Proof.
  intros Hk. destruct (f32_finite key Hk) as [v Hv]. unfold near. rewrite Hv, Z.sub_diag. done.
Qed.

(** ** The ranges of the threads *)

Section Facts.
Import LoadDBHelper.
Context {K : Type} `{!BaseKV K, !BaseKVLaws K} (vs : Z) (partition : Z -> Z).
Implicit Types (h : helper K) (C : gmap Z (list Z)).

Notation own := (own_keys partition).

(** A capacity and a number of threads for which nothing overflows. *)
Definition sizes_ok h (threads : Z) : Prop :=
  0 <= warm_capacity_ h < 2 ^ 61 /\ 0 < threads < 2 ^ 31.

Lemma end_eq h threads : sizes_ok h threads -> end_ h = warm_capacity_ h + 1.
Proof. intros [Hc _]. unfold end_. rewrite i64_small, u64_small by lia. done. Qed.

Lemma per_thread_eq h threads :
  sizes_ok h threads ->
  warm_kv_per_thread h threads = (warm_capacity_ h + threads - 1) / threads /\
  warm_capacity_ h <= threads * warm_kv_per_thread h threads < warm_capacity_ h + threads.
Proof.
  intros [Hc Ht]. unfold warm_kv_per_thread. rewrite !i64_small by (rewrite ?i64_small; lia).
  rewrite Z.quot_div_nonneg by lia. set (x := warm_capacity_ h + threads - 1).
  pose proof (Z.div_mod x threads ltac:(lia)). pose proof (Z.mod_pos_bound x threads ltac:(lia)).
  assert (0 <= x / threads < 2 ^ 64).
  { split; [apply Z.div_pos; lia|]. apply Z.div_lt_upper_bound; nia. }
  rewrite u64_small by lia. split; [done|lia].
Qed.

Lemma range_eq h threads i :
  sizes_ok h threads -> 0 <= i < threads ->
  let per := warm_kv_per_thread h threads in
  range_start h threads i = 1 + i * per /\
  range_end h threads i = Z.min (warm_capacity_ h + 1) (1 + (i + 1) * per).
Proof.
  intros Hs Hi. cbn zeta. destruct (per_thread_eq h threads Hs) as [_ Hp]. destruct Hs as [Hc Ht].
  set (per := warm_kv_per_thread h threads) in *. assert (0 <= per) by nia.
  assert (0 <= i * per <= threads * per) by nia. assert (0 <= (i + 1) * per <= threads * per) by nia.
  unfold range_start, range_end, start. fold per. rewrite (end_eq h threads (conj Hc Ht)).
  rewrite (u64_small i), (u64_small (i + 1)) by lia. rewrite (u64_small (i * per)), (u64_small ((i + 1) * per)) by lia.
  rewrite !u64_small by lia. done.
Qed.

Lemma own_app h lo mid hi : lo <= mid <= hi -> own h lo hi = own h lo mid ++ own h mid hi.
Proof.
  intros Hm. unfold own_keys. replace (hi - lo) with ((mid - lo) + (hi - mid)) by lia.
  rewrite seqZ_app', filter_app by lia. by replace (lo + (mid - lo)) with mid by lia.
Qed.

Lemma own_empty h lo hi : hi <= lo -> own h lo hi = [].
Proof. intros Hl. unfold own_keys. by rewrite seqZ_nil by lia. Qed.

(** The first [n] ranges. *)
Lemma ranges_prefix h threads (n : nat) :
  sizes_ok h threads -> Z.of_nat n <= threads ->
  concat ((fun i => own h (range_start h threads i) (range_end h threads i)) <$> seqZ 0 (Z.of_nat n)) =
  own h 1 (Z.min (warm_capacity_ h + 1) (1 + Z.of_nat n * warm_kv_per_thread h threads)).
Proof.
  intros Hs. destruct (per_thread_eq h threads Hs) as [_ Hp]. pose proof Hs as [Hc Ht].
  induction n as [|n IH]; intros Hn.
  - rewrite own_empty by lia. done.
  - rewrite Nat2Z.inj_succ, <- Z.add_1_r, seqZ_app', fmap_app, concat_app, IH by lia.
    rewrite (seqZ_cons _ 1), (seqZ_nil _ (Z.pred 1)) by lia. cbn [fmap list_fmap concat]. rewrite app_nil_r.
    destruct (range_eq h threads (0 + Z.of_nat n) Hs ltac:(lia)) as [-> ->].
    set (per := warm_kv_per_thread h threads) in *. assert (0 <= per) by nia.
    destruct (Z.le_gt_cases (Z.of_nat n * per) (warm_capacity_ h)).
    + rewrite Z.add_0_l, Z.min_r by lia. rewrite <- own_app by lia. done.
    + rewrite !(Z.min_l (warm_capacity_ h + 1)) by nia. rewrite (own_empty h (1 + _)) by nia. by rewrite app_nil_r.
Qed.

Lemma ranges_cover h threads :
  sizes_ok h threads ->
  concat ((fun i => own h (range_start h threads i) (range_end h threads i)) <$> seqZ 0 threads) =
  own h start (end_ h).
Proof.
  intros Hs. pose proof Hs as [Hc Ht]. replace (seqZ 0 threads) with (seqZ 0 (Z.of_nat (Z.to_nat threads))) by (f_equal; lia).
  rewrite (ranges_prefix h threads) by (done || lia). rewrite Z2Nat.id by lia.
  destruct (per_thread_eq h threads Hs) as [_ Hp]. rewrite Z.min_l by lia. by rewrite (end_eq h threads Hs).
Qed.

(** ** Loading *)

Definition value_size_ok : Prop := 0 <= vs <= 32 * 1024.

Lemma embedding_length key : value_size_ok -> Z.of_nat (length (embedding vs key)) = vs.
Proof.
  intros Hv. unfold value_size_ok in Hv. unfold embedding. rewrite u64_small by lia.
  rewrite length_app, encode_length, !length_replicate.
  pose proof (Z.div_mod vs 4). pose proof (Z.mod_pos_bound vs 4). lia.
Qed.

(** The map after loading [keys]. *)
Definition load_map C (keys : list Z) : gmap Z (list Z) :=
  foldr (fun k m => <[k := embedding vs k]> m) C keys.

Lemma load_map_lookup C keys k :
  load_map C keys !! k = if decide (k ∈ keys) then Some (embedding vs k) else C !! k.
Proof.
  induction keys as [|k0 keys IH]; cbn [load_map foldr].
  - rewrite decide_False by set_solver. done.
  - fold (load_map C keys). destruct (decide (k = k0)) as [->|Hne].
    + rewrite lookup_insert_eq, decide_True by set_solver. done.
    + rewrite lookup_insert_ne, IH by done. apply decide_ext. set_solver.
Qed.

Lemma load_map_perm C l1 l2 : l1 ≡ₚ l2 -> load_map C l1 = load_map C l2.
Proof.
  intros HP. apply map_eq. intros k. rewrite !load_map_lookup. apply decide_ext. by rewrite HP.
Qed.

Lemma load_map_insert C k keys : k ∉ keys -> load_map (<[k := embedding vs k]> C) keys = load_map C (k :: keys).
Proof.
  intros Hk. apply map_eq. intros x. rewrite !load_map_lookup. destruct (decide (x = k)) as [->|Hne].
  - rewrite decide_False, lookup_insert_eq, decide_True by set_solver. done.
  - rewrite lookup_insert_ne by done. apply decide_ext. set_solver.
Qed.

Lemma run_puts_loads kv C (puts : list (Z * Z)) :
  value_size_ok -> kv_holds kv C -> kv_room kv vs puts.*1 ->
  Forall (fun k => 0 <= k < 2 ^ 64) puts.*1 -> NoDup puts.*1 -> (forall k, k ∈ puts.*1 -> C !! k = None) ->
  exists kv', run_puts vs kv puts = Ret kv' /\ kv_holds kv' (load_map C puts.*1).
Proof.
  intros Hv. revert kv C. induction puts as [|[k t] puts IH]; intros kv C HC Hr Hrg Hnd Hno; [by exists kv|].
  cbn [fmap list_fmap fst] in *. apply NoDup_cons in Hnd as [Hk Hnd]. apply Forall_cons in Hrg as [Hkr Hrg].
  cbn [run_puts]. unfold put. unfold value_size_ok in Hv.
  replace ((0 <=? vs) && (vs <=? 32 * 1024)) with true by (symmetry; apply andb_true_iff; lia).
  pose proof (embedding_length k Hv) as Hl.
  destruct (kv_Put_law kv C k (embedding vs k) t puts.*1) as (kv' & HP & HC' & Hr');
    [done|done|by rewrite Hl|apply Hno; set_solver|].
  rewrite HP. cbn [mbind outcome_bind]. rewrite Hl in Hr'.
  destruct (IH kv' _ HC' Hr' Hrg Hnd) as (kv2 & HR & HC2).
  { intros x Hx. rewrite lookup_insert_ne; [apply Hno; set_solver|by intros ->]. }
  exists kv2. split; [exact HR|]. by rewrite <- load_map_insert.
Qed.

Lemma own_NoDup h lo hi : NoDup (own h lo hi).
Proof. apply NoDup_filter, NoDup_seqZ. Qed.

Lemma own_range h threads : sizes_ok h threads -> Forall (fun k => 0 <= k < 2 ^ 64) (own h start (end_ h)).
Proof.
  intros Hs. apply Forall_forall. intros k Hk. unfold own_keys in Hk. apply list_elem_of_filter in Hk as [_ Hk%elem_of_seqZ].
  rewrite (end_eq h _ Hs) in Hk. unfold start in Hk. destruct Hs; lia.
Qed.

Lemma thread_puts_keys h i :
  (thread_puts partition h i).*1 =
  own h (range_start h (warm_thread_count_ h) i) (range_end h (warm_thread_count_ h) i).
Proof. unfold thread_puts. rewrite <- list_fmap_compose. apply list_fmap_id. Qed.

(** The keys that the threads put, in any order of their steps. *)
Lemma order_keys h (order : list (Z * Z)) :
  sizes_ok h (warm_thread_count_ h) ->
  interleaving (thread_puts partition h <$> seqZ 0 (warm_thread_count_ h)) order ->
  order.*1 ≡ₚ own h start (end_ h).
Proof.
  intros Hs Hil. apply interleaving_perm in Hil. rewrite Hil, <- (ranges_cover h _ Hs).
  rewrite fmap_concat, <- list_fmap_compose. apply reflexive_eq. f_equal.
  apply list_fmap_ext. intros _ i _. apply thread_puts_keys.
Qed.

Lemma PreLoadDB_run h C order :
  value_size_ok -> sizes_ok h (warm_thread_count_ h) ->
  kv_holds (kv_ h) C -> (forall k, k ∈ own h start (end_ h) -> C !! k = None) ->
  kv_room (kv_ h) vs (own h start (end_ h)) ->
  interleaving (thread_puts partition h <$> seqZ 0 (warm_thread_count_ h)) order ->
  exists kv', PreLoadDB vs partition h false order =
      Ret {| kv_ := kv'; server_id_ := server_id_ h; warm_thread_count_ := warm_thread_count_ h;
             warmup_kv_count_in_this_ps_ := Some (own_count partition h); warm_capacity_ := warm_capacity_ h |} /\
    kv_holds kv' (load_map C (own h start (end_ h))).
Proof.
  intros Hv Hs HC Hno Hr Hil. pose proof (order_keys h order Hs Hil) as HP.
  destruct (run_puts_loads (kv_ h) C order) as (kv' & HR & HC'); [done|done| | | | |].
  - by eapply kv_room_perm.
  - rewrite HP. by apply (own_range h (warm_thread_count_ h)).
  - rewrite HP. apply own_NoDup.
  - intros k. rewrite HP. apply Hno.
  - exists kv'. unfold PreLoadDB. destruct Hs as [_ Ht].
    rewrite (proj2 (Z.eqb_neq (warm_thread_count_ h) 0)) by lia. cbn [mbind outcome_bind]. rewrite HR.
    split; [done|]. by rewrite <- (load_map_perm C _ _ HP).
Qed.

(** ** Checking *)

Lemma embedding_float key k :
  value_size_ok -> (k < Z.to_nat (u64 vs / 4))%nat -> 0 <= key < 2 ^ 64 ->
  le_value (take 4 (drop (4 * k) (embedding vs key))) = f32_of_u64 key.
Proof.
  intros Hv Hk Hkey. unfold embedding. set (n := Z.to_nat (u64 vs / 4)) in *. set (x := f32_of_u64 key).
  replace n with (k + S (n - S k))%nat at 1 by lia. rewrite replicate_add. unfold encode.
  rewrite fmap_app, concat_app, <- app_assoc, drop_app_length'.
  - cbn [replicate fmap list_fmap concat]. rewrite <- !app_assoc, take_app_length' by (by rewrite le_bytes_length).
    apply le_value_bytes. pose proof (f32_of_u64_range key Hkey). change (256 ^ Z.of_nat 4) with (2 ^ 32). lia.
  - fold (encode 4 (replicate k x)). by rewrite encode_length, length_replicate.
Qed.

Lemma floats_near_embedding key :
  value_size_ok -> 0 <= key < 2 ^ 64 ->
  floats_near (Z.to_nat (u64 vs / 4)) (embedding vs key) key = Ret true.
Proof.
  intros Hv Hk. unfold floats_near. pose proof (embedding_length key Hv) as Hl. unfold value_size_ok in Hv.
  pose proof (Z.div_mod vs 4). pose proof (Z.mod_pos_bound vs 4).
  rewrite (proj2 (Nat.ltb_ge _ _)) by (rewrite u64_small by lia; lia). f_equal.
  apply forallb_forall. intros k Hin%in_seq. rewrite embedding_float by (done || lia). by apply near_self.
Qed.

Lemma check_loop_right h C i keys r m :
  value_size_ok -> 4 <= vs -> kv_holds (kv_ h) C ->
  Forall (fun k => 0 <= k < 2 ^ 64 /\ C !! k = Some (embedding vs k)) keys ->
  check_loop vs h i keys (r, m) = Ret (r + Z.of_nat (length keys), m).
Proof.
  intros Hv H4 HC HF. revert r. induction HF as [|k keys [Hk Hc] _ IH]; intros r; cbn [check_loop].
  - f_equal. f_equal. cbn. lia.
  - rewrite (kv_Get_law _ C), Hc by done. cbn [mbind outcome_bind from_option id].
    unfold id. pose proof (floats_near_embedding k Hv Hk) as Hn. pose proof (embedding_length k Hv) as Hl.
    destruct (embedding vs k) as [|b bs]; [cbn in Hl; lia|]. rewrite Hn. cbn [mbind outcome_bind fst snd].
    rewrite IH. f_equal. f_equal. cbn [length]. lia.
Qed.

(** With fewer than 2^31 keys the [int] counter reaches all of a range. *)
Lemma check_keys_eq h i :
  0 <= warm_capacity_ h < 2 ^ 31 - 37 -> 0 <= i < check_thread_num ->
  check_keys partition h i = Ret (own h (range_start h check_thread_num i) (range_end h check_thread_num i)).
Proof.
  intros Hc Hi. assert (Hs : sizes_ok h check_thread_num) by (unfold sizes_ok, check_thread_num; lia).
  unfold check_keys. destruct (range_eq h check_thread_num i Hs Hi) as [-> ->].
  destruct (per_thread_eq h check_thread_num Hs) as [_ Hp]. unfold check_thread_num in *.
  set (per := warm_kv_per_thread h 36) in *. rewrite i32_small, u64_small by nia.
  destruct (_ <? _) eqn:E; b2p.
  - rewrite (proj2 (Z.ltb_lt _ _)) by lia. done.
  - by rewrite own_empty by lia.
Qed.

Lemma check_threads_right h C (l : list Z) r :
  value_size_ok -> 4 <= vs -> kv_holds (kv_ h) C -> 0 <= warm_capacity_ h < 2 ^ 31 - 37 ->
  Forall (fun i => 0 <= i < check_thread_num) l ->
  let keys := concat ((fun i => own h (range_start h check_thread_num i) (range_end h check_thread_num i)) <$> l) in
  Forall (fun k => 0 <= k < 2 ^ 64 /\ C !! k = Some (embedding vs k)) keys ->
  0 <= r -> r + Z.of_nat (length keys) < 2 ^ 64 ->
  check_threads vs partition h l (r, 0) = Ret (r + Z.of_nat (length keys), 0).
Proof.
  intros Hv H4 HC Hcap HF. revert r. induction HF as [|i l Hi _ IH]; intros r keys Hk Hr Hlen; cbn [check_threads].
  - f_equal. f_equal. cbn. lia.
  - subst keys. cbn [fmap list_fmap concat] in *. apply Forall_app in Hk as [Hk1 Hk2]. rewrite length_app in *.
    rewrite check_keys_eq by done. cbn [mbind outcome_bind].
    rewrite (check_loop_right h C) by done. cbn [mbind outcome_bind fst snd].
    change (u64 (0 + 0)) with 0. rewrite u64_small by lia. rewrite IH by (done || lia). f_equal. f_equal. lia.
Qed.

Lemma own_length h threads :
  sizes_ok h threads -> Z.of_nat (length (own h start (end_ h))) <= warm_capacity_ h.
Proof.
  intros Hs. rewrite (end_eq h _ Hs). unfold own_keys, start.
  pose proof (length_filter (fun j => partition j = server_id_ h) (seqZ 1 (warm_capacity_ h + 1 - 1))) as Hf.
  rewrite length_seqZ in Hf. destruct Hs; lia.
Qed.

(** PreLoadDB, then CheckDBLoad. *)
Lemma PreLoad_Check h C order :
  value_size_ok -> 4 <= vs -> sizes_ok h (warm_thread_count_ h) -> warm_capacity_ h < 2 ^ 31 - 37 ->
  kv_holds (kv_ h) C -> (forall k, k ∈ own h start (end_ h) -> C !! k = None) ->
  kv_room (kv_ h) vs (own h start (end_ h)) ->
  interleaving (thread_puts partition h <$> seqZ 0 (warm_thread_count_ h)) order ->
  exists h', PreLoadDB vs partition h false order = Ret h' /\
    kv_holds (kv_ h') (load_map C (own h start (end_ h))) /\
    CheckDBLoad vs partition h' = Ret (own_count partition h, 0, true).
Proof.
  intros Hv H4 Hs Hcap HC Hno Hr Hil.
  destruct (PreLoadDB_run h C order Hv Hs HC Hno Hr Hil) as (kv' & HP & HC').
  eexists. split; [exact HP|]. split; [exact HC'|]. set (h' := Build_helper _ _ _ _ _).
  assert (Hs' : sizes_ok h' check_thread_num) by (unfold sizes_ok, check_thread_num; destruct Hs; cbn; lia).
  pose proof (ranges_cover h' _ Hs') as Hcov.
  change (own h' start (end_ h')) with (own h start (end_ h)) in Hcov.
  assert (Hlen : Z.of_nat (length (own h start (end_ h))) <= warm_capacity_ h).
  { by apply (own_length h (warm_thread_count_ h)). }
  unfold CheckDBLoad. cbn [warmup_kv_count_in_this_ps_ h' deref mbind outcome_bind].
  pose proof (check_threads_right h' _ (seqZ 0 check_thread_num) 0 Hv H4 HC') as Hct. cbn zeta in Hct.
  rewrite Hcov in Hct. rewrite Hct; [|destruct Hs; cbn; lia| | |lia|lia].
  - cbn [mbind outcome_bind]. unfold own_count. rewrite Z.add_0_l, Z.eqb_refl. done.
  - apply Forall_forall. intros i Hi%elem_of_seqZ. lia.
  - pose proof (own_range h _ Hs) as Hrg. rewrite Forall_forall in Hrg |- *. intros k Hk.
    split; [by apply Hrg|by rewrite load_map_lookup, decide_True].
Qed.

End Facts.

(** ** A load on the map engine *)

#[local] Existing Instance map_base.
#[local] Existing Instance map_base_laws.

Definition small_load : LoadDBHelper.helper KVEngineMap.kv :=
  {| LoadDBHelper.kv_ := map_engine; LoadDBHelper.server_id_ := 0; LoadDBHelper.warm_thread_count_ := 2;
     LoadDBHelper.warmup_kv_count_in_this_ps_ := None; LoadDBHelper.warm_capacity_ := 5 |}.


(** With a capacity of 2^31 or more a checking thread overflows its [int]
    counter; with more, a range that starts at 2^31 or later is skipped. *)
Lemma CheckDBLoad_int_counter :
  let h c := {| LoadDBHelper.kv_ := map_engine; LoadDBHelper.server_id_ := 0;
                LoadDBHelper.warm_thread_count_ := 1; LoadDBHelper.warmup_kv_count_in_this_ps_ := None;
                LoadDBHelper.warm_capacity_ := c |} in
  LoadDBHelper.check_keys parity (h (2 ^ 31)) 35 = Err Undefined /\
  LoadDBHelper.check_keys parity (h 3000000000) 30 = Ret [] /\
  LoadDBHelper.range_start (h 3000000000) 36 30 < LoadDBHelper.range_end (h 3000000000) 36 30.
Proof. split_and!; by vm_compute. Qed.
