(* ===== verification/Dataset.v ===== *)
(** * The data sets (src/benchmark)

    The files of requests: [PetCursor] and [PetDatasetReader] of
    parse_dataset.h, the sample readers of sample_reader.h, the renumbering of
    the ids (dataset_renumbering.cc) and the count of their occurrences
    (dataset_wordcount.cc).

    A file is the list of its bytes; a pointer into it is a position.  An
    exception that nobody catches ([std::out_of_range], [std::length_error])
    ends the process like a failed [LOG(FATAL)]. *)

From stdpp Require Import base numbers list gmap.
From Stdlib Require Import ZArith Lia.
From S2P Require Import Prelude PetKV Array.

(** ** PetCursor *)

Module PetCursor.

(** [start_] is position 0 and is not used after construction. *)
Record cursor := Build_cursor {
  data_ : nat;
  end_ : nat
}.

Definition make (content : list Z) : cursor := {| data_ := 0; end_ := length content |}.

(** The reference that is returned is read after the check. *)
Definition read (width : nat) (content : list Z) (c : cursor) : outcome (cursor * Z) :=
  let p := data_ c in
  let c := {| data_ := p + width; end_ := end_ c |} in
  _ ← CHECK (data_ c <=? end_ c)%nat;
  Ret (c, le_value (take width (drop p content))).

Definition ReadInt (content : list Z) (c : cursor) : outcome (cursor * Z) :=
  '(c, x) ← read 4 content c; Ret (c, i32 x).
Definition ReadUint64 (content : list Z) (c : cursor) : outcome (cursor * Z) := read 8 content c.
Definition ReadInt64 (content : list Z) (c : cursor) : outcome (cursor * Z) :=
  '(c, x) ← read 8 content c; Ret (c, i64 x).

Definition isEnd (c : cursor) : bool := (data_ c =? end_ c)%nat.
End PetCursor.

(** The two checks on the dimension of an embedding. *)
Definition check_dim (dim : Z) : outcome unit :=
  _ ← CHECK ((4 <=? dim) && (dim <=? 64));
  CHECK ((dim =? 4) || (dim =? 8) || (dim =? 16) || (dim =? 32) || (dim =? 64)).

(** ** PetDatasetReader *)

Module PetDatasetReader.

Record PetSample := Build_PetSample {
  key_num_ : Z;
  keys_ : list Z
}.

Section Parse.
Context (hashed_key_space_ : Z).
Implicit Types (c : PetCursor.cursor).

(** The loop over the keys of a request, [n] keys left. *)
Fixpoint read_keys (n : nat) (content : list Z) c : outcome (PetCursor.cursor * list Z) :=
  match n with
  | O => Ret (c, [])
  | S n' =>
      '(c, x) ← PetCursor.ReadUint64 content c;
      _ ← (if hashed_key_space_ =? 0 then Err Undefined else Ret tt);
      let key := u64 (x mod hashed_key_space_ + 1) in
      '(c, dim) ← PetCursor.ReadInt content c;
      _ ← check_dim dim;
      '(c, keys) ← read_keys n' content c;
      Ret (c, key :: keys)
  end.

(** The loop over the requests; a negative number of keys is an exception of
    the constructor of the vector. *)
Fixpoint read_requests (n : nat) (content : list Z) c : outcome (list PetSample) :=
  match n with
  | O => Ret []
  | S n' =>
      '(c, nr_keys) ← PetCursor.ReadInt content c;
      _ ← (if nr_keys <? 0 then Err LogFatal else Ret tt);
      '(c, keys) ← read_keys (Z.to_nat nr_keys) content c;
      samples ← read_requests n' content c;
      Ret ({| key_num_ := nr_keys; keys_ := keys |} :: samples)
  end.

Definition read_file (content : list Z) : outcome (list PetSample) :=
  '(c, nr_request) ← PetCursor.ReadInt content (PetCursor.make content);
  read_requests (Z.to_nat nr_request) content c.

(** The files of one thread, in order. *)
Fixpoint read_files (contents : list (list Z)) : outcome (list PetSample) :=
  match contents with
  | [] => Ret []
  | f :: contents' =>
      s ← read_file f;
      rest ← read_files contents';
      Ret (s ++ rest)
  end.
End Parse.

(** [x] is at position [i] modulo [n]: the files with [i mod n = r]. *)
Definition every {A} (n r : Z) (files : list A) : list A :=
  snd <$> filter (fun p => p.1 mod n = r) (imap (fun i f => (Z.of_nat i, f)) files).

(** [sample_index] is the [thread_local] variable of [ReadNext], by thread. *)
Record reader := Build_reader {
  hashed_key_space_ : Z;
  dataset_files_ : list (list Z);
  thread_samples : list (list PetSample);
  repeat_ : bool;
  sample_index : gmap Z Z
}.

(** The reading threads. *)
Fixpoint read_threads (space threads : Z) (files : list (list Z)) (tids : list Z) :
    outcome (list (list PetSample)) :=
  match tids with
  | [] => Ret []
  | tid :: tids' =>
      s ← read_files space (every threads tid files);
      rest ← read_threads space threads files tids';
      Ret (s :: rest)
  end.

(** The constructor, on the contents of the files that the pattern matches, in
    the order of [glob]. *)
Definition make (files : list (list Z)) (num_clients client_id reader_thread_count hashed_key_space_M : Z)
    (repeat : bool) : outcome reader :=
  let space := u64 (hashed_key_space_M * 1024 * 1024) in
  _ ← (if (num_clients =? 0) || (reader_thread_count =? 0) then Err Undefined else Ret tt);
  let mine := every num_clients client_id files in
  _ ← CHECK (negb (length mine =? 0)%nat);
  samples ← read_threads space reader_thread_count mine (seqZ 0 reader_thread_count);
  Ret {| hashed_key_space_ := space; dataset_files_ := mine; thread_samples := samples; repeat_ := repeat;
         sample_index := ∅ |}.

(** [ReadNext(tid)], called in the thread [self]. *)
Definition ReadNext (r : reader) (self tid : Z) : outcome (reader * PetSample) :=
  let index := default 0 (sample_index r !! self) in
  samples ← (match thread_samples r !! Z.to_nat tid with Some s => Ret s | None => Err LogFatal end);
  ret ← (match samples !! Z.to_nat index with Some s => Ret s | None => Err LogFatal end);
  let index := i32 (index + 1) in
  index ← (if index =? Z.of_nat (length samples) then if repeat_ r then Ret 0 else Err LogFatal else Ret index);
  Ret ({| hashed_key_space_ := hashed_key_space_ r; dataset_files_ := dataset_files_ r;
          thread_samples := thread_samples r; repeat_ := repeat_ r;
          sample_index := <[self := index]> (sample_index r) |}, ret).
End PetDatasetReader.

(** ** The sample readers *)

Module PetDatasetSampleReader.
Import PetDatasetReader.

Record sample_reader := Build_sample_reader {
  tid_ : Z;
  nr_keys_per_req_ : Z;
  cursor_ : Z;
  cursor_sample_ : PetSample;
  dataset_reader_ : reader
}.

Definition make (r : reader) (self tid nr_keys_per_req : Z) : outcome sample_reader :=
  '(r, s) ← ReadNext r self tid;
  Ret {| tid_ := tid; nr_keys_per_req_ := nr_keys_per_req; cursor_ := 0; cursor_sample_ := s;
         dataset_reader_ := r |}.

(** The loop of [fillArray]; [filled] are the keys in the buffer.  The loop
    goes on until the buffer has exactly [nr_keys_per_req_] keys. *)
Fixpoint fill_loop (fuel : nat) (self : Z) (s : sample_reader) (filled : list Z) : outcome (sample_reader * list Z) :=
  match fuel with
  | O => Err Diverges
  | S fuel' =>
      if Z.of_nat (length filled) =? nr_keys_per_req_ s then Ret (s, filled)
      else
        if cursor_ s <? key_num_ (cursor_sample_ s) then
          _ ← CHECK (key_num_ (cursor_sample_ s) =? Z.of_nat (length (keys_ (cursor_sample_ s))));
          let remained := key_num_ (cursor_sample_ s) - cursor_ s in
          let need := Z.min remained (nr_keys_per_req_ s - Z.of_nat (length filled)) in
          let copied := take (Z.to_nat need) (drop (Z.to_nat (cursor_ s)) (keys_ (cursor_sample_ s))) in
          fill_loop fuel' self
            {| tid_ := tid_ s; nr_keys_per_req_ := nr_keys_per_req_ s; cursor_ := cursor_ s + need;
               cursor_sample_ := cursor_sample_ s; dataset_reader_ := dataset_reader_ s |} (filled ++ copied)
        else
          '(r, sample) ← ReadNext (dataset_reader_ s) self (tid_ s);
          fill_loop fuel' self
            {| tid_ := tid_ s; nr_keys_per_req_ := nr_keys_per_req_ s; cursor_ := 0;
               cursor_sample_ := sample; dataset_reader_ := r |} filled
  end.

Definition fillArray (fuel : nat) (self : Z) (s : sample_reader) : outcome (sample_reader * list Z) :=
  fill_loop fuel self s [].
End PetDatasetSampleReader.

Module PetDatasetInferenceReader.
Import PetDatasetReader.

(** [keys_->at(0)] of an empty sample is an exception. *)
Definition fillArray (r : reader) (self tid : Z) : outcome (reader * list Z) :=
  '(r, s) ← ReadNext r self tid;
  _ ← (if (length (keys_ s) =? 0)%nat then Err LogFatal else Ret tt);
  _ ← CHECK (key_num_ s <=? 500);
  Ret (r, take (Z.to_nat (key_num_ s)) (keys_ s)).
End PetDatasetInferenceReader.

(** ** dataset_renumbering.cc *)

Module Renumbering.

Record FileMeta := Build_FileMeta {
  nr_request : Z;
  nr_keys : Z
}.

(** Assignment through the reference that [ReadUint64] returned. *)
Definition write_at (content : list Z) (pos : nat) (bs : list Z) : list Z :=
  take pos content ++ bs ++ drop (pos + length bs) content.

Section Renumber.
Context (renumber_map : gmap Z Z).

Fixpoint renumber_keys (n : nat) (content : list Z) (c : PetCursor.cursor) : outcome (list Z * PetCursor.cursor) :=
  match n with
  | O => Ret (content, c)
  | S n' =>
      let pos := PetCursor.data_ c in
      '(c, key) ← PetCursor.ReadUint64 content c;
      '(c, dim) ← PetCursor.ReadInt content c;
      _ ← check_dim dim;
      new ← (match renumber_map !! key with Some x => Ret x | None => Err CheckFailed end);
      renumber_keys n' (write_at content pos (le_bytes 8 new)) c
  end.

Fixpoint renumber_requests (n : nat) (content : list Z) (c : PetCursor.cursor) (nr_keys : Z) :
    outcome (list Z * Z) :=
  match n with
  | O => Ret (content, nr_keys)
  | S n' =>
      '(c, k) ← PetCursor.ReadInt content c;
      '(content, c) ← renumber_keys (Z.to_nat k) content c;
      renumber_requests n' content c (i32 (nr_keys + k))
  end.

(** [RenumberID]: the new content of the file and its numbers. *)
Definition RenumberID (content : list Z) : outcome (list Z * FileMeta) :=
  '(c, n) ← PetCursor.ReadInt content (PetCursor.make content);
  '(content, k) ← renumber_requests (Z.to_nat n) content c 0;
  Ret (content, {| nr_request := n; nr_keys := k |}).
End Renumber.

(** A loop over the keys of a file that only reads: each key is passed to [f]. *)
Section Visit.
Context {A : Type} (f : A -> Z -> outcome A).

Fixpoint visit_keys (n : nat) (content : list Z) (c : PetCursor.cursor) (a : A) : outcome (A * PetCursor.cursor) :=
  match n with
  | O => Ret (a, c)
  | S n' =>
      '(c, key) ← PetCursor.ReadUint64 content c;
      '(c, dim) ← PetCursor.ReadInt content c;
      _ ← check_dim dim;
      a ← f a key;
      visit_keys n' content c a
  end.

Fixpoint visit_requests (n : nat) (content : list Z) (c : PetCursor.cursor) (a : A) : outcome A :=
  match n with
  | O => Ret a
  | S n' =>
      '(c, k) ← PetCursor.ReadInt content c;
      '(a, c) ← visit_keys (Z.to_nat k) content c a;
      visit_requests n' content c a
  end.

Definition visit_file (content : list Z) (a : A) : outcome A :=
  '(c, n) ← PetCursor.ReadInt content (PetCursor.make content);
  visit_requests (Z.to_nat n) content c a.
End Visit.

(** [Check] *)
Definition Check_ (content : list Z) (max_key : Z) : outcome unit :=
  visit_file (fun _ key => CHECK ((0 <=? key) && (key <? max_key))) content tt.

(** The comparison of the sort in [main]: both sides look up [a]. *)
Definition sort_before (id_count_map : gmap Z Z) (a b : Z) : bool :=
  default 0 (id_count_map !! a) >? default 0 (id_count_map !! a).

(** The ids and the map of the counts, from the words of the count file; the
    maps of folly keep the first value of a key. *)
Fixpoint pairs (data : list Z) : list (Z * Z) :=
  match data with
  | id :: count :: data' => (id, count) :: pairs data'
  | _ => []
  end.

Definition insert_first {A} (m : gmap Z A) (k : Z) (x : A) : gmap Z A :=
  match m !! k with Some _ => m | None => <[k := x]> m end.

Definition id_count_map (data : list Z) : gmap Z Z :=
  foldl (fun m p => insert_first m p.1 p.2) ∅ (pairs data).

(** [renumber_map->insert(ids[i], i)] *)
Fixpoint number_from (i : Z) (ids : list Z) (m : gmap Z Z) : gmap Z Z :=
  match ids with
  | [] => m
  | id :: ids' => number_from (i + 1) ids' (insert_first m id i)
  end.

(** The map of [main]; [ids] are the ids after the sort. *)
Definition make_renumber_map (ids : list Z) (key_num : Z) : outcome (gmap Z Z) :=
  let m := number_from 0 ids ∅ in
  _ ← CHECK (length ids =? size m)%nat;
  _ ← CHECK (Z.of_nat (length ids) =? key_num);
  Ret m.
End Renumbering.

(** ** dataset_wordcount.cc *)

Module WordCount.

Definition CountIDOccurrence (content : list Z) : outcome (gmap Z Z) :=
  Renumbering.visit_file
    (fun counter key => Ret (<[key := match counter !! key with None => 1 | Some n => u64 (n + 1) end]> counter))
    content ∅.

(** [MergeCounter]; each key of [b] is visited once. *)
Definition MergeCounter (a b : gmap Z Z) : gmap Z Z :=
  map_fold (fun k x a => <[k := match a !! k with None => x | Some n => u64 (n + x) end]> a) a b.

(** The counters of the files [lo, hi) merged into [a]. *)
Fixpoint count_files (contents : list (list Z)) (a : gmap Z Z) : outcome (gmap Z Z) :=
  match contents with
  | [] => Ret a
  | f :: contents' => c ← CountIDOccurrence f; count_files contents' (MergeCounter a c)
  end.

Definition file_num_per_thread (nr_files threads : Z) : Z := Z.quot (i32 (i32 (nr_files + threads) - 1)) threads.

Definition thread_files {A} (contents : list A) (threads i : Z) : list A :=
  let n := Z.of_nat (length contents) in
  let per := file_num_per_thread n threads in
  let lo := i * per in
  let hi := Z.min ((i + 1) * per) n in
  take (Z.to_nat (hi - lo)) (drop (Z.to_nat lo) contents).

(** The per-thread counters, in the order of the threads. *)
Fixpoint count_threads (contents : list (list Z)) (threads : Z) (tids : list Z) : outcome (list (gmap Z Z)) :=
  match tids with
  | [] => Ret []
  | i :: tids' =>
      c ← count_files (thread_files contents threads i) ∅;
      rest ← count_threads contents threads tids';
      Ret (c :: rest)
  end.

(** The final counter of [main]. *)
Definition final_counter (contents : list (list Z)) (threads : Z) : outcome (gmap Z Z) :=
  _ ← CHECK (negb (length contents =? 0)%nat);
  _ ← (if threads =? 0 then Err Undefined else Ret tt);
  cs ← count_threads contents threads (seqZ 0 threads);
  match cs with
  | [] => Err Undefined
  | c :: cs' => Ret (foldl MergeCounter c cs')
  end.
End WordCount.
