(* ===== verification/DatasetSpec.v ===== *)
(** * The data sets: what the readers read

    The format of a data-set file as an encoding [encode_file] of lists of
    (key, dimension) pairs; parsing, renumbering, checking and counting are
    then functions of those lists.  The sample readers deliver the keys of a
    thread as one stream that starts again at its end. *)

From stdpp Require Import base numbers list gmap.
From Stdlib Require Import ZArith Lia.
From S2P Require Import Prelude PetKV Array Dataset.

(** ** The file format *)

Definition encode_keys (ks : list (Z * Z)) : list Z := concat ((fun p => le_bytes 8 p.1 ++ le_bytes 4 p.2) <$> ks).
Definition encode_request (ks : list (Z * Z)) : list Z := le_bytes 4 (Z.of_nat (length ks)) ++ encode_keys ks.
Definition encode_requests (reqs : list (list (Z * Z))) : list Z := concat (encode_request <$> reqs).
Definition encode_file (reqs : list (list (Z * Z))) : list Z :=
  le_bytes 4 (Z.of_nat (length reqs)) ++ encode_requests reqs.

Definition pair_ok (p : Z * Z) : Prop := 0 <= p.1 < 2 ^ 64 /\ p.2 ∈ [4; 8; 16; 32; 64].
Definition request_ok (ks : list (Z * Z)) : Prop := Forall pair_ok ks /\ Z.of_nat (length ks) < 2 ^ 31.
Definition file_ok (reqs : list (list (Z * Z))) : Prop := Forall request_ok reqs /\ Z.of_nat (length reqs) < 2 ^ 31.

Lemma check_dim_ok p : pair_ok p -> check_dim p.2 = Ret tt.
Proof. intros [_ H]. rewrite !elem_of_cons, elem_of_nil in H. by destruct H as [->|[->|[->|[->|[->|[]]]]]]. Qed.

(** ** Reading at a position *)

(** The cursor behind [pre] in [content]. *)
Definition behind (pre content : list Z) : PetCursor.cursor :=
  {| PetCursor.data_ := length pre; PetCursor.end_ := length content |}.

Lemma read_behind content pre w x post :
  content = pre ++ le_bytes w x ++ post -> 0 <= x < 256 ^ Z.of_nat w ->
  PetCursor.read w content (behind pre content) = Ret (behind (pre ++ le_bytes w x) content, x).
Proof.
  intros E Hx. unfold PetCursor.read, behind. cbn [PetCursor.data_ PetCursor.end_].
  assert (Hl : (length pre + w <= length content)%nat) by (rewrite E, !length_app, le_bytes_length; lia).
  rewrite (proj2 (Nat.leb_le _ _) Hl). cbn [CHECK mbind outcome_bind].
  rewrite length_app, le_bytes_length. f_equal. f_equal.
  rewrite E, drop_app_length, take_app_length' by (by rewrite le_bytes_length). by apply le_value_bytes.
Qed.

Lemma ReadInt_behind content pre x post :
  content = pre ++ le_bytes 4 x ++ post -> 0 <= x < 2 ^ 31 ->
  PetCursor.ReadInt content (behind pre content) = Ret (behind (pre ++ le_bytes 4 x) content, x).
Proof.
  intros E Hx. unfold PetCursor.ReadInt. rewrite (read_behind content pre 4 x post E).
  - cbn [mbind outcome_bind]. by rewrite i32_small by lia.
  - change (256 ^ Z.of_nat 4) with (2 ^ 32). lia.
Qed.

Lemma ReadUint64_behind content pre x post :
  content = pre ++ le_bytes 8 x ++ post -> 0 <= x < 2 ^ 64 ->
  PetCursor.ReadUint64 content (behind pre content) = Ret (behind (pre ++ le_bytes 8 x) content, x).
Proof. intros E Hx. unfold PetCursor.ReadUint64. by apply (read_behind content pre 8 x post E). Qed.

(** One (key, dimension) pair. *)
Lemma pair_behind content pre p post :
  content = pre ++ (le_bytes 8 p.1 ++ le_bytes 4 p.2) ++ post -> pair_ok p ->
  PetCursor.ReadUint64 content (behind pre content) = Ret (behind (pre ++ le_bytes 8 p.1) content, p.1) /\
  PetCursor.ReadInt content (behind (pre ++ le_bytes 8 p.1) content) =
    Ret (behind (pre ++ le_bytes 8 p.1 ++ le_bytes 4 p.2) content, p.2).
Proof.
  intros E [Hk Hd]. split.
  - eapply ReadUint64_behind; [|done]. by rewrite E, <- !app_assoc.
  - rewrite (app_assoc pre). eapply ReadInt_behind; [by rewrite E, <- !app_assoc|].
    rewrite !elem_of_cons, elem_of_nil in Hd. lia.
Qed.

(** ** Parsing *)

Section Parse.
Import PetDatasetReader.
Context (space : Z) (Hspace : 0 < space < 2 ^ 64).

Definition hashed (k : Z) : Z := k mod space + 1.

Definition sample_of (ks : list (Z * Z)) : PetSample :=
  {| key_num_ := Z.of_nat (length ks); keys_ := (fun p => u64 (hashed p.1)) <$> ks |}.

Lemma read_keys_encode content pre ks post :
  content = pre ++ encode_keys ks ++ post -> Forall pair_ok ks ->
  read_keys space (length ks) content (behind pre content) =
    Ret (behind (pre ++ encode_keys ks) content, keys_ (sample_of ks)).
Proof.
  intros E HF. revert pre E. induction HF as [|p ks Hp _ IH]; intros pre E; cbn [length read_keys].
  - by rewrite app_nil_r.
  - change (encode_keys (p :: ks)) with ((le_bytes 8 p.1 ++ le_bytes 4 p.2) ++ encode_keys ks) in *.
    rewrite <- (app_assoc (_ ++ _)) in E. destruct (pair_behind content pre p _ E Hp) as [H1 H2].
    rewrite H1. cbn [mbind outcome_bind]. rewrite (proj2 (Z.eqb_neq space 0)) by lia. cbn [mbind outcome_bind].
    rewrite H2. cbn [mbind outcome_bind]. rewrite (check_dim_ok p Hp). cbn [mbind outcome_bind].
    rewrite IH by (by rewrite E, <- !app_assoc). cbn [mbind outcome_bind]. by rewrite <- !app_assoc.
Qed.

Lemma read_requests_encode content pre reqs post :
  content = pre ++ encode_requests reqs ++ post -> Forall request_ok reqs ->
  read_requests space (length reqs) content (behind pre content) = Ret (sample_of <$> reqs).
Proof.
  intros E HF. revert pre E. induction HF as [|ks reqs [Hks Hl] _ IH]; intros pre E; cbn [length read_requests]; [done|].
  change (encode_requests (ks :: reqs)) with (encode_request ks ++ encode_requests reqs) in E.
  unfold encode_request in E. rewrite <- !app_assoc in E.
  rewrite (ReadInt_behind content pre _ _ E) by lia. cbn [mbind outcome_bind].
  rewrite (proj2 (Z.ltb_ge _ 0)) by lia. cbn [mbind outcome_bind]. rewrite Nat2Z.id.
  rewrite (read_keys_encode content _ ks (encode_requests reqs ++ post)) by (done || by rewrite E, <- !app_assoc).
  cbn [mbind outcome_bind]. rewrite IH by (by rewrite E, <- !app_assoc). done.
Qed.

(** Parsing a data-set file: the file of a list of requests gives a sample
    per request, with the keys hashed into the key space, in their order. *)
Theorem read_file_roundtrip reqs post :
  file_ok reqs -> read_file space (encode_file reqs ++ post) = Ret (sample_of <$> reqs).
Proof.
  intros [HF Hl]. unfold read_file. set (content := encode_file reqs ++ post).
  change (PetCursor.make content) with (behind [] content).
  assert (E : content = [] ++ le_bytes 4 (Z.of_nat (length reqs)) ++ encode_requests reqs ++ post).
  { unfold content, encode_file. by rewrite <- app_assoc. }
  rewrite (ReadInt_behind content [] _ _ E) by lia. cbn [mbind outcome_bind]. rewrite Nat2Z.id.
  by apply (read_requests_encode content _ reqs post).
Qed.

(** What every file gives, if it is read at all. *)
Definition sample_ok (s : PetSample) : Prop :=
  key_num_ s = Z.of_nat (length (keys_ s)) /\ Forall (fun k => 1 <= k <= space) (keys_ s).

Lemma read_keys_sound n content c c' keys :
  read_keys space n content c = Ret (c', keys) ->
  length keys = n /\ Forall (fun k => 1 <= k <= space) keys.
Proof.
  revert c c' keys. induction n as [|n IH]; intros c c' keys H; cbn in H; [by simplify_eq|].
  inv_tuple. destruct (space =? 0); [done|]. inv_tuple.
  match goal with H : read_keys _ _ _ _ = Ret _ |- _ => apply IH in H as [<- HF] end.
  split; [done|]. constructor; [|done].
  match goal with |- context [?x mod space] => pose proof (Z.mod_pos_bound x space) end.
  rewrite u64_small by lia. lia.
Qed.

Lemma read_requests_sound n content c samples :
  read_requests space n content c = Ret samples -> Forall sample_ok samples.
Proof.
  revert c samples. induction n as [|n IH]; intros c samples H; cbn in H; [simplify_eq; constructor|].
  inv_tuple. destruct (_ <? 0) eqn:E; [done|]. inv_tuple. b2p.
  match goal with H : read_keys _ _ _ _ = Ret _ |- _ => apply read_keys_sound in H as [Hl HF] end.
  constructor; [|by eapply IH]. split; [|done]. cbn. lia.
Qed.

Lemma read_file_sound content samples : read_file space content = Ret samples -> Forall sample_ok samples.
Proof. unfold read_file. intros H. inv_tuple. by eapply read_requests_sound. Qed.

Lemma read_files_sound contents samples : read_files space contents = Ret samples -> Forall sample_ok samples.
Proof.
  revert samples. induction contents as [|f contents IH]; intros samples H; cbn in H; [simplify_eq; constructor|].
  inv_tuple. apply Forall_app. split; [by eapply read_file_sound|by apply IH].
Qed.
End Parse.

(** ** The distribution of the files *)

Section Every.
Import PetDatasetReader.
Context {A : Type}.
Implicit Types (files : list A).

(** [every] from a first index on. *)
Fixpoint every_from (i n r : Z) files : list A :=
  match files with
  | [] => []
  | f :: files' => if decide (i mod n = r) then f :: every_from (i + 1) n r files' else every_from (i + 1) n r files'
  end.

Lemma every_from_eq n r files : every n r files = every_from 0 n r files.
Proof.
  unfold every. change 0 with (Z.of_nat 0). rewrite <- (imap_ext (fun i f => (Z.of_nat (0 + i), f))) by done.
  generalize 0%nat as k. induction files as [|f files IH]; intros k; [done|]. cbn [imap every_from].
  rewrite Nat.add_0_r, filter_cons. cbn [fst]. specialize (IH (S k)). rewrite Nat2Z.inj_succ in IH. unfold Z.succ in IH.
  rewrite (imap_ext _ (fun i f => (Z.of_nat (S k + i), f))) by (intros; cbn; f_equal; lia).
  destruct (decide _); cbn [fmap list_fmap snd]; by rewrite IH.
Qed.

(** Dealing a new first file to one of [n] hands. *)
Lemma deal_cons (g : Z -> list A) n r f (l : list A) :
  0 <= r < n -> concat (g <$> seqZ 0 n) ≡ₚ l ->
  concat ((fun s => if decide (r = s) then f :: g s else g s) <$> seqZ 0 n) ≡ₚ f :: l.
Proof.
  intros Hr <-. replace n with (r + (1 + (n - r - 1))) by lia.
  rewrite seqZ_app', seqZ_app', !fmap_app, !concat_app by lia.
  assert (H1 : (fun s => if decide (r = s) then f :: g s else g s) <$> seqZ 0 r = g <$> seqZ 0 r).
  { apply list_fmap_ext. intros _ s Hs%list_elem_of_lookup_2%elem_of_seqZ. by rewrite decide_False by lia. }
  assert (H2 : (fun s => if decide (r = s) then f :: g s else g s) <$> seqZ (0 + r + 1) (n - r - 1) =
               g <$> seqZ (0 + r + 1) (n - r - 1)).
  { apply list_fmap_ext. intros _ s Hs%list_elem_of_lookup_2%elem_of_seqZ. by rewrite decide_False by lia. }
  rewrite H1, H2. rewrite (seqZ_cons _ 1), (seqZ_nil _ (Z.pred 1)) by lia. cbn [fmap list_fmap concat app].
  rewrite decide_True by lia. rewrite !app_nil_r. cbn [app]. by rewrite <- Permutation_middle.
Qed.

Lemma every_deals n files : 0 < n -> concat ((fun r => every n r files) <$> seqZ 0 n) ≡ₚ files.
Proof.
  intros Hn. erewrite list_fmap_ext by (intros; apply every_from_eq). generalize 0 at 1 as i.
  induction files as [|f files IH]; intros i; cbn [every_from].
  - clear. by induction (seqZ 0 n) as [|r l IH].
  - apply (deal_cons (fun r => every_from (i + 1) n r files) n (i mod n)); [by apply Z.mod_pos_bound|apply IH].
Qed.

(** The files of a data set are dealt to the reading threads of all client
    processes: every file goes to exactly one thread of one client. *)
Theorem dataset_files_dealt clients threads files :
  0 < clients -> 0 < threads ->
  concat ((fun c => concat ((fun t => every threads t (every clients c files)) <$> seqZ 0 threads)) <$> seqZ 0 clients)
  ≡ₚ files.
Proof.
  intros Hc Ht. etransitivity; [|exact (every_deals clients files Hc)].
  induction (seqZ 0 clients) as [|c l IH]; [done|]. rewrite !fmap_cons. cbn [concat].
  by rewrite (every_deals threads _ Ht), IH.
Qed.
End Every.

(** ** The constructor *)

Section Reader.
Import PetDatasetReader.

Lemma read_threads_sound space threads files tids samples :
  0 < space < 2 ^ 64 -> read_threads space threads files tids = Ret samples ->
  length samples = length tids /\ Forall (Forall (sample_ok space)) samples.
Proof.
  intros Hs. revert samples. induction tids as [|t tids IH]; intros samples H; cbn in H; [by simplify_eq|].
  inv_tuple. edestruct IH as [Hl HF]; [done|]. split; [cbn; lia|]. constructor; [by eapply read_files_sound|done].
Qed.

(** A reader whose samples are well formed. *)
Record reader_ok (r : reader) : Prop := {
  ro_space : 0 < hashed_key_space_ r < 2 ^ 64;
  ro_samples : Forall (Forall (sample_ok (hashed_key_space_ r))) (thread_samples r)
}.

(** The data-set reader: if its constructor returns, on whatever files, then
    every sample of every thread has as many keys as it says, and every key is
    between 1 and the key space; ReadNext keeps this. *)
Theorem PetDatasetReader_keys_in_space files clients id threads spaceM repeat r :
  0 < spaceM < 2 ^ 44 -> make files clients id threads spaceM repeat = Ret r ->
  reader_ok r /\
  forall self tid r' s, ReadNext r self tid = Ret (r', s) -> reader_ok r' /\ sample_ok (hashed_key_space_ r) s.
Proof.
  intros Hm H. unfold make in H. destruct (_ || _); [done|]. inv_tuple. rewrite u64_small in * by lia.
  assert (Hsp : 0 < spaceM * 1024 * 1024 < 2 ^ 64) by lia.
  match goal with H : read_threads _ _ _ _ = Ret _ |- _ => destruct (read_threads_sound _ _ _ _ _ Hsp H) as [Hl HF] end.
  split; [by split|]. intros self tid r' s HR. unfold ReadNext in HR. cbn [thread_samples sample_index] in HR.
  destruct (_ !! Z.to_nat tid) as [ss|] eqn:Es; [|done]. cbn [mbind outcome_bind] in HR.
  destruct (ss !! _) as [s0|] eqn:E0; [|done]. cbn [mbind outcome_bind] in HR. inv_tuple.
  split; [by split|]. eapply Forall_lookup_1 in HF; [|exact Es]. by eapply Forall_lookup_1 in HF.
Qed.

(** Without [repeat] the last sample of a thread cannot be read: the call
    that would return it dies. *)
Theorem ReadNext_last_sample_dies r self tid samples :
  repeat_ r = false -> thread_samples r !! Z.to_nat tid = Some samples -> samples <> [] ->
  Z.of_nat (length samples) < 2 ^ 31 ->
  default 0 (sample_index r !! self) = Z.of_nat (length samples) - 1 ->
  ReadNext r self tid = Err LogFatal.
Proof.
  intros Hr Hs Hne Hl Hi. unfold ReadNext. rewrite Hs, Hi. cbn [mbind outcome_bind].
  destruct (samples !! _) as [s|]; [|done]. cbn [mbind outcome_bind]. rewrite i32_small by lia.
  replace (Z.of_nat (length samples) - 1 + 1) with (Z.of_nat (length samples)) by lia. by rewrite Z.eqb_refl, Hr.
Qed.
End Reader.

(** ** The keys of a thread as a stream *)

Section Stream.
Import PetDatasetReader PetDatasetSampleReader.
Context (self tid nr : Z) (ss : list PetSample).
Context (Hss : Forall (fun s => key_num_ s = Z.of_nat (length (keys_ s))) ss).
Context (Hlen : Z.of_nat (length ss) < 2 ^ 31) (Hne : Exists (fun s => keys_ s <> []) ss) (Hnr : 0 <= nr).
Implicit Types (s : sample_reader).

(** The reader of the thread, with [ix] the next sample to be read. *)
Record at_sample (ix : nat) s : Prop := {
  as_tid : tid_ s = tid;
  as_nr : nr_keys_per_req_ s = nr;
  as_repeat : repeat_ (dataset_reader_ s) = true;
  as_samples : thread_samples (dataset_reader_ s) !! Z.to_nat tid = Some ss;
  as_index : default 0 (sample_index (dataset_reader_ s) !! self) = Z.of_nat ix;
  as_ix : (ix < length ss)%nat;
  as_num : key_num_ (cursor_sample_ s) = Z.of_nat (length (keys_ (cursor_sample_ s)));
  as_cursor : 0 <= cursor_ s <= key_num_ (cursor_sample_ s)
}.

(** The keys left in the current sample, and all keys of the thread. *)
Definition left_keys s : list Z := drop (Z.to_nat (cursor_ s)) (keys_ (cursor_sample_ s)).
Definition all_keys : list Z := concat (keys_ <$> ss).

(** The next keys, with [m] more passes over the samples. *)
Definition upcoming (m ix : nat) s : list Z :=
  left_keys s ++ concat (keys_ <$> drop ix ss) ++ concat (replicate m all_keys).

(** The i-th key from now on. *)
Definition stream (ix : nat) s (i : nat) : option Z := upcoming (S i) ix s !! i.

Lemma all_keys_pos : (0 < length all_keys)%nat.
Proof.
  unfold all_keys. apply Exists_exists in Hne as (s & Hs & Hk). apply list_elem_of_split in Hs as (l1 & l2 & ->).
  rewrite fmap_app, fmap_cons, concat_app. cbn [concat]. rewrite !length_app. destruct (keys_ s); [done|cbn; lia].
Qed.

Lemma passes_length m : (m <= length (concat (replicate m all_keys)))%nat.
Proof.
  pose proof all_keys_pos. induction m as [|m IH]; cbn [replicate concat]; [cbn; lia|]. rewrite length_app. lia.
Qed.

Lemma upcoming_more m k ix s : upcoming m ix s ++ concat (replicate k all_keys) = upcoming (m + k) ix s.
Proof. unfold upcoming. by rewrite replicate_add, concat_app, <- !app_assoc. Qed.

Lemma stream_upcoming m ix s i : (i < length (upcoming m ix s))%nat -> stream ix s i = upcoming m ix s !! i.
Proof.
  intros Hi. unfold stream. assert (Hi' : (i < length (upcoming (S i) ix s))%nat).
  { unfold upcoming. rewrite !length_app. pose proof (passes_length (S i)). lia. }
  destruct (Nat.le_gt_cases m (S i)) as [Hm|Hm].
  - replace (S i) with (m + (S i - m))%nat by lia. rewrite <- upcoming_more. by rewrite lookup_app_l.
  - replace m with (S i + (m - S i))%nat by lia. rewrite <- upcoming_more. by rewrite lookup_app_l.
Qed.

(** A step that takes [copied] from the front of the keys. *)
Lemma stream_split ix s ix' s' (copied : list Z) k :
  (forall m, upcoming (k + m) ix s = copied ++ upcoming m ix' s') ->
  (forall i, (i < length copied)%nat -> stream ix s i = copied !! i) /\
  (forall i, stream ix s (length copied + i) = stream ix' s' i).
Proof.
  intros H. split; intros i.
  - intros Hi. rewrite (stream_upcoming (k + 0)) by (rewrite H, length_app; lia). by rewrite H, lookup_app_l.
  - assert (Hl : (i < length (upcoming (S i) ix' s'))%nat).
    { unfold upcoming. rewrite !length_app. pose proof (passes_length (S i)). lia. }
    rewrite (stream_upcoming (k + S i)) by (rewrite H, length_app; lia).
    rewrite H, lookup_app_r by lia. by replace (length copied + i - length copied)%nat with i by lia.
Qed.

(** How many samples are read before there is a key. *)
Fixpoint gap (l : list PetSample) : nat :=
  match l with
  | [] => 0
  | x :: l' => match keys_ x with [] => S (gap l') | _ => 0 end
  end.

Definition reads (ix : nat) s : nat :=
  match left_keys s with [] => S (gap (drop ix ss ++ take ix ss)) | _ => 0 end.

Lemma gap_length l : (gap l <= length l)%nat.
Proof. induction l as [|x l IH]; cbn; [lia|]. destruct (keys_ x); lia. Qed.

Lemma gap_snoc l x : Exists (fun y => keys_ y <> []) l -> gap (l ++ [x]) = gap l.
Proof. induction 1 as [y l Hy|y l _ IH]; cbn; [by destruct (keys_ y)|]. by rewrite IH. Qed.

Lemma reads_bound ix s : (reads ix s <= S (length ss))%nat.
Proof.
  unfold reads. destruct (left_keys s); [|lia]. pose proof (gap_length (drop ix ss ++ take ix ss)) as H.
  rewrite length_app, length_drop, length_take in H. lia.
Qed.

Lemma rotation_nonempty ix : Exists (fun y => keys_ y <> []) (drop ix ss ++ take ix ss).
Proof.
  apply Exists_app. apply or_comm, Exists_app. by rewrite take_drop.
Qed.

(** Reading the next sample when the current one is used up. *)
Lemma next_sample ix s :
  at_sample ix s -> left_keys s = [] ->
  exists r sample ix' k, ReadNext (dataset_reader_ s) self tid = Ret (r, sample) /\
    let s' := {| tid_ := tid; nr_keys_per_req_ := nr; cursor_ := 0; cursor_sample_ := sample;
                 dataset_reader_ := r |} in
    at_sample ix' s' /\ (forall m, upcoming (k + m) ix s = upcoming m ix' s') /\
    (S (reads ix' s') <= reads ix s)%nat.
Proof.
  intros Hs Hl. destruct (lookup_lt_is_Some_2 _ _ (as_ix _ _ Hs)) as [x Hx]. pose proof (as_ix _ _ Hs) as Hix.
  pose proof (Forall_lookup_1 _ _ _ _ Hss Hx) as Hxn. cbn beta in Hxn.
  set (ix' := if (S ix =? length ss)%nat then 0%nat else S ix). set (k := if (S ix =? length ss)%nat then 1%nat else 0%nat).
  eexists _, x, ix', k. split.
  { unfold ReadNext. rewrite (as_samples _ _ Hs), (as_index _ _ Hs). cbn [mbind outcome_bind].
    rewrite Nat2Z.id, Hx. cbn [mbind outcome_bind]. rewrite i32_small by lia. rewrite (as_repeat _ _ Hs).
    instantiate (1 := Build_reader _ _ _ _ (<[self := Z.of_nat ix']> _)).
    unfold ix'. destruct (S ix =? length ss)%nat eqn:E.
    - apply Nat.eqb_eq in E. rewrite (proj2 (Z.eqb_eq _ _)) by lia. done.
    - apply Nat.eqb_neq in E. rewrite (proj2 (Z.eqb_neq _ _)) by lia. cbn [mbind outcome_bind].
      by replace (Z.of_nat ix + 1) with (Z.of_nat (S ix)) by lia. }
  cbn zeta. split; [|split].
  - split; cbn; try done; [apply Hs|by rewrite lookup_insert_eq| |lia].
    unfold ix'. destruct (S ix =? length ss)%nat eqn:E; [lia|]. apply Nat.eqb_neq in E. lia.
  - intros m. unfold upcoming at 1. rewrite Hl. cbn [app]. unfold upcoming, left_keys. cbn [cursor_ cursor_sample_].
    change (drop (Z.to_nat 0) (keys_ x)) with (keys_ x).
    rewrite (drop_S _ _ _ Hx), fmap_cons. cbn [concat]. rewrite <- app_assoc. f_equal.
    unfold ix', k. destruct (S ix =? length ss)%nat eqn:E; [|done]. apply Nat.eqb_eq in E.
    rewrite drop_ge by lia. done.
  - unfold reads at 2. rewrite Hl. unfold reads, left_keys. cbn [cursor_ cursor_sample_].
    change (drop (Z.to_nat 0) (keys_ x)) with (keys_ x). pose proof (rotation_nonempty ix) as Hex.
    rewrite (drop_S _ _ _ Hx) in Hex |- *. cbn [app gap] in *. destruct (keys_ x) as [|y l] eqn:Ek; [|lia].
    apply Exists_cons in Hex as [Hex|Hex]; [done|]. apply le_n_S, le_n_S.
    assert (Hrot : drop ix' ss ++ take ix' ss = (drop (S ix) ss ++ take ix ss) ++ [x]).
    { rewrite <- app_assoc, <- (take_S_r _ _ _ Hx). unfold ix'. destruct (S ix =? length ss)%nat eqn:E; [|done].
      apply Nat.eqb_eq in E. rewrite (drop_ge ss (S ix)), (take_ge ss (S ix)) by lia. cbn. by rewrite app_nil_r. }
    rewrite Hrot, gap_snoc by done. done.
Qed.

(** The loop, with enough fuel. *)
Lemma fill_loop_stream fuel ix s (filled : list Z) :
  at_sample ix s -> Z.of_nat (length filled) <= nr ->
  (S (Z.to_nat (nr - Z.of_nat (length filled)) * S (S (length ss)) + reads ix s) <= fuel)%nat ->
  exists s' ix' out, fill_loop fuel self s filled = Ret (s', filled ++ out) /\ at_sample ix' s' /\
    Z.of_nat (length (filled ++ out)) = nr /\
    (forall i, (i < length out)%nat -> stream ix s i = out !! i) /\
    (forall i, stream ix s (length out + i) = stream ix' s' i).
Proof.
  revert ix s filled. induction fuel as [|fuel IH]; intros ix s filled Hs Hf Hfuel; [lia|]. cbn [fill_loop].
  rewrite (as_nr _ _ Hs). destruct (_ =? nr) eqn:E; b2p.
  { exists s, ix, []. rewrite app_nil_r. split_and!; [done|done|done|cbn; lia|done]. }
  pose proof (as_cursor _ _ Hs) as Hc. pose proof (as_num _ _ Hs) as Hn. destruct (_ <? _) eqn:E2; b2p.
  - rewrite <- Hn, Z.eqb_refl. cbn [CHECK mbind outcome_bind].
    set (need := Z.min _ _). set (copied := take _ _). set (s2 := Build_sample_reader _ _ _ _ _).
    assert (Hlc : length copied = Z.to_nat need) by (unfold copied; rewrite length_take, length_drop; lia).
    assert (Hs2 : at_sample ix s2) by (destruct Hs; split; try done; cbn; lia).
    destruct (IH ix s2 (filled ++ copied)) as (s' & ix' & out & HR & Hs' & Hlen' & H1 & H2); [done|rewrite length_app; lia| |].
    { rewrite length_app. pose proof (reads_bound ix s2). nia. }
    assert (Hup : forall m, upcoming (0 + m) ix s = copied ++ upcoming m ix s2).
    { intros m. unfold upcoming, left_keys. cbn [s2 cursor_ cursor_sample_]. rewrite (app_assoc copied). f_equal.
      rewrite Z2Nat.inj_add, <- drop_drop by lia. unfold copied. by rewrite take_drop. }
    destruct (stream_split _ _ _ _ copied 0 Hup) as [G1 G2].
    exists s', ix', (copied ++ out). rewrite app_assoc. split_and!; [done|done|done| |].
    + intros i Hi. rewrite length_app in Hi. destruct (Nat.lt_ge_cases i (length copied)) as [Hlt|Hge].
      * rewrite G1, lookup_app_l by done. done.
      * rewrite lookup_app_r by done. rewrite <- H1 by lia. rewrite <- G2. f_equal. lia.
    + intros i. rewrite length_app, <- Nat.add_assoc, G2. apply H2.
  - assert (Hl : left_keys s = []) by (unfold left_keys; apply drop_ge; lia).
    destruct (next_sample ix s Hs Hl) as (r & x & ix2 & k & HN & Hs2 & Hup & Hrd). rewrite (as_tid _ _ Hs), HN.
    cbn [mbind outcome_bind]. set (s2 := Build_sample_reader _ _ _ _ _) in *.
    destruct (IH ix2 s2 filled) as (s' & ix' & out & HR & Hs' & Hlen' & H1 & H2); [done|done|lia|].
    destruct (stream_split _ _ _ _ [] k Hup) as [_ G2]. cbn [length Nat.add] in G2.
    exists s', ix', out. split_and!; [done|done|done| |]; intros i; [intros Hi|]; rewrite G2; auto.
Qed.

(** [C38] fillArray terminates and delivers the stream: for a thread that has a
    sample with a key, with repetition, the loop ends, fills the buffer with
    exactly the next nr_keys_per_req keys of the thread's samples read round
    and round, and the next call continues where this one has stopped. *)
Theorem fillArray_stream ix s fuel :
  at_sample ix s -> (S (Z.to_nat nr * S (S (length ss)) + S (length ss)) <= fuel)%nat ->
  exists s' ix' out, fillArray fuel self s = Ret (s', out) /\ at_sample ix' s' /\ Z.of_nat (length out) = nr /\
    (forall i, (i < length out)%nat -> stream ix s i = out !! i) /\
    (forall i, stream ix s (length out + i) = stream ix' s' i).
Proof.
  intros Hs Hf. apply (fill_loop_stream fuel ix s []); [done|done|]. cbn [length]. rewrite Z.sub_0_r.
  pose proof (reads_bound ix s). lia.
Qed.
End Stream.

(** ** Loops that read every key *)

Section Visit.
Import Renumbering.
Context {A : Type} (f : A -> Z -> outcome A).

Fixpoint fold_keys (keys : list Z) (a : A) : outcome A :=
  match keys with
  | [] => Ret a
  | k :: keys' => a ← f a k; fold_keys keys' a
  end.

Lemma fold_keys_app k1 k2 a : fold_keys (k1 ++ k2) a = (a ← fold_keys k1 a; fold_keys k2 a).
Proof. revert a. induction k1 as [|k k1 IH]; intros a; [done|]. cbn. destruct (f a k); cbn; [apply IH|done]. Qed.

Lemma visit_keys_encode content pre ks post a :
  content = pre ++ encode_keys ks ++ post -> Forall pair_ok ks ->
  visit_keys f (length ks) content (behind pre content) a =
    (a ← fold_keys (fst <$> ks) a; Ret (a, behind (pre ++ encode_keys ks) content)).
Proof.
  intros E HF. revert pre a E. induction HF as [|p ks Hp _ IH]; intros pre a E; cbn [length visit_keys].
  - by rewrite app_nil_r.
  - change (encode_keys (p :: ks)) with ((le_bytes 8 p.1 ++ le_bytes 4 p.2) ++ encode_keys ks) in *.
    rewrite <- (app_assoc (_ ++ _)) in E. destruct (pair_behind content pre p _ E Hp) as [H1 H2].
    rewrite H1. cbn [mbind outcome_bind]. rewrite H2. cbn [mbind outcome_bind]. rewrite (check_dim_ok p Hp).
    cbn [mbind outcome_bind fmap list_fmap fold_keys]. destruct (f a p.1) as [a'|]; [|done]. cbn [mbind outcome_bind].
    rewrite IH by (by rewrite E, <- !app_assoc). by rewrite <- !app_assoc.
Qed.

Lemma visit_requests_encode content pre reqs post a :
  content = pre ++ encode_requests reqs ++ post -> Forall request_ok reqs ->
  visit_requests f (length reqs) content (behind pre content) a = fold_keys (fst <$> concat reqs) a.
Proof.
  intros E HF. revert pre a E. induction HF as [|ks reqs [Hks Hl] _ IH]; intros pre a E; cbn [length visit_requests]; [done|].
  change (encode_requests (ks :: reqs)) with (encode_request ks ++ encode_requests reqs) in E.
  unfold encode_request in E. rewrite <- !app_assoc in E.
  rewrite (ReadInt_behind content pre _ _ E) by lia. cbn [mbind outcome_bind]. rewrite Nat2Z.id.
  rewrite (visit_keys_encode content _ ks (encode_requests reqs ++ post)) by (done || by rewrite E, <- !app_assoc).
  cbn [concat]. rewrite fmap_app, fold_keys_app. destruct (fold_keys (fst <$> ks) a) as [a'|]; [|done].
  cbn [mbind outcome_bind]. by rewrite IH by (by rewrite E, <- !app_assoc).
Qed.

Lemma visit_file_encode reqs post a :
  file_ok reqs -> visit_file f (encode_file reqs ++ post) a = fold_keys (fst <$> concat reqs) a.
Proof.
  intros [HF Hl]. unfold visit_file. set (content := encode_file reqs ++ post).
  change (PetCursor.make content) with (behind [] content).
  assert (E : content = [] ++ le_bytes 4 (Z.of_nat (length reqs)) ++ encode_requests reqs ++ post).
  { unfold content, encode_file. by rewrite <- app_assoc. }
  rewrite (ReadInt_behind content [] _ _ E) by lia. cbn [mbind outcome_bind]. rewrite Nat2Z.id.
  by apply (visit_requests_encode content _ reqs post).
Qed.
End Visit.

(** ** Renumbering *)

Section Renumber.
Import Renumbering.
Context (m : gmap Z Z) (Hm : forall k x, m !! k = Some x -> 0 <= x < 2 ^ 64).

Definition renumber (p : Z * Z) : Z * Z := (default 0 (m !! p.1), p.2).

Definition in_map (ks : list (Z * Z)) : Prop := Forall (fun p => is_Some (m !! p.1)) ks.

Lemma behind_length pre content pre' content' :
  length pre = length pre' -> length content = length content' -> behind pre content = behind pre' content'.
Proof. unfold behind. by intros -> ->. Qed.

Lemma write_at_behind pre k new rest :
  write_at (pre ++ le_bytes 8 k ++ rest) (length pre) (le_bytes 8 new) = pre ++ le_bytes 8 new ++ rest.
Proof.
  unfold write_at. rewrite take_app_length, le_bytes_length, (app_assoc pre (le_bytes 8 k)).
  by rewrite drop_app_length' by (by rewrite length_app, le_bytes_length).
Qed.

Lemma renumber_keys_encode pre ks post :
  Forall pair_ok ks -> in_map ks ->
  let content := pre ++ encode_keys ks ++ post in
  let content' := pre ++ encode_keys (renumber <$> ks) ++ post in
  renumber_keys m (length ks) content (behind pre content) =
    Ret (content', behind (pre ++ encode_keys (renumber <$> ks)) content') /\ length content' = length content.
Proof using m.
  intros HF. revert pre. induction HF as [|p ks Hp _ IH]; intros pre Hin; cbn zeta; cbn [length renumber_keys].
  - by rewrite app_nil_r.
  - apply Forall_cons in Hin as [[x Hx] Hin]. rewrite fmap_cons.
    change (encode_keys (p :: ks)) with ((le_bytes 8 p.1 ++ le_bytes 4 p.2) ++ encode_keys ks).
    change (encode_keys (renumber p :: _))
      with ((le_bytes 8 (default 0 (m !! p.1)) ++ le_bytes 4 p.2) ++ encode_keys (renumber <$> ks)).
    set (content := pre ++ (_ ++ encode_keys ks) ++ post).
    assert (E : content = pre ++ (le_bytes 8 p.1 ++ le_bytes 4 p.2) ++ encode_keys ks ++ post)
      by (unfold content; by rewrite <- !app_assoc).
    destruct (pair_behind content pre p _ E Hp) as [H1 H2].
    rewrite H1. cbn [mbind outcome_bind]. rewrite H2. cbn [mbind outcome_bind]. rewrite (check_dim_ok p Hp), Hx.
    cbn [mbind outcome_bind default from_option id]. unfold id. rewrite E. rewrite <- (app_assoc (le_bytes 8 p.1)).
    change (PetCursor.data_ (behind pre _)) with (length pre). rewrite write_at_behind.
    specialize (IH (pre ++ le_bytes 8 x ++ le_bytes 4 p.2) Hin). cbn zeta in IH. rewrite <- !app_assoc in IH |- *.
    destruct IH as [IH1 IH2].
    erewrite (behind_length (pre ++ le_bytes 8 p.1 ++ le_bytes 4 p.2));
      [rewrite IH1|by rewrite !length_app, !le_bytes_length|by rewrite !length_app, !le_bytes_length].
    split; [by rewrite <- !app_assoc|]. rewrite <- !app_assoc in IH2. rewrite IH2. by rewrite !length_app, !le_bytes_length.
Qed.

Lemma renumber_requests_encode pre reqs post total :
  Forall request_ok reqs -> Forall in_map reqs ->
  0 <= total -> total + Z.of_nat (length (concat reqs)) < 2 ^ 31 ->
  let content := pre ++ encode_requests reqs ++ post in
  renumber_requests m (length reqs) content (behind pre content) total =
    Ret (pre ++ encode_requests (fmap (M := list) renumber <$> reqs) ++ post, total + Z.of_nat (length (concat reqs))).
Proof using m.
  intros HF. revert pre total. induction HF as [|ks reqs [Hks Hl] _ IH]; intros pre total Hin Ht Hsum; cbn zeta;
    cbn [length renumber_requests].
  - f_equal. f_equal. cbn. lia.
  - apply Forall_cons in Hin as [Hin1 Hin]. cbn [concat] in Hsum |- *. rewrite length_app in Hsum |- *. rewrite fmap_cons.
    change (encode_requests (ks :: reqs)) with (encode_request ks ++ encode_requests reqs).
    change (encode_requests ((renumber <$> ks) :: ?l)) with (encode_request (renumber <$> ks) ++ encode_requests l).
    unfold encode_request. rewrite length_fmap, <- !app_assoc. set (lb := le_bytes 4 (Z.of_nat (length ks))).
    rewrite (ReadInt_behind _ pre (Z.of_nat (length ks)) (encode_keys ks ++ encode_requests reqs ++ post)) by (done || lia).
    cbn [mbind outcome_bind]. rewrite Nat2Z.id. fold lb. rewrite (app_assoc pre lb).
    destruct (renumber_keys_encode (pre ++ lb) ks (encode_requests reqs ++ post) Hks Hin1) as [-> _].
    cbn [mbind outcome_bind]. rewrite i32_small by lia. rewrite app_assoc.
    rewrite IH by (done || lia). f_equal. f_equal; [by rewrite <- !app_assoc|lia].
Qed.

Lemma RenumberID_encode reqs post :
  file_ok reqs -> Forall in_map reqs -> Z.of_nat (length (concat reqs)) < 2 ^ 31 ->
  RenumberID m (encode_file reqs ++ post) =
    Ret (encode_file (fmap (M := list) renumber <$> reqs) ++ post,
         {| nr_request := Z.of_nat (length reqs); nr_keys := Z.of_nat (length (concat reqs)) |}).
Proof using m.
  intros [HF Hl] Hin Hsum. unfold RenumberID, encode_file. rewrite <- !app_assoc, length_fmap.
  set (lb := le_bytes 4 _). set (content := lb ++ _). change (PetCursor.make content) with (behind [] content).
  rewrite (ReadInt_behind content [] (Z.of_nat (length reqs)) (encode_requests reqs ++ post)) by (done || lia).
  cbn [mbind outcome_bind]. rewrite Nat2Z.id. unfold content. fold lb. cbn [app].
  rewrite (renumber_requests_encode lb reqs post 0) by (done || lia). done.
Qed.
End Renumber.

(** The map of [main]: the i-th id gets the number i. *)
Section Numbers.
Import Renumbering.

Lemma number_from_lookup i ids (m : gmap Z Z) k :
  NoDup ids -> (forall id, id ∈ ids -> m !! id = None) ->
  forall j, number_from i ids m !! k = Some j <->
    m !! k = Some j \/ exists n, ids !! n = Some k /\ j = i + Z.of_nat n.
Proof.
  intros Hnd. revert i m. induction Hnd as [|id ids Hid _ IH]; intros i m Hno j; cbn [number_from].
  - split; [by left|]. intros [H|(n & H & _)]; [done|by rewrite lookup_nil in H].
  - unfold insert_first. rewrite (Hno id) by set_solver. rewrite IH.
    2:{ intros x Hx. rewrite lookup_insert_ne; [apply Hno; set_solver|by intros ->]. }
    split.
    + intros [H|(n & Hn & ->)].
      * destruct (decide (id = k)) as [->|Hne]; [|rewrite lookup_insert_ne in H by done; by left].
        rewrite lookup_insert_eq in H. simplify_eq. right. exists 0%nat. split; [done|lia].
      * right. exists (S n). split; [done|lia].
    + intros [H|([|n] & Hn & ->)].
      * left. rewrite lookup_insert_ne; [done|]. intros ->. by rewrite Hno in H by set_solver.
      * cbn in Hn. simplify_eq. left. rewrite lookup_insert_eq. f_equal. lia.
      * right. exists n. split; [done|lia].
Qed.

Lemma renumber_map_lookup ids k j :
  NoDup ids -> number_from 0 ids ∅ !! k = Some j <-> exists n, ids !! n = Some k /\ j = Z.of_nat n.
Proof.
  intros Hnd. rewrite (number_from_lookup 0 ids ∅ k Hnd) by (intros; apply lookup_empty). rewrite lookup_empty.
  split; [intros [?|H]; [done|exact H]|by right].
Qed.

Lemma renumber_map_dom ids : NoDup ids -> size (number_from 0 ids ∅) = length ids.
Proof.
  intros Hnd. rewrite <- size_dom. transitivity (size (list_to_set ids : gset Z)); [|by apply size_list_to_set].
  apply (f_equal size). apply leibniz_equiv. intros k. rewrite elem_of_dom, elem_of_list_to_set. split.
  - intros [j Hj]. apply renumber_map_lookup in Hj as (n & Hn & _); [|done]. by eapply list_elem_of_lookup_2.
  - intros Hk. apply list_elem_of_lookup in Hk as [n Hn]. exists (Z.of_nat n). apply renumber_map_lookup; [done|]. by exists n.
Qed.

(** Renumbering a data set: with distinct ids that include every key of a
    file, the map of main gives the n-th id the number n, RenumberID rewrites
    the file in place to the same requests with the new keys and reports their
    numbers, and Check then accepts the file. *)
Theorem RenumberID_then_Check ids reqs post :
  NoDup ids -> Z.of_nat (length ids) < 2 ^ 63 -> file_ok reqs ->
  (forall p, p ∈ concat reqs -> p.1 ∈ ids) -> Z.of_nat (length (concat reqs)) < 2 ^ 31 ->
  exists m, make_renumber_map ids (Z.of_nat (length ids)) = Ret m /\
    (forall k j, m !! k = Some j <-> exists n, ids !! n = Some k /\ j = Z.of_nat n) /\
    let content := encode_file (fmap (M := list) (renumber m) <$> reqs) ++ post in
    RenumberID m (encode_file reqs ++ post) =
      Ret (content, {| nr_request := Z.of_nat (length reqs); nr_keys := Z.of_nat (length (concat reqs)) |}) /\
    Check_ content (Z.of_nat (length ids)) = Ret tt.
Proof.
  intros Hnd Hlen Hf Hin Hsum. exists (number_from 0 ids ∅). set (m := number_from 0 ids ∅).
  assert (Hm : forall k j, m !! k = Some j <-> exists n, ids !! n = Some k /\ j = Z.of_nat n)
    by (intros; by apply renumber_map_lookup).
  assert (Hsome : forall p, p ∈ concat reqs -> exists n, m !! p.1 = Some (Z.of_nat n) /\ (n < length ids)%nat).
  { intros p Hp. destruct (list_elem_of_lookup_1 _ _ (Hin p Hp)) as [n Hn]. exists n.
    split; [apply Hm; by exists n|by eapply lookup_lt_Some]. }
  split; [|split; [done|split]].
  - unfold make_renumber_map. rewrite (renumber_map_dom ids Hnd), Nat.eqb_refl, Z.eqb_refl. done.
  - apply RenumberID_encode; [done| |done]. apply Forall_forall. intros ks Hks. apply Forall_forall. intros p Hp.
    destruct (Hsome p) as (n & Hn & _); [|by eexists].
    apply list_elem_of_lookup in Hks as [i Hi]. apply elem_of_concat. by exists i, ks.
  - unfold Check_. rewrite visit_file_encode.
    + rewrite <- (fmap_concat (renumber m)). rewrite <- list_fmap_compose.
      assert (Hs : forall p, p ∈ concat reqs -> 0 <= (fst ∘ renumber m) p < Z.of_nat (length ids)).
      { intros p Hp. destruct (Hsome p Hp) as (n & Hn & Hlt). cbn. rewrite Hn. cbn. lia. }
      clear -Hs. induction (concat reqs) as [|p l IH]; [done|]. rewrite fmap_cons. cbn [fold_keys].
      pose proof (Hs p ltac:(set_solver)) as [H1 H2].
      rewrite (proj2 (Z.leb_le _ _) H1), (proj2 (Z.ltb_lt _ _) H2). cbn [andb CHECK mbind outcome_bind].
      apply IH. set_solver.
    + destruct Hf as [HF Hl]. split; [|by rewrite length_fmap]. apply Forall_fmap, Forall_forall. intros ks Hks.
      rewrite Forall_forall in HF. destruct (HF ks Hks) as [Hp Hk]. split; [|by rewrite length_fmap].
      apply Forall_fmap, Forall_forall. intros p Hpk. rewrite Forall_forall in Hp. split; [|exact (proj2 (Hp p Hpk))].
      apply list_elem_of_lookup in Hks as [i Hi].
      destruct (Hsome p) as (n & Hn & Hlt); [apply elem_of_concat; by exists i, ks|]. cbn. rewrite Hn. cbn. lia.
Qed.
End Numbers.

(** ** Counting *)

Section Count.
Import WordCount.
Implicit Types (m a b : gmap Z Z) (keys : list Z).

Definition occurrences (k : Z) keys : Z := Z.of_nat (length (filter (fun x => x = k) keys)).

(** [m] counts the keys of a list. *)
Definition counts m keys : Prop :=
  forall k, m !! k = if decide (k ∈ keys) then Some (occurrences k keys) else None.

Lemma occurrences_app k k1 k2 : occurrences k (k1 ++ k2) = occurrences k k1 + occurrences k k2.
Proof. unfold occurrences. rewrite filter_app, length_app. lia. Qed.

Lemma occurrences_length k keys : occurrences k keys <= Z.of_nat (length keys).
Proof. unfold occurrences. pose proof (length_filter (fun x => x = k) keys). lia. Qed.

Lemma occurrences_absent k keys : k ∉ keys -> occurrences k keys = 0.
Proof.
  intros Hk. unfold occurrences. rewrite list_filter_none; [done|]. intros x Hx ->. done.
Qed.

Lemma occurrences_pos k keys : 0 <= occurrences k keys.
Proof. unfold occurrences. lia. Qed.

Lemma counts_default m keys k : counts m keys -> default 0 (m !! k) = occurrences k keys.
Proof.
  intros H. rewrite H. destruct (decide _); [done|]. by rewrite occurrences_absent.
Qed.

Lemma fold_counts keys m done_ :
  counts m done_ -> Z.of_nat (length (done_ ++ keys)) < 2 ^ 64 ->
  exists m', fold_keys
      (fun c k => Ret (<[k := match c !! k with None => 1 | Some n => u64 (n + 1) end]> c)) keys m = Ret m' /\
    counts m' (done_ ++ keys).
Proof.
  revert m done_. induction keys as [|k keys IH]; intros m dn Hc Hl.
  - exists m. by rewrite app_nil_r.
  - cbn [fold_keys mbind outcome_bind]. replace (dn ++ k :: keys) with ((dn ++ [k]) ++ keys) in * by (by rewrite <- app_assoc).
    apply IH; [|done]. intros x. rewrite occurrences_app. rewrite !length_app in Hl. cbn [length] in Hl.
    pose proof (occurrences_length k dn). pose proof (occurrences_pos k dn). destruct (decide (x = k)) as [->|Hne].
    + rewrite lookup_insert_eq, decide_True by set_solver. f_equal.
      assert (H1 : occurrences k [k] = 1) by (unfold occurrences; by rewrite filter_cons_True). rewrite H1.
      rewrite Hc. destruct (decide (k ∈ dn)); [by rewrite u64_small by lia|]. by rewrite occurrences_absent.
    + rewrite lookup_insert_ne by done. rewrite Hc, (occurrences_absent x [k]), Z.add_0_r by set_solver.
      apply decide_ext. set_solver.
Qed.

Lemma CountIDOccurrence_counts reqs post :
  file_ok reqs -> Z.of_nat (length (concat reqs)) < 2 ^ 64 ->
  exists m, CountIDOccurrence (encode_file reqs ++ post) = Ret m /\ counts m (fst <$> concat reqs).
Proof.
  intros Hf Hl. unfold CountIDOccurrence. rewrite visit_file_encode by done.
  destruct (fold_counts (fst <$> concat reqs) ∅ []) as (m & H1 & H2).
  - intros k. by rewrite lookup_empty, decide_False by set_solver.
  - by rewrite app_nil_l, length_fmap.
  - exists m. split; [exact H1|exact H2].
Qed.

Lemma MergeCounter_lookup a b k :
  MergeCounter a b !! k =
  match b !! k with
  | None => a !! k
  | Some x => Some (match a !! k with None => x | Some n => u64 (n + x) end)
  end.
Proof.
  unfold MergeCounter. revert k. apply (map_fold_weak_ind (fun acc b => forall k, acc !! k =
    match b !! k with None => a !! k | Some x => Some (match a !! k with None => x | Some n => u64 (n + x) end) end)).
  - intros k. by rewrite lookup_empty.
  - intros i x b' acc Hi IH k. destruct (decide (i = k)) as [->|Hne].
    + rewrite !lookup_insert_eq, IH, Hi. done.
    + rewrite !lookup_insert_ne by done. apply IH.
Qed.

Lemma MergeCounter_counts a b ka kb :
  counts a ka -> counts b kb -> Z.of_nat (length (ka ++ kb)) < 2 ^ 64 -> counts (MergeCounter a b) (ka ++ kb).
Proof.
  intros Ha Hb Hl k. rewrite MergeCounter_lookup, Ha, Hb, occurrences_app. rewrite length_app in Hl.
  pose proof (occurrences_length k ka). pose proof (occurrences_length k kb).
  pose proof (occurrences_pos k ka). pose proof (occurrences_pos k kb).
  destruct (decide (k ∈ kb)), (decide (k ∈ ka)).
  - rewrite decide_True by set_solver. by rewrite u64_small by lia.
  - rewrite decide_True by set_solver. by rewrite (occurrences_absent k ka).
  - rewrite decide_True by set_solver. by rewrite (occurrences_absent k kb), Z.add_0_r.
  - rewrite decide_False by set_solver. done.
Qed.

(** All the keys of a list of files. *)
Definition keys_of (files : list (list (list (Z * Z)))) : list Z := fst <$> concat (concat files).

Lemma keys_of_app f1 f2 : keys_of (f1 ++ f2) = keys_of f1 ++ keys_of f2.
Proof. unfold keys_of. by rewrite !concat_app, fmap_app. Qed.

Lemma count_files_counts files a ka :
  Forall file_ok files -> counts a ka -> Z.of_nat (length (ka ++ keys_of files)) < 2 ^ 64 ->
  exists m, count_files (encode_file <$> files) a = Ret m /\ counts m (ka ++ keys_of files).
Proof.
  intros HF. revert a ka. induction HF as [|f files Hf _ IH]; intros a ka Ha Hl.
  - exists a. by rewrite app_nil_r.
  - rewrite fmap_cons. cbn [count_files]. change (f :: files) with ([f] ++ files) in Hl |- *.
    rewrite keys_of_app, app_assoc in Hl |- *. assert (Hk : keys_of [f] = fst <$> concat f).
    { unfold keys_of. cbn [concat]. by rewrite app_nil_r. }
    rewrite Hk in *. rewrite !length_app, length_fmap in Hl.
    destruct (CountIDOccurrence_counts f [] Hf) as (c & HC & Hc); [lia|]. rewrite app_nil_r in HC. rewrite HC.
    cbn [mbind outcome_bind]. apply IH.
    + apply MergeCounter_counts; [done|done|]. rewrite length_app, length_fmap. lia.
    + rewrite !length_app, length_fmap. lia.
Qed.

(** The files of the threads. *)
Lemma per_thread_files n threads :
  0 < n < 2 ^ 30 -> 0 < threads < 2 ^ 30 -> n <= threads * file_num_per_thread n threads /\ 0 <= file_num_per_thread n threads < 2 ^ 31.
Proof.
  intros Hn Ht. unfold file_num_per_thread. rewrite !i32_small by (rewrite ?i32_small; lia).
  rewrite Z.quot_div_nonneg by lia. set (x := n + threads - 1).
  pose proof (Z.div_mod x threads ltac:(lia)). pose proof (Z.mod_pos_bound x threads ltac:(lia)).
  split; [lia|]. split; [apply Z.div_pos; lia|apply Z.div_lt_upper_bound; nia].
Qed.

Lemma thread_files_fmap {A B} (g : A -> B) (files : list A) threads i :
  thread_files (g <$> files) threads i = g <$> thread_files files threads i.
Proof. unfold thread_files. by rewrite length_fmap, fmap_take, fmap_drop. Qed.

Lemma thread_files_prefix {B} (l : list B) threads (j : nat) :
  let per := file_num_per_thread (Z.of_nat (length l)) threads in
  0 <= per ->
  concat (thread_files l threads <$> seqZ 0 (Z.of_nat j)) = take (Z.to_nat (Z.of_nat j * per)) l.
Proof.
  intros per Hper. induction j as [|j IH]; [done|].
  rewrite Nat2Z.inj_succ, <- Z.add_1_r, seqZ_app', fmap_app, concat_app, IH by lia.
  rewrite (seqZ_cons _ 1), (seqZ_nil _ (Z.pred 1)) by lia. rewrite fmap_cons. cbn [fmap list_fmap concat].
  rewrite app_nil_r, Z.add_0_l. unfold thread_files. fold per.
  replace (Z.to_nat ((Z.of_nat j + 1) * per)) with (Z.to_nat (Z.of_nat j * per) + Z.to_nat per)%nat by lia.
  rewrite <- take_take_drop. f_equal. set (d := drop _ l).
  destruct (Z.le_gt_cases ((Z.of_nat j + 1) * per) (Z.of_nat (length l))).
  - f_equal. lia.
  - rewrite !take_ge; [done|unfold d; rewrite length_drop; lia..].
Qed.

Lemma thread_files_cover {B} (l : list B) threads :
  0 < Z.of_nat (length l) < 2 ^ 30 -> 0 < threads < 2 ^ 30 ->
  concat (thread_files l threads <$> seqZ 0 threads) = l.
Proof.
  intros Hl Ht. destruct (per_thread_files _ _ Hl Ht) as [Hp1 Hp2].
  replace (seqZ 0 threads) with (seqZ 0 (Z.of_nat (Z.to_nat threads))) by (f_equal; lia).
  rewrite thread_files_prefix by lia. apply take_ge. lia.
Qed.

Lemma keys_of_concat (fs : list (list (list (list (Z * Z))))) : keys_of (concat fs) = concat (keys_of <$> fs).
Proof. induction fs as [|f fs IH]; [done|]. cbn [concat]. by rewrite keys_of_app, IH. Qed.

Lemma count_threads_counts files threads tids :
  Forall file_ok files -> Z.of_nat (length (concat ((keys_of ∘ thread_files files threads) <$> tids))) < 2 ^ 64 ->
  exists cs, count_threads (encode_file <$> files) threads tids = Ret cs /\
    Forall2 counts cs ((keys_of ∘ thread_files files threads) <$> tids).
Proof.
  intros HF. induction tids as [|t tids IH]; intros Hl; [by exists []|]. cbn [count_threads].
  rewrite fmap_cons in Hl |- *. cbn [concat] in Hl. rewrite length_app in Hl. cbn [compose] in Hl.
  rewrite thread_files_fmap. destruct (count_files_counts (thread_files files threads t) ∅ []) as (c & HC & Hc).
  - unfold thread_files. by apply Forall_take, Forall_drop.
  - intros k. by rewrite lookup_empty, decide_False by set_solver.
  - cbn [app]. lia.
  - rewrite HC. cbn [mbind outcome_bind]. destruct IH as (cs & HR & HF2); [lia|]. rewrite HR. cbn [mbind outcome_bind].
    exists (c :: cs). split; [done|]. by constructor.
Qed.

Lemma merge_all c cs k ks :
  counts c k -> Forall2 counts cs ks -> Z.of_nat (length (k ++ concat ks)) < 2 ^ 64 ->
  counts (foldl MergeCounter c cs) (k ++ concat ks).
Proof.
  intros Hc HF. revert c k Hc. induction HF as [|c2 k2 cs ks H2 _ IH]; intros c k Hc Hl; cbn [foldl concat] in *.
  - by rewrite app_nil_r.
  - rewrite app_assoc in Hl |- *. apply IH; [|done]. apply MergeCounter_counts; [done|done|].
    rewrite length_app in Hl. lia.
Qed.

(** Counting the ids: for every number of threads the merged counter of all
    threads maps each key to the number of its occurrences in all files. *)
Theorem final_counter_counts files threads :
  0 < Z.of_nat (length files) < 2 ^ 30 -> 0 < threads < 2 ^ 30 -> Forall file_ok files ->
  Z.of_nat (length (keys_of files)) < 2 ^ 64 ->
  exists m, final_counter (encode_file <$> files) threads = Ret m /\
    forall k, m !! k = if decide (k ∈ keys_of files) then Some (occurrences k (keys_of files)) else None.
Proof.
  intros Hn Ht HF Hl. pose proof (thread_files_cover files threads Hn Ht) as Hcov.
  assert (Hk : concat ((keys_of ∘ thread_files files threads) <$> seqZ 0 threads) = keys_of files).
  { rewrite list_fmap_compose, <- keys_of_concat. by rewrite Hcov. }
  destruct (count_threads_counts files threads (seqZ 0 threads) HF) as (cs & HR & HF2); [by rewrite Hk|].
  unfold final_counter. rewrite length_fmap, (proj2 (Nat.eqb_neq _ _)) by lia. cbn [negb CHECK mbind outcome_bind].
  rewrite (proj2 (Z.eqb_neq threads 0)) by lia. cbn [mbind outcome_bind]. rewrite HR. cbn [mbind outcome_bind].
  rewrite (seqZ_cons 0 threads), fmap_cons in HF2, Hk by lia. inversion HF2 as [|c k cs' ks Hc HF2' E1 E2]; subst.
  eexists. split; [done|]. rewrite <- Hk. cbn [concat] in Hk |- *. apply merge_all; [done|done|by rewrite Hk].
Qed.

(** The comparison of the sort never puts an id before another. *)
Lemma sort_before_never m x y : Renumbering.sort_before m x y = false.
Proof. unfold Renumbering.sort_before. rewrite Z.gtb_ltb. apply Z.ltb_irrefl. Qed.
End Count.

(** ** A small data set *)

Definition two_requests : list (list (Z * Z)) := [[(70, 4); (5, 64)]; []; [(9, 8)]].

Lemma two_requests_ok : file_ok two_requests.
Proof.
  split; [|by vm_compute]. unfold two_requests. repeat constructor; cbn; try lia; try done;
    rewrite !elem_of_cons; tauto.
Qed.

Lemma read_file_roundtrip_witness :
  PetDatasetReader.read_file 16 (encode_file two_requests ++ [1]) = Ret (sample_of 16 <$> two_requests).
Proof. apply (read_file_roundtrip 16 ltac:(lia) two_requests [1] two_requests_ok). Defined.

Lemma dataset_files_dealt_witness :
  concat ((fun c => concat ((fun t => PetDatasetReader.every 2 t (PetDatasetReader.every 3 c [10; 11; 12; 13; 14; 15; 16]))
             <$> seqZ 0 2)) <$> seqZ 0 3) ≡ₚ [10; 11; 12; 13; 14; 15; 16].
Proof. apply (dataset_files_dealt 3 2 [10; 11; 12; 13; 14; 15; 16]); lia. Defined.

Definition small_reader (repeat : bool) : PetDatasetReader.reader :=
  match PetDatasetReader.make [encode_file two_requests] 1 0 1 1 repeat with
  | Ret r => r
  | Err _ => PetDatasetReader.Build_reader 0 [] [] repeat ∅
  end.

Lemma small_reader_made repeat :
  PetDatasetReader.make [encode_file two_requests] 1 0 1 1 repeat = Ret (small_reader repeat).
Proof. destruct repeat; by vm_compute. Qed.

Lemma PetDatasetReader_keys_in_space_witness :
  Forall (Forall (sample_ok (1024 * 1024))) (PetDatasetReader.thread_samples (small_reader true)).
Proof.
  destruct (PetDatasetReader_keys_in_space [encode_file two_requests] 1 0 1 1 true (small_reader true)) as [[_ H] _];
    [lia|apply small_reader_made|exact H].
Defined.

(** The thread has read the first two samples. *)
Definition at_last : PetDatasetReader.reader :=
  let r := small_reader false in
  PetDatasetReader.Build_reader (PetDatasetReader.hashed_key_space_ r) (PetDatasetReader.dataset_files_ r)
    (PetDatasetReader.thread_samples r) false {[1 := 2]}.

Lemma ReadNext_last_sample_dies_witness : PetDatasetReader.ReadNext at_last 1 0 = Err LogFatal.
Proof.
  apply (ReadNext_last_sample_dies at_last 1 0 (sample_of (1024 * 1024) <$> two_requests));
    [done|by vm_compute|done|by vm_compute|done].
Defined.

Definition small_samples : list PetDatasetReader.PetSample := Eval vm_compute in (sample_of (1024 * 1024) <$> two_requests).

Definition small_sample_reader : PetDatasetSampleReader.sample_reader := Eval vm_compute in
  match PetDatasetSampleReader.make (small_reader true) 1 0 4 with
  | Ret s => s
  | Err _ => PetDatasetSampleReader.Build_sample_reader 0 0 0 (PetDatasetReader.Build_PetSample 0 []) (small_reader true)
  end.

Lemma fillArray_stream_witness :
  exists s', PetDatasetSampleReader.fillArray 30 1 small_sample_reader = Ret (s', [71; 6; 10; 71]).
Proof.
  destruct (fillArray_stream 1 0 4 small_samples
              ltac:(repeat constructor) ltac:(by vm_compute) ltac:(by constructor) ltac:(lia) 1 small_sample_reader 30)
    as (s' & ix' & out & HR & _ & Hl & Hs & _).
  - split; try done; cbn; lia.
  - cbn; lia.
  - exists s'. rewrite HR. do 2 f_equal. apply list_eq. intros i.
    destruct (Nat.lt_ge_cases i (length out)) as [Hi|Hi].
    + rewrite <- Hs by done. assert (i < 4)%nat by lia. do 4 (destruct i as [|i]; [by vm_compute|]). lia.
    + rewrite !lookup_ge_None_2; [done|cbn; lia|lia].
Defined.

Lemma RenumberID_then_Check_witness :
  exists m, Renumbering.make_renumber_map [5; 9; 70] 3 = Ret m /\
    Renumbering.RenumberID m (encode_file two_requests) =
      Ret (encode_file [[(2, 4); (0, 64)]; []; [(1, 8)]], Renumbering.Build_FileMeta 3 3) /\
    Renumbering.Check_ (encode_file [[(2, 4); (0, 64)]; []; [(1, 8)]]) 3 = Ret tt.
Proof.
  destruct (RenumberID_then_Check [5; 9; 70] two_requests []) as (m & HM & Hm & HR & HC).
  - repeat constructor; set_solver.
  - by vm_compute.
  - exact two_requests_ok.
  - intros p Hp. cbn in Hp. set_solver.
  - by vm_compute.
  - cbn zeta in HR, HC. rewrite !app_nil_r in HR, HC. exists m. split; [exact HM|].
    assert (E : fmap (M := list) (renumber m) <$> two_requests = [[(2, 4); (0, 64)]; []; [(1, 8)]]).
    { unfold renumber. cbn. rewrite (proj2 (Hm 70 2)) by (by exists 2%nat). rewrite (proj2 (Hm 5 0)) by (by exists 0%nat).
      by rewrite (proj2 (Hm 9 1)) by (by exists 1%nat). }
    rewrite E in HR, HC. by split.
Defined.

Lemma final_counter_counts_witness :
  exists m, WordCount.final_counter [encode_file two_requests; encode_file two_requests] 3 = Ret m /\ m !! 5 = Some 2.
Proof.
  destruct (final_counter_counts [two_requests; two_requests] 3) as (m & HR & Hm).
  - cbn. lia.
  - lia.
  - apply Forall_cons; split; [exact two_requests_ok|]. apply Forall_singleton. exact two_requests_ok.
  - by vm_compute.
  - exists m. split; [exact HR|]. rewrite Hm. by vm_compute.
Defined.
