(* ===== verification/Zipf.v ===== *)
(** * The Zipf generator (src/base/zipf.h, src/benchmark/sample_reader.h)

    The random keys of the benchmark clients: a 48-bit linear congruential
    generator and Gray's approximation of a Zipf distribution over [0, n), with
    three degenerate modes (theta = -1 counts up, 0 is uniform, at least 40 is
    always 0), and [ZipfianSampleReader], which adds one to each value.

    Doubles are binary64, see [Doubles].  [assert] is on, as in the default
    build. *)

From stdpp Require Import base numbers list gmap.
From Stdlib Require Import ZArith Lia SpecFloat.
From S2P Require Import Prelude Doubles.

Module Zipf.

Record zipf_gen_state := Build_zipf_gen_state {
  n : Z;
  theta : spec_float;
  alpha : spec_float;
  thres : spec_float;
  last_n : Z;
  dbl_n : spec_float;
  zetan : spec_float;
  eta : spec_float;
  rand_state : Z
}.

(** [*state * 0x5deece66dUL + 0xbUL] is computed in 64 bits. *)
Definition mehcached_rand_d (state : Z) : Z * spec_float :=
  let state := Z.land (u64 (state * 25214903917 + 11)) (Z.shiftl 1 48 - 1) in
  (state, double_div (double_of_Z state) (double_of_Z (Z.shiftl 1 48 - 1))).

(** The squaring loop; for a negative [e] the shift stays at [-1]. *)
Fixpoint pow_loop (fuel : nat) (r a : spec_float) (e : Z) : outcome spec_float :=
  if e =? 0 then Ret r
  else match fuel with
       | O => Err Diverges
       | S fuel' =>
           pow_loop fuel' (if Z.odd e then double_mul r a else r) (double_mul a a) (Z.shiftr e 1)
       end.

(** [u.x[1]] is the upper word of [a] as an [int]; the subtraction of [int]s
    may overflow. *)
Definition mehcached_pow_approx (a b : spec_float) : outcome spec_float :=
  e ← int_of_double b;
  let x1 := i32 (Z.shiftr (bits_of_double a) 32) in
  let diff := x1 - 1072632447 in
  if diff <? - 2 ^ 31 then Err Undefined
  else
    x1 ← int_of_double
           (double_add (double_mul (double_sub b (double_of_Z e)) (double_of_Z diff))
              (double_of_Z 1072632447));
    let d := double_of_bits (Z.shiftl (u32 x1) 32) in
    r ← pow_loop 32 (double_of_Z 1) a e;
    Ret (double_mul r d).

Notation dle x y := (SFleb x y).
Notation dlt x y := (SFltb x y).
Notation deq x y := (SFeqb x y).
Notation "'#' z" := (double_of_Z z) (at level 5, z at level 5).

Definition in_unit (theta : spec_float) : bool := dlt (#0) theta && dlt theta (#1).

(** The warnings on [stderr] are left out. *)
Definition mehcached_zipf_init (n : Z) (theta : spec_float) (rand_seed : Z) : outcome zipf_gen_state :=
  _ ← CHECK (0 <? n);
  _ ← CHECK (negb (dle (#1) theta && dlt theta (#40)));
  _ ← CHECK (deq theta (#(-1)) || (dle (#0) theta && dlt theta (#1)) || dle (#40) theta);
  _ ← CHECK (rand_seed <? Z.shiftl 1 48);
  let rand_seed := if deq theta (#(-1)) then rand_seed mod n else rand_seed in
  '(alpha, thres) ←
    (if negb (deq theta (#(-1))) && in_unit theta then
       p ← mehcached_pow_approx (double_div (#1) (#2)) theta;
       Ret (double_div (#1) (double_sub (#1) theta), double_add (#1) p)
     else Ret (#0, #0));
  Ret {| n := n; theta := theta; alpha := alpha; thres := thres; last_n := 0; dbl_n := #0;
         zetan := #0; eta := #0; rand_state := rand_seed |}.

Definition mehcached_zipf_init_copy (src_state : zipf_gen_state) (rand_seed : Z) : outcome zipf_gen_state :=
  _ ← CHECK (rand_seed <? Z.shiftl 1 48);
  Ret {| n := n src_state; theta := theta src_state; alpha := alpha src_state; thres := thres src_state;
         last_n := last_n src_state; dbl_n := dbl_n src_state; zetan := zetan src_state;
         eta := eta src_state; rand_state := rand_seed |}.

Definition mehcached_zipf_change_n (state : zipf_gen_state) (n : Z) : zipf_gen_state :=
  {| n := n; theta := theta state; alpha := alpha state; thres := thres state; last_n := last_n state;
     dbl_n := dbl_n state; zetan := zetan state; eta := eta state; rand_state := rand_state state |}.

(** [rounds] iterations of the loop of [mehcached_zeta]. *)
Fixpoint zeta_loop (rounds : nat) (last_n : Z) (last_sum theta : spec_float) : outcome spec_float :=
  match rounds with
  | O => Ret last_sum
  | S rounds' =>
      p ← mehcached_pow_approx (double_add (#last_n) (#1)) theta;
      zeta_loop rounds' (last_n + 1) (double_add last_sum (double_div (#1) p)) theta
  end.

Definition mehcached_zeta (last_n : Z) (last_sum : spec_float) (n : Z) (theta : spec_float) :
    outcome spec_float :=
  let '(last_n, last_sum) := if n <? last_n then (0, #0) else (last_n, last_sum) in
  zeta_loop (Z.to_nat (n - last_n)) last_n last_sum theta.

(** The first part of [mehcached_zipf_next]: what depends on [n]. *)
Definition refresh (state : zipf_gen_state) : outcome zipf_gen_state :=
  if last_n state =? n state then Ret state
  else
    '(zetan, eta) ←
      (if in_unit (theta state) then
         zetan ← mehcached_zeta (last_n state) (zetan state) (n state) (theta state);
         p ← mehcached_pow_approx (double_div (#2) (double_of_Z (n state))) (double_sub (#1) (theta state));
         z2 ← mehcached_zeta 0 (#0) 2 (theta state);
         Ret (zetan, double_div (double_sub (#1) p) (double_sub (#1) (double_div z2 zetan)))
       else Ret (zetan state, eta state));
    Ret {| n := n state; theta := theta state; alpha := alpha state; thres := thres state;
           last_n := n state; dbl_n := double_of_Z (n state); zetan := zetan; eta := eta;
           rand_state := rand_state state |}.

Definition with_rand (state : zipf_gen_state) (r : Z) : zipf_gen_state :=
  {| n := n state; theta := theta state; alpha := alpha state; thres := thres state;
     last_n := last_n state; dbl_n := dbl_n state; zetan := zetan state; eta := eta state;
     rand_state := r |}.

Definition mehcached_zipf_next (state : zipf_gen_state) : outcome (zipf_gen_state * Z) :=
  state ← refresh state;
  if deq (theta state) (#(-1)) then
    let v := rand_state state in
    let r := u64 (v + 1) in
    Ret (with_rand state (if n state <=? r then 0 else r), v)
  else if deq (theta state) (#0) then
    let '(r, u) := mehcached_rand_d (rand_state state) in
    v ← u64_of_double (double_mul (dbl_n state) u);
    Ret (with_rand state r, v)
  else if dle (#40) (theta state) then Ret (state, 0)
  else
    let '(r, u) := mehcached_rand_d (rand_state state) in
    let state := with_rand state r in
    let uz := double_mul u (zetan state) in
    if dlt uz (#1) then Ret (state, 0)
    else if dlt uz (thres state) then Ret (state, 1)
    else
      p ← mehcached_pow_approx
            (double_add (double_mul (eta state) (double_sub u (#1))) (#1)) (alpha state);
      v ← u64_of_double (double_mul (dbl_n state) p);
      Ret (state, v).

(** The values of [k] calls. *)
Fixpoint draw (k : nat) (state : zipf_gen_state) : outcome (zipf_gen_state * list Z) :=
  match k with
  | O => Ret (state, [])
  | S k' =>
      '(state, v) ← mehcached_zipf_next state;
      '(state, vs) ← draw k' state;
      Ret (state, v :: vs)
  end.
End Zipf.

Module ZipfianSampleReader.
Import Zipf.

Record reader := Build_reader { state : zipf_gen_state; nr_keys_per_req_ : Z }.

(** [tsc] is what [rdtsc] returns; [key_space_M * 1024] is computed in [int]. *)
Definition make (tid key_space_M : Z) (zipf_theta : spec_float) (nr_keys_per_req tsc : Z) : outcome reader :=
  let k := key_space_M * 1024 in
  if (k <? - 2 ^ 31) || (2 ^ 31 <=? k) then Err Undefined
  else
    state ← mehcached_zipf_init (u64 (k * 1024)) zipf_theta
              (Z.lxor (Z.land tsc 281474976710655) (u64 tid));
    Ret {| state := state; nr_keys_per_req_ := nr_keys_per_req |}.

(** The keys in the buffer. *)
Definition fillArray (r : reader) : outcome (reader * list Z) :=
  '(st, vs) ← draw (Z.to_nat (nr_keys_per_req_ r)) (state r);
  Ret ({| state := st; nr_keys_per_req_ := nr_keys_per_req_ r |}, map (fun v => u64 (v + 1)) vs).
End ZipfianSampleReader.

(** ** The generator of random numbers *)

Section Lcg.
Context (a c : Z) (Ha : a mod 4 = 1) (Hc : Z.odd c = true).

(** 1 + a + ... + a^(d-1) *)
Fixpoint geom (d : nat) : Z :=
  match d with
  | O => 0
  | S d' => 1 + a * geom d'
  end.

Lemma geom_pow d : (a - 1) * geom d = a ^ Z.of_nat d - 1.
Proof.
  induction d as [|d IH]; [cbn; lia|]. cbn [geom]. rewrite Nat2Z.inj_succ, Z.pow_succ_r by lia. nia.
Qed.

Lemma geom_add d d' : geom (d + d') = geom d + a ^ Z.of_nat d * geom d'.
Proof.
  induction d as [|d IH]; [cbn [geom Nat.add]; change (a ^ Z.of_nat 0) with 1; lia|].
  cbn [geom Nat.add]. rewrite IH, Nat2Z.inj_succ, Z.pow_succ_r by lia. lia.
Qed.

Lemma pow_mod4 d : a ^ Z.of_nat d mod 4 = 1.
Proof.
  induction d as [|d IH]; [done|]. rewrite Nat2Z.inj_succ, Z.pow_succ_r by lia.
  rewrite Z.mul_mod, Ha, IH by lia. done.
Qed.

Lemma geom_parity d : Z.even (geom d) = Nat.even d.
Proof using Ha.
  assert (Ho : Z.even a = false).
  { pose proof (Z.div_mod a 4 ltac:(lia)) as E. rewrite Ha in E. rewrite E, Z.even_add, Z.even_mul. done. }
  induction d as [|d IH]; [done|]. cbn [geom]. rewrite Z.even_add, Z.even_mul, Ho, IH. cbn [orb].
  rewrite Nat.even_succ, <- Nat.negb_even. by destruct (Nat.even d).
Qed.

Lemma odd_gauss j o x : Z.odd o = true -> (2 ^ Z.of_nat j | o * x) -> (2 ^ Z.of_nat j | x).
Proof.
  intros Ho H. apply (Z.gauss _ o); [done|]. rewrite Z.gcd_comm. apply odd_coprime; [lia|done].
Qed.

(** The factors of two of the sum are those of the number of its terms. *)
Lemma geom_divide j d : (2 ^ Z.of_nat j | geom d) -> (2 ^ Z.of_nat j | Z.of_nat d).
Proof using Ha.
  revert d. induction j as [|j IH]; intros d Hd; [apply Z.divide_1_l|].
  rewrite Nat2Z.inj_succ, Z.pow_succ_r in * by lia.
  assert (He : Nat.even d = true).
  { rewrite <- geom_parity. destruct Hd as [y ->]. rewrite Z.even_mul, Z.even_mul. cbn. by rewrite orb_true_r. }
  apply Nat.even_spec in He as [h ->].
  replace (2 * h)%nat with (h + h)%nat in * by lia. rewrite geom_add in Hd.
  pose proof (pow_mod4 h) as H4. pose proof (Z.div_mod (a ^ Z.of_nat h) 4 ltac:(lia)) as E. rewrite H4 in E.
  set (q := a ^ Z.of_nat h / 4) in *.
  replace (geom h + a ^ Z.of_nat h * geom h) with (2 * ((2 * q + 1) * geom h)) in Hd by (rewrite E; lia).
  apply Z.mul_divide_cancel_l in Hd; [|lia]. apply odd_gauss in Hd; [|by rewrite Z.odd_add, Z.odd_mul].
  apply IH in Hd as [y Hy]. exists y. lia.
Qed.

Context (k : nat).
Notation N := (2 ^ Z.of_nat k).

Definition lcg (x : Z) : Z := (x * a + c) mod N.

Lemma lcg_iter d x : Nat.iter d lcg x mod N = (a ^ Z.of_nat d * x + c * geom d) mod N.
Proof.
  induction d as [|d IH].
  { replace (a ^ Z.of_nat 0 * x + c * geom 0) with x; [done|]. change (a ^ Z.of_nat 0) with 1. cbn [geom]. lia. }
  cbn [Nat.iter nat_rect geom]. change (nat_rect _ x _ d) with (Nat.iter d lcg x). unfold lcg at 1.
  rewrite Z.mod_mod by (apply Z.pow_nonzero; lia).
  rewrite Z.add_mod, Z.mul_mod, IH, <- Z.mul_mod, <- Z.add_mod by (apply Z.pow_nonzero; lia).
  f_equal. rewrite Nat2Z.inj_succ, Z.pow_succ_r by lia. lia.
Qed.

Lemma lcg_range d x : 0 <= x < N -> 0 <= Nat.iter d lcg x < N.
Proof. intros Hx. destruct d; [done|]. cbn. apply Z.mod_pos_bound. apply Z.pow_pos_nonneg; lia. Qed.

(** A state comes back only after a multiple of [2^k] steps. *)
Lemma lcg_return d x : 0 <= x < N -> Nat.iter d lcg x = x -> (N | Z.of_nat d).
Proof using Ha Hc.
  intros Hx E. apply geom_divide. pose proof (lcg_iter d x) as HI. rewrite E in HI.
  pose proof (geom_pow d) as HG.
  apply (odd_gauss k ((a - 1) * x + c)).
  { rewrite Z.odd_add, Z.odd_mul, Hc. assert (Z.odd (a - 1) = false) as ->; [|done].
    pose proof (Z.div_mod a 4 ltac:(lia)) as E4. rewrite Ha in E4. rewrite E4.
    replace (4 * (a / 4) + 1 - 1) with (2 * (2 * (a / 4))) by lia. by rewrite Z.odd_mul. }
  assert (HN : N <> 0) by (apply Z.pow_nonzero; lia).
  apply Z.mod_divide; [done|].
  replace (((a - 1) * x + c) * geom d) with (a ^ Z.of_nat d * x + c * geom d - x) by nia.
  rewrite Zminus_mod, <- HI. rewrite Z.sub_diag. done.
Qed.

Lemma lcg_injective i j x :
  0 <= x < N -> 0 <= i < N -> 0 <= j < N ->
  Nat.iter (Z.to_nat i) lcg x = Nat.iter (Z.to_nat j) lcg x -> i = j.
Proof using Ha Hc.
  intros Hx. revert i j.
  assert (Hlt : forall i j, 0 <= i < j -> j < N -> Nat.iter (Z.to_nat i) lcg x <> Nat.iter (Z.to_nat j) lcg x).
  { intros i j Hij Hj E. replace (Z.to_nat j) with (Z.to_nat (j - i) + Z.to_nat i)%nat in E by lia.
    rewrite Nat.iter_add in E. symmetry in E. apply lcg_return in E; [|by apply lcg_range].
    apply Z.divide_pos_le in E; lia. }
  intros i j Hi Hj E. destruct (Z.lt_trichotomy i j) as [H|[H|H]]; [|done|]; exfalso.
  - by apply (Hlt i j ltac:(lia) ltac:(lia)).
  - by apply (Hlt j i ltac:(lia) ltac:(lia)).
Qed.

(** The period is full: from every state every state is reached. *)
Lemma lcg_reaches x y :
  0 <= x < N -> 0 <= y < N -> exists i, 0 <= i < N /\ Nat.iter (Z.to_nat i) lcg x = y.
Proof using Ha Hc.
  intros Hx Hy. set (f := fun i => Nat.iter (Z.to_nat i) lcg x).
  assert (Hnd : NoDup (f <$> seqZ 0 N)).
  { apply NoDup_fmap_2_strong; [|apply NoDup_seqZ]. intros i j Hi%elem_of_seqZ Hj%elem_of_seqZ.
    apply lcg_injective; [done|lia|lia]. }
  assert (Hin : f <$> seqZ 0 N ⊆+ seqZ 0 N).
  { apply NoDup_submseteq; [done|]. intros z (i & -> & Hi)%list_elem_of_fmap. apply elem_of_seqZ.
    pose proof (lcg_range (Z.to_nat i) x Hx). unfold f. lia. }
  assert (HP : f <$> seqZ 0 N ≡ₚ seqZ 0 N) by (apply submseteq_length_Permutation; [done|]; by rewrite length_fmap).
  assert (Hy' : y ∈ f <$> seqZ 0 N) by (rewrite HP; apply elem_of_seqZ; lia).
  apply list_elem_of_fmap in Hy' as (i & -> & Hi%elem_of_seqZ). exists i. split; [lia|done].
Qed.
End Lcg.

Section Facts.
Import Zipf.
Implicit Types (st : zipf_gen_state).

(** The step of [mehcached_rand_d] on 48-bit states. *)
Notation rand_step := (lcg 25214903917 11 48).

Lemma rand_step_lcg s : (mehcached_rand_d s).1 = rand_step s.
Proof.
  unfold mehcached_rand_d, lcg. cbn [fst]. rewrite shiftl1_pow2, land_mask by lia. unfold u64.
  apply Z.mod_mod_divide. by exists (2 ^ 16).
Qed.

Lemma rand_d_inside s : inside 0 1 (mehcached_rand_d s).2.
Proof.
  pose proof (rand_step_lcg s) as Hs. unfold mehcached_rand_d in *. cbn [fst snd] in *.
  rewrite shiftl1_pow2 in * by lia. set (r := Z.land _ _) in *.
  assert (Hr : 0 <= r < 2 ^ 48) by (rewrite Hs; apply Z.mod_pos_bound; lia).
  pose proof (double_of_Z_inside r ltac:(lia)) as Hin. apply (div_inside r); [lia|].
  destruct (double_of_Z r) as [sg|sg| |sg m e]; cbn in Hin |- *; try done.
  destruct Hin as (-> & He & Hm). split_and!; try done; [lia|]. etrans; [apply Hm|].
  apply Z.mul_le_mono_nonneg_r; [apply Z.pow_nonneg; lia|lia].
Qed.

(** [theta] selects one of the modes without the approximation. *)
Definition plain st : bool :=
  SFeqb (theta st) (double_of_Z (-1)) || SFeqb (theta st) (double_of_Z 0) || SFleb (double_of_Z 40) (theta st).

(** What every call keeps: the state of the random numbers fits in 48 bits, or
    is the next value of the sequence; [dbl_n] is [n] once it has been computed. *)
Record zipf_ok st : Prop := {
  zo_n : 0 < n st < 2 ^ 53;
  zo_rand : 0 <= rand_state st < (if SFeqb (theta st) (double_of_Z (-1)) then n st else 2 ^ 48);
  zo_dbl : last_n st = n st -> dbl_n st = double_of_Z (n st)
}.

Lemma init_ok k th seed st :
  0 < k < 2 ^ 53 -> 0 <= seed -> mehcached_zipf_init k th seed = Ret st ->
  zipf_ok st /\ n st = k /\ theta st = th.
Proof.
  intros Hk Hs H. unfold mehcached_zipf_init in H.
  destruct (SFeqb th (double_of_Z (-1))) eqn:E1; inv_ret; b2p; rewrite shiftl1_pow2 in * by lia;
    destruct x3 as [al tr]; inv_ret; (split_and!; [|done|done]);
    (split; cbn [n rand_state theta last_n]; [done| |lia]); rewrite E1; [apply Z.mod_pos_bound; lia|lia].
Qed.

Lemma plain_not_unit st : plain st = true -> in_unit (theta st) = false.
Proof.
  unfold plain, in_unit. replace (double_of_Z (-1)) with (S754_finite true 4503599627370496 (-52)) by by_eval.
  replace (double_of_Z 0) with (S754_zero false) by by_eval.
  replace (double_of_Z 40) with (S754_finite false 5629499534213120 (-47)) by by_eval.
  replace (double_of_Z 1) with (S754_finite false 4503599627370496 (-52)) by by_eval.
  unfold SFltb, SFleb, SFeqb, SFcompare.
  destruct (theta st) as [sg|[]| |[] m e]; cbv beta iota; intros H; try reflexivity.
  cbn [orb andb] in *. destruct (Z.compare_spec (-47) e) as [He|Hlt|Hlt].
  - rewrite (proj2 (Z.compare_gt_iff e (-52))) by lia. reflexivity.
  - rewrite (proj2 (Z.compare_gt_iff e (-52))) by lia. reflexivity.
  - discriminate H.
Qed.

(** In the plain modes [refresh] is total. *)
Lemma refresh_plain st :
  zipf_ok st -> plain st = true ->
  exists st', refresh st = Ret st' /\ zipf_ok st' /\ n st' = n st /\ theta st' = theta st /\
    rand_state st' = rand_state st /\ last_n st' = n st.
Proof.
  intros [Hn Hr Hd] Hu%plain_not_unit. unfold refresh. destruct (last_n st =? n st) eqn:E; b2p; [by exists st|].
  rewrite Hu. cbn [mbind outcome_bind]. eexists. split; [done|]. by split_and!; [split|..].
Qed.

(** The value of the uniform mode. *)
Lemma uniform_value st :
  zipf_ok st -> last_n st = n st ->
  exists v, u64_of_double (double_mul (dbl_n st) (mehcached_rand_d (rand_state st)).2) = Ret v /\ 0 <= v <= n st.
Proof.
  intros Hok Hl. pose proof (zo_n _ Hok). rewrite (zo_dbl _ Hok Hl).
  apply (u64_inside 0); [lia|lia|lia|].
  pose proof (mul_inside (n st) 0 (n st) (double_of_Z (n st)) (mehcached_rand_d (rand_state st)).2) as Hm.
  rewrite Z.mul_0_r in Hm. apply Hm; [lia|lia|lia|apply double_of_Z_inside; lia|apply rand_d_inside].
Qed.

Lemma next_plain st :
  zipf_ok st -> plain st = true ->
  exists st' v, mehcached_zipf_next st = Ret (st', v) /\ zipf_ok st' /\ n st' = n st /\ theta st' = theta st /\
    0 <= v <= n st /\ (SFeqb (theta st) (double_of_Z 0) = false -> v < n st).
Proof.
  intros Hok Hp. destruct (refresh_plain st Hok Hp) as (st1 & Hr & Hok1 & Hn & Ht & Hs & Hl).
  unfold mehcached_zipf_next. rewrite Hr. cbn [mbind outcome_bind]. rewrite Ht.
  pose proof (zo_n _ Hok1) as Hn1. pose proof (zo_rand _ Hok1) as Hr1. rewrite Ht in Hr1.
  assert (Hrd : 0 <= (mehcached_rand_d (rand_state st1)).1 < 2 ^ 48).
  { rewrite rand_step_lcg. apply Z.mod_pos_bound. done. }
  assert (Hw : forall r, 0 <= r < (if SFeqb (theta st) (double_of_Z (-1)) then n st else 2 ^ 48) ->
    zipf_ok (with_rand st1 r)).
  { intros r H. split; cbn; [done|by rewrite Ht, Hn|apply (zo_dbl _ Hok1)]. }
  destruct (SFeqb (theta st) (double_of_Z (-1))) eqn:E1.
  { eexists _, _. split; [done|]. rewrite <- Hn. cbn [n theta with_rand]. split_and!; try done; try lia.
    apply Hw. rewrite u64_small, <- Hn by lia. destruct (_ <=? _) eqn:E; b2p; lia. }
  destruct (SFeqb (theta st) (double_of_Z 0)) eqn:E0.
  { destruct (uniform_value st1 Hok1) as (v & Hv & Hvb); [congruence|].
    destruct (mehcached_rand_d (rand_state st1)) as [r u]. cbn [fst snd] in *. rewrite Hv. cbn [mbind outcome_bind].
    eexists _, v. split; [done|]. cbn [n theta with_rand]. rewrite <- Hn. split_and!; try done; try lia. by apply Hw. }
  assert (SFleb (double_of_Z 40) (theta st) = true) as ->.
  { unfold plain in Hp. rewrite E1, E0 in Hp. done. }
  exists st1, 0. split_and!; try done; lia.
Qed.

(** Any number of calls. *)
Lemma draw_plain st k :
  zipf_ok st -> plain st = true ->
  exists st' vs, draw k st = Ret (st', vs) /\ zipf_ok st' /\ n st' = n st /\ theta st' = theta st /\
    length vs = k /\
    Forall (fun v => 0 <= v <= n st /\ (SFeqb (theta st) (double_of_Z 0) = false -> v < n st)) vs.
Proof.
  revert st. induction k as [|k IH]; intros st Hok Hp; [by exists st, []|]. cbn [draw].
  destruct (next_plain st Hok Hp) as (st1 & v & -> & Hok1 & Hn1 & Ht1 & Hv). cbn [mbind outcome_bind].
  destruct (IH st1 Hok1) as (st2 & vs & -> & Hok2 & Hn2 & Ht2 & Hl & Hvs); [unfold plain in *; by rewrite Ht1|].
  cbn [mbind outcome_bind]. exists st2, (v :: vs). rewrite Hn1 in *. rewrite Ht1 in *.
  split_and!; try done; [cbn; by rewrite Hl|by constructor].
Qed.

(** A batch in the plain modes. *)
Lemma fillArray_plain (r : ZipfianSampleReader.reader) :
  let st := ZipfianSampleReader.state r in
  zipf_ok st -> plain st = true ->
  exists r' keys, ZipfianSampleReader.fillArray r = Ret (r', keys) /\
    zipf_ok (ZipfianSampleReader.state r') /\ n (ZipfianSampleReader.state r') = n st /\
    theta (ZipfianSampleReader.state r') = theta st /\
    ZipfianSampleReader.nr_keys_per_req_ r' = ZipfianSampleReader.nr_keys_per_req_ r /\
    length keys = Z.to_nat (ZipfianSampleReader.nr_keys_per_req_ r) /\
    Forall (fun key => 1 <= key <= n st + (if SFeqb (theta st) (double_of_Z 0) then 1 else 0)) keys.
Proof.
  intros st Hok Hp.
  destruct (draw_plain st (Z.to_nat (ZipfianSampleReader.nr_keys_per_req_ r)) Hok Hp)
    as (st' & vs & Hd & Hok' & Hn & Ht & Hl & Hvs).
  unfold ZipfianSampleReader.fillArray. fold st. rewrite Hd. cbn [mbind outcome_bind].
  eexists _, _. split; [done|]. split_and!; try done; [by rewrite length_fmap|].
  apply Forall_fmap. eapply Forall_impl; [exact Hvs|]. intros v [Hv Hlt]. cbn.
  pose proof (zo_n _ Hok). rewrite u64_small by lia. destruct (SFeqb _ _); [lia|]. specialize (Hlt eq_refl). lia.
Qed.


(** A reader that the constructor has made is well formed. *)
Lemma Zipfian_make_ok tid M th nr tsc r :
  0 < M -> 0 <= tid < 2 ^ 31 -> 0 <= tsc -> ZipfianSampleReader.make tid M th nr tsc = Ret r ->
  zipf_ok (ZipfianSampleReader.state r) /\ n (ZipfianSampleReader.state r) = M * 2 ^ 20 /\
  theta (ZipfianSampleReader.state r) = th /\ ZipfianSampleReader.nr_keys_per_req_ r = nr.
Proof.
  intros HM Ht Hts. unfold ZipfianSampleReader.make. destruct (_ || _) eqn:E; [done|].
  intros H. b2p. inv_ret. cbn [ZipfianSampleReader.state]. rewrite u64_small in * by lia.
  replace (M * 1024 * 1024) with (M * 2 ^ 20) in * by lia.
  match goal with H : mehcached_zipf_init _ _ _ = Ret _ |- _ => apply init_ok in H; [naive_solver|lia|] end.
  apply Z.lxor_nonneg. split; intros _; [apply u64_range|apply Z.land_nonneg; lia].
Qed.

(** The sequence mode. *)
Lemma next_sequence st :
  zipf_ok st -> SFeqb (theta st) (double_of_Z (-1)) = true ->
  exists st', mehcached_zipf_next st = Ret (st', rand_state st) /\ zipf_ok st' /\ n st' = n st /\
    theta st' = theta st /\ rand_state st' = (rand_state st + 1) mod n st.
Proof.
  intros Hok Ht. destruct (refresh_plain st Hok) as (st1 & Hr & Hok1 & Hn & Ht1 & Hs & Hl);
    [unfold plain; by rewrite Ht|].
  unfold mehcached_zipf_next. rewrite Hr. cbn [mbind outcome_bind]. rewrite Ht1, Ht, Hs, Hn.
  eexists. split; [done|]. pose proof (zo_n _ Hok). pose proof (zo_rand _ Hok) as Hrr. rewrite Ht in Hrr.
  rewrite u64_small by lia.
  assert (Hm : (if n st <=? rand_state st + 1 then 0 else rand_state st + 1) = (rand_state st + 1) mod n st).
  { destruct (_ <=? _) eqn:E; b2p; [|by rewrite Z.mod_small by lia].
    replace (rand_state st + 1) with (n st) by lia. by rewrite Z.mod_same by lia. }
  rewrite Hm. split_and!; try done. split; cbn [n theta rand_state dbl_n last_n with_rand]; [by rewrite Hn| |].
  - rewrite Ht1, Ht, Hn. apply Z.mod_pos_bound. lia.
  - apply (zo_dbl _ Hok1).
Qed.

(** With theta = -1 the generator is a cyclic counter: the i-th value is
    [(rand_state + i) mod n], so [n] calls in a row give every key once. *)
Theorem draw_sequence st k :
  zipf_ok st -> SFeqb (theta st) (double_of_Z (-1)) = true ->
  exists st', draw k st = Ret (st', (fun i => (rand_state st + i) mod n st) <$> seqZ 0 (Z.of_nat k)).
Proof.
  revert st. induction k as [|k IH]; intros st Hok Ht; [by exists st|]. cbn [draw].
  destruct (next_sequence st Hok Ht) as (st1 & -> & Hok1 & Hn1 & Ht1 & Hs1). cbn [mbind outcome_bind].
  destruct (IH st1 Hok1) as (st2 & ->); [by rewrite Ht1|]. cbn [mbind outcome_bind]. exists st2.
  pose proof (zo_n _ Hok). pose proof (zo_rand _ Hok) as Hr. rewrite Ht in Hr.
  rewrite Nat2Z.inj_succ, (seqZ_cons 0 (Z.succ _)) by lia. rewrite fmap_cons.
  rewrite Z.add_0_r, (Z.mod_small (rand_state st)) by lia. do 3 f_equal. rewrite Z.pred_succ, Hn1, Hs1. apply list_eq. intros j. rewrite !list_lookup_fmap.
  destruct (decide (j < k)%nat) as [Hj|Hj].
  - rewrite !lookup_seqZ_lt by lia. cbn. f_equal. rewrite Z.add_mod_idemp_l by lia. f_equal. lia.
  - rewrite !lookup_seqZ_ge by lia. done.
Qed.

(** ** The uniform mode reaches [n] *)

Lemma uniform_draw k st :
  zipf_ok st -> SFeqb (theta st) (double_of_Z 0) = true -> SFeqb (theta st) (double_of_Z (-1)) = false ->
  exists st' vs, draw k st = Ret (st', vs) /\ zipf_ok st' /\ n st' = n st /\ theta st' = theta st /\
    rand_state st' = Nat.iter k rand_step (rand_state st).
Proof.
  intros Hok H0 H1. revert st Hok H0 H1. induction k as [|k IH]; intros st Hok H0 H1; [by exists st, []|]. cbn [draw].
  assert (Hp : plain st = true) by (unfold plain; by rewrite H0, H1).
  destruct (next_plain st Hok Hp) as (st1 & v & HN & Hok1 & Hn1 & Ht1 & _).
  assert (Hr1 : rand_state st1 = rand_step (rand_state st)).
  { rewrite <- rand_step_lcg. revert HN. unfold mehcached_zipf_next.
    destruct (refresh_plain st Hok Hp) as (sr & -> & _ & _ & Htr & Hsr & _). cbn [mbind outcome_bind].
    rewrite Htr, H1, H0, Hsr. destruct (mehcached_rand_d _) as [r u]. destruct (u64_of_double _); [|done].
    cbn [mbind outcome_bind fst]. by intros [= <- _]. }
  rewrite HN. cbn [mbind outcome_bind]. destruct (IH st1 Hok1) as (st2 & vs & -> & Hok2 & Hn2 & Ht2 & Hr2);
    [by rewrite Ht1|by rewrite Ht1|]. cbn [mbind outcome_bind]. exists st2, (v :: vs).
  split_and!; try done; try congruence. rewrite Hr2, Hr1, <- Nat.iter_succ_r. done.
Qed.

(** The uniform mode leaves its range: the random numbers have the full
    period of 2^48, and the state 2^48 - 1 stands for 1.0, so every generator,
    whatever its seed, returns [n] itself after some number of calls. *)
Theorem uniform_reaches_n st :
  zipf_ok st -> SFeqb (theta st) (double_of_Z 0) = true -> SFeqb (theta st) (double_of_Z (-1)) = false ->
  exists k st1 vs st2, draw k st = Ret (st1, vs) /\ mehcached_zipf_next st1 = Ret (st2, n st).
Proof.
  intros Hok H0 H1. pose proof (zo_rand _ Hok) as Hr. rewrite H1 in Hr.
  assert (Hpre : exists s, 0 <= s < 2 ^ Z.of_nat 48 /\ rand_step s = 2 ^ 48 - 1) by (exists 142368275371844; split; [lia|by_eval]).
  destruct Hpre as (s & Hs & Hs1).
  destruct (lcg_reaches 25214903917 11 eq_refl eq_refl 48 (rand_state st) s) as (i & Hi & Hit); [done|done|].
  destruct (uniform_draw (Z.to_nat i) st Hok H0 H1) as (st1 & vs & Hd & Hok1 & Hn1 & Ht1 & Hr1).
  exists (Z.to_nat i), st1, vs. rewrite Hd. unfold mehcached_zipf_next.
  destruct (refresh_plain st1 Hok1) as (sr & -> & Hokr & Hnr & Htr & Hsr & Hlr);
    [unfold plain; by rewrite Ht1, H0, H1|]. cbn [mbind outcome_bind].
  rewrite Htr, Ht1, H1, H0, Hsr, Hr1, Hit.
  pose proof (rand_step_lcg s) as Hst. rewrite Hs1 in Hst.
  assert (Hu : inside 1 1 (mehcached_rand_d s).2).
  { unfold mehcached_rand_d in *. cbn [fst snd] in *. rewrite Hst. vm_compute. by split_and!. }
  destruct (mehcached_rand_d s) as [r u]. cbn [snd] in Hu. rewrite (zo_dbl _ Hokr) by congruence.
  pose proof (zo_n _ Hokr) as Hnb.
  destruct (u64_inside (n sr * 1) (n sr) (double_mul (double_of_Z (n sr)) u)) as (v & -> & Hv); [lia|lia|lia| |].
  { apply mul_inside; [lia|lia|lia|apply double_of_Z_inside; lia|done]. }
  cbn [mbind outcome_bind]. eexists. split; [done|]. do 2 f_equal. lia.
Qed.

(** ** Concrete generators *)

Definition state_of (o : outcome zipf_gen_state) : zipf_gen_state :=
  match o with
  | Ret st => st
  | Err _ => Build_zipf_gen_state 1 S754_nan S754_nan S754_nan 0 S754_nan S754_nan S754_nan 0
  end.

Lemma zipf_init_ok k th seed :
  0 < k < 2 ^ 53 -> 0 <= seed -> (exists st, mehcached_zipf_init k th seed = Ret st) ->
  zipf_ok (state_of (mehcached_zipf_init k th seed)).
Proof. intros Hk Hs [st E]. rewrite E. cbn. by destruct (init_ok _ _ _ _ Hk Hs E). Qed.

Definition uniform : zipf_gen_state := state_of (mehcached_zipf_init (2 ^ 20) (double_of_Z 0) 12345).

Definition counter : zipf_gen_state := state_of (mehcached_zipf_init 1000 (double_of_Z (-1)) 12995).

Lemma uniform_ok : zipf_ok uniform.
Proof. apply zipf_init_ok; [lia|lia|]. eexists. vm_compute. reflexivity. Qed.

Lemma counter_ok : zipf_ok counter.
Proof. apply zipf_init_ok; [lia|lia|]. eexists. vm_compute. reflexivity. Qed.

Definition uniform_reader : ZipfianSampleReader.reader :=
  match ZipfianSampleReader.make 3 1 (double_of_Z 0) 8 123456789 with
  | Ret r => r
  | Err _ => ZipfianSampleReader.Build_reader uniform 0
  end.

Lemma uniform_reader_ok : zipf_ok (ZipfianSampleReader.state uniform_reader).
Proof.
  assert (E : exists r, ZipfianSampleReader.make 3 1 (double_of_Z 0) 8 123456789 = Ret r)
    by (eexists; vm_compute; reflexivity).
  destruct E as [r E]. unfold uniform_reader. rewrite E.
  by apply (Zipfian_make_ok 3 1 (double_of_Z 0) 8 123456789); [lia|lia|lia|].
Qed.


Lemma draw_sequence_witness :
  rand_state counter = 995 /\
  exists st', draw 7 counter = Ret (st', (fun i => (rand_state counter + i) mod n counter) <$> seqZ 0 7).
Proof. split; [by_eval|]. apply (draw_sequence counter 7); [apply counter_ok|by_eval]. Defined.

Lemma uniform_reaches_n_witness :
  exists k st1 vs st2, draw k uniform = Ret (st1, vs) /\ mehcached_zipf_next st1 = Ret (st2, n uniform).
Proof. apply (uniform_reaches_n uniform); [apply uniform_ok|by_eval|by_eval]. Defined.

(** [mehcached_zipf_init_copy] takes the seed as it is, also in the sequence
    mode, and [mehcached_zipf_change_n] leaves the next value: the first value
    is then out of range. *)
Theorem sequence_seed_not_reduced :
  mehcached_zipf_init 1000 (double_of_Z (-1)) 12995 = Ret counter /\
  match (st ← mehcached_zipf_init_copy counter 12995; draw 3 st), draw 3 (mehcached_zipf_change_n counter 10) with
  | Ret (_, vs), Ret (_, ws) => vs = [12995; 0; 1] /\ ws = [995; 0; 1]
  | _, _ => False
  end.
Proof. vm_compute. auto. Qed.

(** For a single item the approximation returns the item 1, which does not
    exist. *)
Theorem single_item_out_of_range :
  match (st ← mehcached_zipf_init 1 (double_div (double_of_Z 9) (double_of_Z 10)) 142368275371844; draw 1 st) with
  | Ret (_, vs) => vs = [1]
  | Err _ => False
  end.
Proof. vm_compute. reflexivity. Qed.
End Facts.
