(* ===== verification/Persistence.v ===== *)
(** * Flushing cache lines (src/pet_kv/persistence.h)

    [clflushopt] writes the cache line of an address back with the instruction
    that the processor has; [clflushopt_range] walks over a range and ends with a
    store fence.  The instructions that a call executes are a trace.  [machine]
    is the memory as the program sees it and the persistent memory behind it: a
    flush starts the write-back of a line, a fence completes it. *)

From stdpp Require Import base numbers list gmap.
From Stdlib Require Import ZArith Lia.
From S2P Require Import Prelude ShmCommon MallocApi PetKV PetKVSpec.

Module Persistence.

Definition kCACHELINE_SIZE : Z := 64.

(** What lscpu lists. *)
Record cpu := Build_cpu { isClflushoptEnabled : bool; isClwbEnabled : bool; isClflushEnabled : bool }.

Inductive instr :=
  | Clflushopt (addr : Z)
  | Clwb (addr : Z)
  | Clflush (addr : Z)
  | Sfence.

Definition clflushopt (c : cpu) (addr : Z) : outcome instr :=
  if isClflushoptEnabled c then Ret (Clflushopt addr)
  else if isClwbEnabled c then Ret (Clwb addr)
  else if isClflushEnabled c then Ret (Clflush addr)
  else Err LogFatal.

(** The loop over [i], with [n] as fuel. *)
Fixpoint flush_loop (n : nat) (c : cpu) (addr i size : Z) : outcome (list instr) :=
  if i <? size then
    match n with
    | O => Err Diverges
    | S n' =>
        x ← clflushopt c (u64 (addr + i));
        xs ← flush_loop n' c addr (u64 (i + kCACHELINE_SIZE)) size;
        Ret (x :: xs)
    end
  else Ret [].

Definition clflushopt_range (n : nat) (c : cpu) (des size : Z) : outcome (list instr) :=
  let size := u64 (size + Z.land des (kCACHELINE_SIZE - 1)) in
  xs ← flush_loop n c des 0 size;
  Ret (xs ++ [Sfence]).

(** ** What the instructions do *)

Record machine := Build_machine {
  cache : gmap Z Z;
  pm : gmap Z Z;
  pending : list Z  (** the lines whose write-back has started *)
}.

Definition line_of (addr : Z) : Z := addr / 64.

Definition write_back (cache pm : gmap Z Z) (line : Z) : gmap Z Z :=
  write_bytes pm (64 * line) (read_bytes cache (64 * line) 64).

Definition exec (s : machine) (x : instr) : machine :=
  match x with
  | Clflushopt a | Clwb a | Clflush a =>
      {| cache := cache s; pm := pm s; pending := pending s ++ [line_of a] |}
  | Sfence => {| cache := cache s; pm := foldl (write_back (cache s)) (pm s) (pending s); pending := [] |}
  end.

Definition run (s : machine) (xs : list instr) : machine := foldl exec s xs.

(** The lines that a trace flushes. *)
Definition flushed (xs : list instr) : list Z :=
  omap (fun x => match x with Clflushopt a | Clwb a | Clflush a => Some (line_of a) | Sfence => None end) xs.
End Persistence.
Import Persistence.

Definition can_flush (c : cpu) : Prop := isClflushoptEnabled c || isClwbEnabled c || isClflushEnabled c = true.

Lemma clflushopt_line c addr : can_flush c -> exists x, clflushopt c addr = Ret x /\
  (forall xs, flushed (x :: xs) = line_of addr :: flushed xs) /\
  forall s, exec s x = {| cache := cache s; pm := pm s; pending := pending s ++ [line_of addr] |}.
Proof.
  unfold can_flush, clflushopt. intros H.
  destruct (isClflushoptEnabled c), (isClwbEnabled c), (isClflushEnabled c); try done; by eexists.
Qed.

(** The number of turns of the loop. *)
Definition turns (i size : Z) : Z := (size - i + 63) / 64.

Lemma flush_loop_run n c addr i size :
  can_flush c -> 0 <= addr -> 0 <= i -> size + 64 <= 2 ^ 64 -> addr + size < 2 ^ 64 -> turns i size <= Z.of_nat n ->
  exists xs, flush_loop n c addr i size = Ret xs /\ flushed xs = seqZ (line_of (addr + i)) (turns i size) /\
    forall s, run s xs = {| cache := cache s; pm := pm s; pending := pending s ++ flushed xs |}.
Proof.
  intros Hc Ha Hi Hs Has. revert i Hi. induction n as [|n IH]; intros i Hi Hn; cbn [flush_loop]; unfold turns in *.
  - destruct (i <? size) eqn:E; b2p; [Z.to_euclidean_division_equations; lia|]. exists []. split; [done|].
    rewrite seqZ_nil by (Z.to_euclidean_division_equations; lia). split; [done|]. intros []; cbn. by rewrite app_nil_r.
  - destruct (i <? size) eqn:E; b2p.
    + rewrite !u64_small by (unfold kCACHELINE_SIZE; lia).
      destruct (clflushopt_line c (addr + i) Hc) as (x & Hx & Hf & He).
      destruct (IH (i + kCACHELINE_SIZE)) as (xs & Hxs & Hfs & Hr); unfold kCACHELINE_SIZE in *;
        [lia|Z.to_euclidean_division_equations; lia|].
      exists (x :: xs). rewrite Hx. cbn [mbind outcome_bind]. rewrite Hxs. split; [done|]. rewrite Hf, Hfs. split.
      * rewrite (seqZ_cons (line_of (addr + i))) by (Z.to_euclidean_division_equations; lia).
        f_equal. unfold line_of. f_equal; Z.to_euclidean_division_equations; lia.
      * intros s. unfold run in *. cbn [foldl]. rewrite He, Hr. cbn. by rewrite <- app_assoc, Hfs.
    + exists []. split; [done|]. rewrite seqZ_nil by (Z.to_euclidean_division_equations; lia). split; [done|].
      intros []; cbn. by rewrite app_nil_r.
Qed.

(** A write-back makes a byte of its line durable and keeps the others. *)
Lemma write_back_byte m p line x :
  default 0 (write_back m p line !! x) = if decide (line_of x = line) then default 0 (m !! x) else default 0 (p !! x).
Proof.
  unfold write_back, line_of. rewrite write_bytes_lookup. unfold read_bytes. rewrite length_fmap, length_seqZ.
  destruct (decide (x / 64 = line)) as [<-|Hne].
  - rewrite decide_True by (Z.to_euclidean_division_equations; lia).
    rewrite list_lookup_fmap, lookup_seqZ_lt by (Z.to_euclidean_division_equations; lia). cbn. do 2 f_equal.
    Z.to_euclidean_division_equations; lia.
  - by rewrite decide_False by (Z.to_euclidean_division_equations; lia).
Qed.

Lemma write_backs_byte m p lines x :
  default 0 (foldl (write_back m) p lines !! x) =
    if decide (line_of x ∈ lines) then default 0 (m !! x) else default 0 (p !! x).
Proof.
  revert p. induction lines as [|l lines IH]; intros p; cbn [foldl]; [done|]. rewrite IH, write_back_byte.
  destruct (decide (line_of x ∈ lines)), (decide (line_of x = l)), (decide (line_of x ∈ l :: lines)); set_solver.
Qed.

(** clflushopt_range: on a processor with one of the three instructions it
    flushes the cache lines of the range, each once and in the order of the
    addresses, then fences; afterwards the range is durable: the persistent
    memory has the bytes that the program sees. *)
Theorem clflushopt_range_durable n c des size s :
  can_flush c -> 0 <= des -> 0 < size -> des + size + 128 < 2 ^ 64 -> size / 64 + 2 <= Z.of_nat n ->
  exists xs, clflushopt_range n c des size = Ret xs /\
    flushed xs = seqZ (line_of des) (line_of (des + size - 1) - line_of des + 1) /\
    last xs = Some Sfence /\ cache (run s xs) = cache s /\
    read_bytes (pm (run s xs)) des size = read_bytes (cache s) des size.
Proof.
  intros Hc Hd Hs Hb Hn. unfold clflushopt_range.
  assert (Hland : Z.land des (kCACHELINE_SIZE - 1) = des mod 64) by (apply (Z.land_ones des 6); lia).
  rewrite Hland. assert (0 <= des mod 64 < 64) by (apply Z.mod_pos_bound; lia). rewrite u64_small by lia.
  destruct (flush_loop_run n c des 0 (size + des mod 64) Hc) as (xs & Hx & Hf & Hr); try lia.
  { unfold turns. Z.to_euclidean_division_equations; lia. }
  rewrite Hx. cbn [mbind outcome_bind]. exists (xs ++ [Sfence]). split; [done|].
  assert (Hl : flushed (xs ++ [Sfence]) = seqZ (line_of des) (line_of (des + size - 1) - line_of des + 1)).
  { unfold flushed. rewrite omap_app. fold (flushed xs). rewrite Hf, app_nil_r, Z.add_0_r. f_equal. unfold turns, line_of.
    Z.to_euclidean_division_equations; lia. }
  split; [exact Hl|]. split; [by rewrite last_snoc|]. unfold run. rewrite foldl_app. fold (run s xs). rewrite Hr.
  cbn [foldl exec cache pm pending]. split; [done|].
  unfold flushed in Hl at 1. rewrite omap_app in Hl. cbn in Hl. rewrite app_nil_r in Hl. fold (flushed xs) in Hl.
  unfold read_bytes. apply list_fmap_ext. intros i y Hy. apply lookup_seqZ in Hy as [-> Hi].
  rewrite write_backs_byte, Hl, decide_True; [done|]. apply elem_of_app. right. apply elem_of_seqZ.
  unfold line_of. Z.to_euclidean_division_equations; lia.
Qed.

Lemma clflushopt_range_durable_witness :
  let s := {| cache := <[130 := 7]> ∅; pm := ∅; pending := [] |} in
  exists xs, clflushopt_range 5 (Build_cpu false true true) 100 60 = Ret xs /\ flushed xs = [1; 2] /\
    read_bytes (pm (run s xs)) 100 60 = read_bytes (cache s) 100 60.
Proof.
  intros s. destruct (clflushopt_range_durable 5 (Build_cpu false true true) 100 60 s) as (xs & H1 & H2 & _ & _ & H3);
    [done|lia|lia|lia|by vm_compute|].
  exists xs. split; [exact H1|]. split; [exact H2|exact H3].
Defined.
