(* ===== verification/PiBench.v ===== *)
(** * The wrapper of the index for PiBench (src/pet_kv/PiBenchWrapper.cc)

    PetHashAPI puts a PetHash behind the interface hash_api of the benchmark:
    the constructor maps a file, keeps the table in it when it is valid and
    initializes one otherwise; find, insert, update and remove call the table.
    The theorems compare a run of the wrapper with a finite map and show what
    its results are; the comments of the source promise other results for
    insert, update and remove. *)

From stdpp Require Import base numbers list gmap.
From Stdlib Require Import ZArith Lia.
From S2P Require Import Prelude F14Chunk PetHashDict PetHashInv PetHashOps PetHashInsert PetHashSpec PetHashValid.

Module PetHashAPI.

Record api := Build_api { dict_ : PetHash.dict Z; dict_shm_file_size : Z }.

Definition IGNORE_LOAD_FACTOR : bool := false.

(** The constructor on the content of the dict file, zeroed when it is new or
    had another size. *)
Definition open (dict_file : PetHash.dict Z) (capacity : Z) : outcome api :=
  let dict_size := capacity in
  dict_memory_size ← MemorySize dict_size IGNORE_LOAD_FACTOR;
  valid ← PetHash.Valid dict_file dict_memory_size;
  d ← (if negb valid then PetHash.Initialize 0 dict_size IGNORE_LOAD_FACTOR else Ret dict_file);
  Ret {| dict_ := d; dict_shm_file_size := dict_memory_size |}.

(** [find] with the buffer [value_out]. *)
Definition find (a : api) (key value_out : Z) : outcome (Z * bool) :=
  r ← PetHash.Get (dict_ a) key;
  Ret match r with
      | Some value => (value, true)
      | None => (value_out, false)
      end.

Definition insert (a : api) (key value : Z) : outcome (api * bool) :=
  '(d, _) ← PetHash.Set_ (dict_ a) key value None false;
  Ret ({| dict_ := d; dict_shm_file_size := dict_shm_file_size a |}, true).

Definition insertResize (a : api) (key value : Z) : outcome (api * bool) :=
  '(d, _) ← PetHash.Set_ (dict_ a) key value None false;
  Ret ({| dict_ := d; dict_shm_file_size := dict_shm_file_size a |}, true).

Definition update (a : api) (key value : Z) : outcome (api * bool) :=
  '(d, _) ← PetHash.Set_ (dict_ a) key value None false;
  Ret ({| dict_ := d; dict_shm_file_size := dict_shm_file_size a |}, true).

Definition remove (a : api) (key : Z) : outcome (api * bool) :=
  d ← PetHash.Delete (dict_ a) key;
  Ret ({| dict_ := d; dict_shm_file_size := dict_shm_file_size a |}, true).

(** [scan] returns [true] as an [int] and no value. *)
Definition scan (a : api) (key scan_sz : Z) : Z := 1.

(** ** Runs *)

Inductive op :=
  | Find (key value_out : Z)
  | Insert (key value : Z)
  | Update (key value : Z)
  | Remove (key : Z).

(** The result of a call: its boolean and, for a find, the buffer. *)
Definition exec (a : api) (o : op) : outcome (api * (bool * option Z)) :=
  match o with
  | Find k out => '(v, b) ← find a k out; Ret (a, (b, Some v))
  | Insert k v => '(a, b) ← insert a k v; Ret (a, (b, None))
  | Update k v => '(a, b) ← update a k v; Ret (a, (b, None))
  | Remove k => '(a, b) ← remove a k; Ret (a, (b, None))
  end.

Fixpoint exec_all (a : api) (os : list op) : outcome (api * list (bool * option Z)) :=
  match os with
  | [] => Ret (a, [])
  | o :: os' =>
      '(a, r) ← exec a o;
      '(a, rs) ← exec_all a os';
      Ret (a, r :: rs)
  end.
End PetHashAPI.

(** ** The map that the wrapper promises *)

#[local] Coercion dw_core : dict_wf >-> dict_core.

Section Spec.
Import PetHashAPI.

Definition key_of (o : op) : Z :=
  match o with Find k _ | Insert k _ | Update k _ | Remove k => k end.

Definition writes_key (o : op) : bool :=
  match o with Insert _ _ | Update _ _ => true | _ => false end.

Definition map_exec (m : gmap Z Z) (o : op) : gmap Z Z * (bool * option Z) :=
  match o with
  | Find k out => (m, (bool_decide (is_Some (m !! k)), Some (default out (m !! k))))
  | Insert k v | Update k v => (<[k := v]> m, (true, None))
  | Remove k => (delete k m, (true, None))
  end.

Fixpoint map_all (m : gmap Z Z) (os : list op) : gmap Z Z * list (bool * option Z) :=
  match os with
  | [] => (m, [])
  | o :: os' =>
      let '(m, r) := map_exec m o in
      let '(m, rs) := map_all m os' in
      (m, r :: rs)
  end.

Definition num_writes (os : list op) : Z := Z.of_nat (length (filter (fun o => writes_key o = true) os)).

Lemma num_writes_cons o os : num_writes (o :: os) = (if writes_key o then 1 else 0) + num_writes os.
Proof.
  unfold num_writes. rewrite filter_cons.
  destruct (writes_key o); [rewrite decide_True by done|rewrite decide_False by done]; cbn [length]; lia.
Qed.

(** Insert and update are the same call of the table. *)
Lemma write_step (d : PetHash.dict Z) (k v : Z) :
  dict_wf d [] -> 0 <= k < 2 ^ 64 -> (PetHash.size_ d + 1) * 100 < PetHash.capacity_ d * 90 + 100 ->
  exists d' p, PetHash.Set_ d k v None false = Ret (d', p) /\ dict_wf d' [] /\
    to_map d' = <[k := v]> (to_map d) /\ PetHash.capacity_ d' = PetHash.capacity_ d /\ PetHash.size_ d' <= PetHash.size_ d + 1.
Proof.
  intros Hwf Hk Hs. destruct (exec_step d (OpSet k v) Hwf Hk Hs) as (d' & HE & Hwf' & Hm & Hc & Hz).
  cbn [PetHashSpec.exec] in HE. destruct (PetHash.Set_ d k v None false) as [[d1 p]|] eqn:E; [|done].
  cbn in HE. simplify_eq. by exists d', p.
Qed.

Lemma map_step a o :
  dict_wf (dict_ a) [] -> 0 <= key_of o < 2 ^ 64 ->
  (PetHash.size_ (dict_ a) + num_writes [o]) * 100 < PetHash.capacity_ (dict_ a) * 90 + 100 ->
  exists a', exec a o = Ret (a', (map_exec (to_map (dict_ a)) o).2) /\ dict_wf (dict_ a') [] /\
    to_map (dict_ a') = (map_exec (to_map (dict_ a)) o).1 /\
    PetHash.capacity_ (dict_ a') = PetHash.capacity_ (dict_ a) /\
    PetHash.size_ (dict_ a') <= PetHash.size_ (dict_ a) + num_writes [o].
Proof.
  intros Hwf Hk Hs. rewrite num_writes_cons in *. cbn [num_writes] in *. change (num_writes []) with 0 in *.
  destruct o as [k out|k v|k v|k]; cbn [exec key_of writes_key map_exec fst snd] in *.
  - exists a. unfold find. rewrite (Get_lookup_map _ [] k Hwf). cbn [mbind outcome_bind].
    destruct (to_map (dict_ a) !! k); cbn; split_and!; (done || lia).
  - destruct (write_step (dict_ a) k v Hwf Hk ltac:(lia)) as (d' & p & HS & ? & ? & ? & ?). unfold insert.
    rewrite HS. cbn [mbind outcome_bind]. eexists. split; [done|]. cbn. split_and!; (done || lia).
  - destruct (write_step (dict_ a) k v Hwf Hk ltac:(lia)) as (d' & p & HS & ? & ? & ? & ?). unfold update.
    rewrite HS. cbn [mbind outcome_bind]. eexists. split; [done|]. cbn. split_and!; (done || lia).
  - unfold remove. destruct (exec_step (dict_ a) (OpDelete k) Hwf Hk Hs) as (d' & HE & Hwf' & Hm & Hc & Hz).
    cbn [PetHashSpec.exec] in HE. destruct (PetHash.Delete (dict_ a) k) as [d1|] eqn:E; [|done]. cbn in HE. simplify_eq.
    cbn [mbind outcome_bind]. eexists. split; [done|]. cbn. split_and!; (done || exact Hz).
Qed.

Lemma exec_all_size a os a' rs : exec_all a os = Ret (a', rs) -> dict_shm_file_size a' = dict_shm_file_size a.
Proof.
  revert a rs. induction os as [|o os IH]; intros a rs HE; cbn [exec_all] in HE; [by simplify_eq|].
  inv_tuple. match goal with H : exec_all _ _ = _ |- _ => rewrite (IH _ _ H) end.
  destruct o; cbn [exec find insert update remove] in *; unfold find, insert, update, remove in *; by inv_tuple.
Qed.

Lemma map_run a os :
  dict_wf (dict_ a) [] -> Forall (fun o => 0 <= key_of o < 2 ^ 64) os ->
  (PetHash.size_ (dict_ a) + num_writes os) * 100 < PetHash.capacity_ (dict_ a) * 90 + 100 ->
  exists a', exec_all a os = Ret (a', (map_all (to_map (dict_ a)) os).2) /\ dict_wf (dict_ a') [] /\
    to_map (dict_ a') = (map_all (to_map (dict_ a)) os).1 /\
    PetHash.capacity_ (dict_ a') = PetHash.capacity_ (dict_ a).
Proof.
  revert a. induction os as [|o os IH]; intros a Hwf Hk Hs; [by exists a|].
  apply Forall_cons in Hk as [Hko Hk]. assert (0 <= num_writes os) by (unfold num_writes; lia).
  rewrite num_writes_cons in Hs. pose proof (num_writes_cons o []) as E1. change (num_writes []) with 0 in E1.
  destruct (map_step a o Hwf Hko ltac:(lia)) as (a1 & HE & Hwf1 & Hm1 & Hc1 & Hs1).
  destruct (IH a1 Hwf1 Hk ltac:(lia)) as (a' & HA & Hwf' & Hm' & Hc'). exists a'. cbn [exec_all map_all].
  rewrite HE. cbn [mbind outcome_bind]. rewrite HA. cbn [mbind outcome_bind]. rewrite Hm1 in Hm' |- *.
  destruct (map_exec _ _) as [m1 r1]. cbn [fst snd] in *. destruct (map_all m1 os) as [m2 rs]. split_and!; (done || congruence).
Qed.

(** The file of a table that was set up for [capacity] entries has the size
    that the constructor computes. *)
Lemma open_MemorySize (d : PetHash.dict Z) capacity c :
  dict_wf d [] -> apply_load_factor capacity IGNORE_LOAD_FACTOR = Ret c ->
  OverFallChunkNum c = Ret (PetHash.capacity_ d / 14) ->
  exists m, MemorySize capacity IGNORE_LOAD_FACTOR = Ret m /\ 0 < m /\
    MemorySize (PetHash.capacity_ d) true = Ret m.
Proof.
  intros Hwf Hc HO. pose proof (pow2_num_range _ (dw_num _ Hwf)) as Hr. pose proof (dw_num _ Hwf) as Hp.
  rewrite (dw_cap _ Hwf), Z.div_mul in * by lia. unfold MemorySize. rewrite Hc. cbn [mbind outcome_bind].
  rewrite HO. cbn [mbind outcome_bind apply_load_factor]. rewrite (OverFallChunkNum_pow2 _ Hp). cbn [mbind outcome_bind].
  eexists. split; [done|]. split; [|done]. unfold sizeof_PetHash, sizeof_ChunkT. rewrite u64_small by lia. lia.
Qed.


(** The comment of update says that it returns false, and changes nothing, for
    a key that does not exist; it inserts the key. *)
Lemma update_absent_inserts a k v :
  dict_wf (dict_ a) [] -> 0 <= k < 2 ^ 64 -> to_map (dict_ a) !! k = None ->
  (PetHash.size_ (dict_ a) + 1) * 100 < PetHash.capacity_ (dict_ a) * 90 + 100 ->
  exists a', update a k v = Ret (a', true) /\ to_map (dict_ a') = <[k := v]> (to_map (dict_ a)).
Proof.
  intros Hwf Hk _ Hs. destruct (write_step (dict_ a) k v Hwf Hk Hs) as (d' & p & HS & _ & Hm & _). unfold update.
  rewrite HS. cbn [mbind outcome_bind]. by eexists.
Qed.
End Spec.

Section Witness.
Import PetHashAPI.

Definition no_file : PetHash.dict Z :=
  {| PetHash.capacity_ := 0; PetHash.chunk_num_ := 0; PetHash.size_ := 0; PetHash.chunk_table_ := [] |}.

End Witness.
