(* ===== verification/StdKV.v ===== *)
(** * The store interface with expiry (src/pet_kv/std_kv.h)

    [DBApi] reads and writes values with an expiry time; [TestDB] implements it
    on a table in memory.  The interface is a class; what it promises is stated
    against any implementation of it. *)

From stdpp Require Import base numbers list gmap.
From Stdlib Require Import ZArith Lia.
From S2P Require Import Prelude.

(** The virtual functions: [Write] with an expiry time, and [Read], which gives
    the data and the expiry time of a key that is there. *)
Class DBApi (T : Type) := {
  Write_expire : T -> Z -> list Z -> Z -> T * bool;
  Read_expire : T -> Z -> option (list Z * Z)
}.

Module DB.
Section DB.
Context {T : Type} `{!DBApi T}.

Definition Write (db : T) (key : Z) (data : list Z) : T * bool := Write_expire db key data 0.

(** [Read]: the data, and whether they are there and not expired; [timestamp]
    is GetTimestamp, in microseconds, [data] what the string holds before. *)
Definition Read (db : T) (key : Z) (timestamp : Z) : list Z * bool :=
  match Read_expire db key with
  | None => ([], false)
  | Some (data, expire_timet) =>
      if expire_timet =? 0 then (data, true)
      else if expire_timet <? Z.quot timestamp 1000000 then (data, false)
      else (data, true)
  end.
End DB.
End DB.

Module TestDB.
(** [key_values_] *)
Record test_db := Build_test_db { key_values_ : gmap Z (Z * list Z) }.

(** The data are [size] bytes from [data]; the expiry time is a [uint32]. *)
Definition Write (db : test_db) (key : Z) (data : list Z) (expire_timet : Z) : test_db * bool :=
  ({| key_values_ := <[key := (expire_timet, data)]> (key_values_ db) |}, true).

Definition Read (db : test_db) (key : Z) : option (list Z * Z) :=
  match key_values_ db !! key with
  | None => None
  | Some (expire_timet, data) => Some (data, expire_timet)
  end.

#[global] Instance test_db_api : DBApi test_db := {| Write_expire := Write; Read_expire := Read |}.
End TestDB.

(** What a store with expiry promises: a write succeeds, is seen by the reads
    of its key and by no other. *)
Class DBLaws (T : Type) `{!DBApi T} := {
  Write_true db key data e : (Write_expire db key data e).2 = true;
  Read_written db key data e : Read_expire (Write_expire db key data e).1 key = Some (data, e);
  Read_other db key key' data e : key <> key' -> Read_expire (Write_expire db key data e).1 key' = Read_expire db key'
}.

#[export] Instance test_db_laws : DBLaws TestDB.test_db.
Proof.
  split; intros; unfold Read_expire, Write_expire, TestDB.test_db_api, TestDB.Read, TestDB.Write;
    cbn [fst snd TestDB.key_values_].
  - done.
  - by rewrite lookup_insert_eq.
  - by rewrite lookup_insert_ne.
Qed.

Section Laws.
Context {T : Type} `{!DBApi T, !DBLaws T}.
Import DB.

(** A sequence of writes, each with its expiry time (0: never). *)
Definition write_all (db : T) (l : list (Z * list Z * Z)) : T :=
  foldl (fun db '(k, d, e) => (Write_expire db k d e).1) db l.

(** The last write of a key. *)
Definition last_write (l : list (Z * list Z * Z)) (key : Z) : option (list Z * Z) :=
  foldl (fun r '(k, d, e) => if decide (k = key) then Some (d, e) else r) None l.

Lemma Read_write_all db l key :
  Read_expire (write_all db l) key = match last_write l key with Some r => Some r | None => Read_expire db key end.
Proof.
  induction l as [|x l IH] using rev_ind; [done|]. destruct x as [kd e], kd as [k d].
  unfold write_all, last_write. rewrite !foldl_snoc. fold (write_all db l) (last_write l key).
  destruct (decide (k = key)) as [->|Hne]; [apply Read_written|by rewrite Read_other].
Qed.

(** A store behind DBApi, after any writes: Read of a key gives the data of
    its last write, and says true exactly if this write has no expiry time or
    its expiry time has not passed; a key that was not written is as before. *)
Theorem DBApi_Read_last db l key timestamp :
  Read (write_all db l) key timestamp =
    match last_write l key with
    | Some (d, e) => (d, (e =? 0) || negb (e <? Z.quot timestamp 1000000))
    | None => Read db key timestamp
    end.
Proof.
  unfold Read. rewrite Read_write_all. destruct (last_write l key) as [[d e]|]; [|done].
  destruct (e =? 0); [done|]. by destruct (e <? _).
Qed.
End Laws.

Lemma DBApi_Read_last_witness :
  DB.Read (write_all (TestDB.Build_test_db ∅) [(1, [7], 0); (2, [8], 50); (1, [9], 100)]) 1 60000000 = ([9], true).
Proof. rewrite DBApi_Read_last. reflexivity. Defined.
