(* ===== verification/Timer.v ===== *)
(** * Measurements (src/base/timer.h)

    A thread records durations into the ring of its shard; the counters of a
    name are 32 such rings; the registry of PerfCounter and of Timer maps names
    to counters and keeps the order in which they appeared.  A [Timer] measures
    one interval out of [sample_rate_].

    [D] stands for double: the operations that the code uses and the order.
    Clock values are integers; [nth_element] is given by the sorted sequence. *)

From stdpp Require Import base numbers list gmap strings sorting.
From Stdlib Require Import ZArith Lia.
From S2P Require Import Prelude.

Class Double (D : Type) := {
  d_le : D -> D -> Prop;
  d_le_dec :: RelDecision d_le;
  d_of_int : Z -> D;
  d_add : D -> D -> D;
  d_mul : D -> D -> D;
  d_div : D -> D -> D
}.

Module MathUtil.
Definition round_up_to (num factor : Z) : Z := num + factor - 1 - Z.rem (num + factor - 1) factor.
End MathUtil.

(** ** The ring of a shard *)

Module PerThreadCounter.
Section PerThreadCounter.
Context {D : Type} `{!Double D}.

Definition kCounterLen_ : Z := 1000.

Record counter := Build_counter { durations_ : list D; isOverflow_ : bool; index_ : Z }.

Definition make : counter :=
  {| durations_ := replicate (Z.to_nat kCounterLen_) (d_of_int 0); isOverflow_ := false; index_ := 0 |}.

Definition Record_ (c : counter) (ns : D) : counter :=
  let ds := <[Z.to_nat (index_ c) := ns]> (durations_ c) in
  if index_ c =? kCounterLen_ - 1 then {| durations_ := ds; isOverflow_ := true; index_ := 0 |}
  else {| durations_ := ds; isOverflow_ := isOverflow_ c; index_ := index_ c + 1 |}.

(** The durations that [mean] and [p] read: [for (i = 0; i < last; i++)]. *)
Definition last_ (c : counter) : Z := if isOverflow_ c then kCounterLen_ - 1 else index_ c.

Definition kept (c : counter) : list D := take (Z.to_nat (last_ c)) (durations_ c).
End PerThreadCounter.
Arguments counter : clear implicits.
End PerThreadCounter.

(** ** The counters of a name *)

Module Counters.
Section Counters.
Context {D : Type} `{!Double D}.

Definition kShards : Z := 32.

Definition counters : Type := list (PerThreadCounter.counter D).

Definition make : counters := replicate (Z.to_nat kShards) PerThreadCounter.make.

(** [threadIDHash]: [hash] is the hash of the thread id. *)
Definition threadIDHash (hash : Z) : Z := hash mod kShards.

Definition Record_ (cs : counters) (hash : Z) (ns : D) : counters :=
  alter (fun c => PerThreadCounter.Record_ c ns) (Z.to_nat (threadIDHash hash)) cs.

(** The running mean over the durations of a shard. *)
Fixpoint mean_loop (mean : D) (count : Z) (ds : list D) : D * Z :=
  match ds with
  | [] => (mean, count)
  | d :: ds' => mean_loop (d_div (d_add (d_mul mean (d_of_int count)) d) (d_of_int (count + 1))) (count + 1) ds'
  end.

Definition mean (cs : counters) : D :=
  (foldl (fun '(m, n) c => mean_loop m n (PerThreadCounter.kept c)) (d_of_int 0, 0) cs).1.

(** [assert(0); return -1] when there is no record. *)
Fixpoint now (cs : counters) : outcome D :=
  match cs with
  | [] => Err CheckFailed
  | c :: cs' =>
      let index := PerThreadCounter.index_ c in
      if negb (index =? 0) then deref (PerThreadCounter.durations_ c !! Z.to_nat (index - 1))
      else if PerThreadCounter.isOverflow_ c then
        deref (PerThreadCounter.durations_ c !! Z.to_nat (PerThreadCounter.kCounterLen_ - 1))
      else now cs'
  end.

Definition all_durations (cs : counters) : list D := concat (PerThreadCounter.kept <$> cs).

(** [it] is a [size_t]. *)
Definition rank (size quant : Z) : Z := u64 (u64 (size * quant + 50) / 100 - 1).

Definition p (cs : counters) (quant : Z) : outcome D :=
  _ ← CHECK ((quant <=? 100) && (0 <=? quant));
  let l := all_durations cs in
  deref (merge_sort d_le l !! Z.to_nat (rank (Z.of_nat (length l)) quant)).
End Counters.
End Counters.

(** ** The registry: PerfCounter, and the statics of Timer *)

Module PerfCounter.
Section PerfCounter.
Context {D : Type} `{!Double D}.

Record registry := Build_registry {
  staticMap : gmap string (Counters.counters (D := D));
  staticOrderedKeyList : list string
}.

Definition Init : registry := {| staticMap := ∅; staticOrderedKeyList := [] |}.

(** The part of [Record] under the lock. *)
Definition register (r : registry) (name : string) : registry :=
  match staticMap r !! name with
  | Some _ => r
  | None => {| staticMap := <[name := Counters.make]> (staticMap r);
               staticOrderedKeyList := staticOrderedKeyList r ++ [name] |}
  end.

(** [value->Record(count)], after the lock is released. *)
Definition record_value (r : registry) (name : string) (hash : Z) (count : D) : registry :=
  {| staticMap := alter (fun cs => Counters.Record_ cs hash count) name (staticMap r);
     staticOrderedKeyList := staticOrderedKeyList r |}.

Definition Record_ (r : registry) (name : string) (hash : Z) (count : D) : registry :=
  record_value (register r name) name hash count.

(** The rows of the table that [Report] draws: name, mean, p99, now. *)
Fixpoint rows (m : gmap string (Counters.counters (D := D))) (names : list string) : outcome (list (string * D * D * D)) :=
  match names with
  | [] => Ret []
  | key :: names' =>
      cs ← deref (m !! key);
      p99 ← Counters.p cs 99;
      now ← Counters.now cs;
      rs ← rows m names';
      Ret ((key, Counters.mean cs, p99, now) :: rs)
  end.

Definition Report (r : registry) : outcome (list (string * D * D * D)) :=
  rows (staticMap r) (staticOrderedKeyList r).
End PerfCounter.
Arguments registry : clear implicits.
End PerfCounter.

(** ** Timer *)

Module Timer.
Section Timer.
Context {D : Type} `{!Double D}.

(** [r] is the static registry of the timers. *)
Record timer := Build_timer {
  isEnd_ : bool;
  timerName_ : string;
  start_ : Z;
  end_at : Z;
  cum_count_ : D;
  sampled_count_ : Z;
  sample_rate_ : Z
}.

Definition start (t : timer) (now : Z) : timer :=
  let t' :=
    if Z.rem (sampled_count_ t) (sample_rate_ t) =? 0
    then {| isEnd_ := false; timerName_ := timerName_ t; start_ := now; end_at := end_at t;
            cum_count_ := cum_count_ t; sampled_count_ := sampled_count_ t; sample_rate_ := sample_rate_ t |}
    else t in
  {| isEnd_ := isEnd_ t'; timerName_ := timerName_ t'; start_ := start_ t'; end_at := end_at t';
     cum_count_ := cum_count_ t'; sampled_count_ := i32 (sampled_count_ t' + 1); sample_rate_ := sample_rate_ t' |}.

Definition make (name : string) (sample_rate now : Z) : timer :=
  start {| isEnd_ := false; timerName_ := name; start_ := 0; end_at := 0; cum_count_ := d_of_int 0;
           sampled_count_ := 0; sample_rate_ := sample_rate |} now.

Definition set_end (t : timer) (b : bool) (e : Z) : timer :=
  {| isEnd_ := b; timerName_ := timerName_ t; start_ := start_ t; end_at := e;
     cum_count_ := cum_count_ t; sampled_count_ := sampled_count_ t; sample_rate_ := sample_rate_ t |}.

Definition end_ (t : timer) (r : PerfCounter.registry D) (hash now : Z) : timer * PerfCounter.registry D :=
  if negb (isEnd_ t) then
    (set_end t true now,
     PerfCounter.record_value (PerfCounter.register r (timerName_ t)) (timerName_ t) hash (d_of_int (now - start_ t)))
  else (t, r).

Definition destroy (t : timer) : timer := set_end t true (end_at t).

Definition with_cum (t : timer) (s e : Z) (c : D) (b : bool) : timer :=
  {| isEnd_ := b; timerName_ := timerName_ t; start_ := s; end_at := e;
     cum_count_ := c; sampled_count_ := sampled_count_ t; sample_rate_ := sample_rate_ t |}.

Definition CumStart (t : timer) (now : Z) : timer := with_cum t now (end_at t) (cum_count_ t) (isEnd_ t).

Definition CumEnd (t : timer) (now : Z) : timer :=
  with_cum t (start_ t) now (d_add (cum_count_ t) (d_of_int (now - start_ t))) (isEnd_ t).

Definition CumReport (t : timer) (r : PerfCounter.registry D) (hash : Z) : outcome (timer * PerfCounter.registry D) :=
  if isEnd_ t then Err CheckFailed
  else Ret (with_cum t (start_ t) (end_at t) (d_of_int 0) true,
            PerfCounter.Record_ r (timerName_ t) hash (cum_count_ t)).
End Timer.
Arguments timer : clear implicits.
End Timer.

(** ** What the rings keep *)

Section Ring.
Context {D : Type} `{!Double D}.
Import PerThreadCounter.

Definition record_all (ds : list D) : counter D := foldl Record_ make ds.

(** The ring after the records [ds]: the last 1000 of them at their number
    modulo 1000. *)
Record ring (ds : list D) (c : counter D) : Prop := {
  ring_len : length (durations_ c) = 1000%nat;
  ring_index : index_ c = Z.of_nat (length ds mod 1000);
  ring_over : isOverflow_ c = (1000 <=? length ds)%nat;
  ring_at : forall k, (k < length ds)%nat -> (length ds <= k + 1000)%nat -> durations_ c !! (k mod 1000)%nat = ds !! k
}.

Lemma ring_make : ring [] make.
Proof. split; [apply length_replicate|done|done|]. intros k Hk. cbn in Hk. lia. Qed.

Lemma ring_record ds c d : ring ds c -> ring (ds ++ [d]) (Record_ c d).
Proof.
  intros [Hl Hi Ho Ha]. pose proof (Nat.mod_upper_bound (length ds) 1000 ltac:(lia)) as Hm.
  assert (Hat : forall k, (k < length (ds ++ [d]))%nat -> (length (ds ++ [d]) <= k + 1000)%nat ->
            <[Z.to_nat (index_ c) := d]> (durations_ c) !! (k mod 1000)%nat = (ds ++ [d]) !! k).
  { intros k Hk Hk'. rewrite length_app in Hk, Hk'. cbn in Hk, Hk'. rewrite Hi, Nat2Z.id.
    destruct (decide (k = length ds)) as [->|Hne].
    - rewrite list_lookup_insert_eq by lia. by rewrite lookup_app_r, Nat.sub_diag by lia.
    - rewrite list_lookup_insert_ne, lookup_app_l by (lia || (intros Heq; pose proof (Nat.div_mod_eq k 1000);
        pose proof (Nat.div_mod_eq (length ds) 1000); nia)). apply Ha; lia. }
  unfold Record_, kCounterLen_. rewrite length_app in *. cbn [length] in *.
  assert (Hmod : ((length ds + 1) mod 1000 = if Nat.eqb (length ds mod 1000) 999 then 0 else length ds mod 1000 + 1)%nat).
  { pose proof (Nat.div_mod_eq (length ds) 1000). destruct (Nat.eqb_spec (length ds mod 1000) 999).
    - symmetry. apply (Nat.mod_unique _ _ (length ds / 1000 + 1)); lia.
    - symmetry. apply (Nat.mod_unique _ _ (length ds / 1000)); lia. }
  rewrite Hi. destruct (Nat.eqb_spec (length ds mod 1000) 999) as [E|E].
  - rewrite (proj2 (Z.eqb_eq _ _)) by lia. split; cbn [durations_ isOverflow_ index_]; rewrite ?length_app; cbn [length]; [by rewrite length_insert|by rewrite Hmod| |by rewrite <- Hi].
    symmetry. apply Nat.leb_le. pose proof (Nat.div_mod_eq (length ds) 1000). lia.
  - rewrite (proj2 (Z.eqb_neq _ _)) by lia. split; cbn [durations_ isOverflow_ index_]; rewrite ?length_app; cbn [length]; [by rewrite length_insert|rewrite Hmod; lia| |by rewrite <- Hi].
    rewrite Ho. apply Bool.eq_iff_eq_true. rewrite !Nat.leb_le. pose proof (Nat.div_mod_eq (length ds) 1000).
    split; [lia|]. intros Hge. destruct (decide (length ds = 999)%nat) as [E'|]; [by rewrite E' in E|lia].
Qed.

Lemma record_all_ring ds : ring ds (record_all ds).
Proof.
  induction ds as [|d ds IH] using rev_ind; [apply ring_make|]. unfold record_all. rewrite foldl_snoc. by apply ring_record.
Qed.

(** What mean and p read of a ring: as long as it has not wrapped, all
    records; afterwards all of the last 1000 records but one, the one in slot
    999, which right after a wrap is the newest. *)
Theorem counter_kept ds :
  let n := length ds in
  kept (record_all ds) =
    if (n <? 1000)%nat then ds
    else drop (n - n mod 1000) ds ++ take (999 - n mod 1000) (drop (n - 1000) ds).
Proof.
  intros n. pose proof (record_all_ring ds) as [Hl Hi Ho Ha]. fold n in Hi, Ho, Ha. unfold kept, last_, kCounterLen_.
  rewrite Ho, Hi. pose proof (Nat.div_mod_eq n 1000) as Hdm. pose proof (Nat.mod_upper_bound n 1000 ltac:(lia)) as Hm.
  destruct (Nat.ltb_spec n 1000) as [Hn|Hn].
  - rewrite (proj2 (Nat.leb_gt _ _)) by lia. rewrite Nat.mod_small, Nat2Z.id by lia. apply list_eq. intros i.
    destruct (decide (i < n)%nat) as [Hin|Hin].
    + rewrite lookup_take_lt by lia. rewrite <- (Ha i) by lia. by rewrite Nat.mod_small by lia.
    + rewrite lookup_take_ge by lia. symmetry. apply lookup_ge_None_2. unfold n in *. lia.
  - rewrite (proj2 (Nat.leb_le _ _)) by lia. set (r := (n mod 1000)%nat) in *.
    change (Z.to_nat (1000 - 1)) with 999%nat. apply list_eq. intros i.
    destruct (decide (i < 999)%nat) as [Hin|Hin].
    + rewrite lookup_take_lt by lia. destruct (decide (i < r)%nat) as [Hr|Hr].
      * rewrite lookup_app_l by (rewrite length_drop; fold n; lia). rewrite lookup_drop, <- Ha by lia.
        f_equal. apply (Nat.mod_unique _ _ (n / 1000)); lia.
      * rewrite lookup_app_r; rewrite length_drop; fold n; [|lia]. replace (i - (n - (n - r)))%nat with (i - r)%nat by lia.
        rewrite lookup_take_lt, lookup_drop, <- Ha by lia. f_equal. apply (Nat.mod_unique _ _ (n / 1000 - 1)); nia.
    + rewrite lookup_take_ge by lia. symmetry. apply lookup_ge_None_2.
      rewrite length_app, length_take, !length_drop. fold n. lia.
Qed.

Lemma record_all_last ds d c : c = record_all (ds ++ [d]) -> Counters.now [c] = Ret d.
Proof.
  intros ->. pose proof (record_all_ring (ds ++ [d])) as [Hl Hi Ho Ha]. cbn [Counters.now]. rewrite Hi, Ho.
  specialize (Ha (length ds)). rewrite length_app in *. cbn [length] in *.
  pose proof (Nat.div_mod_eq (length ds) 1000). pose proof (Nat.mod_upper_bound (length ds) 1000 ltac:(lia)).
  pose proof (Nat.div_mod_eq (length ds + 1) 1000). pose proof (Nat.mod_upper_bound (length ds + 1) 1000 ltac:(lia)).
  rewrite lookup_app_r, Nat.sub_diag in Ha by lia. specialize (Ha ltac:(lia) ltac:(lia)). change ([d] !! 0%nat) with (Some d) in Ha.
  destruct (Z.eqb_spec (Z.of_nat ((length ds + 1) mod 1000)) 0) as [E|E]; cbn [negb].
  - rewrite (proj2 (Nat.leb_le _ _)) by lia. unfold kCounterLen_. change (Z.to_nat (1000 - 1)) with 999%nat.
    replace (length ds mod 1000)%nat with 999%nat in Ha by lia. by rewrite Ha.
  - replace (Z.to_nat (Z.of_nat ((length ds + 1) mod 1000) - 1)) with (length ds mod 1000)%nat by lia. by rewrite Ha.
Qed.
End Ring.

(** ** Percentiles *)

Section Percentile.
Context {D : Type} `{!Double D} {Htr : Transitive (d_le (D := D))} {Hto : Total (d_le (D := D))}.

(** In a sorted list the elements up to a position are below, those after it
    above. *)
Lemma sorted_around (l : list D) i x :
  StronglySorted d_le l -> l !! i = Some x ->
  Forall (fun y => d_le y x) (take (S i) l) /\ Forall (fun y => d_le x y) (drop i l).
Proof.
  assert (Hrefl : forall y : D, d_le y y) by (intros y; by destruct (total d_le y y)).
  intros Hs. revert i. induction Hs as [|a l Hs IH Ha]; intros i Hx; [done|]. destruct i as [|i]; cbn in Hx.
  - simplify_eq. cbn. by repeat constructor.
  - destruct (IH i Hx) as [H1 H2]. split; [|exact H2]. rewrite firstn_cons. constructor; [|exact H1].
    rewrite Forall_forall in Ha. apply Ha. by eapply list_elem_of_lookup_2.
Qed.

Lemma filter_split_length (P : D -> Prop) `{!forall x, Decision (P x)} l i :
  length (filter P l) = (length (filter P (take i l)) + length (filter P (drop i l)))%nat.
Proof. by rewrite <- length_app, <- filter_app, take_drop. Qed.

Lemma filter_all (P : D -> Prop) `{!forall x, Decision (P x)} l : Forall P l -> filter P l = l.
Proof. induction 1 as [|x l Hx _ IH]; [done|]. by rewrite filter_cons_True, IH. Qed.

Lemma filter_none (P : D -> Prop) `{!forall x, Decision (P x)} l : Forall (fun x => ~ P x) l -> filter P l = [].
Proof. induction 1 as [|x l Hx _ IH]; [done|]. by rewrite filter_cons_False. Qed.

(** The nearest rank. *)
Definition nearest (n quant : Z) : Z := (n * quant + 50) / 100.

(** p(quant): when the rank that it computes is at least 1, it returns one
    of the durations it reads, with fewer than this rank of them below it and
    at least this rank of them not above it; when the rank is 0, in particular
    for counters without a record, the access is out of range. *)
Theorem p_nearest_rank (cs : Counters.counters (D := D)) quant :
  0 <= quant <= 100 -> Z.of_nat (length (Counters.all_durations cs)) < 2 ^ 50 ->
  let l := Counters.all_durations cs in
  let k := nearest (Z.of_nat (length l)) quant in
  if k =? 0 then Counters.p cs quant = Err Undefined
  else exists r, Counters.p cs quant = Ret r /\ r ∈ l /\
    Z.of_nat (length (filter (fun x => ~ d_le r x) l)) < k <= Z.of_nat (length (filter (fun x => d_le x r) l)).
Proof.
  intros Hq Hn l k. unfold Counters.p. fold l. rewrite (proj2 (Z.leb_le _ _)), (proj2 (Z.leb_le 0 _)) by lia.
  cbn [andb CHECK mbind outcome_bind]. fold l in Hn. set (n := Z.of_nat (length l)) in *.
  assert (Hk : k = (n * quant + 50) / 100) by done.
  assert (Hkb : 0 <= k <= n) by (split; [apply Z.div_pos; nia|]; apply Z.lt_succ_r; rewrite Hk; apply Z.div_lt_upper_bound; nia).
  assert (Hrank : Counters.rank n quant = u64 (k - 1)).
  { unfold Counters.rank. by rewrite (u64_small (n * quant + 50)) by nia. }
  pose proof (merge_sort_Permutation d_le l) as HP. pose proof (StronglySorted_merge_sort d_le l) as HS.
  rewrite Hrank. destruct (Z.eqb_spec k 0) as [E|E].
  - rewrite E. replace (u64 (0 - 1)) with (2 ^ 64 - 1) by done.
    rewrite lookup_ge_None_2; [done|]. rewrite (Permutation_length HP). unfold n in Hn. lia.
  - rewrite u64_small by lia. destruct (lookup_lt_is_Some_2 (merge_sort d_le l) (Z.to_nat (k - 1))) as [r Hr].
    { rewrite (Permutation_length HP). unfold n in *. lia. }
    exists r. rewrite Hr. split; [done|]. split; [rewrite <- HP; by eapply list_elem_of_lookup_2|].
    destruct (sorted_around _ _ _ HS Hr) as [H1 H2]. assert (Hl : length (merge_sort d_le l) = length l) by (by apply Permutation_length).
    rewrite <- (Permutation_length (filter_Permutation (fun x => ~ d_le r x) _ _ HP)).
    rewrite <- (Permutation_length (filter_Permutation (fun x => d_le x r) _ _ HP)). split.
    + rewrite (filter_split_length _ _ (Z.to_nat (k - 1))). rewrite (filter_none (fun x => ~ d_le r x) (drop _ _)).
      * cbn [length]. rewrite Nat.add_0_r. pose proof (length_filter (fun x => ~ d_le r x) (take (Z.to_nat (k - 1)) (merge_sort d_le l))) as Hf.
        rewrite length_take in Hf. lia.
      * eapply Forall_impl; [exact H2|]. intros x Hx. cbn. tauto.
    + rewrite (filter_split_length _ _ (S (Z.to_nat (k - 1)))). rewrite (filter_all (fun x => d_le x r) (take _ _)) by exact H1.
      rewrite length_take, Hl. unfold n in *. lia.
Qed.
End Percentile.

(** ** The registry *)

Section Registry.
Context {D : Type} `{!Double D}.
Import PerfCounter.

(** Some shard has a record. *)
Definition some_record (dss : list (list D)) : Prop := exists ds, ds ∈ dss /\ ds <> [].

(** Counters after the records [dss] of the shards. *)
Definition tracks (dss : list (list D)) (cs : Counters.counters (D := D)) : Prop :=
  length dss = 32%nat /\ Forall2 ring dss cs.

Lemma tracks_make : tracks (replicate 32 ([] : list D)) Counters.make.
Proof. split; [done|]. apply Forall2_replicate, ring_make. Qed.

Lemma tracks_record dss cs hash d :
  tracks dss cs -> exists dss', tracks dss' (Counters.Record_ cs hash d) /\ some_record dss'.
Proof.
  intros [Hl HF]. set (h := Z.to_nat (Counters.threadIDHash hash)).
  assert (Hh : (h < 32)%nat).
  { unfold h, Counters.threadIDHash, Counters.kShards. pose proof (Z.mod_pos_bound hash 32 ltac:(lia)). lia. }
  exists (alter (fun ds => ds ++ [d]) h dss). split.
  - split; [by rewrite length_alter|]. unfold Counters.Record_. fold h.
    apply Forall2_alter; [done|]. intros ds c _ _ Hr. by apply ring_record.
  - destruct (lookup_lt_is_Some_2 dss h) as [ds Hds]; [lia|]. exists (ds ++ [d]). split; [|by destruct ds].
    eapply (list_elem_of_lookup_2 _ h). by rewrite list_lookup_alter_eq, Hds.
Qed.

Lemma kept_length ds (c : PerThreadCounter.counter D) : ring ds c ->
  (length (PerThreadCounter.kept c) <= 1000)%nat /\ (ds <> [] -> PerThreadCounter.kept c <> []).
Proof.
  intros [Hl Hi Ho _]. unfold PerThreadCounter.kept, PerThreadCounter.last_, PerThreadCounter.kCounterLen_.
  rewrite length_take. split; [lia|]. intros Hne E. apply (f_equal length) in E. rewrite length_take, Hl, Ho, Hi in E.
  destruct (Nat.leb_spec 1000 (length ds)) as [H|H].
  - change (Z.to_nat (1000 - 1)) with 999%nat in E. cbn in E. lia.
  - rewrite Nat.mod_small in E by lia. destruct ds; [done|]. cbn [length] in *. lia.
Qed.

Lemma all_durations_length dss cs :
  Forall2 ring dss cs -> (length (Counters.all_durations cs) <= 1000 * length dss)%nat /\
    (some_record dss -> (0 < length (Counters.all_durations cs))%nat).
Proof.
  unfold Counters.all_durations. induction 1 as [|ds c dss cs Hr _ [IH1 IH2]]; cbn [fmap list_fmap concat length].
  - split; [lia|]. intros (ds & Hin & _). by apply elem_of_nil in Hin.
  - destruct (kept_length ds c Hr) as [H1 H2]. rewrite length_app. split; [lia|]. intros (x & Hin & Hx).
    apply elem_of_cons in Hin as [->|Hin].
    + specialize (H2 Hx). destruct (PerThreadCounter.kept c); [done|cbn; lia].
    + pose proof (IH2 (ex_intro _ x (conj Hin Hx))). lia.
Qed.

Lemma p99_ret dss cs : tracks dss cs -> some_record dss -> exists r, Counters.p cs 99 = Ret r.
Proof.
  intros [Hl HF] Hne. destruct (all_durations_length dss cs HF) as [H1 H2]. specialize (H2 Hne). rewrite Hl in H1.
  unfold Counters.p. cbn [Z.leb Z.compare andb CHECK mbind outcome_bind]. set (l := Counters.all_durations cs) in *.
  pose proof (Permutation_length (merge_sort_Permutation d_le l)) as HP.
  assert (Hr : 0 <= Counters.rank (Z.of_nat (length l)) 99 < Z.of_nat (length l)).
  { unfold Counters.rank. rewrite (u64_small (_ * 99 + 50)) by lia.
    rewrite u64_small; Z.to_euclidean_division_equations; lia. }
  destruct (lookup_lt_is_Some_2 (merge_sort d_le l) (Z.to_nat (Counters.rank (Z.of_nat (length l)) 99))) as [r E]; [lia|].
  exists r. change (Pos.compare 99 100) with Lt. change ((99 <=? 100) && (0 <=? 99)) with true. cbn [CHECK mbind outcome_bind].
  by rewrite E.
Qed.

Lemma now_ret dss cs : Forall2 ring dss cs -> some_record dss -> exists r, Counters.now cs = Ret r.
Proof.
  induction 1 as [|ds c dss cs [Hl Hi Ho _] _ IH]; intros (x & Hin & Hx); [by apply elem_of_nil in Hin|].
  cbn [Counters.now]. pose proof (Nat.mod_upper_bound (length ds) 1000 ltac:(lia)). destruct (Z.eqb_spec (PerThreadCounter.index_ c) 0) as [E|E]; cbn [negb].
  - destruct (PerThreadCounter.isOverflow_ c) eqn:Eo.
    + destruct (lookup_lt_is_Some_2 (PerThreadCounter.durations_ c) (Z.to_nat (PerThreadCounter.kCounterLen_ - 1))) as [r ->];
        [rewrite Hl; by vm_compute|by exists r].
    + apply IH. apply elem_of_cons in Hin as [->|Hin]; [|by exists x]. exfalso. apply Hx.
      symmetry in Ho. rewrite Hi in E. apply Nat.leb_gt in Ho. rewrite Nat.mod_small in E by lia. destruct ds; [done|cbn in E; lia].
  - destruct (lookup_lt_is_Some_2 (PerThreadCounter.durations_ c) (Z.to_nat (PerThreadCounter.index_ c - 1))) as [r ->];
      [rewrite Hl, Hi; lia|by exists r].
Qed.

(** The names of the list are the names of the map, each once. *)
Record names_ok (r : registry D) : Prop := {
  no_dup : NoDup (staticOrderedKeyList r);
  no_dom : forall name, name ∈ staticOrderedKeyList r <-> is_Some (staticMap r !! name)
}.

(** Every counter has a record. *)
Definition all_recorded (r : registry D) : Prop :=
  map_Forall (fun _ cs => exists dss, tracks dss cs /\ some_record dss) (staticMap r).

(** Every counter is a ring, possibly without a record. *)
Definition all_tracked (r : registry D) : Prop := map_Forall (fun _ cs => exists dss, tracks dss cs) (staticMap r).

Lemma register_ok r name : names_ok r -> names_ok (register r name).
Proof.
  intros [H1 H2]. unfold register. destruct (staticMap r !! name) as [cs|] eqn:E; [by split|]. split; cbn.
  - apply NoDup_app. split; [done|]. split; [|apply NoDup_singleton]. intros x Hx Hin. apply list_elem_of_singleton in Hin as ->.
    apply H2 in Hx. rewrite E in Hx. by apply is_Some_None in Hx.
  - intros x. rewrite elem_of_app, list_elem_of_singleton, H2. destruct (decide (x = name)) as [->|Hne].
    + rewrite lookup_insert_eq. split; [by eexists|by right].
    + rewrite lookup_insert_ne by done. split; [by intros [?|?]|by left].
Qed.

Lemma record_value_ok r name hash d : names_ok r -> names_ok (record_value r name hash d).
Proof.
  intros [H1 H2]. split; [done|]. intros x. unfold record_value. cbn. rewrite H2. destruct (decide (x = name)) as [->|Hne].
  - rewrite lookup_alter_eq. by rewrite fmap_is_Some.
  - by rewrite lookup_alter_ne.
Qed.

Lemma register_recorded_others r name :
  all_recorded r -> map_Forall (fun k cs => k <> name -> exists dss, tracks dss cs /\ some_record dss)
    (staticMap (register r name)) /\ exists cs dss, staticMap (register r name) !! name = Some cs /\ tracks dss cs.
Proof.
  intros H. unfold register. destruct (staticMap r !! name) as [cs|] eqn:E.
  - split; [intros k c Hk _; by apply (H k c)|]. destruct (H name cs E) as (dss & Ht & _). by exists cs, dss.
  - cbn. split.
    + intros k c Hk Hne. rewrite lookup_insert_ne in Hk by done. by apply (H k c).
    + eexists _, _. split; [by rewrite lookup_insert_eq|apply tracks_make].
Qed.

Lemma Record_recorded r name hash d : all_recorded r -> all_recorded (Record_ r name hash d).
Proof.
  intros H. destruct (register_recorded_others r name H) as [Ho (cs & dss & Hcs & Ht)]. intros k c Hk.
  unfold Record_, record_value in Hk. cbn in Hk. destruct (decide (k = name)) as [->|Hne].
  - rewrite lookup_alter_eq, Hcs in Hk. cbn in Hk. simplify_eq.
    destruct (tracks_record dss cs hash d Ht) as (dss' & H1 & H2). by exists dss'.
  - rewrite lookup_alter_ne in Hk by done. by apply (Ho k c).
Qed.

Lemma rows_ret m (names : list string) :
  (forall name, name ∈ names -> exists cs dss, m !! name = Some cs /\ tracks dss cs /\ some_record dss) ->
  exists rs, rows m names = Ret rs /\ ((fun x => x.1.1.1) <$> rs) = names.
Proof.
  induction names as [|k names IH]; intros H; cbn [rows]; [by exists []|].
  destruct (H k) as (cs & dss & -> & Ht & Hne); [set_solver|]. destruct (p99_ret dss cs Ht Hne) as [p99 Hp].
  destruct Ht as [_ HF]. destruct (now_ret dss cs HF Hne) as [nw Hw]. destruct IH as (rs & Hrs & Hn); [intros; apply H; set_solver|].
  cbn [deref mbind outcome_bind]. rewrite Hp. cbn [mbind outcome_bind]. rewrite Hw. cbn [mbind outcome_bind]. rewrite Hrs.
  eexists. split; [done|]. cbn. by rewrite Hn.
Qed.

Definition record_list (l : list (string * Z * D)) : registry D :=
  foldl (fun r '(name, hash, d) => Record_ r name hash d) Init l.

Lemma record_list_ok l : names_ok (record_list l) /\ all_recorded (record_list l).
Proof.
  induction l as [|x l IH] using rev_ind.
  - split; [split; [by constructor|]|apply map_Forall_empty]. intros name. cbn. split; [by intros H%elem_of_nil|by intros []].
  - destruct IH as [IH1 IH2], x as [p d], p as [name hash]. unfold record_list. rewrite foldl_snoc. fold (record_list l).
    split; [by apply record_value_ok, register_ok|by apply Record_recorded].
Qed.

Lemma register_names r name k : names_ok r -> k ∈ staticOrderedKeyList (register r name) <-> k ∈ staticOrderedKeyList r \/ k = name.
Proof.
  intros [_ H2]. unfold register. destruct (staticMap r !! name) as [cs|] eqn:E; cbn.
  - split; [by left|]. intros [?| ->]; [done|]. apply H2. by rewrite E.
  - by rewrite elem_of_app, list_elem_of_singleton.
Qed.

Lemma record_list_names l k : k ∈ staticOrderedKeyList (record_list l) <-> k ∈ l.*1.*1.
Proof.
  induction l as [|x l IH] using rev_ind; [done|]. destruct x as [p d], p as [name hash].
  unfold record_list. rewrite foldl_snoc. fold (record_list l). cbn [Record_ record_value staticOrderedKeyList].
  rewrite register_names by apply record_list_ok. rewrite IH, !fmap_app, elem_of_app. cbn. by rewrite list_elem_of_singleton.
Qed.

(** A counter without a record, at the end of the list. *)
Lemma rows_empty_counter m (names : list string) name :
  (forall k, k ∈ names -> exists cs dss, m !! k = Some cs /\ tracks dss cs /\ some_record dss) ->
  m !! name = Some Counters.make -> rows m (names ++ [name]) = Err Undefined.
Proof.
  intros H Hm. induction names as [|k names IH]; cbn [app rows].
  - rewrite Hm. cbn [deref mbind outcome_bind]. by unfold Counters.p.
  - destruct (H k) as (cs & dss & -> & Ht & Hne); [set_solver|]. destruct (p99_ret dss cs Ht Hne) as [p99 Hp].
    destruct Ht as [_ HF]. destruct (now_ret dss cs HF Hne) as [nw Hw].
    cbn [deref mbind outcome_bind]. rewrite Hp. cbn [mbind outcome_bind]. rewrite Hw. cbn [mbind outcome_bind].
    rewrite IH; [done|]. intros; apply H; set_solver.
Qed.

(** The registry of the counters: after any calls of Record its list has
    every name of the map exactly once, and Report gives a row for each name in
    this order.  If a thread has only registered a new name (it has left the
    lock, but its value is not recorded yet), Report reads out of range: the
    percentile of a counter without a record. *)
Theorem PerfCounter_Report l name :
  let r := record_list l in
  (exists rs, Report r = Ret rs /\ ((fun x => x.1.1.1) <$> rs) = staticOrderedKeyList r /\
     NoDup (staticOrderedKeyList r) /\ forall k, k ∈ staticOrderedKeyList r <-> k ∈ l.*1.*1) /\
  (name ∉ l.*1.*1 -> Report (register r name) = Err Undefined).
Proof.
  intros r. destruct (record_list_ok l) as [[H1 H2] H3]. fold r in H1, H2, H3.
  assert (Hin : forall k, k ∈ staticOrderedKeyList r <-> k ∈ l.*1.*1) by apply record_list_names.
  assert (Hrow : forall k, k ∈ staticOrderedKeyList r -> exists cs dss, staticMap r !! k = Some cs /\ tracks dss cs /\
             some_record dss).
  { intros k Hk. apply H2 in Hk as [cs Hcs]. destruct (H3 k cs Hcs) as (dss & ? & ?). by exists cs, dss. }
  split.
  - destruct (rows_ret (staticMap r) (staticOrderedKeyList r) Hrow) as (rs & HR & Hn). by exists rs.
  - intros Hno. rewrite <- Hin, H2 in Hno. destruct (staticMap r !! name) as [cs|] eqn:E; [by destruct Hno; eexists|].
    unfold Report, register. rewrite E. cbn [staticMap staticOrderedKeyList].
    apply rows_empty_counter; [|by rewrite lookup_insert_eq]. intros k Hk. destruct (Hrow k Hk) as (cs & dss & Hcs & Hd).
    exists cs, dss. rewrite lookup_insert_ne; [done|]. intros ->. congruence.
Qed.
End Registry.

(** ** Sampling *)

Section Sampling.
Context {D : Type} `{!Double D}.
Import PerfCounter Timer.

(** Intervals measured with one timer, one after the other. *)
Fixpoint rounds (t : timer D) (r : registry D) (hash : Z) (l : list (Z * Z)) : timer D * registry D :=
  match l with
  | [] => (t, r)
  | (a, b) :: l' => let '(t, r) := end_ (start t a) r hash b in rounds t r hash l'
  end.

(** The intervals whose number, from [i] on, is a multiple of the rate. *)
Fixpoint sampled (rate i : Z) (l : list (Z * Z)) : list (Z * Z) :=
  match l with
  | [] => []
  | x :: l' => if i mod rate =? 0 then x :: sampled rate (i + 1) l' else sampled rate (i + 1) l'
  end.

Definition as_record (name : string) (hash : Z) (x : Z * Z) : string * Z * D := (name, hash, d_of_int (x.2 - x.1)).

Lemma rounds_sampled (t : timer D) (rs : list (string * Z * D)) hash l :
  isEnd_ t = true -> 0 < sample_rate_ t -> 0 <= sampled_count_ t -> sampled_count_ t + Z.of_nat (length l) < 2 ^ 31 ->
  (rounds t (record_list rs) hash l).2 =
    record_list (rs ++ (as_record (timerName_ t) hash <$> sampled (sample_rate_ t) (sampled_count_ t) l)).
Proof.
  intros He Hr. revert t rs He Hr. induction l as [|[a b] l IH]; intros t rs He Hr Hs Hl; cbn [rounds sampled].
  { by rewrite app_nil_r. }
  cbn [length] in Hl. unfold start. rewrite Z.rem_mod_nonneg by lia.
  destruct (sampled_count_ t mod sample_rate_ t =? 0); unfold end_; cbn [isEnd_ sampled_count_ timerName_ start_ sample_rate_];
    [|rewrite He]; cbn [negb set_end timerName_ start_].
  - match goal with |- context [record_value ?x ?y ?z ?u] => replace (record_value x y z u)
      with (record_list (rs ++ [(timerName_ t, hash, d_of_int (b - a))])) by (unfold record_list; by rewrite foldl_snoc) end.
    rewrite IH; cbn [set_end isEnd_ sampled_count_ timerName_ sample_rate_]; rewrite ?i32_small by lia; [|done|done|lia|lia].
    cbn [fmap list_fmap]. by rewrite <- app_assoc.
  - rewrite IH; cbn [isEnd_ sampled_count_ timerName_ sample_rate_]; rewrite ?i32_small by lia; [done|done|done|lia|lia].
Qed.

(** A timer with a sample rate that measures intervals one after the other
    records the first one, from the construction of the timer on if the rate is
    not 1, and then every interval whose number is a multiple of the rate. *)
Theorem Timer_samples name rate t0 hash a b l :
  0 < rate -> Z.of_nat (length l) < 2 ^ 31 - 2 ->
  (rounds (make name rate t0) (Init (D := D)) hash ((a, b) :: l)).2 =
    record_list (as_record name hash <$> (if rate =? 1 then a else t0, b) :: sampled rate 2 l).
Proof.
  intros Hr Hl. cbn [rounds]. unfold make, start at 2. cbn [sampled_count_ sample_rate_]. rewrite Z.rem_0_l by lia.
  cbn [Z.eqb isEnd_ timerName_ start_ end_at cum_count_ sampled_count_ sample_rate_]. rewrite (i32_small (0 + 1)) by lia.
  unfold start. cbn [sampled_count_ sample_rate_]. rewrite Z.rem_mod_nonneg by lia.
  assert (E : ((0 + 1) mod rate =? 0) = (rate =? 1)).
  { destruct (Z.eqb_spec rate 1) as [->|Hne]; [done|]. rewrite Z.mod_small by lia. done. }
  rewrite E. destruct (rate =? 1); unfold end_; cbn [isEnd_ timerName_ start_ negb set_end];
    match goal with |- context [record_value ?x ?y ?z ?u] => change (record_value x y z u) with (record_list [(y, z, u)]) end;
    rewrite rounds_sampled; cbn [set_end isEnd_ sampled_count_ timerName_ sample_rate_]; rewrite ?(i32_small (0 + 1 + 1)) by lia;
    (done || lia).
Qed.
End Sampling.

(** ** Concrete counters *)

Section Concrete.

(** Durations are whole nanoseconds here. *)
#[local] Instance ns_double : Double Z := {|
  d_le := Z.le; d_of_int z := z; d_add := Z.add; d_mul := Z.mul; d_div := Z.div
|}.

Definition three_records : Counters.counters (D := Z) :=
  Counters.Record_ (Counters.Record_ (Counters.Record_ Counters.make 5 30) 37 10) 5 20.

Lemma p_nearest_rank_witness :
  exists r, Counters.p three_records 50 = Ret r /\ r ∈ [30; 10; 20] /\
    (Z.of_nat (length (filter (fun x => ~ r <= x) [30; 10; 20])) < 2 <= Z.of_nat (length (filter (fun x => x <= r) [30; 10; 20]))).
Proof.
  assert (Ht : Transitive (d_le (D := Z))) by (intros x y z; apply Z.le_trans).
  assert (Hto : Total (d_le (D := Z))) by (intros x y; cbn; lia).
  assert (E : Counters.all_durations three_records = [30; 10; 20]) by by_eval.
  pose proof (p_nearest_rank three_records 50 ltac:(lia)) as H. rewrite E in H.
  destruct (H ltac:(cbn; lia)) as (r & H1 & H2 & H3). exists r. split; [exact H1|]. split; [exact H2|exact H3].
Defined.

Lemma PerfCounter_Report_witness :
  PerfCounter.Report (PerfCounter.register (record_list [("get", 1, 7); ("put", 2, 8)]%string) "new"%string) =
    Err Undefined.
Proof.
  apply (PerfCounter_Report [("get", 1, 7); ("put", 2, 8)]%string "new"%string). cbn. set_solver.
Defined.

Lemma Timer_samples_witness :
  (rounds (Timer.make "batch get"%string 2 100) (PerfCounter.Init (D := Z)) 0 [(110, 120); (130, 145); (150, 151)]).2 =
    record_list [("batch get", 0, 20); ("batch get", 0, 15)]%string.
Proof.
  etrans; [apply (Timer_samples "batch get"%string 2 100 0 110 120 [(130, 145); (150, 151)]); cbn; lia|].
  apply (f_equal record_list). reflexivity.
Defined.
End Concrete.
