(* ===== verification/BenchClient.v ===== *)
(** * The benchmark client (src/benchmark/benchmark_client_common.h)

    A client thread keeps [async_req_num_] requests under way.  In every turn of
    its loop it goes over its slots: a free slot sends a request, a busy one
    polls its request and is free again when the request is finished.  The main
    thread stops the threads, two at a time when FLAGS_thread_cut_off is set.
    Between two slots the process goes on: answers arrive in its memory, and
    other threads advance the static round robin. *)

From stdpp Require Import base numbers list gmap.
From Stdlib Require Import ZArith Lia.
From S2P Require Import Prelude PetHashDict ShmCommon MallocApi PetKV PetKVSpec Array Engines Ps.

Module BenchmarkClient.
Section BenchmarkClient.
Context (FLAGS_value_size : Z).

(** [theta_is_default]: [fabs(zipf_theta_ + 1) < 1e-6]. *)
Record Args := Build_Args {
  thread_count_ : Z;
  async_req_num_ : Z;
  batch_read_count_ : Z;
  key_space_M_ : Z;
  theta_is_default : bool;
  value_size_ : Z;
  read_ratio_ : Z
}.

Definition CheckArgs (a : Args) : outcome unit :=
  _ ← CHECK (negb (thread_count_ a =? 0));
  _ ← CHECK (negb (async_req_num_ a =? 0));
  _ ← CHECK (negb (batch_read_count_ a =? 0));
  _ ← CHECK (negb (key_space_M_ a =? 0));
  _ ← CHECK (negb (theta_is_default a));
  _ ← CHECK (negb (value_size_ a =? 0));
  _ ← CHECK (0 <=? read_ratio_ a);
  CHECK (read_ratio_ a <=? 100).

(** What a client thread keeps. *)
Record thread := Build_thread {
  running_rpc_ids : list Z;
  isPullRequest : list bool;
  recv_buffers : list Z;
  tp : Z;
  client_ : Client.client
}.

Fixpoint receive_buffers (n : nat) (a : Args) (p : Client.process) : Client.process * list Z :=
  match n with
  | O => (p, [])
  | S n' =>
      let '(p, b) := Client.GetReceiveBuffer p (u64 (i32 (batch_read_count_ a * value_size_ a))) in
      let '(p, bs) := receive_buffers n' a p in
      (p, b :: bs)
  end.

(** The thread until it waits for [start_flag_]; [reply] is the answer that
    InitThread receives. *)
Definition start_thread (a : Args) (p : Client.process) (c : Client.client) (reply : RpcType * list Z) :
    outcome (Client.process * thread) :=
  let n := Z.to_nat (async_req_num_ a) in
  let '(p, bs) := receive_buffers n a p in
  c ← Client.InitThread c reply;
  Ret (p, {| running_rpc_ids := replicate n (-1); isPullRequest := replicate n true; recv_buffers := bs;
             tp := 0; client_ := c |}).

Definition set_slot (t : thread) (i : nat) (id : Z) (pull : bool) (n : Z) (c : Client.client) : thread :=
  {| running_rpc_ids := <[i := id]> (running_rpc_ids t); isPullRequest := <[i := pull]> (isPullRequest t);
     recv_buffers := recv_buffers t; tp := n; client_ := c |}.

(** The body of the loop over the slots: [keys] is what the sample reader
    gives, [rand] the random number below 100. *)
Definition slot (a : Args) (p : Client.process) (t : thread) (i : nat) (keys : list Z) (rand : Z) :
    outcome (Client.process * thread) :=
  id ← deref (running_rpc_ids t !! i);
  pull ← deref (isPullRequest t !! i);
  if id =? -1 then
    values ← deref (recv_buffers t !! i);
    if rand <? read_ratio_ a then
      '(p, c, _, _, id) ← Client.GetParameter FLAGS_value_size p (client_ t) keys values true [];
      Ret (p, set_slot t i id true (tp t) c)
    else
      '(p, c, _, _, id) ← Client.FakePutParameter p (client_ t) keys values;
      Ret (p, set_slot t i id false (tp t) c)
  else
    finished ← Client.QueryRPCFinished p (client_ t) id;
    if finished : bool then
      Ret (p, set_slot t i (-1) pull (u64 (tp t + 1)) (Client.RevokeRPCResource (client_ t) id))
    else Ret (p, t).

(** What happens around a slot: the memory and the round robin that it finds,
    the keys of the sample reader and the random number. *)
Record input := Build_input { in_memory : gmap Z Z; in_round_robin : Z; in_keys : list Z; in_rand : Z }.

Definition found (p : Client.process) (x : input) : Client.process :=
  Client.with_round_robin (Client.with_memory p (in_memory x)) (in_round_robin x).

Fixpoint for_slots (a : Args) (p : Client.process) (t : thread) (i : nat) (l : list input) : outcome (Client.process * thread) :=
  match l with
  | [] => Ret (p, t)
  | x :: l' =>
      '(p, t) ← slot a (found p x) t i (in_keys x) (in_rand x);
      for_slots a p t (S i) l'
  end.

(** The turns until the stop flag of the thread is seen. *)
Fixpoint clientThreadLoop (a : Args) (p : Client.process) (t : thread) (turns : list (list input)) :
    outcome (Client.process * thread) :=
  match turns with
  | [] => Ret (p, t)
  | l :: turns' =>
      '(p, t) ← for_slots a p t 0 l;
      clientThreadLoop a p t turns'
  end.

(** ** The main thread *)

(** FLAGS_thread_cut_off: one round stops [stride] threads, from the back of
    [stop_thread_id_orders]; [true]: nothing is left, the benchmark ends. *)
Fixpoint cut_off (stride : nat) (orders : list Z) (stop_flags : list bool) : outcome (list Z * list bool * bool) :=
  match stride with
  | O => Ret (orders, stop_flags, false)
  | S n =>
      stop_tid ← deref (last orders);
      let orders := take (length orders - 1) orders in
      let stop_flags := <[Z.to_nat stop_tid := true]> stop_flags in
      if (length orders =? 0)%nat then Ret (orders, stop_flags, true)
      else cut_off n orders stop_flags
  end.

(** The rounds of the main loop, one every 30 seconds. *)
Fixpoint cut_off_rounds (fuel : nat) (orders : list Z) (stop_flags : list bool) : outcome (list bool * nat) :=
  match fuel with
  | O => Err Diverges
  | S n =>
      '(orders, stop_flags, finish) ← cut_off 2 orders stop_flags;
      if finish : bool then Ret (stop_flags, 1%nat)
      else '(f, k) ← cut_off_rounds n orders stop_flags; Ret (f, S k)
  end.
End BenchmarkClient.
End BenchmarkClient.

(** ** The slots of a thread *)

Section Slots.
Import BenchmarkClient.
Context (vs : Z) (a : Args) (L : nat).

Definition busy (ids : list Z) : nat := length (filter (fun id : Z => id <> (-1)%Z) ids).

Lemma busy_insert ids i x y : ids !! i = Some x ->
  (busy (<[i := y]> ids) + (if decide (x = (-1)%Z) then 0 else 1) = busy ids + (if decide (y = (-1)%Z) then 0 else 1))%nat.
Proof.
  intros Hx. unfold busy. rewrite insert_take_drop by (by eapply lookup_lt_Some).
  pose proof (f_equal (fun l => length (filter (fun id : Z => id <> (-1)%Z) l)) (take_drop_middle ids i x Hx)) as E.
  cbn beta in E. rewrite <- E. rewrite !filter_app, !filter_cons, !length_app.
  destruct (decide (x = (-1)%Z)), (decide (y = (-1)%Z)), (decide (x <> (-1)%Z)), (decide (y <> (-1)%Z)); cbn [length]; try done; lia.
Qed.

(** After [n] slots.  Every busy slot has a request of its own whose poll word
    is registered, no other request is registered, and the requests that were
    sent are those that have been counted and those under way. *)
Record slots_inv (n : Z) (t : thread) : Prop := {
  si_pull : length (isPullRequest t) = length (running_rpc_ids t);
  si_recv : length (recv_buffers t) = length (running_rpc_ids t);
  si_ids : forall i id, running_rpc_ids t !! i = Some id -> id = -1 \/ 0 <= id < Client.rpcIDAcc_ (client_ t);
  si_inj : forall i j id, running_rpc_ids t !! i = Some id -> running_rpc_ids t !! j = Some id -> id <> -1 -> i = j;
  si_map : forall id, is_Some (Client.rpcId2PollMap_ (client_ t) !! id) <-> id <> -1 /\ id ∈ running_rpc_ids t;
  si_count : tp t + Z.of_nat (busy (running_rpc_ids t)) = Client.rpcIDAcc_ (client_ t);
  si_tp : 0 <= tp t;
  si_acc : 0 <= Client.rpcIDAcc_ (client_ t) <= n;
  si_threads : length (Client.serverThreadIdsRoutedTo_ (client_ t)) = L
}.

Lemma slots_inv_mono n n' t : slots_inv n t -> n <= n' -> slots_inv n' t.
Proof. intros [] H. split; try done. lia. Qed.

(** What both requests do to the client. *)
Lemma send_fresh p c type keys values poll : (Z.to_nat (Client.round_robin p) < length (Client.serverThreadIdsRoutedTo_ c))%nat ->
  exists p' c' m thread, Client.send p c type keys values poll = Ret (p', c', m, thread) /\
    Client.rpcIDAcc_ c' = Client.rpcIDAcc_ c /\ Client.serverThreadIdsRoutedTo_ c' = Client.serverThreadIdsRoutedTo_ c /\
    Client.rpcId2PollMap_ c' = <[Client.rpcIDAcc_ c := poll]> (Client.rpcId2PollMap_ c).
Proof.
  intros H. destruct (lookup_lt_is_Some_2 _ _ H) as [t Ht]. unfold Client.send, Client.SelectServerThreadID.
  cbn [Client.serverThreadIdsRoutedTo_ Client.with_memory Client.round_robin]. rewrite Ht. cbn [deref mbind outcome_bind].
  by eexists _, _, _, _.
Qed.

(** A request in a free slot. *)
Lemma sent_inv n t i poll pull (c : Client.client) :
  slots_inv n t -> n < 2 ^ 31 - 1 -> running_rpc_ids t !! i = Some (-1) ->
  Client.rpcIDAcc_ c = u64 (Client.rpcIDAcc_ (client_ t) + 1) ->
  Client.serverThreadIdsRoutedTo_ c = Client.serverThreadIdsRoutedTo_ (client_ t) ->
  Client.rpcId2PollMap_ c = <[Client.rpcIDAcc_ (client_ t) := poll]> (Client.rpcId2PollMap_ (client_ t)) ->
  slots_inv (n + 1) (set_slot t i (i32 (Client.rpcIDAcc_ (client_ t))) pull (tp t) c).
Proof.
  intros [Hp Hr Hids Hinj Hmap Hcnt Htp Hacc HL] Hn Hi Ea Es Em. set (id := Client.rpcIDAcc_ (client_ t)) in *.
  rewrite u64_small in Ea by lia. rewrite i32_small by lia.
  assert (Hfresh : id ∉ running_rpc_ids t).
  { intros [j Hj]%list_elem_of_lookup_1. destruct (Hids j id Hj); lia. }
  pose proof (busy_insert _ i (-1) id Hi) as Hb. rewrite decide_True, decide_False in Hb by lia.
  split; cbn [set_slot running_rpc_ids isPullRequest recv_buffers tp client_]; rewrite ?length_insert; try done; rewrite ?Ea, ?Es; try lia.
  - intros j x Hj. apply list_lookup_insert_Some in Hj as [(-> & <- & _)|[_ Hj]]; [lia|]. destruct (Hids j x Hj); lia.
  - intros j k x Hj Hk Hx. apply list_lookup_insert_Some in Hj as [(-> & <- & _)|[Hne Hj]];
      apply list_lookup_insert_Some in Hk as [(-> & E & _)|[Hne' Hk]]; try done.
    + exfalso. apply Hfresh. by eapply list_elem_of_lookup_2.
    + exfalso. apply Hfresh. rewrite E. by eapply list_elem_of_lookup_2.
    + by eapply Hinj.
  - intros x. rewrite Em. destruct (decide (x = id)) as [->|Hne].
    + rewrite lookup_insert_eq. split; [intros _|by eexists]. split; [lia|]. eapply (list_elem_of_lookup_2 _ i).
      apply list_lookup_insert_eq. by eapply lookup_lt_Some.
    + rewrite lookup_insert_ne, Hmap by done. split; intros [Hx Hin]; (split; [done|]).
      * apply list_elem_of_lookup_1 in Hin as [j Hj]. eapply (list_elem_of_lookup_2 _ j).
        rewrite list_lookup_insert_ne; [done|]. intros ->. congruence.
      * apply list_elem_of_lookup_1 in Hin as [j Hj]. apply list_lookup_insert_Some in Hj as [(_ & E & _)|[_ Hj]]; [congruence|].
        by eapply list_elem_of_lookup_2.
Qed.

(** A request that is finished. *)
Lemma finished_inv n t i id pull :
  slots_inv n t -> n < 2 ^ 31 - 1 -> running_rpc_ids t !! i = Some id -> id <> -1 ->
  slots_inv (n + 1) (set_slot t i (-1) pull (u64 (tp t + 1)) (Client.RevokeRPCResource (client_ t) id)).
Proof.
  intros [Hp Hr Hids Hinj Hmap Hcnt Htp Hacc HL] Hn Hi Hid. destruct (Hids i id Hi) as [|Hrange]; [done|].
  pose proof (busy_insert _ i id (-1) Hi) as Hb. rewrite decide_False, decide_True in Hb by done.
  rewrite (u64_small (tp t + 1)) by lia.
  split; cbn [set_slot running_rpc_ids isPullRequest recv_buffers tp client_ Client.RevokeRPCResource Client.rpcIDAcc_
    Client.serverThreadIdsRoutedTo_ Client.rpcId2PollMap_]; rewrite ?length_insert; try done; try lia.
  - intros j x Hj. apply list_lookup_insert_Some in Hj as [(-> & <- & _)|[_ Hj]]; [lia|]. by apply (Hids j).
  - intros j k x Hj Hk Hx. apply list_lookup_insert_Some in Hj as [(-> & <- & _)|[Hne Hj]]; [done|].
    apply list_lookup_insert_Some in Hk as [(-> & E & _)|[Hne' Hk]]; [congruence|]. by eapply Hinj.
  - intros x. rewrite u64_small by lia. destruct (decide (x = id)) as [->|Hne].
    + rewrite lookup_delete_eq. split; [by intros []|]. intros [_ Hin]. exfalso.
      apply list_elem_of_lookup_1 in Hin as [j Hj]. apply list_lookup_insert_Some in Hj as [(_ & E & _)|[Hne Hj]]; [congruence|].
      apply Hne. by eapply Hinj.
    + rewrite lookup_delete_ne, Hmap by done. split; intros [Hx Hin]; (split; [done|]).
      * apply list_elem_of_lookup_1 in Hin as [j Hj]. eapply (list_elem_of_lookup_2 _ j).
        rewrite list_lookup_insert_ne; [done|]. intros ->. congruence.
      * apply list_elem_of_lookup_1 in Hin as [j Hj]. apply list_lookup_insert_Some in Hj as [(_ & E & _)|[_ Hj]]; [congruence|].
        by eapply list_elem_of_lookup_2.
Qed.

Lemma slot_run n p t i keys rand :
  slots_inv n t -> n < 2 ^ 31 - 1 -> (i < length (running_rpc_ids t))%nat -> (Z.to_nat (Client.round_robin p) < L)%nat ->
  exists p' t', slot vs a p t i keys rand = Ret (p', t') /\ slots_inv (n + 1) t' /\
    length (running_rpc_ids t') = length (running_rpc_ids t).
Proof.
  intros Hinv Hn Hi Hrr. destruct (lookup_lt_is_Some_2 _ _ Hi) as [id Hid].
  destruct (lookup_lt_is_Some_2 (isPullRequest t) i) as [pull Hpull]; [by rewrite (si_pull _ _ Hinv)|].
  unfold slot. rewrite Hid, Hpull. cbn [deref mbind outcome_bind]. destruct (Z.eqb_spec id (-1)) as [->|Hne].
  - destruct (lookup_lt_is_Some_2 (recv_buffers t) i) as [v Hv]; [by rewrite (si_recv _ _ Hinv)|]. rewrite Hv.
    cbn [deref mbind outcome_bind]. rewrite <- (si_threads _ _ Hinv) in Hrr.
    destruct (rand <? read_ratio_ a); unfold Client.GetParameter, Client.FakePutParameter;
      match goal with |- context [Client.send ?p ?c ?ty ?ks ?vl ?poll] =>
        destruct (send_fresh p c ty ks vl poll Hrr) as (p' & c' & m & th & -> & Ea & Es & Em) end;
      cbn [mbind outcome_bind Client.next_id]; rewrite Ea; eexists _, _; (split; [done|]);
      (split; [|cbn; by rewrite length_insert]); eapply sent_inv; try done; cbn; congruence.
  - destruct (si_map _ _ Hinv id) as [_ Hm]. destruct Hm as [poll Hpoll]; [split; [done|by eapply list_elem_of_lookup_2]|].
    destruct (si_ids _ _ Hinv i id Hid) as [|Hr]; [done|]. pose proof (si_acc _ _ Hinv).
    unfold Client.QueryRPCFinished. rewrite (u64_small id), Hpoll by lia. cbn [deref mbind outcome_bind].
    destruct (negb _); eexists _, _; (split; [done|]).
    + split; [by apply finished_inv|cbn; by rewrite length_insert].
    + split; [|done]. apply (slots_inv_mono n); [done|lia].
Qed.

Lemma for_slots_run l n p t i :
  slots_inv n t -> n + Z.of_nat (length l) < 2 ^ 31 -> (i + length l <= length (running_rpc_ids t))%nat ->
  Forall (fun x => Z.to_nat (in_round_robin x) < L)%nat l ->
  exists p' t', for_slots vs a p t i l = Ret (p', t') /\ slots_inv (n + Z.of_nat (length l)) t' /\
    length (running_rpc_ids t') = length (running_rpc_ids t).
Proof.
  revert n p t i. induction l as [|x l IH]; intros n p t i Hinv Hn Hi HF; cbn [for_slots length] in *.
  { exists p, t. rewrite Z.add_0_r. done. }
  apply Forall_cons in HF as [Hx HF].
  destruct (slot_run n (found p x) t i (in_keys x) (in_rand x) Hinv) as (p1 & t1 & HS & Hinv1 & Hl1); [lia|lia|done|].
  destruct (IH (n + 1) p1 t1 (S i) Hinv1) as (p' & t' & HR & Hinv' & Hl'); [lia|lia|done|].
  exists p', t'. rewrite HS. cbn [mbind outcome_bind]. split; [exact HR|]. split; [|congruence].
  apply (slots_inv_mono (n + 1 + Z.of_nat (length l))); [done|lia].
Qed.

(** The turns of a thread with [async_req_num_] slots. *)
Definition turns_ok (turns : list (list input)) : Prop :=
  Forall (fun l => length l = Z.to_nat (async_req_num_ a) /\ Forall (fun x => Z.to_nat (in_round_robin x) < L)%nat l) turns.

Lemma receive_buffers_length n p : length (receive_buffers n a p).2 = n.
Proof.
  revert p. induction n as [|n IH]; intros p; cbn [receive_buffers]; [done|]. cbn [Client.GetReceiveBuffer].
  match goal with |- context [receive_buffers n a ?q] => specialize (IH q); destruct (receive_buffers n a q) end.
  cbn in *. by rewrite IH.
Qed.

Lemma clientThreadLoop_run turns n p t :
  slots_inv n t -> length (running_rpc_ids t) = Z.to_nat (async_req_num_ a) -> turns_ok turns ->
  n + Z.of_nat (length turns * Z.to_nat (async_req_num_ a)) < 2 ^ 31 ->
  exists p' t', clientThreadLoop vs a p t turns = Ret (p', t') /\
    slots_inv (n + Z.of_nat (length turns * Z.to_nat (async_req_num_ a))) t' /\
    length (running_rpc_ids t') = Z.to_nat (async_req_num_ a).
Proof.
  revert n p t. induction turns as [|l turns IH]; intros n p t Hinv Hl HT Hn; cbn [clientThreadLoop length] in *.
  { exists p, t. rewrite Z.add_0_r. done. }
  apply Forall_cons in HT as [[Hll HF] HT].
  destruct (for_slots_run l n p t 0 Hinv) as (p1 & t1 & HR & Hinv1 & Hl1); [lia|lia|done|].
  destruct (IH (n + Z.of_nat (length l)) p1 t1 Hinv1) as (p' & t' & HR' & Hinv' & Hl'); [congruence|done|lia|].
  exists p', t'. rewrite HR. cbn [mbind outcome_bind]. split; [exact HR'|]. split; [|done].
  eapply slots_inv_mono; [exact Hinv'|]. lia.
Qed.

(** [C19] A client thread of the benchmark: whatever arrives in its memory and
    whatever the other threads do to the round robin, its loop never fails
    before 2^31 slots have been visited (a poll always finds the poll word of
    its request), and at the end every busy slot has a request of its own,
    exactly these requests are still registered with the client, and the
    requests sent are the ones counted in tp and the ones under way. *)
Theorem clientThreadLoop_invariant p c ids turns :
  Client.rpcIDAcc_ c = 0 -> Client.rpcId2PollMap_ c = ∅ -> length ids = L -> turns_ok turns ->
  Z.of_nat (length turns * Z.to_nat (async_req_num_ a)) < 2 ^ 31 ->
  exists p1 t1 p2 t2,
    start_thread a p c (RESP_GET_SERVER_THREADIDS, ids) = Ret (p1, t1) /\
    clientThreadLoop vs a p1 t1 turns = Ret (p2, t2) /\
    length (running_rpc_ids t2) = Z.to_nat (async_req_num_ a) /\
    slots_inv (Z.of_nat (length turns * Z.to_nat (async_req_num_ a))) t2.
Proof.
  intros Ha Hm Hids HT Hn. unfold start_thread. pose proof (receive_buffers_length (Z.to_nat (async_req_num_ a)) p) as Hb.
  destruct (receive_buffers _ _ _) as [p1 bs] eqn:E. cbn [snd] in Hb. cbn [Client.InitThread fst CHECK mbind outcome_bind].
  set (t1 := {| running_rpc_ids := _ |}).
  assert (Hinv : slots_inv 0 t1).
  { split; cbn; rewrite ?length_replicate; try done; try lia.
    - intros i id Hi. apply lookup_replicate in Hi as [-> _]. by left.
    - intros i j id Hi Hj Hne. apply lookup_replicate in Hi as [-> _]. done.
    - intros id. rewrite Hm. split; [by intros []|]. intros [Hne Hin]. by apply elem_of_replicate in Hin as [-> _].
    - rewrite Ha. unfold busy. generalize (Z.to_nat (async_req_num_ a)). intros k. by induction k. }
  destruct (clientThreadLoop_run turns 0 p1 t1 Hinv) as (p2 & t2 & HR & Hinv2 & Hl2);
    [cbn; apply length_replicate|done|lia|]. rewrite Z.add_0_l in Hinv2. exists p1, t1, p2, t2. done.
Qed.
End Slots.

(** ** Buffers and stopping *)

Section Main.
Import BenchmarkClient.
Context (a : Args).
Notation size := (batch_read_count_ a * value_size_ a).

(** The receive buffers follow each other. *)
Lemma receive_buffers_at n p :
  0 <= size < 2 ^ 31 -> 0 <= Client.client_memory_offset_acc p ->
  Client.client_memory_offset_acc p + Z.of_nat n * size < 2 ^ 64 ->
  let '(p', bs) := receive_buffers n a p in
  bs = (fun i => Client.base_ p + Client.client_memory_offset_acc p + i * size) <$> seqZ 0 (Z.of_nat n) /\
  Client.client_memory_offset_acc p' = Client.client_memory_offset_acc p + Z.of_nat n * size.
Proof.
  intros Hs. revert p. induction n as [|n IH]; intros p Hp Hb; cbn [receive_buffers].
  { rewrite Z.mul_0_l, Z.add_0_r. done. }
  cbn [Client.GetReceiveBuffer]. rewrite i32_small, (u64_small size), (u64_small (_ + size)) by nia.
  match goal with |- context [receive_buffers n a ?q] => specialize (IH q); destruct (receive_buffers n a q) as [p' bs] end.
  cbn [Client.base_ Client.client_memory_offset_acc] in IH. destruct IH as [Hbs Hp']; [lia|nia|]. split; [|rewrite Hp'; nia].
  replace (Z.of_nat (S n)) with (1 + Z.of_nat n) by lia. rewrite seqZ_cons by lia. cbn [fmap list_fmap].
  f_equal; [lia|]. rewrite Hbs. replace (Z.pred (1 + Z.of_nat n)) with (Z.of_nat n) by lia.
  replace (seqZ (Z.succ 0) (Z.of_nat n)) with (Z.add 1 <$> seqZ 0 (Z.of_nat n)) by (apply fmap_add_seqZ).
  rewrite <- list_fmap_compose. apply list_fmap_ext. intros i x _. cbn. lia.
Qed.

(** The threads [orders] have not been stopped yet, the others have. *)
Definition stopped_but (orders : list Z) (flags : list bool) : Prop :=
  forall i, (i < length flags)%nat -> flags !! i = Some (negb (bool_decide (Z.of_nat i ∈ orders))).

Lemma cut_off_one orders x flags :
  NoDup (orders ++ [x]) -> 0 <= x < Z.of_nat (length flags) -> stopped_but (orders ++ [x]) flags ->
  stopped_but orders (<[Z.to_nat x := true]> flags).
Proof.
  intros Hnd Hx Hs i Hi. rewrite length_insert in Hi. destruct (decide (i = Z.to_nat x)) as [->|Hne].
  - rewrite list_lookup_insert_eq by lia. rewrite Z2Nat.id by lia. rewrite bool_decide_eq_false_2; [done|].
    apply NoDup_app in Hnd as (_ & H & _). intros Hin. apply (H x Hin). set_solver.
  - rewrite list_lookup_insert_ne by done. rewrite (Hs i Hi). do 2 f_equal. apply bool_decide_ext. set_solver by lia.
Qed.

Lemma cut_off_step n (o : list Z) x flags :
  cut_off (S n) (o ++ [x]) flags =
    if decide (o = []) then Ret ([], <[Z.to_nat x := true]> flags, true) else cut_off n o (<[Z.to_nat x := true]> flags).
Proof.
  cbn [cut_off]. rewrite last_snoc. cbn [deref mbind outcome_bind]. rewrite length_app, Nat.add_sub, take_app_length.
  by destruct o.
Qed.

Lemma stopped_all (flags fl : list bool) : length fl = length flags -> stopped_but [] fl -> fl = replicate (length flags) true.
Proof.
  intros El Hfl. apply list_eq. intros i. destruct (decide (i < length fl)%nat) as [Hi|Hi].
  - rewrite (Hfl i Hi). rewrite bool_decide_eq_false_2 by set_solver. by rewrite lookup_replicate_2 by lia.
  - rewrite !lookup_ge_None_2; rewrite ?length_replicate; (done || lia).
Qed.

(** With FLAGS_thread_cut_off the main thread stops all threads: it never
    takes a thread from an empty list, and after half as many rounds as there
    are threads (rounded up) every stop flag is set. *)
Theorem cut_off_stops_all (orders : list Z) (flags : list bool) fuel :
  orders <> [] -> NoDup orders -> Forall (fun x => 0 <= x < Z.of_nat (length flags)) orders -> stopped_but orders flags ->
  (length orders <= fuel)%nat ->
  exists flags', cut_off_rounds fuel orders flags = Ret (flags', Nat.div2 (length orders + 1)) /\
    flags' = replicate (length flags) true.
Proof.
  revert orders flags. induction fuel as [|fuel IH]; intros orders flags Hne Hnd HF Hs Hl; [by destruct orders; cbn in Hl; [|lia]|].
  cbn [cut_off_rounds]. destruct (exists_last Hne) as (o1 & x & ->). rewrite cut_off_step.
  rewrite length_app in *. cbn [length] in *. apply Forall_app in HF as [HF Hx]. rewrite Forall_singleton in Hx.
  pose proof (cut_off_one o1 x flags Hnd Hx Hs) as Hs1. apply NoDup_app in Hnd as (Hnd1 & _ & _).
  destruct (decide (o1 = [])) as [->|Hne1].
  { cbn [mbind outcome_bind]. eexists. split; [done|]. apply stopped_all; [by rewrite length_insert|done]. }
  destruct (exists_last Hne1) as (o2 & z & ->). rewrite cut_off_step. rewrite length_app in *. cbn [length] in *.
  apply Forall_app in HF as [HF Hz]. rewrite Forall_singleton in Hz.
  pose proof (cut_off_one o2 z (<[Z.to_nat x := true]> flags) Hnd1 ltac:(by rewrite length_insert) Hs1) as Hs2.
  apply NoDup_app in Hnd1 as (Hnd2 & _ & _). destruct (decide (o2 = [])) as [->|Hne2].
  { cbn [mbind outcome_bind]. eexists. split; [done|]. apply stopped_all; [by rewrite !length_insert|done]. }
  cbn [cut_off mbind outcome_bind].
  destruct (IH o2 (<[Z.to_nat z := true]> (<[Z.to_nat x := true]> flags))) as (flags' & HR & Hf);
    [done|done|by rewrite !length_insert|done|lia|].
  rewrite HR. cbn [mbind outcome_bind]. exists flags'. rewrite !length_insert in Hf. split; [|done].
  by replace (length o2 + 1 + 1 + 1)%nat with (S (S (length o2 + 1))) by lia.
Qed.

(** The buffers of the slots do not meet: an answer of one request does not
    touch the buffer of another. *)
Lemma receive_buffers_sep n p i j b b' :
  0 <= size < 2 ^ 31 -> 0 <= Client.client_memory_offset_acc p ->
  Client.client_memory_offset_acc p + Z.of_nat n * size < 2 ^ 64 ->
  (receive_buffers n a p).2 !! i = Some b -> (receive_buffers n a p).2 !! j = Some b' -> i <> j ->
  sep (b, size) (b', size).
Proof.
  intros Hs Hp Hb Hi Hj Hne. pose proof (receive_buffers_at n p Hs Hp Hb) as H. destruct (receive_buffers n a p) as [p' bs].
  destruct H as [-> _]. cbn [snd] in Hi, Hj. rewrite list_lookup_fmap in Hi, Hj.
  destruct (seqZ 0 (Z.of_nat n) !! i) as [x|] eqn:Ex; [|done]. destruct (seqZ 0 (Z.of_nat n) !! j) as [y|] eqn:Ey; [|done].
  apply lookup_seqZ in Ex as [-> _], Ey as [-> _]. cbn in Hi, Hj. simplify_eq. unfold sep. cbn. nia.
Qed.
End Main.

(** ** A thread with two slots *)

Section Concrete.
Import BenchmarkClient.

Definition two_slots : Args :=
  {| thread_count_ := 3; async_req_num_ := 2; batch_read_count_ := 5; key_space_M_ := 1; theta_is_default := false;
     value_size_ := 64; read_ratio_ := 100 |}.

Definition empty_process : Client.process :=
  {| Client.base_ := 4096; Client.round_robin := 0; Client.client_memory_offset_acc := 0; Client.memory_ := ∅ |}.

(** In the second turn the memory is zero: both requests are finished. *)
Definition two_turns : list (list input) :=
  [[Build_input ∅ 0 [1; 2; 3; 4; 5] 7; Build_input ∅ 1 [6; 7; 8; 9; 10] 7];
   [Build_input ∅ 0 [1; 2; 3; 4; 5] 7; Build_input ∅ 1 [6; 7; 8; 9; 10] 7];
   [Build_input ∅ 0 [1; 2; 3; 4; 5] 7; Build_input ∅ 1 [6; 7; 8; 9; 10] 7]].

Lemma clientThreadLoop_invariant_witness :
  CheckArgs two_slots = Ret tt /\
  exists p1 t1 p2 t2,
    start_thread two_slots empty_process (Client.make 0) (RESP_GET_SERVER_THREADIDS, [0; 1]) = Ret (p1, t1) /\
    clientThreadLoop 64 two_slots p1 t1 two_turns = Ret (p2, t2) /\ length (running_rpc_ids t2) = 2%nat /\
    tp t2 + Z.of_nat (busy (running_rpc_ids t2)) = Client.rpcIDAcc_ (client_ t2).
Proof.
  split; [done|].
  destruct (clientThreadLoop_invariant 64 two_slots 2 empty_process (Client.make 0) [0; 1] two_turns)
    as (p1 & t1 & p2 & t2 & H1 & H2 & H3 & H4); [done|done|done|by repeat constructor; cbn; lia|by vm_compute|].
  exists p1, t1, p2, t2. split; [exact H1|]. split; [exact H2|]. split; [exact H3|]. exact (si_count _ _ _ H4).
Defined.

Lemma cut_off_stops_all_witness :
  cut_off_rounds 3 [0; 1; 2] [false; false; false] = Ret ([true; true; true], 2%nat).
Proof.
  destruct (cut_off_stops_all [0; 1; 2] [false; false; false] 3) as (fl & HR & ->);
    [done|by vm_compute; repeat constructor; set_solver|repeat constructor; cbn; lia| |cbn; lia|exact HR].
  intros [|[|[|i]]] Hi; [done..|cbn in Hi; lia].
Defined.
End Concrete.
