(* ===== verification/ServerMain.v ===== *)
(** * Starting a server (main of src/ps/petps_server.cc, src/base/factory.h)

    [main] chooses the engine and its configuration from the flags, creates the
    engine through the factory, loads and checks the data if it is asked to, and
    starts the service.  The theorems: which engine names end in a started
    server, and that a server which was started with preload answers a GET of
    loaded keys with their embeddings. *)

From stdpp Require Import base numbers list gmap strings.
From Stdlib Require Import ZArith Lia SpecFloat.
From S2P Require Import Prelude Doubles ShmCommon SimpleMalloc MallocApi PetKV PetKVSpec PetKVProps Epoch Array Engines.
From S2P Require Import EnginesSpec Ps PsSpec LoadDB.

(** ** base/factory.h *)

Module Factory.
Section Factory.
Context {A T : Type}.

(** [creators()]; [None]: a null pointer. *)
Notation creators := (gmap string (option (A -> outcome T))).

(** FACTORY_REGISTER: the first registration of a key stays. *)
Definition register (cs : creators) (key : string) (f : A -> outcome T) : creators :=
  match cs !! key with
  | Some _ => cs
  | None => <[key := Some f]> cs
  end.

(** [creators()[key]] enters a null pointer for a key that is not there;
    without a creator the process exits. *)
Definition NewInstance (cs : creators) (key : string) (args : A) : creators * outcome T :=
  match cs !! key with
  | Some (Some f) => (cs, f args)
  | Some None => (cs, Err CheckFailed)
  | None => (<[key := None]> cs, Err CheckFailed)
  end.
End Factory.
End Factory.

(** ** main *)

Module Main.

Record Flags := Build_Flags {
  db : string;
  key_space_m : Z;
  warmup_ratio : spec_float;
  warmup_thread_num : Z;
  thread_num : Z;
  preload : bool;
  check_all_inserted : bool;
  use_dram : bool;
  exit_ : bool;
  value_size : Z
}.

(** BaseKVConfig; [None]: not initialized. *)
Record BaseKVConfig := Build_BaseKVConfig {
  c_value_size : Z;
  hash_size : option Z;
  pool_size : option Z;
  num_threads : Z;
  capacity : Z;
  path : string;
  hash_name : string
}.

Definition GB : Z := 1024 * 1024 * 1024.

(** The engine that is created, the number of loading threads and the fields
    of the configuration that depend on the engine: suffix of the path,
    hash_name, hash_size and pool_size. *)
Record choice := Build_choice {
  ch_db : string;
  ch_warmup : Z;
  ch_path : string;
  ch_hash : option (string * Z);
  ch_pool : option Z
}.

Definition select_db (f : Flags) : outcome choice :=
  let w := warmup_thread_num f in
  if use_dram f then Ret (Build_choice (db f) w "dram-placeholder" None None)
  else if String.eqb (db f) "KVEnginePersistDoubleShmKV" then
    Ret (Build_choice "KVEnginePetKV" w "double-placeholder" None None)
  else if String.eqb (db f) "KVEnginePersistShmKV" then Ret (Build_choice (db f) w "kuai-placeholder" None None)
  else if String.eqb (db f) "KVEnginePetKV" then Ret (Build_choice (db f) w "petkv-placeholder" None None)
  else if String.eqb (db f) "KVEngineDash" then Ret (Build_choice (db f) w "dash-placeholder" None None)
  else if String.eqb (db f) "KVEngineCLHT" then
    Ret (Build_choice "HashAPI" w "CLHT-placeholder" (Some ("clht"%string, 40960)) (Some (32 * GB * 2)))
  else if String.eqb (db f) "KVEngineLevel" then
    Ret (Build_choice "HashAPI" w "Level-placeholder" (Some ("level"%string, 40960)) (Some (32 * GB * 2)))
  else if String.eqb (db f) "KVEngineClevel" then
    Ret (Build_choice "HashAPI" 1 "Clevel-placeholder" (Some ("clevel"%string, 40960)) (Some (32 * GB * 2)))
  else if String.eqb (db f) "KVEngineCCEH" then
    Ret (Build_choice "HashAPI" w "CCEH-placeholder" (Some ("cceh"%string, 4096)) (Some (32 * GB * 2)))
  else if String.eqb (db f) "KVEngineCCEHVM" then
    Ret (Build_choice "HashAPI" 1 "CCEH-placeholder" (Some ("ccehvm"%string, 4096)) (Some (32 * GB)))
  else if String.eqb (db f) "KVEngineMap" then Ret (Build_choice (db f) 1 "unorderedMap-placeholder" None None)
  else if String.eqb (db f) "KVEngineMapPM" then
    Ret (Build_choice (db f) 1 "unorderedMapPM-placeholder" None (Some (32 * GB)))
  else if String.eqb (db f) "KVEngineMultiMapPM" then
    Ret (Build_choice (db f) w "KVEngineMultiMapPM-placeholder" None (Some (100 * GB)))
  else if String.eqb (db f) "KVEngineF14" then Ret (Build_choice (db f) w "f14-placeholder" None (Some (32 * GB)))
  else if String.eqb (db f) "KVEngineFakeKV" then Ret (Build_choice (db f) w "fake-placeholder" None None)
  else Err CheckFailed.

(** The configuration; [dir] is the directory of the server. *)
Definition make_config (f : Flags) (c : choice) (dir : string) (p : Postoffice.postoffice) : outcome BaseKVConfig :=
  _ ← (if Postoffice.NumServers p =? 0 then Err Undefined else Ret tt);
  Ret {| c_value_size := value_size f; hash_size := snd <$> ch_hash c; pool_size := ch_pool c;
         num_threads := Z.max (thread_num f) (ch_warmup c);
         capacity := Z.quot (i64 (key_space_m f * 1024 * 1024)) (Postoffice.NumServers p);
         path := dir +:+ ch_path c; hash_name := default "clht"%string (fst <$> ch_hash c) |}.

(** [FLAGS_key_space_m * 1024 * 1024LL * FLAGS_warmup_ratio], as an [int64_t] *)
Definition i64_of_double (x : spec_float) : outcome Z :=
  match x with
  | S754_zero _ => Ret 0
  | S754_finite s m e =>
      let a := if 0 <=? e then Z.shiftl (Zpos m) e else Z.shiftr (Zpos m) (- e) in
      let z := if s then - a else a in
      if (- 2 ^ 63 <=? z) && (z <? 2 ^ 63) then Ret z else Err Undefined
  | _ => Err Undefined
  end.

Definition warm_capacity (f : Flags) : outcome Z :=
  i64_of_double (double_mul (double_of_Z (i64 (key_space_m f * 1024 * 1024))) (warmup_ratio f)).

(** What main comes to. *)
Inductive result (K : Type) :=
  | Exited
  | Serving (s : Server.server K).
Arguments Exited {K}.
Arguments Serving {K} s.

Section Main.
Context {K : Type} `{!BaseKV K} (partition : Z -> Z).

(** Loading and checking, before the service is started; [true]: return 0. *)
Definition load (f : Flags) (h : option (LoadDBHelper.helper K)) (kv : K) (order : list (Z * Z)) : outcome (K * bool) :=
  '(h, kv, done) ←
    (if preload f then
       h0 ← match h with Some h0 => Ret h0 | None => Err CheckFailed end;
       h1 ← LoadDBHelper.PreLoadDB (value_size f) partition h0 false order;
       _ ← LoadDBHelper.CheckDBLoad (value_size f) partition h1;
       Ret (Some h1, LoadDBHelper.kv_ h1, exit_ f)
     else Ret (h, kv, false));
  if done : bool then Ret (kv, true)
  else if check_all_inserted f then
    h0 ← match h with Some h0 => Ret h0 | None => Err CheckFailed end;
    _ ← LoadDBHelper.CheckDBLoad (value_size f) partition h0;
    Ret (kv, true)
  else Ret (kv, false).

Definition main (f : Flags) (cs : gmap string (option (BaseKVConfig -> outcome K))) (dir : string) (p : Postoffice.postoffice)
    (g : Epoch.manager) (order : list (Z * Z)) : outcome (result K) :=
  c ← select_db f;
  config ← make_config f c dir p;
  kv ← (Factory.NewInstance cs (ch_db c) config).2;
  h ← (if Postoffice.IsServer p then
         cap ← warm_capacity f;
         h ← LoadDBHelper.make kv p (ch_warmup c) cap;
         Ret (Some h)
       else Ret None);
  '(kv, done) ← load f h kv order;
  if done : bool then Ret Exited
  else s ← Server.make kv (thread_num f) g; Ret (Serving s).
End Main.
End Main.

(** ** Which engines can be started *)

Section Engines.
Import Main.
Context {K : Type} `{!BaseKV K} (partition : Z -> Z).

(** The engines that kv_engine_register.cc registers without PMEM. *)
Definition registered (pet fake : BaseKVConfig -> outcome K) : gmap string (option (BaseKVConfig -> outcome K)) :=
  Factory.register (Factory.register ∅ "KVEnginePetKV" pet) "KVEngineFakeKV" fake.

Lemma NewInstance_registered pet fake key config kv :
  (Factory.NewInstance (registered pet fake) key config).2 = Ret kv -> key = "KVEnginePetKV"%string \/ key = "KVEngineFakeKV"%string.
Proof.
  destruct (decide (key = "KVEnginePetKV"%string)) as [|H1]; [by left|].
  destruct (decide (key = "KVEngineFakeKV"%string)) as [|H2]; [by right|].
  assert (E : registered pet fake =
    (<["KVEngineFakeKV"%string := Some fake]> (<["KVEnginePetKV"%string := Some pet]> ∅) :
       gmap string (option (BaseKVConfig -> outcome K)))) by done.
  unfold Factory.NewInstance. rewrite E, !lookup_insert_ne, lookup_empty by done. done.
Qed.

Lemma select_db_pet_or_fake f c :
  select_db f = Ret c -> use_dram f = false -> ch_db c = "KVEnginePetKV"%string \/ ch_db c = "KVEngineFakeKV"%string ->
  db f ∈ ["KVEnginePersistDoubleShmKV"; "KVEnginePetKV"; "KVEngineFakeKV"]%string.
Proof.
  unfold select_db. intros Hs Hd Hdb. rewrite Hd in Hs.
  repeat match goal with H : (if String.eqb ?x ?y then _ else _) = _ |- _ =>
    destruct (String.eqb_spec x y) as [E|_]; [injection H as <-; cbn in Hdb; rewrite ?E in Hdb; rewrite ?E; destruct Hdb; first [discriminate|set_solver]|] end.
  done.
Qed.

(** In a build without PMEM only two engines are registered: main starts a
    server, or loads and exits, only for the flag values
    KVEnginePersistDoubleShmKV, KVEnginePetKV and KVEngineFakeKV, and with
    --use_dram, where the name is not translated, only for the last two (not for
    the default value of the flag). *)
Theorem main_engines f pet fake dir p g order r :
  main partition f (registered pet fake) dir p g order = Ret r ->
  db f ∈ (if use_dram f then ["KVEnginePetKV"; "KVEngineFakeKV"]
          else ["KVEnginePersistDoubleShmKV"; "KVEnginePetKV"; "KVEngineFakeKV"])%string.
Proof.
  intros H. unfold main in H. destruct (select_db f) as [c|] eqn:Hs; [|done]. cbn [mbind outcome_bind] in H.
  destruct (make_config f c dir p) as [config|]; [|done]. cbn [mbind outcome_bind] in H.
  destruct (Factory.NewInstance _ _ _).2 as [kv|] eqn:Hk; [|done]. apply NewInstance_registered in Hk.
  destruct (use_dram f) eqn:Hd; [|by eapply select_db_pet_or_fake].
  unfold select_db in Hs. rewrite Hd in Hs. simplify_eq. cbn in Hk. destruct Hk as [->| ->]; set_solver.
Qed.
End Engines.

(** ** A server that was started with preload *)

Section Serve.
Import Main.
Context {K : Type} `{!BaseKV K, !BaseKVLaws K} (GetHash : Z -> Z) (max_kv : Z) (use_sglist : bool).
Context (deliver : dsm_op -> gmap Z Z -> gmap Z Z) (partition : Z -> Z).

Lemma serves_loaded f cs dir p g order c config kv cap id self tid recv keys mem :
  select_db f = Ret c -> make_config f c dir p = Ret config ->
  (Factory.NewInstance cs (ch_db c) config).2 = Ret kv ->
  Postoffice.IsServer p = true -> Postoffice.ServerID p = Some id -> warm_capacity f = Ret cap ->
  0 <= cap < 2 ^ 31 - 37 -> 0 < ch_warmup c < 2 ^ 31 -> 4 <= value_size f <= 32 * 1024 ->
  preload f = true -> exit_ f = false -> check_all_inserted f = false -> 0 <= thread_num f <= Server.kMaxThread ->
  kv_holds kv ∅ ->
  let h := LoadDBHelper.Build_helper kv id (ch_warmup c) None cap in
  kv_room kv (value_size f) (LoadDBHelper.own_keys partition h 1 (cap + 1)) ->
  interleaving (LoadDBHelper.thread_puts partition h <$> seqZ 0 (ch_warmup c)) order ->
  slots_ok g -> (exists g', Epoch.Protect GetHash g self = Ret g') -> 0 <= tid < Server.kMaxThread ->
  copies deliver -> extra_data recv = encode 8 keys -> Z.of_nat (length keys) <= max_kv ->
  Forall (fun k => 1 <= k <= cap /\ partition k = id) keys ->
  exists s s' op, main partition f cs dir p g order = Ret (Serving s) /\
    Server.RpcPsGet GetHash max_kv use_sglist s self tid recv = Ret (s', op) /\
    let bytes := concat (LoadDBHelper.embedding (value_size f) <$> keys) in
    deliver op mem = write_bytes mem (receive_gaddr recv) bytes /\
    Z.of_nat (length bytes) = value_size f * Z.of_nat (length keys).
Proof.
  intros Hsel Hcfg Hkv HS Hid Hcap Hc Hw Hvs Hpre Hex Hchk Htn Hemp h Hroom Hord Hg Hprot Htid HD He Hmax Hk.
  assert (Hv : value_size_ok (value_size f)) by (unfold value_size_ok; lia).
  assert (Hsz : sizes_ok h (LoadDBHelper.warm_thread_count_ h)) by (unfold sizes_ok; cbn; lia).
  assert (Hend : LoadDBHelper.end_ h = cap + 1) by (apply (end_eq h _ Hsz)).
  destruct (PreLoad_Check (value_size f) partition h ∅ order) as (h' & HP & HC' & HCk); try done; try (cbn; lia).
  { by rewrite Hend. }
  assert (Hmain : exists s, main partition f cs dir p g order = Ret (Serving s) /\ Server.base_kv_ s = LoadDBHelper.kv_ h' /\
            Server.epoch_manager_ s = g /\ Server.tp s = replicate (Z.to_nat Server.kMaxThread) 0).
  { unfold main. rewrite Hsel. cbn [mbind outcome_bind]. rewrite Hcfg. cbn [mbind outcome_bind]. rewrite Hkv.
    cbn [mbind outcome_bind]. rewrite HS, Hcap. cbn [mbind outcome_bind]. unfold LoadDBHelper.make. rewrite HS, Hid.
    cbn [CHECK deref mbind outcome_bind]. unfold load. rewrite Hpre, Hchk, Hex. cbn [mbind outcome_bind]. fold h. rewrite HP.
    cbn [mbind outcome_bind]. rewrite HCk. cbn [mbind outcome_bind]. unfold Server.make. rewrite CHECK_leb by lia.
    cbn [mbind outcome_bind]. by eexists. }
  destruct Hmain as (s & HM & Hbs & Hes & Hts).
  assert (Hload : Forall (fun k => load_map (value_size f) ∅ (LoadDBHelper.own_keys partition h LoadDBHelper.start (LoadDBHelper.end_ h)) !! k =
                     Some (LoadDBHelper.embedding (value_size f) k)) keys).
  { eapply Forall_impl; [exact Hk|]. intros k [Hr Hp]. cbn beta. rewrite (load_map_lookup _ partition), decide_True; [done|].
    unfold LoadDBHelper.own_keys. apply list_elem_of_filter. split; [done|]. apply elem_of_seqZ. rewrite Hend.
    unfold LoadDBHelper.start. lia. }
  rewrite <- Hbs in HC'.
  destruct (RpcPsGet_delivers GetHash max_kv use_sglist deliver s self tid recv keys _ HD HC') as (s' & op & HR & Hop & _).
  - unfold serving. rewrite Hes, Hts. split; [done|]. split; [|done]. apply lookup_lt_is_Some_2. rewrite length_replicate. lia.
  - done.
  - eapply Forall_impl; [exact Hk|]. cbn. intros k [? _]. lia.
  - done.
  - exists s, s', op. split; [exact HM|]. split; [exact HR|]. cbn zeta. split.
    + rewrite Hop. do 2 f_equal. unfold values_of. apply list_fmap_ext. intros i k Hik.
      by rewrite (Forall_lookup_1 _ _ _ _ Hload Hik).
    + apply (concat_vals_length (value_size f)). intros k. by apply embedding_length.
Qed.
(** From the start to an answer: a server process that is started with
    preload, on an engine that opens empty and has room for the keys of the
    server, ends up serving (loading and checking succeed, for every
    interleaving of the loading threads), and a GET of at most
    max_kv_num_per_request keys between 1 and the warm-up capacity that belong
    to this server puts their embeddings, one after the other, into the buffer
    of the client. *)
Theorem main_serves_loaded f cs dir p g order c config kv cap id self tid recv keys mem :
  select_db f = Ret c -> make_config f c dir p = Ret config ->
  (Factory.NewInstance cs (ch_db c) config).2 = Ret kv ->
  Postoffice.IsServer p = true -> Postoffice.ServerID p = Some id -> warm_capacity f = Ret cap ->
  0 <= cap < 2 ^ 31 - 37 -> 0 < ch_warmup c < 2 ^ 31 -> 4 <= value_size f <= 32 * 1024 ->
  preload f = true -> exit_ f = false -> check_all_inserted f = false -> 0 <= thread_num f <= Server.kMaxThread ->
  kv_holds kv ∅ ->
  let h := LoadDBHelper.Build_helper kv id (ch_warmup c) None cap in
  kv_room kv (value_size f) (LoadDBHelper.own_keys partition h 1 (cap + 1)) ->
  interleaving (LoadDBHelper.thread_puts partition h <$> seqZ 0 (ch_warmup c)) order ->
  slots_ok g -> (exists g', Epoch.Protect GetHash g self = Ret g') -> 0 <= tid < Server.kMaxThread ->
  copies deliver -> extra_data recv = encode 8 keys -> Z.of_nat (length keys) <= max_kv ->
  Forall (fun k => 1 <= k <= cap /\ partition k = id) keys ->
  exists s s' op, main partition f cs dir p g order = Ret (Serving s) /\
    Server.RpcPsGet GetHash max_kv use_sglist s self tid recv = Ret (s', op) /\
    let bytes := concat (LoadDBHelper.embedding (value_size f) <$> keys) in
    deliver op mem = write_bytes mem (receive_gaddr recv) bytes /\
    Z.of_nat (length bytes) = value_size f * Z.of_nat (length keys).
Proof. apply serves_loaded. Qed.
End Serve.

(** ** A server on the map engine *)

Section Concrete.
Import Main.
#[local] Existing Instance map_base.
#[local] Existing Instance map_base_laws.

(** Server 1 of two, with the keys from 1 to 8: the ratio is 2^-17. *)
Definition map_flags : Flags :=
  {| db := "KVEngineMap"; key_space_m := 1; warmup_ratio := S754_finite false 4503599627370496 (-69);
     warmup_thread_num := 36; thread_num := 2; preload := true; check_all_inserted := false; use_dram := false;
     exit_ := false; value_size := 64 |}.

Definition map_creators : gmap string (option (BaseKVConfig -> outcome KVEngineMap.kv)) :=
  Factory.register ∅ "KVEngineMap" (fun _ => Ret map_engine).

Definition server_1 : Postoffice.postoffice :=
  {| Postoffice.num_servers_ := 2; Postoffice.num_clients_ := 1; Postoffice.global_id_ := 1;
     Postoffice.server_id_ := Some 1; Postoffice.client_id_ := None; Postoffice.actor_ := Postoffice.ACTOR_SERVER |}.

Definition map_choice : choice := Build_choice "KVEngineMap" 1 "unorderedMap-placeholder" None None.

Definition map_config : BaseKVConfig :=
  {| c_value_size := 64; hash_size := None; pool_size := None; num_threads := 2; capacity := 524288;
     path := "/dev/shm/petps_server1/unorderedMap-placeholder"; hash_name := "clht" |}.

Definition odd_puts : list (Z * Z) := [(1, 0); (3, 0); (5, 0); (7, 0)].

Lemma main_serves_loaded_witness :
  exists s s' op,
    main parity map_flags map_creators "/dev/shm/petps_server1/" server_1 (Epoch.make 64) odd_puts = Ret (Serving s) /\
    Server.RpcPsGet (fun x => x) 300 true s 5 0
      {| m_type := GET; node_id := 1; t_id := 0; receive_gaddr := 4096; extra_data := encode 8 [7; 3] |} = Ret (s', op) /\
    deliver_copy op ∅ =
      write_bytes ∅ 4096 (concat (LoadDBHelper.embedding 64 <$> [7; 3])).
Proof.
  destruct (main_serves_loaded (fun x => x) 300 true deliver_copy parity map_flags map_creators "/dev/shm/petps_server1/" server_1
              (Epoch.make 64) odd_puts map_choice map_config map_engine 8 1 5 0
              {| m_type := GET; node_id := 1; t_id := 0; receive_gaddr := 4096; extra_data := encode 8 [7; 3] |} [7; 3] ∅)
    as (s & s' & op & HM & HR & Hop & _).
  - done.
  - done.
  - done.
  - done.
  - done.
  - by_eval.
  - lia.
  - cbn; lia.
  - cbn; lia.
  - done.
  - done.
  - done.
  - unfold Server.kMaxThread. cbn; lia.
  - exact map_engine_holds.
  - by vm_compute.
  - cbn [ch_warmup map_choice]. change (seqZ 0 1) with [0]. cbn [fmap list_fmap].
    match goal with |- interleaving [?l] _ => change l with odd_puts end. apply interleaving_single.
  - intros t k H. done.
  - by eexists.
  - unfold Server.kMaxThread. lia.
  - exact deliver_copy_copies.
  - done.
  - cbn; lia.
  - repeat constructor; cbn; lia.
  - exists s, s', op. split; [exact HM|]. split; [exact HR|exact Hop].
Defined.

Definition fake_flags : Flags :=
  {| db := "KVEngineFakeKV"; key_space_m := 1; warmup_ratio := S754_finite false 4503599627370496 (-69);
     warmup_thread_num := 36; thread_num := 2; preload := false; check_all_inserted := false; use_dram := true;
     exit_ := false; value_size := 64 |}.

Lemma main_engines_witness :
  (exists s, main parity fake_flags (registered (fun _ => Err CheckFailed) (fun _ => Ret map_engine))
     "/dev/shm/petps_server1/" server_1 (Epoch.make 64) [] = Ret (Serving s)) /\
  db fake_flags ∈ ["KVEnginePetKV"; "KVEngineFakeKV"]%string.
Proof.
  assert (HM : exists s, main parity fake_flags (registered (fun _ => Err CheckFailed) (fun _ => Ret map_engine))
     "/dev/shm/petps_server1/" server_1 (Epoch.make 64) [] = Ret (Serving s)) by (eexists; reflexivity).
  split; [exact HM|]. destruct HM as [s HM].
  exact (main_engines parity fake_flags _ _ _ _ _ _ _ HM).
Defined.
End Concrete.
