(* ===== verification/KvBench.v ===== *)
(** * The benchmark of an engine (src/kv_engine/benchmark_kv_engine.cc)

    [main] chooses and creates an engine, loads it, makes a reader of keys for
    every thread, starts the threads, waits until all have announced
    themselves in [tp], lets them go with [start_flag], prints the growth of the
    counters every second and stops and joins the threads after
    [running_seconds] lines.  The threads and [main] share [tp], the two flags
    and the engine; a run is a list of events, one step of one of them each.

    The theorems here: which flags get as far as an engine, and that the keys of
    the readers are loaded keys.  [KvBenchRuns] is about the runs. *)

From stdpp Require Import base numbers list gmap strings.
From Stdlib Require Import ZArith Lia SpecFloat.
From S2P Require Import Prelude Doubles Zipf Ps PsSpec LoadDB ServerMain.

(** sample_reader.h *)
Class SampleReader (R : Type) := fillArray : R -> outcome (R * list Z).

#[export] Instance Zipfian_reader : SampleReader ZipfianSampleReader.reader := ZipfianSampleReader.fillArray.

Module KvBench.
Import Main.

Record Flags := Build_Flags {
  db : string;
  key_space_m : Z;
  dataset : string;
  warmup_ratio : spec_float;
  warmup_thread_num : Z;
  thread_num : Z;
  numa_id : Z;
  value_size : Z;
  zipf_theta : spec_float;
  running_seconds : Z;
  read_ratio : Z;
  batch_read_count : Z;
  preload : bool
}.

Definition kMaxThread : Z := 32.

(** ** The engine *)

(** The engine and the configuration, and whether the keys are shuffled. *)
Definition select_db (f : Flags) : outcome (choice * bool) :=
  let w := warmup_thread_num f in
  if String.eqb (db f) "KVEnginePersistDoubleShmKV" then Ret (Build_choice (db f) w "double-placeholder" None None, false)
  else if String.eqb (db f) "KVEnginePersistShmKV" then Ret (Build_choice (db f) w "kuai-placeholder" None None, false)
  else if String.eqb (db f) "KVEngineDash" then Ret (Build_choice (db f) w "dash-placeholder" None None, false)
  else if String.eqb (db f) "KVEngineCLHT" then
    Ret (Build_choice "HashAPI" w "CLHT-placeholder" (Some ("clht"%string, 40960)) (Some (32 * GB * 2)), false)
  else if String.eqb (db f) "KVEngineLevel" then
    Ret (Build_choice "HashAPI" w "Level-placeholder" (Some ("level"%string, 40960)) (Some (32 * GB * 2)), false)
  else if String.eqb (db f) "KVEngineClevel" then
    Ret (Build_choice "HashAPI" 1 "Clevel-placeholder" (Some ("clevel"%string, 40960)) (Some (32 * GB * 2)), false)
  else if String.eqb (db f) "KVEngineCCEH" then
    Ret (Build_choice "HashAPI" w "CCEH-placeholder" (Some ("cceh"%string, 4096)) (Some (32 * GB * 2)), false)
  else if String.eqb (db f) "KVEngineCCEHVM" then
    Ret (Build_choice "HashAPI" 1 "CCEH-placeholder" (Some ("ccehvm"%string, 4096)) (Some (32 * GB)), false)
  else if String.eqb (db f) "KVEngineMap" then Ret (Build_choice (db f) 1 "unorderedMap-placeholder" None None, false)
  else if String.eqb (db f) "KVEngineMapPM" then
    Ret (Build_choice (db f) 1 "unorderedMapPM-placeholder" None (Some (32 * GB)), false)
  else if String.eqb (db f) "KVEngineF14" then
    let many := 1 <? w in
    Ret (Build_choice (db f) (if many then 1 else w) "pethash-placeholder" None (Some (32 * GB)), many)
  else Err LogFatal.

(** The configuration; [path] is [/media/aep<numa_id>/]. *)
Definition make_config (f : Flags) (c : choice) (path : string) : BaseKVConfig :=
  {| c_value_size := value_size f; hash_size := snd <$> ch_hash c; pool_size := ch_pool c;
     num_threads := Z.max (thread_num f) (ch_warmup c); capacity := i64 (key_space_m f * 1024 * 1024);
     Main.path := path +:+ ch_path c; hash_name := default "clht"%string (fst <$> ch_hash c) |}.

(** [FLAGS_key_space_m * 1024 * 1024LL * FLAGS_warmup_ratio], an [int64_t] *)
Definition warm_capacity (f : Flags) : outcome Z :=
  i64_of_double (double_mul (double_of_Z (i64 (key_space_m f * 1024 * 1024))) (warmup_ratio f)).

(** [FLAGS_key_space_m * FLAGS_warmup_ratio], an [int] *)
Definition reader_space (f : Flags) : outcome Z :=
  int_of_double (double_mul (double_of_Z (key_space_m f)) (warmup_ratio f)).

(** The readers; [tscs] are the time stamps that their constructors read.  For
    any other data set main dies here (for [dataset] after it has made a reader of
    the files). *)
Fixpoint make_readers (f : Flags) (i : Z) (tscs : list Z) : outcome (list ZipfianSampleReader.reader) :=
  match tscs with
  | [] => Ret []
  | tsc :: tscs' =>
      _ ← (if String.eqb (dataset f) "zipfian" then Ret tt else Err LogFatal);
      space ← reader_space f;
      r ← ZipfianSampleReader.make i space (zipf_theta f) (batch_read_count f) tsc;
      rs ← make_readers f (i + 1) tscs';
      Ret (r :: rs)
  end.

(** ** The threads *)

Section Run.
Context {K R : Type} `{!BaseKV K, !SampleReader R} (f : Flags).

(** Where a thread is: before it announces itself, in the two waiting loops,
    before a batch is read, with the keys it has still to put, before the
    counter. *)
Inductive pc :=
  | Entered
  | Spinning
  | Looping
  | Getting (keys : list Z)
  | Putting (keys : list Z)
  | Counting
  | Returned.

#[global] Instance pc_eq_dec : EqDecision pc.
Proof. solve_decision. Defined.

Record thread := Build_thread { at_ : pc; sample : R }.

(** What the threads share; [reads] records what BatchGet returned to whom. *)
Record shared := Build_shared {
  tp : list Z;
  start_flag : bool;
  stop_flag : bool;
  base_kv : K;
  reads : list (nat * list Z * list (list Z))
}.

Definition with_tp (s : shared) (l : list Z) : shared :=
  {| tp := l; start_flag := start_flag s; stop_flag := stop_flag s; base_kv := base_kv s; reads := reads s |}.
Definition with_flags (s : shared) (start stop : bool) : shared :=
  {| tp := tp s; start_flag := start; stop_flag := stop; base_kv := base_kv s; reads := reads s |}.
Definition with_kv (s : shared) (kv : K) : shared :=
  {| tp := tp s; start_flag := start_flag s; stop_flag := stop_flag s; base_kv := kv; reads := reads s |}.
Definition with_read (s : shared) (x : nat * list Z * list (list Z)) : shared :=
  {| tp := tp s; start_flag := start_flag s; stop_flag := stop_flag s; base_kv := base_kv s; reads := reads s ++ [x] |}.

(** [thread_run]; a step is atomic, as are [BatchGet] and [Put] ([tp] is a plain
    array in the source, and relies on that).  [rand] is [rand32(100)], [value]
    the next random string.  The vector of keys cannot have a negative size. *)
Definition thread_step (tid : nat) (rand : Z) (value : list Z) (s : shared) (t : thread) : outcome (shared * thread) :=
  let goto p := {| at_ := p; sample := sample t |} in
  match at_ t with
  | Entered => _ ← deref (tp s !! tid); Ret (with_tp s (<[tid := 0]> (tp s)), goto Spinning)
  | Spinning =>
      if start_flag s then (if batch_read_count f <? 0 then Err CheckFailed else Ret (s, goto Looping)) else Ret (s, t)
  | Looping =>
      if stop_flag s then Ret (s, goto Returned)
      else
        '(r, keys) ← fillArray (sample t);
        Ret (s, {| at_ := if rand <? u32 (read_ratio f) then Getting keys else Putting keys; sample := r |})
  | Getting keys =>
      values ← kv_BatchGet (base_kv s) keys (Z.of_nat tid);
      Ret (with_read s (tid, keys, kv_binary_data (base_kv s) <$> values), goto Counting)
  | Putting [] => Ret (s, goto Counting)
  | Putting (key :: keys) =>
      kv ← kv_Put (base_kv s) key value (Z.of_nat tid);
      Ret (with_kv s kv, goto (Putting keys))
  | Counting => c ← deref (tp s !! tid); Ret (with_tp s (<[tid := u64 (c + 1)]> (tp s)), goto Looping)
  | Returned => Ret (s, t)
  end.

(** Where [main] is. *)
Inductive mpc :=
  | Clearing (i : nat)
  | Spawning (i : nat)
  | Checking
  | Awaiting (i : nat)
  | Releasing
  | Sleeping
  | Summing (i : nat) (all_tp : Z)
  | Joining (i : nat)
  | Exited.

#[global] Instance mpc_eq_dec : EqDecision mpc.
Proof. solve_decision. Defined.

(** [printed] are the values of [cap] that were printed. *)
Record world := Build_world {
  sh : shared;
  th : list (option thread);
  sample_readers : list R;
  main_at : mpc;
  pre_tp : Z;
  seconds : Z;
  printed : list Z
}.

Definition move (w : world) (s : shared) (p : mpc) : world :=
  {| sh := s; th := th w; sample_readers := sample_readers w; main_at := p; pre_tp := pre_tp w; seconds := seconds w;
     printed := printed w |}.
Definition with_th (w : world) (s : shared) (l : list (option thread)) (p : mpc) : world :=
  {| sh := s; th := l; sample_readers := sample_readers w; main_at := p; pre_tp := pre_tp w; seconds := seconds w;
     printed := printed w |}.
Definition print (w : world) (s : shared) (all_tp : Z) (p : mpc) : world :=
  {| sh := s; th := th w; sample_readers := sample_readers w; main_at := p; pre_tp := all_tp;
     seconds := seconds w + 1; printed := printed w ++ [u64 (all_tp - pre_tp w)] |}.

(** A loop [for (int i = 0; i < FLAGS_thread_num; i++)] goes on. *)
Definition more (i : nat) : bool := Z.of_nat i <? thread_num f.

Definition main_step (w : world) : outcome world :=
  let s := sh w in
  match main_at w with
  | Clearing i =>
      if more i then _ ← deref (tp s !! i); Ret (move w (with_tp s (<[i := u64_max]> (tp s))) (Clearing (S i)))
      else Ret (move w s (Spawning 0))
  | Spawning i =>
      if more i then
        r ← deref (sample_readers w !! i);
        _ ← deref (th w !! i);
        Ret (with_th w s (<[i := Some {| at_ := Entered; sample := r |}]> (th w)) (Spawning (S i)))
      else Ret (move w s Checking)
  | Checking => _ ← CHECK (thread_num f <=? kMaxThread); Ret (move w s (Awaiting 0))
  | Awaiting i =>
      if more i then c ← deref (tp s !! i); Ret (if c =? 0 then move w s (Awaiting (S i)) else w)
      else Ret (move w s Releasing)
  | Releasing => Ret (move w (with_flags s true (stop_flag s)) Sleeping)
  | Sleeping => Ret (move w s (Summing 0 0))
  | Summing i all_tp =>
      if more i then c ← deref (tp s !! i); Ret (move w s (Summing (S i) (u64 (all_tp + c))))
      else if seconds w =? 2 ^ 31 - 1 then Err Undefined
      else if seconds w + 1 =? running_seconds f then Ret (print w (with_flags s (start_flag s) true) all_tp (Joining 0))
      else Ret (print w s all_tp Sleeping)
  | Joining i =>
      if more i then
        o ← deref (th w !! i);
        t ← deref o;
        Ret (match at_ t with Returned => move w s (Joining (S i)) | _ => w end)
      else Ret (move w s Exited)
  | Exited => Ret w
  end.

(** One step of [main], or of a thread that has been started. *)
Inductive event := RunMain | RunThread (i : nat) (rand : Z) (value : list Z).

Definition step (w : world) (e : event) : outcome world :=
  match e with
  | RunMain => main_step w
  | RunThread i rand value =>
      match th w !! i with
      | Some (Some t) =>
          '(s, t) ← thread_step i rand value (sh w) t;
          Ret (with_th w s (<[i := Some t]> (th w)) (main_at w))
      | _ => Ret w
      end
  end.

Fixpoint run (w : world) (es : list event) : outcome world :=
  match es with
  | [] => Ret w
  | e :: es' => w ← step w e; run w es'
  end.

(** The process when the engine is loaded and the readers are made. *)
Definition start (kv : K) (readers : list R) : world :=
  {| sh := {| tp := replicate (Z.to_nat kMaxThread) 0; start_flag := false; stop_flag := false; base_kv := kv; reads := [] |};
     th := replicate (Z.to_nat kMaxThread) None; sample_readers := readers; main_at := Clearing 0; pre_tp := 0;
     seconds := 0; printed := [] |}.

(** [main] up to the threads; [Util] and [DebugInfo] print, and the flags of the
    register center are not part of the engine. *)
Definition prepare (partition : Z -> Z) (cs : gmap string (option (BaseKVConfig -> outcome K))) (path : string)
    (p : Postoffice.postoffice) (order : list (Z * Z)) : outcome K :=
  '(c, shuffle_load) ← select_db f;
  kv ← (Factory.NewInstance cs (ch_db c) (make_config f c path)).2;
  cap ← warm_capacity f;
  h ← LoadDBHelper.make kv p (ch_warmup c) cap;
  if preload f then
    h ← LoadDBHelper.PreLoadDB (value_size f) partition h shuffle_load order;
    _ ← LoadDBHelper.CheckDBLoad (value_size f) partition h;
    Ret (LoadDBHelper.kv_ h)
  else Ret kv.
End Run.
Arguments thread : clear implicits.
Arguments shared : clear implicits.
Arguments world : clear implicits.
End KvBench.

Import KvBench.

(** ** Which engines can be benchmarked *)

Section Engines.
Context {K : Type} `{!BaseKV K} (partition : Z -> Z).

Lemma select_db_unregistered f c b :
  select_db f = Ret (c, b) -> Main.ch_db c <> "KVEnginePetKV"%string /\ Main.ch_db c <> "KVEngineFakeKV"%string.
Proof.
  unfold select_db. intros H.
  repeat match type of H with (if String.eqb ?x ?y then _ else _) = _ =>
    destruct (String.eqb_spec x y) as [E|_];
    [injection H as <- <-; cbn [Main.ch_db]; rewrite ?E; split; discriminate|] end.
  done.
Qed.

(** Without PMEM the benchmark has nothing to measure: whatever the flags,
    main ends before the engine is loaded, because none of the engine names that
    it accepts is one of the two engines that kv_engine_register.cc registers. *)
Theorem bench_has_no_engine f pet fake path p order kv :
  prepare f partition (registered pet fake) path p order <> Ret kv.
Proof.
  unfold prepare. destruct (select_db f) as [[c b]|] eqn:Hs; [|done]. cbn [mbind outcome_bind].
  destruct (Factory.NewInstance _ _ _).2 as [kv'|] eqn:Hk; [|done].
  apply NewInstance_registered in Hk. apply select_db_unregistered in Hs. naive_solver.
Qed.
End Engines.

(** ** The keys of the readers *)

(** The two products of the key space and the ratio: the readers never ask for
    more keys than were loaded. *)
Lemma reader_space_le f my ey M cap :
  0 < key_space_m f < 2 ^ 33 -> warmup_ratio f = S754_finite false my ey -> -1000 <= Zdigits2 (Zpos my) + ey ->
  reader_space f = Ret M -> 0 < M -> warm_capacity f = Ret cap -> M * 2 ^ 20 <= cap.
Proof.
  intros Hk Hr Hy HM HM0 Hc. unfold reader_space, warm_capacity in *. rewrite Hr in *.
  replace (key_space_m f * 1024 * 1024) with (key_space_m f * 2 ^ 20) in Hc by lia. rewrite i64_small in Hc by lia.
  destruct (double_mul (double_of_Z (key_space_m f)) _) as [s|s| |s m e] eqn:EP; cbn in HM; try done; [simplify_eq; lia|].
  assert (s = false) as ->.
  { destruct (double_of_Z_finite (key_space_m f)) as (mx & ex & Hx & _); [lia|]. rewrite Hx in EP.
    exact (binary_round_sign _ _ _ _ _ _ _ EP). }
  destruct (_ && _) eqn:Hb; [|done]. b2p. injection HM as HM.
  assert (He : e + 20 <= 971).
  { destruct (0 <=? e) eqn:E; b2p; [|lia]. rewrite Z.shiftl_mul_pow2 in * by lia.
    assert (2 ^ e < 2 ^ 31) by nia. apply Z.pow_lt_mono_r_iff in H1; lia. }
  rewrite (double_mul_scale _ _ _ m e) in Hc by done. cbn in Hc. destruct (_ && _) in Hc; [|done].
  injection Hc as Hc. rewrite <- HM, <- Hc. clear.
  destruct (0 <=? e) eqn:E; b2p.
  - rewrite (proj2 (Z.leb_le _ _)) by lia. rewrite !Z.shiftl_mul_pow2, Z.pow_add_r by lia. lia.
  - rewrite Z.shiftr_div_pow2 by lia. destruct (0 <=? e + 20) eqn:E'; b2p.
    + rewrite Z.shiftl_mul_pow2 by lia. transitivity (Zpos m / 2 ^ (- e) * (2 ^ (- e) * 2 ^ (e + 20))).
      { rewrite <- Z.pow_add_r by lia. by replace (- e + (e + 20)) with 20 by lia. }
      rewrite Z.mul_assoc. apply Z.mul_le_mono_nonneg_r; [apply Z.pow_nonneg; lia|].
      rewrite Z.mul_comm. apply Z.mul_div_le, Z.pow_pos_nonneg; lia.
    + rewrite Z.shiftr_div_pow2 by lia.
      replace (- e) with (- (e + 20) + 20) by lia. rewrite Z.pow_add_r by lia.
      set (P := 2 ^ (- (e + 20))). assert (0 < P) by (apply Z.pow_pos_nonneg; lia).
      rewrite <- Z.div_div by lia. rewrite Z.mul_comm. apply Z.mul_div_le. lia.
Qed.

Lemma make_readers_nth f i tscs rs j r :
  make_readers f i tscs = Ret rs -> rs !! j = Some r ->
  exists tsc M, tscs !! j = Some tsc /\ reader_space f = Ret M /\
    ZipfianSampleReader.make (i + Z.of_nat j) M (zipf_theta f) (batch_read_count f) tsc = Ret r.
Proof.
  revert i rs j. induction tscs as [|tsc tscs IH]; intros i rs j H Hj; cbn [make_readers] in H; [by simplify_eq|].
  inv_ret. destruct j as [|j]; cbn [lookup list_lookup] in *.
  - simplify_eq. eexists _, _. rewrite Z.add_0_r. done.
  - destruct (IH (i + 1) _ j H2 Hj) as (t & M & ? & ? & ?). exists t, M.
    replace (i + Z.of_nat (S j)) with (i + 1 + Z.of_nat j) by lia. done.
Qed.

(** A mode in which all keys are in the key space. *)
Lemma plain_not_zero th :
  SFeqb th (double_of_Z (-1)) || SFleb (double_of_Z 40) th = true -> SFeqb th (double_of_Z 0) = false.
Proof.
  replace (double_of_Z (-1)) with (S754_finite true 4503599627370496 (-52)) by by_eval.
  replace (double_of_Z 0) with (S754_zero false) by by_eval.
  replace (double_of_Z 40) with (S754_finite false 5629499534213120 (-47)) by by_eval.
  destruct th as [s|[]| |[] m e]; done.
Qed.

(** The readers that main makes ask for loaded keys only: although the size
    of their key space and the number of keys to load are two different roundings
    of the product of the key space and the ratio, every key of every batch is
    between 1 and the number of keys that LoadDBHelper loads (in the modes of the
    generator without the approximation and without the uniform draw). *)
Theorem bench_keys_loaded f my ey M cap tscs rs j r :
  0 < key_space_m f < 2 ^ 33 -> warmup_ratio f = S754_finite false my ey -> -1000 <= Zdigits2 (Zpos my) + ey ->
  reader_space f = Ret M -> 0 < M -> warm_capacity f = Ret cap ->
  Forall (fun tsc => 0 <= tsc) tscs -> Z.of_nat (length tscs) < 2 ^ 31 ->
  make_readers f 0 tscs = Ret rs -> rs !! j = Some r ->
  SFeqb (zipf_theta f) (double_of_Z (-1)) || SFleb (double_of_Z 40) (zipf_theta f) = true ->
  exists r' keys, ZipfianSampleReader.fillArray r = Ret (r', keys) /\
    length keys = Z.to_nat (batch_read_count f) /\ Forall (fun key => 1 <= key <= cap) keys.
Proof.
  intros Hk Hr Hy HM HM0 Hc Ht Hl Hmk Hj Hth0.
  pose proof (reader_space_le f my ey M cap Hk Hr Hy HM HM0 Hc) as Hle.
  destruct (make_readers_nth _ _ _ _ _ _ Hmk Hj) as (tsc & M' & Htsc & HM' & Hr').
  rewrite HM in HM'. injection HM' as <-. pose proof (lookup_lt_Some _ _ _ Htsc) as Hlt.
  pose proof (Forall_lookup_1 _ _ _ _ Ht Htsc) as Ht0. cbn in Ht0.
  destruct (Zipfian_make_ok (0 + Z.of_nat j) M _ _ _ _ HM0 ltac:(lia) Ht0 Hr') as (Hok & Hn & Hth & Hnr).
  pose proof (plain_not_zero _ Hth0) as H0.
  destruct (fillArray_plain r Hok) as (r' & keys & HF & _ & _ & _ & _ & Hlen & Hks).
  { unfold plain. rewrite Hth, H0, orb_false_r. exact Hth0. }
  exists r', keys. rewrite Hth, H0, Hn, Z.add_0_r in Hks. rewrite Hnr in Hlen. split_and!; [done|done|].
  eapply Forall_impl; [exact Hks|]. cbn. lia.
Qed.

(** ** Concrete flags *)

Definition bench_flags (threads : Z) : Flags :=
  {| db := "KVEngineMap"; key_space_m := 1; dataset := "zipfian"; warmup_ratio := double_of_Z 1; warmup_thread_num := 1;
     thread_num := threads; numa_id := 0; value_size := 64; zipf_theta := double_of_Z (-1); running_seconds := 1;
     read_ratio := 100; batch_read_count := 2; preload := true |}.

Definition made_readers : list ZipfianSampleReader.reader :=
  match make_readers (bench_flags 2) 0 [5; 6] with Ret l => l | Err _ => [] end.

Lemma bench_keys_loaded_witness :
  exists r r' keys, made_readers !! 1%nat = Some r /\ ZipfianSampleReader.fillArray r = Ret (r', keys) /\
    length keys = 2%nat /\ Forall (fun key => 1 <= key <= 1048576) keys.
Proof.
  assert (E : exists l, make_readers (bench_flags 2) 0 [5; 6] = Ret l /\ exists r, l !! 1%nat = Some r)
    by (eexists; split; [vm_compute; reflexivity|by eexists]).
  destruct E as (l & Hl & r & Hr).
  destruct (bench_keys_loaded (bench_flags 2) 4503599627370496 (-52) 1 1048576 [5; 6] l 1 r) as (r' & keys & H1 & H2 & H3);
    [cbn; lia|by_eval|cbn; lia|by_eval|lia|by_eval|repeat constructor; lia|cbn; lia|exact Hl|exact Hr|by_eval|].
  exists r, r', keys. unfold made_readers. rewrite Hl. split; [exact Hr|]. split; [exact H1|]. split; [exact H2|exact H3].
Defined.
