(* ===== verification/KvBenchRuns.v ===== *)
(** * Runs of the benchmark of an engine

    The invariant of [KvBench.run] and what follows from it for every order of
    the steps of main and of the threads: a thread asks the engine for nothing
    before all threads are ready; in a run that only reads no step fails and every
    read returns what was loaded; the printed lines add up to batches that were
    read; the process can always come to its end. *)

From stdpp Require Import base numbers list gmap strings.
From Stdlib Require Import ZArith Lia SpecFloat.
From S2P Require Import Prelude Doubles Zipf Engines EnginesSpec Ps PsSpec KvBench.
Import KvBench.

(** ** Runs *)

Notation zsum := (sumZ (fun c : Z => c)).

Lemma zsum_nonneg l : Forall (fun c => 0 <= c) l -> 0 <= zsum l.
Proof. intros Hl. apply sumZ_nonneg. by apply Forall_forall. Qed.

Lemma zsum_zero l : Forall (fun c => c = 0) l -> zsum l = 0.
Proof. intros Hl. rewrite (sumZ_const _ _ 0); [lia|]. by apply Forall_forall. Qed.

Lemma zsum_lookup l i x : Forall (fun c => 0 <= c) l -> l !! i = Some x -> x <= zsum l.
Proof. intros Hl Hi. apply (sumZ_lookup (fun c => c) l i x); [|done]. by apply Forall_forall. Qed.

(** What [thread_run] relies on: batches come out, of keys in [P]. *)
Class SampleReaderLaws (R : Type) `{!SampleReader R} := {
  reader_ok : (Z -> Prop) -> R -> Prop;
  fillArray_ok P r : reader_ok P r -> exists r' keys, fillArray r = Ret (r', keys) /\ reader_ok P r' /\ Forall P keys
}.

(** A reader in a mode without the approximation. *)
Definition Zipfian_ok (P : Z -> Prop) (r : ZipfianSampleReader.reader) : Prop :=
  let st := ZipfianSampleReader.state r in
  zipf_ok st /\ plain st = true /\
  forall key, 1 <= key <= Zipf.n st + (if SFeqb (Zipf.theta st) (double_of_Z 0) then 1 else 0) -> P key.

Lemma Zipfian_fill P r :
  Zipfian_ok P r -> exists r' keys, fillArray r = Ret (r', keys) /\ Zipfian_ok P r' /\ Forall P keys.
Proof.
  intros (Hok & Hp & HP). destruct (fillArray_plain r Hok Hp) as (r' & keys & HF & Hok' & Hn & Ht & _ & _ & Hk).
  exists r', keys. split; [exact HF|]. unfold Zipfian_ok. rewrite Hn, Ht. split; [|by eapply Forall_impl].
  split_and!; [done| |exact HP]. unfold plain in *. by rewrite Ht.
Qed.

#[export] Instance Zipfian_laws : SampleReaderLaws ZipfianSampleReader.reader :=
  {| reader_ok := Zipfian_ok; fillArray_ok := Zipfian_fill |}.

Section Runs.
Context {K R : Type} `{!BaseKV K, !SampleReader R, !SampleReaderLaws R} (f : Flags) (P : Z -> Prop).
Context (Hn : 0 <= thread_num f <= kMaxThread) (Hb : 0 <= batch_read_count f).

Notation world := (world K R).
Notation thread := (thread R).
Notation n := (Z.to_nat (thread_num f)).

Lemma more_spec i : more f i = true <-> (i < n)%nat.
Proof. unfold more. rewrite Z.ltb_lt. lia. Qed.

Lemma n_le : (n <= Z.to_nat kMaxThread)%nat.
Proof. lia. Qed.

(** How far [main] is: the threads that have been cleared, started, awaited and
    joined, and the two flags. *)
Definition cleared (m : mpc) : nat := match m with Clearing i => i | _ => n end.
Definition spawned (m : mpc) : nat := match m with Clearing _ => 0 | Spawning i => i | _ => n end.
Definition awaited (m : mpc) : nat :=
  match m with Clearing _ | Spawning _ | Checking => 0 | Awaiting i => i | _ => n end.
Definition joined (m : mpc) : nat := match m with Joining i => i | Exited => n | _ => 0 end.
Definition started (m : mpc) : bool := match m with Sleeping | Summing _ _ | Joining _ | Exited => true | _ => false end.
Definition stopped (m : mpc) : bool := match m with Joining _ | Exited => true | _ => false end.
Definition within (m : mpc) : Prop :=
  match m with
  | Clearing i | Spawning i | Awaiting i | Summing i _ | Joining i => (i <= n)%nat
  | _ => True
  end.

(** Where a thread can be, and what its counter is before it counts. *)
Definition thread_ok (tps : list Z) (m : mpc) (j : nat) (t : thread) : Prop :=
  reader_ok P (sample t) /\
  match at_ t with
  | Entered => tps !! j = Some u64_max /\ started m = false /\ (awaited m <= j)%nat
  | Spinning => tps !! j = Some 0 /\ (joined m <= j)%nat
  | Getting keys | Putting keys => started m = true /\ (joined m <= j)%nat /\ Forall P keys
  | Looping | Counting => started m = true /\ (joined m <= j)%nat
  | Returned => stopped m = true
  end.

Record world_ok (kv0 : K) (w : world) : Prop := {
  wo_within : within (main_at w);
  wo_tp : length (tp (sh w)) = Z.to_nat kMaxThread;
  wo_th : length (th w) = Z.to_nat kMaxThread;
  wo_readers : length (sample_readers w) = n /\ Forall (reader_ok P) (sample_readers w);
  wo_flags : start_flag (sh w) = started (main_at w) /\ stop_flag (sh w) = stopped (main_at w);
  wo_threads j o : th w !! j = Some o ->
    match o with
    | Some t => (j < spawned (main_at w))%nat /\ thread_ok (tp (sh w)) (main_at w) j t
    | None => (spawned (main_at w) <= j)%nat
    end;
  wo_cleared j : (spawned (main_at w) <= j < cleared (main_at w))%nat -> tp (sh w) !! j = Some u64_max;
  wo_store : started (main_at w) = false -> base_kv (sh w) = kv0 /\ reads (sh w) = []
}.

Lemma start_ok kv readers :
  length readers = n -> Forall (reader_ok P) readers -> world_ok kv (start kv readers).
Proof.
  intros Hl Hr. split; try done; cbn; [lia| |lia].
  intros j o Hj%lookup_replicate. destruct Hj as [-> _]. lia.
Qed.

(** A step of a thread that moves from [p] to [p']. *)
Lemma thread_moves kv0 (w : world) i t s' t' :
  world_ok kv0 w -> th w !! i = Some (Some t) ->
  length (tp s') = length (tp (sh w)) -> (forall j, j <> i -> tp s' !! j = tp (sh w) !! j) ->
  start_flag s' = start_flag (sh w) -> stop_flag s' = stop_flag (sh w) ->
  (started (main_at w) = false -> base_kv s' = kv0 /\ reads s' = []) ->
  thread_ok (tp s') (main_at w) i t' ->
  world_ok kv0 (with_th w s' (<[i := Some t']> (th w)) (main_at w)).
Proof.
  intros [Hwi Htp Hth Hrd Hfl Htr Hcl Hst] Hi Hlen Hne Hs1 Hs2 Hkv Ht.
  destruct (Htr i _ Hi) as [Hsp _]. split; cbn; try done.
  - by rewrite Hlen.
  - by rewrite length_insert.
  - by rewrite Hs1, Hs2.
  - intros j o Hj. destruct (decide (j = i)) as [->|Hji].
    + rewrite list_lookup_insert_eq in Hj by (by eapply lookup_lt_Some). by simplify_eq.
    + rewrite list_lookup_insert_ne in Hj by done. specialize (Htr j o Hj). destruct o as [t0|]; [|done].
      destruct Htr as [Hlt [Hok Hat]]. split; [done|]. split; [done|].
      destruct (at_ t0); rewrite ?Hne by done; done.
  - intros j Hj. rewrite Hne by lia. by apply Hcl.
Qed.

Lemma vacuous (b : bool) (X : Prop) : b = true -> b = false -> X.
Proof. by intros ->. Qed.

Definition event_ok (e : event) : Prop := match e with RunMain => True | RunThread _ rand _ => 0 <= rand < 100 end.

Lemma thread_step_ok kv0 (w : world) i rand value t s' t' :
  world_ok kv0 w -> th w !! i = Some (Some t) -> thread_step f i rand value (sh w) t = Ret (s', t') ->
  world_ok kv0 (with_th w s' (<[i := Some t']> (th w)) (main_at w)).
Proof.
  intros Hw Hi Hs. pose proof (wo_threads _ _ Hw i _ Hi) as [Hsp [Hok Hat]].
  destruct (wo_flags _ _ Hw) as [Hfs Hfp].
  assert (Hil : (i < length (tp (sh w)))%nat).
  { rewrite (wo_tp _ _ Hw), <- (wo_th _ _ Hw). by eapply lookup_lt_Some. }
  unfold thread_step in Hs. destruct (at_ t) as [| | |keys|[|key keys]| |] eqn:Ea; cbv beta iota zeta in Hs.
  - inv_ret. eapply thread_moves; try done; cbn [tp with_tp].
    + apply length_insert.
    + intros j Hj. by apply list_lookup_insert_ne.
    + apply (wo_store _ _ Hw).
    + split; [done|]. cbn. rewrite list_lookup_insert_eq by done. split; [done|].
      destruct (main_at w); cbn in *; try lia; naive_solver.
  - destruct (start_flag (sh w)) eqn:Es; [destruct (_ <? _); [done|]|]; simplify_eq/=;
      (eapply thread_moves; try done; [apply (wo_store _ _ Hw)|split; [done|]]); cbn; [naive_solver|by rewrite Ea].
  - destruct (stop_flag (sh w)) eqn:Es.
    + simplify_eq/=. eapply thread_moves; try done. apply (wo_store _ _ Hw).
    + destruct (fillArray_ok P _ Hok) as (r' & keys & HF & Hr' & HP). rewrite HF in Hs. cbn [mbind outcome_bind] in Hs.
      simplify_eq/=. eapply thread_moves; try done; [apply (wo_store _ _ Hw)|split; [done|]].
      cbn [at_]. destruct (_ <? _); naive_solver.
  - inv_ret. eapply thread_moves; try done; [exact (vacuous _ _ (proj1 Hat))|split; [done|]]. naive_solver.
  - simplify_eq/=. eapply thread_moves; try done; [exact (vacuous _ _ (proj1 Hat))|split; [done|]]. naive_solver.
  - inv_ret. eapply thread_moves; try done; [exact (vacuous _ _ (proj1 Hat))|split; [done|]]. cbn.
    destruct Hat as (? & ? & HF). inversion HF. done.
  - inv_ret. eapply thread_moves; try done; cbn [tp with_tp].
    + apply length_insert.
    + intros j Hj. by apply list_lookup_insert_ne.
    + exact (vacuous _ _ (proj1 Hat)).
  - simplify_eq/=. eapply thread_moves; try done; [apply (wo_store _ _ Hw)|split; [done|]]. by rewrite Ea.
Qed.

(** A step of [main] that leaves the counters and the threads. *)
Lemma main_moves kv0 (w w' : world) :
  world_ok kv0 w -> th w' = th w -> sample_readers w' = sample_readers w -> tp (sh w') = tp (sh w) ->
  base_kv (sh w') = base_kv (sh w) -> reads (sh w') = reads (sh w) ->
  within (main_at w') -> start_flag (sh w') = started (main_at w') -> stop_flag (sh w') = stopped (main_at w') ->
  spawned (main_at w') = spawned (main_at w) -> (cleared (main_at w') <= cleared (main_at w))%nat ->
  (started (main_at w') = false -> started (main_at w) = false) ->
  (forall j t, (j < spawned (main_at w))%nat -> th w !! j = Some (Some t) ->
    thread_ok (tp (sh w)) (main_at w) j t -> thread_ok (tp (sh w)) (main_at w') j t) ->
  world_ok kv0 w'.
Proof.
  intros [Hwi Htp Hth Hrd Hfl Htr Hcl Hst] E1 E2 E3 E4 E5 Hwi' Hs Hp Hsp Hc Hss Ht.
  split; rewrite ?E1, ?E2, ?E3, ?E4, ?E5, ?Hsp; try done; try lia.
  - intros j o Hj. specialize (Htr j o Hj). destruct o as [t|]; [|done]. destruct Htr. eauto.
  - intros j Hj. apply Hcl. lia.
  - auto.
Qed.

Lemma not_more i : more f i = false -> (n <= i)%nat.
Proof. intros H. assert (~ (i < n)%nat) by (rewrite <- more_spec; congruence). lia. Qed.

(** [tp[i][0] = -1], while there are no threads. *)
Lemma clear_ok kv0 (w : world) i x :
  world_ok kv0 w -> main_at w = Clearing i -> (i < n)%nat -> tp (sh w) !! i = Some x ->
  world_ok kv0 (move w (with_tp (sh w) (<[i := u64_max]> (tp (sh w)))) (Clearing (S i))).
Proof.
  intros [Hwi Htp Hth Hrd Hfl Htr Hcl Hst] Em Hi Hx. rewrite Em in *.
  split; cbn [main_at sh tp th sample_readers start_flag stop_flag base_kv reads move with_tp within started stopped]; try done.
  - by rewrite length_insert.
  - intros j o Hj. specialize (Htr j o Hj). destruct o; [cbn in Htr; lia|done].
  - intros j Hj. cbn in Hj, Hcl. destruct (decide (j = i)) as [->|Hne].
    + apply list_lookup_insert_eq. by eapply lookup_lt_Some.
    + rewrite list_lookup_insert_ne by done. apply Hcl. lia.
Qed.

(** [th[i] = std::thread(thread_run, i, ...)] *)
Lemma spawn_ok kv0 (w : world) i r :
  world_ok kv0 w -> main_at w = Spawning i -> (i < n)%nat -> sample_readers w !! i = Some r ->
  world_ok kv0 (with_th w (sh w) (<[i := Some {| at_ := Entered; sample := r |}]> (th w)) (Spawning (S i))).
Proof.
  intros [Hwi Htp Hth Hrd Hfl Htr Hcl Hst] Em Hi Hr. rewrite Em in *.
  split; cbn [main_at sh tp th sample_readers with_th within started stopped]; try done.
  - by rewrite length_insert.
  - intros j o Hj. cbn [spawned awaited joined] in *. destruct (decide (j = i)) as [->|Hne].
    + rewrite list_lookup_insert_eq in Hj by (pose proof n_le; lia). simplify_eq. split; [lia|].
      split; [by eapply Forall_lookup_1, Hr; apply Hrd|]. cbn. split_and!; [|done|lia]. apply Hcl. cbn. lia.
    + rewrite list_lookup_insert_ne in Hj by done. specialize (Htr j o Hj). destruct o; [|lia].
      destruct Htr as [Hlt Hok]. split; [lia|exact Hok].
  - intros j Hj. apply Hcl. cbn in *. lia.
Qed.

Lemma main_step_ok kv0 (w w' : world) : world_ok kv0 w -> main_step f w = Ret w' -> world_ok kv0 w'.
Proof.
  intros Hw Hs. destruct (wo_flags _ _ Hw) as [Hfs Hfp]. pose proof (wo_within _ _ Hw) as Hwi.
  unfold main_step in Hs.
  destruct (main_at w) as [i|i| |i| | |i acc|i|] eqn:Em; cbn [started stopped within] in *;
    try (destruct (more f i) eqn:Hm; [apply more_spec in Hm|apply not_more in Hm]); inv_ret; derefs.
  - by eapply clear_ok.
  - eapply main_moves; try done; rewrite ?Em; cbn; done || lia.
  - by eapply spawn_ok.
  - eapply main_moves; try done; rewrite ?Em; cbn; done || lia.
  - eapply main_moves; try done; rewrite ?Em; cbn; done || lia.
  - destruct (_ =? _) eqn:Ec; b2p; [|done]. subst.
    eapply main_moves; try done; rewrite ?Em; cbn; try done; try lia.
    intros j t Hj Ht [Hok Hat]. split; [done|]. destruct (at_ t); try done. cbn in *.
    assert (j <> i) by (intros ->; destruct Hat as [Hat _]; assert (u64_max = 0) by congruence; done).
    split_and!; [naive_solver|done|lia].
  - eapply main_moves; try done; rewrite ?Em; cbn; try done.
    intros j t Hj Ht [Hok Hat]. split; [done|]. destruct (at_ t); try done. cbn in *. lia.
  - eapply main_moves; try done; rewrite ?Em; cbn; try done.
    intros j t Hj Ht [Hok Hat]. split; [done|]. destruct (at_ t); try naive_solver. cbn in *. lia.
  - eapply main_moves; try done; rewrite ?Em; cbn; try done; try lia.
  - eapply main_moves; try done; rewrite ?Em; cbn; try done.
  - destruct (_ =? _); [done|]. destruct (_ =? _); inv_ret; (eapply main_moves; try done); rewrite ?Em; cbn; try done; try lia.
    intros j t Hj Ht [Hok Hat]. split; [done|]. destruct (at_ t); naive_solver.
  - rename x0 into t0. subst. destruct (at_ t0) eqn:Ea; try done.
    eapply main_moves; try done; rewrite ?Em; cbn; try done.
    intros j t Hj Ht [Hok Hat]. split; [done|]. destruct (decide (j = i)) as [->|Hne].
    + assert (t = t0) as -> by congruence. by rewrite Ea in *.
    + destruct (at_ t); naive_solver lia.
  - eapply main_moves; try done; rewrite ?Em; cbn; try done.
    intros j t Hj Ht [Hok Hat]. split; [done|]. destruct (at_ t); naive_solver lia.
  - done.
Qed.

Lemma step_ok kv0 (w w' : world) e : world_ok kv0 w -> step f w e = Ret w' -> world_ok kv0 w'.
Proof.
  intros Hw Hs. destruct e as [|i rand value]; cbn [step] in Hs; [by eapply main_step_ok|].
  destruct (th w !! i) as [[t|]|] eqn:Ei; [|by inv_ret|by inv_ret].
  inv_tuple. by eapply thread_step_ok.
Qed.

Lemma run_ok kv0 (w w' : world) es : world_ok kv0 w -> run f w es = Ret w' -> world_ok kv0 w'.
Proof.
  revert w. induction es as [|e es IH]; intros w Hw Hr; cbn [run] in Hr; inv_ret; [done|].
  eapply IH; [|done]. by eapply step_ok.
Qed.

Lemma all_spawned kv0 (w : world) i :
  world_ok kv0 w -> (i < spawned (main_at w))%nat -> exists t, th w !! i = Some (Some t).
Proof.
  intros Hw Hi. assert (Hl : (spawned (main_at w) <= n)%nat).
  { pose proof (wo_within _ _ Hw). destruct (main_at w); cbn in *; lia. }
  destruct (lookup_lt_is_Some_2 (th w) i) as [o Ho]; [rewrite (wo_th _ _ Hw); pose proof n_le; lia|].
  pose proof (wo_threads _ _ Hw i o Ho) as H. destruct o as [t|]; [by exists t|lia].
Qed.

Lemma bench_run_app (w : world) es1 es2 : run f w (es1 ++ es2) = (w ← run f w es1; run f w es2).
Proof.
  revert w. induction es1 as [|e es1 IH]; intros w; [done|]. cbn [app run]. destruct (step f w e); [apply IH|done].
Qed.

(** The start is a barrier: in every run, as long as start_flag is false the
    engine is as it was loaded and no thread has read from it, and when it is true
    every thread has announced itself, so that none starts late. *)
Theorem bench_start_barrier kv readers es (w : world) :
  length readers = n -> Forall (reader_ok P) readers -> run f (start kv readers) es = Ret w ->
  (start_flag (sh w) = false -> base_kv (sh w) = kv /\ reads (sh w) = []) /\
  (start_flag (sh w) = true -> forall i, (i < n)%nat -> exists t, th w !! i = Some (Some t) /\ at_ t <> Entered).
Proof.
  intros Hl Hr Hrun. pose proof (run_ok kv _ _ _ (start_ok kv readers Hl Hr) Hrun) as Hw.
  destruct (wo_flags _ _ Hw) as [-> _]. split; [apply (wo_store _ _ Hw)|]. intros Hs i Hi.
  destruct (all_spawned kv w i Hw) as [t Ht]; [by destruct (main_at w)|]. exists t. split; [done|]. intros Ea.
  destruct (wo_threads _ _ Hw i _ Ht) as [_ [_ Hat]]. rewrite Ea in Hat. naive_solver congruence.
Qed.

(** ** Runs that only read *)

Section ReadOnly.
Context `{!BaseKVLaws K} (kv0 : K) (C : gmap Z (list Z)).
Context (Hkv : kv_holds kv0 C) (Hro : 100 <= u32 (read_ratio f)) (Hsec : 0 < running_seconds f < 2 ^ 31).

Definition read_right (x : nat * list Z * list (list Z)) : Prop :=
  Forall P x.1.2 /\ x.2 = (fun k => default [] (C !! k)) <$> x.1.2.

Record read_only (w : world) : Prop := {
  ro_kv : base_kv (sh w) = kv0;
  ro_reads : Forall read_right (reads (sh w));
  ro_put j t keys : th w !! j = Some (Some t) -> at_ t <> Putting keys;
  ro_seconds : 0 <= seconds w /\ (if stopped (main_at w) then seconds w = running_seconds f else seconds w < running_seconds f);
  ro_printed : Z.of_nat (length (printed w)) = seconds w
}.

Lemma thread_progress (w : world) i rand value t :
  world_ok kv0 w -> read_only w -> th w !! i = Some (Some t) -> 0 <= rand < 100 ->
  exists s' t', thread_step f i rand value (sh w) t = Ret (s', t') /\ base_kv s' = kv0 /\
    Forall read_right (reads s') /\ (forall keys, at_ t' <> Putting keys).
Proof.
  intros Hw [Hk Hr Hp Hs Hpr] Hi Hrand. pose proof (wo_threads _ _ Hw i _ Hi) as [Hsp [Hok Hat]].
  destruct (lookup_lt_is_Some_2 (tp (sh w)) i) as [c Hc].
  { rewrite (wo_tp _ _ Hw), <- (wo_th _ _ Hw). by eapply lookup_lt_Some. }
  unfold thread_step. specialize (Hp i t). destruct (at_ t) as [| | |keys|keys| |] eqn:Ea; cbv beta iota zeta.
  - rewrite Hc. cbn [deref mbind outcome_bind]. by eexists _, _.
  - rewrite (proj2 (Z.ltb_ge _ _)) by lia. destruct (start_flag (sh w)); eexists _, _; [done|]. split_and!; try done.
    intros keys. by rewrite Ea.
  - destruct (stop_flag (sh w)); [by eexists _, _|]. destruct (fillArray_ok P _ Hok) as (r' & keys & -> & _).
    cbn [mbind outcome_bind]. rewrite (proj2 (Z.ltb_lt _ _)) by lia. by eexists _, _.
  - rewrite Hk. destruct (kv_BatchGet_law kv0 C keys (Z.of_nat i) Hkv) as (vs & -> & Hvs). cbn [mbind outcome_bind].
    eexists _, _. split; [done|]. cbn [base_kv reads with_read]. split_and!; [done| |done].
    apply Forall_app. split; [done|]. repeat constructor; cbn; [naive_solver|].
    clear -Hvs. induction Hvs as [|k a ks vs' Hka _ IH]; [done|]. cbn. by rewrite Hka, IH.
  - by destruct (Hp keys Hi).
  - rewrite Hc. cbn [deref mbind outcome_bind]. by eexists _, _.
  - eexists _, _. split_and!; try done. intros keys. by rewrite Ea.
Qed.

Lemma ro_move (w : world) s p :
  read_only w -> base_kv s = base_kv (sh w) -> reads s = reads (sh w) ->
  (if stopped p then seconds w = running_seconds f else seconds w < running_seconds f) -> read_only (move w s p).
Proof. intros [Hk Hr Hp [Hs0 Hs] Hpr] E1 E2 Hs'. split; cbn; by rewrite ?E1, ?E2. Qed.

Lemma ro_print (w : world) s all_tp p :
  read_only w -> base_kv s = base_kv (sh w) -> reads s = reads (sh w) ->
  (if stopped p then seconds w + 1 = running_seconds f else seconds w + 1 < running_seconds f) -> read_only (print w s all_tp p).
Proof.
  intros [Hk Hr Hp [Hs0 Hs] Hpr] E1 E2 Hs'. split; cbn; rewrite ?E1, ?E2; try done.
  - split; [lia|done].
  - rewrite length_app. cbn. lia.
Qed.

Lemma main_progress (w : world) :
  world_ok kv0 w -> read_only w -> exists w', main_step f w = Ret w' /\ read_only w'.
Proof.
  intros Hw Hro'. pose proof (ro_seconds _ Hro') as [Hs0 Hs]. pose proof n_le as Hnle.
  assert (Htp : forall i, (i < n)%nat -> exists c, tp (sh w) !! i = Some c).
  { intros i Hi. apply lookup_lt_is_Some_2. rewrite (wo_tp _ _ Hw). lia. }
  unfold main_step. destruct (main_at w) as [i|i| |i| | |i acc|i|] eqn:Em; cbn [stopped] in Hs;
    try (destruct (more f i) eqn:Hm; [apply more_spec in Hm; destruct (Htp i Hm) as [c Hc]; rewrite ?Hc|]);
    cbn [deref mbind outcome_bind]; try by (eexists; split; [done|by apply ro_move]).
  - destruct (lookup_lt_is_Some_2 (sample_readers w) i) as [r ->]; [by rewrite (proj1 (wo_readers _ _ Hw))|].
    destruct (lookup_lt_is_Some_2 (th w) i) as [o ->]; [rewrite (wo_th _ _ Hw); lia|].
    cbn [deref mbind outcome_bind]. eexists. split; [done|]. destruct Hro' as [Hk Hr Hp _ Hpr]. split; try done.
    cbn. intros j t keys Hj. destruct (decide (j = i)) as [->|Hne].
    + rewrite list_lookup_insert_eq in Hj by (rewrite (wo_th _ _ Hw); lia). by simplify_eq.
    + rewrite list_lookup_insert_ne in Hj by done. by eapply Hp.
  - rewrite CHECK_leb by lia. cbn [mbind outcome_bind]. eexists. split; [done|by apply ro_move].
  - eexists. split; [done|]. destruct (_ =? _); [by apply ro_move|done].
  - rewrite (proj2 (Z.eqb_neq _ _)) by lia. destruct (_ =? _) eqn:E; b2p;
      (eexists; split; [done|]; apply ro_print; try done). cbn; lia.
  - destruct (all_spawned kv0 w i Hw) as [t ->]; [by rewrite Em|]. cbn [deref mbind outcome_bind].
    eexists. split; [done|]. destruct (at_ t); try done. by apply ro_move.
  - by exists w.
Qed.

Lemma step_progress (w : world) e :
  world_ok kv0 w -> read_only w -> event_ok e -> exists w', step f w e = Ret w' /\ world_ok kv0 w' /\ read_only w'.
Proof.
  intros Hw Hr He. assert (Hx : exists w', step f w e = Ret w' /\ read_only w').
  { destruct e as [|i rand value]; cbn [step]; [by apply main_progress|].
    destruct (th w !! i) as [[t|]|] eqn:Ei; [|by exists w|by exists w].
    destruct (thread_progress w i rand value t Hw Hr Ei He) as (s' & t' & -> & Hk' & Hr' & Hp').
    cbn [mbind outcome_bind]. eexists. split; [done|]. destruct Hr as [Hk Hrr Hp Hs Hpr]. split; try done.
    cbn. intros j t0 keys Hj. destruct (decide (j = i)) as [->|Hne].
    - rewrite list_lookup_insert_eq in Hj by (by eapply lookup_lt_Some). by simplify_eq.
    - rewrite list_lookup_insert_ne in Hj by done. by eapply Hp. }
  destruct Hx as (w' & Hs & Hr'). exists w'. split_and!; [done|by eapply step_ok|done].
Qed.

Lemma run_progress (w : world) es :
  world_ok kv0 w -> read_only w -> Forall event_ok es ->
  exists w', run f w es = Ret w' /\ world_ok kv0 w' /\ read_only w'.
Proof.
  intros Hw Hr He. revert w Hw Hr. induction He as [|e es He _ IH]; intros w Hw Hr; [by exists w|].
  cbn [run]. destruct (step_progress w e Hw Hr He) as (w1 & -> & Hw1 & Hr1). cbn [mbind outcome_bind]. by apply IH.
Qed.

Lemma start_read_only readers : read_only (start kv0 readers).
Proof.
  split; cbn; try done; [|lia]. intros j t keys Hj%lookup_replicate. by destruct Hj.
Qed.

(** [C20] Reading only (read_ratio 100, the default): whatever the order of the
    steps of main and the threads, no step fails, the engine is never changed,
    and every batch that a thread reads has the keys of its reader and returns
    for each of them what was loaded. *)
Theorem bench_reads_loaded readers es :
  length readers = n -> Forall (reader_ok P) readers -> Forall event_ok es ->
  exists w, run f (start kv0 readers) es = Ret w /\ base_kv (sh w) = kv0 /\ Forall read_right (reads (sh w)).
Proof.
  intros Hl Hr He.
  destruct (run_progress _ es (start_ok kv0 readers Hl Hr) (start_read_only readers) He) as (w & Hw & _ & Hro').
  exists w. split_and!; [done|apply (ro_kv _ Hro')|apply (ro_reads _ Hro')].
Qed.

(** ** The end of a run *)

(** The steps that main has still to take. *)
Definition left (w : world) : nat :=
  let join := S n in
  let lines := Z.to_nat (running_seconds f - seconds w) in
  let release := S (lines * S (S n) + join) in
  match main_at w with
  | Clearing i => S (n - i) + (S n + S (S n + release))
  | Spawning i => S (n - i) + S (S n + release)
  | Checking => S (S n + release)
  | Awaiting i => S (n - i) + release
  | Releasing => release
  | Sleeping => lines * S (S n) + join
  | Summing i _ => S (n - i) + (lines - 1) * S (S n) + join
  | Joining i => S (n - i)
  | Exited => 0
  end.

(** What main waits for. *)
Definition blocked (w : world) : Prop :=
  match main_at w with
  | Awaiting i => (i < n)%nat /\ tp (sh w) !! i <> Some 0
  | Joining i => (i < n)%nat /\ exists t, th w !! i = Some (Some t) /\ at_ t <> Returned
  | Exited => True
  | _ => False
  end.

Lemma main_advances (w w' : world) :
  world_ok kv0 w -> read_only w -> ~ blocked w -> main_step f w = Ret w' -> (left w' < left w)%nat.
Proof.
  intros Hw Hr Hb' Hs. pose proof (wo_within _ _ Hw) as Hwi. pose proof (ro_seconds _ Hr) as [Hs0 Hs1].
  unfold main_step, blocked, left in *. cbv zeta.
  destruct (main_at w) as [i|i| |i| | |i acc|i|] eqn:Em; cbn [stopped within] in *;
    try (destruct (more f i) eqn:Hm; [apply more_spec in Hm|apply not_more in Hm]); inv_ret; derefs;
    cbn [main_at move with_th seconds]; try lia.
  - destruct (_ =? _) eqn:E; b2p; [cbn [main_at move seconds]; lia|]. destruct Hb'. split; [done|]. congruence.
  - destruct (Z.to_nat (running_seconds f - seconds w)) as [|l] eqn:El; [lia|]. cbn [Nat.mul]. rewrite Nat.sub_succ, !Nat.sub_0_r. lia.
  - destruct (seconds w =? 2 ^ 31 - 1); [done|].
    destruct (Z.to_nat (running_seconds f - seconds w)) as [|l] eqn:El; [lia|]. rewrite Nat.sub_succ, Nat.sub_0_r.
    destruct (seconds w + 1 =? _) eqn:E; b2p; inv_ret; cbn [main_at print seconds];
      [set (X := (l * S (S n))%nat); lia|].
    replace (Z.to_nat (running_seconds f - (seconds w + 1))) with l by lia. set (X := (l * S (S n))%nat). lia.
  - subst. destruct (at_ x0) eqn:Ea; cbn [main_at move]; try lia; destruct Hb'; (split; [done|]); exists x0; by rewrite Ea.
Qed.

(** The steps that a thread has still to take once it is to stop. *)
Definition rank (p : pc) : nat :=
  match p with Getting _ => 3 | Counting | Spinning => 2 | Looping => 1 | _ => 0 end.

Lemma thread_descends (w : world) i t :
  world_ok kv0 w -> read_only w -> th w !! i = Some (Some t) -> stopped (main_at w) = true -> at_ t <> Returned ->
  exists w' t', run f w [RunThread i 0 []] = Ret w' /\ main_at w' = main_at w /\ seconds w' = seconds w /\
    th w' !! i = Some (Some t') /\ (rank (at_ t') < rank (at_ t))%nat.
Proof.
  intros Hw Hr Hi Hst Ha. destruct (wo_flags _ _ Hw) as [Hf1 Hf2]. rewrite Hst in Hf2.
  assert (Hf : started (main_at w) = true) by (by destruct (main_at w)). rewrite Hf in Hf1.
  pose proof (wo_threads _ _ Hw i _ Hi) as [_ [_ Hat]]. rewrite Hf in Hat.
  destruct (thread_progress w i 0 [] t Hw Hr Hi) as (s' & t' & Ht & _ & _ & Hp); [lia|].
  exists (with_th w s' (<[i := Some t']> (th w)) (main_at w)), t'. cbn [run step]. rewrite Hi, Ht.
  cbn [mbind outcome_bind main_at seconds th with_th]. split_and!; try done.
  { apply list_lookup_insert_eq. by eapply lookup_lt_Some. }
  pose proof (ro_put _ Hr i t) as Hput. unfold thread_step in Ht. rewrite Hf1, Hf2 in Ht.
  destruct (at_ t) as [| | |keys|keys| |]; try done; cbv beta iota zeta in Ht.
  - naive_solver.
  - destruct (_ <? _); [done|]. simplify_eq/=. lia.
  - simplify_eq/=. lia.
  - inv_ret. cbn. lia.
  - by destruct (Hput keys Hi).
  - inv_ret. cbn. lia.
Qed.

Lemma thread_returns k (w : world) i t :
  (rank (at_ t) <= k)%nat -> world_ok kv0 w -> read_only w -> th w !! i = Some (Some t) -> stopped (main_at w) = true ->
  exists es w' t', Forall event_ok es /\ run f w es = Ret w' /\ main_at w' = main_at w /\ seconds w' = seconds w /\
    th w' !! i = Some (Some t') /\ at_ t' = Returned.
Proof.
  revert w t. induction k as [|k IH]; intros w t Hk Hw Hr Hi Hst;
    (destruct (decide (at_ t = Returned)) as [E|E]; [by exists [], w, t|]);
    destruct (thread_descends w i t Hw Hr Hi Hst E) as (w1 & t1 & H1 & Hm1 & Hs1 & Hi1 & Hlt); [lia|].
  assert (Hev : Forall event_ok [RunThread i 0 []]) by (repeat constructor; cbn; lia).
  destruct (run_progress w _ Hw Hr Hev) as (w1' & H1' & Hw1 & Hr1). rewrite H1 in H1'. injection H1' as <-.
  destruct (IH w1 t1 ltac:(lia) Hw1 Hr1 Hi1) as (es & w2 & t2 & He & H2 & Hm2 & Hs2 & Hi2 & Hret); [by rewrite Hm1|].
  exists ([RunThread i 0 []] ++ es), w2, t2. split_and!; try congruence; [by apply Forall_app|].
  by rewrite bench_run_app, H1.
Qed.

(** A thread that main awaits announces itself. *)
Lemma thread_announces (w : world) i :
  world_ok kv0 w -> read_only w -> main_at w = Awaiting i -> (i < n)%nat -> tp (sh w) !! i <> Some 0 ->
  exists w', run f w [RunThread i 0 []] = Ret w' /\ main_at w' = main_at w /\ seconds w' = seconds w /\
    tp (sh w') !! i = Some 0.
Proof.
  intros Hw Hr Em Hi Hne. destruct (all_spawned kv0 w i Hw) as [t Ht]; [by rewrite Em|].
  pose proof (wo_threads _ _ Hw i _ Ht) as [_ [_ Hat]]. rewrite Em in Hat. cbn [started stopped] in Hat.
  destruct (at_ t) as [| | |keys|keys| |] eqn:Ea; try naive_solver. destruct Hat as [Htp _].
  exists (with_th w (with_tp (sh w) (<[i := 0]> (tp (sh w)))) (<[i := Some {| at_ := Spinning; sample := sample t |}]> (th w)) (main_at w)).
  cbn [run step]. rewrite Ht. unfold thread_step. rewrite Ea, Htp. cbn [deref mbind outcome_bind]. split_and!; try done.
  cbn. apply list_lookup_insert_eq. by eapply lookup_lt_Some.
Qed.

Lemma unblock (w : world) :
  world_ok kv0 w -> read_only w -> main_at w <> Exited ->
  exists es w', Forall event_ok es /\ run f w es = Ret w' /\ left w' = left w /\ ~ blocked w'.
Proof.
  intros Hw Hr Hx.
  assert (Hid : ~ blocked w -> exists es w', Forall event_ok es /\ run f w es = Ret w' /\ left w' = left w /\ ~ blocked w').
  { intros H. by exists [], w. }
  destruct (main_at w) as [i|i| |i| | |i acc|i|] eqn:Em; try (apply Hid; unfold blocked; rewrite Em; by intros []).
  - destruct (decide ((i < n)%nat /\ tp (sh w) !! i <> Some 0)) as [[Hi Hc]|Hno];
      [|apply Hid; unfold blocked; rewrite Em; exact Hno].
    destruct (thread_announces w i Hw Hr Em Hi Hc) as (w' & H1 & Hm & Hs & Htp). exists [RunThread i 0 []], w'.
    split_and!; [repeat constructor; cbn; lia|done|unfold left; by rewrite Hm, Hs|].
    unfold blocked. rewrite Hm, Em. naive_solver.
  - destruct (decide (i < n)%nat) as [Hi|Hi]; [|apply Hid; unfold blocked; rewrite Em; naive_solver].
    destruct (all_spawned kv0 w i Hw) as [t Ht]; [by rewrite Em|].
    destruct (thread_returns _ w i t (le_n _) Hw Hr Ht) as (es & w' & t' & He & H1 & Hm & Hs & Ht' & Hret); [by rewrite Em|].
    exists es, w'. split_and!; [done|done|unfold left; by rewrite Hm, Hs|].
    unfold blocked. rewrite Hm, Em. intros [_ (t0 & Ht0 & Hne)]. congruence.
Qed.

Lemma finishes k (w : world) :
  (left w <= k)%nat -> world_ok kv0 w -> read_only w ->
  exists es w', Forall event_ok es /\ run f w es = Ret w' /\ main_at w' = Exited.
Proof.
  revert w. induction k as [k IH] using lt_wf_ind. intros w Hk Hw Hr.
  destruct (decide (main_at w = Exited)) as [E|E]; [by exists [], w|].
  destruct (unblock w Hw Hr E) as (es1 & w1 & He1 & H1 & Hl1 & Hb1).
  destruct (run_progress w es1 Hw Hr He1) as (w1' & H1' & Hw1 & Hr1). rewrite H1 in H1'. injection H1' as <-.
  destruct (main_progress w1 Hw1 Hr1) as (w2 & H2 & Hr2).
  pose proof (main_advances w1 w2 Hw1 Hr1 Hb1 H2) as Hlt.
  destruct (IH (left w2) ltac:(lia) w2 (le_n _)) as (es3 & w3 & He3 & H3 & E3); [by eapply main_step_ok|done|].
  exists (es1 ++ RunMain :: es3), w3. split_and!; [|by rewrite bench_run_app, H1; cbn [mbind outcome_bind run step]; rewrite H2|done].
  apply Forall_app. split; [done|]. by constructor.
Qed.

(** [C21] The benchmark can always come to its end: after any steps of a run that
    only reads there are further steps after which main has left its loops, every
    thread has returned and running_seconds lines have been printed.  In
    particular main cannot miss a thread that announces itself, and no thread
    is joined that cannot return. *)
Theorem bench_can_finish readers es (w : world) :
  length readers = n -> Forall (reader_ok P) readers -> Forall event_ok es -> run f (start kv0 readers) es = Ret w ->
  exists es' w', Forall event_ok es' /\ run f w es' = Ret w' /\ main_at w' = Exited /\
    (forall i, (i < n)%nat -> exists t, th w' !! i = Some (Some t) /\ at_ t = Returned) /\
    Z.of_nat (length (printed w')) = running_seconds f.
Proof.
  intros Hl Hr He Hrun.
  destruct (run_progress _ es (start_ok kv0 readers Hl Hr) (start_read_only readers) He) as (w0 & Hw0 & Hok & Hro').
  rewrite Hrun in Hw0. injection Hw0 as <-.
  destruct (finishes _ w (le_n _) Hok Hro') as (es' & w' & He' & Hrun' & Hex).
  destruct (run_progress w es' Hok Hro' He') as (w1 & Hw1 & Hok' & Hro1). rewrite Hrun' in Hw1. injection Hw1 as <-.
  exists es', w'. split_and!; try done.
  - intros i Hi. destruct (all_spawned kv0 w' i Hok') as [t Ht]; [by rewrite Hex|]. exists t. split; [done|].
    destruct (wo_threads _ _ Hok' i _ Ht) as [_ [_ Hat]]. rewrite Hex in Hat. cbn [started stopped joined awaited] in Hat.
    destruct (at_ t); [naive_solver|lia..|done].
  - rewrite (ro_printed _ Hro1). pose proof (ro_seconds _ Hro1) as [_ H]. by rewrite Hex in H.
Qed.

(** ** What is printed *)

(** A batch that has been read and not counted. *)
Definition pending (o : option thread) : Z :=
  match o with Some t => if decide (at_ t = Counting) then 1 else 0 | None => 0 end.

Lemma pending_idle t : at_ t <> Counting -> pending (Some t) = 0.
Proof. intros H. cbn. by rewrite decide_False. Qed.

Lemma pending_counting t : at_ t = Counting -> pending (Some t) = 1.
Proof. intros H. cbn. by rewrite decide_True. Qed.

Definition counters (w : world) : list Z := take n (tp (sh w)).

Record tally (w : world) : Prop := {
  ta_counters : started (main_at w) = true -> Forall (fun c => 0 <= c) (counters w);
  ta_sum : started (main_at w) = true ->
    zsum (counters w) + zsum (pending <$> th w) = Z.of_nat (length (reads (sh w)));
  ta_printed : zsum (printed w) = pre_tp w /\ Forall (fun c => 0 <= c) (printed w);
  ta_main : match main_at w with
            | Summing i acc => 0 <= acc <= zsum (take i (counters w)) /\ pre_tp w <= acc + zsum (drop i (counters w))
            | m => pre_tp w <= if started m then zsum (counters w) else 0
            end
}.

Lemma start_tally readers : tally (start kv0 readers).
Proof. by split. Qed.

Lemma pendings_nonneg l : Forall (fun c => 0 <= c) (pending <$> l).
Proof. apply Forall_fmap, Forall_true. intros [t|]; cbn; [destruct (decide _); lia|lia]. Qed.

Lemma pending_nonneg l : 0 <= zsum (pending <$> l).
Proof. apply zsum_nonneg, pendings_nonneg. Qed.

Lemma counters_length (w : world) : world_ok kv0 w -> length (counters w) = n.
Proof. intros Hw. unfold counters. rewrite length_take, (wo_tp _ _ Hw). pose proof n_le. lia. Qed.

Lemma sums_bounded (w : world) i :
  tally w -> started (main_at w) = true ->
  0 <= zsum (take i (counters w)) /\ 0 <= zsum (drop i (counters w)) /\
  zsum (take i (counters w)) + zsum (drop i (counters w)) <= Z.of_nat (length (reads (sh w))).
Proof.
  intros Ht Hs. pose proof (ta_counters _ Ht Hs) as Hc. pose proof (ta_sum _ Ht Hs) as Hsum.
  pose proof (pending_nonneg (th w)). rewrite <- (take_drop i (counters w)) in Hc, Hsum.
  apply Forall_app in Hc as [H1 H2]. rewrite sumZ_app in Hsum. apply zsum_nonneg in H1, H2. lia.
Qed.

(** A step of a thread changes the counters and the log as follows. *)
Lemma tally_thread (w : world) i t s' t' :
  world_ok kv0 w -> tally w -> th w !! i = Some (Some t) ->
  (started (main_at w) = true ->
    (tp s' = tp (sh w) /\ Z.of_nat (length (reads s')) - Z.of_nat (length (reads (sh w))) = pending (Some t') - pending (Some t)) \/
    (exists c, tp (sh w) !! i = Some c /\ tp s' = <[i := c + 1]> (tp (sh w)) /\ reads s' = reads (sh w) /\
      pending (Some t') = pending (Some t) - 1)) ->
  tally (with_th w s' (<[i := Some t']> (th w)) (main_at w)).
Proof.
  intros Hw Ht Hi Hs. pose proof Ht as [Hc Hsum Hp Hm].
  assert (Hin : (i < n)%nat).
  { destruct (wo_threads _ _ Hw i _ Hi) as [H _]. pose proof (wo_within _ _ Hw). destruct (main_at w); cbn in *; lia. }
  assert (Hpend : zsum (pending <$> <[i := Some t']> (th w)) =
      zsum (pending <$> th w) + pending (Some t') - pending (Some t)) by
    (rewrite list_fmap_insert, (sumZ_insert _ _ _ (pending (Some t))); [lia|by rewrite list_lookup_fmap, Hi]).
  destruct (started (main_at w)) eqn:Est; cycle 1.
  { split; cbn [main_at with_th sh]; rewrite ?Est; try done. destruct (main_at w); try done. }
  destruct (Hs eq_refl) as [[Etp Er]|(c & Htc & Etp & Er & Ep)].
  - unfold counters in *. split; unfold counters; cbn [main_at with_th sh th printed pre_tp]; rewrite ?Etp, ?Hpend; try done.
    + by intros _; apply Hc.
    + intros _. specialize (Hsum eq_refl). lia.
  - assert (Hci : counters w !! i = Some c) by (unfold counters; by rewrite lookup_take_lt).
    assert (Ec : counters (with_th w s' (<[i := Some t']> (th w)) (main_at w)) = <[i := c + 1]> (counters w)).
    { unfold counters. cbn [sh with_th]. rewrite Etp. by rewrite take_insert_lt. }
    pose proof (Forall_lookup_1 _ _ _ _ (Hc eq_refl) Hci) as Hc0. cbn in Hc0.
    assert (Hz : forall l j, l !! j = Some c -> zsum (<[j := c + 1]> l) = zsum l + 1).
    { intros l j Hj. rewrite (sumZ_insert _ _ _ c) by done. lia. }
    split; rewrite ?Ec; cbn [main_at with_th sh th printed pre_tp]; try done.
    + intros _. by apply Forall_insert; [apply Hc|lia].
    + intros _. rewrite Er, Hpend, Hz by done. specialize (Hsum eq_refl). lia.
    + destruct (main_at w) as [| | | | | |k acc| |]; try done; try (rewrite Hz by done; cbn in Hm |- *; lia).
      destruct (decide (i < k)%nat) as [Hik|Hik].
      * rewrite take_insert_lt, drop_insert_lt, Hz by (lia || by rewrite lookup_take_lt). lia.
      * rewrite take_insert_ge, drop_insert_ge, Hz by (lia || by rewrite lookup_drop, <- Hci; f_equal; lia). lia.
Qed.

(** A step that neither reads nor counts. *)
Lemma tally_idle (w : world) i t t' :
  world_ok kv0 w -> tally w -> th w !! i = Some (Some t) -> pending (Some t') = pending (Some t) ->
  tally (with_th w (sh w) (<[i := Some t']> (th w)) (main_at w)) /\ (length (reads (sh w)) <= S (length (reads (sh w))))%nat.
Proof. intros Hw Ht Hi Hp. split; [|lia]. eapply tally_thread; try done. intros _. left. split; [done|lia]. Qed.

Lemma thread_step_tally (w : world) i rand value t s' t' :
  world_ok kv0 w -> read_only w -> tally w -> th w !! i = Some (Some t) ->
  Z.of_nat (length (reads (sh w))) < 2 ^ 64 -> thread_step f i rand value (sh w) t = Ret (s', t') ->
  tally (with_th w s' (<[i := Some t']> (th w)) (main_at w)) /\ (length (reads s') <= S (length (reads (sh w))))%nat.
Proof.
  intros Hw Hr Ht Hi Hb' Hs. pose proof (wo_threads _ _ Hw i _ Hi) as [Hsp [_ Hat]].
  pose proof (ro_put _ Hr i t) as Hput. unfold thread_step in Hs.
  destruct (at_ t) as [| | |keys|keys| |] eqn:Ea; cbv beta iota zeta in Hs.
  - inv_ret. split; [|cbn; lia]. eapply tally_thread; try done. intros Hst. naive_solver congruence.
  - destruct (start_flag (sh w)); [destruct (_ <? _); [done|]|]; inv_ret; eapply tally_idle; try done.
    by rewrite !pending_idle by (cbn; congruence).
  - destruct (stop_flag (sh w)); inv_tuple; eapply tally_idle; try done; rewrite !pending_idle; cbn; try congruence.
    by destruct (_ <? _).
  - inv_ret. cbn [reads with_read]. rewrite length_app. split; [|cbn; lia]. eapply tally_thread; try done.
    intros _. left. rewrite (pending_idle t), pending_counting by (cbn; congruence). cbn. rewrite length_app. cbn.
    split; [done|lia].
  - by destruct (Hput keys Hi).
  - inv_ret. derefs. split; [|cbn; lia]. eapply tally_thread; try done. intros Hst. right. exists x.
    rewrite (pending_counting t), (pending_idle {| at_ := Looping; sample := sample t |}) by (cbn; congruence).
    split_and!; try done. cbn. f_equal. apply u64_small.
    assert (Hin : (i < n)%nat) by (destruct (main_at w); done).
    assert (Hx : counters w !! i = Some x) by (unfold counters; by rewrite lookup_take_lt).
    pose proof (Forall_lookup_1 _ _ _ _ (ta_counters _ Ht Hst) Hx) as Hx0. cbn in Hx0.
    pose proof (ta_sum _ Ht Hst) as Hsum.
    pose proof (zsum_lookup _ i x (ta_counters _ Ht Hst) Hx).
    assert (1 <= zsum (pending <$> th w)); [|lia].
    apply (zsum_lookup _ i); [apply pendings_nonneg|]. by rewrite list_lookup_fmap, Hi, <- (pending_counting t Ea).
  - inv_ret. by eapply tally_idle.
Qed.

(** When main lets the threads go, all counters are 0. *)
Lemma release_tally (w : world) :
  world_ok kv0 w -> tally w -> main_at w = Releasing -> tally (move w (with_flags (sh w) true (stop_flag (sh w))) Sleeping).
Proof.
  intros Hw Ht Em. pose proof Ht as [Hc Hsum Hp Hm]. rewrite Em in Hm. cbn in Hm.
  assert (Ht0 : forall j t, th w !! j = Some (Some t) -> at_ t = Spinning /\ tp (sh w) !! j = Some 0).
  { intros j t Hj. destruct (wo_threads _ _ Hw j _ Hj) as [Hsp [_ Hat]]. rewrite Em in *.
    cbn in Hsp, Hat. destruct (at_ t); naive_solver lia. }
  assert (Hz : Forall (fun c => c = 0) (counters w)).
  { apply Forall_lookup. intros j c Hj. unfold counters in Hj. apply lookup_take_Some in Hj as [Hj Hlt].
    destruct (all_spawned kv0 w j Hw) as [t Htj]; [by rewrite Em|]. destruct (Ht0 j t Htj). congruence. }
  assert (Hp0 : Forall (fun c => c = 0) (pending <$> th w)).
  { apply Forall_fmap, Forall_lookup. intros j [t|] Hj; [|done]. apply pending_idle. destruct (Ht0 j t Hj). congruence. }
  destruct (wo_store _ _ Hw) as [_ Er]; [by rewrite Em|].
  assert (Ec : counters (move w (with_flags (sh w) true (stop_flag (sh w))) Sleeping) = counters w) by done.
  split; rewrite ?Ec; cbn [main_at move sh th reads printed pre_tp with_flags started]; try done.
  - intros _. eapply Forall_impl; [exact Hz|]. cbn. lia.
  - intros _. by rewrite Er, !zsum_zero.
  - rewrite zsum_zero by done. lia.
Qed.

Lemma main_step_tally (w w' : world) :
  world_ok kv0 w -> read_only w -> tally w -> Z.of_nat (length (reads (sh w))) < 2 ^ 64 -> main_step f w = Ret w' ->
  tally w' /\ reads (sh w') = reads (sh w).
Proof.
  intros Hw Hr Ht Hb' Hs. pose proof Ht as [Hc Hsum [Hp Hp'] Hm]. pose proof (counters_length w Hw) as Hlen.
  unfold main_step in Hs. destruct (main_at w) as [i|i| |i| | |i acc|i|] eqn:Em; cbn [started] in *;
    try (destruct (more f i) eqn:Hmo; [apply more_spec in Hmo|apply not_more in Hmo]); inv_ret; derefs.
  1-5: by split; [split; cbn|].
  - destruct (_ =? _); [by split; [split; cbn|]|done].
  - by split; [split; cbn|].
  - split; [by apply release_tally|done].
  - by split; [split; cbn|].
  - destruct Hm as [Ha Hd]. assert (Hx : counters w !! i = Some x) by (unfold counters; by rewrite lookup_take_lt).
    assert (Hst : started (main_at w) = true) by (by rewrite Em).
    pose proof (Forall_lookup_1 _ _ _ _ (Hc eq_refl) Hx) as Hx0. cbn in Hx0.
    pose proof (sums_bounded w (S i) Ht Hst) as Hsb. rewrite (take_S_r _ _ _ Hx), sumZ_app in Hsb. cbn in Hsb.
    rewrite (drop_S _ _ _ Hx) in Hd. cbn in Hd. unfold sumZ in Hd, Hsb.
    rewrite u64_small by (unfold sumZ in Ha; lia). split; [|done]. split; cbn; try done.
    change (counters (move _ _ _)) with (counters w). rewrite (take_S_r _ _ _ Hx), sumZ_app. cbn. unfold sumZ in *. lia.
  - destruct Hm as [Ha Hd]. rewrite drop_ge in Hd by lia. rewrite take_ge in Ha by lia. cbn in Hd.
    assert (Hst : started (main_at w) = true) by (by rewrite Em).
    destruct (sums_bounded w n Ht Hst) as (_ & _ & Hsb). rewrite take_ge, drop_ge in Hsb by lia. cbn in Hsb.
    assert (0 <= pre_tp w) by (rewrite <- Hp; by apply zsum_nonneg).
    assert (Hcap : u64 (acc - pre_tp w) = acc - pre_tp w) by (apply u64_small; lia).
    assert (Hpr : zsum (printed w ++ [u64 (acc - pre_tp w)]) = acc /\ Forall (fun c => 0 <= c) (printed w ++ [u64 (acc - pre_tp w)])).
    { rewrite Hcap, sumZ_app. cbn. split; [lia|]. apply Forall_app. split; [done|]. repeat constructor. lia. }
    destruct (seconds w =? _); [done|]. destruct (seconds w + 1 =? _); inv_ret; (split; [|done]); split; try done; apply Ha.
  - destruct (at_ _); first [by split; [exact Ht|]|by split; [split; cbn|]].
  - by split; [split; cbn|].
  - done.
Qed.

Lemma run_tally (w : world) es :
  world_ok kv0 w -> read_only w -> tally w -> Forall event_ok es ->
  Z.of_nat (length (reads (sh w)) + length es) < 2 ^ 64 ->
  exists w', run f w es = Ret w' /\ world_ok kv0 w' /\ tally w'.
Proof.
  intros Hw Hr Ht He. revert w Hw Hr Ht. induction He as [|e es He _ IH]; intros w Hw Hr Ht Hl; [by exists w|].
  cbn [run length] in *. destruct (step_progress w e Hw Hr He) as (w1 & Hs & Hw1 & Hr1).
  rewrite Hs. cbn [mbind outcome_bind].
  assert (H1 : tally w1 /\ (length (reads (sh w1)) <= S (length (reads (sh w))))%nat).
  { destruct e as [|i rand value]; cbn [step] in Hs.
    - destruct (main_step_tally w w1 Hw Hr Ht ltac:(lia) Hs) as [? ->]. split; [done|lia].
    - destruct (th w !! i) as [[t|]|] eqn:Ei; [|inv_ret; split; [done|lia]..].
      inv_tuple. eapply thread_step_tally; try done. lia. }
  destruct H1 as [Ht1 Hl1]. apply IH; try done. lia.
Qed.

(** What the benchmark prints: in a run that only reads, the numbers of
    batches on the lines are never negative (no unsigned difference wraps) and
    add up to at most the batches that were read, so nothing is counted that was
    not read or counted twice; when the process has ended, the counters add up
    to exactly the batches that were read. *)
Theorem bench_prints_reads readers es :
  length readers = n -> Forall (reader_ok P) readers -> Forall event_ok es -> Z.of_nat (length es) < 2 ^ 64 ->
  exists w, run f (start kv0 readers) es = Ret w /\
    Forall (fun cap => 0 <= cap) (printed w) /\ zsum (printed w) <= Z.of_nat (length (reads (sh w))) /\
    (main_at w = Exited -> zsum (take n (tp (sh w))) = Z.of_nat (length (reads (sh w)))).
Proof.
  intros Hl Hr He Hlen.
  destruct (run_tally _ es (start_ok kv0 readers Hl Hr) (start_read_only readers) (start_tally readers) He) as (w & Hw & Hok & Ht);
    [done|].
  exists w. split; [done|]. destruct (ta_printed _ Ht) as [Hp Hp']. split_and!; [done| |].
  - pose proof (ta_main _ Ht) as Hm. destruct (started (main_at w)) eqn:Es; [|rewrite Hp; destruct (main_at w); try done; cbn in Hm; lia].
    destruct (sums_bounded w n Ht Es) as (_ & _ & Hsb). pose proof (counters_length w Hok) as Hcl.
    rewrite take_ge, drop_ge in Hsb by lia. cbn in Hsb. rewrite Hp.
    destruct (main_at w) as [| | | | | |i acc| |] eqn:Em; try done; cbn in Hm; try lia.
    rewrite <- (take_drop i (counters w)), sumZ_app in Hsb. lia.
  - intros Ex. pose proof (ta_sum _ Ht) as Hsum. rewrite Ex in Hsum. specialize (Hsum eq_refl). rewrite <- Hsum.
    assert (Hz : zsum (pending <$> th w) = 0); [|unfold counters; lia].
    assert (Hf : Forall (fun c => c = 0) (pending <$> th w)).
    { apply Forall_fmap, Forall_lookup. intros j [t|] Hj; [|done]. apply pending_idle. intros Ea.
      destruct (wo_threads _ _ Hok j _ Hj) as [Hsp [_ Hat]]. rewrite Ex, Ea in *. cbn in Hsp, Hat. lia. }
    by apply zsum_zero.
Qed.
End ReadOnly.
End Runs.

(** ** A benchmark of the map engine *)

Section Concrete.
#[local] Existing Instance map_base.
#[local] Existing Instance map_base_laws.

(** Readers that count from the keys 7 and 8 on. *)
Definition bench_reader (seed : Z) : ZipfianSampleReader.reader :=
  {| ZipfianSampleReader.state := state_of (Zipf.mehcached_zipf_init 1000 (double_of_Z (-1)) seed);
     ZipfianSampleReader.nr_keys_per_req_ := 2 |}.

Definition bench_readers : list ZipfianSampleReader.reader := [bench_reader 6; bench_reader 7].

Lemma bench_reader_ok seed :
  0 <= seed -> (exists st, Zipf.mehcached_zipf_init 1000 (double_of_Z (-1)) seed = Ret st) ->
  reader_ok (fun _ => True) (bench_reader seed).
Proof.
  intros Hs He. pose proof (zipf_init_ok 1000 _ _ ltac:(lia) Hs He) as Hok. split; [exact Hok|]. split; [|done].
  destruct He as [st E]. destruct (init_ok 1000 _ seed st ltac:(lia) Hs E) as (_ & _ & Ht).
  cbn [ZipfianSampleReader.state bench_reader]. rewrite E. unfold plain. cbn [state_of]. by rewrite Ht.
Qed.

Lemma bench_readers_ok : Forall (reader_ok (fun _ => True)) bench_readers.
Proof.
  apply Forall_cons. split; [|apply Forall_singleton]; (apply bench_reader_ok; [lia|]; eexists; vm_compute; reflexivity).
Qed.

(** Main starts both threads, they announce themselves, both read a batch, one
    of them counts it, and main prints. *)
Definition bench_events : list (event) :=
  replicate 8 RunMain ++ [RunThread 0 3 []; RunThread 1 3 []] ++ replicate 4 RunMain ++
  [RunThread 0 3 []; RunThread 0 3 []; RunThread 0 3 []; RunThread 1 3 []; RunThread 1 3 []; RunThread 1 3 []; RunThread 0 3 []] ++
  replicate 4 RunMain.

Lemma bench_events_ok : Forall event_ok bench_events.
Proof. repeat first [apply Forall_nil_2|apply Forall_cons_2]; cbn; lia. Qed.

Lemma bench_holds : kv_holds one_put {[7 := replicate 64 1]}.
Proof. exact one_put_holds. Qed.

Definition bench_start : world KVEngineMap.kv ZipfianSampleReader.reader := start one_put bench_readers.

(** What the run shows: the batches that were read and the line that was printed. *)
Lemma bench_run_evaluates :
  match run (bench_flags 2) bench_start bench_events with
  | Ret w => (reads (sh w) = [(0%nat, [7; 8], [replicate 64 1; []]); (1%nat, [8; 9], [[]; []])]) /\ printed w = [1] /\
      main_at w = Joining 0 /\ take 2 (tp (sh w)) = [1; 0]
  | Err _ => False
  end.
Proof. vm_compute. auto. Qed.

Lemma bench_returns :
  exists w, run (bench_flags 2) bench_start bench_events = Ret w.
Proof.
  pose proof bench_run_evaluates as H. destruct (run (bench_flags 2) bench_start bench_events) as [w|]; [by exists w|done].
Qed.

Lemma bench_start_barrier_witness :
  exists w, run (bench_flags 2) bench_start bench_events = Ret w /\
    (start_flag (sh w) = true -> forall i, (i < 2)%nat -> exists t, th w !! i = Some (Some t) /\ at_ t <> Entered).
Proof.
  destruct bench_returns as [w Hw]. exists w. split; [exact Hw|].
  apply (bench_start_barrier (bench_flags 2) (fun _ => True) ltac:(cbn; unfold kMaxThread; lia) one_put bench_readers
    bench_events w); [done|exact bench_readers_ok|exact Hw].
Defined.

Lemma bench_reads_loaded_witness :
  exists w, run (bench_flags 2) bench_start bench_events = Ret w /\ base_kv (sh w) = one_put /\
    Forall (read_right (fun _ => True) {[7 := replicate 64 1]}) (reads (sh w)).
Proof.
  apply (bench_reads_loaded (bench_flags 2) (fun _ => True) ltac:(cbn; unfold kMaxThread; lia) ltac:(cbn; lia) one_put {[7 := replicate 64 1]}
    bench_holds ltac:(vm_compute; done) ltac:(cbn; lia)); [done|exact bench_readers_ok|exact bench_events_ok].
Defined.

Lemma bench_can_finish_witness :
  exists w es' w', run (bench_flags 2) bench_start bench_events = Ret w /\ run (bench_flags 2) w es' = Ret w' /\
    main_at w' = Exited /\ Z.of_nat (length (printed w')) = 1.
Proof.
  destruct bench_returns as [w Hw].
  destruct (bench_can_finish (bench_flags 2) (fun _ => True) ltac:(cbn; unfold kMaxThread; lia) ltac:(cbn; lia) one_put {[7 := replicate 64 1]}
    bench_holds ltac:(vm_compute; done) ltac:(cbn; lia) bench_readers bench_events w) as (es' & w' & _ & H & E & _ & Hp);
    [done|exact bench_readers_ok|exact bench_events_ok|exact Hw|].
  exists w, es', w'. split; [exact Hw|]. split; [exact H|]. split; [exact E|exact Hp].
Defined.

Lemma bench_prints_reads_witness :
  exists w, run (bench_flags 2) bench_start bench_events = Ret w /\
    Forall (fun cap => 0 <= cap) (printed w) /\ zsum (printed w) <= Z.of_nat (length (reads (sh w))) /\
    (main_at w = Exited -> zsum (take 2 (tp (sh w))) = Z.of_nat (length (reads (sh w)))).
Proof.
  apply (bench_prints_reads (bench_flags 2) (fun _ => True) ltac:(cbn; unfold kMaxThread; lia) ltac:(cbn; lia) one_put {[7 := replicate 64 1]}
    bench_holds ltac:(vm_compute; done) ltac:(cbn; lia)); [done|exact bench_readers_ok|exact bench_events_ok|cbn; lia].
Defined.

(** With 33 threads main writes behind the end of [tp] before it checks their
    number. *)
Theorem bench_too_many_threads :
  run (bench_flags 33) (start one_put (replicate 33 (bench_reader 6))) (replicate 33 RunMain) = Err Undefined.
Proof. by_eval. Qed.
End Concrete.
