(* ===== verification/PetKVEngine.v ===== *)
(** * The engine of the server: KVEnginePetKV behind a parameter server

    KVEnginePetKV implements the interface of an engine ([BaseKVLaws]): what
    the loading and serving theorems need of the engine follows from the
    refinement of PetMultiKV and from the room in the allocators.  Then the
    engine on new files, a server that runs on it, and what the memory that the
    constructor provides is enough for. *)

From stdpp Require Import base numbers list gmap strings.
From Stdlib Require Import ZArith Lia SpecFloat.
From S2P Require Import Prelude PetHashDict PetHashInv PetHashOps PetHashSpec ShmCommon.
From S2P Require Import MemoryPool MemoryPoolInv MemoryPoolSpec MemoryPoolRecover MallocApi PoolProps PoolRoom.
From S2P Require Import Epoch Recycle PetKV PetKVSpec PetKVProps PetMultiKVSpec Engines EnginesSpec.
From S2P Require Import Array Ps PsSpec LoadDB ServerMain.

(** ** The laws of the engine *)

Section Laws.
Import KVEnginePetKV.
Context {M : Type} `{!MallocApi M} `{!MallocLaws M} `{!MallocRoom M}.
Context (cfg : PetKVData.Config) (bits : Z) (Hcfg : config_bits cfg bits) (hash : Z -> Z -> Z).
Context (prefetch_method : Z) (Hpm : prefetch_method = 0 \/ prefetch_method = 1).
Implicit Types (e : kv (M := M)) (C : gmap Z (list Z)).

Notation GetShard := (PetMultiKV.GetShard hash).

(** [n] new values of [size] bytes fit in a shard: the allocator has the blocks,
    and the index stays below its maximal load. *)
Definition index_room (s : PetKV.petkv M) (n : Z) : Prop :=
  (PetHash.size_ (PetKV.dict_ s) + n - 1) * 100 < PetHash.capacity_ (PetKV.dict_ s) * 90.

Definition value_room (s : PetKV.petkv M) (size : Z) : Z := m_room (PetKV.shm_malloc_ s) size.

Definition shard_room (s : PetKV.petkv M) (size n : Z) : Prop :=
  m_accepts (PetKV.shm_malloc_ s) size /\ n <= value_room s size /\ index_room s n.

(** The keys of [keys] that go to shard [i]. *)
Definition shard_load e (keys : list Z) (i : nat) : Z := occ (Z.of_nat i) (GetShard e <$> keys).

Definition multi_room e (size : Z) (keys : list Z) : Prop :=
  0 <= size < 2 ^ 31 /\ size mod 4 = 0 /\
  forall i s, PetMultiKV.shm_kv_ e !! i = Some s -> shard_room s size (shard_load e keys i).

Definition engine_holds e C : Prop :=
  multi_wf cfg bits hash e /\ PetMultiKV.multi_pre_known_value_size_ e = 0 /\ multi_contents cfg e = C /\
  forall k v, C !! k = Some v -> Z.of_nat (length v) < 2 ^ 31 /\ Z.of_nat (length v) mod 4 = 0.

Lemma dict_size (s : PetKV.petkv M) :
  kv_wf cfg bits s -> PetHash.size_ (PetKV.dict_ s) = Z.of_nat (size (contents cfg s)).
Proof.
  intros Hs. rewrite (size_map _ (dw_core _ _ (kw_dict _ _ _ Hs))). unfold contents. by rewrite map_size_fmap.
Qed.

(** One value more in a shard: what is left. *)
Record one_more (s s' : PetKV.petkv M) (size : Z) : Prop := {
  om_accepts : m_accepts (PetKV.shm_malloc_ s') size;
  om_value : value_room s' size = value_room s size - 1;
  om_index : forall n, index_room s' n <-> index_room s (1 + n);
  om_pre : PetKV.pre_known_value_size_ s' = PetKV.pre_known_value_size_ s;
  om_cap : PetHash.capacity_ (PetKV.dict_ s') = PetHash.capacity_ (PetKV.dict_ s)
}.

(** A new key in a shard below its maximal load: stored if there is a block,
    fatal if there is none. *)
Lemma shard_Update (s : PetKV.petkv M) g key (log : list Z) :
  kv_wf cfg bits s -> PetKV.pre_known_value_size_ s = 0 -> 0 <= key < 2 ^ 64 -> contents cfg s !! key = None ->
  m_accepts (PetKV.shm_malloc_ s) (Z.of_nat (length log)) -> index_room s 1 ->
  (0 < value_room s (Z.of_nat (length log)) /\
   exists s', PetKV.Update cfg s g key log = Ret (s', g, true) /\ kv_wf cfg bits s' /\
     contents cfg s' = <[key := log]> (contents cfg s) /\ one_more s s' (Z.of_nat (length log))) \/
  (value_room s (Z.of_nat (length log)) = 0 /\ PetKV.Update cfg s g key log = Err LogFatal).
Proof.
  intros Hs Hpre Hk Hno Ha Hi. unfold index_room in Hi.
  assert (HF : PetHash.Full (PetKV.dict_ s) = false).
  { apply not_Full_intro; [apply (dw_core _ _ (kw_dict _ _ _ Hs))|lia]. }
  pose proof (m_room_law (PetKV.shm_malloc_ s) _ (kw_mal _ _ _ Hs) Ha) as Hroom.
  destruct (Update_new cfg bits Hcfg s g key log Hs Hk Hno HF Ha)
    as [(s' & ptr & HU & Hs' & Hc & _ & HN & Hacc)|[HN HU]]; [done|left|right]; rewrite HN in Hroom; [|by destruct Hroom].
  destruct Hroom as [H0 H1]. split; [done|]. apply Update_frame in HU as HF'. destruct HF' as [[_ Hcap] Hp].
  exists s'. split_and!; try done. split; try done; [by apply Hacc|].
  intros n. unfold index_room. rewrite Hcap, !dict_size, Hc, map_size_insert_None by done. lia.
Qed.

Lemma shard_load_cons e key keys i :
  shard_load e (key :: keys) i = (if decide (Z.of_nat i = GetShard e key) then 1 else 0) + shard_load e keys i.
Proof. unfold shard_load. rewrite fmap_cons. apply occ_cons. Qed.

Lemma shard_load_nonneg e keys i : 0 <= shard_load e keys i.
Proof. apply occ_nonneg. Qed.

Lemma shard_index e key : multi_wf cfg bits hash e -> Z.of_nat (Z.to_nat (GetShard e key)) = GetShard e key.
Proof.
  intros He. pose proof (mw_num _ _ _ _ He). apply Z2Nat.id. unfold PetMultiKV.GetShard.
  apply Z.mod_pos_bound. lia.
Qed.

(** A new key in the engine. *)
Lemma engine_Put_new e g C key (value : list Z) :
  engine_holds e C -> 0 <= key < 2 ^ 64 -> C !! key = None ->
  Z.of_nat (length value) < 2 ^ 31 -> Z.of_nat (length value) mod 4 = 0 ->
  let j := Z.to_nat (GetShard e key) in
  (forall s, PetMultiKV.shm_kv_ e !! j = Some s ->
    m_accepts (PetKV.shm_malloc_ s) (Z.of_nat (length value)) /\ index_room s 1) ->
  exists s, PetMultiKV.shm_kv_ e !! j = Some s /\ Z.of_nat j = GetShard e key /\
  ((0 < value_room s (Z.of_nat (length value)) /\
    exists e' s', Put cfg hash e g key value = Ret (e', g) /\ engine_holds e' (<[key := value]> C) /\
      PetMultiKV.shm_kv_ e' = <[j := s']> (PetMultiKV.shm_kv_ e) /\
      PetMultiKV.shard_num_ e' = PetMultiKV.shard_num_ e /\ one_more s s' (Z.of_nat (length value))) \/
   (value_room s (Z.of_nat (length value)) = 0 /\ Put cfg hash e g key value = Err LogFatal)).
Proof.
  intros (He & Hpre & HC & Hlen) Hk Hno Hsz H4 j Hroom.
  destruct (shard_of cfg bits hash e key He) as (s & Hs & Hsw & Hsp & _ & Hsc).
  exists s. split; [done|]. split; [by apply shard_index|]. destruct (Hroom s Hs) as [Ha Hi]. unfold Put, PetMultiKV.Update. rewrite Hs.
  cbn [deref mbind outcome_bind].
  destruct (shard_Update s g key value) as [(H0 & s' & HU & Hs' & Hc & Hom)|[H0 HU]];
    [done|congruence|done|congruence|done|done|left|right]; rewrite HU; cbn [CHECK mbind outcome_bind]; [|done].
  split; [done|].
  destruct (multi_insert cfg bits hash e key value s s' He Hs Hs' Hc) as [He' Hc'];
    [apply (om_pre _ _ _ Hom)|apply (om_cap _ _ _ Hom)|].
  eexists _, s'. split; [done|]. split_and!; [|done|done|done].
  split_and!; [done|done|by rewrite Hc', HC|]. intros k v [[<- <-]|[_ ?]]%lookup_insert_Some; [lia|by eapply Hlen].
Qed.

Lemma engine_Put_room e g C key (value : list Z) keys :
  engine_holds e C -> 0 <= key < 2 ^ 64 -> multi_room e (Z.of_nat (length value)) (key :: keys) -> C !! key = None ->
  exists e', Put cfg hash e g key value = Ret (e', g) /\ engine_holds e' (<[key := value]> C) /\
    multi_room e' (Z.of_nat (length value)) keys.
Proof.
  intros HC Hk (Hsz & H4 & Hroom) Hno. unfold shard_room in Hroom.
  destruct (engine_Put_new e g C key value) as (s & Hs & Hj & Hcase); try done; [lia| |].
  { intros s Hs. destruct (Hroom _ _ Hs) as (Ha & Hv & Hi). split; [done|]. rewrite shard_load_cons in Hi.
    pose proof (shard_load_nonneg e keys (Z.to_nat (GetShard e key))).
    rewrite decide_True in Hi by by apply shard_index, HC. unfold index_room in *. lia. }
  set (j := Z.to_nat (GetShard e key)) in *.
  pose proof (Hroom _ _ Hs) as (Ha & Hv & Hi). rewrite shard_load_cons, decide_True in Hv, Hi by done.
  pose proof (shard_load_nonneg e keys j).
  destruct Hcase as [(_ & e' & s' & HP & HC' & Hsh & Hnum & Hom)|[H0 _]]; [|lia].
  exists e'. split; [done|]. split; [done|]. split_and!; [lia|lia|done|]. intros i x Hx. rewrite Hsh in Hx.
  assert (HL : shard_load e' keys i = shard_load e keys i) by (unfold shard_load, PetMultiKV.GetShard; by rewrite Hnum).
  rewrite HL. apply list_lookup_insert_Some in Hx as [(<- & <- & _)|[Hne Hx]].
  - split_and!; [apply (om_accepts _ _ _ Hom)|rewrite (om_value _ _ _ Hom); lia|by apply (om_index _ _ _ Hom)].
  - destruct (Hroom _ _ Hx) as (? & Hv' & Hi'). rewrite shard_load_cons, decide_False in Hv', Hi' by lia.
    by split_and!.
Qed.

(** ** The engine as a BaseKV

    The epoch manager is the one that [Put] uses; an address is a shard, whose
    files are mapped separately, and an offset. *)
Record engine := Build_engine { the_kv : kv (M := M); the_epoch : Epoch.manager }.

Definition array_bytes e (a : nat * (option Z * Z)) : list Z :=
  match a.2.1 with
  | Some p => match PetMultiKV.shm_kv_ e !! a.1 with
              | Some s => read_bytes (PetKV.memory_ s) p (4 * a.2.2)
              | None => []
              end
  | None => replicate (Z.to_nat (4 * a.2.2)) 0
  end.

#[local] Instance pet_base : BaseKV engine := {|
  kv_array := nat * (option Z * Z);
  kv_Get (x : engine) key value _ := Get cfg hash (the_kv x) key value;
  kv_Put (x : engine) key value _ := '(k, g) ← Put cfg hash (the_kv x) (the_epoch x) key value; Ret (Build_engine k g);
  kv_BatchGet (x : engine) keys _ :=
    vs ← BatchGet cfg hash prefetch_method (the_kv x) keys;
    Ret (zip ((fun k => Z.to_nat (GetShard (the_kv x) k)) <$> keys) vs);
  kv_binary_data (x : engine) a := array_bytes (the_kv x) a
|}.

Lemma floats_of n : 0 <= n < 2 ^ 31 -> n mod 4 = 0 -> i32 (u64 n / 4) = n / 4 /\ 4 * (n / 4) = n.
Proof.
  intros Hn H4. pose proof (Z.div_mod n 4 ltac:(lia)). rewrite u64_small by lia. split; [|lia]. apply i32_small. lia.
Qed.

(** The array for a key, before the case of a value of length 0. *)
Lemma entry_bytes e C k :
  engine_holds e C ->
  exists r, PetMultiKV.Get cfg hash e k = Ret r /\
    array_bytes e (Z.to_nat (GetShard e k), (PetKV.r_data r, u64 (PetKV.r_size r) / 4)) = default [] (C !! k) /\
    (PetKV.r_size r = 0 -> default [] (C !! k) = []) /\
    i32 (u64 (PetKV.r_size r) / 4) = u64 (PetKV.r_size r) / 4.
Proof.
  intros (He & Hpre & HC & Hlen). destruct (multi_Get cfg bits hash e k He) as (s & r & Hs & HG & Hr).
  rewrite HC in Hr. exists r. split; [done|]. unfold array_bytes. cbn [fst snd].
  destruct (C !! k) as [log|] eqn:Hk; cbn [default from_option].
  - destruct Hr as (p & -> & Hsz & Hrd). destruct (Hlen k log Hk) as [Hl H4].
    destruct (floats_of (PetKV.r_size r)) as [E1 E2]; [lia|by rewrite Hsz|]. rewrite Hs, E1.
    rewrite u64_small, E2, Hrd by lia. split_and!; [done|intros E; destruct log; [done|cbn in *; lia]|done].
  - by destruct Hr as [-> ->].
Qed.

Lemma engine_BatchGet e C keys :
  engine_holds e C ->
  exists vs, BatchGet cfg hash prefetch_method e keys = Ret vs /\
    Forall2 (fun k a => array_bytes e (Z.to_nat (GetShard e k), a) = default [] (C !! k)) keys vs.
Proof using Hpm.
  intros HC. unfold BatchGet. destruct Hpm as [-> | ->]; [change (0 =? 0) with true|change (1 =? 0) with false; change (1 =? 1) with true];
    cbn match; (induction keys as [|k keys (vs & IH & HF)]; [by exists []|]);
    destruct (entry_bytes e C k HC) as (r & HG & Hb & Hz & Hi); cbn [plain_loop PetMultiKV.BatchGet]; rewrite HG;
    cbn [mbind outcome_bind]; rewrite IH; cbn [mbind outcome_bind]; eexists; (split; [done|]); constructor; try done.
  - by rewrite Hi.
  - destruct (PetKV.r_size r =? 0) eqn:Ez; [|done]. b2p. destruct HC as (_ & -> & _). by rewrite (Hz Ez).
Qed.

#[local] Program Instance pet_laws : BaseKVLaws engine := {|
  kv_holds (x : engine) C := engine_holds (the_kv x) C;
  kv_room (x : engine) size keys := multi_room (the_kv x) size keys
|}.
Next Obligation.
  intros e size l l' HP (H1 & H2 & H3). split_and!; try lia. intros i s Hs.
  unfold shard_load. rewrite <- HP. by apply H3.
Qed.
Next Obligation.
  intros e C key tid (He & _ & <- & _). by apply (engine_Get cfg bits hash).
Qed.
Next Obligation.
  intros e C key value tid keys HC Hk Hr Hno.
  destruct (engine_Put_room (the_kv e) (the_epoch e) C key value keys HC Hk Hr Hno) as (e' & HP & HC' & Hr').
  exists (Build_engine e' (the_epoch e)). cbn. rewrite HP. done.
Qed.
Next Obligation.
  intros e C keys tid HC. destruct (engine_BatchGet (the_kv e) C keys HC) as (vs & HB & HF).
  cbn. rewrite HB. cbn [mbind outcome_bind]. eexists. split; [done|].
  clear HB HC. induction HF; cbn; by constructor.
Qed.

(** ** A load that does not fit *)

Lemma index_room_mono (s : PetKV.petkv M) n n' : n <= n' -> index_room s n' -> index_room s n.
Proof. unfold index_room. lia. Qed.

Lemma value_room_nonneg e i s size :
  multi_wf cfg bits hash e -> PetMultiKV.shm_kv_ e !! i = Some s -> m_accepts (PetKV.shm_malloc_ s) size ->
  0 <= value_room s size.
Proof.
  intros He Hs Ha. pose proof (Forall_lookup_1 _ _ _ _ (mw_shard _ _ _ _ He) Hs) as Hw.
  pose proof (m_room_law _ _ (kw_mal _ _ _ Hw) Ha) as HR. unfold value_room.
  destruct (m_New _ _) as [[??]|]; lia.
Qed.

(** More keys for a shard than values fit there: the load dies, whatever the
    order of its puts. *)
Lemma load_overfull vs (puts : list (Z * Z)) e g C :
  value_size_ok vs -> vs mod 4 = 0 -> engine_holds e C ->
  Forall (fun k => 0 <= k < 2 ^ 64) puts.*1 -> NoDup puts.*1 -> (forall k, k ∈ puts.*1 -> C !! k = None) ->
  (forall i s, PetMultiKV.shm_kv_ e !! i = Some s ->
    m_accepts (PetKV.shm_malloc_ s) vs /\ index_room s (shard_load e puts.*1 i)) ->
  (exists i s, PetMultiKV.shm_kv_ e !! i = Some s /\ value_room s vs < shard_load e puts.*1 i) ->
  LoadDBHelper.run_puts vs (Build_engine e g) puts = Err LogFatal.
Proof using Hcfg.
  clear Hpm. intros Hv H4. revert e C. induction puts as [|[k t] puts IH]; intros e C HC Hrg Hnd Hno Hix (i0 & s0 & Hs0 & Hfull).
  { pose proof (value_room_nonneg e i0 s0 vs (proj1 HC) Hs0 (proj1 (Hix _ _ Hs0))).
    unfold shard_load in Hfull. cbn in Hfull. rewrite occ_nil in Hfull. lia. }
  cbn [fmap list_fmap fst] in *. apply NoDup_cons in Hnd as [Hk Hnd]. apply Forall_cons in Hrg as [Hkr Hrg].
  cbn [LoadDBHelper.run_puts]. unfold LoadDBHelper.put. pose proof (embedding_length vs k Hv) as Hl.
  unfold value_size_ok in Hv. replace ((0 <=? vs) && (vs <=? 32 * 1024)) with true by (symmetry; apply andb_true_iff; lia).
  cbn [kv_Put pet_base the_kv the_epoch]. destruct (engine_Put_new e g C k (LoadDBHelper.embedding vs k) HC Hkr) as (s & Hs & Hj & Hcase).
  { apply Hno. set_solver. }
  { lia. }
  { by rewrite Hl. }
  { intros s Hs. rewrite Hl. destruct (Hix _ _ Hs) as [Ha Hi]. split; [done|].
    eapply index_room_mono; [|exact Hi]. rewrite shard_load_cons, decide_True by by apply shard_index, HC.
    pose proof (shard_load_nonneg e puts.*1 (Z.to_nat (GetShard e k))). lia. }
  rewrite Hl in Hcase. set (j := Z.to_nat (GetShard e k)) in *.
  destruct Hcase as [(H0 & e' & s' & HP & HC' & Hsh & Hnum & Hom)|[_ HP]]; rewrite HP; cbn [mbind outcome_bind]; [|done].
  assert (HL : forall i, shard_load e' puts.*1 i = shard_load e puts.*1 i).
  { intros i. unfold shard_load, PetMultiKV.GetShard. by rewrite Hnum. }
  pose proof (lookup_lt_Some _ _ _ Hs) as Hlt.
  apply (IH e' _ HC' Hrg Hnd).
  - intros x Hx. rewrite lookup_insert_ne; [apply Hno; set_solver|by intros ->].
  - intros i x Hx. rewrite HL. rewrite Hsh in Hx. apply list_lookup_insert_Some in Hx as [(<- & <- & _)|[Hne Hx]].
    + split; [apply (om_accepts _ _ _ Hom)|]. apply (om_index _ _ _ Hom). destruct (Hix _ _ Hs) as [_ Hi].
      by rewrite shard_load_cons, decide_True in Hi.
    + destruct (Hix _ _ Hx) as [Ha Hi]. by rewrite shard_load_cons, decide_False in Hi by lia.
  - rewrite shard_load_cons in Hfull. destruct (decide (i0 = j)) as [->|Hne].
    + exists j, s'. rewrite HL, Hsh, list_lookup_insert_eq by done. split; [done|]. rewrite (om_value _ _ _ Hom).
      rewrite decide_True in Hfull by done. assert (s0 = s) as -> by congruence. lia.
    + exists i0, s0. rewrite HL, Hsh, list_lookup_insert_ne by done. rewrite decide_False in Hfull by lia. by split.
Qed.
End Laws.

(** ** The engine on new files *)

Section New.
Import KVEnginePetKV.
Context (hash : Z -> Z -> Z).

(** The files of a shard before the first start. *)
Definition new_files (f : PetMultiKV.shard_files) : Prop :=
  PetMultiKV.value_exists f = false /\ PetHash.capacity_ (PetMultiKV.dict_file f) = 0.

(** The slab for values of [size] bytes, and the values that fit in the memory of
    a shard. *)
Definition slab_for (size : Z) : option Z :=
  MemoryPool.lower_bound (PetMultiKV.slab_sizes 0) (MemoryPool.kMetaDataSize + size).

Definition fits (memory size : Z) : Z :=
  match slab_for size with Some slab => memory / MemoryPool.kChunkSize * per_chunk slab | None => 0 end.

Lemma mapM_all {A B} (f : A -> outcome B) (P : B -> Prop) (l : list A) :
  (forall a, a ∈ l -> exists b, f a = Ret b /\ P b) ->
  exists bs, MemoryPool.mapM f l = Ret bs /\ Forall P bs /\ length bs = length l.
Proof.
  induction l as [|a l IH]; intros H; [by exists []|]. destruct (H a) as (b & Hb & HP); [by left|].
  destruct IH as (bs & HM & HF & HL); [intros; apply H; by right|].
  exists (b :: bs). cbn. rewrite Hb. cbn. rewrite HM. cbn. split; [done|]. split; [by constructor|]. by rewrite HL.
Qed.

(** The allocator of a new shard. *)
Lemma new_pool F meta memory :
  5 <= memory / MemoryPool.kChunkSize < 2 ^ 31 ->
  exists q, MemoryPool.open F meta false memory (PetMultiKV.slab_sizes 0) = Ret q /\ good_pool false q /\ live q = [] /\
    npool q = memory / MemoryPool.kChunkSize /\
    forall n, 0 <= n <= 1024 -> pool_accepts false q n /\ request_room false q n = fits memory n.
Proof.
  intros Hm. assert (0 <= memory).
  { unfold MemoryPool.kChunkSize in Hm. pose proof (Z.div_mod memory (2 * 1024 * 1024)).
    pose proof (Z.mod_pos_bound memory (2 * 1024 * 1024)). lia. }
  destruct (open_new F meta memory (PetMultiKV.slab_sizes 0)) as (q & HO & Hwf & Hl & Hn & _ & Hs & Hq); [lia|cbn; lia|].
  exists q. split; [done|]. split; [|split_and!; try done].
  - split; [done| |intros a n; rewrite Hl; by intros ?%not_elem_of_nil|intros _ a n; rewrite Hl; by intros ?%not_elem_of_nil].
    intros s. rewrite Hs. intros Hin. split; [|split; [|by apply Hq]];
      revert s Hin; apply Forall_forall; repeat constructor; (done || lia).
  - intros n Hn'. split.
    + split; [lia|]. exists 1032. rewrite Hs. split; [set_solver|unfold MemoryPool.kMetaDataSize; lia].
    + unfold request_room, slab_of, fits, slab_for. rewrite Hs. destruct (MemoryPool.lower_bound _ _); [|done].
      by eapply open_new_room.
Qed.

(** What a new shard is. *)
Record new_shard (cfg : PetKVData.Config) (bits memory capacity : Z) (s : PetKV.petkv (pool_of false)) : Prop := {
  ns_wf : kv_wf cfg bits s;
  ns_empty : contents cfg s = ∅;
  ns_pre : PetKV.pre_known_value_size_ s = 0;
  ns_cap : capacity <= PetHash.capacity_ (PetKV.dict_ s) < 2 ^ 32;
  ns_room : forall n, 0 <= n <= 1024 -> m_accepts (PetKV.shm_malloc_ s) n /\ value_room s n = fits memory n
}.

Lemma LoadShard_new cfg bits memory capacity f :
  config_bits cfg bits -> memory < 8 * 2 ^ bits -> 5 <= memory / MemoryPool.kChunkSize < 2 ^ 31 ->
  0 <= capacity < 2 ^ 31 -> new_files f ->
  exists s, PetMultiKV.LoadShard cfg memory capacity 0 f = Ret s /\ new_shard cfg bits memory capacity s.
Proof.
  intros [Hb _] Hm Hch Hc [Hv Hd]. unfold PetMultiKV.LoadShard. rewrite Hv.
  destruct (new_pool (PetMultiKV.value_file f) (PetMultiKV.value_meta f) memory Hch) as (q & HO & Hg & Hl & Hn & Hr).
  rewrite HO. cbn [mbind outcome_bind].
  destruct (open_empty cfg bits (PoolOf false q) (PetMultiKV.dict_file f) (PetMultiKV.valid_file f)
    (PetMultiKV.value_data f) capacity 0) as (s & HS & Hw & He & _ & Hcap & Hmal & Hp); try done.
  - cbn. unfold pool_live. by rewrite Hl.
  - cbn. rewrite Hn. unfold MemoryPool.kChunkSize.
    assert (2 ^ 33 <= 2 ^ bits) by (apply Z.pow_le_mono_r; lia).
    assert (E : 8 * 2 ^ bits = 2 ^ (bits - 18) * (2 * 1024 * 1024)).
    { change 8 with (2 ^ 3). change (2 * 1024 * 1024) with (2 ^ 21). rewrite <- !Z.pow_add_r by lia. f_equal. lia. }
    pose proof (Z.mul_div_le memory (2 * 1024 * 1024) ltac:(lia)). lia.
  - exists s. split; [exact HS|]. split; try done. intros n Hn'. unfold value_room. rewrite Hmal. by apply Hr.
Qed.
(** The memory and the capacity of a shard. *)
Definition shard_memory (capacity value_size : Z) : Z := Z.quot (i64 (value_size * capacity)) shard_num.
Definition shard_capacity (capacity : Z) : Z := i32 (Z.quot capacity shard_num).

Lemma union_empty (ms : list (gmap Z (list Z))) : Forall (fun m => m = ∅) ms -> ⋃ ms = (∅ : gmap Z (list Z)).
Proof. induction 1 as [|m ms -> _ IH]; [done|]. cbn. rewrite IH. apply map_empty_union. Qed.

Lemma open_new_engine files capacity value_size :
  5 <= shard_memory capacity value_size / MemoryPool.kChunkSize < 2 ^ 31 -> 0 <= shard_capacity capacity ->
  (forall i, 0 <= i < shard_num -> new_files (files i)) ->
  exists cfg bits e, open config48 files capacity value_size = Ret (cfg, e) /\ config_bits cfg bits /\
    engine_holds cfg bits hash e ∅ /\ PetMultiKV.shard_num_ e = shard_num /\ length (PetMultiKV.shm_kv_ e) = 16%nat /\
    Forall (new_shard cfg bits (shard_memory capacity value_size) (shard_capacity capacity)) (PetMultiKV.shm_kv_ e).
Proof.
  intros Hm Hc Hf. unfold open, PetMultiKV.open. fold (shard_memory capacity value_size) (shard_capacity capacity).
  set (memory := shard_memory capacity value_size) in *.
  assert (Hmr : 0 <= memory < 2 ^ 62).
  { unfold MemoryPool.kChunkSize in Hm. pose proof (Z.div_mod memory (2 * 1024 * 1024)).
    pose proof (Z.mod_pos_bound memory (2 * 1024 * 1024)). lia. }
  destruct (choose_config_bits memory Hmr) as (cfg & bits & HC & Hcfg & Hb). rewrite HC. cbn [mbind outcome_bind].
  assert (Hcr : 0 <= shard_capacity capacity < 2 ^ 31).
  { split; [done|]. unfold shard_capacity, i32. pose proof (Z.mod_pos_bound (Z.quot capacity shard_num + 2 ^ 31) (2 ^ 32)). lia. }
  destruct (mapM_all (fun i => PetMultiKV.LoadShard cfg memory (shard_capacity capacity) 0 (files i))
    (new_shard cfg bits memory (shard_capacity capacity)) (seqZ 0 shard_num)) as (shards & HM & HF & HL).
  { intros i Hi%elem_of_seqZ. apply LoadShard_new; (done || apply Hf; lia). }
  change (length (seqZ 0 shard_num)) with 16%nat in HL. rewrite HM. cbn [mbind outcome_bind].
  exists cfg, bits. eexists. split; [done|]. split; [done|]. split; [|done]. unfold engine_holds. split_and!; try done.
  - split; cbn [PetMultiKV.shm_kv_ PetMultiKV.shard_num_ PetMultiKV.multi_pre_known_value_size_].
    + unfold shard_num. lia.
    + exact (f_equal Z.of_nat HL).
    + eapply Forall_impl; [exact HF|]. by intros s [].
    + eapply Forall_impl; [exact HF|]. by intros s [].
    + eapply Forall_impl; [exact HF|]. intros s []. lia.
    + intros i s k Hi [v Hk]. rewrite (ns_empty _ _ _ _ _ (Forall_lookup_1 _ _ _ _ HF Hi)), lookup_empty in Hk. done.
  - unfold multi_contents. cbn [PetMultiKV.shm_kv_]. apply union_empty, Forall_fmap.
    eapply Forall_impl; [exact HF|]. by intros s [].
Qed.

(** The keys of a shard. *)
Definition load_of (keys : list Z) (i : Z) : Z := occ i ((fun k => hash k 1 mod shard_num) <$> keys).

Lemma shard_load_of (e : kv (M := pool_of false)) keys i :
  PetMultiKV.shard_num_ e = shard_num -> shard_load hash e keys i = load_of keys (Z.of_nat i).
Proof. intros H. unfold shard_load, load_of, PetMultiKV.GetShard. by rewrite H. Qed.

Lemma new_shard_index cfg bits memory capacity s n :
  new_shard cfg bits memory capacity s -> (n - 1) * 100 < capacity * 90 -> index_room s n.
Proof.
  intros Hs Hn. unfold index_room. rewrite (dict_size cfg bits s (ns_wf _ _ _ _ _ Hs)), (ns_empty _ _ _ _ _ Hs), map_size_empty.
  pose proof (ns_cap _ _ _ _ _ Hs). lia.
Qed.

Lemma new_engine_room cfg bits memory capacity (e : kv (M := pool_of false)) size keys :
  PetMultiKV.shard_num_ e = shard_num -> length (PetMultiKV.shm_kv_ e) = 16%nat ->
  Forall (new_shard cfg bits memory capacity) (PetMultiKV.shm_kv_ e) -> 0 <= size <= 1024 -> size mod 4 = 0 ->
  (forall i, 0 <= i < shard_num -> load_of keys i <= fits memory size /\ (load_of keys i - 1) * 100 < capacity * 90) ->
  multi_room hash e size keys.
Proof.
  intros Hn HL HF Hs H4 Hload. split_and!; [lia|lia|done|]. intros i s Hi.
  pose proof (lookup_lt_Some _ _ _ Hi). destruct (Hload (Z.of_nat i)) as [Hv Hx]; [unfold shard_num; lia|].
  pose proof (Forall_lookup_1 _ _ _ _ HF Hi) as Hsh. destruct (ns_room _ _ _ _ _ Hsh size Hs) as [Ha Hr].
  rewrite shard_load_of by done. split_and!; [done|by rewrite Hr|by eapply new_shard_index].
Qed.
End New.

(** ** A server on the engine *)

Section Serve.
Import KVEnginePetKV Main.
Context (cfg : PetKVData.Config) (hash : Z -> Z -> Z) (prefetch_method : Z).
Context (Hpm : prefetch_method = 0 \/ prefetch_method = 1).
Context (files : Z -> PetMultiKV.shard_files) (partition : Z -> Z).

Notation engine := (engine (M := pool_of false)).
#[local] Instance the_base : BaseKV engine := pet_base cfg hash prefetch_method.

(** What the factory creates for KVEnginePetKV. *)
Definition pet_creator (g : Epoch.manager) (config : BaseKVConfig) : outcome engine :=
  '(_, e) ← open config48 files (capacity config) (c_value_size config);
  Ret (Build_engine e g).

(** The keys of a server among the keys from 1 to [cap]. *)
Definition server_keys (id cap : Z) : list Z := filter (fun k => partition k = id) (seqZ 1 cap).

(** The files are new, and the shards have the memory and the index that the
    constructor wants. *)
Record new_store (capacity value_size : Z) : Prop := {
  st_new : forall i, 0 <= i < shard_num -> new_files (files i);
  st_memory : 5 <= shard_memory capacity value_size / MemoryPool.kChunkSize < 2 ^ 31;
  st_capacity : 0 <= shard_capacity capacity;
  st_size : 4 <= value_size <= 1024;
  st_floats : value_size mod 4 = 0
}.

(** The maximal load of an index of [capacity] entries. *)
Definition index_ok (capacity : Z) (keys : list Z) : Prop :=
  forall i, 0 <= i < shard_num -> (load_of hash keys i - 1) * 100 < shard_capacity capacity * 90.

Lemma open_shards capacity value_size e :
  new_store capacity value_size -> open config48 files capacity value_size = Ret (cfg, e) ->
  exists bits, config_bits cfg bits /\ engine_holds cfg bits hash e ∅ /\ PetMultiKV.shard_num_ e = shard_num /\
    length (PetMultiKV.shm_kv_ e) = 16%nat /\
    Forall (new_shard cfg bits (shard_memory capacity value_size) (shard_capacity capacity)) (PetMultiKV.shm_kv_ e).
Proof.
  intros [Hnew Hmem Hcap _ _] Hopen.
  destruct (open_new_engine hash files capacity value_size Hmem Hcap Hnew) as (cfg' & bits & e' & HO & Hrest).
  rewrite Hopen in HO. injection HO as <- <-. by exists bits.
Qed.

Lemma load_of_total keys : sumZ (load_of hash keys) (seqZ 0 shard_num) = Z.of_nat (length keys).
Proof.
  unfold load_of. rewrite occ_total, length_fmap; [done|]. apply Forall_fmap, Forall_forall. intros k _.
  apply Z.mod_pos_bound. done.
Qed.

(** With more keys than places in all shards one shard gets too many. *)
Lemma some_shard_full keys n :
  shard_num * n < Z.of_nat (length keys) -> exists i, (i < 16)%nat /\ n < load_of hash keys (Z.of_nat i).
Proof.
  intros Hn. destruct (decide (Forall (fun i => load_of hash keys i <= n) (seqZ 0 shard_num))) as [HF|HF].
  - exfalso. rewrite Forall_forall in HF. pose proof (sumZ_le _ _ _ HF) as Hs.
    rewrite load_of_total, length_seqZ in Hs. unfold shard_num in *. lia.
  - apply not_Forall_Exists in HF; [|typeclasses eauto]. apply Exists_exists in HF as (i & Hi%elem_of_seqZ & Hl).
    unfold shard_num in Hi. exists (Z.to_nat i). rewrite Z2Nat.id by lia. cbn in Hl. lia.
Qed.

(** The memory of KVEnginePetKV may be too small for its own capacity: the
    constructor asks for value_size bytes per key, but a value takes the next
    slab (40, 72, 136, 520 or 1032 bytes).  If the server has more keys to load
    than slabs of the values fit in the sixteen shards, PreLoadDB dies, for
    every hash function, order and number of threads. *)
Theorem PetKV_warmup_dies h e g order cap vs :
  new_store cap vs -> open config48 files cap vs = Ret (cfg, e) -> LoadDBHelper.kv_ h = Build_engine e g ->
  sizes_ok h (LoadDBHelper.warm_thread_count_ h) ->
  let own := LoadDBHelper.own_keys partition h LoadDBHelper.start (LoadDBHelper.end_ h) in
  index_ok cap own -> shard_num * fits (shard_memory cap vs) vs < Z.of_nat (length own) ->
  interleaving (LoadDBHelper.thread_puts partition h <$> seqZ 0 (LoadDBHelper.warm_thread_count_ h)) order ->
  LoadDBHelper.PreLoadDB vs partition h false order = Err LogFatal.
Proof.
  intros Hst Hopen Hkv Hs own Hix Hmany Hil. pose proof (order_keys partition h order Hs Hil) as HP. fold own in HP.
  destruct (open_shards cap vs e Hst Hopen) as (bits & Hcfg & HC & Hn & HL & HF).
  destruct Hst as [_ _ _ Hvs H4]. assert (Hload : forall i, shard_load hash e order.*1 i = load_of hash own (Z.of_nat i)).
  { intros i. rewrite <- (shard_load_of hash e own i Hn). unfold shard_load. by rewrite HP. }
  unfold LoadDBHelper.PreLoadDB. rewrite (proj2 (Z.eqb_neq _ 0)) by (destruct Hs; lia). cbn [mbind outcome_bind].
  rewrite Hkv. unfold the_base. rewrite (load_overfull cfg bits Hcfg hash prefetch_method vs order e g ∅); try done.
  - unfold value_size_ok. lia.
  - rewrite HP. by apply (own_range partition h (LoadDBHelper.warm_thread_count_ h)).
  - rewrite HP. apply own_NoDup.
  - intros i s Hi. pose proof (lookup_lt_Some _ _ _ Hi). rewrite Hload. pose proof (Forall_lookup_1 _ _ _ _ HF Hi) as Hsh.
    split; [apply (ns_room _ _ _ _ _ Hsh); lia|]. eapply new_shard_index; [exact Hsh|apply Hix; unfold shard_num; lia].
  - destruct (some_shard_full own _ Hmany) as (i & Hi & Hf). destruct (lookup_lt_is_Some_2 (PetMultiKV.shm_kv_ e) i) as [s Hsi]; [lia|].
    exists i, s. split; [done|]. rewrite Hload. pose proof (Forall_lookup_1 _ _ _ _ HF Hsi) as Hsh.
    by rewrite (proj2 (ns_room _ _ _ _ _ Hsh vs ltac:(lia))).
Qed.

(** The slabs of the values of a shard lie in its memory. *)
Lemma fits_bytes memory size slab :
  0 <= memory -> slab_for size = Some slab -> fits memory size * slab <= memory.
Proof.
  intros Hm Hs. unfold fits. rewrite Hs.
  assert (Hr : 0 < slab <= 32767).
  { apply lower_bound_Some in Hs as [Hin _]. revert slab Hin. apply Forall_forall. repeat constructor; lia. }
  destruct (per_chunk_bounds slab Hr) as (H1 & _ & H3). pose proof (hs_bounds (per_chunk slab) ltac:(lia)).
  pose proof (Z.mul_div_le memory MemoryPool.kChunkSize ltac:(done)).
  assert (0 <= memory / MemoryPool.kChunkSize) by (apply Z.div_pos; unfold MemoryPool.kChunkSize; lia).
  rewrite <- Z.mul_assoc. transitivity (memory / MemoryPool.kChunkSize * MemoryPool.kChunkSize); [|lia].
  apply Z.mul_le_mono_nonneg_l; lia.
Qed.
End Serve.

(** ** Concrete servers *)

Section Concrete.
Import KVEnginePetKV Main.

Definition empty_files (_ : Z) : PetMultiKV.shard_files :=
  PetMultiKV.Build_shard_files [] ∅ false zero_file false ∅.

Lemma open_config files capacity value_size cfg e :
  open config48 files capacity value_size = Ret (cfg, e) ->
  PetKVData.choose_config (shard_memory capacity value_size) config48 = Ret cfg.
Proof.
  unfold open, PetMultiKV.open. fold (shard_memory capacity value_size). intros H.
  destruct (PetKVData.choose_config _ _) as [c|]; [|done]. cbn [mbind outcome_bind] in H.
  destruct (MemoryPool.mapM _ _); [|done]. cbn [mbind outcome_bind] in H. by injection H as -> _.
Qed.

(** An engine on new files with less than 32 GB per shard. *)
Lemma open_small capacity value_size :
  new_store empty_files capacity value_size ->
  PetKVData.choose_config (shard_memory capacity value_size) config48 = Ret config48 ->
  exists e, open config48 empty_files capacity value_size = Ret (config48, e).
Proof.
  intros [Hnew Hm Hc _ _] Hcfg.
  destruct (open_new_engine by_key empty_files capacity value_size Hm Hc Hnew) as (cfg & _ & e & HO & _).
  pose proof (open_config _ _ _ _ _ HO) as HC. rewrite Hcfg in HC. injection HC as <-. by exists e.
Qed.

(** Server 1 of two, values of 512 bytes, the keys from 1 to 8. *)
Definition pet_flags : Flags :=
  {| db := "KVEnginePersistDoubleShmKV"; key_space_m := 1; warmup_ratio := S754_finite false 4503599627370496 (-69);
     warmup_thread_num := 1; thread_num := 2; preload := true; check_all_inserted := false; use_dram := false;
     exit_ := false; value_size := 512 |}.

Definition pet_choice : choice := Build_choice "KVEnginePetKV" 1 "double-placeholder" None None.

Definition pet_config : BaseKVConfig :=
  {| c_value_size := 512; hash_size := None; pool_size := None; num_threads := 2; capacity := 524288;
     path := "/dev/shm/petps_server1/double-placeholder"; hash_name := "clht" |}.

Definition pet_creators : gmap string (option (BaseKVConfig -> outcome (engine (M := pool_of false)))) :=
  registered (pet_creator empty_files (Epoch.make 64)) (fun _ => Err CheckFailed).

Lemma pet_store : new_store empty_files 524288 512.
Proof. split; [done|by vm_compute|by vm_compute|lia|done]. Qed.

#[local] Instance pet_base_1 : BaseKV (engine (M := pool_of false)) := pet_base config48 by_key 1.


(** *** 832000 of 1048576 keys with values of 256 bytes *)

Lemma residues (m : nat) i :
  0 <= i < shard_num -> load_of by_key (seqZ 1 (16 * Z.of_nat m)) i = Z.of_nat m.
Proof.
  intros Hi. unfold load_of, by_key. induction m as [|m IH]; [done|].
  replace (16 * Z.of_nat (S m)) with (16 * Z.of_nat m + 16) by lia. rewrite seqZ_app by lia.
  rewrite fmap_app, occ_app, IH.
  assert (E : (fun k => k mod shard_num) <$> seqZ (1 + 16 * Z.of_nat m) 16 = (fun k => k mod shard_num) <$> seqZ 1 16).
  { apply list_eq. intros n. rewrite !list_lookup_fmap. destruct (decide (n < 16)%nat) as [Hn|Hn].
    - rewrite !lookup_seqZ_lt by lia. cbn. f_equal. unfold shard_num.
      replace (1 + 16 * Z.of_nat m + Z.of_nat n) with (1 + Z.of_nat n + Z.of_nat m * 16) by lia. by apply Z_mod_plus_full.
    - by rewrite !lookup_seqZ_ge by lia. }
  rewrite E. unfold shard_num in Hi. assert (Hin : i ∈ seqZ 0 16) by (apply elem_of_seqZ; lia).
  assert (HF : Forall (fun i => occ i ((fun k => k mod shard_num) <$> seqZ 1 16) = 1) (seqZ 0 16))
    by (repeat (constructor; [done|]); constructor).
  rewrite Forall_forall in HF. rewrite (HF i Hin). lia.
Qed.

Definition warm_helper (e : kv (M := pool_of false)) : LoadDBHelper.helper (engine (M := pool_of false)) :=
  {| LoadDBHelper.kv_ := Build_engine e (Epoch.make 64); LoadDBHelper.server_id_ := 0; LoadDBHelper.warm_thread_count_ := 1;
     LoadDBHelper.warmup_kv_count_in_this_ps_ := None; LoadDBHelper.warm_capacity_ := 832000 |}.

Definition one_server_partition (_ : Z) : Z := 0.

Lemma warm_sizes e : sizes_ok (warm_helper e) 1.
Proof. unfold sizes_ok. cbn. lia. Qed.

Lemma warm_keys e :
  LoadDBHelper.own_keys one_server_partition (warm_helper e) LoadDBHelper.start (LoadDBHelper.end_ (warm_helper e)) =
  seqZ 1 (16 * Z.of_nat (Z.to_nat 52000)).
Proof.
  rewrite (end_eq _ 1 (warm_sizes e)). unfold LoadDBHelper.own_keys. rewrite list_filter_all by done.
  rewrite Z2Nat.id by lia. done.
Qed.

Lemma PetKV_warmup_dies_witness :
  exists e, open config48 empty_files 1048576 256 = Ret (config48, e) /\
    LoadDBHelper.PreLoadDB 256 one_server_partition (warm_helper e) false
      (LoadDBHelper.thread_puts one_server_partition (warm_helper e) 0) = Err LogFatal.
Proof.
  assert (Hst : new_store empty_files 1048576 256) by (split; [done|by vm_compute|by vm_compute|lia|done]).
  destruct (open_small 1048576 256 Hst) as [e HO]; [by_eval|]. exists e. split; [exact HO|].
  apply (PetKV_warmup_dies config48 by_key 1 empty_files one_server_partition (warm_helper e) e (Epoch.make 64)
    (LoadDBHelper.thread_puts one_server_partition (warm_helper e) 0) 1048576 256 Hst HO eq_refl).
  - exact (warm_sizes e).
  - rewrite warm_keys. intros i Hi. rewrite residues, Z2Nat.id by (done || lia).
    change (shard_capacity 1048576) with 65536. lia.
  - rewrite warm_keys, length_seqZ, !Z2Nat.id by lia.
    assert (E : fits (shard_memory 1048576 256) 256 = 31744) by by_eval. rewrite E. done.
  - change (seqZ 0 _) with [0]. apply interleaving_single.
Defined.
End Concrete.
