(* ===== verification/RawMsg.v ===== *)
(** * Messages and addresses of the RDMA library (third_party/Mayfly-main)

    RawMessageConnection.h, GlobalAddress.h and Slice.h: a message is a packed
    header of 14 bytes followed by a body that [add] and [add_string] extend and
    that [get] and [get_string] read with a cursor.  A message is kept where the
    program keeps it, at an address of the byte memory of the process; the
    fields are read and written there, at their width.  The theorems: what is
    added is read back, in the order in which it was added; a header field is not
    touched by the body; a global address is read back from its eight bytes. *)

From stdpp Require Import base numbers list gmap.
From Stdlib Require Import ZArith Lia.
From S2P Require Import Prelude PetKV PetKVSpec Array Ps.

(** ** GlobalAddress.h *)

Module GlobalAddress.
Record gaddr := Build_gaddr { nodeID : Z; offset : Z }.

Definition Null : gaddr := {| nodeID := 0; offset := 0 |}.

(** An assignment to the bit fields [nodeID : 16] and [offset : 48]. *)
Definition make (node off : Z) : gaddr := {| nodeID := node mod 2 ^ 16; offset := off mod 2 ^ 48 |}.

Definition GADD (addr : gaddr) (off : Z) : gaddr := {| nodeID := nodeID addr; offset := (offset addr + off) mod 2 ^ 48 |}.

Definition eqb (lhs rhs : gaddr) : bool := (nodeID lhs =? nodeID rhs) && (offset lhs =? offset rhs).

(** The packed word: the first bit field has the low bits. *)
Definition word (g : gaddr) : Z := nodeID g + Z.shiftl (offset g) 16.
Definition of_word (w : Z) : gaddr := {| nodeID := Z.land w (2 ^ 16 - 1); offset := Z.shiftr w 16 |}.

#[export] Instance gaddr_eq_dec : EqDecision gaddr.
Proof. solve_decision. Defined.
End GlobalAddress.

(** ** Slice.h, RawMessageConnection.h *)

Module Msg.
Implicit Types (mem : gmap Z Z).

Definition MESSAGE_SIZE : Z := 4096.

(** [s] is [None] for a null pointer. *)
Record Slice := Build_Slice { s : option Z; len : Z }.
Definition Void : Slice := {| s := None; len := 0 |}.

(** The bytes of a slice. *)
Definition slice_bytes mem (x : Slice) : list Z :=
  match s x with
  | Some a => read_bytes mem a (len x)
  | None => []
  end.

(** [enum RpcType : uint8_t]: the constructors in order. *)
Definition RpcTypes : list RpcType :=
  [GET; PUT; DEL; GET_SERVER_THREADIDS; RESP_GET_OK; RESP_GET_NOT_FOUND; RESP_PUT; RESP_DEL_OK; RESP_DEL_NOT_FOUND;
   RESP_GET_SERVER_THREADIDS].

Definition type_code (t : RpcType) : Z :=
  match t with
  | GET => 0 | PUT => 1 | DEL => 2 | GET_SERVER_THREADIDS => 3
  | RESP_GET_OK => 4 | RESP_GET_NOT_FOUND => 5 | RESP_PUT => 6 | RESP_DEL_OK => 7 | RESP_DEL_NOT_FOUND => 8
  | RESP_GET_SERVER_THREADIDS => 9
  end.

(** [None]: a byte that is none of the values. *)
Definition code_type (c : Z) : option RpcType := RpcTypes !! Z.to_nat c.

(** The packed structure: type, node_id, t_id, rpc_tag (a byte each),
    receive_gaddr (8 bytes), msg_size (2 bytes), then the body. *)
Definition sizeof_RawMessage : Z := 14.
Definition body (m : Z) : Z := m + sizeof_RawMessage.

Definition get_field mem (m off : Z) (n : nat) : Z := le_value (read_bytes mem (m + off) (Z.of_nat n)).
Definition set_field mem (m off : Z) (n : nat) (v : Z) : gmap Z Z := write_bytes mem (m + off) (le_bytes n v).

Definition type mem m : option RpcType := code_type (get_field mem m 0 1).
Definition node_id mem m : Z := get_field mem m 1 1.
Definition t_id mem m : Z := get_field mem m 2 1.
Definition receive_gaddr mem m : GlobalAddress.gaddr := GlobalAddress.of_word (get_field mem m 4 8).
Definition msg_size mem m : Z := get_field mem m 12 2.

Definition set_type mem m (t : RpcType) := set_field mem m 0 1 (type_code t).
Definition set_node_id mem m (n : Z) := set_field mem m 1 1 n.
Definition set_t_id mem m (t : Z) := set_field mem m 2 1 t.
Definition set_receive_gaddr mem m (g : GlobalAddress.gaddr) := set_field mem m 4 8 (GlobalAddress.word g).
Definition set_msg_size mem m (n : Z) := set_field mem m 12 2 n.

Definition size mem m : Z := sizeof_RawMessage + msg_size mem m.
Definition clear mem m : gmap Z Z := set_msg_size mem m 0.

(** [add<T>] of an unsigned type of [n] bytes. *)
Definition add (n : nat) mem m (v : Z) : gmap Z Z :=
  let mem := write_bytes mem (body m + msg_size mem m) (le_bytes n v) in
  set_msg_size mem m (msg_size mem m + Z.of_nat n).

(** [k] bytes from [src]; [k] is a uint32_t. *)
Definition add_string_wo_size mem m (src k : Z) : gmap Z Z :=
  let mem := write_bytes mem (body m + msg_size mem m) (read_bytes mem src k) in
  set_msg_size mem m (msg_size mem m + k).

Definition add_string mem m (src k : Z) : gmap Z Z := add_string_wo_size (add 4 mem m k) m src k.

(** The overload with a slice, whose length becomes a uint32_t; [None] is
    dereferenced only if there is a byte to copy. *)
Definition add_string_slice mem m (x : Slice) : outcome (gmap Z Z) :=
  match s x with
  | Some src => Ret (add_string mem m src (u32 (len x)))
  | None => if u32 (len x) =? 0 then Ret (add 4 mem m 0) else Err Undefined
  end.

(** The readers, with the offset of the cursor, a uint32_t. *)
Definition get (n : nat) mem m (off : Z) : Z * Z :=
  (le_value (read_bytes mem (body m + off) (Z.of_nat n)), u32 (off + Z.of_nat n)).

Definition get_string_wo_size m (off size : Z) : Slice * Z :=
  ({| s := Some (body m + off); len := size |}, u32 (off + size)).

Definition get_string mem m (off : Z) : Slice * Z :=
  let k := le_value (read_bytes mem (body m + off) 4) in
  ({| s := Some (body m + off + 4); len := k |}, u32 (off + (4 + k))).

(** [th]: the [k]-th message of an array of messages. *)
Definition th (m k : Z) : Z := m + MESSAGE_SIZE * k.

(** [get_new_msg], with the address that [malloc] returns; only [msg_size] is
    initialised. *)
Definition get_new_msg mem m : gmap Z Z := set_msg_size mem m 0.

Fixpoint init_msgs mem m (i : Z) (n : nat) : gmap Z Z :=
  match n with
  | O => mem
  | S n' => init_msgs (set_msg_size mem (th m i) 0) m (i + 1) n'
  end.
Definition get_new_msg_arr mem m (k : Z) : gmap Z Z := init_msgs mem m 0 (Z.to_nat k).
End Msg.

Import Msg.

(** ** Words and regions of the memory *)

Lemma read_bytes_ext (mem mem' : gmap Z Z) a n :
  (forall x, a <= x < a + n -> mem !! x = mem' !! x) -> read_bytes mem a n = read_bytes mem' a n.
Proof.
  intros H. unfold read_bytes. apply list_fmap_ext. intros i x Hx. apply lookup_seqZ in Hx as [-> Hi].
  by rewrite H by lia.
Qed.

Lemma write_bytes_out (mem : gmap Z Z) a bs x :
  ~ (a <= x < a + Z.of_nat (length bs)) -> write_bytes mem a bs !! x = mem !! x.
Proof. intros H. by rewrite write_bytes_lookup, decide_False. Qed.

Lemma le_value_bytes_mod n x : le_value (le_bytes n x) = x mod 256 ^ Z.of_nat n.
Proof.
  revert x. induction n as [|n IH]; intros x; cbn [le_bytes le_value]; [by rewrite Z.mod_1_r|].
  rewrite IH, Nat2Z.inj_succ, Z.pow_succ_r, Z.rem_mul_r by lia. lia.
Qed.

Lemma read_write_bytes mem a bs n : n = Z.of_nat (length bs) -> read_bytes (write_bytes mem a bs) a n = bs.
Proof. intros ->. apply read_write_same. Qed.

Lemma get_set_field mem m off n v : get_field (set_field mem m off n v) m off n = v mod 256 ^ Z.of_nat n.
Proof.
  unfold get_field, set_field. rewrite read_write_bytes by (by rewrite le_bytes_length). apply le_value_bytes_mod.
Qed.

Lemma get_field_ext mem mem' m off n :
  (forall x, m + off <= x < m + off + Z.of_nat n -> mem !! x = mem' !! x) -> get_field mem m off n = get_field mem' m off n.
Proof. intros H. unfold get_field. by rewrite (read_bytes_ext mem mem'). Qed.

Lemma set_field_out mem m off n v x : ~ (m + off <= x < m + off + Z.of_nat n) -> set_field mem m off n v !! x = mem !! x.
Proof. intros H. unfold set_field. apply write_bytes_out. by rewrite le_bytes_length. Qed.

(** Fields of the header that do not overlap. *)
Lemma get_set_other mem m off n v off' n' :
  off + Z.of_nat n <= off' \/ off' + Z.of_nat n' <= off ->
  get_field (set_field mem m off n v) m off' n' = get_field mem m off' n'.
Proof. intros H. apply get_field_ext. intros x Hx. apply set_field_out. lia. Qed.

Create HintDb fields discriminated.
#[export] Hint Rewrite get_set_field : fields.
#[export] Hint Rewrite get_set_other using lia : fields.

(** ** GlobalAddress *)

Lemma gaddr_word_range g :
  0 <= GlobalAddress.nodeID g < 2 ^ 16 -> 0 <= GlobalAddress.offset g < 2 ^ 48 -> 0 <= GlobalAddress.word g < 2 ^ 64.
Proof. intros. unfold GlobalAddress.word. rewrite Z.shiftl_mul_pow2 by lia. lia. Qed.

Lemma of_word_word g :
  0 <= GlobalAddress.nodeID g < 2 ^ 16 -> 0 <= GlobalAddress.offset g < 2 ^ 48 ->
  GlobalAddress.of_word (GlobalAddress.word g) = g.
Proof.
  intros Hn Ho. unfold GlobalAddress.of_word, GlobalAddress.word. destruct g as [n o]. cbn in *.
  rewrite land_mask, Z.shiftl_mul_pow2, Z.shiftr_div_pow2 by lia. f_equal.
  - rewrite Z.mod_add by lia. by apply Z.mod_small.
  - rewrite Z.div_add by lia. rewrite Z.div_small by lia. lia.
Qed.

Lemma make_range node off :
  let g := GlobalAddress.make node off in
  0 <= GlobalAddress.nodeID g < 2 ^ 16 /\ 0 <= GlobalAddress.offset g < 2 ^ 48.
Proof. cbn. split; apply Z.mod_pos_bound; lia. Qed.

(** A global address is read back from the message it was stored in. *)
Lemma receive_gaddr_set mem m node off :
  receive_gaddr (set_receive_gaddr mem m (GlobalAddress.make node off)) m = GlobalAddress.make node off.
Proof.
  unfold receive_gaddr, set_receive_gaddr. rewrite get_set_field. destruct (make_range node off) as [Hn Ho].
  rewrite Z.mod_small by (by apply gaddr_word_range). by apply of_word_word.
Qed.

Lemma type_set mem m t : type (set_type mem m t) m = Some t.
Proof. unfold type, set_type. rewrite get_set_field. by destruct t. Qed.

(** ** What is added to a body is read back

    An item of a body: a word of [n] bytes, or the [k] bytes at [src]. *)

Inductive item := Word (n : nat) (v : Z) | Str (src k : Z).
Inductive content := CWord (v : Z) | CBytes (bs : list Z).

Definition add_item (mem : gmap Z Z) (m : Z) (it : item) : gmap Z Z :=
  match it with
  | Word n v => add n mem m v
  | Str src k => add_string mem m src k
  end.

Definition get_item (mem : gmap Z Z) (m : Z) (it : item) (off : Z) : content * Z :=
  match it with
  | Word n _ => let '(v, off) := get n mem m off in (CWord v, off)
  | Str _ _ => let '(x, off) := get_string mem m off in (CBytes (slice_bytes mem x), off)
  end.

Fixpoint get_items (mem : gmap Z Z) (m : Z) (its : list item) (off : Z) : list content * Z :=
  match its with
  | [] => ([], off)
  | it :: its' =>
      let '(c, off) := get_item mem m it off in
      let '(cs, off) := get_items mem m its' off in (c :: cs, off)
  end.

Definition item_size (it : item) : Z := match it with Word n _ => Z.of_nat n | Str _ k => 4 + k end.
Definition items_size (its : list item) : Z := sumZ item_size its.

(** The content of an item before it is added. *)
Definition content_of (mem : gmap Z Z) (it : item) : content :=
  match it with Word _ v => CWord v | Str src k => CBytes (read_bytes mem src k) end.

(** A word of its width; bytes outside of the message, which ends at [hi]. *)
Definition item_ok (m hi : Z) (it : item) : Prop :=
  match it with
  | Word n v => 0 <= v < 256 ^ Z.of_nat n
  | Str src k => 0 <= k < 2 ^ 32 /\ (src + k <= m \/ hi <= src)
  end.

Lemma item_size_nonneg m hi it : item_ok m hi it -> 0 <= item_size it.
Proof. destruct it; cbn; lia. Qed.

Lemma items_size_nonneg m hi its : Forall (item_ok m hi) its -> 0 <= items_size its.
Proof.
  intros H. apply sumZ_nonneg. intros it Hit. apply (item_size_nonneg m hi). by eapply Forall_forall in Hit.
Qed.

(** Outside of [msg_size] and of the [n] bytes of the body from [off] on, the two
    memories agree. *)
Definition same_outside (m off n : Z) (mem mem' : gmap Z Z) : Prop :=
  forall x, ~ (m + 12 <= x < m + 14) -> ~ (body m + off <= x < body m + off + n) -> mem' !! x = mem !! x.

Lemma msg_size_range mem m : Forall (fun b => 0 <= b < 256) (read_bytes mem (m + 12) 2) -> 0 <= msg_size mem m < 2 ^ 16.
Proof.
  unfold msg_size, get_field. change (Z.of_nat 2) with 2. pose proof (read_bytes_length mem (m + 12) 2) as Hl.
  destruct (read_bytes mem (m + 12) 2) as [|a [|b [|? ?]]]; try discriminate Hl. intros H.
  inversion H as [|? ? Ha H']. inversion H' as [|? ? Hb _]. cbn [le_value]. lia.
Qed.

Lemma set_msg_size_out mem m n x : ~ (m + 12 <= x < m + 14) -> set_msg_size mem m n !! x = mem !! x.
Proof. intros H. unfold set_msg_size. apply set_field_out. lia. Qed.

(** A write into the body, then the new size. *)
Lemma append_spec mem m bs :
  let ms := msg_size mem m in let mem' := set_msg_size (write_bytes mem (body m + ms) bs) m (ms + Z.of_nat (length bs)) in
  0 <= ms -> ms + Z.of_nat (length bs) < 2 ^ 16 ->
  msg_size mem' m = ms + Z.of_nat (length bs) /\ same_outside m ms (Z.of_nat (length bs)) mem mem' /\
  read_bytes mem' (body m + ms) (Z.of_nat (length bs)) = bs.
Proof.
  intros ms mem' H0 H1. unfold mem'. split_and!.
  - unfold msg_size, set_msg_size. rewrite get_set_field. apply Z.mod_small. change (256 ^ Z.of_nat 2) with (2 ^ 16). lia.
  - intros x Hx Hb. rewrite set_msg_size_out by lia. by apply write_bytes_out.
  - rewrite (read_bytes_ext _ (write_bytes mem (body m + ms) bs)).
    + apply read_write_same.
    + intros x Hx. apply set_msg_size_out. unfold body, sizeof_RawMessage in Hx. lia.
Qed.

Lemma add_spec n mem m v :
  let ms := msg_size mem m in let mem' := add n mem m v in
  0 <= ms -> ms + Z.of_nat n < 2 ^ 16 ->
  msg_size mem' m = ms + Z.of_nat n /\ same_outside m ms (Z.of_nat n) mem mem' /\
  read_bytes mem' (body m + ms) (Z.of_nat n) = le_bytes n v.
Proof.
  intros ms mem' H0 H1. pose proof (append_spec mem m (le_bytes n v)) as H. cbv zeta in H. rewrite le_bytes_length in H.
  unfold mem', add. cbv zeta.
  replace (msg_size (write_bytes mem (body m + msg_size mem m) (le_bytes n v)) m) with ms; [by apply H|].
  apply get_field_ext. intros x Hx. symmetry. apply write_bytes_out. unfold body, sizeof_RawMessage in *. fold ms. lia.
Qed.

Lemma add_string_wo_size_spec mem m src k :
  let ms := msg_size mem m in let mem' := add_string_wo_size mem m src k in
  0 <= ms -> 0 <= k -> ms + k < 2 ^ 16 ->
  msg_size mem' m = ms + k /\ same_outside m ms k mem mem' /\
  read_bytes mem' (body m + ms) k = read_bytes mem src k.
Proof.
  intros ms mem' H0 Hk H1. pose proof (append_spec mem m (read_bytes mem src k)) as H. cbv zeta in H.
  rewrite read_bytes_length, Z2Nat.id in H by lia. unfold mem', add_string_wo_size. cbv zeta.
  replace (msg_size (write_bytes mem (body m + msg_size mem m) (read_bytes mem src k)) m) with ms; [by apply H|].
  apply get_field_ext. intros x Hx. symmetry. apply write_bytes_out. unfold body, sizeof_RawMessage in *. fold ms. lia.
Qed.

Lemma same_outside_read m off n mem mem' a k :
  same_outside m off n mem mem' -> a + k <= m \/ body m + off + n <= a \/ (body m <= a /\ a + k <= body m + off) ->
  0 <= off -> 0 <= n -> read_bytes mem' a k = read_bytes mem a k.
Proof.
  intros H Ha Ho Hn. apply read_bytes_ext. intros x Hx. unfold body, sizeof_RawMessage in *. apply H; unfold body, sizeof_RawMessage; lia.
Qed.

(** [add_string] then [get_string] at the place where it was added. *)
Lemma add_string_spec mem m src k hi :
  let ms := msg_size mem m in let mem' := add_string mem m src k in
  0 <= ms -> item_ok m hi (Str src k) -> ms + 4 + k < 2 ^ 16 -> body m + ms + 4 + k <= hi ->
  msg_size mem' m = ms + 4 + k /\ same_outside m ms (4 + k) mem mem' /\
  get_string mem' m ms = ({| s := Some (body m + ms + 4); len := k |}, ms + 4 + k) /\
  slice_bytes mem' {| s := Some (body m + ms + 4); len := k |} = read_bytes mem src k.
Proof.
  intros ms mem' H0 [Hk Hsrc] H1 Hhi. destruct (add_spec 4 mem m k H0) as (Hs1 & Ho1 & Hr1); [fold ms; lia|].
  change (Z.of_nat 4) with 4 in *. fold ms in Hs1, Ho1, Hr1.
  destruct (add_string_wo_size_spec (add 4 mem m k) m src k) as (Hs2 & Ho2 & Hr2); [lia..|].
  fold (add_string mem m src k) in Hs2, Ho2, Hr2. fold mem' in Hs2, Ho2, Hr2. rewrite Hs1 in *.
  rewrite (same_outside_read _ _ _ _ _ src k Ho1) in Hr2 by (unfold body, sizeof_RawMessage in *; lia).
  replace (body m + (ms + 4)) with (body m + ms + 4) in * by lia.
  split_and!.
  - lia.
  - intros x Hx Hb. rewrite Ho2, Ho1 by lia. done.
  - unfold get_string.
    rewrite (same_outside_read _ _ _ _ _ (body m + ms) 4 Ho2) by lia. rewrite Hr1, le_value_bytes by (cbn; lia).
    rewrite u32_small by lia. f_equal. lia.
  - done.
Qed.

(** The same for the two kinds of items; the item is read from its bytes only. *)
Lemma add_item_spec mem m it hi :
  let ms := msg_size mem m in let mem' := add_item mem m it in
  0 <= ms -> item_ok m hi it -> ms + item_size it < 2 ^ 16 -> body m + ms + item_size it <= hi ->
  msg_size mem' m = ms + item_size it /\ same_outside m ms (item_size it) mem mem' /\
  (forall mem2, read_bytes mem2 (body m + ms) (item_size it) = read_bytes mem' (body m + ms) (item_size it) ->
     get_item mem2 m it ms = (content_of mem it, ms + item_size it)).
Proof.
  destruct it as [n v|src k]; cbn [item_size add_item get_item content_of]; intros H0 Hok H1 Hhi.
  - destruct (add_spec n mem m v) as (Hs & Ho & Hr); [lia..|]. split_and!; [done..|]. intros mem2 H2.
    unfold get. rewrite H2, Hr, le_value_bytes by done. by rewrite u32_small by lia.
  - destruct (add_string_spec mem m src k hi) as (Hs & Ho & Hg & Hr); [done|done|lia|lia|].
    destruct Hok as [Hk _]. split_and!; [lia|done|]. intros mem2 H2. rewrite !read_bytes_split in H2 by lia.
    apply app_inj_1 in H2 as [H4 H2]; [|by rewrite !read_bytes_length].
    unfold get_string in *. rewrite H4. set (k' := le_value _) in *. cbn [slice_bytes s len] in *.
    assert (Hk' : k' = k) by congruence. assert (Hoff : u32 (msg_size mem m + (4 + k')) = msg_size mem m + 4 + k) by congruence.
    rewrite Hk' in Hoff |- *.
    rewrite H2, Hr, Hoff. f_equal. lia.
Qed.

Lemma content_of_frame m off n hi mem mem' it :
  same_outside m off n mem mem' -> item_ok m hi it -> 0 <= off -> 0 <= n -> body m + off + n <= hi ->
  content_of mem' it = content_of mem it.
Proof.
  intros H Hok H0 Hn Hhi. destruct it as [w v|src k]; [done|]. destruct Hok as [Hk Hs]. cbn. f_equal.
  apply (same_outside_read _ _ _ _ _ _ _ H); lia.
Qed.

Lemma same_outside_weaken m off n off' n' mem mem' :
  same_outside m off n mem mem' -> off' <= off -> off + n <= off' + n' -> same_outside m off' n' mem mem'.
Proof. intros H H1 H2 x Hx Hb. apply H; [done|lia]. Qed.

Lemma same_outside_trans m off n mem mem1 mem2 :
  same_outside m off n mem mem1 -> same_outside m off n mem1 mem2 -> same_outside m off n mem mem2.
Proof. intros H1 H2 x Hx Hb. by rewrite H2, H1. Qed.

Definition add_items (mem : gmap Z Z) (m : Z) (its : list item) : gmap Z Z := foldl (fun mem it => add_item mem m it) mem its.

Lemma add_items_spec its mem m hi :
  let ms := msg_size mem m in let mem' := add_items mem m its in
  0 <= ms -> Forall (item_ok m hi) its -> ms + items_size its < 2 ^ 16 -> body m + ms + items_size its <= hi ->
  msg_size mem' m = ms + items_size its /\ same_outside m ms (items_size its) mem mem' /\
  get_items mem' m its ms = (content_of mem <$> its, ms + items_size its).
Proof.
  revert mem. induction its as [|it its IH]; intros mem ms mem' H0 HF H1 Hhi.
  { cbn. change (items_size []) with 0. rewrite Z.add_0_r. split_and!; [done|by intros x|done]. }
  apply Forall_cons in HF as [Hit HF]. unfold items_size in *. cbn [sumZ foldr] in *. fold (sumZ item_size its) in *.
  pose proof (item_size_nonneg _ _ _ Hit) as Hi. pose proof (items_size_nonneg _ _ _ HF) as Hn.
  unfold items_size in Hn.
  destruct (add_item_spec mem m it hi) as (Hs & Ho & Hg); [done|done|fold ms; lia|fold ms; lia|]. fold ms in Hs, Ho, Hg.
  destruct (IH (add_item mem m it)) as (Hs2 & Ho2 & Hg2); [rewrite Hs; lia|done|rewrite Hs; lia|rewrite Hs; lia|].
  cbn [add_items foldl] in mem'. fold (add_items (add_item mem m it) m its) in mem'. fold mem' in Hs2, Ho2, Hg2.
  rewrite Hs in Hs2, Ho2, Hg2. split_and!.
  - lia.
  - eapply same_outside_trans; eapply same_outside_weaken; [exact Ho|lia|lia|exact Ho2|lia|lia].
  - cbn [get_items fmap list_fmap]. rewrite Hg.
    + rewrite Hg2. f_equal; [|lia]. f_equal. apply list_fmap_ext. intros i x Hx.
      apply (content_of_frame m ms (item_size it) hi); [done|by eapply Forall_lookup_1|lia..].
    + apply (same_outside_read _ _ _ _ _ _ _ Ho2); lia.
Qed.


