(* ===== verification/Rdma.v ===== *)
(** * One-sided operations of the RDMA library (third_party/Mayfly-main/src/rdma/Operation.cpp)

    The functions build work requests and post them to a queue pair.  A function
    returns the list of the work requests that it posts.  libibverbs is a
    parameter: [ibv_post_send] accepts a list or does not, and [rnic] is what the
    adapter does to the remote memory with the requests of a reliable connection,
    in order; the laws of [rnic] are the documented ones: a write gathers its
    buffers one after the other and stores them at the remote address, a request
    with a buffer outside of the memory region of its key fails with a protection
    error and those behind it are flushed.

    The theorem on [rdmaWriteVector]: whatever the number of buffers per work
    request, the work requests leave the concatenation of the buffers at the
    destination. *)

From stdpp Require Import base numbers list gmap.
From Stdlib Require Import ZArith Lia.
From S2P Require Import Prelude PetKV PetKVSpec Array RawMsg.

Module Rdma.

Record ibv_sge := Build_sge { sg_addr : Z; sg_length : Z; sg_lkey : Z }.

Inductive wr_opcode :=
  | RDMA_WRITE | RDMA_WRITE_WITH_IMM | SEND | SEND_WITH_IMM | RDMA_READ | ATOMIC_CMP_AND_SWP | ATOMIC_FETCH_AND_ADD.

#[export] Instance wr_opcode_eq_dec : EqDecision wr_opcode.
Proof. solve_decision. Defined.

(** [remote_addr] and [rkey] are those of [wr.rdma] and of [wr.atomic];
    [atomic_args] are [compare_add] and [swap]; [ud] is the address handle and
    the number of the queue pair. *)
Record ibv_send_wr := Build_wr {
  wr_id : Z;
  sg_list : list ibv_sge;
  opcode : wr_opcode;
  signaled : bool;
  inline_ : bool;
  remote_addr : Z;
  rkey : Z;
  atomic_args : Z * Z;
  ud : Z * Z
}.

(** [fillSgeWr]: one buffer; [sg.length] is a uint32_t. *)
Definition fillSgeWr (op : wr_opcode) (source size lkey : Z) : ibv_send_wr :=
  {| wr_id := 0; sg_list := [{| sg_addr := source; sg_length := u32 size; sg_lkey := lkey |}]; opcode := op;
     signaled := false; inline_ := false; remote_addr := 0; rkey := 0; atomic_args := (0, 0); ud := (0, 0) |}.

Definition kMaxInlineData : Z := 64.

(** [SourceList]: [size] is a uint16_t. *)
Record SourceList := Build_SourceList { addr : Z; size : Z }.

(** A work request of the array [wr] of [rdmaWriteVector]: [row] is the row of
    [sg] that [sg_list] points to, [next] the index of the next one. *)
Record vec_wr := Build_vec_wr {
  row : nat;
  num_sge : nat;
  v_remote_addr : Z;
  v_rkey : Z;
  v_wr_id : Z;
  v_signaled : bool;
  next : option nat
}.

Section Post.
(** [ibv_post_send]: [true] when it returns 0. *)
Context (ibv_post_send : list ibv_send_wr -> bool).

(** A failed post is reported and the function returns false. *)
Definition post (ws : list ibv_send_wr) : outcome (bool * list ibv_send_wr) :=
  if ibv_post_send ws then Ret (true, ws) else Ret (false, []).

(** A failed post of a write is an assertion that fails. *)
Definition post_or_die (ws : list ibv_send_wr) : outcome (list ibv_send_wr) :=
  if ibv_post_send ws then Ret ws else Err CheckFailed.

(** [rdmaSend] of a datagram: a signaled request is not inline, the flags are
    overwritten. *)
Definition rdmaSend_ud (source size lkey ah remoteQPN : Z) (isSignaled : bool) : outcome (bool * list ibv_send_wr) :=
  let w := fillSgeWr SEND source size lkey in
  post [{| wr_id := 0; sg_list := sg_list w; opcode := SEND; signaled := isSignaled;
           inline_ := if isSignaled then false else size <=? kMaxInlineData;
           remote_addr := 0; rkey := 0; atomic_args := (0, 0); ud := (ah, remoteQPN) |}].

(** [rdmaSend2Sge] *)
Definition rdmaSend2Sge (source1 size1 source2 size2 lkey1 lkey2 ah remoteQPN : Z) (isSignaled : bool) :
    outcome (bool * list ibv_send_wr) :=
  post [{| wr_id := 0;
           sg_list := [{| sg_addr := source1; sg_length := u32 size1; sg_lkey := lkey1 |};
                       {| sg_addr := source2; sg_length := u32 size2; sg_lkey := lkey2 |}];
           opcode := SEND; signaled := isSignaled; inline_ := false;
           remote_addr := 0; rkey := 0; atomic_args := (0, 0); ud := (ah, remoteQPN) |}].

Definition rdmaSend_rc (source size lkey imm : Z) : outcome (bool * list ibv_send_wr) :=
  let w := fillSgeWr SEND source size lkey in
  post [{| wr_id := 0; sg_list := sg_list w; opcode := if imm =? -1 then SEND else SEND_WITH_IMM; signaled := true;
           inline_ := false; remote_addr := 0; rkey := 0; atomic_args := (0, 0); ud := (0, 0) |}].

Definition rdmaRead (source dest size lkey remoteRKey : Z) (signal : bool) (wrID : Z) : outcome (bool * list ibv_send_wr) :=
  let w := fillSgeWr RDMA_READ source size lkey in
  post [{| wr_id := wrID; sg_list := sg_list w; opcode := RDMA_READ; signaled := signal; inline_ := false;
           remote_addr := dest; rkey := remoteRKey; atomic_args := (0, 0); ud := (0, 0) |}].

Definition rdmaWrite (source dest size lkey remoteRKey imm : Z) (isSignaled : bool) (wrID : Z) : outcome (list ibv_send_wr) :=
  let w := fillSgeWr RDMA_WRITE source size lkey in
  post_or_die [{| wr_id := wrID; sg_list := sg_list w;
                  opcode := if imm =? -1 then RDMA_WRITE else RDMA_WRITE_WITH_IMM; signaled := isSignaled;
                  inline_ := false; remote_addr := dest; rkey := remoteRKey; atomic_args := (0, 0); ud := (0, 0) |}].

Definition rdmaFetchAndAdd (source dest add lkey remoteRKey : Z) : outcome (bool * list ibv_send_wr) :=
  let w := fillSgeWr ATOMIC_FETCH_AND_ADD source 8 lkey in
  post [{| wr_id := 0; sg_list := sg_list w; opcode := ATOMIC_FETCH_AND_ADD; signaled := true; inline_ := false;
           remote_addr := dest; rkey := remoteRKey; atomic_args := (add, 0); ud := (0, 0) |}].

Definition rdmaCompareAndSwap (source dest compare swap lkey remoteRKey : Z) (signal : bool) :
    outcome (bool * list ibv_send_wr) :=
  let w := fillSgeWr ATOMIC_CMP_AND_SWP source 8 lkey in
  post [{| wr_id := 0; sg_list := sg_list w; opcode := ATOMIC_CMP_AND_SWP; signaled := signal; inline_ := false;
           remote_addr := dest; rkey := remoteRKey; atomic_args := (compare, swap); ud := (0, 0) |}].

(** *** rdmaWriteVector *)

Section Vector.
Context (list_size kCntSeg : nat) (dest lkey remoteRKey wrID : Z).

Definition zero_wr : vec_wr :=
  {| row := 0; num_sge := 0; v_remote_addr := 0; v_rkey := 0; v_wr_id := 0; v_signaled := false; next := None |}.
Definition zero_sge : ibv_sge := {| sg_addr := 0; sg_length := 0; sg_lkey := 0 |}.

(** What a round does to the work request [w] of its source: the first source of
    a work request fills it, the last of all ends the chain. *)
Definition vector_wr (i : nat) (acc_size : Z) (w : vec_wr) : vec_wr :=
  let req_id := (i / kCntSeg)%nat in
  let w := if (i mod kCntSeg =? 0)%nat then
             {| row := req_id; num_sge := Nat.min kCntSeg (list_size - req_id * kCntSeg);
                v_remote_addr := u64 (dest + acc_size); v_rkey := remoteRKey; v_wr_id := wrID;
                v_signaled := v_signaled w; next := Some (S req_id) |}
           else w in
  if (i =? list_size - 1)%nat then
    {| row := row w; num_sge := num_sge w; v_remote_addr := v_remote_addr w; v_rkey := v_rkey w;
       v_wr_id := v_wr_id w; v_signaled := true; next := None |}
  else w.

(** The body of the loop, for the source [x] of index [i]; the sum of the sizes
    is an int. *)
Definition vector_body (i : nat) (x : SourceList) (acc_size : Z) (wr : list vec_wr) (sg : list (list ibv_sge)) :
    outcome (Z * list vec_wr * list (list ibv_sge)) :=
  let req_id := (i / kCntSeg)%nat in
  let sge_id := (i mod kCntSeg)%nat in
  sges ← deref (sg !! req_id);
  _ ← deref (sges !! sge_id);
  let sge := {| sg_addr := addr x; sg_length := u32 (size x); sg_lkey := lkey |} in
  w ← deref (wr !! req_id);
  if 2 ^ 31 <=? acc_size + size x then Err Undefined else
  Ret (acc_size + size x, <[req_id := vector_wr i acc_size w]> wr, <[req_id := <[sge_id := sge]> sges]> sg).

Fixpoint vector_loop (i : nat) (source_list : list SourceList) (acc_size : Z) (wr : list vec_wr) (sg : list (list ibv_sge)) :
    outcome (list vec_wr * list (list ibv_sge)) :=
  match source_list with
  | [] => Ret (wr, sg)
  | x :: source_list' =>
      '(acc_size, wr, sg) ← vector_body i x acc_size wr sg;
      vector_loop (S i) source_list' acc_size wr sg
  end.

(** What [ibv_post_send] reads from [&wr[0]] on. *)
Fixpoint chain (fuel : nat) (i : nat) (wr : list vec_wr) (sg : list (list ibv_sge)) : outcome (list ibv_send_wr) :=
  match fuel with
  | O => Err Diverges
  | S fuel =>
      w ← deref (wr !! i);
      sges ← deref (sg !! row w);
      let x := {| wr_id := v_wr_id w; sg_list := take (num_sge w) sges; opcode := RDMA_WRITE;
                  signaled := v_signaled w; inline_ := false; remote_addr := v_remote_addr w; rkey := v_rkey w;
                  atomic_args := (0, 0); ud := (0, 0) |} in
      match next w with
      | None => Ret [x]
      | Some j => xs ← chain fuel j wr sg; Ret (x :: xs)
      end
  end.
End Vector.

(** [source_list] has [list_size] elements; no work request at all is an array
    of no elements, of which the first is posted.  The argument [isSignaled] is
    not used. *)
Definition rdmaWriteVector (source_list : list SourceList) (dest lkey remoteRKey wrID sgePerWr : Z) :
    outcome (list ibv_send_wr) :=
  if sgePerWr <=? 0 then Err Undefined else
  let kCntSeg := Z.to_nat sgePerWr in
  let list_size := length source_list in
  let kCntWr := ((list_size + kCntSeg - 1) / kCntSeg)%nat in
  if (kCntWr =? 0)%nat then Err Undefined else
  '(wr, sg) ← vector_loop list_size kCntSeg dest lkey remoteRKey wrID 0 source_list 0
                (replicate kCntWr zero_wr) (replicate kCntWr (replicate kCntSeg zero_sge));
  ws ← chain kCntWr 0 wr sg;
  post_or_die ws.
End Post.

(** [pollWithCQ] on the answers of [ibv_poll_cq(cq, 1, wc)]: how many completions
    (a negative number is an error) and whether the status of [wc] is a success. *)
Fixpoint poll_loop (polls : list (Z * bool)) (count pollNumber : Z) : outcome Z :=
  match polls with
  | [] => Err Diverges
  | (new_count, ok) :: polls' =>
      let count := count + new_count in
      if count <? pollNumber then poll_loop polls' count pollNumber
      else if count <? 0 then Ret (-1)
      else if ok then Ret count else Ret (-1)
  end.
Definition pollWithCQ (polls : list (Z * bool)) (pollNumber : Z) : outcome Z := poll_loop polls 0 pollNumber.

Definition pollOnce (count : Z) (ok : bool) : Z := if count <=? 0 then 0 else if ok then count else -1.
End Rdma.

Import Rdma.

(** ** The adapter *)

Section Rnic.
(** The memory regions: of a local key, of a remote key. *)
Context (region remote_region : Z -> option (Z * Z)).
Context (rnic : list ibv_send_wr -> gmap Z Z -> gmap Z Z -> gmap Z Z).

Definition inside (r : option (Z * Z)) (a n : Z) : Prop :=
  match r with Some (b, sz) => b <= a /\ a + n <= b + sz | None => False end.

#[export] Instance inside_dec r a n : Decision (inside r a n).
Proof. destruct r as [[b sz]|]; apply _. Defined.

Definition sge_valid (x : ibv_sge) : Prop := inside (region (sg_lkey x)) (sg_addr x) (sg_length x).

#[export] Instance sge_valid_dec x : Decision (sge_valid x).
Proof. unfold sge_valid. apply _. Defined.

(** The bytes of a gather list. *)
Definition gather (mem : gmap Z Z) (l : list ibv_sge) : list Z :=
  concat ((fun x => read_bytes mem (sg_addr x) (sg_length x)) <$> l).

(** [rnic ws local remote]: the remote memory after the requests [ws]. *)
Class RnicLaws : Prop := {
  rnic_nil local remote : rnic [] local remote = remote;
  rnic_write w ws local remote :
    opcode w = RDMA_WRITE -> Forall sge_valid (sg_list w) ->
    inside (remote_region (rkey w)) (remote_addr w) (Z.of_nat (length (gather local (sg_list w)))) ->
    rnic (w :: ws) local remote = rnic ws local (write_bytes remote (remote_addr w) (gather local (sg_list w)));
  rnic_protection w ws local remote : Exists (fun x => ~ sge_valid x) (sg_list w) -> rnic (w :: ws) local remote = remote
}.
End Rnic.

(** An adapter with these laws. *)
Fixpoint rnic_ref (region remote_region : Z -> option (Z * Z)) (ws : list ibv_send_wr) (local remote : gmap Z Z) : gmap Z Z :=
  match ws with
  | [] => remote
  | w :: ws' =>
      if decide (opcode w = RDMA_WRITE /\ Forall (sge_valid region) (sg_list w) /\
                 inside (remote_region (rkey w)) (remote_addr w) (Z.of_nat (length (gather local (sg_list w))))) then
        rnic_ref region remote_region ws' local (write_bytes remote (remote_addr w) (gather local (sg_list w)))
      else remote
  end.

#[export] Instance rnic_ref_laws region remote_region : RnicLaws region remote_region (rnic_ref region remote_region).
Proof.
  constructor.
  - done.
  - intros w ws local remote H1 H2 H3. cbn [rnic_ref]. by rewrite decide_True.
  - intros w ws local remote H. cbn [rnic_ref]. rewrite decide_False; [done|]. intros (_ & HF & _).
    apply Exists_exists in H as (x & Hx & Hn). by eapply Forall_forall in HF.
Qed.

Lemma write_bytes_app mem a b1 b2 :
  write_bytes mem a (b1 ++ b2) = write_bytes (write_bytes mem a b1) (a + Z.of_nat (length b1)) b2.
Proof.
  revert mem a. induction b1 as [|b b1 IH]; intros mem a; cbn [app write_bytes length]; [f_equal; lia|].
  rewrite IH. f_equal. lia.
Qed.

(** ** rdmaWriteVector: the work requests *)

Section Vector.
Context (c : nat) (Hc : (0 < c)%nat) (l : list SourceList) (Hl : l <> []) (dest lkey rkey_ wrID : Z).
Context (Hsz : Forall (fun x => 0 <= size x < 2 ^ 16) l) (Hsum : sumZ size l < 2 ^ 31).

Notation n := (length l).
Notation k := ((length l + c - 1) / c)%nat.

Definition sge_of (x : SourceList) : ibv_sge := {| sg_addr := addr x; sg_length := size x; sg_lkey := lkey |}.

(** The bytes of the first [i] sources. *)
Definition before (i : nat) : Z := sumZ size (take i l).

(** The [r]-th work request: [c] sources from [r * c] on, written behind those
    before them; the last one is signaled. *)
Definition request (r : nat) : ibv_send_wr :=
  {| wr_id := wrID; sg_list := sge_of <$> take c (drop (r * c) l); opcode := RDMA_WRITE;
     signaled := bool_decide (r = k - 1)%nat; inline_ := false; remote_addr := u64 (dest + before (r * c));
     rkey := rkey_; atomic_args := (0, 0); ud := (0, 0) |}.

Definition requests : list ibv_send_wr := request <$> seq 0 k.

(** The entry of the array, before and after the last round. *)
Definition entry (fin : bool) (r : nat) : vec_wr :=
  let last := fin && bool_decide (r = k - 1)%nat in
  {| row := r; num_sge := Nat.min c (n - r * c); v_remote_addr := u64 (dest + before (r * c)); v_rkey := rkey_;
     v_wr_id := wrID; v_signaled := last; next := if last then None else Some (S r) |}.

Record loop_inv (i : nat) (wr : list vec_wr) (sg : list (list ibv_sge)) : Prop := {
  li_sg : length sg = k;
  li_row r sges : sg !! r = Some sges -> length sges = c;
  li_wr r : (r < k)%nat ->
    wr !! r = Some (if decide (r * c < i)%nat then entry (bool_decide (i = n)) r else zero_wr);
  li_sge j x : (j < i)%nat -> l !! j = Some x ->
    exists sges, sg !! (j / c)%nat = Some sges /\ sges !! (j mod c)%nat = Some (sge_of x)
}.

Lemma n_pos : (0 < n)%nat.
Proof. clear -Hl. destruct l; [done|cbn; lia]. Qed.

Lemma req_lt i : (i < n)%nat -> (i / c < k)%nat.
Proof.
  clear Hsum Hsz. intros Hi. apply Nat.le_succ_l, Nat.div_le_lower_bound; [lia|].
  pose proof (Nat.Div0.mul_div_le i c). rewrite Nat.mul_succ_r. lia.
Qed.

Lemma last_req : ((n - 1) / c = k - 1)%nat.
Proof.
  clear Hsum Hsz. pose proof n_pos. replace (n + c - 1)%nat with ((n - 1) + 1 * c)%nat by lia.
  rewrite Nat.div_add by lia. lia.
Qed.

Lemma before_S i x : l !! i = Some x -> before (S i) = before i + size x.
Proof.
  clear. intros Hx. unfold before. rewrite (take_S_r _ _ _ Hx), sumZ_app. cbn. lia.
Qed.

Lemma before_le i : 0 <= before i <= sumZ size l.
Proof.
  clear -Hsz. assert (H : forall l', (forall x, x ∈ l' -> x ∈ l) -> 0 <= sumZ size l').
  { intros l' Hin. apply sumZ_nonneg. intros x Hx. apply Hin in Hx. eapply Forall_forall in Hsz; [|done]. lia. }
  assert (E : sumZ size l = before i + sumZ size (drop i l)).
  { unfold before. by rewrite <- sumZ_app, take_drop. }
  pose proof (H (take i l) (subseteq_take i l)). pose proof (H (drop i l) (subseteq_drop i l)). unfold before in *. lia.
Qed.

Lemma loop_inv_start : loop_inv 0 (replicate k zero_wr) (replicate k (replicate c zero_sge)).
Proof.
  clear. constructor.
  - by rewrite length_replicate.
  - intros r sges H. apply lookup_replicate in H as [-> _]. by rewrite length_replicate.
  - intros r Hr. by rewrite lookup_replicate_2.
  - intros; lia.
Qed.

(** The work request of the round. *)
Lemma entry_round i :
  (i < n)%nat -> let q := (i / c)%nat in
  vector_wr n c dest rkey_ wrID i (before i) (if decide (q * c < i)%nat then entry false q else zero_wr) =
    entry (bool_decide (S i = n)) q.
Proof.
  intros Hi q. pose proof (Nat.div_mod i c ltac:(lia)) as Hdm. fold q in Hdm.
  unfold vector_wr. fold q.
  destruct (Nat.eqb_spec (i mod c) 0) as [Hm|Hm].
  - rewrite decide_False by lia. replace (before i) with (before (q * c)) by (f_equal; lia).
    destruct (Nat.eqb_spec i (n - 1)) as [Hlast|Hlast]; unfold entry.
    + rewrite (bool_decide_eq_true_2 (S i = n)) by lia. rewrite (bool_decide_eq_true_2 (q = (k - 1)%nat)); [done|].
      rewrite <- last_req. unfold q. by rewrite Hlast.
    + by rewrite (bool_decide_eq_false_2 (S i = n)) by lia.
  - rewrite decide_True by lia. destruct (Nat.eqb_spec i (n - 1)) as [Hlast|Hlast]; unfold entry.
    + rewrite (bool_decide_eq_true_2 (S i = n)) by lia. rewrite (bool_decide_eq_true_2 (q = (k - 1)%nat)); [done|].
      rewrite <- last_req. unfold q. by rewrite Hlast.
    + by rewrite (bool_decide_eq_false_2 (S i = n)) by lia.
Qed.

(** The others. *)
Lemma entry_keep i r :
  (i < n)%nat -> r <> (i / c)%nat ->
  (if decide (r * c < i)%nat then entry false r else zero_wr) =
  (if decide (r * c < S i)%nat then entry (bool_decide (S i = n)) r else zero_wr).
Proof.
  intros Hi Hne. assert (Hrc : (r * c <> i)%nat).
  { intros E. apply Hne. rewrite <- E. by rewrite Nat.div_mul by lia. }
  destruct (decide (r * c < i)%nat) as [H|H]; [rewrite decide_True by lia|by rewrite decide_False by lia].
  unfold entry. destruct (decide (S i = n)) as [He|He]; [|by rewrite (bool_decide_eq_false_2 (S i = n))].
  rewrite (bool_decide_eq_true_2 (S i = n)) by done. rewrite (bool_decide_eq_false_2 (r = (k - 1)%nat)); [done|].
  rewrite <- last_req. by replace (n - 1)%nat with i by lia.
Qed.

(** One round keeps the invariant. *)
Lemma vector_body_step i x wr sg :
  l !! i = Some x -> loop_inv i wr sg ->
  exists wr' sg', vector_body n c dest lkey rkey_ wrID i x (before i) wr sg = Ret (before (S i), wr', sg') /\
    loop_inv (S i) wr' sg'.
Proof.
  intros Hx [Hsg Hrow Hwr Hsge]. pose proof (lookup_lt_Some _ _ _ Hx) as Hi. pose proof (req_lt i Hi) as Hq.
  pose proof (Nat.mod_upper_bound i c ltac:(lia)) as Hm. pose proof (Nat.div_mod i c ltac:(lia)) as Hdm.
  assert (Hin : bool_decide (i = n) = false) by (apply bool_decide_eq_false_2; lia). rewrite Hin in Hwr.
  pose proof (entry_round i Hi) as Hround. cbv zeta in Hround. pose proof (entry_keep i) as Hkeep.
  set (q := (i / c)%nat) in *. set (m := (i mod c)%nat) in *.
  destruct (lookup_lt_is_Some_2 sg q) as [sges Hs]; [lia|]. pose proof (Hrow _ _ Hs) as Hlen.
  destruct (lookup_lt_is_Some_2 sges m) as [old Ho]; [lia|].
  pose proof (Forall_lookup_1 _ _ _ _ Hsz Hx) as Hszx. cbn in Hszx. pose proof (before_le (S i)) as Hb.
  unfold vector_body. fold q m. rewrite Hs. cbn [deref mbind outcome_bind]. rewrite Ho. cbn [deref mbind outcome_bind].
  rewrite (Hwr q Hq). cbn [deref mbind outcome_bind]. rewrite <- (before_S i x Hx), u32_small, Hround by lia.
  rewrite (proj2 (Z.leb_gt _ _)) by lia. eexists _, _. split; [done|]. constructor.
  - by rewrite length_insert.
  - intros r sges' Hr. apply list_lookup_insert_Some in Hr as [(-> & <- & _)|[_ Hr]]; [by rewrite length_insert|].
    by eapply Hrow.
  - intros r Hr. destruct (decide (r = q)) as [->|Hne].
    + rewrite list_lookup_insert_eq by (eapply lookup_lt_Some, Hwr, Hq). by rewrite decide_True by lia.
    + rewrite list_lookup_insert_ne, Hwr by done. f_equal. by apply Hkeep.
  - intros j y Hj Hy. destruct (decide (j = i)) as [->|Hji].
    + exists (<[m := sge_of x]> sges). fold q m. rewrite list_lookup_insert_eq by lia. split; [done|].
      rewrite list_lookup_insert_eq by lia. congruence.
    + destruct (Hsge j y) as (row' & H1 & H2); [lia|done|]. destruct (decide (j / c = q)%nat) as [E|E].
      * rewrite E in H1 |- *. rewrite H1 in Hs. simplify_eq. exists (<[m := sge_of x]> sges).
        rewrite list_lookup_insert_eq by lia. split; [done|]. rewrite list_lookup_insert_ne; [done|].
        pose proof (Nat.div_mod j c ltac:(lia)). intros Em. apply Hji. rewrite <- Em in *. lia.
      * exists row'. by rewrite list_lookup_insert_ne.
Qed.

Lemma vector_loop_run i wr sg :
  (i <= n)%nat -> loop_inv i wr sg ->
  exists wr' sg', vector_loop n c dest lkey rkey_ wrID i (drop i l) (before i) wr sg = Ret (wr', sg') /\ loop_inv n wr' sg'.
Proof.
  remember (n - i)%nat as d eqn:Hd. revert i wr sg Hd. induction d as [|d IH]; intros i wr sg Hd Hi HI.
  - rewrite drop_ge by lia. eexists _, _. split; [done|]. by replace n with i by lia.
  - destruct (lookup_lt_is_Some_2 l i) as [x Hx]; [lia|]. rewrite (drop_S _ _ _ Hx). cbn [vector_loop].
    destruct (vector_body_step i x wr sg Hx HI) as (wr' & sg' & -> & HI'). cbn [mbind outcome_bind].
    by apply IH; [lia|lia|].
Qed.

(** The sources of a work request. *)
Lemma row_sges wr sg r sges :
  loop_inv n wr sg -> (r < k)%nat -> sg !! r = Some sges ->
  take (Nat.min c (n - r * c)) sges = sge_of <$> take c (drop (r * c) l).
Proof.
  intros [_ Hrow _ Hsge] Hr Hs. pose proof (Hrow _ _ Hs) as Hlen. apply list_eq. intros j.
  rewrite list_lookup_fmap. destruct (decide (j < Nat.min c (n - r * c))%nat) as [Hj|Hj].
  - rewrite !lookup_take_lt, lookup_drop by lia. destruct (lookup_lt_is_Some_2 l (r * c + j)) as [x Hx]; [lia|].
    rewrite Hx. cbn. destruct (Hsge _ _ (lookup_lt_Some _ _ _ Hx) Hx) as (sges' & H1 & H2).
    replace ((r * c + j) / c)%nat with r in H1 by (rewrite Nat.div_add_l, Nat.div_small by lia; lia).
    replace ((r * c + j) mod c)%nat with j in H2 by (rewrite Nat.add_comm, Nat.Div0.mod_add, Nat.mod_small by lia; lia).
    congruence.
  - rewrite lookup_take_ge by lia. symmetry. apply fmap_None. destruct (decide (j < c)%nat).
    + rewrite lookup_take_lt, lookup_drop by lia. apply lookup_ge_None_2. lia.
    + by rewrite lookup_take_ge by lia.
Qed.

Lemma chain_S fuel i wr sg :
  chain (S fuel) i wr sg =
  (w ← deref (wr !! i);
   sges ← deref (sg !! row w);
   let x := {| wr_id := v_wr_id w; sg_list := take (num_sge w) sges; opcode := RDMA_WRITE;
               signaled := v_signaled w; inline_ := false; remote_addr := v_remote_addr w; rkey := v_rkey w;
               atomic_args := (0, 0); ud := (0, 0) |} in
   match next w with
   | None => Ret [x]
   | Some j => xs ← chain fuel j wr sg; Ret (x :: xs)
   end).
Proof. clear. done. Qed.

Lemma chain_run wr sg d r :
  loop_inv n wr sg -> (r + S d = k)%nat -> chain (S d) r wr sg = Ret (request <$> seq r (S d)).
Proof.
  intros HI. revert r. induction d as [|d IH]; intros r Hr; rewrite chain_S.
  all: destruct (lookup_lt_is_Some_2 sg r) as [sges Hs]; [rewrite (li_sg _ _ _ HI); lia|].
  all: rewrite (li_wr _ _ _ HI r) by lia.
  all: assert (Hrn : (r * c < n)%nat) by
    (assert (r <= (n - 1) / c)%nat by (rewrite last_req; lia); pose proof (Nat.Div0.mul_div_le (n - 1) c);
     pose proof n_pos; nia).
  all: rewrite decide_True, (bool_decide_eq_true_2 (n = n)) by done; cbn [deref mbind outcome_bind row entry]; rewrite Hs.
  all: cbn [deref mbind outcome_bind entry num_sge next v_wr_id v_signaled v_remote_addr v_rkey andb].
  all: rewrite (row_sges wr sg r sges HI ltac:(lia) Hs).
  - rewrite bool_decide_eq_true_2 by lia. cbn. unfold request. by rewrite bool_decide_eq_true_2 by lia.
  - rewrite bool_decide_eq_false_2 by lia. rewrite (IH (S r)) by lia. cbn. unfold request.
    by rewrite (bool_decide_eq_false_2 (r = _)) by lia.
Qed.

(** The optimised loop over flat arrays builds the work requests of the
    reference definition. *)
Lemma rdmaWriteVector_requests ibv_post_send :
  ibv_post_send requests = true ->
  rdmaWriteVector ibv_post_send l dest lkey rkey_ wrID (Z.of_nat c) = Ret requests.
Proof.
  intros Hpost. unfold rdmaWriteVector. rewrite (proj2 (Z.leb_gt _ _)), Nat2Z.id by lia.
  pose proof (req_lt 0 n_pos) as Hk. destruct (Nat.eqb_spec k 0) as [E|_]; [lia|].
  destruct (vector_loop_run 0 _ _ ltac:(lia) loop_inv_start) as (wr & sg & HL & HI). rewrite drop_0 in HL.
  change (before 0) with 0 in HL. rewrite HL. cbn [mbind outcome_bind].
  destruct k as [|d] eqn:Ek; [lia|]. rewrite (chain_run wr sg d 0 HI) by lia. cbn [mbind outcome_bind].
  unfold post_or_die. unfold requests in *. rewrite Ek in *. by rewrite Hpost.
Qed.

(** *** What they do *)

(** The bytes of sources. *)
Definition source_bytes (mem : gmap Z Z) (l' : list SourceList) : list Z :=
  concat ((fun x => read_bytes mem (addr x) (size x)) <$> l').

Lemma gather_sources mem l' : gather mem (sge_of <$> l') = source_bytes mem l'.
Proof. clear. unfold gather, source_bytes. by rewrite <- list_fmap_compose. Qed.

Lemma source_bytes_length mem l' :
  Forall (fun x => 0 <= size x < 2 ^ 16) l' -> Z.of_nat (length (source_bytes mem l')) = sumZ size l'.
Proof.
  clear. induction 1 as [|x l' Hx _ IH]; [done|]. cbn [source_bytes fmap list_fmap concat sumZ foldr].
  fold (source_bytes mem l') (sumZ size l'). rewrite length_app, read_bytes_length, Nat2Z.inj_add, IH. lia.
Qed.

Context (region remote_region : Z -> option (Z * Z)) (rnic : list ibv_send_wr -> gmap Z Z -> gmap Z Z -> gmap Z Z).
Context `{!RnicLaws region remote_region rnic}.
Context (Hlocal : Forall (fun x => inside (region lkey) (addr x) (size x)) l).
Context (Hremote : inside (remote_region rkey_) dest (sumZ size l)) (Hdest : 0 <= dest /\ dest + sumZ size l < 2 ^ 64).

Lemma before_drop i : sumZ size (drop i l) = sumZ size l - before i.
Proof. clear. unfold before. rewrite <- (take_drop i l) at 2. rewrite sumZ_app. lia. Qed.

(** One work request writes its sources behind those before them. *)
Lemma request_step r ws local mem :
  (r < k)%nat ->
  rnic (request r :: ws) local mem =
    rnic ws local (write_bytes mem (dest + before (r * c)) (source_bytes local (take c (drop (r * c) l)))).
Proof.
  intros Hr. set (l' := take c (drop (r * c) l)).
  assert (Hin : forall x, x ∈ l' -> x ∈ l).
  { intros x Hx. apply (subseteq_drop (r * c) l), (subseteq_take c _). exact Hx. }
  assert (HF : Forall (fun x => 0 <= size x < 2 ^ 16) l').
  { apply Forall_forall. intros x Hx. eapply Forall_forall in Hsz; [exact Hsz|by apply Hin]. }
  pose proof (before_le (r * c)) as Hb. pose proof (source_bytes_length local l' HF) as Hlen.
  assert (Hle : 0 <= sumZ size l' <= sumZ size l - before (r * c)).
  { rewrite <- before_drop, <- (take_drop c (drop (r * c) l)). rewrite sumZ_app. fold l'. split.
    - apply sumZ_nonneg. intros x Hx. eapply Forall_forall in HF; [|done]. lia.
    - enough (0 <= sumZ size (drop c (drop (r * c) l))) by lia. apply sumZ_nonneg. intros x Hx.
      apply (subseteq_drop c _), (subseteq_drop (r * c) l) in Hx. eapply Forall_forall in Hsz; [|done]. lia. }
  rewrite (@rnic_write region remote_region rnic _); cbn [request opcode sg_list remote_addr rkey]; fold l'; rewrite ?gather_sources, ?u64_small by lia.
  - done.
  - done.
  - apply Forall_fmap, Forall_forall. intros x Hx. cbn. eapply Forall_forall in Hlocal; [exact Hlocal|by apply Hin].
  - rewrite Hlen. unfold inside in *. destruct (remote_region rkey_) as [[b sz]|]; [lia|done].
Qed.

Lemma requests_run d r local mem :
  (r + d = k)%nat ->
  rnic (request <$> seq r d) local mem = write_bytes mem (dest + before (r * c)) (source_bytes local (drop (r * c) l)).
Proof.
  revert r mem. induction d as [|d IH]; intros r mem Hr; cbn [seq fmap list_fmap].
  - rewrite (@rnic_nil region remote_region rnic _). rewrite drop_ge; [done|]. replace r with k by lia.
    pose proof (Nat.div_mod (n + c - 1) c ltac:(lia)). pose proof (Nat.mod_upper_bound (n + c - 1) c ltac:(lia)). lia.
  - rewrite request_step, IH by lia. set (l' := take c (drop (r * c) l)).
    assert (E : drop (r * c) l = l' ++ drop (S r * c) l).
    { unfold l'. replace (S r * c)%nat with (r * c + c)%nat by lia. by rewrite <- drop_drop, take_drop. }
    rewrite E. unfold source_bytes at 3. rewrite fmap_app, concat_app, write_bytes_app.
    fold (source_bytes local l') (source_bytes local (drop (S r * c) l)). f_equal.
    rewrite source_bytes_length.
    + unfold before. replace (S r * c)%nat with (r * c + c)%nat by lia. rewrite <- take_take_drop, sumZ_app. fold l'. lia.
    + apply Forall_take, Forall_drop, Hsz.
Qed.
End Vector.

(** [C17] [rdmaWriteVector] with any number of buffers per work request: if the post is
    accepted, the sources are in the region of the local key and the destination
    in that of the remote key, then the remote memory has the bytes of the
    sources, one after the other, at the destination; there are as few work
    requests as possible, none with more than [sgePerWr] buffers, and only the
    last one is signaled. *)
Theorem rdmaWriteVector_writes region remote_region rnic `{!RnicLaws region remote_region rnic} ibv_post_send
    l dest lkey rkey_ wrID sgePerWr local remote :
  0 < sgePerWr -> l <> [] -> Forall (fun x => 0 <= size x < 2 ^ 16) l -> sumZ size l < 2 ^ 31 ->
  Forall (fun x => inside (region lkey) (addr x) (size x)) l ->
  inside (remote_region rkey_) dest (sumZ size l) -> 0 <= dest -> dest + sumZ size l < 2 ^ 64 ->
  (forall ws, Forall (fun w => Z.of_nat (length (sg_list w)) <= sgePerWr) ws -> ibv_post_send ws = true) ->
  exists ws, rdmaWriteVector ibv_post_send l dest lkey rkey_ wrID sgePerWr = Ret ws /\
    rnic ws local remote = write_bytes remote dest (source_bytes local l) /\
    Z.of_nat (length ws) = (Z.of_nat (length l) + sgePerWr - 1) / sgePerWr /\
    Forall (fun w => Z.of_nat (length (sg_list w)) <= sgePerWr) ws /\
    (forall i w, ws !! i = Some w -> signaled w = bool_decide (S i = length ws)).
Proof.
  intros Hs Hl Hsz Hsum Hlo Hre Hd0 Hd1 Hpost. set (c := Z.to_nat sgePerWr).
  assert (Hc : (0 < c)%nat) by lia. assert (Ec : Z.of_nat c = sgePerWr) by lia.
  set (ws := requests c l dest lkey rkey_ wrID).
  assert (Hlen : length ws = ((length l + c - 1) / c)%nat) by (unfold ws, requests; by rewrite length_fmap, length_seq).
  assert (HF : Forall (fun w => Z.of_nat (length (sg_list w)) <= sgePerWr) ws).
  { apply Forall_fmap, Forall_forall. intros r _. cbn. rewrite length_fmap, length_take. lia. }
  exists ws. split_and!.
  - rewrite <- Ec. by apply rdmaWriteVector_requests, Hpost.
  - unfold ws, requests. rewrite (requests_run c Hc l dest lkey rkey_ wrID Hsz region remote_region rnic) by (done || lia).
    cbn [Nat.mul]. rewrite drop_0. unfold before. cbn. by rewrite Z.add_0_r.
  - rewrite Hlen, Nat2Z.inj_div, Ec. f_equal. destruct l; [done|]. cbn [length]. lia.
  - done.
  - intros i w Hi. unfold ws, requests in Hi. rewrite list_lookup_fmap in Hi. apply fmap_Some in Hi as (r & Hr & ->).
    apply lookup_seq in Hr as [-> Hr]. cbn [signaled request]. rewrite Hlen. apply bool_decide_ext. lia.
Qed.

Definition two_sources : list SourceList := [{| addr := 100; size := 3 |}; {| addr := 200; size := 2 |}; {| addr := 110; size := 1 |}].

Lemma rdmaWriteVector_writes_witness :
  let region := fun key => if key =? 7 then Some (100, 200) else None in
  let remote_region := fun key => if key =? 9 then Some (5000, 100) else None in
  exists ws, rdmaWriteVector (fun _ => true) two_sources 5000 7 9 2 2 = Ret ws /\ length ws = 2%nat /\
    rnic_ref region remote_region ws (write_bytes ∅ 100 [1; 2; 3]) ∅ = write_bytes ∅ 5000 [1; 2; 3; 0; 0; 0].
Proof.
  intros region remote_region.
  destruct (rdmaWriteVector_writes region remote_region (rnic_ref region remote_region) (fun _ => true) two_sources 5000 7 9 2 2
              (write_bytes ∅ 100 [1; 2; 3]) ∅) as (ws & HW & HR & HL & _).
  - lia.
  - done.
  - repeat constructor; cbn; lia.
  - reflexivity.
  - repeat constructor; cbn; lia.
  - cbn. lia.
  - lia.
  - reflexivity.
  - done.
  - exists ws. split; [exact HW|]. split; [apply Nat2Z.inj; exact HL|]. exact HR.
Defined.

(** With no source the array of work requests has no element. *)
Theorem rdmaWriteVector_empty ibv_post_send dest lkey rkey_ wrID sgePerWr :
  rdmaWriteVector ibv_post_send [] dest lkey rkey_ wrID sgePerWr = Err Undefined.
Proof.
  unfold rdmaWriteVector. destruct (Z.leb_spec sgePerWr 0) as [|Hs]; [done|]. cbn [length].
  rewrite Nat.div_small by lia. done.
Qed.

(** [pollWithCQ] returns as soon as as many completions as asked for have been
    polled: an error is counted as -1, and one more completion is needed. *)
Lemma poll_loop_ends polls rest ok count pollNumber :
  0 <= count < pollNumber -> Forall (fun x => x.1 = 0) polls ->
  poll_loop (polls ++ (pollNumber - count, ok) :: rest) count pollNumber = Ret (if ok then pollNumber else -1).
Proof.
  intros Hc HF. induction HF as [|[x b] polls Hx _ IH]; cbn [app poll_loop].
  - replace (count + (pollNumber - count)) with pollNumber by lia. rewrite Z.ltb_irrefl.
    rewrite (proj2 (Z.ltb_ge _ _)) by lia. by destruct ok.
  - cbn in Hx. subst x. rewrite Z.add_0_r, (proj2 (Z.ltb_lt _ _)) by lia. exact IH.
Qed.
