(* ===== verification/MsgConn.v ===== *)
(** * The message rings of a thread (third_party/Mayfly-main: AbstractMessageConnection, RawMessageConnection)

    A connection has a pool of [messageNR] slots for the messages it receives and
    one for those it sends.  The slots for receiving are posted in four batches;
    [getMessage] takes them in order and posts a batch again when it has taken
    its last message.  The adapter is modelled as documented for datagrams: a
    message goes to the oldest posted slot, behind a header of 40 bytes, and is
    lost if none is posted.

    The theorems: the ring is a queue (messages are taken in the order in which
    they arrived, unchanged), with an exact bound on what it accepts; a message
    that was taken stays as it is until the next one is taken, except the last of
    a batch, whose slot is already posted again; a slot for sending is reused
    only when the send from it has completed. *)

From stdpp Require Import base numbers list gmap.
From Stdlib Require Import ZArith Lia.
From S2P Require Import Prelude MallocApi PetKV PetKVSpec Array RawMsg Rdma.

Module MsgConn.

Definition kBatchCount : Z := 4.
Definition SIGNAL_BATCH : Z := 31.
Definition sendPadding : Z := 0.
Definition recvPadding : Z := 40.

(** [posted] are the addresses of the posted receive requests, the oldest first;
    [sent] counts the completions that were polled from [send_cq]. *)
Record conn := Build_conn {
  messageNR : Z;
  messagePool : Z;
  curMessage : Z;
  curSend : Z;
  subNR : Z;
  posted : list Z;
  sendCounter : Z;
  polled : Z
}.

(** The constructor, with the address of the pool of twice [NR] slots; the
    members are 16 bits wide. *)
Definition make (pool NR : Z) : outcome conn :=
  _ ← CHECK (NR mod kBatchCount =? 0);
  Ret {| messageNR := NR mod 2 ^ 16; messagePool := pool; curMessage := 0; curSend := 0; subNR := 0; posted := [];
         sendCounter := 0; polled := 0 |}.

Definition sendPool (c : conn) : Z := messagePool c + messageNR c * Msg.MESSAGE_SIZE.

(** The buffers of the receive requests [recvs[k]]. *)
Definition recvs (c : conn) (k : Z) : list Z :=
  (fun i => messagePool c + (k * subNR c + i) * Msg.MESSAGE_SIZE) <$> seqZ 0 (subNR c).

Definition with_posted (c : conn) (l : list Z) : conn :=
  {| messageNR := messageNR c; messagePool := messagePool c; curMessage := curMessage c; curSend := curSend c;
     subNR := subNR c; posted := l; sendCounter := sendCounter c; polled := polled c |}.

Definition initRecv (c : conn) : conn :=
  let c := {| messageNR := messageNR c; messagePool := messagePool c; curMessage := curMessage c; curSend := curSend c;
              subNR := messageNR c / kBatchCount; posted := posted c; sendCounter := sendCounter c; polled := polled c |} in
  with_posted c (posted c ++ concat (recvs c <$> seqZ 0 kBatchCount)).

Definition ADD_ROUND (x n : Z) : Z := (x + 1) mod n.

(** [getMessage]; a remainder by 0 is undefined.  [curMessage / subNR - 1 + 4] is
    a uint32_t. *)
Definition getMessage (c : conn) : outcome (conn * Z) :=
  let m := messagePool c + curMessage c * Msg.MESSAGE_SIZE + recvPadding in
  if (messageNR c =? 0) || (subNR c =? 0) then Err Undefined else
  let cur := ADD_ROUND (curMessage c) (messageNR c) in
  let c := {| messageNR := messageNR c; messagePool := messagePool c; curMessage := cur; curSend := curSend c;
              subNR := subNR c; posted := posted c; sendCounter := sendCounter c; polled := polled c |} in
  if cur mod subNR c =? 0 then
    Ret (with_posted c (posted c ++ recvs c (u32 (cur / subNR c - 1 + kBatchCount) mod kBatchCount)), m)
  else Ret (c, m).

Definition getMessageAddr (c : conn) : Z := messagePool c + curMessage c * Msg.MESSAGE_SIZE + recvPadding.

Definition getSendPool (c : conn) : outcome (conn * Z) :=
  let s := sendPool c + curSend c * Msg.MESSAGE_SIZE + sendPadding in
  if messageNR c =? 0 then Err Undefined else
  Ret ({| messageNR := messageNR c; messagePool := messagePool c; curMessage := curMessage c;
          curSend := ADD_ROUND (curSend c) (messageNR c); subNR := subNR c; posted := posted c;
          sendCounter := sendCounter c; polled := polled c |}, s).

(** [sendRawMessage]: before every 32nd send one completion is awaited; every 32nd
    send, the first one included, is signaled.  [messageLkey] is the key of the
    pool. *)
Definition sendRawMessage (ibv_post_send : list Rdma.ibv_send_wr -> bool) (messageLkey : Z) (c : conn) (mem : gmap Z Z)
    (m remoteQPN ah : Z) : outcome (conn * list Rdma.ibv_send_wr) :=
  let nth := Z.land (sendCounter c) SIGNAL_BATCH =? 0 in
  let polled := if nth && (0 <? sendCounter c) then polled c + 1 else polled c in
  '(_, ws) ← Rdma.rdmaSend_ud ibv_post_send (m - sendPadding) (Msg.size mem m + sendPadding) messageLkey ah remoteQPN nth;
  Ret ({| messageNR := messageNR c; messagePool := messagePool c; curMessage := curMessage c; curSend := curSend c;
          subNR := subNR c; posted := posted c; sendCounter := u64 (sendCounter c + 1); polled := polled |}, ws).

(** [sendRawMessageWithData]: the body, then the data, as two buffers; the header
    is counted in neither of them. *)
Definition sendRawMessageWithData (ibv_post_send : list Rdma.ibv_send_wr -> bool) (messageLkey : Z) (c : conn) (mem : gmap Z Z)
    (m : Z) (data : Msg.Slice) (data_lkey remoteQPN ah : Z) : outcome (conn * gmap Z Z * list Rdma.ibv_send_wr) :=
  let nth := Z.land (sendCounter c) SIGNAL_BATCH =? 0 in
  let polled := if nth && (0 <? sendCounter c) then polled c + 1 else polled c in
  let message_size := Msg.msg_size mem m in
  let mem := Msg.set_msg_size mem m (message_size + Msg.len data) in
  '(_, ws) ← Rdma.rdmaSend2Sge ibv_post_send (m - sendPadding) (message_size + sendPadding)
               (default 0 (Msg.s data)) (Msg.len data) messageLkey data_lkey ah remoteQPN nth;
  Ret ({| messageNR := messageNR c; messagePool := messagePool c; curMessage := curMessage c; curSend := curSend c;
          subNR := subNR c; posted := posted c; sendCounter := u64 (sendCounter c + 1); polled := polled |}, mem, ws).

(** ** The ring with the adapter

    [cq] are the lengths of the messages that have completed and are not yet
    taken. *)

Record ring := Build_ring { conn_ : conn; memory_ : gmap Z Z; cq : list Z }.

(** A datagram arrives: the header [grh], then the payload. *)
Definition arrive (r : ring) (grh payload : list Z) : ring :=
  match posted (conn_ r) with
  | [] => r
  | a :: rest =>
      {| conn_ := with_posted (conn_ r) rest; memory_ := write_bytes (memory_ r) a (grh ++ payload);
         cq := cq r ++ [Z.of_nat (length payload)] |}
  end.

(** A completion is seen and its message taken: its address and its bytes. *)
Definition take_message (r : ring) : outcome (ring * option (Z * list Z)) :=
  match cq r with
  | [] => Ret (r, None)
  | len :: cq' =>
      '(c, m) ← getMessage (conn_ r);
      Ret ({| conn_ := c; memory_ := memory_ r; cq := cq' |}, Some (m, read_bytes (memory_ r) m len))
  end.

Inductive event := Arrive (grh payload : list Z) | Take.

Definition ring_step (r : ring) (e : event) : outcome (ring * option (list Z)) :=
  match e with
  | Arrive grh payload => Ret (arrive r grh payload, None)
  | Take => '(r, o) ← take_message r; Ret (r, option_map snd o)
  end.

(** The messages taken, in order. *)
Fixpoint ring_run (r : ring) (es : list event) : outcome (ring * list (list Z)) :=
  match es with
  | [] => Ret (r, [])
  | e :: es' =>
      '(r, o) ← ring_step r e;
      '(r, out) ← ring_run r es';
      Ret (r, option_list o ++ out)
  end.
End MsgConn.

(** ** The abstract queue

    [taken] counts the messages taken; a message is accepted if fewer than
    [4 * sub] slots, plus those of the batches taken completely, are used. *)

Module MsgQueue.
Record state := Build_state { taken : Z; queue : list (list Z) }.

Definition room (sub : Z) (q : state) : Z := 4 * sub + sub * (taken q / sub) - taken q - Z.of_nat (length (queue q)).

Definition step (sub : Z) (q : state) (e : MsgConn.event) : state * option (list Z) :=
  match e with
  | MsgConn.Arrive _ payload =>
      if 0 <? room sub q then ({| taken := taken q; queue := queue q ++ [payload] |}, None) else (q, None)
  | MsgConn.Take =>
      match queue q with
      | [] => (q, None)
      | p :: queue' => ({| taken := taken q + 1; queue := queue' |}, Some p)
      end
  end.

Fixpoint run (sub : Z) (q : state) (es : list MsgConn.event) : state * list (list Z) :=
  match es with
  | [] => (q, [])
  | e :: es' =>
      let '(q, o) := step sub q e in
      let '(q, out) := run sub q es' in (q, option_list o ++ out)
  end.
End MsgQueue.

Import MsgConn.

(** ** The ring is a queue *)

Section Ring.
Context (pool sub : Z) (Hsub : 0 < sub) (HN : 4 * sub < 2 ^ 16).

Notation N := (4 * sub).

(** The slot of the [j]-th message. *)
Definition slot (j : Z) : Z := pool + j mod N * Msg.MESSAGE_SIZE.

(** The number of slots posted when [t] messages have been taken. *)
Definition posted_total (t : Z) : Z := N + sub * (t / sub).

Lemma posted_total_bounds t : 0 <= t -> t < posted_total t <= t + N /\ (t + N < posted_total t + sub).
Proof.
  intros Ht. unfold posted_total. pose proof (Z.div_mod t sub ltac:(lia)). pose proof (Z.mod_pos_bound t sub Hsub). lia.
Qed.

(** The messages of the window are in different slots. *)
Lemma slot_sep i j n m : i <> j -> - N < i - j < N -> 0 <= n <= 4096 -> 0 <= m <= 4096 -> sep (slot i, n) (slot j, m).
Proof.
  intros Hne Hw Hn Hm. unfold sep, slot, Msg.MESSAGE_SIZE. cbn [fst snd].
  assert (i mod N <> j mod N).
  { intros E. assert ((i - j) mod N = 0) by (rewrite Zminus_mod, E, Z.sub_diag; done).
    apply Z.mod_divide in H as [q Hq]; [|lia]. assert (q = 0) by nia. lia. }
  nia.
Qed.

Record ring_inv (t : Z) (r : ring) (q : list (list Z)) : Prop := {
  ri_t : 0 <= t;
  ri_pool : messagePool (conn_ r) = pool;
  ri_nr : messageNR (conn_ r) = N;
  ri_sub : subNR (conn_ r) = sub;
  ri_cur : curMessage (conn_ r) = t mod N;
  ri_posted : posted (conn_ r) = slot <$> seqZ (t + Z.of_nat (length q)) (posted_total t - (t + Z.of_nat (length q)));
  ri_room : t + Z.of_nat (length q) <= posted_total t;
  ri_cq : cq r = (fun p => Z.of_nat (length p)) <$> q;
  ri_len : Forall (fun p => Z.of_nat (length p) <= 4056) q;
  ri_msg j p : q !! j = Some p ->
    read_bytes (memory_ r) (slot (t + Z.of_nat j) + 40) (Z.of_nat (length p)) = p
}.

(** The batch that is posted again has the slots of the next [sub] messages. *)
Lemma recvs_slots c b :
  messagePool c = pool -> subNR c = sub -> 0 <= b < 4 -> forall a, a mod N = b * sub -> recvs c b = slot <$> seqZ a sub.
Proof.
  intros Hp Hs Hb a Ha. unfold recvs. rewrite Hp, Hs. apply list_eq. intros i. rewrite !list_lookup_fmap.
  destruct (decide (Z.of_nat i < sub)) as [Hi|Hi]; [|by rewrite !lookup_seqZ_ge by lia].
  rewrite !lookup_seqZ_lt by lia. cbn. f_equal. unfold slot. f_equal. f_equal.
  rewrite <- Z.add_mod_idemp_l, Ha by lia. rewrite Z.mod_small by nia. lia.
Qed.

Lemma initRecv_inv pool0 c mem :
  pool0 = pool -> make pool0 N = Ret c -> ring_inv 0 {| conn_ := initRecv c; memory_ := mem; cq := [] |} [].
Proof.
  intros -> Hm. unfold make in Hm. inv_ret. assert (E : N mod 2 ^ 16 = N) by (apply Z.mod_small; lia). rewrite E.
  assert (E4 : N / kBatchCount = sub) by (unfold kBatchCount; rewrite Z.mul_comm, Z.div_mul; lia).
  constructor; cbn [conn_ initRecv with_posted messagePool messageNR subNR curMessage posted cq memory_ length fmap list_fmap]; try done.
  - rewrite E4. unfold posted_total. rewrite Z.div_0_l, Z.mul_0_r, Z.add_0_r, Z.sub_0_r by lia.
    set (c := Build_conn _ _ _ _ _ _ _ _).
    assert (HR : forall b, 0 <= b < 4 -> recvs c b = slot <$> seqZ (b * sub) sub).
    { intros b Hb. apply recvs_slots; [done|done|done|]. apply Z.mod_small. nia. }
    change (seqZ 0 kBatchCount) with [0; 1; 2; 3]. cbn [app fmap list_fmap concat]. rewrite !HR by lia.
    replace N with (sub + (sub + (sub + sub))) by lia. rewrite !seqZ_app, !fmap_app, app_nil_r by lia.
    rewrite (seqZ_nil (0 + (sub + (sub + (sub + sub))))) by lia. cbn [fmap list_fmap]. rewrite app_nil_r.
    replace (1 * sub) with (0 + sub) by lia. replace (2 * sub) with (0 + sub + sub) by lia.
    by replace (3 * sub) with (0 + sub + sub + sub) by lia.
  - unfold posted_total. rewrite Z.div_0_l by lia. cbn. lia.
Qed.

(** A message that is accepted. *)
Lemma arrive_inv t r q grh payload :
  ring_inv t r q -> length grh = 40%nat -> Z.of_nat (length payload) <= 4056 ->
  0 < posted_total t - (t + Z.of_nat (length q)) ->
  ring_inv t (arrive r grh payload) (q ++ [payload]).
Proof.
  intros [Ht Hp Hn Hs Hc Hpo Hro Hcq Hlen Hmsg] Hg Hpl Hroom. pose proof (posted_total_bounds t Ht) as Hb.
  rewrite seqZ_cons in Hpo by lia. cbn [fmap list_fmap] in Hpo.
  unfold arrive. rewrite Hpo. constructor; cbn [conn_ memory_ cq with_posted messagePool messageNR subNR curMessage posted]; try done.
  - rewrite length_app. cbn [length]. f_equal. f_equal; lia.
  - rewrite length_app. cbn [length]. lia.
  - rewrite Hcq, fmap_app. done.
  - apply Forall_app. split; [done|]. by repeat constructor.
  - intros j p Hj. apply lookup_app_Some in Hj as [Hj|[Hge Hj]].
    + pose proof (lookup_lt_Some _ _ _ Hj) as Hlt. pose proof (Forall_lookup_1 _ _ _ _ Hlen Hj) as Hlp. cbn in Hlp.
      rewrite read_write_sep; [by apply Hmsg|].
      pose proof (slot_sep (t + Z.of_nat (length q)) (t + Z.of_nat j) (40 + Z.of_nat (length payload))
                    (40 + Z.of_nat (length p)) ltac:(lia) ltac:(lia) ltac:(lia) ltac:(lia)) as Hsep.
      unfold sep in *. cbn [fst snd] in *. rewrite length_app, Hg. lia.
    + apply list_lookup_singleton_Some in Hj as [Hj <-]. replace (Z.of_nat j) with (Z.of_nat (length q)) by lia.
      replace 40 with (Z.of_nat (length grh)) by (rewrite Hg; done). rewrite write_bytes_app. apply read_write_same.
Qed.

(** Without room a message is lost. *)
Lemma arrive_full t r q grh payload :
  ring_inv t r q -> posted_total t - (t + Z.of_nat (length q)) <= 0 -> arrive r grh payload = r.
Proof. intros HI H. unfold arrive. rewrite (ri_posted _ _ _ HI), seqZ_nil by lia. done. Qed.

(** Between the ends of batches nothing is posted. *)
Lemma posted_same t : 0 <= t -> (t + 1) mod sub <> 0 -> posted_total (t + 1) = posted_total t.
Proof.
  intros Ht Hz. pose proof (Z.div_mod t sub ltac:(lia)) as Hdt. pose proof (Z.mod_pos_bound t sub Hsub) as Hmt.
  unfold posted_total. do 2 f_equal. symmetry. apply (Z.div_unique _ _ _ (t mod sub + 1)); [|lia]. left.
  assert (t mod sub + 1 <> sub); [|lia]. intros E. apply Hz. replace (t + 1) with ((t / sub + 1) * sub) by lia.
  apply Z.mod_mul. lia.
Qed.

(** At the end of one, the batch that [getMessage] computes has the next slots. *)
Lemma posted_next t :
  0 <= t -> (t + 1) mod sub = 0 ->
  posted_total (t + 1) = posted_total t + sub /\
  posted_total t mod N = u32 ((t + 1) mod N / sub - 1 + kBatchCount) mod kBatchCount * sub.
Proof.
  intros Ht Hz. apply Z.mod_divide in Hz as [b Hb]; [|lia].
  assert (Hq : t / sub = b - 1) by (symmetry; apply (Z.div_unique _ _ _ (sub - 1)); lia).
  assert (Hq1 : (t + 1) / sub = b) by (rewrite Hb; apply Z.div_mul; lia).
  split; [unfold posted_total; rewrite Hq, Hq1; lia|].
  assert (Hcd : (t + 1) mod N / sub = b mod 4).
  { rewrite Hb, Z.mul_comm, (Z.mul_comm 4 sub), Z.mul_mod_distr_l by lia. rewrite Z.mul_comm. by apply Z.div_mul; lia. }
  rewrite Hcd. pose proof (Z.mod_pos_bound b 4 ltac:(lia)) as Hb4. unfold kBatchCount.
  rewrite u32_small by lia. replace (b mod 4 - 1 + 4) with (b mod 4 - 1 + 1 * 4) by lia.
  rewrite Z.mod_add, Zminus_mod, Z.mod_mod, <- Zminus_mod by lia.
  unfold posted_total. rewrite Hq. replace (N + sub * (b - 1)) with (sub * (b - 1) + 1 * N) by lia.
  rewrite Z.mod_add, (Z.mul_comm 4 sub), Z.mul_mod_distr_l by lia. lia.
Qed.

(** The oldest message is taken; what is posted again are the slots of the next
    messages. *)
Lemma take_inv t r p q :
  ring_inv t r (p :: q) ->
  exists r', take_message r = Ret (r', Some (slot t + 40, p)) /\ memory_ r' = memory_ r /\ ring_inv (t + 1) r' q.
Proof.
  intros [Ht Hp Hn Hs Hc Hpo Hro Hcq Hlen Hmsg]. unfold take_message. rewrite Hcq. cbn [fmap list_fmap].
  unfold getMessage. rewrite Hp, Hn, Hs, Hc, !(proj2 (Z.eqb_neq _ _)) by lia. cbn [orb subNR].
  assert (Hcur : ADD_ROUND (t mod N) N = (t + 1) mod N) by (unfold ADD_ROUND; by rewrite Z.add_mod_idemp_l by lia).
  rewrite Hcur, (Z.mod_mod_divide (t + 1) N sub) by (by exists 4).
  assert (Hread : read_bytes (memory_ r) (slot t + 40) (Z.of_nat (length p)) = p).
  { specialize (Hmsg 0%nat p eq_refl). by rewrite Z.add_0_r in Hmsg. }
  apply Forall_cons in Hlen as [Hlp Hlen].
  assert (Hmsg' : forall j p', q !! j = Some p' ->
      read_bytes (memory_ r) (slot (t + 1 + Z.of_nat j) + 40) (Z.of_nat (length p')) = p').
  { intros j p' Hj. replace (t + 1 + Z.of_nat j) with (t + Z.of_nat (S j)) by lia. by apply Hmsg. }
  cbn [length] in Hpo, Hro. replace (t + Z.of_nat (S (length q))) with (t + 1 + Z.of_nat (length q)) in Hpo, Hro by lia.
  destruct (Z.eqb_spec ((t + 1) mod sub) 0) as [Hz|Hz]; cbn [mbind outcome_bind]; fold (slot t);
    change recvPadding with 40; rewrite Hread; eexists; (split; [done|split; [done|]]).
  - destruct (posted_next t Ht Hz) as [Htot Hbatch].
    constructor; cbn [conn_ memory_ cq with_posted messagePool messageNR subNR curMessage posted]; try done; try lia.
    rewrite Hpo, Htot. set (a := t + 1 + Z.of_nat (length q)) in *.
    replace (posted_total t + sub - a) with ((posted_total t - a) + sub) by lia.
    rewrite seqZ_app, fmap_app by lia. f_equal. replace (a + (posted_total t - a)) with (posted_total t) by lia.
    apply recvs_slots; [done|done|apply Z.mod_pos_bound; done|done].
  - pose proof (posted_same t Ht Hz) as Htot.
    constructor; cbn [conn_ memory_ cq with_posted messagePool messageNR subNR curMessage posted]; try done; try lia.
    all: rewrite Htot; done || lia.
Qed.

Lemma room_posted t q : MsgQueue.room sub {| MsgQueue.taken := t; MsgQueue.queue := q |} = posted_total t - (t + Z.of_nat (length q)).
Proof. unfold MsgQueue.room, posted_total. cbn. lia. Qed.

(** What a datagram of the library can be. *)
Definition fits (e : event) : Prop :=
  match e with Arrive grh payload => length grh = 40%nat /\ Z.of_nat (length payload) <= 4056 | Take => True end.

Lemma ring_step_refines t r q e :
  ring_inv t r q -> fits e ->
  let '(q', o) := MsgQueue.step sub {| MsgQueue.taken := t; MsgQueue.queue := q |} e in
  exists r', ring_step r e = Ret (r', o) /\ ring_inv (MsgQueue.taken q') r' (MsgQueue.queue q').
Proof.
  intros HI He. destruct e as [grh payload|]; cbn [MsgQueue.step].
  - destruct He as [Hg Hl]. rewrite room_posted. destruct (Z.ltb_spec 0 (posted_total t - (t + Z.of_nat (length q)))) as [H|H].
    + eexists. split; [done|]. by apply arrive_inv.
    + eexists. split; [done|]. cbn. by rewrite (arrive_full t r q).
  - cbn. destruct q as [|p q].
    + unfold ring_step, take_message. rewrite (ri_cq _ _ _ HI). by eexists.
    + destruct (take_inv t r p q HI) as (r' & HT & _ & HI'). exists r'. cbn [ring_step]. rewrite HT. by split.
Qed.

Lemma ring_run_refines es t r q :
  ring_inv t r q -> Forall fits es ->
  let '(q', out) := MsgQueue.run sub {| MsgQueue.taken := t; MsgQueue.queue := q |} es in
  exists r', ring_run r es = Ret (r', out) /\ ring_inv (MsgQueue.taken q') r' (MsgQueue.queue q').
Proof.
  intros HI HF. revert t r q HI. induction HF as [|e es He _ IH]; intros t r q HI; cbn [MsgQueue.run]; [by eexists|].
  pose proof (ring_step_refines t r q e HI He) as H. destruct (MsgQueue.step _ _ _) as [[t' q'] o].
  destruct H as (r1 & Hr1 & HI1). specialize (IH t' r1 q' HI1). destruct (MsgQueue.run _ _ _) as [q2 out].
  destruct IH as (r2 & Hr2 & HI2). exists r2. cbn [ring_run]. rewrite Hr1. cbn [mbind outcome_bind]. by rewrite Hr2.
Qed.
End Ring.

(** The message ring of a connection with [4 * sub] slots is a queue: for every
    sequence of arrivals and takes, the bytes read from the ring are what the
    abstract queue gives. *)
Theorem ring_refines_queue pool sub c mem es :
  0 < sub -> 4 * sub < 2 ^ 16 -> make pool (4 * sub) = Ret c -> Forall fits es ->
  exists r', ring_run {| conn_ := initRecv c; memory_ := mem; cq := [] |} es =
    Ret (r', (MsgQueue.run sub {| MsgQueue.taken := 0; MsgQueue.queue := [] |} es).2).
Proof.
  intros Hs HN Hm HF. pose proof (initRecv_inv pool sub Hs HN pool c mem eq_refl Hm) as HI.
  pose proof (ring_run_refines pool sub Hs es 0 _ [] HI HF) as H. destruct (MsgQueue.run _ _ _) as [q out].
  destruct H as (r' & Hr & _). by exists r'.
Qed.

Definition arrive_all (r : ring) (arrivals : list (list Z * list Z)) : ring := foldl (fun r a => arrive r a.1 a.2) r arrivals.

(** A message that was taken is not changed by any number of further arrivals,
    unless it is the last one of its batch. *)
Theorem taken_message_stable pool sub t r p q arrivals :
  0 < sub -> 4 * sub < 2 ^ 16 -> ring_inv pool sub t r (p :: q) -> (t + 1) mod sub <> 0 ->
  Forall (fun a => length a.1 = 40%nat /\ Z.of_nat (length a.2) <= 4056) arrivals ->
  exists r' m, take_message r = Ret (r', Some (m, p)) /\
    read_bytes (memory_ (arrive_all r' arrivals)) m (Z.of_nat (length p)) = p.
Proof.
  intros Hs HN HI Hz HF. destruct (take_inv pool sub Hs t r p q HI) as (r' & HT & Hmem & HI').
  exists r', (slot pool sub t + 40). split; [done|].
  assert (Hrd : read_bytes (memory_ r') (slot pool sub t + 40) (Z.of_nat (length p)) = p).
  { rewrite Hmem. pose proof (ri_msg _ _ _ _ _ HI 0%nat p eq_refl) as H. by rewrite Z.add_0_r in H. }
  pose proof (Forall_inv (ri_len _ _ _ _ _ HI)) as Hlp. cbn in Hlp. pose proof (ri_t _ _ _ _ _ HI) as Ht.
  clear HI HT Hmem. revert r' q HI' Hrd. induction HF as [|[grh pl] arrivals [Hg Hl] _ IH]; intros r' q HI' Hrd; [done|].
  cbn [arrive_all foldl fst snd] in *. fold (arrive_all (arrive r' grh pl) arrivals).
  destruct (Z.ltb_spec 0 (posted_total sub (t + 1) - (t + 1 + Z.of_nat (length q)))) as [H|H].
  - apply (IH _ (q ++ [pl])); [by apply arrive_inv|]. unfold arrive.
    rewrite (ri_posted _ _ _ _ _ HI'), seqZ_cons by lia. cbn [fmap list_fmap memory_].
    rewrite read_write_sep; [done|]. rewrite (posted_same sub Hs t Ht Hz) in H.
    pose proof (posted_total_bounds sub Hs t Ht) as Hb.
    assert (t mod sub + 1 < sub).
    { pose proof (Z.mod_pos_bound t sub Hs). assert (t mod sub + 1 <> sub); [|lia]. intros E. apply Hz.
      rewrite <- Z.add_mod_idemp_l, E by lia. apply Z.mod_same. lia. }
    pose proof (Z.div_mod t sub ltac:(lia)) as Hd. unfold posted_total in *.
    pose proof (slot_sep pool sub Hs (t + 1 + Z.of_nat (length q)) t (40 + Z.of_nat (length pl))
                  (40 + Z.of_nat (length p)) ltac:(lia) ltac:(lia) ltac:(lia) ltac:(lia)) as Hsep.
    unfold sep in *. cbn [fst snd] in *. rewrite length_app, Hg. lia.
  - rewrite (arrive_full pool sub (t + 1) r' q) by done. by apply (IH _ q).
Qed.

Lemma arrive_all_inv pool sub t r q arrivals :
  0 < sub -> ring_inv pool sub t r q ->
  Forall (fun a => length a.1 = 40%nat /\ Z.of_nat (length a.2) <= 4056) arrivals ->
  t + Z.of_nat (length q) + Z.of_nat (length arrivals) <= posted_total sub t ->
  ring_inv pool sub t (arrive_all r arrivals) (q ++ arrivals.*2).
Proof.
  intros Hs HI HF. revert r q HI. induction HF as [|[grh pl] arrivals [Hg Hl] _ IH]; intros r q HI Hn.
  - by rewrite app_nil_r.
  - cbn [arrive_all foldl fmap list_fmap fst snd length] in *. fold (arrive_all (arrive r grh pl) arrivals).
    rewrite (cons_middle pl q), app_assoc. apply IH; [apply arrive_inv; [done..|lia]|]. rewrite length_app. cbn. lia.
Qed.

(** The last message of a batch: its slot is posted again before it is returned.
    The arrival that fills the last of the [4 * sub] slots overwrites it, before
    another message is taken. *)
Theorem last_of_batch_overwritten pool sub t r p q arrivals grh payload :
  0 < sub -> ring_inv pool sub t r (p :: q) -> (t + 1) mod sub = 0 ->
  Forall (fun a => length a.1 = 40%nat /\ Z.of_nat (length a.2) <= 4056) arrivals -> length grh = 40%nat ->
  Z.of_nat (length q) + Z.of_nat (length arrivals) + 1 = 4 * sub ->
  exists r' m, take_message r = Ret (r', Some (m, p)) /\
    read_bytes (memory_ (arrive (arrive_all r' arrivals) grh payload)) m (Z.of_nat (length payload)) = payload.
Proof.
  intros Hs HI Hz HF Hg Hq. destruct (take_inv pool sub Hs t r p q HI) as (r' & HT & _ & HI').
  exists r', (slot pool sub t + 40). split; [done|].
  assert (Ht1 : posted_total sub (t + 1) = t + 1 + 4 * sub).
  { unfold posted_total. apply Z.mod_divide in Hz as [b Hb']; [|lia]. rewrite Hb', Z.div_mul by lia. lia. }
  pose proof (arrive_all_inv pool sub (t + 1) r' q arrivals Hs HI' HF ltac:(lia)) as HI2.
  assert (Hlen : Z.of_nat (length (q ++ arrivals.*2)) = 4 * sub - 1) by (rewrite length_app, length_fmap; lia).
  unfold arrive. rewrite (ri_posted _ _ _ _ _ HI2), seqZ_cons by lia. cbn [fmap list_fmap memory_].
  replace (slot pool sub (t + 1 + Z.of_nat (length (q ++ arrivals.*2)))) with (slot pool sub t).
  - replace 40 with (Z.of_nat (length grh)) by (rewrite Hg; done). rewrite write_bytes_app. apply read_write_same.
  - unfold slot. f_equal. f_equal. replace (t + 1 + Z.of_nat (length (q ++ arrivals.*2))) with (t + 1 * (4 * sub)) by lia.
    by rewrite Z.mod_add by lia.
Qed.

(** ** The sending side

    The sends of a queue pair complete in order, and only signaled sends give a
    completion: when [polled] completions have been polled, the sends up to
    number [32 * (polled - 1)], included, are complete. *)

Definition completed (c : conn) : Z := if polled c =? 0 then 0 else 32 * (polled c - 1) + 1.

(** The state of a connection that has sent [n] messages, each from the slot that
    [getSendPool] gave. *)
Record sent (NR n : Z) (c : conn) : Prop := {
  st_nr : messageNR c = NR;
  st_counter : sendCounter c = n;
  st_cur : curSend c = n mod NR;
  st_polled : polled c = if n =? 0 then 0 else (n - 1) / 32
}.

Lemma signal_batch n : Z.land n SIGNAL_BATCH = n mod 32.
Proof. exact (land_mask n 5 ltac:(lia)). Qed.

(** One message: its slot, and the sending of what was stored there. *)
Definition send_one (ibv_post_send : list Rdma.ibv_send_wr -> bool) (lkey : Z) (c : conn) (x : gmap Z Z * Z * Z) : outcome conn :=
  '(c, m) ← getSendPool c;
  '(c, _) ← sendRawMessage ibv_post_send lkey c x.1.1 m x.1.2 x.2;
  Ret c.

Fixpoint send_all (ibv_post_send : list Rdma.ibv_send_wr -> bool) (lkey : Z) (c : conn) (xs : list (gmap Z Z * Z * Z)) : outcome conn :=
  match xs with
  | [] => Ret c
  | x :: xs' => c ← send_one ibv_post_send lkey c x; send_all ibv_post_send lkey c xs'
  end.

Lemma send_one_step ibv_post_send lkey c x NR n :
  0 < NR -> 0 <= n -> n + 1 < 2 ^ 64 -> sent NR n c ->
  exists c', send_one ibv_post_send lkey c x = Ret c' /\ sent NR (n + 1) c'.
Proof.
  intros HNR Hn Hmax [Hnr Hc Hcur Hp]. unfold send_one, getSendPool. rewrite Hnr, (proj2 (Z.eqb_neq _ _)) by lia.
  cbn [mbind outcome_bind]. unfold sendRawMessage. cbn [sendCounter]. rewrite Hc, signal_batch.
  unfold Rdma.rdmaSend_ud, Rdma.post. destruct (ibv_post_send _); cbn [mbind outcome_bind]; eexists; (split; [done|]).
  all: constructor; cbn [messageNR sendCounter curSend polled]; [done|by rewrite u64_small by lia| |].
  1, 3: rewrite Hcur; unfold ADD_ROUND; by rewrite Z.add_mod_idemp_l by lia.
  all: rewrite (proj2 (Z.eqb_neq (n + 1) 0)), Hp by lia; replace (n + 1 - 1) with n by lia.
  all: destruct (Z.eqb_spec n 0) as [->|Hn0]; [done|]; rewrite (proj2 (Z.ltb_lt 0 n)), andb_true_r by lia.
  all: pose proof (Z.div_mod n 32 ltac:(lia)); pose proof (Z.mod_pos_bound n 32 ltac:(lia));
    pose proof (Z.div_mod (n - 1) 32 ltac:(lia)); pose proof (Z.mod_pos_bound (n - 1) 32 ltac:(lia)).
  all: destruct (Z.eqb_spec (n mod 32) 0); lia.
Qed.

Lemma send_all_sent ibv_post_send lkey xs c NR n :
  0 < NR -> 0 <= n -> n + Z.of_nat (length xs) < 2 ^ 64 -> sent NR n c ->
  exists c', send_all ibv_post_send lkey c xs = Ret c' /\ sent NR (n + Z.of_nat (length xs)) c'.
Proof.
  intros HNR. revert c n. induction xs as [|x xs IH]; intros c n Hn Hmax HS; cbn [send_all length] in *.
  - exists c. by rewrite Z.add_0_r.
  - destruct (send_one_step ibv_post_send lkey c x NR n HNR Hn ltac:(lia) HS) as (c1 & -> & H1). cbn [mbind outcome_bind].
    destruct (IH c1 (n + 1) ltac:(lia) ltac:(lia) H1) as (c2 & H2 & HS2). exists c2. split; [done|].
    by replace (n + Z.of_nat (S (length xs))) with (n + 1 + Z.of_nat (length xs)) by lia.
Qed.

(** [C33] With at least 64 slots, whatever was sent before: the slot that
    [getSendPool] gives was used only by sends that have completed, so that a
    message under way is never overwritten. *)
Theorem send_slot_reused pool NR c ibv_post_send lkey xs :
  64 <= NR < 2 ^ 16 -> make pool NR = Ret c -> Z.of_nat (length xs) < 2 ^ 64 ->
  exists c1 c2 s, send_all ibv_post_send lkey (initRecv c) xs = Ret c1 /\ getSendPool c1 = Ret (c2, s) /\
    s = sendPool c1 + Z.of_nat (length xs) mod NR * 4096 /\
    forall i, 0 <= i < Z.of_nat (length xs) -> i mod NR = Z.of_nat (length xs) mod NR -> i < completed c1.
Proof.
  intros HNR Hm Hmax. assert (H0 : sent NR 0 (initRecv c)).
  { unfold make in Hm. inv_ret. constructor; cbn; [apply Z.mod_small; lia|done|by rewrite Z.mod_0_l by lia|done]. }
  destruct (send_all_sent ibv_post_send lkey xs (initRecv c) NR 0 ltac:(lia) ltac:(lia) ltac:(lia) H0) as (c1 & H1 & [Hnr Hc Hcur Hp]).
  rewrite Z.add_0_l in Hc, Hcur, Hp. set (n := Z.of_nat (length xs)) in *. exists c1.
  unfold getSendPool. rewrite Hnr, (proj2 (Z.eqb_neq _ _)) by lia. eexists _, _. split; [done|]. split; [done|].
  split; [unfold sendPadding, Msg.MESSAGE_SIZE; rewrite Hcur; lia|]. intros i Hi Hmod.
  assert (Hin : i <= n - NR).
  { pose proof (Z.div_mod i NR ltac:(lia)). pose proof (Z.div_mod n NR ltac:(lia)).
    assert (E : n - i = NR * (n / NR - i / NR)) by lia. assert (0 < n / NR - i / NR) by nia. nia. }
  unfold completed. rewrite Hp, (proj2 (Z.eqb_neq n 0)) by lia.
  pose proof (Z.div_mod (n - 1) 32 ltac:(lia)). pose proof (Z.mod_pos_bound (n - 1) 32 ltac:(lia)).
  rewrite (proj2 (Z.eqb_neq _ _)) by lia. lia.
Qed.

(** ** Witnesses *)

Definition grh0 : list Z := replicate 40 0.

Definition small_conn : conn := initRecv {| messageNR := 8; messagePool := 0; curMessage := 0; curSend := 0; subNR := 0;
  posted := []; sendCounter := 0; polled := 0 |}.

Lemma ring_refines_queue_witness :
  exists r', ring_run {| conn_ := small_conn; memory_ := ∅; cq := [] |}
    [Arrive grh0 [1; 2]; Arrive grh0 [3]; Take; Arrive grh0 [4; 5]; Take; Take; Take] = Ret (r', [[1; 2]; [3]; [4; 5]]).
Proof.
  destruct (ring_refines_queue 0 2 {| messageNR := 8; messagePool := 0; curMessage := 0; curSend := 0; subNR := 0;
    posted := []; sendCounter := 0; polled := 0 |} ∅
    [Arrive grh0 [1; 2]; Arrive grh0 [3]; Take; Arrive grh0 [4; 5]; Take; Take; Take]) as [r' H].
  - lia.
  - reflexivity.
  - reflexivity.
  - repeat constructor; cbn; lia.
  - exists r'. exact H.
Defined.

(** Two slots per batch: one message in front of the batch's last one. *)
Definition one_waiting : ring :=
  match ring_run {| conn_ := small_conn; memory_ := ∅; cq := [] |} [Arrive grh0 [1]; Take; Arrive grh0 [2]] with
  | Ret (r, _) => r
  | Err _ => {| conn_ := small_conn; memory_ := ∅; cq := [] |}
  end.

Lemma one_waiting_inv : ring_inv 0 2 1 one_waiting [[2]].
Proof.
  assert (HF : Forall fits [Arrive grh0 [1]; Take; Arrive grh0 [2]]) by (repeat constructor; cbn; lia).
  pose proof (initRecv_inv 0 2 ltac:(lia) ltac:(lia) 0 {| messageNR := 8; messagePool := 0; curMessage := 0; curSend := 0;
    subNR := 0; posted := []; sendCounter := 0; polled := 0 |} ∅ eq_refl eq_refl) as HI.
  destruct (ring_run_refines 0 2 ltac:(lia) _ 0 _ [] HI HF) as (r' & Hr & HI').
  unfold one_waiting. fold small_conn in Hr. rewrite Hr. exact HI'.
Qed.

Lemma last_of_batch_overwritten_witness :
  exists r' m, take_message one_waiting = Ret (r', Some (m, [2])) /\
    read_bytes (memory_ (arrive (arrive_all r' (replicate 7 (grh0, [9]))) grh0 [66])) m 1 = [66].
Proof.
  destruct (last_of_batch_overwritten 0 2 1 one_waiting [2] [] (replicate 7 (grh0, [9])) grh0 [66]) as (r' & m & HT & HR).
  - lia.
  - exact one_waiting_inv.
  - reflexivity.
  - repeat constructor; cbn; lia.
  - reflexivity.
  - reflexivity.
  - exists r', m. split; [exact HT|exact HR].
Defined.

Lemma taken_message_stable_witness :
  exists r r' m, ring_run {| conn_ := small_conn; memory_ := ∅; cq := [] |} [Arrive grh0 [1]] = Ret (r, []) /\
    take_message r = Ret (r', Some (m, [1])) /\
    read_bytes (memory_ (arrive_all r' (replicate 20 (grh0, [9])))) m 1 = [1].
Proof.
  assert (HF : Forall fits [Arrive grh0 [1]]) by (repeat constructor; cbn; lia).
  pose proof (initRecv_inv 0 2 ltac:(lia) ltac:(lia) 0 {| messageNR := 8; messagePool := 0; curMessage := 0; curSend := 0;
    subNR := 0; posted := []; sendCounter := 0; polled := 0 |} ∅ eq_refl eq_refl) as HI.
  destruct (ring_run_refines 0 2 ltac:(lia) _ 0 _ [] HI HF) as (r & Hr & HI').
  destruct (taken_message_stable 0 2 0 r [1] [] (replicate 20 (grh0, [9]))) as (r' & m & HT & HR).
  - lia.
  - lia.
  - exact HI'.
  - done.
  - repeat constructor; cbn; lia.
  - exists r, r', m. split; [exact Hr|]. split; [exact HT|exact HR].
Defined.

Lemma send_slot_reused_witness :
  exists c1 c2 s, send_all (fun _ => true) 7 (initRecv {| messageNR := 64; messagePool := 0; curMessage := 0; curSend := 0;
      subNR := 0; posted := []; sendCounter := 0; polled := 0 |}) (replicate 70 (∅, 1, 2)) = Ret c1 /\
    getSendPool c1 = Ret (c2, s) /\ s = 64 * 4096 + 6 * 4096.
Proof.
  destruct (send_slot_reused 0 64 {| messageNR := 64; messagePool := 0; curMessage := 0; curSend := 0;
      subNR := 0; posted := []; sendCounter := 0; polled := 0 |} (fun _ => true) 7 (replicate 70 (∅, 1, 2)))
    as (c1 & c2 & s & H1 & H2 & Hs & _); [lia|done|done|].
  exists c1, c2, s. split; [exact H1|]. split; [exact H2|]. rewrite Hs. vm_compute in H1. injection H1 as <-. reflexivity.
Defined.
