(* ===== verification/Dsm.v ===== *)
(** * The RDMA library seen by the parameter server (third_party/Mayfly-main: DSM, ThreadConnection)

    A process has one DSM: the memory that it opens to the others ([baseAddr],
    [dsmSize]), a cache of registered memory, eight connections for its threads,
    and what it knows of the other nodes.  A thread registers itself and gets the
    next connection and a buffer of one MB in the cache.  [rpc_call] copies a
    message to a slot of the sending ring, appends the extra data and sends it;
    [write] and [write_from_pm_vec] write to the memory of another node.

    Then what the server does with the answer of a request ([perform]): it copies
    the values to its buffer and writes them to the client, as one buffer or as a
    list of buffers. *)

From stdpp Require Import base numbers list gmap.
From Stdlib Require Import ZArith Lia.
From S2P Require Import Prelude MallocApi PetKV PetKVSpec Array Ps RawMsg Rdma MsgConn.

Module Dsm.

Definition kMaxNetThread : Z := 8.
Definition MB : Z := 1024 * 1024.
Definition APP_MESSAGE_NR : Z := 512.

Record ThreadConnection := Build_ThreadConnection {
  message : MsgConn.conn;
  messageLkey : Z;
  cacheLKey : Z;
  globalMemLkey : Z
}.

(** Of a node: its memory, its key, and the queue pairs and address handles of its
    threads. *)
Record RemoteConnection := Build_RemoteConnection {
  dsmBase : Z;
  dsmRKey : Z;
  appMessageQPN : list Z;
  appAh : list Z
}.

(** [regions] are the registered regions, by local key; [tls] are the thread-local
    [thread_id] and [rdma_buffer] of the threads that have registered, by system
    thread. *)
Record dsm := Build_dsm {
  myNodeID : Z;
  baseAddr : Z;
  dsmSize : Z;
  is_client : bool;
  appID : Z;
  cache_data : Z;
  cache_size : Z;
  thCon : list ThreadConnection;
  remoteInfo : list RemoteConnection;
  regions : gmap Z (Z * Z);
  tls : gmap Z (Z * Z)
}.

(** [ThreadConnection]: the address of its message pool, and the keys of the
    pool and of the cache. *)
Definition make_thread (pool message_key cache_key : Z) : outcome ThreadConnection :=
  c ← MsgConn.make pool APP_MESSAGE_NR;
  Ret {| message := c; messageLkey := message_key; cacheLKey := cache_key; globalMemLkey := 0 |}.

Fixpoint make_threads (args : list (Z * Z * Z)) : outcome (list ThreadConnection) :=
  match args with
  | [] => Ret []
  | (pool, mk, ck) :: args' => t ← make_thread pool mk ck; ts ← make_threads args'; Ret (t :: ts)
  end.

(** The regions that the connections register: the two pools of messages, and the
    cache. *)
Definition thread_regions (cache : Z * Z) (args : list (Z * Z * Z)) : gmap Z (Z * Z) :=
  foldl (fun m '(pool, mk, ck) => <[ck := cache]> (<[mk := (pool, 2 * APP_MESSAGE_NR * Msg.MESSAGE_SIZE)]> m)) ∅ args.

(** The constructor, once the node has its id: a client whose id is that of a
    server exits; a node other than the first that has no memory allocates some at
    [huge].  [cacheSize] is in MB; [args] has the eight connections. *)
Definition make (node serverNR base size : Z) (client : bool) (cache_addr cacheSize huge : Z) (args : list (Z * Z * Z))
    (remote : list RemoteConnection) : outcome dsm :=
  if client && (node <? serverNR) then Err LogFatal else
  let '(base, size) := if negb (node =? 0) && (base =? 0) then (huge, 100 * MB) else (base, size) in
  ts ← make_threads args;
  Ret {| myNodeID := node; baseAddr := base; dsmSize := size; is_client := client; appID := 0;
         cache_data := cache_addr; cache_size := cacheSize * MB; thCon := ts; remoteInfo := remote;
         regions := thread_regions (cache_addr, cacheSize * MB) args; tls := ∅ |}.

Definition with_thCon (d : dsm) (ts : list ThreadConnection) : dsm :=
  {| myNodeID := myNodeID d; baseAddr := baseAddr d; dsmSize := dsmSize d; is_client := is_client d; appID := appID d;
     cache_data := cache_data d; cache_size := cache_size d; thCon := ts; remoteInfo := remoteInfo d;
     regions := regions d; tls := tls d |}.

Definition with_message (t : ThreadConnection) (c : MsgConn.conn) : ThreadConnection :=
  {| message := c; messageLkey := messageLkey t; cacheLKey := cacheLKey t; globalMemLkey := globalMemLkey t |}.

(** [registerThread] of the system thread [self]; [key] is the key of the memory
    region that a server registers for the thread. *)
Definition registerThread (d : dsm) (self key : Z) : outcome dsm :=
  match tls d !! self with
  | Some _ => Ret d
  | None =>
      let thread_id := appID d in
      iCon ← deref (thCon d !! Z.to_nat thread_id);
      let iCon := with_message iCon (MsgConn.initRecv (message iCon)) in
      let '(iCon, regs) :=
        if is_client d then (iCon, regions d)
        else ({| message := message iCon; messageLkey := messageLkey iCon; cacheLKey := cacheLKey iCon; globalMemLkey := key |},
              <[key := (baseAddr d, dsmSize d)]> (regions d)) in
      Ret {| myNodeID := myNodeID d; baseAddr := baseAddr d; dsmSize := dsmSize d; is_client := is_client d;
             appID := i32 (appID d + 1); cache_data := cache_data d; cache_size := cache_size d;
             thCon := <[Z.to_nat thread_id := iCon]> (thCon d); remoteInfo := remoteInfo d; regions := regs;
             tls := <[self := (thread_id, cache_data d + 0 * MB + thread_id * 1 * MB)]> (tls d) |}
  end.

Definition getMyThreadID (d : dsm) (self : Z) : option Z := fst <$> tls d !! self.
Definition get_rdma_buffer (d : dsm) (self : Z) : option Z := snd <$> tls d !! self.

(** [gaddr] and [addr]; the offset has 48 bits. *)
Definition gaddr (d : dsm) (a : Z) : outcome GlobalAddress.gaddr :=
  let g := GlobalAddress.make (myNodeID d) (u64 (a - baseAddr d)) in
  _ ← CHECK (GlobalAddress.offset g <? dsmSize d);
  Ret g.

Definition addr (d : dsm) (g : GlobalAddress.gaddr) : outcome Z :=
  _ ← CHECK (GlobalAddress.nodeID g =? myNodeID d);
  Ret (u64 (GlobalAddress.offset g + baseAddr d)).

(** The connection of a thread that has registered. *)
Definition iCon (d : dsm) (self : Z) : outcome (Z * ThreadConnection) :=
  '(t, _) ← deref (tls d !! self);
  c ← deref (thCon d !! Z.to_nat t);
  Ret (t, c).

Definition put_iCon (d : dsm) (t : Z) (c : ThreadConnection) : dsm := with_thCon d (<[Z.to_nat t := c]> (thCon d)).

Section Ops.
Context (ibv_post_send : list Rdma.ibv_send_wr -> bool).

Definition sendMessage (d : dsm) (t : Z) (c : ThreadConnection) (mem : gmap Z Z) (m node_id t_id : Z) :
    outcome (dsm * list Rdma.ibv_send_wr) :=
  r ← deref (remoteInfo d !! Z.to_nat node_id);
  qpn ← deref (appMessageQPN r !! Z.to_nat t_id);
  ah ← deref (appAh r !! Z.to_nat t_id);
  '(conn, ws) ← MsgConn.sendRawMessage ibv_post_send (messageLkey c) (message c) mem m qpn ah;
  Ret (put_iCon d t (with_message c conn), ws).

(** [rpc_call]: the size is checked before the extra data is added. *)
Definition rpc_call (d : dsm) (self : Z) (mem : gmap Z Z) (m node_id t_id : Z) (extra_data : Msg.Slice) :
    outcome (dsm * gmap Z Z * list Rdma.ibv_send_wr) :=
  '(t, c) ← iCon d self;
  '(conn, buffer) ← MsgConn.getSendPool (message c);
  let c := with_message c conn in
  if Msg.MESSAGE_SIZE <=? Msg.size mem m + 40 then Err LogFatal else
  let mem := write_bytes mem buffer (read_bytes mem m (Msg.size mem m)) in
  let mem := Msg.set_node_id mem buffer (myNodeID d) in
  let mem := Msg.set_t_id mem buffer t in
  mem ← match Msg.s extra_data with
        | Some _ => Msg.add_string_slice mem buffer extra_data
        | None => Ret mem
        end;
  '(d, ws) ← sendMessage d t c mem buffer node_id t_id;
  Ret (d, mem, ws).

(** [rpc_call_wo_set_source] *)
Definition rpc_call_wo_set_source (d : dsm) (self : Z) (mem : gmap Z Z) (m node_id t_id : Z) :
    outcome (dsm * gmap Z Z * list Rdma.ibv_send_wr) :=
  '(t, c) ← iCon d self;
  '(conn, buffer) ← MsgConn.getSendPool (message c);
  _ ← CHECK (Msg.size mem m + 40 <? Msg.MESSAGE_SIZE);
  let mem := write_bytes mem buffer (read_bytes mem m (Msg.size mem m)) in
  '(d, ws) ← sendMessage d t (with_message c conn) mem buffer node_id t_id;
  Ret (d, mem, ws).

(** The address that a global address stands for, on its node. *)
Definition remote_address (d : dsm) (g : GlobalAddress.gaddr) : outcome (Z * Z) :=
  r ← deref (remoteInfo d !! Z.to_nat (GlobalAddress.nodeID g));
  Ret (u64 (dsmBase r + GlobalAddress.offset g), dsmRKey r).

Definition write (d : dsm) (self buffer : Z) (g : GlobalAddress.gaddr) (size : Z) (signal : bool) (wrID : Z) :
    outcome (list Rdma.ibv_send_wr) :=
  '(_, c) ← iCon d self;
  '(dest, key) ← remote_address d g;
  Rdma.rdmaWrite ibv_post_send buffer dest size (cacheLKey c) key (-1) signal wrID.

(** [write_from_pm]: the buffer is in the memory of the node. *)
Definition write_from_pm (d : dsm) (self buffer : Z) (g : GlobalAddress.gaddr) (size : Z) (signal : bool) :
    outcome (list Rdma.ibv_send_wr) :=
  '(_, c) ← iCon d self;
  '(dest, key) ← remote_address d g;
  Rdma.rdmaWrite ibv_post_send buffer dest size (globalMemLkey c) key (-1) signal 0.

Definition write_from_pm_vec (d : dsm) (self : Z) (source_list : list Rdma.SourceList) (g : GlobalAddress.gaddr)
    (sgePerWr wrID : Z) : outcome (list Rdma.ibv_send_wr) :=
  '(_, c) ← iCon d self;
  '(dest, key) ← remote_address d g;
  Rdma.rdmaWriteVector ibv_post_send source_list dest (globalMemLkey c) key wrID sgePerWr.

Definition read (d : dsm) (self buffer : Z) (g : GlobalAddress.gaddr) (size : Z) (signal : bool) :
    outcome (bool * list Rdma.ibv_send_wr) :=
  '(_, c) ← iCon d self;
  '(src, key) ← remote_address d g;
  Rdma.rdmaRead ibv_post_send buffer src size (cacheLKey c) key signal 0.

Definition cas (d : dsm) (self : Z) (g : GlobalAddress.gaddr) (equal val rdma_buffer : Z) (signal : bool) :
    outcome (bool * list Rdma.ibv_send_wr) :=
  '(_, c) ← iCon d self;
  '(dest, key) ← remote_address d g;
  Rdma.rdmaCompareAndSwap ibv_post_send rdma_buffer dest equal val (cacheLKey c) key signal.

(** *** The answer of a request: petps_server.cc

    The loop over the values: each is copied behind the one before it, and
    entered in the list of sources, whose sizes have 16 bits. *)
Fixpoint fill_buffer (mem : gmap Z Z) (buf acc : Z) (values : list (list Z)) : gmap Z Z * list Rdma.SourceList * Z :=
  match values with
  | [] => (mem, [], acc)
  | v :: values' =>
      let mem := write_bytes mem (buf + acc) v in
      let n := Z.of_nat (length v) in
      let '(mem, sources, total) := fill_buffer mem buf (acc + n) values' in
      (mem, {| Rdma.addr := buf + acc; Rdma.size := n mod 2 ^ 16 |} :: sources, total)
  end.

(** What a service thread asks of the library ([dsm_op]), with its copies: the
    memory of the server and the work requests.  For a reply with thread ids,
    [new] is where the new message and the vector of ids are. *)
Definition perform (d : dsm) (self : Z) (mem : gmap Z Z) (g : GlobalAddress.gaddr) (new : Z * Z) (op : dsm_op) :
    outcome (dsm * gmap Z Z * list Rdma.ibv_send_wr) :=
  match op with
  | rdma_write _ bytes wr_id =>
      buf ← deref (get_rdma_buffer d self);
      let mem := write_bytes mem buf bytes in
      ws ← write d self buf g (Z.of_nat (length bytes)) true wr_id;
      Ret (d, mem, ws)
  | Ps.write_from_pm_vec _ values wr_id =>
      buf ← deref (get_rdma_buffer d self);
      let '(mem, sources, _) := fill_buffer mem buf 0 values in
      ws ← write_from_pm_vec d self sources g 30 wr_id;
      Ret (d, mem, ws)
  | Ps.rpc_call node t ids =>
      let mem := Msg.set_type (Msg.get_new_msg mem new.1) new.1 RESP_GET_SERVER_THREADIDS in
      let mem := write_bytes mem new.2 (encode 4 ids) in
      rpc_call d self mem new.1 node t {| Msg.s := Some new.2; Msg.len := Z.of_nat (length ids) * 4 |}
  end.
End Ops.

(** What a service thread reads of a message at [m]; the address to answer to is
    that of the sender. *)
Definition parse (d : dsm) (mem : gmap Z Z) (m : Z) : outcome (RawMessage * GlobalAddress.gaddr) :=
  ty ← deref (Msg.type mem m);
  let g := Msg.receive_gaddr mem m in
  '(a, _) ← remote_address d g;
  Ret ({| m_type := ty; node_id := Msg.node_id mem m; t_id := Msg.t_id mem m; receive_gaddr := a;
          extra_data := Msg.slice_bytes mem (Msg.get_string mem m 0).1 |}, g).
End Dsm.

Import Dsm.

(** ** Threads *)

Definition register_all (d : dsm) (threads : list (Z * Z)) : outcome dsm :=
  foldl (fun d x => d ← d; registerThread d x.1 x.2) (Ret d) threads.

(** [threads] have registered, in this order. *)
Record registered (threads : list Z) (d : dsm) : Prop := {
  rg_app : appID d = Z.of_nat (length threads);
  rg_con : length (thCon d) = 8%nat;
  rg_nodup : NoDup threads;
  rg_tls i s : threads !! i = Some s -> tls d !! s = Some (Z.of_nat i, cache_data d + Z.of_nat i * MB);
  rg_none s : s ∉ threads -> tls d !! s = None
}.

(** The next thread gets the next id and the next MB of the cache. *)
Lemma registerThread_next threads d s key :
  registered threads d -> s ∉ threads -> (length threads < 8)%nat ->
  exists d', registerThread d s key = Ret d' /\ registered (threads ++ [s]) d' /\ cache_data d' = cache_data d /\
    cache_size d' = cache_size d.
Proof.
  intros [Ha Hc Hnd Ht Hn] Hs Hlt. unfold registerThread. rewrite (Hn s Hs), Ha, Nat2Z.id.
  destruct (lookup_lt_is_Some_2 (thCon d) (length threads)) as [c ->]; [lia|]. cbn [deref mbind outcome_bind].
  destruct (is_client d); eexists; (split; [done|]); (split; [|done]).
  all: constructor; cbn [appID thCon tls cache_data]; [rewrite length_app, i32_small by lia; cbn; lia|by rewrite length_insert| | |].
  1, 4: apply NoDup_app; split; [done|]; split; [|apply NoDup_singleton]; intros x Hx Hx'; apply list_elem_of_singleton in Hx'; by subst.
  1, 3: intros i x Hx; apply lookup_app_Some in Hx as [Hx|[Hge Hx]];
    [rewrite lookup_insert_ne; [by apply Ht|intros ->; by apply Hs; eapply list_elem_of_lookup_2]|
     apply list_lookup_singleton_Some in Hx as [Hi <-]; rewrite lookup_insert_eq; replace i with (length threads) by lia;
     do 2 f_equal; lia].
  all: intros x Hx; apply not_elem_of_app in Hx as [Hx Hx']; rewrite lookup_insert_ne; [by apply Hn|];
    intros ->; apply Hx'; by apply list_elem_of_singleton.
Qed.

(** A thread that has registered is registered. *)
Lemma registerThread_again threads d i s key : registered threads d -> threads !! i = Some s -> registerThread d s key = Ret d.
Proof. intros HR Hi. unfold registerThread. by rewrite (rg_tls _ _ HR i s Hi). Qed.

(** There are connections for eight threads only: the ninth reads behind the end of
    the array. *)
Theorem ninth_thread_undefined threads d s key :
  registered threads d -> s ∉ threads -> (8 <= length threads)%nat -> registerThread d s key = Err Undefined.
Proof.
  intros [Ha Hc Hnd Ht Hn] Hs Hge. unfold registerThread. rewrite (Hn s Hs), Ha, Nat2Z.id.
  by rewrite lookup_ge_None_2 by lia.
Qed.

Lemma register_all_app d l1 l2 : register_all d (l1 ++ l2) = (d' ← register_all d l1; register_all d' l2).
Proof.
  unfold register_all. rewrite foldl_app. destruct (foldl _ (Ret d) l1) as [d'|e]; [done|]. cbn.
  induction l2 as [|x l2 IH]; [done|exact IH].
Qed.

(** Up to eight threads register, in any order; thread [i] of the order gets the
    id [i] and the [i]-th MB of the cache: the buffers do not overlap. *)
Theorem registerThread_buffers d threads :
  registered [] d -> NoDup threads.*1 -> (length threads <= 8)%nat -> 8 * MB <= cache_size d ->
  exists d', register_all d threads = Ret d' /\
    (forall i s, threads.*1 !! i = Some s -> getMyThreadID d' s = Some (Z.of_nat i) /\
       exists b, get_rdma_buffer d' s = Some b /\ cache_data d <= b /\ b + MB <= cache_data d + cache_size d) /\
    (forall s1 s2 b1 b2, s1 <> s2 -> get_rdma_buffer d' s1 = Some b1 -> get_rdma_buffer d' s2 = Some b2 ->
       sep (b1, MB) (b2, MB)).
Proof.
  intros HR Hnd Hlen Hcache.
  assert (H : exists d', register_all d threads = Ret d' /\ registered threads.*1 d' /\ cache_data d' = cache_data d).
  { clear Hcache. induction threads as [|[s key] threads IH] using rev_ind; [by exists d|].
    rewrite fmap_app in Hnd. apply NoDup_app in Hnd as (Hnd & Hs & _). rewrite length_app in Hlen. cbn in Hlen.
    destruct IH as (d1 & H1 & HR1 & Hc1); [done|lia|].
    destruct (registerThread_next threads.*1 d1 s key HR1) as (d2 & H2 & HR2 & Hc2 & _).
    - intros Hin. apply (Hs s Hin). by apply list_elem_of_singleton.
    - rewrite length_fmap. lia.
    - exists d2. rewrite register_all_app, H1, fmap_app. cbn. rewrite H2. split; [done|]. split; [exact HR2|congruence]. }
  destruct H as (d' & Hd & HR' & Hc). exists d'. split; [done|].
  assert (Hb : forall s b, get_rdma_buffer d' s = Some b -> exists i, threads.*1 !! i = Some s /\ b = cache_data d + Z.of_nat i * MB).
  { intros s b Hg. unfold get_rdma_buffer in Hg. destruct (decide (s ∈ threads.*1)) as [Hin|Hin].
    - apply list_elem_of_lookup in Hin as [i Hi]. rewrite (rg_tls _ _ HR' i s Hi) in Hg. cbn in Hg. simplify_eq.
      exists i. by rewrite Hc.
    - by rewrite (rg_none _ _ HR' s Hin) in Hg. }
  split.
  - intros i s Hi. unfold getMyThreadID, get_rdma_buffer. rewrite (rg_tls _ _ HR' i s Hi). cbn. split; [done|].
    eexists. split; [done|]. apply lookup_lt_Some in Hi. rewrite length_fmap in Hi. rewrite Hc. unfold MB in *. lia.
  - intros s1 s2 b1 b2 Hne H1 H2. destruct (Hb _ _ H1) as (i1 & Hi1 & ->). destruct (Hb _ _ H2) as (i2 & Hi2 & ->).
    assert (i1 <> i2) by congruence. unfold sep, MB. cbn [fst snd]. lia.
Qed.
