(* ===== verification/DsmSpec.v ===== *)
(** * A request and its answer, over the RDMA library

    The message that [rpc_call] puts on the wire is what the receiver parses; the
    answer of a service thread reaches the memory of the client.  Together: a GET
    of the client end to end, where PsSpec.v has a hypothesis on what the library
    does.  With a gather list ([use_sglist]) the answer does not arrive: the
    values are copied to the cache, and sent with the key of the other region. *)

From stdpp Require Import base numbers list gmap.
From Stdlib Require Import ZArith Lia.
From S2P Require Import Prelude MallocApi PetKV PetKVSpec Epoch Array EnginesSpec Ps PsSpec RawMsg Rdma MsgConn Dsm.
Import Msg Dsm.

(** ** Parts of a region *)

Lemma read_bytes_sub mem mem' a b n off k :
  read_bytes mem a n = read_bytes mem' b n -> 0 <= off -> 0 <= k -> off + k <= n ->
  read_bytes mem (a + off) k = read_bytes mem' (b + off) k.
Proof.
  intros H Ho Hk Hn. replace n with (off + (k + (n - off - k))) in H by lia.
  rewrite !(read_bytes_split _ _ off), !(read_bytes_split _ _ k) in H by lia.
  apply app_inj_1 in H as [_ H]; [|by rewrite !read_bytes_length].
  by apply app_inj_1 in H as [H _]; [|by rewrite !read_bytes_length].
Qed.

Lemma get_field_sub mem mem' a b n off w :
  read_bytes mem a n = read_bytes mem' b n -> 0 <= off -> off + Z.of_nat w <= n -> get_field mem a off w = get_field mem' b off w.
Proof. intros H Ho Hn. unfold get_field. f_equal. apply (read_bytes_sub _ _ _ _ n); [done|lia..]. Qed.

(** ** Global addresses *)

(** The address of a buffer of the client, as a node that knows it computes it. *)
Lemma gaddr_remote d d' a r :
  0 <= myNodeID d < 2 ^ 16 -> 0 <= baseAddr d -> baseAddr d <= a < baseAddr d + dsmSize d -> a < 2 ^ 64 -> dsmSize d <= 2 ^ 48 ->
  remoteInfo d' !! Z.to_nat (myNodeID d) = Some r -> dsmBase r = baseAddr d ->
  exists g, gaddr d a = Ret g /\ remote_address d' g = Ret (a, dsmRKey r) /\ addr d g = Ret a /\
    g = GlobalAddress.make (myNodeID d) (a - baseAddr d).
Proof.
  intros Hn Hb Ha Hmax Hsz Hr Hbase. unfold gaddr. rewrite u64_small by lia.
  set (g := GlobalAddress.make _ _).
  assert (Ho : GlobalAddress.offset g = a - baseAddr d) by (cbn; apply Z.mod_small; lia).
  assert (Hid : GlobalAddress.nodeID g = myNodeID d) by (cbn; apply Z.mod_small; lia).
  rewrite Ho, (proj2 (Z.ltb_lt _ _)) by lia. cbn [CHECK mbind outcome_bind]. exists g. split_and!.
  - done.
  - unfold remote_address. rewrite Hid, Ho, Hr. cbn. rewrite Hbase, u64_small by lia. do 2 f_equal. lia.
  - unfold addr. rewrite Hid, Ho, Z.eqb_refl. cbn. rewrite u64_small by lia. f_equal. lia.
  - done.
Qed.

(** ** The message on the wire *)

Section Wire.
Context (ibv_post_send : list Rdma.ibv_send_wr -> bool).

(** What the sender needs: a registered thread with a slot at [buffer], a receiver
    that it knows, and memory that does not overlap with the slot. *)
Record can_send (d : dsm) (self tid : Z) (c : ThreadConnection) (conn : MsgConn.conn) (buffer node t : Z) : Prop := {
  cs_con : iCon d self = Ret (tid, c);
  cs_slot : MsgConn.getSendPool (message c) = Ret (conn, buffer);
  cs_remote : exists r qpn ah, remoteInfo d !! Z.to_nat node = Some r /\ appMessageQPN r !! Z.to_nat t = Some qpn /\
    appAh r !! Z.to_nat t = Some ah;
  cs_post : forall ws, ibv_post_send ws = true
}.

(** The bytes [m', m' + n) of [mem'] are a message with this content. *)
Definition is_message (mem' : gmap Z Z) (m' : Z) (ty : option RpcType) (node t : Z) (g : GlobalAddress.gaddr) (extra : list Z) : Prop :=
  type mem' m' = ty /\ Msg.node_id mem' m' = node /\ Msg.t_id mem' m' = t /\ Msg.receive_gaddr mem' m' = g /\
  slice_bytes mem' (get_string mem' m' 0).1 = extra.

(** The message is determined by its bytes. *)
Lemma is_message_bytes mem mem' m m' ty node t g extra :
  is_message mem m ty node t g extra -> get_string mem m 0 = ({| s := Some (body m + 4); len := Z.of_nat (length extra) |}, 4 + Z.of_nat (length extra)) ->
  read_bytes mem' m' (18 + Z.of_nat (length extra)) = read_bytes mem m (18 + Z.of_nat (length extra)) ->
  is_message mem' m' ty node t g extra.
Proof.
  intros (Hty & Hn & Ht & Hg & Hx) Hs Hr. set (n := 18 + Z.of_nat (length extra)) in *.
  assert (HF : forall off w, 0 <= off -> off + Z.of_nat w <= n -> get_field mem' m' off w = get_field mem m off w).
  { intros off w Ho Hw. by apply (get_field_sub _ _ _ _ n). }
  unfold is_message, type, Msg.node_id, Msg.t_id, Msg.receive_gaddr in *. rewrite !HF by lia. split_and!; try done.
  unfold get_string in *. rewrite !Z.add_0_r in *. unfold body, sizeof_RawMessage in *.
  rewrite (read_bytes_sub _ _ _ _ n 14 4 Hr) by lia. set (k := le_value _) in *.
  assert (Hk : k = Z.of_nat (length extra)) by congruence. cbn [fst slice_bytes s len] in *. rewrite Hk in *.
  etrans; [|exact Hx]. rewrite <- !Z.add_assoc. apply (read_bytes_sub _ _ _ _ n); [done|lia..].
Qed.

(** The slot after [rpc_call] has copied the header, set the source and added the
    data. *)
Definition rpc_memory (node tid : Z) (mem : gmap Z Z) (m buffer src k : Z) : gmap Z Z :=
  add_string (set_t_id (set_node_id (write_bytes mem buffer (read_bytes mem m 14)) buffer node) buffer tid) buffer src k.

Lemma rpc_memory_message node tid mem m buffer src k :
  msg_size mem m = 0 -> 0 <= k -> 4 + k < 2 ^ 16 -> src + k <= buffer \/ buffer + 18 + k <= src ->
  let mem4 := rpc_memory node tid mem m buffer src k in
  is_message mem4 buffer (type mem m) (node mod 256) (tid mod 256) (Msg.receive_gaddr mem m) (read_bytes mem src k) /\
  get_string mem4 buffer 0 = ({| s := Some (body buffer + 4); len := k |}, 4 + k) /\ size mem4 buffer = 18 + k /\
  (forall x, ~ (buffer <= x < buffer + 18 + k) -> mem4 !! x = mem !! x).
Proof.
  intros Hms Hk Hfit Hsrc. unfold rpc_memory. set (mem1 := write_bytes mem buffer (read_bytes mem m 14)).
  set (mem2 := set_node_id mem1 buffer node). set (mem3 := set_t_id mem2 buffer tid).
  assert (H14 : read_bytes mem1 buffer 14 = read_bytes mem m 14) by (apply read_write_bytes; by rewrite read_bytes_length).
  assert (HF1 : forall off w, 0 <= off -> off + Z.of_nat w <= 14 -> get_field mem1 buffer off w = get_field mem m off w).
  { intros off w Ho Hw. by apply (get_field_sub _ _ _ _ 14). }
  assert (HF3 : forall off w, 3 <= off -> off + Z.of_nat w <= 14 -> get_field mem3 buffer off w = get_field mem m off w).
  { intros off w Ho Hw. unfold mem3, mem2, set_t_id, set_node_id. rewrite !get_set_other by lia. by apply HF1; lia. }
  assert (Hms3 : msg_size mem3 buffer = 0) by (unfold msg_size; rewrite HF3 by lia; exact Hms).
  destruct (add_string_spec mem3 buffer src k (buffer + 18 + k)) as (Hs4 & Ho4 & Hg4 & Hr4);
    [lia|split; [lia|exact Hsrc]|lia|unfold body, sizeof_RawMessage; lia|].
  set (mem4 := add_string mem3 buffer src k) in *. rewrite Hms3 in *. cbn [Z.add] in *.
  assert (HF4 : forall off w, 0 <= off -> off + Z.of_nat w <= 12 -> get_field mem4 buffer off w = get_field mem3 buffer off w).
  { intros off w Ho Hw. apply get_field_ext. intros x Hx. apply Ho4; unfold body, sizeof_RawMessage; lia. }
  assert (Hout : forall x, ~ (buffer <= x < buffer + 14) -> mem3 !! x = mem !! x).
  { intros x Hx. unfold mem3, mem2, set_t_id, set_node_id. rewrite !set_field_out by lia.
    apply write_bytes_out. rewrite read_bytes_length. lia. }
  assert (Hsrc3 : read_bytes mem3 src k = read_bytes mem src k) by (apply read_bytes_ext; intros x Hx; apply Hout; lia).
  split; [|split; [by rewrite Z.add_0_r in Hg4|split; [unfold size; rewrite Hs4; unfold sizeof_RawMessage; lia|]]]; cycle 1.
  { intros x Hx. rewrite Ho4, Hout by (unfold body, sizeof_RawMessage; lia). done. }
  unfold is_message, type, Msg.node_id, Msg.t_id, Msg.receive_gaddr. rewrite !HF4, (HF3 4 8%nat) by lia.
  unfold mem3, mem2, set_t_id, set_node_id. split_and!.
  - by rewrite !get_set_other, HF1 by lia.
  - by rewrite get_set_other, get_set_field by lia.
  - by rewrite get_set_field.
  - done.
  - rewrite Hg4. cbn [fst]. by rewrite Hr4.
Qed.

(** [rpc_call] sends the bytes of its slot; wherever these bytes arrive, they are
    the message, with the node and the thread of the sender and the extra data. *)
Lemma rpc_call_wire d self tid c conn buffer node t mem m src k :
  can_send d self tid c conn buffer node t ->
  msg_size mem m = 0 -> 0 <= k -> 4 + k < 2 ^ 16 -> src + k <= buffer \/ buffer + 18 + k <= src ->
  exists d' mem' w, rpc_call ibv_post_send d self mem m node t {| s := Some src; len := k |} = Ret (d', mem', [w]) /\
    Rdma.opcode w = Rdma.SEND /\
    Rdma.sg_list w = [{| Rdma.sg_addr := buffer; Rdma.sg_length := 18 + k; Rdma.sg_lkey := messageLkey c |}] /\
    (forall x, ~ (buffer <= x < buffer + 18 + k) -> mem' !! x = mem !! x) /\
    forall mem2 m2, read_bytes mem2 m2 (18 + k) = read_bytes mem' buffer (18 + k) ->
      is_message mem2 m2 (type mem m) (myNodeID d mod 256) (tid mod 256) (Msg.receive_gaddr mem m) (read_bytes mem src k).
Proof.
  intros [Hcon Hslot (r & qpn & ah & Hr & Hq & Ha) Hpost] Hms Hk Hfit Hsrc.
  destruct (rpc_memory_message (myNodeID d) tid mem m buffer src k Hms Hk Hfit Hsrc) as (HM & Hg & Hs & Hframe).
  assert (Hsize : size mem m = 14) by (unfold size; by rewrite Hms).
  unfold rpc_call. rewrite Hcon. cbn [mbind outcome_bind]. rewrite Hslot. cbn [mbind outcome_bind].
  rewrite Hsize. change (MESSAGE_SIZE <=? 14 + 40) with false. cbn [s]. cbn iota.
  unfold add_string_slice. cbn [s len]. rewrite u32_small by lia. cbn [mbind outcome_bind].
  fold (rpc_memory (myNodeID d) tid mem m buffer src k). set (mem4 := rpc_memory _ _ _ _ _ _ _) in *.
  unfold sendMessage. cbn [remoteInfo]. rewrite Hr. cbn [deref mbind outcome_bind]. rewrite Hq. cbn [deref mbind outcome_bind].
  rewrite Ha. cbn [deref mbind outcome_bind]. unfold MsgConn.sendRawMessage, Rdma.rdmaSend_ud, Rdma.post. rewrite Hpost.
  cbn [mbind outcome_bind]. eexists _, mem4, _. split; [done|]. split; [done|]. split; [|split; [exact Hframe|]].
  - cbn [Rdma.sg_list Rdma.fillSgeWr]. unfold MsgConn.sendPadding. by rewrite Hs, Z.sub_0_r, Z.add_0_r, u32_small by lia.
  - intros mem5 m5 H5. eapply (is_message_bytes mem4 mem5 buffer m5); [exact HM| |].
    + by rewrite Hg, read_bytes_length, Z2Nat.id by lia.
    + by rewrite read_bytes_length, Z2Nat.id by lia.
Qed.

(** The size check of [rpc_call] does not see the extra data: with more than 4078
    bytes of it, the rest is written to the slot behind. *)
Theorem rpc_call_overruns_slot d self tid c conn buffer node t mem m src k :
  can_send d self tid c conn buffer node t ->
  msg_size mem m = 0 -> 4078 < k -> 4 + k < 2 ^ 16 -> src + k <= buffer \/ buffer + 18 + k <= src ->
  exists d' mem' ws, rpc_call ibv_post_send d self mem m node t {| s := Some src; len := k |} = Ret (d', mem', ws) /\
    read_bytes mem' (buffer + 4096) (k - 4078) = drop (Z.to_nat 4078) (read_bytes mem src k).
Proof.
  intros HS Hms Hk Hfit Hsrc.
  destruct (rpc_call_wire d self tid c conn buffer node t mem m src k HS Hms ltac:(lia) Hfit Hsrc) as (d' & mem' & w & HR & _ & _ & _ & HM).
  exists d', mem', [w]. split; [done|]. destruct (HM mem' buffer eq_refl) as (_ & _ & _ & _ & Hx).
  unfold get_string in Hx. cbn [fst slice_bytes s len] in Hx. set (k' := le_value _) in Hx. unfold body, sizeof_RawMessage in Hx.
  assert (Hk' : k' = k).
  { apply (f_equal (fun l => Z.of_nat (length l))) in Hx. rewrite !read_bytes_length in Hx. lia. }
  rewrite Hk' in Hx.
  replace (Z.to_nat 4078) with (Z.to_nat (k - (k - 4078))) by lia.
  rewrite <- (read_tail mem' (buffer + 14 + 0 + 4) k (k - 4078) _ ltac:(lia) Hx). f_equal. lia.
Qed.
End Wire.

(** ** The answer *)

(** The values are in the buffer one after the other; the sources are their places. *)
Lemma fill_buffer_spec mem buf acc values :
  let '(mem', sources, total) := fill_buffer mem buf acc values in
  mem' = write_bytes mem (buf + acc) (concat values) /\ total = acc + Z.of_nat (length (concat values)) /\
  length sources = length values /\
  (forall x, head sources = Some x -> Rdma.addr x = buf + acc /\
     exists v, head values = Some v /\ Rdma.size x = Z.of_nat (length v) mod 2 ^ 16).
Proof.
  revert mem acc. induction values as [|v values IH]; intros mem acc; cbn [fill_buffer].
  { cbn. split_and!; [done|lia|done|done]. }
  specialize (IH (write_bytes mem (buf + acc) v) (acc + Z.of_nat (length v))).
  destruct (fill_buffer _ _ _ _) as [[mem' sources] total]. destruct IH as (Hm & Ht & Hl & _). split_and!.
  - cbn [concat]. rewrite write_bytes_app, Hm. f_equal. lia.
  - cbn [concat]. rewrite length_app. lia.
  - cbn. by rewrite Hl.
  - intros x Hx. cbn in Hx. simplify_eq. cbn. split; [done|]. by exists v.
Qed.

Lemma fill_buffer_sizes mem buf acc values :
  Rdma.size <$> (fill_buffer mem buf acc values).1.2 = (fun v => Z.of_nat (length v) mod 2 ^ 16) <$> values.
Proof.
  revert mem acc. induction values as [|v values IH]; intros mem acc; cbn [fill_buffer]; [done|].
  specialize (IH (write_bytes mem (buf + acc) v) (acc + Z.of_nat (length v))).
  destruct (fill_buffer _ _ _ _) as [[mem' sources] total]. cbn [fst snd fmap list_fmap Rdma.size] in *. by rewrite IH.
Qed.

Section Answer.
Context (ibv_post_send : list Rdma.ibv_send_wr -> bool) (Hpost : forall ws, ibv_post_send ws = true).
Context (remote_region : Z -> option (Z * Z)) (rnic : list Rdma.ibv_send_wr -> gmap Z Z -> gmap Z Z -> gmap Z Z).

(** A service thread of the server [d]: its connection, its buffer in the cache,
    which is registered with the key of the cache, and the memory of the server,
    which is registered with the other key. *)
Record service (d : dsm) (self tid : Z) (c : ThreadConnection) : Prop := {
  sv_tls : tls d !! self = Some (tid, cache_data d + tid * MB);
  sv_con : thCon d !! Z.to_nat tid = Some c;
  sv_tid : 0 <= tid;
  sv_cache : tid * MB + MB <= cache_size d;
  sv_cache_key : regions d !! cacheLKey c = Some (cache_data d, cache_size d);
  sv_global_key : regions d !! globalMemLkey c = Some (baseAddr d, dsmSize d)
}.

Lemma service_iCon d self tid c : service d self tid c -> iCon d self = Ret (tid, c).
Proof. intros [Ht Hc _ _ _ _]. unfold iCon. rewrite Ht. cbn. by rewrite Hc. Qed.

Lemma service_buffer d self tid c : service d self tid c -> get_rdma_buffer d self = Some (cache_data d + tid * MB).
Proof. intros [Ht _ _ _ _ _]. unfold get_rdma_buffer. by rewrite Ht. Qed.

(** One buffer: it is copied to the client. *)
Lemma perform_write d self tid c mem g new a0 bytes wr_id a key remote :
  RnicLaws (fun k => regions d !! k) remote_region rnic -> service d self tid c ->
  remote_address d g = Ret (a, key) -> Z.of_nat (length bytes) <= MB ->
  inside (remote_region key) a (Z.of_nat (length bytes)) ->
  exists mem' ws, perform ibv_post_send d self mem g new (rdma_write a0 bytes wr_id) = Ret (d, mem', ws) /\
    rnic ws mem' remote = write_bytes remote a bytes.
Proof.
  intros HL HS Hg Hlen Hin. unfold perform. rewrite (service_buffer _ _ _ _ HS). cbn [deref mbind outcome_bind].
  unfold Dsm.write. rewrite (service_iCon _ _ _ _ HS). cbn [mbind outcome_bind]. rewrite Hg. cbn [mbind outcome_bind].
  unfold Rdma.rdmaWrite, Rdma.post_or_die. rewrite Hpost. cbn [mbind outcome_bind].
  assert (Hu : u32 (Z.of_nat (length bytes)) = Z.of_nat (length bytes)) by (apply u32_small; unfold MB in Hlen; lia).
  eexists _, _. split; [done|]. set (mem' := write_bytes mem _ bytes).
  assert (Hgat : gather mem' (Rdma.sg_list (Rdma.fillSgeWr Rdma.RDMA_WRITE (cache_data d + tid * MB)
                    (Z.of_nat (length bytes)) (cacheLKey c))) = bytes).
  { unfold gather. cbn [Rdma.fillSgeWr Rdma.sg_list fmap list_fmap concat Rdma.sg_addr Rdma.sg_length]. rewrite Hu, app_nil_r.
    apply read_write_same. }
  rewrite (@rnic_write _ _ _ HL); cbn [Rdma.opcode Rdma.sg_list Rdma.remote_addr Rdma.rkey].
  - rewrite Hgat. by apply (@rnic_nil _ _ _ HL).
  - done.
  - constructor; [|constructor]. unfold sge_valid. cbn [Rdma.sg_lkey Rdma.sg_addr Rdma.sg_length]. rewrite Hu.
    destruct HS as [_ _ Ht Hc Hk _]. rewrite Hk. cbn. unfold MB in *. lia.
  - by rewrite Hgat.
Qed.

(** A list of buffers: they are in the cache, and the key is that of the memory of
    the server.  If the two do not overlap, the adapter refuses the first work
    request and the client gets nothing. *)
Lemma perform_vec_lost d self tid c mem g new a0 values wr_id a key remote vs :
  RnicLaws (fun k => regions d !! k) remote_region rnic -> service d self tid c ->
  remote_address d g = Ret (a, key) -> values <> [] -> Forall (fun v => Z.of_nat (length v) = vs) values -> 0 < vs < 2 ^ 16 ->
  Z.of_nat (length values) * vs < 2 ^ 31 -> sep (cache_data d, cache_size d) (baseAddr d, dsmSize d) ->
  exists mem' ws, perform ibv_post_send d self mem g new (Ps.write_from_pm_vec a0 values wr_id) = Ret (d, mem', ws) /\
    rnic ws mem' remote = remote.
Proof.
  intros HL HS Hg Hne HF Hvs Hsum Hsep. unfold perform. rewrite (service_buffer _ _ _ _ HS). cbn [deref mbind outcome_bind].
  set (buf := cache_data d + tid * MB). pose proof (fill_buffer_spec mem buf 0 values) as HB.
  pose proof (fill_buffer_sizes mem buf 0 values) as HZ.
  destruct (fill_buffer mem buf 0 values) as [[mem' sources] total]. cbn [fst snd] in HZ. destruct HB as (_ & _ & Hl & Hh).
  assert (HZs : Forall (fun x => Rdma.size x = vs) sources).
  { apply (Forall_fmap Rdma.size (fun n => n = vs)). rewrite HZ. apply Forall_fmap. eapply Forall_impl; [exact HF|].
    intros v Hv. cbn. rewrite Hv. apply Z.mod_small. lia. }
  assert (Hs : sources <> []) by (destruct sources; [destruct values; done|done]).
  assert (Hsum' : sumZ Rdma.size sources = Z.of_nat (length values) * vs).
  { rewrite <- Hl. apply sumZ_const. intros x Hx. by eapply Forall_forall in HZs. }
  unfold Dsm.write_from_pm_vec. rewrite (service_iCon _ _ _ _ HS). cbn [mbind outcome_bind]. rewrite Hg. cbn [mbind outcome_bind].
  rewrite (rdmaWriteVector_requests 30 ltac:(lia) sources Hs a (globalMemLkey c) key wr_id); cycle 1.
  { eapply Forall_impl; [exact HZs|]. intros x Hx. cbn in *. lia. }
  { lia. }
  { apply Hpost. }
  cbn [mbind outcome_bind]. eexists mem', _. split; [done|]. unfold requests.
  destruct sources as [|x sources]; [done|]. destruct (Hh x eq_refl) as [Hax _]. apply Forall_cons in HZs as [Hx _].
  assert (Hk : ((length (x :: sources) + 30 - 1) / 30 = S ((length sources) / 30))%nat).
  { cbn [length]. replace (S (length sources) + 30 - 1)%nat with (length sources + 1 * 30)%nat by lia.
    rewrite Nat.div_add by lia. lia. }
  rewrite Hk. cbn [seq fmap list_fmap]. apply (@rnic_protection _ _ _ HL). unfold request. cbn [Rdma.sg_list Nat.mul drop take].
  cbn [fmap list_fmap]. left. unfold sge_valid. cbn [sge_of Rdma.sg_lkey Rdma.sg_addr Rdma.sg_length].
  rewrite Hax, Hx. destruct HS as [_ _ Ht Hc _ Hkg]. rewrite Hkg. cbn. unfold sep in Hsep. cbn in Hsep. unfold buf, MB in *. lia.
Qed.
End Answer.

(** ** A GET over the library *)

Section EndToEnd.
Context {K : Type} `{!BaseKV K, !BaseKVLaws K}.
Context (GetHash : Z -> Z) (max_kv vs : Z).
Context (ibv_post_send : list Rdma.ibv_send_wr -> bool) (Hpost : forall ws, ibv_post_send ws = true).
Context (remote_region : Z -> option (Z * Z)) (rnic : list Rdma.ibv_send_wr -> gmap Z Z -> gmap Z Z -> gmap Z Z).

(** The client before the request: its thread can send to thread [t] of [node], the
    new message is at [m], the keys at [src], the buffer for the answer at [values]
    in the memory that it has opened; nothing overlaps. *)
Record client_ready (mem : gmap Z Z) (d : dsm) (self tid : Z) (c : ThreadConnection) (conn : MsgConn.conn)
    (buffer node t m src : Z) (keys : list Z) (values : Z) : Prop := {
  cr_send : can_send ibv_post_send d self tid c conn buffer node t;
  cr_size : msg_size mem m = 0;
  cr_keys : read_bytes mem src (8 * Z.of_nat (length keys)) = encode 8 keys;
  cr_fits : 58 + 8 * Z.of_nat (length keys) <= 4096;
  cr_src_slot : sep (src, 8 * Z.of_nat (length keys)) (buffer, 4096);
  cr_src_m : sep (src, 8 * Z.of_nat (length keys)) (m, 14);
  cr_src_values : sep (src, 8 * Z.of_nat (length keys)) (values, Z.of_nat (length keys) * vs);
  cr_m_values : sep (m, 14) (values, Z.of_nat (length keys) * vs);
  cr_slot_values : sep (buffer, 4096) (values, Z.of_nat (length keys) * vs);
  cr_node : 0 <= myNodeID d < 2 ^ 16;
  cr_base : 0 <= baseAddr d <= values;
  cr_inside : values + Z.of_nat (length keys) * vs <= baseAddr d + dsmSize d;
  cr_max : baseAddr d + dsmSize d <= 2 ^ 64 /\ dsmSize d <= 2 ^ 48
}.

(** The server: its service thread [tid], with an empty ring of messages; it knows
    the client, whose memory the adapter may write with the key [key]. *)
Record server_ready (d dc : dsm) (self tid : Z) (c : ThreadConnection) (r : MsgConn.ring) (key : Z) : Prop := {
  sr_service : service d self tid c;
  sr_ring : exists pool sub taken, 0 < sub /\ ring_inv pool sub taken r [];
  sr_client : exists x, remoteInfo d !! Z.to_nat (myNodeID dc) = Some x /\ dsmBase x = baseAddr dc /\ dsmRKey x = key;
  sr_region : remote_region key = Some (baseAddr dc, dsmSize dc)
}.

(** The header of the request, stored in the message before it is sent. *)
Definition request_memory (mem : gmap Z Z) (m : Z) (g : GlobalAddress.gaddr) : gmap Z Z :=
  set_receive_gaddr (set_type mem m GET) m g.

(** The request of the client: it is registered to be polled, and what it puts on
    the wire is the message, wherever it arrives. *)
Lemma request_sent p c keys values t d self tid con conn buffer node m src off :
  let g := GlobalAddress.make (myNodeID d) off in let n := Z.of_nat (length keys) in
  let p' := Client.with_memory p (request_memory (Client.memory_ p) m g) in
  client_ready (Client.memory_ p) d self tid con conn buffer node t m src keys values ->
  4 <= vs -> keys <> [] -> n * vs < 2 ^ 31 ->
  Client.serverThreadIdsRoutedTo_ c !! Z.to_nat (Client.round_robin p) = Some t ->
  exists p1 c1 m' d' mem w,
    Client.GetParameter vs p' c keys values true [] = Ret (p1, c1, m', t, i32 (Client.rpcIDAcc_ c)) /\
    Client.rpcId2PollMap_ c1 !! Client.rpcIDAcc_ c = Some (values + n * vs - 4) /\
    rpc_call ibv_post_send d self (Client.memory_ p1) m node t {| s := Some src; len := 8 * n |} = Ret (d', mem, [w]) /\
    Z.of_nat (length (gather mem (Rdma.sg_list w))) = 18 + 8 * n /\ Client.poll_word mem (values + n * vs - 4) = FINISH_MAGIC /\
    forall mem2 m2, read_bytes mem2 m2 (18 + 8 * n) = gather mem (Rdma.sg_list w) ->
      is_message mem2 m2 (Some GET) (myNodeID d mod 256) (tid mod 256) g (encode 8 keys).
Proof.
  intros g n p' [HS Hms Hk Hfit Hs1 Hs2 Hs3 Hs4 Hs5 _ _ _ _] Hvs Hne Hlen Ht. fold n in Hk, Hfit, Hs1, Hs2, Hs3, Hs4, Hs5.
  assert (Hn : 0 < n) by (unfold n; destruct keys; [done|cbn; lia]).
  destruct (GetParameter_sends vs p' c keys values t Ht) as (p1 & c1 & m' & HG & _ & _ & _ & Hm1 & Hpoll & _).
  fold n in Hm1, Hpoll. rewrite i32_small in Hm1, Hpoll by nia. set (poll := values + n * vs - 4) in *.
  unfold p' in Hm1. cbn [Client.memory_ Client.with_memory] in Hm1. unfold sep in *. cbn [fst snd] in *.
  assert (Hpl : length (le_bytes 4 FINISH_MAGIC) = 4%nat) by apply le_bytes_length.
  assert (HF : forall o w, 0 <= o -> o + Z.of_nat w <= 14 ->
      get_field (Client.memory_ p1) m o w = get_field (request_memory (Client.memory_ p) m g) m o w).
  { intros o w Ho Hw. rewrite Hm1. apply get_field_ext. intros y Hy. apply write_bytes_out. rewrite Hpl. unfold poll. nia. }
  assert (Hms1 : msg_size (Client.memory_ p1) m = 0).
  { unfold msg_size. rewrite HF by lia. unfold request_memory, set_receive_gaddr, set_type. by rewrite !get_set_other by lia. }
  assert (Hk1 : read_bytes (Client.memory_ p1) src (8 * n) = encode 8 keys).
  { rewrite <- Hk, Hm1. apply read_bytes_ext. intros y Hy. rewrite write_bytes_out by (rewrite Hpl; unfold poll; nia).
    unfold request_memory, set_receive_gaddr, set_type. by rewrite !set_field_out by lia. }
  destruct (rpc_call_wire ibv_post_send d self tid con conn buffer node t (Client.memory_ p1) m src (8 * n) HS Hms1)
    as (d' & mem & w & HR & _ & Hsg & Hframe & HM); [lia|lia|lia|].
  assert (Hgat : gather mem (Rdma.sg_list w) = read_bytes mem buffer (18 + 8 * n)).
  { rewrite Hsg. unfold gather. cbn. by rewrite app_nil_r. }
  exists p1, c1, m', d', mem, w. split; [done|]. split; [done|]. split; [done|]. rewrite Hgat.
  split; [rewrite read_bytes_length; lia|]. split.
  { rewrite <- (poll_word_magic (request_memory (Client.memory_ p) m g) poll). rewrite <- Hm1. unfold Client.poll_word.
    f_equal. apply read_bytes_ext. intros y Hy. apply Hframe. unfold poll in Hy. nia. }
  intros mem2 m2 H2. specialize (HM mem2 m2 H2). rewrite Hk1 in HM.
  replace (type (Client.memory_ p1) m) with (Some GET) in HM.
  - replace (Msg.receive_gaddr (Client.memory_ p1) m) with g in HM; [done|].
    unfold Msg.receive_gaddr. rewrite HF by lia. symmetry. apply receive_gaddr_set.
  - unfold type. rewrite HF by lia. unfold request_memory, set_receive_gaddr. rewrite get_set_other by lia. symmetry. apply type_set.
Qed.

(** An empty ring: what arrives is taken, and stays where it is. *)
Lemma ring_receives pool sub taken r grh payload :
  0 < sub -> ring_inv pool sub taken r [] -> length grh = 40%nat -> Z.of_nat (length payload) <= 4056 ->
  exists r' m2, MsgConn.take_message (MsgConn.arrive r grh payload) = Ret (r', Some (m2, payload)) /\
    read_bytes (MsgConn.memory_ r') m2 (Z.of_nat (length payload)) = payload.
Proof.
  intros Hs HI Hg Hl. pose proof (ri_t _ _ _ _ _ HI) as Ht. pose proof (posted_total_bounds sub Hs taken Ht) as Hb.
  assert (HI1 : ring_inv pool sub taken (MsgConn.arrive r grh payload) ([] ++ [payload])).
  { apply arrive_inv; [done|done|done|done|]. cbn. lia. }
  destruct (take_inv pool sub Hs taken _ payload [] HI1) as (r' & HT & Hm & _). exists r', (slot pool sub taken + 40).
  split; [done|]. rewrite Hm. pose proof (ri_msg _ _ _ _ _ HI1 0%nat payload eq_refl) as H. by rewrite Z.add_0_r in H.
Qed.

Lemma parse_message d mem m ty node t g extra a key :
  is_message mem m (Some ty) node t g extra -> remote_address d g = Ret (a, key) ->
  parse d mem m = Ret ({| m_type := ty; Ps.node_id := node; Ps.t_id := t; Ps.receive_gaddr := a; extra_data := extra |}, g).
Proof.
  intros (Hty & Hn & Ht & Hg & Hx) Hr. unfold parse. rewrite Hty. cbn [deref mbind outcome_bind]. rewrite Hg, Hr.
  cbn [mbind outcome_bind]. by rewrite Hn, Ht, Hx.
Qed.

(** The request from the client to a thread of the server: sent, received, parsed. *)
Lemma request_received p c keys values t dc selfc tidc cc conn buffer node m src ds self tids cs r key grh :
  client_ready (Client.memory_ p) dc selfc tidc cc conn buffer node t m src keys values ->
  server_ready ds dc self tids cs r key -> length grh = 40%nat ->
  Client.serverThreadIdsRoutedTo_ c !! Z.to_nat (Client.round_robin p) = Some t ->
  4 <= vs -> keys <> [] -> Z.of_nat (length keys) * vs < 2 ^ 31 ->
  exists g p1 c1 m' dc' memC w r' m2 recv,
    gaddr dc values = Ret g /\ remote_address ds g = Ret (values, key) /\
    Client.GetParameter vs (Client.with_memory p (request_memory (Client.memory_ p) m g)) c keys values true [] =
      Ret (p1, c1, m', t, i32 (Client.rpcIDAcc_ c)) /\
    Client.rpcId2PollMap_ c1 !! Client.rpcIDAcc_ c = Some (values + Z.of_nat (length keys) * vs - 4) /\
    rpc_call ibv_post_send dc selfc (Client.memory_ p1) m node t {| s := Some src; len := 8 * Z.of_nat (length keys) |} =
      Ret (dc', memC, [w]) /\
    Client.poll_word memC (values + Z.of_nat (length keys) * vs - 4) = FINISH_MAGIC /\
    MsgConn.take_message (MsgConn.arrive r grh (gather memC (Rdma.sg_list w))) =
      Ret (r', Some (m2, gather memC (Rdma.sg_list w))) /\
    parse ds (MsgConn.memory_ r') m2 = Ret (recv, g) /\ extra_data recv = encode 8 keys.
Proof.
  intros HC [Hsv (pool & sub & tk & Hsub & HI) (x & Hx & Hxb & Hxk) Hreg] Hgrh Ht Hvs Hne Hlt.
  pose proof HC as [_ _ _ Hfit _ _ _ _ _ Hnode Hbase Hins [Hmx Hsz]].
  assert (Hn : 0 < Z.of_nat (length keys)) by (destruct keys; [done|cbn; lia]).
  destruct (gaddr_remote dc ds values x Hnode) as (g & Hg & Hrem & _ & Eg); [lia|nia|nia|lia|done|done|].
  rewrite Hxk in Hrem.
  destruct (request_sent p c keys values t dc selfc tidc cc conn buffer node m src (values - baseAddr dc) HC Hvs Hne Hlt Ht) as
    (p1 & c1 & m' & dc' & memC & w & HG & Hpoll & HR & Hlen & Hword & HM). rewrite <- Eg in HG, HM.
  destruct (ring_receives pool sub tk r grh (gather memC (Rdma.sg_list w)) Hsub HI Hgrh) as (r' & m2 & HT & Hrd); [lia|].
  rewrite Hlen in Hrd. specialize (HM _ _ Hrd). pose proof (parse_message ds _ _ _ _ _ _ _ _ _ HM Hrem) as HP.
  by eexists g, p1, c1, m', dc', memC, w, r', m2, _.
Qed.

(** [C4] A GET end to end over the library, without a gather list: the request goes
    through the sending ring of the client and the receiving ring of a thread of
    the server, the server parses it and looks the keys up, copies the values to
    the buffer of the thread and writes them to the memory of the client.  Then
    the value of the i-th key is at offset i * value_size of the client's buffer,
    and the request is finished unless the last word is FINISH_MAGIC. *)
Theorem GetParameter_over_dsm p c keys values t s C dc selfc tidc cc conn buffer node m src ds self tid tids cs r key grh new :
  RnicLaws (fun k => regions ds !! k) remote_region rnic ->
  client_ready (Client.memory_ p) dc selfc tidc cc conn buffer node t m src keys values ->
  server_ready ds dc self tids cs r key -> length grh = 40%nat ->
  kv_holds (Server.base_kv_ s) C -> serving GetHash s self tid -> answered vs C keys ->
  Client.serverThreadIdsRoutedTo_ c !! Z.to_nat (Client.round_robin p) = Some t ->
  0 <= Client.rpcIDAcc_ c < 2 ^ 31 -> 4 <= vs -> keys <> [] -> Z.of_nat (length keys) <= max_kv ->
  Z.of_nat (length keys) * vs <= MB -> Forall (fun k => 0 <= k < 2 ^ 64) keys ->
  exists g p1 c1 m' id dc' memC w r' m2 recv s' op ds' memS ws,
    gaddr dc values = Ret g /\
    Client.GetParameter vs (Client.with_memory p (request_memory (Client.memory_ p) m g)) c keys values true [] = Ret (p1, c1, m', t, id) /\
    rpc_call ibv_post_send dc selfc (Client.memory_ p1) m node t {| s := Some src; len := 8 * Z.of_nat (length keys) |} =
      Ret (dc', memC, [w]) /\
    MsgConn.take_message (MsgConn.arrive r grh (gather memC (Rdma.sg_list w))) =
      Ret (r', Some (m2, gather memC (Rdma.sg_list w))) /\
    parse ds (MsgConn.memory_ r') m2 = Ret (recv, g) /\
    Server.RpcPsGet GetHash max_kv false s self tid recv = Ret (s', op) /\
    perform ibv_post_send ds self (MsgConn.memory_ r') g new op = Ret (ds', memS, ws) /\
    let p2 := Client.with_memory p1 (rnic ws memS memC) in
    (forall i k v, keys !! i = Some k -> C !! k = Some v ->
       read_bytes (Client.memory_ p2) (values + Z.of_nat i * vs) vs = v) /\
    Client.QueryRPCFinished p2 c1 id =
      Ret (negb (le_value (drop (Z.to_nat (Z.of_nat (length keys) * vs - 4)) (concat (values_of C keys))) =? FINISH_MAGIC)).
Proof.
  intros HL HC HSr Hgrh Hkv Hserv HA Ht Hid Hvs Hne Hmax HMB Hk.
  destruct (request_received p c keys values t dc selfc tidc cc conn buffer node m src ds self tids cs r key grh HC HSr Hgrh Ht Hvs Hne)
    as (g & p1 & c1 & m' & dc' & memC & w & r' & m2 & recv & Hg & Hrem & HG & Hpoll & HR & _ & HT & HP & He);
    [unfold MB in HMB; lia|].
  set (n := Z.of_nat (length keys)) in *. assert (Hn : 4 <= n * vs) by (unfold n; destruct keys; [done|cbn; nia]).
  destruct HSr as [Hsv _ _ Hreg]. pose proof (cr_inside _ _ _ _ _ _ _ _ _ _ _ _ _ HC) as Hins. fold n in Hins.
  pose proof (cr_base _ _ _ _ _ _ _ _ _ _ _ _ _ HC) as Hbase.
  destruct (RpcPsGet_run GetHash max_kv false s self tid recv keys C Hkv Hserv He Hk Hmax) as (s' & HS & _).
  pose proof (answered_length vs C keys ltac:(lia) HA) as Hal. fold n in Hal.
  destruct (perform_write ibv_post_send Hpost remote_region rnic ds self tids cs (MsgConn.memory_ r') g new
              (Ps.receive_gaddr recv) (concat (values_of C keys)) WR_ID_GET values key memC HL Hsv Hrem) as (memS & ws & HW & HD).
  { lia. }
  { rewrite Hreg. cbn. lia. }
  eexists g, p1, c1, m', _, dc', memC, w, r', m2, recv, s', _, ds, memS, ws.
  split_and!; [done..|]. cbv zeta. rewrite HD. set (mem2 := write_bytes memC values _).
  assert (Hr : read_bytes mem2 values (n * vs) = concat (values_of C keys)).
  { unfold mem2. rewrite <- Hal. apply read_write_same. }
  split.
  - intros i k v Hi Hv. cbn [Client.memory_ Client.with_memory].
    apply (read_concat mem2 values vs (values_of C keys)); [lia|by apply answered_sizes| |].
    + unfold values_of at 1. rewrite length_fmap, Z.mul_comm. exact Hr.
    + unfold values_of. rewrite list_lookup_fmap, Hi. cbn. by rewrite Hv.
  - rewrite (query_at _ c1 _ _ Hid Hpoll). cbn [Client.memory_ Client.with_memory]. unfold Client.poll_word.
    by rewrite (read_tail mem2 values (n * vs) 4 _ ltac:(lia) Hr).
Qed.

End EndToEnd.

(** ** Witnesses: one client, one server, one key *)

Definition conn_512 (pool : Z) : MsgConn.conn :=
  {| MsgConn.messageNR := 512; MsgConn.messagePool := pool; MsgConn.curMessage := 0; MsgConn.curSend := 0; MsgConn.subNR := 0;
     MsgConn.posted := []; MsgConn.sendCounter := 0; MsgConn.polled := 0 |}.

Definition thread_512 (pool : Z) : ThreadConnection :=
  {| message := conn_512 pool; messageLkey := 1; cacheLKey := 2; globalMemLkey := 3 |}.

(** The client: node 1, whose memory is [4096, 104096). *)
Definition client_dsm : dsm :=
  {| myNodeID := 1; baseAddr := 4096; dsmSize := 100000; is_client := true; appID := 1; cache_data := 80000000;
     cache_size := 128 * MB; thCon := replicate 8 (thread_512 10000000);
     remoteInfo := [{| dsmBase := 0; dsmRKey := 5; appMessageQPN := [6]; appAh := [7] |}];
     regions := ∅; tls := {[11 := (0, 80000000)]} |}.

(** The server: node 0, with a cache of 16 MB. *)
Definition server_dsm : dsm :=
  {| myNodeID := 0; baseAddr := 1000; dsmSize := 2000; is_client := false; appID := 1; cache_data := 50000000;
     cache_size := 16 * MB; thCon := replicate 8 (thread_512 0);
     remoteInfo := [{| dsmBase := 1000; dsmRKey := 76; appMessageQPN := []; appAh := [] |};
                    {| dsmBase := 4096; dsmRKey := 77; appMessageQPN := [8]; appAh := [9] |}];
     regions := {[2 := (50000000, 16 * MB); 3 := (1000, 2000)]}; tls := {[5 := (0, 50000000)]} |}.

Definition client_region (key : Z) : option (Z * Z) := if key =? 77 then Some (4096, 100000) else None.

(** The keys of the request are at 6000000, its message at 5000000. *)
Definition asking : Client.process := Client.with_memory one_process (write_bytes ∅ 6000000 (encode 8 [7])).

Definition server_ring : MsgConn.ring :=
  {| MsgConn.conn_ := MsgConn.initRecv (conn_512 0); MsgConn.memory_ := ∅; MsgConn.cq := [] |}.

Definition conn_sent : MsgConn.conn :=
  match MsgConn.getSendPool (conn_512 10000000) with Ret (c, _) => c | Err _ => conn_512 0 end.

Lemma asking_ready :
  client_ready 64 (fun _ => true) (Client.memory_ asking) client_dsm 11 0 (thread_512 10000000)
    conn_sent (10000000 + 512 * 4096) 0 0 5000000 6000000 [7] 4096.
Proof.
  constructor; try (vm_compute; intuition congruence).
  constructor; [done|done|by eexists _, _, _|done].
Qed.

Lemma server_ring_ready : server_ready client_region server_dsm client_dsm 5 0 (thread_512 0) server_ring 77.
Proof.
  constructor.
  - constructor; done || (vm_compute; intuition congruence).
  - exists 0, 128, 0. split; [lia|]. apply (initRecv_inv 0 128 ltac:(lia) ltac:(lia) 0 (conn_512 0) ∅ eq_refl eq_refl).
  - by eexists.
  - done.
Qed.

Lemma GetParameter_over_dsm_witness :
  exists p c id, Client.QueryRPCFinished p c id = Ret true /\ read_bytes (Client.memory_ p) 4096 64 = replicate 64 1.
Proof.
  destruct (@GetParameter_over_dsm _ map_base map_base_laws (fun x => x) 300 64 (fun _ => true) (fun _ => eq_refl) client_region
              (rnic_ref (fun k => regions server_dsm !! k) client_region) asking one_client [7] 4096 0 one_server
              {[7 := replicate 64 1]} client_dsm 11 0 (thread_512 10000000) conn_sent
              (10000000 + 512 * 4096) 0 5000000 6000000 server_dsm 5 0 0 (thread_512 0) server_ring 77 (replicate 40 0) (0, 0))
    as (g & p1 & c1 & m' & id & dc' & memC & w & r' & m2 & recv & s' & op & ds' & memS & ws & _ & _ & _ & _ & _ & _ & _ & HV & HQ).
  - apply rnic_ref_laws.
  - exact asking_ready.
  - exact server_ring_ready.
  - done.
  - exact one_put_holds.
  - exact one_server_serving.
  - repeat constructor. eexists. split; [done|done].
  - done.
  - cbn. lia.
  - lia.
  - done.
  - cbn. lia.
  - by apply Z.leb_le.
  - repeat constructor; lia.
  - eexists _, c1, id. split; [exact HQ|]. exact (HV 0%nat 7 (replicate 64 1) eq_refl eq_refl).
Defined.

