(* ===== verification/FastWait.v ===== *)
(** * The completions that a thread waits for (third_party/Mayfly-main/include/DSM.h, rpc_fast_wait)

    A thread has one completion queue, for the messages that arrive and for its own
    writes.  [rpc_fast_wait] polls up to 16 completions at once, keeps them, and
    gives them out one per call: for a message its address, for a write its
    [wr_id].  The service threads of the server call it until they have a message
    (petps_server.cc, PollingThread).

    The theorem: for every order of arrivals, completed writes and calls, the calls
    give the completions in the order in which they happened, each message with
    the bytes that were sent. *)

From stdpp Require Import base numbers list gmap.
From Stdlib Require Import ZArith Lia.
From S2P Require Import Prelude PetKV PetKVSpec Ps RawMsg Rdma MsgConn.

Module FastWait.

(** [ibv_wc]: a received message, or a write with its status and [wr_id]. *)
Inductive completion := Recv (byte_len : Z) | Done (ok : bool) (wr_id : Z).

Definition kPollBatchSize : nat := 16.

(** The connection and the memory of the thread, the completion queue, and the
    thread-local [wc], with [wc_size] its length, and [wc_cur]. *)
Record waiter := Build_waiter {
  conn_w : MsgConn.conn;
  memory_w : gmap Z Z;
  cq_w : list completion;
  wc : list completion;
  wc_cur : nat
}.

(** The branch with a completion in [wc]: [inl] is the address of a message, [inr]
    the [wr_id] of a write; the status is not looked at. *)
Definition take_wc (w : waiter) : outcome (waiter * (Z + Z)) :=
  match wc w !! wc_cur w with
  | Some (Recv _) =>
      '(c, m) ← MsgConn.getMessage (conn_w w);
      Ret ({| conn_w := c; memory_w := memory_w w; cq_w := cq_w w; wc := wc w; wc_cur := S (wc_cur w) |}, inl m)
  | Some (Done _ wr_id) =>
      Ret ({| conn_w := conn_w w; memory_w := memory_w w; cq_w := cq_w w; wc := wc w; wc_cur := S (wc_cur w) |}, inr wr_id)
  | None => Err Undefined
  end.

(** Without completions the thread polls for ever. *)
Definition rpc_fast_wait (w : waiter) : outcome (waiter * (Z + Z)) :=
  if (length (wc w) <=? wc_cur w)%nat then
    match cq_w w with
    | [] => Err Diverges
    | _ => take_wc {| conn_w := conn_w w; memory_w := memory_w w; cq_w := drop kPollBatchSize (cq_w w);
                      wc := take kPollBatchSize (cq_w w); wc_cur := 0 |}
    end
  else take_wc w.

(** The loop of PollingThread: the address of the next message, and the [wr_id]s
    seen before it; [fuel] bounds the number of calls. *)
Fixpoint next_message (fuel : nat) (w : waiter) : outcome (waiter * list Z * Z) :=
  match fuel with
  | O => Err Diverges
  | S fuel' =>
      '(w, x) ← rpc_fast_wait w;
      match x with
      | inl m => Ret (w, [], m)
      | inr wr_id => '(w, ids, m) ← next_message fuel' w; Ret (w, wr_id :: ids, m)
      end
  end.

(** ** The queue with the adapter *)

Inductive event := Arrive (grh payload : list Z) | Complete (ok : bool) (wr_id : Z) | Wait.

(** The completions that the thread has not yet seen. *)
Definition pending (w : waiter) : list completion := drop (wc_cur w) (wc w) ++ cq_w w.

Definition push (w : waiter) (x : completion) : waiter :=
  {| conn_w := conn_w w; memory_w := memory_w w; cq_w := cq_w w ++ [x]; wc := wc w; wc_cur := wc_cur w |}.

(** A datagram without a posted buffer is lost. *)
Definition arrive (w : waiter) (grh payload : list Z) : waiter :=
  match MsgConn.posted (conn_w w) with
  | [] => w
  | a :: rest =>
      push {| conn_w := MsgConn.with_posted (conn_w w) rest; memory_w := write_bytes (memory_w w) a (grh ++ payload);
              cq_w := cq_w w; wc := wc w; wc_cur := wc_cur w |} (Recv (Z.of_nat (length payload)))
  end.

(** What is observed of a call: the bytes of the message, or the [wr_id]. *)
Definition observe (w : waiter) (x : completion) (res : Z + Z) : list Z + Z :=
  match res, x with
  | inl m, Recv n => inl (read_bytes (memory_w w) m n)
  | inl m, Done _ _ => inl []
  | inr id, _ => inr id
  end.

Definition step (w : waiter) (e : event) : outcome (waiter * option (list Z + Z)) :=
  match e with
  | Arrive grh payload => Ret (arrive w grh payload, None)
  | Complete ok wr_id => Ret (push w (Done ok wr_id), None)
  | Wait =>
      match pending w with
      | [] => Ret (w, None)
      | x :: _ => '(w', res) ← rpc_fast_wait w; Ret (w', Some (observe w x res))
      end
  end.

Fixpoint run (w : waiter) (es : list event) : outcome (waiter * list (list Z + Z)) :=
  match es with
  | [] => Ret (w, [])
  | e :: es' => '(w, o) ← step w e; '(w, out) ← run w es'; Ret (w, option_list o ++ out)
  end.

Definition start (c : MsgConn.conn) (mem : gmap Z Z) : waiter :=
  {| conn_w := c; memory_w := mem; cq_w := []; wc := []; wc_cur := 0 |}.
End FastWait.

(** ** The abstract queue of messages and completed writes *)

Module CompletionQueue.
Definition item : Type := list Z + bool * Z.

Record state := Build_state { taken : Z; queue : list item }.

Definition message_of (x : item) : option (list Z) := match x with inl p => Some p | inr _ => None end.
Definition seen (x : item) : list Z + Z := match x with inl p => inl p | inr (_, id) => inr id end.

Definition room (sub : Z) (q : state) : Z :=
  4 * sub + sub * (taken q / sub) - taken q - Z.of_nat (length (omap message_of (queue q))).

Definition step (sub : Z) (q : state) (e : FastWait.event) : state * option (list Z + Z) :=
  match e with
  | FastWait.Arrive _ payload =>
      (if 0 <? room sub q then {| taken := taken q; queue := queue q ++ [inl payload] |} else q, None)
  | FastWait.Complete ok wr_id => ({| taken := taken q; queue := queue q ++ [inr (ok, wr_id)] |}, None)
  | FastWait.Wait =>
      match queue q with
      | [] => (q, None)
      | x :: queue' =>
          ({| taken := match x with inl _ => taken q + 1 | inr _ => taken q end; queue := queue' |}, Some (seen x))
      end
  end.

Fixpoint run (sub : Z) (q : state) (es : list FastWait.event) : state * list (list Z + Z) :=
  match es with
  | [] => (q, [])
  | e :: es' => let '(q, o) := step sub q e in let '(q, out) := run sub q es' in (q, option_list o ++ out)
  end.
End CompletionQueue.

Import CompletionQueue FastWait.

Section Refinement.
Context (pool sub : Z) (Hsub : 0 < sub) (HN : 4 * sub < 2 ^ 16).

Definition shape (x : item) : completion :=
  match x with inl p => Recv (Z.of_nat (length p)) | inr (ok, id) => Done ok id end.

(** The message ring inside of a waiter. *)
Definition ring_of (w : waiter) (q : list item) : MsgConn.ring :=
  {| MsgConn.conn_ := conn_w w; MsgConn.memory_ := memory_w w;
     MsgConn.cq := (fun p => Z.of_nat (length p)) <$> omap message_of q |}.

Record waiter_inv (w : waiter) (q : state) : Prop := {
  wi_pending : pending w = shape <$> queue q;
  wi_ring : ring_inv pool sub (taken q) (ring_of w (queue q)) (omap message_of (queue q))
}.

Lemma pending_push w x : pending (push w x) = pending w ++ [x].
Proof. unfold pending, push. cbn. by rewrite app_assoc. Qed.

(** A call gives the oldest of the pending completions. *)
Lemma fast_wait_head w x rest :
  pending w = x :: rest ->
  exists w0, rpc_fast_wait w = take_wc w0 /\ conn_w w0 = conn_w w /\ memory_w w0 = memory_w w /\
    wc w0 !! wc_cur w0 = Some x /\ drop (S (wc_cur w0)) (wc w0) ++ cq_w w0 = rest.
Proof.
  intros Hp. unfold rpc_fast_wait, pending in *. destruct (Nat.leb_spec (length (wc w)) (wc_cur w)) as [H|H].
  - rewrite drop_ge in Hp by done. cbn [app] in Hp. rewrite Hp. eexists. split; [done|]. cbn.
    split_and!; [done|done|done|]. by rewrite drop_0, take_drop.
  - destruct (lookup_lt_is_Some_2 (wc w) (wc_cur w) H) as [y Hy]. rewrite (drop_S _ _ _ Hy) in Hp. cbn [app] in Hp.
    injection Hp as -> <-. by exists w.
Qed.

Lemma omap_snoc (q : list item) x : omap message_of (q ++ [x]) = omap message_of q ++ option_list (message_of x).
Proof. rewrite omap_app. cbn. by destruct (message_of x). Qed.

Lemma step_arrive w q grh payload :
  waiter_inv w q -> length grh = 40%nat -> Z.of_nat (length payload) <= 4056 ->
  waiter_inv (arrive w grh payload) (CompletionQueue.step sub q (Arrive grh payload)).1.
Proof.
  intros [Hp HI] Hg Hl. cbn [CompletionQueue.step fst]. set (k := length (omap message_of (queue q))) in *.
  assert (Hroom : room sub q = posted_total sub (taken q) - (taken q + Z.of_nat k)).
  { unfold room, posted_total. fold k. lia. }
  rewrite Hroom. unfold arrive. pose proof (ri_posted _ _ _ _ _ HI) as Hpo. cbn [ring_of MsgConn.conn_] in Hpo. fold k in Hpo.
  destruct (Z.ltb_spec 0 (posted_total sub (taken q) - (taken q + Z.of_nat k))) as [H|H].
  - pose proof (arrive_inv pool sub Hsub (taken q) _ _ grh payload HI Hg Hl H) as HI'. unfold MsgConn.arrive in HI'.
    cbn [ring_of MsgConn.conn_] in HI'. rewrite seqZ_cons in Hpo by done. cbn [fmap list_fmap] in Hpo.
    rewrite Hpo in HI' |- *. constructor; cbn [taken queue].
    + rewrite pending_push, fmap_app. by f_equal.
    + rewrite omap_snoc. cbn [message_of option_list]. unfold ring_of. rewrite omap_snoc. cbn [message_of option_list].
      rewrite fmap_app. exact HI'.
  - rewrite Hpo, seqZ_nil by lia. by constructor.
Qed.

Lemma step_complete w q ok id :
  waiter_inv w q -> waiter_inv (push w (Done ok id)) (CompletionQueue.step sub q (Complete ok id)).1.
Proof.
  intros [Hp HI]. constructor; cbn [CompletionQueue.step fst taken queue].
  - rewrite pending_push, fmap_app. by f_equal.
  - unfold ring_of. rewrite omap_snoc. cbn [message_of option_list]. by rewrite app_nil_r.
Qed.

Lemma step_wait w q x rest :
  waiter_inv w q -> queue q = x :: rest ->
  exists w' res, rpc_fast_wait w = Ret (w', res) /\ observe w (shape x) res = seen x /\
    waiter_inv w' (CompletionQueue.step sub q Wait).1.
Proof.
  intros [Hp HI] Hq. cbn [CompletionQueue.step]. rewrite Hq in *. cbn [fmap list_fmap] in Hp.
  destruct (fast_wait_head w _ _ Hp) as (w0 & Hw & Hc & Hm & Hx & Hrest). rewrite Hw. unfold take_wc. rewrite Hx.
  destruct x as [p|[ok id]]; cbn [shape].
  - cbn [omap list_omap message_of] in HI. destruct (take_inv pool sub Hsub (taken q) _ p _ HI) as (r' & HT & Hmem & HI').
    pose proof (ri_msg _ _ _ _ _ HI 0%nat p eq_refl) as Hrd. rewrite Z.add_0_r in Hrd. cbn [ring_of MsgConn.memory_] in Hrd.
    unfold MsgConn.take_message in HT. cbn [ring_of MsgConn.cq omap list_omap message_of fmap list_fmap MsgConn.conn_] in HT.
    destruct (MsgConn.getMessage (conn_w w)) as [[c m]|e] eqn:Hg; cbn [mbind outcome_bind] in HT; [|done].
    injection HT as HT Hm' _. rewrite Hc, Hg. cbn [mbind outcome_bind]. eexists _, _. split; [done|].
    rewrite Hm' at 1. cbn [observe seen]. split; [by rewrite Hrd|]. constructor; cbn [taken queue fst].
    + exact Hrest.
    + rewrite <- HT in HI'. cbn [ring_of MsgConn.memory_] in HI'. unfold ring_of. cbn [conn_w memory_w]. by rewrite Hm.
  - eexists _, _. split; [done|]. split; [done|]. constructor; cbn [taken queue fst]; [exact Hrest|].
    cbn [omap list_omap message_of] in HI. unfold ring_of in *. cbn [conn_w memory_w]. rewrite Hc, Hm. exact HI.
Qed.

Definition event_ok (e : event) : Prop :=
  match e with Arrive grh payload => length grh = 40%nat /\ Z.of_nat (length payload) <= 4056 | _ => True end.

Lemma step_refines w q e :
  waiter_inv w q -> event_ok e ->
  exists w', step w e = Ret (w', (CompletionQueue.step sub q e).2) /\ waiter_inv w' (CompletionQueue.step sub q e).1.
Proof.
  intros HI He. destruct e as [grh payload|ok id|].
  - destruct He as [Hg Hl]. eexists. split; [done|]. by apply step_arrive.
  - eexists. split; [done|]. by apply step_complete.
  - pose proof (wi_pending _ _ HI) as Hp. cbn [step]. rewrite Hp. destruct (queue q) as [|x rest] eqn:Hq.
    + cbn [fmap list_fmap CompletionQueue.step]. rewrite Hq. by exists w.
    + destruct (step_wait w q x rest HI Hq) as (w' & res & Hw & Ho & HI'). cbn [fmap list_fmap]. rewrite Hw. cbn [mbind outcome_bind].
      rewrite Ho. exists w'. split; [|done]. cbn [CompletionQueue.step]. by rewrite Hq.
Qed.

Lemma run_refines es w q :
  waiter_inv w q -> Forall event_ok es -> exists w', run w es = Ret (w', (CompletionQueue.run sub q es).2).
Proof.
  intros HI HF. revert w q HI. induction HF as [|e es He _ IH]; intros w q HI; [by eexists|].
  destruct (step_refines w q e HI He) as (w1 & H1 & HI1). cbn [run CompletionQueue.run].
  destruct (CompletionQueue.step sub q e) as [q1 o]. destruct (IH w1 q1 HI1) as [w2 H2].
  destruct (CompletionQueue.run sub q1 es) as [q2 out]. exists w2. rewrite H1. cbn [mbind outcome_bind snd] in *. by rewrite H2.
Qed.

Lemma start_waiter c mem : MsgConn.make pool (4 * sub) = Ret c ->
  waiter_inv (start (MsgConn.initRecv c) mem) {| taken := 0; queue := [] |}.
Proof. intros Hm. constructor; [done|]. by apply (initRecv_inv pool sub Hsub HN pool c mem eq_refl). Qed.

Lemma take_wc_memory w w' res : take_wc w = Ret (w', res) -> memory_w w' = memory_w w.
Proof.
  unfold take_wc. destruct (wc w !! wc_cur w) as [[n|ok id]|]; [|by intros [= <- _]|done].
  destruct (MsgConn.getMessage (conn_w w)) as [[c m]|]; [|done]. by intros [= <- _].
Qed.

Lemma fast_wait_memory w w' res : rpc_fast_wait w = Ret (w', res) -> memory_w w' = memory_w w.
Proof.
  unfold rpc_fast_wait. destruct (_ <=? _)%nat; [|apply take_wc_memory]. destruct (cq_w w); [done|]. intros H.
  by apply take_wc_memory in H.
Qed.

(** The loop of a service thread stops at the first message, and has seen the
    writes in front of it. *)
Lemma next_message_run q w writes p rest fuel :
  waiter_inv w q -> queue q = (inr <$> writes) ++ inl p :: rest -> (length writes < fuel)%nat ->
  exists w' m, next_message fuel w = Ret (w', snd <$> writes, m) /\
    read_bytes (memory_w w') m (Z.of_nat (length p)) = p /\ waiter_inv w' {| taken := taken q + 1; queue := rest |}.
Proof.
  revert q w fuel. induction writes as [|[ok id] writes IH]; intros q w fuel HI Hq Hf; (destruct fuel as [|fuel]; [cbn in Hf; lia|]);
    cbn [fmap list_fmap app] in Hq; destruct (step_wait w q _ _ HI Hq) as (w' & res & Hw & Ho & HI'); cbn [next_message]; rewrite Hw;
    cbn [mbind outcome_bind]; cbn [CompletionQueue.step] in HI'; rewrite Hq in HI'; cbn [fst] in HI'.
  - destruct res as [m|id]; [|done]. exists w', m. split; [done|]. split; [|done]. cbn in Ho.
    rewrite (fast_wait_memory w w' _ Hw). congruence.
  - cbn [shape observe] in Ho. destruct res as [m|id']; [done|]. cbn in Ho. injection Ho as ->.
    destruct (IH _ w' fuel HI' eq_refl) as (w2 & m & H2 & Hr & HI2); [cbn in Hf; lia|]. exists w2, m. rewrite H2. cbn. by split.
Qed.
End Refinement.


(** ** Witness *)

Definition fast_wait_events : list event :=
  [Arrive grh0 [1; 2]; Complete true 3; Arrive grh0 [4]; Wait; Complete false 5; Wait; Wait; Wait; Wait].

