(* ===== verification/Keeper.v ===== *)
(** * How the processes find each other (third_party/Mayfly-main: Keeper.cpp)

    Memcached holds the counters of servers and clients and a flag.  A server
    process takes the next number of the server counter; a client reads both
    counters, advances the client counter and takes the sum.  Then the nodes
    exchange what they need to connect.  A process is a sequence of memcached
    calls, each of them atomic; a call that fails is tried again and is not a step.
    Processes are interleaved by a schedule.

    The theorems: once the server counter exists, servers get different ids under
    every schedule; without it two servers can get the same id; the third client
    that enters gets the id of the second; which nodes a server connects to. *)

From stdpp Require Import base numbers list gmap.
From Stdlib Require Import ZArith Lia.
From S2P Require Import Prelude.

Module Keeper.

(** The keys serverNum, clientNum and xmh-consistent-dsm, with their numbers. *)
Record store := Build_store {
  serverNum : option Z;
  clientNum : option Z;
  consistent : option Z
}.

Definition with_serverNum (st : store) (v : option Z) : store :=
  {| serverNum := v; clientNum := clientNum st; consistent := consistent st |}.
Definition with_clientNum (st : store) (v : option Z) : store :=
  {| serverNum := serverNum st; clientNum := v; consistent := consistent st |}.
Definition with_consistent (st : store) (v : option Z) : store :=
  {| serverNum := serverNum st; clientNum := clientNum st; consistent := v |}.

(** ** serverEnter *)

(** Where a server process is: before the first [memcached_get], before the
    initialisation of the counter, before the increment, before the flag is set. *)
Inductive spc := SGet | SInit | SIncr | SSignal | SDone.

(** Where a client process is: before it reads the servers, the clients (with the
    number of servers), before it stores the new number of clients (with both),
    before it sees the flag, resets the client counter, increments it, and sets the
    flag for the next one. *)
Inductive cpc :=
  | CServers | CClients (serverNum : Z) | CReserve (serverNum curClientNum : Z) | CWait | CReset | CIncr | CNext | CDone.

Inductive proc :=
  | Server (pc : spc) (myNodeID : option Z)
  | Client (pc : cpc) (globalID : Z) (myNodeID : option Z).

(** [globalID == -1]: a server. *)
Definition enter (globalID : Z) : proc :=
  if globalID =? -1 then Server SGet None else Client CServers globalID None.

(** One memcached call; [myNodeID] has 16 bits. *)
Definition server_step (st : store) (pc : spc) (id : option Z) : store * proc :=
  match pc with
  | SGet => (st, Server (match serverNum st with Some _ => SIncr | None => SInit end) id)
  | SInit => (with_serverNum st (Some 0), Server SIncr id)
  | SIncr =>
      match serverNum st with
      | Some n => (with_serverNum st (Some (u64 (n + 1))), Server SSignal (Some ((u64 (n + 1) - 1) mod 2 ^ 16)))
      | None => (st, Server SIncr id)
      end
  | SSignal => (with_consistent st (Some 1), Server SDone id)
  | SDone => (st, Server SDone id)
  end.

Definition client_step (st : store) (pc : cpc) (globalID : Z) (id : option Z) : store * proc :=
  match pc with
  | CServers => (st, Client (CClients (u32 (default 0 (serverNum st)))) globalID id)
  | CClients s => (st, Client (CReserve s (u32 (default 0 (clientNum st)))) globalID id)
  | CReserve s c =>
      (with_clientNum st (Some (u32 (c + 1))), Client CWait globalID (Some (u32 (s + c) mod 2 ^ 16)))
  | CWait =>
      match consistent st with
      | Some v => if 1 <=? v then (st, Client CReset globalID id) else (st, Client CWait globalID id)
      | None => (st, Client CWait globalID id)
      end
  | CReset => (with_clientNum st (Some 0), Client CIncr globalID id)
  | CIncr =>
      match clientNum st with
      | Some n => (with_clientNum st (Some (u64 (n + 1))), Client CNext globalID id)
      | None => (st, Client CNext globalID id)
      end
  | CNext => (with_consistent st (Some (i32 (globalID + 1))), Client CDone globalID id)
  | CDone => (st, Client CDone globalID id)
  end.

Definition proc_step (st : store) (p : proc) : store * proc :=
  match p with
  | Server pc id => server_step st pc id
  | Client pc g id => client_step st pc g id
  end.

Definition world : Type := store * list proc.

(** The process [i] makes its next call. *)
Definition step (w : world) (i : nat) : world :=
  match w.2 !! i with
  | Some p => let '(st, p') := proc_step w.1 p in (st, <[i := p']> w.2)
  | None => w
  end.

Definition run (w : world) (schedule : list nat) : world := foldl step w schedule.

Definition node_id (p : proc) : option Z :=
  match p with Server _ id => id | Client _ _ id => id end.

(** The ids of the servers that have one. *)
Definition server_id (p : proc) : option Z :=
  match p with Server _ id => id | Client _ _ _ => None end.
Definition server_ids (w : world) : list Z := omap server_id w.2.

(** ** serverConnect *)

(** The nodes to which a server connects for the clients [from, from + n): it
    assumes that the ids of the clients start at [maxServer - expectedClientNR]. *)
Definition client_targets (maxServer expectedClientNR myNodeID from : Z) (n : nat) : list Z :=
  filter (fun k => k <> myNodeID)
    ((fun i => ((maxServer - expectedClientNR) mod 2 ^ 16 + i) mod 2 ^ 16) <$> seqZ from (Z.of_nat n)).

(** The loop that waits for late clients, on the values read of clientNum. *)
Fixpoint late_clients (maxServer expectedClientNR myNodeID lastClientNum : Z) (reads : list Z) : outcome (list Z) :=
  if lastClientNum <? expectedClientNR then
    match reads with
    | [] => Err Diverges
    | newClientNum :: reads' =>
        if lastClientNum <? newClientNum then
          ts ← late_clients maxServer expectedClientNR myNodeID newClientNum reads';
          Ret (client_targets maxServer expectedClientNR myNodeID lastClientNum (Z.to_nat (newClientNum - lastClientNum)) ++ ts)
        else late_clients maxServer expectedClientNR myNodeID lastClientNum reads'
    end
  else Ret [].

(** [serverConnect], the node ids in the order of the calls of [connectNode]:
    [servers] and [clients] are the counters read at the start. *)
Definition serverConnect (maxServer expectedClientNR curServer myNodeID servers clients : Z) (reads : list Z) : outcome (list Z) :=
  if myNodeID <? maxServer then
    let others := filter (fun k => k <> myNodeID) (seqZ curServer (servers - curServer)) in
    let early := client_targets maxServer expectedClientNR myNodeID 0 (Z.to_nat clients) in
    late ← late_clients maxServer expectedClientNR myNodeID clients reads;
    Ret (others ++ early ++ late)
  else Ret (filter (fun k => k <> myNodeID) (seqZ 0 servers)).
End Keeper.

Import Keeper.

(** ** The ids of servers *)

(** A server has its id once it has incremented the counter; none initialises it. *)
Definition entered (p : proc) : Prop :=
  match p with
  | Server SGet None | Server SIncr None | Server SSignal (Some _) | Server SDone (Some _) => True
  | Server _ _ => False
  | Client _ _ _ => True
  end.

Record ids_inv (n0 : Z) (w : world) : Prop := {
  ii_procs : Forall entered w.2;
  ii_ids : exists n, serverNum w.1 = Some n /\ n0 <= n /\ server_ids w ≡ₚ seqZ n0 (n - n0)
}.

(** The counter counts the servers that have an id. *)
Lemma ids_count n0 w n : serverNum w.1 = Some n -> n0 <= n -> server_ids w ≡ₚ seqZ n0 (n - n0) ->
  n <= n0 + Z.of_nat (length w.2).
Proof.
  intros Hn Hle Hp. apply Permutation_length in Hp. rewrite length_seqZ in Hp.
  pose proof (omap_length_le server_id w.2) as H. unfold server_ids in Hp. lia.
Qed.

Lemma client_step_servers st pc g id : serverNum (client_step st pc g id).1 = serverNum st /\
  server_id (client_step st pc g id).2 = None /\ entered (client_step st pc g id).2.
Proof. destruct pc; cbn; repeat case_match; done. Qed.

(** An increment gives an id that is still free. *)
Lemma omap_insert_new {A B} (f : A -> option B) (l : list A) i x y b :
  l !! i = Some x -> f x = None -> f y = Some b -> omap f (<[i := y]> l) ≡ₚ omap f l ++ [b].
Proof.
  intros Hi Hx Hy. pose proof (omap_insert_perm f l i y x Hi) as H. rewrite Hx, Hy in H. cbn in H.
  by rewrite H, Permutation_app_comm.
Qed.

Lemma omap_insert_same {A B} (f : A -> option B) (l : list A) i x y :
  l !! i = Some x -> f y = f x -> omap f (<[i := y]> l) ≡ₚ omap f l.
Proof.
  intros Hi Hx. pose proof (omap_insert_perm f l i y x Hi) as H. rewrite Hx in H. by apply Permutation_app_inv_l in H.
Qed.

Lemma step_ids_inv n0 w i :
  0 <= n0 -> n0 + Z.of_nat (length w.2) < 2 ^ 16 -> ids_inv n0 w -> ids_inv n0 (step w i).
Proof.
  intros H0 Hmax [HF (n & Hn & Hle & Hp)]. pose proof (ids_count n0 w n Hn Hle Hp) as Hcnt. unfold step.
  destruct (w.2 !! i) as [p|] eqn:Hi; [|by constructor; [|exists n]].
  pose proof (Forall_lookup_1 _ _ _ _ HF Hi) as He.
  assert (Hsame : forall st' p', serverNum st' = Some n -> entered p' -> server_id p' = server_id p ->
            ids_inv n0 (st', <[i := p']> w.2)).
  { intros st' p' Hs He' Hid. constructor; [by apply Forall_insert|]. exists n. split; [done|]. split; [done|].
    unfold server_ids. cbn [snd]. by rewrite (omap_insert_same _ _ _ _ _ Hi Hid). }
  destruct p as [pc id|pc g id]; cbn [proc_step].
  - destruct pc, id; cbn in He; try done; cbn [server_step]; rewrite ?Hn; try (by apply Hsame).
    set (id := (u64 (n + 1) - 1) mod 2 ^ 16).
    assert (Hid : id = n) by (unfold id; rewrite u64_small by lia; rewrite Z.mod_small by lia; lia).
    constructor; [by apply Forall_insert|]. exists (n + 1). cbn [fst snd]. rewrite u64_small by lia. split; [done|]. split; [lia|].
    unfold server_ids in *. cbn [snd]. rewrite (omap_insert_new server_id _ _ _ (Server SSignal (Some id)) id Hi) by done.
    rewrite Hp. replace (n + 1 - n0) with (n - n0 + 1) by lia. rewrite seqZ_app by lia. rewrite Hid.
    by replace (n0 + (n - n0)) with n by lia.
  - destruct (client_step_servers w.1 pc g id) as (Hs & Hid & He'). destruct (client_step w.1 pc g id) as [st' p'].
    cbn [fst snd] in *. apply Hsame; [by rewrite Hs|done|by rewrite Hid].
Qed.

Lemma step_procs w i : length (step w i).2 = length w.2.
Proof. unfold step. destruct (w.2 !! i); [|done]. destruct (proc_step _ _). apply length_insert. Qed.

Lemma run_ids_inv n0 schedule w :
  0 <= n0 -> n0 + Z.of_nat (length w.2) < 2 ^ 16 -> ids_inv n0 w -> ids_inv n0 (run w schedule).
Proof.
  intros H0. revert w. induction schedule as [|i schedule IH]; intros w Hmax HI; [done|]. cbn.
  apply IH; [by rewrite step_procs|by apply step_ids_inv].
Qed.

(** [C35] Servers and clients enter in any interleaving; the server counter has been
    initialised to [n0].  The ids of the servers are [n0], [n0 + 1], ..., each given
    once. *)
Theorem server_ids_consecutive st n0 globals schedule :
  serverNum st = Some n0 -> 0 <= n0 -> n0 + Z.of_nat (length globals) < 2 ^ 16 ->
  let w := run (st, enter <$> globals) schedule in
  server_ids w ≡ₚ seqZ n0 (Z.of_nat (length (server_ids w))) /\ NoDup (server_ids w).
Proof.
  intros Hn H0 Hmax w. assert (HI : ids_inv n0 w).
  { apply run_ids_inv; [done|cbn [snd]; by rewrite length_fmap|]. constructor; cbn [fst snd].
    - apply Forall_fmap, Forall_true. intros g. unfold compose, enter. by destruct (g =? -1).
    - exists n0. split; [done|]. split; [lia|]. rewrite Z.sub_diag. unfold server_ids. cbn [snd].
      replace (omap server_id (enter <$> globals)) with (@nil Z); [done|]. symmetry.
      induction globals as [|g globals IH]; [done|]. cbn. unfold enter at 1.
      destruct (g =? -1); cbn; apply IH; cbn in Hmax; lia. }
  destruct HI as [_ (n & _ & Hle & Hp)]. assert (Hlen : Z.of_nat (length (server_ids w)) = n - n0).
  { rewrite Hp, length_seqZ. lia. }
  rewrite Hlen. split; [done|]. rewrite Hp. apply NoDup_seqZ.
Qed.

Lemma server_ids_consecutive_witness :
  server_ids (run ({| serverNum := Some 0; clientNum := Some 0; consistent := None |}, enter <$> [-1; -1; 2])
    [0; 1; 2; 1; 0; 1; 2; 0; 2; 2; 2; 2; 2; 2; 1; 0]%nat) = [1; 0] /\ NoDup [1; 0].
Proof.
  split; [by vm_compute|].
  exact (proj2 (server_ids_consecutive {| serverNum := Some 0; clientNum := Some 0; consistent := None |} 0 [-1; -1; 2]
    [0; 1; 2; 1; 0; 1; 2; 0; 2; 2; 2; 2; 2; 2; 1; 0]%nat eq_refl ltac:(lia) ltac:(cbn; lia))).
Defined.

(** Without the counter, two servers that both see that it is missing get the same
    id: the second initialisation erases the first increment. *)
Theorem servers_race :
  server_ids (run ({| serverNum := None; clientNum := None; consistent := None |}, enter <$> [-1; -1])
    [0; 1; 0; 0; 1; 1]%nat) = [0; 0].
Proof. by vm_compute. Qed.

(** ** The ids of clients *)

(** A client alone: seven calls. *)
Definition enter_alone (st : store) (globalID : Z) : store * option Z :=
  let w := run (st, [enter globalID]) (replicate 7 0%nat) in (w.1, default None (node_id <$> w.2 !! 0%nat)).

(** Clients one after the other: the ids. *)
Fixpoint enter_in_turn (st : store) (globals : list Z) : store * list (option Z) :=
  match globals with
  | [] => (st, [])
  | g :: globals' =>
      let '(st, id) := enter_alone st g in
      let '(st, ids) := enter_in_turn st globals' in (st, id :: ids)
  end.

Lemma run_alone st p n : run (st, [p]) (replicate (S n) 0%nat) = run ((proc_step st p).1, [(proc_step st p).2]) (replicate n 0%nat).
Proof. cbn. unfold step. cbn. by destruct (proc_step st p). Qed.

(** A client that enters alone, when the servers are ready: it takes the sum of the
    counters, and leaves the client counter at 1, whatever it was. *)
Lemma enter_alone_spec st s c f g :
  serverNum st = Some s -> 0 <= s < 2 ^ 15 -> default 0 (clientNum st) = c -> 0 <= c < 2 ^ 15 ->
  consistent st = Some f -> 1 <= f -> 0 <= g < 2 ^ 31 - 1 ->
  enter_alone st g = ({| serverNum := Some s; clientNum := Some 1; consistent := Some (g + 1) |}, Some (s + c)).
Proof.
  intros Hs Hsr Hc Hcr Hf Hf1 Hg. unfold enter_alone, enter. rewrite (proj2 (Z.eqb_neq g (-1))) by lia.
  do 3 (rewrite run_alone; cbn [proc_step client_step fst snd]). rewrite Hs, Hc. cbn [default from_option].
  rewrite run_alone. cbn [proc_step client_step with_clientNum consistent]. rewrite Hf, (proj2 (Z.leb_le 1 f)) by lia.
  cbn [fst snd]. do 3 (rewrite run_alone; cbn [proc_step client_step fst snd with_clientNum clientNum]).
  unfold run. cbn [replicate foldl fst snd lookup list_lookup fmap option_fmap option_map node_id default from_option with_consistent serverNum clientNum].
  unfold id, with_consistent, with_clientNum. cbn [serverNum clientNum consistent]. rewrite !(u32_small s), !(u32_small c), u32_small, Z.mod_small, i32_small, Hs by lia. done.
Qed.

Lemma enter_in_turn_later st s f globals :
  serverNum st = Some s -> 0 <= s < 2 ^ 15 -> clientNum st = Some 1 -> consistent st = Some f -> 1 <= f ->
  Forall (fun g => 0 <= g < 2 ^ 31 - 1) globals ->
  (enter_in_turn st globals).2 = replicate (length globals) (Some (s + 1)).
Proof.
  intros Hs Hsr Hc Hf Hf1 HF. revert st f Hs Hc Hf Hf1. induction HF as [|g globals Hg _ IH]; intros st f Hs Hc Hf Hf1; [done|].
  cbn [enter_in_turn]. rewrite (enter_alone_spec st s 1 f g Hs Hsr ltac:(by rewrite Hc) ltac:(lia) Hf Hf1 Hg).
  specialize (IH {| serverNum := Some s; clientNum := Some 1; consistent := Some (g + 1) |} (g + 1)). cbn in IH.
  destruct (enter_in_turn _ globals) as [st' ids]. cbn in *. rewrite IH by (done || lia). done.
Qed.

(** Clients that enter one after the other: the first gets the number of servers,
    the second the next id, and every later one the id of the second, because a
    client sets the counter back to 1 when it has entered. *)
Theorem clients_in_turn st s f g globals :
  serverNum st = Some s -> 0 <= s < 2 ^ 15 -> clientNum st = Some 0 -> consistent st = Some f -> 1 <= f ->
  Forall (fun g => 0 <= g < 2 ^ 31 - 1) (g :: globals) ->
  (enter_in_turn st (g :: globals)).2 = Some s :: replicate (length globals) (Some (s + 1)).
Proof.
  intros Hs Hsr Hc Hf Hf1 HF. apply Forall_cons in HF as [Hg HF]. cbn [enter_in_turn].
  rewrite (enter_alone_spec st s 0 f g Hs Hsr ltac:(by rewrite Hc) ltac:(lia) Hf Hf1 Hg). rewrite Z.add_0_r.
  pose proof (enter_in_turn_later {| serverNum := Some s; clientNum := Some 1; consistent := Some (g + 1) |} s (g + 1) globals
    eq_refl Hsr eq_refl eq_refl ltac:(lia) HF) as H.
  destruct (enter_in_turn _ globals) as [st' ids]. cbn in *. by rewrite H.
Qed.

Lemma clients_in_turn_witness :
  (enter_in_turn {| serverNum := Some 2; clientNum := Some 0; consistent := Some 1 |} [2; 3; 4]).2 =
    [Some 2; Some 3; Some 3].
Proof.
  apply (clients_in_turn {| serverNum := Some 2; clientNum := Some 0; consistent := Some 1 |} 2 1 2 [3; 4]);
    [done|lia|done|done|lia|repeat constructor; lia].
Defined.

(** ** Which nodes are connected *)

Lemma late_clients_enough maxServer e my last reads : e <= last -> late_clients maxServer e my last reads = Ret [].
Proof. intros H. destruct reads; cbn; by rewrite (proj2 (Z.ltb_ge _ _)) by lia. Qed.

(** One client is expected, and there is one: a server connects to every other
    server and, when it sees the client, to the client. *)
Theorem serverConnect_one_client servers my reads :
  0 <= my < servers -> servers < 2 ^ 15 -> Forall (fun v => v = 0) reads ->
  serverConnect (servers + 1) 1 0 my servers 0 (reads ++ [1]) = Ret (filter (fun k => k <> my) (seqZ 0 servers) ++ [servers]).
Proof.
  intros Hmy Hs HF. unfold serverConnect. rewrite (proj2 (Z.ltb_lt _ _)), Z.sub_0_r by lia. cbn [Z.to_nat client_targets].
  assert (H : late_clients (servers + 1) 1 my 0 (reads ++ [1]) = Ret [servers]); [|by rewrite H].
  induction HF as [|v reads -> _ IH]; [|exact IH]. cbn [app late_clients]. change (0 <? 1) with true. cbn iota.
  cbn [mbind outcome_bind]. change (1 <? 1) with false. cbn iota. cbn [mbind outcome_bind]. change (Z.to_nat (1 - 0)) with 1%nat.
  unfold client_targets. change (seqZ 0 (Z.of_nat 1)) with [0]. cbn [fmap list_fmap].
  replace (servers + 1 - 1) with servers by lia. rewrite Z.add_0_r, Z.mod_mod, Z.mod_small by lia.
  by rewrite filter_cons_True by lia.
Qed.

Lemma client_targets_above maxServer e my from n k :
  0 <= e <= maxServer -> maxServer < 2 ^ 15 -> 0 <= from -> from + Z.of_nat n < 2 ^ 15 ->
  k ∈ client_targets maxServer e my from n -> maxServer - e <= k.
Proof.
  intros He Hm Hf Hn Hk. unfold client_targets in Hk. apply list_elem_of_filter in Hk as [_ Hk].
  apply list_elem_of_fmap in Hk as (i & -> & Hi). apply elem_of_seqZ in Hi. rewrite (Z.mod_small (maxServer - e)) by lia.
  rewrite Z.mod_small by lia. lia.
Qed.

Lemma late_clients_above maxServer e my last reads ts k :
  0 <= e <= maxServer -> maxServer < 2 ^ 15 -> 0 <= last -> Forall (fun v => 0 <= v < 2 ^ 15) reads ->
  late_clients maxServer e my last reads = Ret ts -> k ∈ ts -> maxServer - e <= k.
Proof.
  intros He Hm Hl HF. revert last ts Hl. induction HF as [|v reads Hv _ IH]; intros last ts Hl HR Hk; cbn [late_clients] in HR.
  - destruct (last <? e); [done|]. simplify_eq. by apply elem_of_nil in Hk.
  - destruct (last <? e); [|simplify_eq; by apply elem_of_nil in Hk]. destruct (Z.ltb_spec last v) as [Hlt|Hlt].
    + inv_ret. apply elem_of_app in Hk as [Hk|Hk].
      * apply client_targets_above in Hk; [done|done|done|done|lia].
      * eapply (IH v); [lia|eassumption|done].
    + by eapply (IH last).
Qed.

(** The constructor of DSM keeps the default of one expected client.  With two or
    more clients, whose ids start at [servers], no server ever connects to the first
    one. *)
Theorem serverConnect_misses_first_client servers clients my start reads ts :
  0 <= my < servers -> 2 <= clients -> servers + clients < 2 ^ 15 -> 0 <= start < 2 ^ 15 ->
  Forall (fun v => 0 <= v < 2 ^ 15) reads ->
  serverConnect (servers + clients) 1 0 my servers start reads = Ret ts -> servers ∉ ts.
Proof.
  intros Hmy Hc Hmax Hst HF HR Hin. unfold serverConnect in HR. rewrite (proj2 (Z.ltb_lt _ _)) in HR by lia. inv_ret.
  apply elem_of_app in Hin as [Hin|Hin].
  - apply list_elem_of_filter in Hin as [_ Hin]. apply elem_of_seqZ in Hin. lia.
  - apply elem_of_app in Hin as [Hin|Hin].
    + pose proof (client_targets_above (servers + clients) 1 my 0 (Z.to_nat start) servers ltac:(lia) ltac:(lia) ltac:(lia) ltac:(lia) Hin). lia.
    + assert (servers + clients - 1 <= servers); [|lia].
      eapply late_clients_above; [| | |exact HF|eassumption|exact Hin]; lia.
Qed.

Lemma serverConnect_misses_first_client_witness :
  serverConnect 3 1 0 0 1 0 [0; 1] = Ret [2] /\ 1 ∉ [2].
Proof.
  split; [done|]. apply (serverConnect_misses_first_client 1 2 0 0 [0; 1] [2]); [lia|lia|lia|lia|repeat constructor; lia|done].
Defined.
