(* ===== verification/Barrier.v ===== *)
(** * The barrier of the nodes (third_party/Mayfly-main/src/DSMKeeper.cpp)

    [barrier(name, k)]: node 0 sets the number under the key of the barrier to 0 and
    increments it; every other node waits until the number is there and is at least
    1, and increments it; all wait until it is [k].  The number is in memcached; each
    call is atomic, and the nodes are interleaved by a schedule.

    The theorems: with a new key and [k] nodes, node 0 among them, no node passes
    before all have arrived, and from every state that is reached all can pass; if
    node 0 does not take part, as in the barriers of the benchmark's clients, no node
    ever passes; with a number left over from an earlier run the nodes can lock up. *)

From stdpp Require Import base numbers list gmap.
From Stdlib Require Import ZArith Lia.
From S2P Require Import Prelude.

Module Barrier.

(** Before the number is set to 0; before the key is seen; before a number of at
    least 1 is seen; before the increment; before [k] is seen. *)
Inductive pc := BSet | BKey | BOne | BAdd | BWait | BPassed.

#[export] Instance pc_eq_dec : EqDecision pc.
Proof. solve_decision. Defined.

(** [getServerNR], [getExpectedClientNR], [total_participants]; 16 bits wide. *)
Record keeper := Build_keeper { maxServer : Z; expectedClientNR : Z }.
Definition getServerNR (kp : keeper) : Z := (maxServer kp - expectedClientNR kp) mod 2 ^ 16.
Definition total_participants (kp : keeper) : Z := (getServerNR kp + expectedClientNR kp) mod 2 ^ 16.

Definition should_initialize (kp : keeper) (myNodeID : Z) : bool := (myNodeID <? getServerNR kp) && (myNodeID =? 0).
Definition should_final_increment (kp : keeper) (myNodeID : Z) : bool := myNodeID =? total_participants kp - 1.

(** The branches of the last node and of the others are the same. *)
Definition first_call (kp : keeper) (myNodeID : Z) : pc :=
  if should_initialize kp myNodeID then BSet
  else if should_final_increment kp myNodeID then BKey
  else BKey.

(** One call; a node that does not see what it waits for tries again. *)
Definition node_step (k : Z) (value : option Z) (p : pc) : option Z * pc :=
  match p with
  | BSet => (Some 0, BAdd)
  | BKey => match value with Some _ => (value, BOne) | None => (value, BKey) end
  | BOne => match value with Some v => if 1 <=? v then (value, BAdd) else (value, BOne) | None => (value, BOne) end
  | BAdd => match value with Some v => (Some (u64 (v + 1)), BWait) | None => (value, BAdd) end
  | BWait => match value with Some v => if v =? k then (value, BPassed) else (value, BWait) | None => (value, BWait) end
  | BPassed => (value, BPassed)
  end.

(** The number and the nodes, with their ids. *)
Record world := Build_world { value : option Z; nodes : list (Z * pc) }.

Definition step (k : Z) (w : world) (i : nat) : world :=
  match nodes w !! i with
  | Some (id, p) => let '(v, p') := node_step k (value w) p in {| value := v; nodes := <[i := (id, p')]> (nodes w) |}
  | None => w
  end.

Definition run (k : Z) (w : world) (schedule : list nat) : world := foldl (step k) w schedule.

Definition start (kp : keeper) (v : option Z) (ids : list Z) : world :=
  {| value := v; nodes := (fun id => (id, first_call kp id)) <$> ids |}.

Definition passed (p : Z * pc) : Prop := p.2 = BPassed.
Definition arrived (p : Z * pc) : Prop := p.2 = BWait \/ p.2 = BPassed.

#[export] Instance arrived_dec p : Decision (arrived p).
Proof. unfold arrived. apply _. Defined.
End Barrier.

Import Barrier.

Section Barrier.
Context (kp : keeper) (k : Z).

Lemma run_snoc w s i : run k w (s ++ [i]) = step k (run k w s) i.
Proof. unfold run. by rewrite foldl_app. Qed.

Lemma run_two w s1 s2 : run k w (s1 ++ s2) = run k (run k w s1) s2.
Proof. apply foldl_app. Qed.

Definition count (w : world) : Z := Z.of_nat (length (filter arrived (nodes w))).

Lemma count_le w : 0 <= count w <= Z.of_nat (length (nodes w)).
Proof. unfold count. pose proof (length_filter arrived (nodes w)). lia. Qed.

(** The count after a step of node [i]. *)
Lemma count_insert w v i x y :
  nodes w !! i = Some x ->
  count {| value := v; nodes := <[i := y]> (nodes w) |} =
    count w - (if decide (arrived x) then 1 else 0) + (if decide (arrived y) then 1 else 0).
Proof.
  intros Hx. unfold count. cbn [nodes]. pose proof (lookup_lt_Some _ _ _ Hx) as Hi.
  rewrite insert_take_drop by done. rewrite <- (take_drop_middle (nodes w) i x Hx) at 3.
  rewrite !filter_app, !filter_cons, !length_app. destruct (decide (arrived x)), (decide (arrived y)); cbn [length]; lia.
Qed.

(** The states of the protocol with a new key: nobody has seen a number; or the
    number counts those who arrived, and a node has passed only if all have. *)
Definition before (p : Z * pc) : Prop := p.2 = if p.1 =? 0 then BSet else BKey.
Definition started (p : Z * pc) : Prop := p.2 <> BSet /\ (p.1 = 0 -> p.2 = BAdd \/ arrived p).
Definition waiting (p : Z * pc) : Prop := p.1 <> 0 -> p.2 = BKey \/ p.2 = BOne.

Record barrier_inv (w : world) : Prop := {
  bi_ids : NoDup (nodes w).*1;
  bi_k : Z.of_nat (length (nodes w)) = k;
  bi_state :
    match value w with
    | None => Forall before (nodes w)
    | Some v => v = count w /\ Forall started (nodes w) /\ (v = 0 -> Forall waiting (nodes w)) /\
                (Exists passed (nodes w) -> v = k)
    end
}.

Lemma step_ids w i : (nodes (step k w i)).*1 = (nodes w).*1 /\ length (nodes (step k w i)) = length (nodes w).
Proof.
  unfold step. destruct (nodes w !! i) as [[id p]|] eqn:Hi; [|done]. destruct (node_step k (value w) p) as [v p']. cbn [nodes].
  split; [|apply length_insert]. rewrite list_fmap_insert. cbn. apply list_insert_id. by rewrite list_lookup_fmap, Hi.
Qed.

(** Before the number is there, only node 0 does something. *)
Lemma step_before w i :
  barrier_inv w -> value w = None -> barrier_inv (step k w i).
Proof.
  intros [Hid Hk Hs] Hv. rewrite Hv in Hs. destruct (step_ids w i) as [Hids Hlen].
  unfold step in *. destruct (nodes w !! i) as [[id p]|] eqn:Hi; [|by constructor; [| |rewrite Hv]].
  pose proof (Forall_lookup_1 _ _ _ _ Hs Hi) as Hp. unfold before in Hp. cbn in Hp. rewrite Hv in *.
  destruct (Z.eqb_spec id 0) as [->|Hne]; subst p; cbn [node_step value nodes] in *.
  - constructor; cbn [value nodes]; [by rewrite Hids|lia|].
    assert (Hoth : Forall (fun x => x.1 <> 0 /\ x.2 = BKey \/ x = (0, BAdd)) (<[i := (0, BAdd)]> (nodes w))).
    { apply Forall_lookup. intros j x Hj. apply list_lookup_insert_Some in Hj as [(-> & <- & _)|[Hne Hj]]; [by right|left].
      pose proof (Forall_lookup_1 _ _ _ _ Hs Hj) as Hx. unfold before in Hx.
      assert (x.1 <> 0).
      { intros E. apply Hne. apply (NoDup_lookup (nodes w).*1 i j 0 Hid); rewrite list_lookup_fmap; [by rewrite Hi|by rewrite Hj, <- E]. }
      by rewrite (proj2 (Z.eqb_neq _ _)) in Hx. }
    split_and!.
    + unfold count. cbn [nodes]. rewrite (list_filter_none arrived); [done|]. intros x Hx.
      rewrite Forall_forall in Hoth. unfold arrived. destruct (Hoth x Hx) as [[_ H]|H]; [rewrite H|subst x]; by intros [?|?].
    + eapply Forall_impl; [exact Hoth|]. intros [id p] [[Hn Hp]|E]; unfold started; cbn in *; [by subst p|].
      simplify_eq. split; [done|by left].
    + intros _. eapply Forall_impl; [exact Hoth|]. intros [id p] [[Hn Hp]|E] Hx; cbn in *; [by left|]. by simplify_eq.
    + intros HE. apply Exists_exists in HE as (x & Hx & HP). unfold passed in HP.
      rewrite Forall_forall in Hoth. destruct (Hoth x Hx) as [[_ H]|H]; [congruence|by subst x].
  - constructor; cbn [value nodes]; [by rewrite Hids|lia|]. rewrite (list_insert_id _ _ _ Hi). exact Hs.
Qed.

(** A passed node is one of the old ones, or the new one. *)
Lemma passed_insert (l : list (Z * pc)) i x : Exists passed (<[i := x]> l) -> passed x \/ Exists passed l.
Proof.
  intros HE. apply Exists_exists in HE as (y & Hy & Hp). apply list_elem_of_lookup in Hy as [j Hj].
  apply list_lookup_insert_Some in Hj as [(-> & <- & _)|[_ Hj]]; [by left|]. right. apply Exists_exists.
  exists y. split; [by eapply list_elem_of_lookup_2|done].
Qed.

Lemma insert_ids (l : list (Z * pc)) i id p p' : l !! i = Some (id, p) -> (<[i := (id, p')]> l).*1 = l.*1.
Proof. intros Hi. rewrite list_fmap_insert. cbn. apply list_insert_id. by rewrite list_lookup_fmap, Hi. Qed.

(** A step of node [i] that does not change the number. *)
Lemma inv_keep w v i id p p' :
  barrier_inv w -> value w = Some v -> nodes w !! i = Some (id, p) ->
  (p' = BPassed -> v = k) -> p' <> BSet -> (p = BAdd -> p' = BAdd) -> (arrived (id, p) <-> arrived (id, p')) ->
  (v = 0 -> id <> 0 -> p' = BKey \/ p' = BOne) ->
  barrier_inv {| value := Some v; nodes := <[i := (id, p')]> (nodes w) |}.
Proof.
  intros [Hid Hk Hs] Hv Hi Hpk Hpn Hpa Har Hw0. rewrite Hv in Hs. destruct Hs as (Hc & HF & H0 & HP).
  pose proof (Forall_lookup_1 _ _ _ _ HF Hi) as [_ Hz]. cbn in Hz. constructor; cbn [value nodes].
  - by rewrite (insert_ids _ _ _ p).
  - by rewrite length_insert.
  - split_and!.
    + rewrite (count_insert w (Some v) i (id, p) (id, p') Hi). destruct (decide (arrived (id, p))), (decide (arrived (id, p'))); tauto || lia.
    + apply Forall_insert; [done|]. split; [done|]. cbn. intros E. destruct (Hz E) as [H|H]; [left; auto|right; tauto].
    + intros E. apply Forall_insert; [auto|]. intros Hn. cbn in *. auto.
    + intros HE. by apply passed_insert in HE as [HE|HE]; [apply Hpk|apply HP].
Qed.

(** An increment: one more has arrived, so that nobody had passed. *)
Lemma inv_add w v i id :
  k < 2 ^ 64 -> barrier_inv w -> value w = Some v -> nodes w !! i = Some (id, BAdd) ->
  barrier_inv {| value := Some (u64 (v + 1)); nodes := <[i := (id, BWait)]> (nodes w) |}.
Proof.
  intros Hmax [Hid Hk Hs] Hv Hi. rewrite Hv in Hs. destruct Hs as (Hc & HF & H0 & HP). pose proof (count_le w) as Hcl.
  set (w' := {| value := Some (u64 (v + 1)); nodes := <[i := (id, BWait)]> (nodes w) |}).
  assert (Hcnt : count w' = count w + 1).
  { unfold w'. rewrite (count_insert w _ i (id, BAdd) (id, BWait) Hi).
    rewrite decide_False, decide_True by (unfold arrived; cbn; intuition congruence). lia. }
  pose proof (count_le w') as Hle. unfold w' in Hle at 3. cbn [nodes] in Hle. rewrite length_insert in Hle.
  constructor; cbn [value nodes w'].
  - by rewrite (insert_ids _ _ _ BAdd).
  - by rewrite length_insert.
  - fold w'. rewrite u64_small by lia. split_and!.
    + lia.
    + apply Forall_insert; [done|]. split; [done|]. intros _. right. by left.
    + lia.
    + intros HE. apply passed_insert in HE as [HE|HE]; [done|]. apply HP in HE. lia.
Qed.

(** Afterwards the number counts those who have arrived. *)
Lemma step_after w i v :
  k < 2 ^ 64 -> barrier_inv w -> value w = Some v -> barrier_inv (step k w i).
Proof.
  intros Hmax HI Hv. pose proof HI as [Hid Hk Hs]. rewrite Hv in Hs. destruct Hs as (Hc & HF & H0 & HP). unfold step.
  destruct (nodes w !! i) as [[id p]|] eqn:Hi; [|done]. pose proof (Forall_lookup_1 _ _ _ _ HF Hi) as [Hns _]. cbn in Hns.
  assert (Hw : v = 0 -> id <> 0 -> p = BKey \/ p = BOne) by (intros E; exact (Forall_lookup_1 _ _ _ _ (H0 E) Hi)).
  assert (Hkeep := fun p' => inv_keep w v i id p p' HI Hv Hi). rewrite Hv.
  destruct p; cbn [node_step].
  - done.
  - apply Hkeep; try done; [unfold arrived; cbn; intuition congruence|intros; by right].
  - destruct (Z.leb_spec 1 v); apply Hkeep; try done; [unfold arrived; cbn; intuition congruence|lia].
  - by apply (inv_add w v i id).
  - destruct (Z.eqb_spec v k); apply Hkeep; try done; unfold arrived; cbn; intuition congruence.
  - apply Hkeep; try done. intros _. apply HP, Exists_exists. exists (id, BPassed). split; [by eapply list_elem_of_lookup_2|done].
Qed.

Lemma run_inv w schedule : k < 2 ^ 64 -> barrier_inv w -> barrier_inv (run k w schedule).
Proof.
  intros Hmax. revert w. induction schedule as [|i schedule IH]; intros w HI; [done|]. cbn. apply IH.
  destruct (value w) as [v|] eqn:Hv; [by apply (step_after w i v)|by apply step_before].
Qed.

Lemma start_inv ids :
  0 < getServerNR kp -> NoDup ids -> Z.of_nat (length ids) = k -> barrier_inv (start kp None ids).
Proof.
  intros Hs Hnd Hk. constructor; cbn [start value nodes].
  - rewrite <- list_fmap_compose. unfold compose. cbn. by rewrite list_fmap_id.
  - by rewrite length_fmap.
  - apply Forall_fmap, Forall_true. intros id. unfold compose, before, first_call, should_initialize. cbn.
    destruct (Z.eqb_spec id 0) as [->|Hne]; [by rewrite (proj2 (Z.ltb_lt _ _))|]. rewrite andb_false_r. by destruct (should_final_increment kp id).
Qed.

Lemma passed_all_arrived w : barrier_inv w -> Exists passed (nodes w) -> Forall arrived (nodes w).
Proof.
  intros [_ Hk Hs] HE. destruct (value w) as [v|].
  - destruct Hs as (Hc & _ & _ & HP). specialize (HP HE). rewrite <- Hk in HP. rewrite Hc in HP. unfold count in HP.
    apply Forall_forall. intros x Hx. destruct (decide (arrived x)) as [|Hn]; [done|]. exfalso.
    assert (Hlt : (length (filter arrived (nodes w)) < length (nodes w))%nat) by (by eapply length_filter_lt).
    lia.
  - exfalso. apply Exists_exists in HE as (x & Hx & Hp). rewrite Forall_forall in Hs. specialize (Hs x Hx).
    unfold before, passed in *. rewrite Hp in Hs. by destruct (x.1 =? 0).
Qed.

(** *** All can pass *)

Definition arrived_at (w : world) (j : nat) : Prop := exists x, nodes w !! j = Some x /\ arrived x.
Definition passed_at (w : world) (j : nat) : Prop := exists x, nodes w !! j = Some x /\ passed x.

Lemma step_self w i id p :
  nodes w !! i = Some (id, p) ->
  value (step k w i) = (node_step k (value w) p).1 /\ nodes (step k w i) !! i = Some (id, (node_step k (value w) p).2).
Proof.
  intros Hi. unfold step. rewrite Hi. destruct (node_step k (value w) p) as [v p']. cbn.
  split; [done|]. apply list_lookup_insert_eq. by eapply lookup_lt_Some.
Qed.

Lemma step_other w i j : i <> j -> nodes (step k w i) !! j = nodes w !! j.
Proof.
  intros Hne. unfold step. destruct (nodes w !! i) as [[id p]|]; [|done]. destruct (node_step k (value w) p). cbn.
  by apply list_lookup_insert_ne.
Qed.

(** Who has arrived, or passed, has so for good. *)
Lemma step_arrived w i j : arrived_at w j -> arrived_at (step k w i) j.
Proof.
  intros ([id p] & Hj & Ha). destruct (decide (i = j)) as [->|Hne]; [|exists (id, p); by rewrite step_other].
  destruct (step_self w j id p Hj) as [_ Hs]. eexists. split; [exact Hs|]. unfold arrived in *. cbn in Ha |- *.
  destruct Ha as [-> | ->]; cbn; [|by right]. destruct (value w) as [v|]; [|by left]. destruct (v =? k); [by right|by left].
Qed.

Lemma step_passed w i j : passed_at w j -> passed_at (step k w i) j.
Proof.
  intros ([id p] & Hj & Hp). destruct (decide (i = j)) as [->|Hne]; [|exists (id, p); by rewrite step_other].
  destruct (step_self w j id p Hj) as [_ Hs]. eexists. split; [exact Hs|]. unfold passed in *. cbn in Hp |- *. by subst p.
Qed.

Lemma run_arrived s w j : arrived_at w j -> arrived_at (run k w s) j.
Proof. revert w. induction s as [|i s IH]; intros w H; [done|]. by apply IH, step_arrived. Qed.

Lemma run_passed s w j : passed_at w j -> passed_at (run k w s) j.
Proof. revert w. induction s as [|i s IH]; intros w H; [done|]. by apply IH, step_passed. Qed.

Lemma arrived_value w j : barrier_inv w -> arrived_at w j -> exists v, value w = Some v /\ 1 <= v.
Proof.
  intros [_ Hk Hs] (x & Hj & Ha). destruct (value w) as [v|].
  - exists v. split; [done|]. destruct Hs as (-> & _). unfold count.
    assert (Hin : x ∈ filter arrived (nodes w)) by (apply list_elem_of_filter; split; [done|by eapply list_elem_of_lookup_2]).
    destruct (filter arrived (nodes w)); [by apply elem_of_nil in Hin|cbn; lia].
  - exfalso. pose proof (Forall_lookup_1 _ _ _ _ Hs Hj) as Hb. unfold before, arrived in *. rewrite Hb in Ha.
    destruct (x.1 =? 0); by destruct Ha.
Qed.

(** Two calls of node 0. *)
Lemma zero_arrives w i p :
  barrier_inv w -> nodes w !! i = Some (0, p) -> arrived_at (run k w [i; i]) i.
Proof.
  intros [Hid Hk Hs] Hi. cbn [run foldl]. destruct (value w) as [v|] eqn:Hv.
  - destruct Hs as (_ & HF & _). destruct (Forall_lookup_1 _ _ _ _ HF Hi) as [_ Hz]. destruct (Hz eq_refl) as [Hp|Ha].
    + cbn in Hp. subst p. apply step_arrived. destruct (step_self w i 0 BAdd Hi) as [_ H]. eexists. split; [exact H|].
      rewrite Hv. by left.
    + apply step_arrived, step_arrived. by eexists.
  - pose proof (Forall_lookup_1 _ _ _ _ Hs Hi) as Hb. unfold before in Hb. cbn in Hb. subst p.
    destruct (step_self w i 0 BSet Hi) as [Hv1 H1]. cbn in Hv1, H1. destruct (step_self _ i 0 BAdd H1) as [_ H2].
    rewrite Hv1 in H2. eexists. split; [exact H2|]. by left.
Qed.

(** Three calls of any node, once some node has arrived. *)
Lemma node_arrives w i j :
  k < 2 ^ 64 -> barrier_inv w -> arrived_at w i -> (j < length (nodes w))%nat -> arrived_at (run k w [j; j; j]) j.
Proof.
  intros Hmax HI Ha Hj. destruct (lookup_lt_is_Some_2 _ _ Hj) as [[id p] Hp].
  assert (Hval : forall s, exists v, value (run k w s) = Some v /\ 1 <= v).
  { intros s. by apply (arrived_value _ i); [apply run_inv|apply run_arrived]. }
  destruct (Hval []) as (v0 & Hv0 & Hl0). destruct (Hval [j]) as (v1 & Hv1 & Hl1). destruct (Hval [j; j]) as (v2 & Hv2 & Hl2).
  cbn [run foldl] in *. destruct (step_self w j id p Hp) as [_ H1]. rewrite Hv0 in H1.
  destruct (decide (arrived (id, p))) as [Har|Har]; [apply step_arrived, step_arrived, step_arrived; by eexists|].
  assert (Hns : p <> BSet).
  { destruct HI as [_ _ Hs]. rewrite Hv0 in Hs. destruct Hs as (_ & HF & _). by destruct (Forall_lookup_1 _ _ _ _ HF Hp). }
  unfold arrived in Har. cbn in Har. destruct p; try (by destruct Har; auto); try done; cbn in H1.
  - destruct (step_self _ j id _ H1) as [_ H2]. rewrite Hv1 in H2. cbn in H2. rewrite (proj2 (Z.leb_le _ _)) in H2 by done.
    destruct (step_self _ j id _ H2) as [_ H3]. rewrite Hv2 in H3. eexists. split; [exact H3|]. by left.
  - rewrite (proj2 (Z.leb_le _ _)) in H1 by done. apply step_arrived.
    destruct (step_self _ j id _ H1) as [_ H2]. rewrite Hv1 in H2. eexists. split; [exact H2|]. by left.
  - apply step_arrived, step_arrived. eexists. split; [exact H1|]. by left.
Qed.

Lemma run_length w s : length (nodes (run k w s)) = length (nodes w).
Proof. revert w. induction s as [|i s IH]; intros w; [done|].
  change (run k w (i :: s)) with (run k (step k w i) s). rewrite IH. apply (proj2 (step_ids w i)).
Qed.

(** The calls that bring every node to the barrier, and then through it. *)
Definition arrivals (js : list nat) : list nat := concat ((fun j => [j; j; j]) <$> js).

Lemma all_arrive js w i :
  k < 2 ^ 64 -> barrier_inv w -> arrived_at w i -> Forall (fun j => (j < length (nodes w))%nat) js ->
  forall j, j ∈ js -> arrived_at (run k w (arrivals js)) j.
Proof.
  intros Hmax. revert w. induction js as [|j0 js IH]; intros w HI Ha HF j Hj; [by apply elem_of_nil in Hj|].
  apply Forall_cons in HF as [H0 HF]. change (arrivals (j0 :: js)) with ([j0; j0; j0] ++ arrivals js). rewrite run_two.
  apply elem_of_cons in Hj as [->|Hj].
  - apply run_arrived. by apply (node_arrives w i).
  - apply IH; [by apply run_inv|by apply run_arrived|by rewrite run_length|done].
Qed.

Lemma all_pass js w :
  barrier_inv w -> (forall j, (j < length (nodes w))%nat -> arrived_at w j) -> Forall (fun j => (j < length (nodes w))%nat) js ->
  k < 2 ^ 64 -> forall j, j ∈ js -> passed_at (run k w js) j.
Proof.
  intros HI Ha HF Hmax. revert w HI Ha HF. induction js as [|j0 js IH]; intros w HI Ha HF j Hj; [by apply elem_of_nil in Hj|].
  apply Forall_cons in HF as [H0 HF]. cbn [run foldl]. fold (run k (step k w j0) js). apply elem_of_cons in Hj as [->|Hj].
  - apply run_passed. destruct (Ha j0 H0) as ([id p] & Hp & Har). destruct (step_self w j0 id p Hp) as [_ H1].
    eexists. split; [exact H1|]. unfold passed. cbn. destruct (arrived_value w j0 HI (Ha j0 H0)) as (v & Hv & _).
    destruct HI as [_ Hk Hs]. rewrite Hv in Hs. destruct Hs as (Hc & _ & _ & _).
    assert (Hvk : v = k).
    { rewrite Hc. unfold count. rewrite list_filter_all; [exact Hk|]. intros x Hx. apply list_elem_of_lookup in Hx as [i Hi].
      destruct (Ha i) as (y & Hy & Hay); [by eapply lookup_lt_Some|]. congruence. }
    rewrite Hv. unfold arrived in Har. cbn in Har. destruct Har as [-> | ->]; cbn; [|done]. by rewrite Hvk, Z.eqb_refl.
  - apply IH; [|intros i Hi; apply step_arrived, Ha; by rewrite (proj2 (step_ids w j0)) in Hi|by rewrite (proj2 (step_ids w j0))|done].
    change (step k w j0) with (run k w [j0]). by apply run_inv.
Qed.
End Barrier.

(** [C24] The barrier with a new key: [k] nodes take part, each once.  Under every
    schedule, when one of them has passed, all have arrived. *)
Theorem barrier_safe kp ids schedule :
  0 < getServerNR kp -> NoDup ids -> Z.of_nat (length ids) < 2 ^ 64 ->
  let w := run (Z.of_nat (length ids)) (start kp None ids) schedule in
  Exists passed (nodes w) -> Forall arrived (nodes w).
Proof.
  intros Hs Hnd Hmax w. apply (passed_all_arrived (Z.of_nat (length ids))). apply run_inv; [done|]. by apply start_inv.
Qed.

Definition finish (n i0 : nat) : list nat := [i0; i0] ++ arrivals (seq 0 n) ++ seq 0 n.

(** [C25] If node 0 takes part, all nodes can pass, from every state that is reached. *)
Theorem barrier_completes kp ids schedule i0 :
  0 < getServerNR kp -> NoDup ids -> Z.of_nat (length ids) < 2 ^ 64 -> ids !! i0 = Some 0 ->
  Forall passed (nodes (run (Z.of_nat (length ids)) (start kp None ids) (schedule ++ finish (length ids) i0))).
Proof.
  intros Hs Hnd Hmax H0. set (k := Z.of_nat (length ids)) in *. rewrite run_two. set (w := run k (start kp None ids) schedule).
  assert (HI : barrier_inv k w) by (apply run_inv; [done|by apply start_inv]).
  assert (Hlen : length (nodes w) = length ids) by (unfold w; rewrite run_length; cbn; by rewrite length_fmap).
  assert (Hz : exists p, nodes w !! i0 = Some (0, p)).
  { assert (Hids : (nodes w).*1 = ids).
    { unfold w. clear HI Hlen. induction schedule as [|j s IH] using rev_ind.
      - cbn. rewrite <- list_fmap_compose. unfold compose. cbn. by rewrite list_fmap_id.
      - rewrite run_snoc. by rewrite (proj1 (step_ids k _ j)). }
    rewrite <- Hids, list_lookup_fmap in H0. destruct (nodes w !! i0) as [[id p]|]; [|done]. cbn in H0. simplify_eq. by exists p. }
  destruct Hz as [p Hp]. unfold finish. rewrite !run_two. set (w1 := run k w [i0; i0]).
  assert (H1 : arrived_at w1 i0) by (by apply (zero_arrives k w i0 p)).
  assert (HI1 : barrier_inv k w1) by (by apply run_inv). set (w2 := run k w1 (arrivals (seq 0 (length ids)))).
  assert (Hl1 : length (nodes w1) = length ids) by (unfold w1; by rewrite run_length).
  assert (Hl2 : length (nodes w2) = length ids) by (unfold w2; by rewrite run_length).
  assert (Hseq : Forall (fun j => (j < length ids)%nat) (seq 0 (length ids))) by (apply Forall_seq; lia).
  assert (H2 : forall j, (j < length (nodes w2))%nat -> arrived_at w2 j).
  { intros j Hj. apply (all_arrive k _ w1 i0); [done|done|done|by rewrite Hl1|]. apply elem_of_seq. lia. }
  apply Forall_lookup. intros j x Hj.
  destruct (all_pass k (seq 0 (length ids)) w2 ltac:(by apply run_inv) H2 ltac:(by rewrite Hl2) Hmax j) as (y & Hy & Hpy).
  - apply elem_of_seq. apply lookup_lt_Some in Hj. rewrite run_length in Hj. lia.
  - congruence.
Qed.

(** Without node 0, which is a server, the number is never set: no node passes.
    The barriers of the benchmark's clients are of this kind. *)
Theorem barrier_without_zero kp k ids schedule :
  0 ∉ ids -> let w := run k (start kp None ids) schedule in value w = None /\ Forall (fun p => p.2 = BKey) (nodes w).
Proof.
  intros H0 w. assert (Hstart : value (start kp None ids) = None /\ Forall (fun p => p.2 = BKey) (nodes (start kp None ids))).
  { split; [done|]. apply Forall_fmap, Forall_forall. intros id Hid. unfold compose, first_call, should_initialize. cbn.
    destruct (Z.eqb_spec id 0) as [->|]; [done|]. rewrite andb_false_r. by destruct (should_final_increment kp id). }
  unfold w. clear w. induction schedule as [|i s IH] using rev_ind; [done|]. rewrite run_snoc. destruct IH as [Hv HF].
  unfold step. destruct (nodes _ !! i) as [[id p]|] eqn:Hi; [|done]. pose proof (Forall_lookup_1 _ _ _ _ HF Hi) as Hp. cbn in Hp.
  subst p. rewrite Hv. cbn. split; [done|]. by apply Forall_insert.
Qed.

(** All wait for a number that is not there: this does not change. *)
Lemma stuck k w v schedule :
  value w = Some v -> v <> k -> Forall (fun p => p.2 = BWait) (nodes w) ->
  value (run k w schedule) = Some v /\ Forall (fun p => p.2 = BWait) (nodes (run k w schedule)).
Proof.
  intros Hv Hne HF. revert w Hv HF. induction schedule as [|i s IH]; intros w Hv HF; [done|]. cbn. apply IH.
  - unfold step. destruct (nodes w !! i) as [[id p]|] eqn:Hi; [|done]. pose proof (Forall_lookup_1 _ _ _ _ HF Hi) as Hp. cbn in Hp.
    subst p. rewrite Hv. cbn. by rewrite (proj2 (Z.eqb_neq _ _) Hne).
  - unfold step. destruct (nodes w !! i) as [[id p]|] eqn:Hi; [|done]. pose proof (Forall_lookup_1 _ _ _ _ HF Hi) as Hp. cbn in Hp.
    subst p. rewrite Hv. cbn. rewrite (proj2 (Z.eqb_neq _ _) Hne). by apply Forall_insert.
Qed.

(** The key has a number from an earlier run: the client arrives first, node 0 then
    erases its arrival; whatever happens next, nobody passes. *)
Theorem barrier_stale kp v schedule :
  0 < getServerNR kp -> 1 <= v < 2 ^ 63 ->
  Forall (fun p => p.2 = BWait) (nodes (run 2 (start kp (Some v) [0; 1]) ([1; 1; 1; 0; 0]%nat ++ schedule))).
Proof.
  intros Hs Hv. rewrite run_two.
  assert (Hst : start kp (Some v) [0; 1] = {| value := Some v; nodes := [(0, BSet); (1, BKey)] |}).
  { unfold start, first_call, should_initialize. cbn [fmap list_fmap]. rewrite (proj2 (Z.ltb_lt 0 _) Hs). cbn [andb Z.eqb].
    rewrite andb_false_r. by destruct (should_final_increment kp 1). }
  assert (Hrun : run 2 (start kp (Some v) [0; 1]) [1; 1; 1; 0; 0]%nat = {| value := Some 1; nodes := [(0, BWait); (1, BWait)] |}).
  { rewrite Hst. unfold run. cbn. destruct (Z.leb_spec 1 v); [done|lia]. }
  rewrite Hrun. apply (stuck 2 _ 1); [done|done|by repeat constructor].
Qed.

(** ** sum

    Every node stores its number under its id and adds up the numbers of the
    servers; [reads] gives for each server what its key holds when it is read. *)

Module Sum.
Fixpoint sum_loop (reads : list (option Z)) (ret : Z) : outcome Z :=
  match reads with
  | [] => Ret ret
  | Some v :: reads' => sum_loop reads' (u64 (ret + v))
  | None :: _ => Err Diverges
  end.

(** All reads after the own number is stored; a key that is not there is awaited. *)
Definition sum (kp : keeper) (store : gmap Z Z) (myNodeID value : Z) : outcome Z * gmap Z Z :=
  let store := <[myNodeID := u64 value]> store in
  (sum_loop ((fun i => store !! i) <$> seqZ 0 (getServerNR kp)) 0, store).
End Sum.

Lemma sum_loop_total reads ret : 0 <= ret < 2 ^ 64 ->
  Sum.sum_loop (Some <$> reads) ret = Ret (u64 (ret + sumZ (fun v => v) reads)).
Proof.
  revert ret. induction reads as [|v reads IH]; intros ret Hr; cbn [Sum.sum_loop fmap list_fmap].
  - unfold sumZ. cbn. rewrite Z.add_0_r. by rewrite u64_small.
  - rewrite IH by apply u64_range. f_equal. unfold u64, sumZ. cbn. rewrite Z.add_mod_idemp_l by done. f_equal. lia.
Qed.

(** When the other servers have stored their numbers, [sum] returns the sum of all
    in 64 bits. *)
Lemma sum_of_servers kp store my value values :
  0 <= my < getServerNR kp -> Z.of_nat (length values) = getServerNR kp -> values !! Z.to_nat my = Some (u64 value) ->
  (forall i v, values !! i = Some v -> Z.of_nat i <> my -> store !! Z.of_nat i = Some v) ->
  (Sum.sum kp store my value).1 = Ret (u64 (sumZ (fun v => v) values)).
Proof.
  intros Hmy Hl Hv Hst. unfold Sum.sum. cbn [fst].
  assert (E : (fun i => <[my := u64 value]> store !! i) <$> seqZ 0 (getServerNR kp) = Some <$> values).
  { apply list_eq. intros i. rewrite !list_lookup_fmap. destruct (decide (Z.of_nat i < getServerNR kp)) as [Hi|Hi].
    - rewrite lookup_seqZ_lt by lia. cbn [fmap option_fmap option_map]. destruct (lookup_lt_is_Some_2 values i) as [v Hiv]; [lia|].
      rewrite Hiv. cbn. f_equal. rewrite Z.add_0_l. destruct (decide (Z.of_nat i = my)) as [E|Hne].
      + rewrite E, lookup_insert_eq. rewrite <- E, Nat2Z.id in Hv. congruence.
      + rewrite lookup_insert_ne by done. by apply Hst.
    - rewrite lookup_seqZ_ge, lookup_ge_None_2 by lia. done. }
  rewrite E. by rewrite sum_loop_total, Z.add_0_l by lia.
Qed.

(** ** Witnesses *)

Lemma barrier_safe_witness :
  Forall arrived (nodes (run 2 (start {| maxServer := 2; expectedClientNR := 1 |} None [1; 0]) [0; 1; 1; 0; 0; 0; 0]%nat)).
Proof.
  apply (barrier_safe {| maxServer := 2; expectedClientNR := 1 |} [1; 0] [0; 1; 1; 0; 0; 0; 0]%nat).
  - done.
  - by apply (bool_decide_unpack (NoDup [1; 0])).
  - done.
  - cbn. by apply Exists_cons_hd.
Defined.

Lemma barrier_completes_witness :
  Forall passed (nodes (run 2 (start {| maxServer := 2; expectedClientNR := 1 |} None [1; 0]) ([0; 1]%nat ++ finish 2 1))).
Proof.
  apply (barrier_completes {| maxServer := 2; expectedClientNR := 1 |} [1; 0] [0; 1]%nat 1).
  - done.
  - by apply (bool_decide_unpack (NoDup [1; 0])).
  - done.
  - done.
Defined.

Lemma barrier_without_zero_witness :
  value (run 1 (start {| maxServer := 2; expectedClientNR := 1 |} None [1]) [0; 0; 0]%nat) = None.
Proof.
  apply (barrier_without_zero {| maxServer := 2; expectedClientNR := 1 |} 1 [1] [0; 0; 0]%nat).
  intros H. by apply list_elem_of_singleton in H.
Defined.

Lemma barrier_stale_witness :
  Forall (fun p => p.2 = BWait) (nodes (run 2 (start {| maxServer := 2; expectedClientNR := 1 |} (Some 2) [0; 1]) ([1; 1; 1; 0; 0]%nat ++ [0; 1]%nat))).
Proof. apply (barrier_stale {| maxServer := 2; expectedClientNR := 1 |} 2 [0; 1]%nat); [done|lia]. Defined.
