(* ===== verification/Connect.v ===== *)
(** * The exchange of connection data (third_party/Mayfly-main: DSMKeeper.cpp, DSMKeeper.h)

    Every node has a record of what others need to reach it; a part of the record,
    the numbers of its reliable queue pairs, depends on the node that is to be
    reached and is filled in by [setDataToRemote].  [run] of a node other than the
    first stores the record under the keys of all servers, then every node goes
    through the nodes it connects to (Keeper.v): it fills in the numbers, stores the
    record under the key of the two nodes, waits for the record of the other one,
    and connects its queue pairs to the numbers in it.  The keys are in memcached;
    a step is one call, and nodes are interleaved by a schedule.  Keys are pairs of
    ids here; the source prints both with a dash between them.

    The theorems: what a node knows of another one is always right, except for the
    queue pairs; those to the first node are right too; but the queue pairs of a
    server to a node that has stored its record beforehand can be connected to
    numbers that were never set, because the record of [run] is stored before
    [setDataToRemote]; with one client the exchange always comes to an end. *)

From stdpp Require Import base numbers list gmap.
From Stdlib Require Import ZArith Lia.
From S2P Require Import Prelude Keeper.

Module Connect.

(** What a node has: the address of its port, its memory, the keys and queue pairs
    of its threads and of its directory; [data] are the queue pairs of a thread, by
    remote node, [data2app] those of the directory, by thread and remote node. *)
Record local := Build_local {
  port : Z;
  dsmPool : Z;
  lockPool : Z;
  cachePool : Z;
  thread_rkeys : list Z;
  thread_qpns : list Z;
  dsm_rkey : Z;
  cache_rkey : Z;
  dir_qpn : Z;
  data : list (list Z);
  data2app : list (list Z)
}.

(** [ExchangeMeta], with one directory; [lid] stands for the port (lid and gid). *)
Record ExchangeMeta := Build_ExchangeMeta {
  lid : Z;
  dsmBase : Z;
  cacheBase : Z;
  lockBase : Z;
  appTh : list Z;
  dirTh_rKey : Z;
  dirTh_cacheRKey : Z;
  dirTh_lock_rkey : Z;
  appUdQpn : list Z;
  dirUdQpn : Z;
  appRcQpn2dir : list Z;
  dirRcQpn2app : list Z
}.

(** [initLocalMeta]: the queue pair numbers and the key of the lock memory keep
    what was in the memory. *)
Definition initLocalMeta (l : local) (m : ExchangeMeta) : ExchangeMeta :=
  {| lid := port l; dsmBase := dsmPool l; cacheBase := cachePool l; lockBase := lockPool l; appTh := thread_rkeys l;
     dirTh_rKey := dsm_rkey l; dirTh_cacheRKey := cache_rkey l; dirTh_lock_rkey := dirTh_lock_rkey m;
     appUdQpn := thread_qpns l; dirUdQpn := dir_qpn l; appRcQpn2dir := appRcQpn2dir m; dirRcQpn2app := dirRcQpn2app m |}.

(** The numbers of the queue pairs to the node [remoteID]. *)
Definition numbers (qps : list (list Z)) (remoteID : Z) : option (list Z) :=
  mapM (fun row : list Z => row !! Z.to_nat remoteID) qps.

Definition setDataToRemote (l : local) (m : ExchangeMeta) (remoteID : Z) : outcome ExchangeMeta :=
  dir ← deref (numbers (data2app l) remoteID);
  app ← deref (numbers (data l) remoteID);
  Ret {| lid := lid m; dsmBase := dsmBase m; cacheBase := cacheBase m; lockBase := lockBase m; appTh := appTh m;
         dirTh_rKey := dirTh_rKey m; dirTh_cacheRKey := dirTh_cacheRKey m; dirTh_lock_rkey := dirTh_lock_rkey m;
         appUdQpn := appUdQpn m; dirUdQpn := dirUdQpn m; appRcQpn2dir := app; dirRcQpn2app := dir |}.

(** What a node keeps of a remote node: [RemoteConnection], and the numbers to which
    its own queue pairs are connected; the address handles are those of [r_port]. *)
Record connection := Build_connection {
  r_port : Z;
  r_dsmBase : Z;
  r_cacheBase : Z;
  r_lockBase : Z;
  r_dsmRKey : Z;
  r_lockRKey : Z;
  r_cacheRKey : Z;
  r_dirMessageQPN : Z;
  r_appRKey : list Z;
  r_appMessageQPN : list Z;
  dir_dest : list Z;
  app_dest : list Z
}.

(** [setDataFromRemote] *)
Definition setDataFromRemote (remoteMeta : ExchangeMeta) : connection :=
  {| r_port := lid remoteMeta; r_dsmBase := dsmBase remoteMeta; r_cacheBase := cacheBase remoteMeta;
     r_lockBase := lockBase remoteMeta; r_dsmRKey := dirTh_rKey remoteMeta; r_lockRKey := dirTh_lock_rkey remoteMeta;
     r_cacheRKey := dirTh_cacheRKey remoteMeta; r_dirMessageQPN := dirUdQpn remoteMeta; r_appRKey := appTh remoteMeta;
     r_appMessageQPN := appUdQpn remoteMeta; dir_dest := appRcQpn2dir remoteMeta; app_dest := dirRcQpn2app remoteMeta |}.

(** Where a node is: it stores its record for the servers [sids]; it is before
    [setDataToRemote] of the first of the [targets]; it waits for the record of
    [target]. *)
Inductive pc := PStore (sids : list Z) (targets : list Z) | PSet (targets : list Z) | PGet (target : Z) (targets : list Z) | PDone.

#[export] Instance pc_eq_dec : EqDecision pc.
Proof. solve_decision. Defined.

Record node := Build_node { id : Z; own : local; localMeta : ExchangeMeta; at_ : pc; remoteCon : gmap Z connection }.

Definition move (n : node) (m : ExchangeMeta) (p : pc) (r : gmap Z connection) : node :=
  {| id := id n; own := own n; localMeta := m; at_ := p; remoteCon := r |}.

(** [run]: a node other than the first stores its record for the servers. *)
Definition enter (i : Z) (l : local) (memory : ExchangeMeta) (servers : Z) (targets : list Z) : node :=
  {| id := i; own := l; localMeta := initLocalMeta l memory;
     at_ := PStore (if 0 <? i then seqZ 0 servers else []) targets; remoteCon := ∅ |}.

Definition node_step (keys : gmap (Z * Z) ExchangeMeta) (n : node) : outcome (gmap (Z * Z) ExchangeMeta * node) :=
  match at_ n with
  | PStore [] targets => Ret (keys, move n (localMeta n) (PSet targets) (remoteCon n))
  | PStore (sid :: sids) targets =>
      Ret (<[(id n, sid) := localMeta n]> keys, move n (localMeta n) (PStore sids targets) (remoteCon n))
  | PSet [] =>
      m ← setDataToRemote (own n) (localMeta n) (id n);
      Ret (keys, move n m PDone (<[id n := setDataFromRemote m]> (remoteCon n)))
  | PSet (k :: targets) =>
      m ← setDataToRemote (own n) (localMeta n) k;
      Ret (<[(id n, k) := m]> keys, move n m (PGet k targets) (remoteCon n))
  | PGet k targets =>
      match keys !! (k, id n) with
      | Some m => Ret (keys, move n (localMeta n) (PSet targets) (<[k := setDataFromRemote m]> (remoteCon n)))
      | None => Ret (keys, n)
      end
  | PDone => Ret (keys, n)
  end.

Record world := Build_world { keys : gmap (Z * Z) ExchangeMeta; nodes : list node }.

Definition step (w : world) (i : nat) : outcome world :=
  match nodes w !! i with
  | Some n => '(ks, n') ← node_step (keys w) n; Ret {| keys := ks; nodes := <[i := n']> (nodes w) |}
  | None => Ret w
  end.

Fixpoint run (w : world) (schedule : list nat) : outcome world :=
  match schedule with [] => Ret w | i :: schedule' => w ← step w i; run w schedule' end.
End Connect.

Import Connect.

(** ** What is right *)

(** The part of a record that does not depend on the remote node. *)
Definition describes (l : local) (m : ExchangeMeta) : Prop :=
  lid m = port l /\ dsmBase m = dsmPool l /\ cacheBase m = cachePool l /\ lockBase m = lockPool l /\ appTh m = thread_rkeys l /\
  dirTh_rKey m = dsm_rkey l /\ dirTh_cacheRKey m = cache_rkey l /\ appUdQpn m = thread_qpns l /\ dirUdQpn m = dir_qpn l.

(** The connection reaches the memory and the threads of the node with [l]. *)
Definition reaches (l : local) (c : connection) : Prop :=
  r_port c = port l /\ r_dsmBase c = dsmPool l /\ r_dsmRKey c = dsm_rkey l /\ r_appMessageQPN c = thread_qpns l.

(** The queue pairs of the connection are connected to those that the node with
    [l] has for the node [me]. *)
Definition paired (l : local) (me : Z) (c : connection) : Prop :=
  numbers (data2app l) me = Some (app_dest c) /\ numbers (data l) me = Some (dir_dest c).

Section Exchange.

(** The resources of the nodes. *)
Context (locals : list local).

Definition local_of (k : Z) (l : local) : Prop := locals !! Z.to_nat k = Some l /\ 0 <= k.

(** Every queue pair array has an entry for every node. *)
Definition wired (l : local) : Prop :=
  Forall (fun row : list Z => length row = length locals) (data l) /\ Forall (fun row : list Z => length row = length locals) (data2app l).

Definition targets_of (p : pc) : list Z :=
  match p with PStore _ ts => ts | PSet ts => ts | PGet k ts => k :: ts | PDone => [] end.

(** In a run: the records that are stored describe their node; those of node 0
    have the queue pairs of the reader; so do the connections. *)
Record exchange_inv (w : world) : Prop := {
  ei_nodes i n : nodes w !! i = Some n ->
    id n = Z.of_nat i /\ local_of (id n) (own n) /\ wired (own n) /\ describes (own n) (localMeta n) /\
    Forall (fun k => 0 <= k < Z.of_nat (length locals) /\ k <> id n) (targets_of (at_ n)) /\
    (id n = 0 -> forall ts sids, at_ n = PStore sids ts -> sids = []);
  ei_keys a b m : keys w !! (a, b) = Some m ->
    exists l, local_of a l /\ describes l m /\ (a = 0 -> paired l b (setDataFromRemote m));
  ei_conns i n k c : nodes w !! i = Some n -> remoteCon n !! k = Some c ->
    exists l, local_of k l /\ reaches l c /\ (k = 0 \/ k = id n -> paired l (id n) c)
}.

Lemma numbers_some (qps : list (list Z)) k :
  Forall (fun row : list Z => length row = length locals) qps -> 0 <= k < Z.of_nat (length locals) -> is_Some (numbers qps k).
Proof.
  intros HF Hk. unfold numbers. apply mapM_is_Some. eapply Forall_impl; [exact HF|]. intros row Hr. cbn.
  apply lookup_lt_is_Some_2. rewrite Hr. lia.
Qed.

Lemma set_data l m k :
  wired l -> 0 <= k < Z.of_nat (length locals) -> describes l m ->
  exists m', setDataToRemote l m k = Ret m' /\ describes l m' /\ paired l k (setDataFromRemote m').
Proof.
  intros [Hd H2] Hk Hm. destruct (numbers_some _ k Hd Hk) as [app Ha]. destruct (numbers_some _ k H2 Hk) as [dir Hdr].
  unfold setDataToRemote. rewrite Ha, Hdr. cbn [deref mbind outcome_bind]. eexists. split; [done|]. by split.
Qed.

Lemma describes_reaches l m : describes l m -> reaches l (setDataFromRemote m).
Proof. unfold describes, reaches. cbn. tauto. Qed.

(** The node [i] goes on to [n']. *)
Lemma inv_move w i n ks n' :
  exchange_inv w -> nodes w !! i = Some n ->
  id n' = id n -> own n' = own n -> describes (own n) (localMeta n') ->
  (forall k, k ∈ targets_of (at_ n') -> k ∈ targets_of (at_ n)) ->
  (forall sids ts, at_ n' = PStore sids ts -> exists sids', at_ n = PStore sids' ts /\ forall s, s ∈ sids -> s ∈ sids') ->
  (forall a b m, ks !! (a, b) = Some m -> exists l, local_of a l /\ describes l m /\ (a = 0 -> paired l b (setDataFromRemote m))) ->
  (forall k c, remoteCon n' !! k = Some c -> exists l, local_of k l /\ reaches l c /\ (k = 0 \/ k = id n -> paired l (id n) c)) ->
  exchange_inv {| keys := ks; nodes := <[i := n']> (nodes w) |}.
Proof.
  intros [HN HK HC] Hi Hid How Hd Ht Hs Hks Hcs. destruct (HN i n Hi) as (H1 & H2 & H3 & _ & H5 & H6).
  constructor; cbn [keys nodes]; [| |].
  - intros j x Hj. apply list_lookup_insert_Some in Hj as [(-> & <- & _)|[_ Hj]]; [|by apply HN]. rewrite Hid, How.
    split_and!; [done|done|done|done| |].
    + apply Forall_forall. intros k Hk. rewrite Forall_forall in H5. by apply H5, Ht.
    + intros E ts sids Ha. destruct (Hs sids ts Ha) as (sids' & Ha' & Hsub). rewrite (H6 E ts sids' Ha') in Hsub.
      destruct sids as [|s sids]; [done|]. specialize (Hsub s (list_elem_of_here _ _)). by apply elem_of_nil in Hsub.
  - exact Hks.
  - intros j x k c Hj Hc. apply list_lookup_insert_Some in Hj as [(-> & <- & _)|[_ Hj]]; [|by eapply HC]. rewrite Hid. by apply Hcs.
Qed.

(** A record of node [n] that is stored. *)
Lemma inv_store w i n k m :
  exchange_inv w -> nodes w !! i = Some n -> describes (own n) m -> (id n = 0 -> paired (own n) k (setDataFromRemote m)) ->
  forall a b m', <[(id n, k) := m]> (keys w) !! (a, b) = Some m' ->
    exists l, local_of a l /\ describes l m' /\ (a = 0 -> paired l b (setDataFromRemote m')).
Proof.
  intros [HN HK _] Hi Hd Hp a b m' Hk. destruct (HN i n Hi) as (_ & H2 & _).
  apply lookup_insert_Some in Hk as [[E <-]|[_ Hk]]; [|by apply HK]. injection E as <- <-. exists (own n). by split_and!.
Qed.

Lemma step_exchange w i : exchange_inv w -> exists w', step w i = Ret w' /\ exchange_inv w'.
Proof.
  intros HI. unfold step. destruct (nodes w !! i) as [n|] eqn:Hi; [|by exists w].
  destruct (ei_nodes _ HI i n Hi) as (Hid & Hl & Hw & Hd & Ht & H0).
  assert (Hlid : 0 <= id n < Z.of_nat (length locals)) by (destruct Hl as [Hl ?]; apply lookup_lt_Some in Hl; lia).
  assert (Hcs := fun k c => ei_conns _ HI i n k c Hi). assert (Hks := ei_keys _ HI).
  unfold node_step. destruct (at_ n) as [[|sid sids] ts|[|k ts]|k ts|] eqn:Ha; cbn [mbind outcome_bind].
  - eexists. split; [done|]. apply (inv_move w i n); try done. intros x. by rewrite Ha.
  - eexists. split; [done|]. apply (inv_move w i n); try done.
    + intros x. by rewrite Ha.
    + intros s' t' E. injection E as <- <-. exists (sid :: sids). split; [done|]. intros s Hs. by apply list_elem_of_further.
    + apply (inv_store w i n); try done. intros E. by specialize (H0 E ts (sid :: sids) eq_refl).
  - destruct (set_data (own n) (localMeta n) (id n) Hw Hlid Hd) as (m' & Hm & Hd' & Hp). rewrite Hm. cbn [mbind outcome_bind].
    eexists. split; [done|]. apply (inv_move w i n); try done.
    + intros x Hx. by apply elem_of_nil in Hx.
    + intros x c Hc. cbn in Hc. apply lookup_insert_Some in Hc as [[<- <-]|[_ Hc]]; [|by apply Hcs].
      exists (own n). split_and!; [done|by apply describes_reaches|done].
  - apply Forall_cons in Ht as [[Hk _] Ht]. destruct (set_data (own n) (localMeta n) k Hw Hk Hd) as (m' & Hm & Hd' & Hp). rewrite Hm.
    cbn [mbind outcome_bind]. eexists. split; [done|]. apply (inv_move w i n); try done.
    + intros x. by rewrite Ha.
    + by apply (inv_store w i n).
  - destruct (keys w !! (k, id n)) as [m|] eqn:Hm.
    + eexists. split; [done|]. apply (inv_move w i n); try done.
      * intros x Hx. rewrite Ha. by apply list_elem_of_further.
      * intros x c Hc. cbn in Hc. apply lookup_insert_Some in Hc as [[<- <-]|[_ Hc]]; [|by apply Hcs].
        destruct (Hks k (id n) m Hm) as (l & Hll & Hdl & Hpl). exists l. split_and!; [done|by apply describes_reaches|].
        intros [E|E]; [by apply Hpl|]. apply Forall_cons in Ht as [[_ Hne] _]. done.
    + eexists. split; [done|]. rewrite list_insert_id by done. by destruct w.
  - eexists. split; [done|]. rewrite list_insert_id by done. by destruct w.
Qed.

Lemma run_exchange schedule w : exchange_inv w -> exists w', run w schedule = Ret w' /\ exchange_inv w'.
Proof.
  revert w. induction schedule as [|i schedule IH]; intros w HI; [by exists w|]. destruct (step_exchange w i HI) as (w1 & H1 & HI1).
  destruct (IH w1 HI1) as (w2 & H2 & HI2). exists w2. cbn [run]. rewrite H1. by split.
Qed.
End Exchange.

(** A node of the cluster at its start: its resources, what was in the memory of
    its record, and the nodes it connects to. *)
Notation member := (local * ExchangeMeta * list Z)%type.

Definition start (servers : Z) (cluster : list member) : world :=
  {| keys := ∅; nodes := imap (fun i x => enter (Z.of_nat i) x.1.1 x.1.2 servers x.2) cluster |}.

Definition members_ok (cluster : list member) : Prop :=
  forall i x, cluster !! i = Some x -> wired (cluster.*1.*1) x.1.1 /\
    Forall (fun k => 0 <= k < Z.of_nat (length cluster) /\ k <> Z.of_nat i) x.2.

Lemma start_exchange servers cluster : members_ok cluster -> exchange_inv (cluster.*1.*1) (start servers cluster).
Proof.
  intros Hok. constructor; cbn [start keys nodes].
  - intros i n Hi. rewrite list_lookup_imap in Hi. destruct (cluster !! i) as [[[l m] ts]|] eqn:Hx; cbn in Hi; [|discriminate Hi]. simplify_eq.
    destruct (Hok i _ Hx) as [Hw Ht]. cbn in *. split_and!; [done| |done|done| |].
    + split; [|lia]. by rewrite Nat2Z.id, !list_lookup_fmap, Hx.
    + by rewrite !length_fmap.
    + intros E ts' sids Ha. destruct (Z.ltb_spec 0 (Z.of_nat i)); [lia|]. by simplify_eq.
  - intros a b m Hm. by rewrite lookup_empty in Hm.
  - intros i n k c Hi Hc. rewrite list_lookup_imap in Hi. destruct (cluster !! i) as [x|]; cbn in Hi; [|discriminate Hi]. simplify_eq.
Qed.


(** A node that is done does nothing. *)
Lemma done_stays schedule w w' i n :
  run w schedule = Ret w' -> nodes w !! i = Some n -> at_ n = PDone -> nodes w' !! i = Some n.
Proof.
  revert w. induction schedule as [|j schedule IH]; intros w HR Hi Hd; cbn [run] in HR; [by simplify_eq|].
  destruct (step w j) as [w1|] eqn:H1; [|done]. cbn [mbind outcome_bind] in HR. apply (IH w1 HR); [|done].
  unfold step in H1. destruct (nodes w !! j) as [x|] eqn:Hj; [|by simplify_eq].
  destruct (decide (j = i)) as [->|Hne].
  - rewrite Hi in Hj. injection Hj as <-. unfold node_step in H1. rewrite Hd in H1. cbn in H1. injection H1 as <-. cbn.
    by rewrite list_insert_id.
  - destruct (node_step (keys w) x) as [[ks x']|]; [|done]. cbn in H1. injection H1 as <-. cbn. by rewrite list_lookup_insert_ne.
Qed.

Lemma run_app_connect s1 s2 w w1 : run w s1 = Ret w1 -> run w (s1 ++ s2) = run w1 s2.
Proof.
  revert w. induction s1 as [|i s1 IH]; intros w H; cbn [run app] in *; [by simplify_eq|].
  destruct (step w i) as [w0|]; [|done]. cbn [mbind outcome_bind] in *. by apply IH.
Qed.


(** ** The exchange comes to an end *)

Section Liveness.

(** Servers have the ids below [S], the client has the id [S]; [T] are the nodes to
    which the nodes connect. *)
Context (locals : list local) (S : Z) (T : Z -> list Z) (HS : Z.of_nat (length locals) = S + 1).
Context (HT_range : forall j k, 0 <= j <= S -> k ∈ T j -> 0 <= k <= S) (HT_up : forall k j, 0 <= k -> k < j -> j <= S -> j ∈ T k).

Definition published (w : world) (a b : Z) : Prop := is_Some (keys w !! (a, b)).

Definition sids_of (p : pc) : list Z := match p with PStore sids _ => sids | _ => [] end.
Definition unset_of (p : pc) : list Z := match p with PStore _ ts => ts | PSet ts => ts | PGet _ ts => ts | PDone => [] end.

(** What a node has still to store, or has stored. *)
Record booked (w : world) (n : node) : Prop := {
  bk_set k : k ∈ T (id n) -> k ∈ unset_of (at_ n) \/ published w (id n) k;
  bk_sids k : 0 < id n -> 0 <= k < S -> k ∈ sids_of (at_ n) \/ published w (id n) k;
  bk_targets k : k ∈ targets_of (at_ n) -> k ∈ T (id n)
}.

Record live_inv (w : world) : Prop := {
  lv_ex : exchange_inv locals w;
  lv_len : length (nodes w) = length locals;
  lv_booked i n : nodes w !! i = Some n -> booked w n
}.

Lemma booked_mono w w' n : booked w n -> (forall a b, published w a b -> published w' a b) -> booked w' n.
Proof.
  intros [H1 H2 H3] Hm. constructor; [| |done].
  - intros k Hk. destruct (H1 k Hk); auto.
  - intros k Hi Hk. destruct (H2 k Hi Hk); auto.
Qed.

(** One call of a node: what is stored stays, and its books stay right. *)
Lemma node_step_books w n ks n' i :
  node_step (keys w) n = Ret (ks, n') -> booked w n ->
  let w' := {| keys := ks; nodes := <[i := n']> (nodes w) |} in
  (forall a b, published w a b -> published w' a b) /\ booked w' n'.
Proof.
  intros Hst Hb w'. assert (Hgoal : id n' = id n /\ (forall a b, published w a b -> published w' a b) /\
    (forall k, k ∈ unset_of (at_ n) -> k ∈ unset_of (at_ n') \/ published w' (id n) k) /\
    (forall k, k ∈ sids_of (at_ n) -> k ∈ sids_of (at_ n') \/ published w' (id n) k) /\
    (forall k, k ∈ targets_of (at_ n') -> k ∈ targets_of (at_ n))).
  { assert (Hins : forall k m a b, is_Some (keys w !! (a, b)) -> is_Some (<[(id n, k) := m]> (keys w) !! (a, b))).
    { intros k m a b Hk. destruct (decide ((id n, k) = (a, b))) as [->|Hne]; [by rewrite lookup_insert_eq|by rewrite lookup_insert_ne]. }
    unfold published, w'. cbn [keys]. unfold node_step in Hst.
    destruct (at_ n) as [[|s sids] ts|[|k ts]|k ts|] eqn:Ha; try (destruct (setDataToRemote _ _ _); [|done]); cbn in Hst.
    5: destruct (keys w !! (k, id n)) eqn:Hk.
    all: injection Hst as <- <-; cbn [id move at_ unset_of sids_of targets_of]; rewrite ?Ha; cbn [unset_of sids_of targets_of];
      split_and!; auto; intros x Hx; try (by apply elem_of_nil in Hx); auto.
    - apply elem_of_cons in Hx as [->|Hx]; [right; by rewrite lookup_insert_eq|by left].
    - apply elem_of_cons in Hx as [->|Hx]; [right; by rewrite lookup_insert_eq|by left].
    - by apply list_elem_of_further. }
  destruct Hgoal as (Hid & Hm & H1 & H2 & H3). split; [done|]. destruct Hb as [B1 B2 B3]. constructor; rewrite Hid.
  - intros k Hk. destruct (B1 k Hk) as [Hu|Hp]; auto.
  - intros k Hi Hk. destruct (B2 k Hi Hk) as [Hu|Hp]; auto.
  - auto.
Qed.

Lemma step_live w i n :
  live_inv w -> nodes w !! i = Some n ->
  exists ks n', node_step (keys w) n = Ret (ks, n') /\
    step w i = Ret {| keys := ks; nodes := <[i := n']> (nodes w) |} /\ live_inv {| keys := ks; nodes := <[i := n']> (nodes w) |}.
Proof.
  intros [HE Hl Hb] Hi. destruct (step_exchange locals w i HE) as (w' & Hw & HE'). unfold step in *. rewrite Hi in *.
  destruct (node_step (keys w) n) as [[ks n']|] eqn:Hn; [|done]. cbn [mbind outcome_bind] in *. injection Hw as <-.
  exists ks, n'. split; [done|]. split; [done|]. destruct (node_step_books w n ks n' i Hn (Hb i n Hi)) as [Hm Hbn].
  constructor; [done|by cbn; rewrite length_insert|]. cbn [nodes]. intros j x Hj.
  apply list_lookup_insert_Some in Hj as [(-> & <- & _)|[_ Hj]]; [done|]. apply (booked_mono w); [by apply (Hb j)|done].
Qed.

Lemma run_live schedule w : live_inv w -> exists w', run w schedule = Ret w' /\ live_inv w'.
Proof.
  revert w. induction schedule as [|i schedule IH]; intros w HI; [by exists w|]. cbn [run].
  destruct (nodes w !! i) as [n|] eqn:Hi.
  - destruct (step_live w i n HI Hi) as (ks & n' & _ & -> & HI'). cbn [mbind outcome_bind]. by apply IH.
  - unfold step. rewrite Hi. cbn [mbind outcome_bind]. by apply IH.
Qed.

(** *** One node runs alone *)

Definition work (p : pc) : nat :=
  match p with
  | PStore sids ts => length sids + 2 * length ts + 2
  | PSet ts => 2 * length ts + 1
  | PGet _ ts => 2 * length ts + 2
  | PDone => 0
  end.

Definition others_same (i : nat) (w w' : world) : Prop := forall j, j <> i -> nodes w' !! j = nodes w !! j.

(** If the records of its targets are stored, a node can finish. *)
Lemma drive d w i n :
  live_inv w -> nodes w !! i = Some n -> (work (at_ n) <= d)%nat -> (forall k, k ∈ targets_of (at_ n) -> published w k (id n)) ->
  exists s w' n', run w s = Ret w' /\ live_inv w' /\ nodes w' !! i = Some n' /\ at_ n' = PDone /\ others_same i w w'.
Proof.
  revert w n. induction d as [|d IH]; intros w n HI Hi Hwk Hpub.
  all: destruct (decide (at_ n = PDone)) as [Hd|Hd]; [exists [], w, n; by split_and!|].
  - destruct (at_ n); cbn in Hwk; lia || done.
  - destruct (step_live w i n HI Hi) as (ks & n1 & Hn & Hs & HI1). set (w1 := {| keys := ks; nodes := <[i := n1]> (nodes w) |}) in *.
    destruct (node_step_books w n ks n1 i Hn (lv_booked _ HI i n Hi)) as [Hmono _]. fold w1 in Hmono.
    assert (Hi1 : nodes w1 !! i = Some n1) by (apply list_lookup_insert_eq; by eapply lookup_lt_Some).
    assert (Hprog : (work (at_ n1) <= d)%nat /\ id n1 = id n /\ forall k, k ∈ targets_of (at_ n1) -> k ∈ targets_of (at_ n)).
    { unfold node_step in Hn. destruct (at_ n) as [[|s sids] ts|[|k ts]|k ts|] eqn:Ha; try (destruct (setDataToRemote _ _ _); [|done]);
        cbn in Hn; [..|done].
      5: destruct (Hpub k (list_elem_of_here _ _)) as [m Hm]; rewrite Hm in Hn.
      all: injection Hn as <- <-; cbn [at_ id move work targets_of length] in *; split_and!; try done; try lia.
      intros x Hx. by apply list_elem_of_further. }
    destruct Hprog as (Hwk1 & Hid1 & Ht1).
    destruct (IH w1 n1 HI1 Hi1 Hwk1) as (s & w' & n' & Hr & HI' & Hi' & Hd' & Ho); [intros k Hk; rewrite Hid1; auto|].
    exists (i :: s), w', n'. split_and!; [cbn [run]; by rewrite Hs|done|done|done|].
    intros j Hj. rewrite (Ho j Hj). unfold w1. cbn. by apply list_lookup_insert_ne.
Qed.

(** A node can always store its record for the servers. *)
Lemma drive_sids d w i n :
  live_inv w -> nodes w !! i = Some n -> (length (sids_of (at_ n)) <= d)%nat ->
  exists s w' n', run w s = Ret w' /\ live_inv w' /\ nodes w' !! i = Some n' /\ sids_of (at_ n') = [] /\ others_same i w w'.
Proof.
  revert w n. induction d as [|d IH]; intros w n HI Hi Hl.
  all: destruct (sids_of (at_ n)) as [|s0 sids] eqn:Hs0; [exists [], w, n; by split_and!|].
  - cbn in Hl. lia.
  - destruct (step_live w i n HI Hi) as (ks & n1 & Hn & Hs & HI1). set (w1 := {| keys := ks; nodes := <[i := n1]> (nodes w) |}) in *.
    assert (Hi1 : nodes w1 !! i = Some n1) by (apply list_lookup_insert_eq; by eapply lookup_lt_Some).
    assert (Hs1 : sids_of (at_ n1) = sids).
    { unfold node_step in Hn. destruct (at_ n) as [sids' ts| | |]; try done. cbn in Hs0. subst sids'. cbn in Hn. by injection Hn as <- <-. }
    destruct (IH w1 n1 HI1 Hi1) as (s & w' & n' & Hr & HI' & Hi' & Hd' & Ho); [rewrite Hs1; cbn in Hl; lia|].
    exists (i :: s), w', n'. split_and!; [cbn [run]; by rewrite Hs|done|done|done|].
    intros j Hj. rewrite (Ho j Hj). unfold w1. cbn. by apply list_lookup_insert_ne.
Qed.

Definition no_sids (w : world) (m : nat) : Prop := forall j, (j < m)%nat -> exists n, nodes w !! j = Some n /\ sids_of (at_ n) = [].
Definition all_done (w : world) (m : nat) : Prop := forall j, (j < m)%nat -> exists n, nodes w !! j = Some n /\ at_ n = PDone.

Lemma run_then w s1 w1 s2 w2 : run w s1 = Ret w1 -> run w1 s2 = Ret w2 -> run w (s1 ++ s2) = Ret w2.
Proof. intros H1 H2. by rewrite (run_app_connect _ _ _ _ H1). Qed.

Lemma all_store m w :
  live_inv w -> (m <= length locals)%nat -> exists s w', run w s = Ret w' /\ live_inv w' /\ no_sids w' m.
Proof.
  intros HI. induction m as [|m IH]; intros Hm; [exists [], w; split_and!; [done|done|intros j; lia]|].
  destruct IH as (s1 & w1 & H1 & HI1 & Hn1); [lia|]. destruct (lookup_lt_is_Some_2 (nodes w1) m) as [n Hn]; [rewrite (lv_len _ HI1); lia|].
  destruct (drive_sids _ w1 m n HI1 Hn (le_n _)) as (s2 & w2 & n2 & H2 & HI2 & Hi2 & Hs2 & Ho).
  exists (s1 ++ s2), w2. split_and!; [by eapply run_then|done|]. intros j Hj. destruct (decide (j = m)) as [->|Hne]; [by exists n2|].
  rewrite Ho by done. apply Hn1. lia.
Qed.

Lemma all_finish m w :
  live_inv w -> no_sids w (length locals) -> (m <= length locals)%nat ->
  exists s w', run w s = Ret w' /\ live_inv w' /\ no_sids w' (length locals) /\ all_done w' m.
Proof.
  intros HI Hno. induction m as [|m IH]; intros Hm; [exists [], w; split_and!; [done|done|done|intros j; lia]|].
  destruct IH as (s1 & w1 & H1 & HI1 & Hno1 & Hd1); [lia|]. destruct (Hno1 m) as (n & Hn & _); [lia|].
  destruct (ei_nodes _ _ (lv_ex _ HI1) m n Hn) as (Hid & _ & _ & _ & HF & _).
  destruct (drive _ w1 m n HI1 Hn (le_n _)) as (s2 & w2 & n2 & H2 & HI2 & Hi2 & Hs2 & Ho).
  { intros k Hk. rewrite Forall_forall in HF. destruct (HF k Hk) as [_ Hne].
    pose proof (HT_range (id n) k ltac:(rewrite Hid; lia) (bk_targets _ _ (lv_booked _ HI1 m n Hn) k Hk)) as Hr.
    destruct (Hno1 (Z.to_nat k)) as (nk & Hnk & Hsk); [lia|]. destruct (ei_nodes _ _ (lv_ex _ HI1) _ nk Hnk) as (Hidk & _).
    pose proof (lv_booked _ HI1 _ nk Hnk) as Hbk. rewrite Z2Nat.id in Hidk by lia. rewrite Hid, <- Hidk in *.
    destruct (decide (id nk < Z.of_nat m)) as [Hlt|Hge].
    - destruct (Hd1 (Z.to_nat (id nk))) as (nd & Hnd & Hdone); [lia|]. assert (nd = nk) as -> by congruence.
      destruct (bk_set _ _ Hbk (Z.of_nat m)) as [Hu|Hp]; [apply HT_up; lia| |done]. rewrite Hdone in Hu. by apply elem_of_nil in Hu.
    - destruct (bk_sids _ _ Hbk (Z.of_nat m)) as [Hu|Hp]; [lia|lia| |done]. rewrite Hsk in Hu. by apply elem_of_nil in Hu. }
  exists (s1 ++ s2), w2. split_and!; [by eapply run_then|done| |].
  - intros j Hj. destruct (decide (j = m)) as [->|Hne]; [exists n2; by rewrite Hs2|]. rewrite Ho by done. by apply Hno1.
  - intros j Hj. destruct (decide (j = m)) as [->|Hne]; [by exists n2|]. rewrite Ho by done. apply Hd1. lia.
Qed.

Lemma can_finish w : live_inv w -> exists s w', run w s = Ret w' /\ live_inv w' /\ all_done w' (length locals).
Proof.
  intros HI. destruct (all_store (length locals) w HI (le_n _)) as (s1 & w1 & H1 & HI1 & Hno).
  destruct (all_finish (length locals) w1 HI1 Hno (le_n _)) as (s2 & w2 & H2 & HI2 & _ & Hd).
  exists (s1 ++ s2), w2. split_and!; [by eapply run_then|done|done].
Qed.
End Liveness.

(** The nodes to which node [i] of [servers] servers and one client connects: the
    client is not there when a server looks first, and then it is. *)
Definition connect_targets (servers i : Z) : list Z :=
  match Keeper.serverConnect (servers + 1) 1 0 i servers (if i <? servers then 0 else 1) [1] with Ret ts => ts | Err _ => [] end.

Lemma connect_targets_server servers i :
  0 <= i < servers -> servers < 2 ^ 15 -> connect_targets servers i = filter (fun k => k <> i) (seqZ 0 servers) ++ [servers].
Proof.
  intros Hi Hs. unfold connect_targets. rewrite (proj2 (Z.ltb_lt i servers)) by lia.
  pose proof (serverConnect_one_client servers i [] Hi Hs (Forall_nil_2 _)) as H. cbn [app] in H. by rewrite H.
Qed.

Lemma connect_targets_client servers :
  0 < servers -> servers < 2 ^ 15 -> connect_targets servers servers = seqZ 0 servers.
Proof.
  intros H0 Hs. unfold connect_targets, Keeper.serverConnect. rewrite Z.ltb_irrefl, (proj2 (Z.ltb_lt servers (servers + 1))), Z.sub_0_r by lia.
  rewrite late_clients_enough by lia. cbn [mbind outcome_bind]. unfold Keeper.client_targets. change (Z.of_nat (Z.to_nat 1)) with 1.
  change (seqZ 0 1) with [0]. cbn [fmap list_fmap]. replace (servers + 1 - 1) with servers by lia.
  rewrite Z.add_0_r, Z.mod_mod, Z.mod_small by lia. rewrite filter_cons_False by (intros H; by apply H). cbn [filter list_filter app].
  rewrite app_nil_r. apply list_filter_all. intros x Hx. apply elem_of_seqZ in Hx. lia.
Qed.

Lemma connect_targets_range servers i k :
  0 <= i <= servers -> 0 < servers < 2 ^ 15 -> k ∈ connect_targets servers i -> 0 <= k <= servers /\ k <> i.
Proof.
  intros Hi Hs Hk. destruct (decide (i = servers)) as [->|Hne].
  - rewrite connect_targets_client in Hk by lia. apply elem_of_seqZ in Hk. lia.
  - rewrite connect_targets_server in Hk by lia. apply elem_of_app in Hk as [Hk|Hk].
    + apply list_elem_of_filter in Hk as [Hne' Hk]. apply elem_of_seqZ in Hk. lia.
    + apply list_elem_of_singleton in Hk as ->. lia.
Qed.

Lemma connect_targets_up servers k j :
  0 < servers < 2 ^ 15 -> 0 <= k -> k < j -> j <= servers -> j ∈ connect_targets servers k.
Proof.
  intros Hs Hk Hlt Hj. rewrite connect_targets_server by lia. apply elem_of_app. destruct (decide (j = servers)) as [->|Hne].
  - right. by apply list_elem_of_singleton.
  - left. apply list_elem_of_filter. split; [lia|]. apply elem_of_seqZ. lia.
Qed.

(** The cluster of [servers] servers and a client. *)
Definition cluster_of (servers : Z) (xs : list (local * ExchangeMeta)) : list member :=
  imap (fun i x => (x, connect_targets servers (Z.of_nat i))) xs.

Lemma cluster_locals servers xs : (cluster_of servers xs).*1.*1 = xs.*1.
Proof.
  apply list_eq. intros i. rewrite !list_lookup_fmap. unfold cluster_of. rewrite list_lookup_imap. by destruct (xs !! i).
Qed.

Lemma cluster_ok servers xs :
  0 < servers < 2 ^ 15 -> Z.of_nat (length xs) = servers + 1 -> Forall (fun x => wired xs.*1 x.1) xs -> members_ok (cluster_of servers xs).
Proof.
  intros Hs Hl HF i x Hi. rewrite cluster_locals. unfold cluster_of in *. rewrite list_lookup_imap in Hi.
  destruct (xs !! i) as [y|] eqn:Hy; cbn in Hi; [|done]. simplify_eq. cbn [fst snd]. rewrite length_imap, Hl.
  pose proof (lookup_lt_Some _ _ _ Hy). split; [by apply (Forall_lookup_1 _ _ _ _ HF Hy)|]. apply Forall_forall. intros k Hk.
  apply connect_targets_range in Hk; lia.
Qed.

Lemma start_live servers xs :
  0 < servers < 2 ^ 15 -> Z.of_nat (length xs) = servers + 1 -> Forall (fun x => wired xs.*1 x.1) xs ->
  live_inv xs.*1 servers (connect_targets servers) (start servers (cluster_of servers xs)).
Proof.
  intros Hs Hl HF. pose proof (start_exchange servers _ (cluster_ok servers xs Hs Hl HF)) as HE. rewrite cluster_locals in HE.
  constructor; [done| |].
  - cbn. unfold cluster_of. by rewrite !length_imap, length_fmap.
  - intros i n Hi. cbn in Hi. unfold cluster_of in Hi. rewrite !list_lookup_imap in Hi. destruct (xs !! i) as [y|]; cbn in Hi; [|done].
    simplify_eq. constructor; cbn.
    + intros k Hk. by left.
    + intros k H0 Hk. rewrite (proj2 (Z.ltb_lt _ _)) by done. left. apply elem_of_seqZ. lia.
    + done.
Qed.


(** ** Witnesses: a server and a client *)

Definition local_a : local :=
  {| port := 1; dsmPool := 4096; lockPool := 0; cachePool := 8192; thread_rkeys := [11]; thread_qpns := [12]; dsm_rkey := 13;
     cache_rkey := 14; dir_qpn := 15; data := [[16; 17]]; data2app := [[18; 19]] |}.
Definition local_b : local :=
  {| port := 2; dsmPool := 5000; lockPool := 0; cachePool := 9000; thread_rkeys := [21]; thread_qpns := [22]; dsm_rkey := 23;
     cache_rkey := 24; dir_qpn := 25; data := [[26; 27]]; data2app := [[28; 29]] |}.
Definition unset_meta : ExchangeMeta :=
  {| lid := 0; dsmBase := 0; cacheBase := 0; lockBase := 0; appTh := []; dirTh_rKey := 0; dirTh_cacheRKey := 0; dirTh_lock_rkey := 0;
     appUdQpn := []; dirUdQpn := 0; appRcQpn2dir := [0]; dirRcQpn2app := [0] |}.

Lemma two_ok : members_ok [(local_a, unset_meta, [1]); (local_b, unset_meta, [0])].
Proof.
  intros [|[|i]] x Hx; cbn in Hx; simplify_eq; (split; [split; by repeat constructor|]); repeat constructor; cbn; lia.
Qed.


Definition after_unset : world :=
  match run (start 1 [(local_a, unset_meta, [1]); (local_b, unset_meta, [0])]) ([1; 0; 0; 0; 0]%nat ++ [1; 1; 1; 1]%nat) with
  | Ret w => w
  | Err _ => {| keys := ∅; nodes := [] |}
  end.


