(* ===== verification/ServerStart.v ===== *)
(** * The start of a server process (ps/petps_server.cc: Start, WaitForBarrier, PollingThread)

    After the constructor, main creates the polling threads, sets the flag on which
    they spin, sleeps [thread_count + 2] times one second, registers itself with the
    RDMA library and goes to the barrier.  A polling thread sees the flag, registers
    itself and polls.  A thread that registers gets the next id of the library; the
    ids that the server tells its clients are those from 0 to [thread_count - 1].

    The theorems: with at most seven polling threads no step of the start fails; if
    the polling threads have registered before main, every id that is handed out is
    that of a polling thread; if main is earlier than one of them, some id that is
    handed out is polled by no thread, and the requests sent to it are not seen. *)

From stdpp Require Import base numbers list gmap.
From Stdlib Require Import ZArith Lia.
From S2P Require Import Prelude MallocApi Epoch PetKV PetKVSpec Array Ps RawMsg Rdma MsgConn Dsm.
Import Dsm.

Module ServerStart.

(** Where main is: in the loop of [Start], before the flag, in the sleeping loop,
    before [registerThread], in the barrier, in its last loop. *)
Inductive mpc := MStart | MFlag | MSleep (wait_count : Z) | MRegister | MBarrier | MLoop.

(** Where a polling thread is: it spins, registers, polls. *)
Inductive tpc := TSpin | TRegister | TPolling.

#[export] Instance mpc_eq_dec : EqDecision mpc.
Proof. solve_decision. Defined.
#[export] Instance tpc_eq_dec : EqDecision tpc.
Proof. solve_decision. Defined.

Record world := Build_world { barrier_ready_ : bool; dsm_ : dsm; main : mpc; threads_ : list tpc }.

Section Process.

(** The system threads of the polling threads and of main, and the key of the
    memory region that each of them registers. *)
Context (selfs : list Z) (main_self : Z) (key_of : Z -> Z).

Definition thread_count : nat := length selfs.

Definition main_step (w : world) : outcome world :=
  let go p := {| barrier_ready_ := barrier_ready_ w; dsm_ := dsm_ w; main := p; threads_ := threads_ w |} in
  match main w with
  | MStart =>
      if (length (threads_ w) <? thread_count)%nat then
        Ret {| barrier_ready_ := barrier_ready_ w; dsm_ := dsm_ w; main := MStart; threads_ := threads_ w ++ [TSpin] |}
      else Ret (go MFlag)
  | MFlag => Ret {| barrier_ready_ := true; dsm_ := dsm_ w; main := MSleep 0; threads_ := threads_ w |}
  | MSleep c => Ret (go (if c <? Z.of_nat thread_count + 2 then MSleep (c + 1) else MRegister))
  | MRegister =>
      d ← registerThread (dsm_ w) main_self (key_of main_self);
      Ret {| barrier_ready_ := barrier_ready_ w; dsm_ := d; main := MBarrier; threads_ := threads_ w |}
  | MBarrier => Ret (go MLoop)
  | MLoop => Ret w
  end.

Definition thread_step (w : world) (i : nat) : outcome world :=
  match threads_ w !! i, selfs !! i with
  | Some p, Some self =>
      let go p := {| barrier_ready_ := barrier_ready_ w; dsm_ := dsm_ w; main := main w; threads_ := <[i := p]> (threads_ w) |} in
      match p with
      | TSpin => Ret (go (if barrier_ready_ w then TRegister else TSpin))
      | TRegister =>
          d ← registerThread (dsm_ w) self (key_of self);
          Ret {| barrier_ready_ := barrier_ready_ w; dsm_ := d; main := main w; threads_ := <[i := TPolling]> (threads_ w) |}
      | TPolling => Ret w
      end
  | _, _ => Ret w
  end.

(** One step of main ([None]) or of a polling thread. *)
Definition step (w : world) (who : option nat) : outcome world :=
  match who with None => main_step w | Some i => thread_step w i end.

Fixpoint run (w : world) (schedule : list (option nat)) : outcome world :=
  match schedule with
  | [] => Ret w
  | who :: schedule' => w ← step w who; run w schedule'
  end.

Definition start (d : dsm) : world := {| barrier_ready_ := false; dsm_ := d; main := MStart; threads_ := [] |}.

(** The id [k] of the library is that of a polling thread that polls. *)
Definition polled (w : world) (k : Z) : Prop :=
  exists i self, threads_ w !! i = Some TPolling /\ selfs !! i = Some self /\ getMyThreadID (dsm_ w) self = Some k.
End Process.

(** One line of the last loop of main: the counter sums before and after a second,
    and the difference in 64 bits. *)
Definition throughput (tp_sum1 tp_sum2 : Z) : Z := u64 (tp_sum2 - tp_sum1).
End ServerStart.

Import ServerStart.

Section Start.
Context (selfs : list Z) (main_self : Z) (key_of : Z -> Z) (Hnd : NoDup (main_self :: selfs)).

Notation run := (run selfs main_self key_of).
Notation step := (step selfs main_self key_of).

Definition main_registered (w : world) : Prop := main w = MBarrier \/ main w = MLoop.

(** [order]: the threads that have registered, in this order. *)
Record start_inv (order : list Z) (w : world) : Prop := {
  si_reg : registered order (dsm_ w);
  si_poll i self : selfs !! i = Some self -> self ∈ order <-> threads_ w !! i = Some TPolling;
  si_main : main_self ∈ order <-> main_registered w;
  si_only : forall s, s ∈ order -> s ∈ main_self :: selfs
}.

Lemma order_length order w : start_inv order w -> (length order <= S (length selfs))%nat.
Proof.
  intros [HR _ _ Ho]. apply (submseteq_length order (main_self :: selfs)). apply NoDup_submseteq; [apply (rg_nodup _ _ HR)|done].
Qed.

(** Registration of a thread that has not registered. *)
Lemma register_one order w self :
  start_inv order w -> self ∉ order -> self ∈ main_self :: selfs -> (length selfs <= 7)%nat ->
  exists d, registerThread (dsm_ w) self (key_of self) = Ret d /\ registered (order ++ [self]) d.
Proof.
  intros HI Hn Hin H7. pose proof (si_reg _ _ HI) as HR.
  assert (Hlt : (length order < 8)%nat).
  { enough (length (self :: order) <= S (length selfs))%nat by (cbn in *; lia).
    apply (submseteq_length _ (main_self :: selfs)). apply NoDup_submseteq.
    - constructor; [done|apply (rg_nodup _ _ HR)].
    - intros x Hx. apply elem_of_cons in Hx as [->|Hx]; [done|by apply (si_only _ _ HI)]. }
  destruct (registerThread_next order (dsm_ w) self (key_of self) HR Hn Hlt) as (d & Hd & HR' & _). by exists d.
Qed.

Lemma selfs_nodup : NoDup selfs.
Proof. exact (proj2 (proj1 (NoDup_cons _ _) Hnd)). Qed.

Lemma main_not_thread i : selfs !! i = Some main_self -> False.
Proof. intros Hi. apply (proj1 (proj1 (NoDup_cons _ _) Hnd)). by eapply list_elem_of_lookup_2. Qed.

Lemma self_in i self : selfs !! i = Some self -> self ∈ main_self :: selfs.
Proof. intros Hi. apply elem_of_cons. right. by eapply list_elem_of_lookup_2. Qed.

Lemma snoc_other (order : list Z) s x : x <> s -> x ∈ order ++ [s] <-> x ∈ order.
Proof. intros Hne. rewrite elem_of_app, list_elem_of_singleton. tauto. Qed.

(** The invariant, for worlds with the same registrations. *)
Lemma inv_same order w w' :
  start_inv order w -> dsm_ w' = dsm_ w -> (main_registered w <-> main_registered w') ->
  (forall i self, selfs !! i = Some self -> threads_ w !! i = Some TPolling <-> threads_ w' !! i = Some TPolling) ->
  start_inv order w'.
Proof.
  intros [HR Hp Hm Ho] Hd Hmr Ht. constructor; [by rewrite Hd| | |done].
  - intros i self Hi. rewrite (Hp i self Hi). by apply (Ht i self).
  - by rewrite Hm.
Qed.

Lemma main_register order w :
  start_inv order w -> (length selfs <= 7)%nat -> main w = MRegister ->
  exists w', main_step selfs main_self key_of w = Ret w' /\ start_inv (order ++ [main_self]) w'.
Proof.
  intros HI H7 Hm. unfold main_step. rewrite Hm.
  assert (Hn : main_self ∉ order) by (rewrite (si_main _ _ HI); unfold main_registered; rewrite Hm; by intros [?|?]).
  destruct (register_one order w main_self HI Hn (list_elem_of_here _ _) H7) as (d & Hd & HR). rewrite Hd. cbn.
  eexists _. split; [done|]. constructor; cbn [dsm_ threads_ main]; [done| | |].
  - intros i self Hi. rewrite snoc_other by (intros ->; by eapply main_not_thread). by apply (si_poll _ _ HI).
  - split; [intros _; by left|]. intros _. apply elem_of_app. right. by apply list_elem_of_singleton.
  - intros s Hs. apply elem_of_app in Hs as [Hs|Hs]; [by apply (si_only _ _ HI)|].
    apply list_elem_of_singleton in Hs as ->. apply list_elem_of_here.
Qed.

Lemma main_step_inv order w :
  start_inv order w -> (length selfs <= 7)%nat ->
  exists w' new, main_step selfs main_self key_of w = Ret w' /\ start_inv (order ++ new) w'.
Proof.
  intros HI H7. unfold main_step. destruct (main w) eqn:Hm.
  1: destruct (Nat.ltb_spec (length (threads_ w)) (thread_count selfs)).
  1: { eexists _, []. split; [done|]. rewrite app_nil_r. apply (inv_same order w); [done|done| |].
       - unfold main_registered. cbn. by rewrite Hm.
       - intros i self _. cbn. destruct (decide (i < length (threads_ w))%nat) as [Hl|Hl]; [by rewrite lookup_app_l|].
         rewrite lookup_app_r by lia. rewrite (lookup_ge_None_2 (threads_ w)) by lia.
         destruct (i - length (threads_ w))%nat; cbn; split; done. }
  4: { destruct (main_register order w HI H7 Hm) as (w' & Hw & HI'). exists w', [main_self]. unfold main_step in Hw. by rewrite Hm in Hw. }
  all: eexists _, []; split; [done|]; rewrite app_nil_r; apply (inv_same order w); try done; unfold main_registered; cbn; rewrite ?Hm.
  - intuition congruence.
  - intuition congruence.
  - destruct (_ <? _); intuition congruence.
  - intuition congruence.
Qed.

Lemma thread_step_inv order w i :
  start_inv order w -> (length selfs <= 7)%nat ->
  exists w' new, thread_step selfs key_of w i = Ret w' /\ start_inv (order ++ new) w'.
Proof.
  intros HI H7. unfold thread_step.
  destruct (threads_ w !! i) as [p|] eqn:Hp, (selfs !! i) as [self|] eqn:Hs; try (exists w, []; rewrite app_nil_r; by split).
  destruct p.
  - eexists _, []. split; [done|]. rewrite app_nil_r. apply (inv_same order w); try done. intros j s' _. cbn.
    rewrite list_lookup_insert_Some. pose proof (lookup_lt_Some _ _ _ Hp). destruct (decide (i = j)) as [->|Hne].
    + destruct (barrier_ready_ w); intuition congruence.
    + intuition congruence.
  - assert (Hn : self ∉ order) by (rewrite (si_poll _ _ HI i self Hs), Hp; done).
    destruct (register_one order w self HI Hn (self_in i self Hs) H7) as (d & Hd & HR). rewrite Hd. cbn.
    eexists _, [self]. split; [done|]. constructor; cbn [dsm_ threads_ main]; [done| | |].
    + intros j s' Hj. pose proof (lookup_lt_Some _ _ _ Hp). destruct (decide (i = j)) as [->|Hne].
      * rewrite list_lookup_insert_eq by done. split; [done|]. intros _. apply elem_of_app. right. apply list_elem_of_singleton. congruence.
      * rewrite list_lookup_insert_ne by done. rewrite snoc_other; [by apply (si_poll _ _ HI)|]. intros ->.
        apply Hne. by apply (NoDup_lookup _ _ _ _ selfs_nodup Hs Hj).
    + rewrite snoc_other by (intros <-; by eapply main_not_thread). apply (si_main _ _ HI).
    + intros s Hx. apply elem_of_app in Hx as [Hx|Hx]; [by apply (si_only _ _ HI)|].
      apply list_elem_of_singleton in Hx as ->. by eapply self_in.
  - exists w, []. rewrite app_nil_r. by split.
Qed.

Lemma start_step_inv order w who :
  start_inv order w -> (length selfs <= 7)%nat -> exists w' new, step w who = Ret w' /\ start_inv (order ++ new) w'.
Proof. destruct who as [i|]; [apply thread_step_inv|apply main_step_inv]. Qed.

(** Every schedule runs, and later registrations come behind the earlier ones. *)
Lemma run_inv_start schedule order w :
  start_inv order w -> (length selfs <= 7)%nat -> exists w' new, run w schedule = Ret w' /\ start_inv (order ++ new) w'.
Proof.
  revert order w. induction schedule as [|who schedule IH]; intros order w HI H7; [exists w, []; rewrite app_nil_r; by split|].
  destruct (start_step_inv order w who HI H7) as (w1 & new1 & H1 & HI1). destruct (IH _ w1 HI1 H7) as (w2 & new2 & H2 & HI2).
  exists w2, (new1 ++ new2). cbn [ServerStart.run]. rewrite H1. cbn [mbind outcome_bind]. split; [done|]. by rewrite app_assoc.
Qed.

Lemma start_start_inv d : registered [] d -> start_inv [] (start d).
Proof.
  intros HR. constructor; [done| | |].
  - intros i self _. cbn. split; [by intros ?%elem_of_nil|done].
  - split; [by intros ?%elem_of_nil|by intros [?|?]].
  - by intros s ?%elem_of_nil.
Qed.

Lemma order_id order w i s : start_inv order w -> order !! i = Some s -> getMyThreadID (dsm_ w) s = Some (Z.of_nat i).
Proof. intros HI Hi. unfold getMyThreadID. by rewrite (rg_tls _ _ (si_reg _ _ HI) i s Hi). Qed.

(** When all polling threads poll and main has not registered, the ids from 0 are
    theirs, and stay so. *)
Lemma all_polled order w new w' k :
  start_inv order w -> threads_ w = replicate (length selfs) TPolling -> ~ main_registered w ->
  start_inv (order ++ new) w' -> 0 <= k < Z.of_nat (length selfs) -> polled selfs w' k.
Proof.
  intros HI Ht Hm HI' Hk.
  assert (Hall : forall s, s ∈ selfs -> s ∈ order).
  { intros s Hs. apply list_elem_of_lookup in Hs as [i Hi]. apply (si_poll _ _ HI i s Hi). rewrite Ht.
    apply lookup_replicate_2. by eapply lookup_lt_Some. }
  assert (Hlen : (length selfs <= length order)%nat).
  { apply submseteq_length, NoDup_submseteq; [exact selfs_nodup|done]. }
  destruct (lookup_lt_is_Some_2 order (Z.to_nat k)) as [s Hs]; [lia|].
  assert (Hin : s ∈ selfs).
  { assert (Hs' : s ∈ order) by (by eapply list_elem_of_lookup_2).
    pose proof (si_only _ _ HI s Hs') as Ho. apply elem_of_cons in Ho as [->|Ho]; [|done].
    by apply (si_main _ _ HI) in Hs'. }
  apply list_elem_of_lookup in Hin as [i Hi]. exists i, s.
  assert (Hord : (order ++ new) !! Z.to_nat k = Some s) by (by apply lookup_app_l_Some).
  split_and!; [|done|].
  - apply (si_poll _ _ HI' i s Hi). by eapply list_elem_of_lookup_2.
  - rewrite (order_id _ w' _ s HI' Hord). f_equal. lia.
Qed.

(** The id of main is the number of those who were earlier; it stays, and nobody
    polls it. *)
Lemma main_id_unpolled order w new w' k :
  start_inv order w -> order !! k = Some main_self -> start_inv (order ++ new) w' -> ~ polled selfs w' (Z.of_nat k).
Proof.
  intros HI Hk HI' (i & s & _ & Hs & Hid). assert (Hmk : (order ++ new) !! k = Some main_self) by (by apply lookup_app_l_Some).
  assert (Hin : s ∈ order ++ new).
  { destruct (decide (s ∈ order ++ new)) as [|Hn]; [done|]. unfold getMyThreadID in Hid.
    by rewrite (rg_none _ _ (si_reg _ _ HI') s Hn) in Hid. }
  apply list_elem_of_lookup in Hin as [j Hj]. rewrite (order_id _ w' j s HI' Hj) in Hid. injection Hid as Hid.
  assert (j = k) as -> by lia. rewrite Hmk in Hj. injection Hj as Hj. rewrite <- Hj in Hs. by eapply main_not_thread.
Qed.
End Start.

(** [C32] With at most seven polling threads the start of the server never fails.  If all
    of them have registered before main, then at any later time each of the two ids
    that GET_SERVER_THREADIDS answers is that of a thread that polls. *)
Theorem handed_out_ids_polled {K} selfs main_self key_of d s1 s2 w1 w2 (s s' : Server.server K) recv op :
  NoDup (main_self :: selfs) -> (0 < length selfs <= 7)%nat -> registered [] d ->
  run selfs main_self key_of (start d) s1 = Ret w1 -> threads_ w1 = replicate (length selfs) TPolling ->
  ~ main_registered w1 -> run selfs main_self key_of w1 s2 = Ret w2 ->
  Server.thread_count_ s = Z.of_nat (length selfs) -> 0 <= Server.serving_thread_id s < 2 ^ 31 - 1 ->
  Server.RpcGetServerServingThreadIDs s recv = Ret (s', op) ->
  exists a b, op = Ps.rpc_call (node_id recv) (t_id recv) [a; b] /\ polled selfs w2 a /\ polled selfs w2 b.
Proof.
  intros Hnd Hlen HR H1 Ht Hm H2 Hc Hs HG.
  destruct (run_inv_start selfs main_self key_of Hnd s1 [] (start d) (start_start_inv selfs main_self d HR) ltac:(lia)) as (w1' & o1 & E1 & HI1).
  rewrite H1 in E1. injection E1 as <-.
  destruct (run_inv_start selfs main_self key_of Hnd s2 _ w1 HI1 ltac:(lia)) as (w2' & o2 & E2 & HI2). rewrite H2 in E2. injection E2 as <-.
  unfold Server.RpcGetServerServingThreadIDs in HG. destruct (m_type recv); try done. cbn [CHECK mbind outcome_bind] in HG.
  rewrite Hc, (proj2 (Z.eqb_neq _ _)) in HG by lia. injection HG as _ <-. rewrite i32_small by lia.
  eexists _, _. split; [done|]. split; apply (all_polled selfs main_self Hnd ([] ++ o1) w1 o2 w2); try done; apply Z.rem_bound_pos; lia.
Qed.

(** If main registers while a polling thread has not, then for ever after some id
    that the server hands out is polled by nobody. *)
Theorem early_main_id_unpolled selfs main_self key_of d s1 w1 i :
  NoDup (main_self :: selfs) -> (length selfs <= 7)%nat -> registered [] d ->
  run selfs main_self key_of (start d) s1 = Ret w1 -> main w1 = MRegister -> (i < length selfs)%nat ->
  threads_ w1 !! i <> Some TPolling ->
  exists k, 0 <= k < Z.of_nat (length selfs) /\
    forall s2 w2, run selfs main_self key_of w1 (None :: s2) = Ret w2 -> ~ polled selfs w2 k.
Proof.
  intros Hnd H7 HR H1 Hm Hi Ht.
  destruct (run_inv_start selfs main_self key_of Hnd s1 [] (start d) (start_start_inv selfs main_self d HR) H7) as (w1' & o1 & E1 & HI1).
  rewrite H1 in E1. injection E1 as <-. cbn [app] in HI1.
  assert (Hn : main_self ∉ o1) by (rewrite (si_main _ _ _ _ HI1); unfold main_registered; rewrite Hm; by intros [?|?]).
  destruct (lookup_lt_is_Some_2 selfs i Hi) as [s Hs].
  assert (Hso : s ∉ o1) by (by rewrite (si_poll _ _ _ _ HI1 i s Hs)).
  assert (Hlt : (length o1 < length selfs)%nat).
  { enough (length (s :: o1) <= length selfs)%nat by (cbn in *; lia). apply submseteq_length, NoDup_submseteq.
    - constructor; [done|apply (rg_nodup _ _ (si_reg _ _ _ _ HI1))].
    - intros x Hx. apply elem_of_cons in Hx as [->|Hx]; [by eapply list_elem_of_lookup_2|].
      pose proof (si_only _ _ _ _ HI1 x Hx) as Ho. apply elem_of_cons in Ho as [->|Ho]; done. }
  exists (Z.of_nat (length o1)). split; [lia|]. intros s2 w2 H2. cbn [run step] in H2.
  destruct (main_register selfs main_self key_of Hnd o1 w1 HI1 H7 Hm) as (w & Hw & HI).
  rewrite Hw in H2. cbn [mbind outcome_bind] in H2.
  destruct (run_inv_start selfs main_self key_of Hnd s2 _ w HI H7) as (w2' & o2 & E2 & HI2). rewrite H2 in E2. injection E2 as <-.
  apply (main_id_unpolled selfs main_self Hnd (o1 ++ [main_self]) w o2 w2); [done| |done].
  by rewrite lookup_app_r, Nat.sub_diag by lia.
Qed.

(** ** Witnesses: two polling threads *)

Definition small_thread : ThreadConnection :=
  {| message := {| MsgConn.messageNR := 4; MsgConn.messagePool := 0; MsgConn.curMessage := 0; MsgConn.curSend := 0;
                   MsgConn.subNR := 0; MsgConn.posted := []; MsgConn.sendCounter := 0; MsgConn.polled := 0 |};
     messageLkey := 1; cacheLKey := 2; globalMemLkey := 0 |}.

Definition small_dsm : dsm :=
  {| myNodeID := 0; baseAddr := 2 ^ 40; dsmSize := 100 * MB; is_client := false; appID := 0; cache_data := 2 ^ 41;
     cache_size := 16 * MB; thCon := replicate 8 small_thread; remoteInfo := []; regions := ∅; tls := ∅ |}.

Lemma small_dsm_registered : registered [] small_dsm.
Proof. constructor; [done|done|constructor|done|done]. Qed.

Definition world_after (s : list (option nat)) : world :=
  match run [11; 12] 10 (fun s => s) (start small_dsm) s with Ret w => w | Err _ => start small_dsm end.

(** main creates the threads and sets the flag, the second thread registers first. *)
Definition threads_first : list (option nat) := [None; None; None; None; Some 1%nat; Some 0%nat; Some 1%nat; Some 0%nat].

(** main sleeps four times, and both threads are slower. *)
Definition main_first : list (option nat) := replicate 9 None.

Definition ids_server : Server.server unit :=
  {| Server.base_kv_ := tt; Server.thread_count_ := 2; Server.tp := []; Server.epoch_manager_ := Epoch.make 0; Server.serving_thread_id := 6 |}.

Lemma handed_out_ids_polled_witness :
  exists a b, Ps.rpc_call 3 0 [0; 1] = Ps.rpc_call 3 0 [a; b] /\ polled [11; 12] (world_after (threads_first ++ replicate 7 None)) a /\
    polled [11; 12] (world_after (threads_first ++ replicate 7 None)) b.
Proof.
  apply (handed_out_ids_polled [11; 12] 10 (fun s => s) small_dsm threads_first (replicate 7 None) (world_after threads_first)
           (world_after (threads_first ++ replicate 7 None)) ids_server
           {| Server.base_kv_ := tt; Server.thread_count_ := 2; Server.tp := []; Server.epoch_manager_ := Epoch.make 0; Server.serving_thread_id := 8 |}
           {| m_type := GET_SERVER_THREADIDS; node_id := 3; t_id := 0; receive_gaddr := 0; extra_data := [] |}).
  - by apply (bool_decide_unpack (NoDup [10; 11; 12])).
  - cbn. lia.
  - exact small_dsm_registered.
  - vm_compute. reflexivity.
  - vm_compute. reflexivity.
  - intros [H|H]; vm_compute in H; discriminate H.
  - vm_compute. reflexivity.
  - reflexivity.
  - cbn. lia.
  - reflexivity.
Defined.

Lemma early_main_id_unpolled_witness :
  exists k, 0 <= k < 2 /\
    forall s2 w2, run [11; 12] 10 (fun s => s) (world_after main_first) (None :: s2) = Ret w2 -> ~ polled [11; 12] w2 k.
Proof.
  apply (early_main_id_unpolled [11; 12] 10 (fun s => s) small_dsm main_first (world_after main_first) 0).
  - by apply (bool_decide_unpack (NoDup [10; 11; 12])).
  - cbn. lia.
  - exact small_dsm_registered.
  - vm_compute. reflexivity.
  - vm_compute. reflexivity.
  - cbn. lia.
  - vm_compute. discriminate.
Defined.
