(* ===== verification/BenchRun.v ===== *)
(** * The run of the benchmark client (benchmark/benchmark_client_common.h, Run)

    main starts the client threads, waits until all of them have set their counter
    to 0, goes through the barrier of the clients, sets the start flag, and prints a
    line per second with the number of requests that were finished.  After
    [benchmark_seconds] it sets the stop flags and joins the threads; with thread
    cut-off it stops two threads every 30 seconds, pauses the others, and clears the
    counters.  A thread spins on the start flag; then, until its stop flag is set, it
    goes through its requests (BenchClient.v) and counts those that are finished.

    Counters and flags are shared; a step is one access to them.  A schedule says
    who is next, and gives a bit: for a thread, whether the request that it polls is
    finished; for main, whether a barrier lets it pass (Barrier.v).

    The theorems: no step fails; the printed numbers add up to the last sum of the
    counters; without cut-off the run can always come to its end, with all threads
    returned and one line per second; with cut-off a cleared counter can come back. *)

From stdpp Require Import base numbers list.
From Stdlib Require Import ZArith Lia.
From S2P Require Import Prelude.

Module BenchRun.

Record Flags := Build_Flags { thread_count : nat; async_req_num : nat; thread_cut_off : bool; benchmark_seconds : Z }.

Record shared := Build_shared { tp : list Z; start_flag_ : bool; stop_flags_ : list bool; pause_flags_ : bool }.

(** Where a thread is: before it marks itself ready; spinning; at the test of its
    stop flag; at the test of the pause flag; with [rest] requests to look at; about
    to store its counter, which was [v]; returned. *)
Inductive tpc := TBoot | TSpin | TTop | TPause | TRound (rest : nat) | TAdd (v : Z) (rest : nat) | TExit.

(** Where main is: it waits for thread [i]; before the barrier; before the start
    flag; before the second it sleeps; adding up the counters; before it prints;
    taking threads from the list; before it sets the pause flag; in the barrier of the
    pause; clearing the counters; at the end of the loop; setting the stop flags;
    joining the threads. *)
Inductive mpc :=
  | MReady (i : nat) | MBarrier | MStart | MSleep | MSum (i : nat) (all_tp : Z) | MPrint (all_tp : Z) | MStop (i : nat)
  | MPause | MPauseBarrier | MReset (i : nat) | MEnd | MStopAll (i : nat) | MJoin (i : nat) | MDone.

#[export] Instance tpc_eq_dec : EqDecision tpc.
Proof. solve_decision. Defined.
#[export] Instance mpc_eq_dec : EqDecision mpc.
Proof. solve_decision. Defined.

Record world := Build_world {
  sh : shared;
  main : mpc;
  pre_tp : Z;
  running_seconds : Z;
  stop_thread_id_orders : list nat;
  lines : list Z;
  threads : list tpc
}.

Definition with_tp (s : shared) (i : nat) (v : Z) : shared :=
  {| tp := <[i := v]> (tp s); start_flag_ := start_flag_ s; stop_flags_ := stop_flags_ s; pause_flags_ := pause_flags_ s |}.
Definition with_stop (s : shared) (i : nat) : shared :=
  {| tp := tp s; start_flag_ := start_flag_ s; stop_flags_ := <[i := true]> (stop_flags_ s); pause_flags_ := pause_flags_ s |}.
Definition with_pause (s : shared) (b : bool) : shared :=
  {| tp := tp s; start_flag_ := start_flag_ s; stop_flags_ := stop_flags_ s; pause_flags_ := b |}.
Definition with_start (s : shared) : shared :=
  {| tp := tp s; start_flag_ := true; stop_flags_ := stop_flags_ s; pause_flags_ := pause_flags_ s |}.

Definition kMaxThread : nat := 64.

(** The constructor, and Run up to the creation of the threads. *)
Definition start (f : Flags) : outcome world :=
  _ ← CHECK (thread_count f <=? kMaxThread)%nat;
  Ret {| sh := {| tp := replicate kMaxThread (2 ^ 64 - 1); start_flag_ := false;
                  stop_flags_ := replicate (thread_count f) false; pause_flags_ := false |};
         main := MReady 0; pre_tp := 0; running_seconds := 0; stop_thread_id_orders := seq 0 (thread_count f);
         lines := []; threads := replicate (thread_count f) TBoot |}.

Section Run.
Context (f : Flags).

Definition thread_step (s : shared) (tid : nat) (p : tpc) (finished : bool) : outcome (shared * tpc) :=
  match p with
  | TBoot => Ret (with_tp s tid 0, TSpin)
  | TSpin => Ret (s, if start_flag_ s then TTop else TSpin)
  | TTop => b ← deref (stop_flags_ s !! tid); Ret (s, if (b : bool) then TExit else TPause)
  | TPause => Ret (s, if pause_flags_ s then TPause else TRound (async_req_num f))
  | TRound O => Ret (s, TTop)
  | TRound (S rest) => if finished then v ← deref (tp s !! tid); Ret (s, TAdd v rest) else Ret (s, TRound rest)
  | TAdd v rest => Ret (with_tp s tid (u64 (v + 1)), TRound rest)
  | TExit => Ret (s, TExit)
  end.

Definition go (w : world) (s : shared) (p : mpc) : world :=
  {| sh := s; main := p; pre_tp := pre_tp w; running_seconds := running_seconds w;
     stop_thread_id_orders := stop_thread_id_orders w; lines := lines w; threads := threads w |}.

(** The stride of the cut-off is 2. *)
Definition main_step (w : world) (pass : bool) : outcome world :=
  let s := sh w in
  match main w with
  | MReady i =>
      if (i <? thread_count f)%nat then
        v ← deref (tp s !! i);
        Ret (go w s (if v =? 0 then MReady (S i) else MReady i))
      else Ret (go w s MBarrier)
  | MBarrier => Ret (go w s (if pass then MStart else MBarrier))
  | MStart => Ret (go w (with_start s) MSleep)
  | MSleep => Ret (go w s (MSum 0 0))
  | MSum i all_tp =>
      if (i <? thread_count f)%nat then
        v ← deref (tp s !! i);
        Ret (go w s (MSum (S i) (u64 (all_tp + v))))
      else Ret (go w s (MPrint all_tp))
  | MPrint all_tp =>
      let secs := running_seconds w + 1 in
      Ret {| sh := s; main := if thread_cut_off f && (secs mod 30 =? 0) then MStop 0 else MEnd; pre_tp := all_tp;
             running_seconds := secs; stop_thread_id_orders := stop_thread_id_orders w;
             lines := lines w ++ [u64 (all_tp - pre_tp w)]; threads := threads w |}
  | MStop i =>
      if (i <? 2)%nat then
        stop_tid ← deref (last (stop_thread_id_orders w));
        let orders := removelast (stop_thread_id_orders w) in
        Ret {| sh := with_stop s stop_tid; main := if (length orders =? 0)%nat then MJoin 0 else MStop (S i);
               pre_tp := pre_tp w; running_seconds := running_seconds w; stop_thread_id_orders := orders; lines := lines w;
               threads := threads w |}
      else Ret (go w s MPause)
  | MPause => Ret (go w (with_pause s true) MPauseBarrier)
  | MPauseBarrier => Ret (go w s (if pass then MReset 0 else MPauseBarrier))
  | MReset i =>
      if (i <? thread_count f)%nat then Ret (go w (with_tp s i 0) (MReset (S i)))
      else
        Ret {| sh := with_pause s false; main := MEnd; pre_tp := 0; running_seconds := running_seconds w;
               stop_thread_id_orders := stop_thread_id_orders w; lines := lines w; threads := threads w |}
  | MEnd =>
      Ret (go w s (if negb (thread_cut_off f) && (benchmark_seconds f <=? running_seconds w) then MStopAll 0 else MSleep))
  | MStopAll i =>
      if (i <? thread_count f)%nat then Ret (go w (with_stop s i) (MStopAll (S i))) else Ret (go w s (MJoin 0))
  | MJoin i =>
      if (i <? thread_count f)%nat then
        p ← deref (threads w !! i);
        Ret (go w s (if decide (p = TExit) then MJoin (S i) else MJoin i))
      else Ret (go w s MDone)
  | MDone => Ret w
  end.

(** [None] is main. *)
Definition step (w : world) (who : option nat * bool) : outcome world :=
  match who.1 with
  | None => main_step w who.2
  | Some i =>
      match threads w !! i with
      | Some p =>
          '(s, p') ← thread_step (sh w) i p who.2;
          Ret {| sh := s; main := main w; pre_tp := pre_tp w; running_seconds := running_seconds w;
                 stop_thread_id_orders := stop_thread_id_orders w; lines := lines w; threads := <[i := p']> (threads w) |}
      | None => Ret w
      end
  end.

Fixpoint run (w : world) (schedule : list (option nat * bool)) : outcome world :=
  match schedule with [] => Ret w | who :: schedule' => w ← step w who; run w schedule' end.
End Run.
End BenchRun.

Import BenchRun.

Section Runs.
Context (f : Flags).

Notation n := (thread_count f).
Notation step := (step f).
Notation run := (run f).

(** Main has not set the start flag. *)
Definition early (p : mpc) : Prop := match p with MReady _ | MBarrier | MStart => True | _ => False end.

Definition stopping (p : mpc) (i : nat) : Prop :=
  match p with MStopAll k => (i < k)%nat | MJoin _ | MDone => thread_cut_off f = false | _ => False end.

(** At [MStop] there is a thread to take. *)
Definition orders_ok (p : mpc) (orders : list nat) : Prop :=
  match p with MJoin _ | MDone | MStopAll _ => True | _ => orders <> [] end.

Record bench_ok (w : world) : Prop := {
  ro_n : (0 < n <= kMaxThread)%nat;
  ro_tp : length (tp (sh w)) = kMaxThread;
  ro_stops : length (stop_flags_ (sh w)) = n;
  ro_threads : length (threads w) = n;
  ro_orders : Forall (fun i => (i < n)%nat) (stop_thread_id_orders w) /\ orders_ok (main w) (stop_thread_id_orders w);
  ro_start : start_flag_ (sh w) = false <-> early (main w);
  ro_early i p : early (main w) -> threads w !! i = Some p -> p = TBoot \/ p = TSpin /\ tp (sh w) !! i = Some 0
}.

Lemma start_run_ok w : (0 < n)%nat -> start f = Ret w -> bench_ok w.
Proof.
  intros Hn Hs. unfold start in Hs. destruct (Nat.leb_spec n kMaxThread) as [Hle|]; [|done]. cbn in Hs. injection Hs as <-.
  constructor; cbn [sh tp stop_flags_ threads stop_thread_id_orders main start_flag_]; rewrite ?length_replicate; try done.
  - split; [apply Forall_seq; lia|]. cbn. by destruct n; [lia|].
  - intros i p _ Hp. apply lookup_replicate in Hp as [-> _]. by left.
Qed.

Lemma client_step_ok s tid p b :
  length (tp s) = kMaxThread -> (tid < length (stop_flags_ s))%nat -> (tid < kMaxThread)%nat ->
  exists s' p', thread_step f s tid p b = Ret (s', p') /\ length (tp s') = kMaxThread /\ stop_flags_ s' = stop_flags_ s /\
    start_flag_ s' = start_flag_ s /\ pause_flags_ s' = pause_flags_ s /\ (forall j, j <> tid -> tp s' !! j = tp s !! j).
Proof.
  intros Hl Ht Hk. destruct (lookup_lt_is_Some_2 (stop_flags_ s) tid Ht) as [st Hst].
  destruct (lookup_lt_is_Some_2 (tp s) tid) as [v Hv]; [lia|].
  destruct p as [| | | |[|rest]|v0 rest|]; cbn [thread_step]; rewrite ?Hst; cbn [deref mbind outcome_bind].
  6: destruct b; [rewrite Hv; cbn [deref mbind outcome_bind]|].
  all: eexists _, _; split; [done|]; cbn [with_tp tp stop_flags_ start_flag_ pause_flags_]; split_and!; rewrite ?length_insert; try done.
  all: intros j Hj; by rewrite list_lookup_insert_ne.
Qed.

Lemma step_thread_ok w i b : bench_ok w -> exists w', step w (Some i, b) = Ret w' /\ bench_ok w'.
Proof.
  intros [Hn Ht Hs Hth Ho Hst He]. unfold BenchRun.step. cbn [fst snd]. destruct (threads w !! i) as [p|] eqn:Hp; [|by exists w].
  pose proof (lookup_lt_Some _ _ _ Hp) as Hi.
  destruct (client_step_ok (sh w) i p b Ht ltac:(lia) ltac:(unfold kMaxThread in *; lia)) as (s' & p' & HT & Hl' & Hs' & Hst' & _ & Hoth).
  rewrite HT. cbn [mbind outcome_bind]. eexists. split; [done|].
  constructor; cbn [sh main threads stop_thread_id_orders]; rewrite ?Hs', ?Hst', ?length_insert; try done.
  intros j q Hm Hj. apply list_lookup_insert_Some in Hj as [(-> & <- & _)|[Hne Hj]].
  - assert (Hsf : start_flag_ (sh w) = false) by (by apply Hst).
    destruct (He j p Hm Hp) as [->|[-> Hz]]; cbn [thread_step] in HT.
    + injection HT as <- <-. right. split; [done|]. cbn. apply list_lookup_insert_eq. unfold kMaxThread in *. lia.
    + injection HT as <- <-. rewrite Hsf. by right.
  - destruct (He j q Hm Hj) as [->|[-> Hz]]; [by left|right]. split; [done|]. by rewrite Hoth.
Qed.

Lemma last_removelast (l : list nat) x : last l = Some x -> l = removelast l ++ [x].
Proof.
  intros H. destruct l as [|y l] using rev_ind; [done|]. rewrite last_snoc in H. injection H as ->. by rewrite removelast_last.
Qed.

(** What main must keep. *)
Lemma inv_main w w' :
  bench_ok w -> threads w' = threads w -> length (tp (sh w')) = length (tp (sh w)) ->
  length (stop_flags_ (sh w')) = length (stop_flags_ (sh w)) ->
  Forall (fun i => (i < n)%nat) (stop_thread_id_orders w') -> orders_ok (main w') (stop_thread_id_orders w') ->
  (start_flag_ (sh w') = false <-> early (main w')) -> (early (main w') -> early (main w) /\ tp (sh w') = tp (sh w)) -> bench_ok w'.
Proof.
  intros [Hn Ht Hs Hth Ho Hst He] E1 E2 E3 H1 H2 H3 H4. constructor; rewrite ?E1, ?E2, ?E3; try done.
  intros i p Hm Hp. destruct (H4 Hm) as [Hm' ->]. by apply He.
Qed.

Lemma step_main_ok w b : bench_ok w -> exists w', step w (None, b) = Ret w' /\ bench_ok w'.
Proof.
  intros HI. pose proof HI as [Hn Ht Hs Hth [Ho1 Ho2] Hst He]. unfold BenchRun.step, main_step. cbn [fst snd].
  destruct (main w) as [i| | | |i a|a|i| | |i| |i|i|] eqn:Hm; cbn [orders_ok early] in Ho2, Hst.
  1: destruct (Nat.ltb_spec i n); [destruct (lookup_lt_is_Some_2 (tp (sh w)) i) as [v Hv]; [unfold kMaxThread in *; lia|];
       rewrite Hv; cbn [deref mbind outcome_bind]; destruct (v =? 0)|].
  7: destruct (Nat.ltb_spec i n); [destruct (lookup_lt_is_Some_2 (tp (sh w)) i) as [v Hv]; [unfold kMaxThread in *; lia|];
       rewrite Hv; cbn [deref mbind outcome_bind]|].
  10: destruct (Nat.ltb_spec i 2); [destruct (last (stop_thread_id_orders w)) as [t|] eqn:Hl;
        [|by apply last_None in Hl]; cbn [deref mbind outcome_bind]|].
  14: destruct (Nat.ltb_spec i n).
  17: destruct (Nat.ltb_spec i n).
  19: destruct (Nat.ltb_spec i n); [destruct (lookup_lt_is_Some_2 (threads w) i) as [p Hp]; [lia|];
       rewrite Hp; cbn [deref mbind outcome_bind]; destruct (decide (p = TExit))|].
  all: eexists; (split; [done|]); apply (inv_main w); try done; cbn [go sh main threads stop_thread_id_orders]; rewrite ?Hm; try done.
  all: cbn [with_stop with_tp stop_flags_ tp start_flag_] in *; try apply length_insert; try (case_match; done).
  - apply last_removelast in Hl. rewrite Hl in Ho1. by apply Forall_app in Ho1 as [Ho1 _].
  - destruct (Nat.eqb_spec (length (removelast (stop_thread_id_orders w))) 0) as [E|E]; [done|]. intros Hnil. by rewrite Hnil in E.
Qed.

Lemma step_run_ok w who : bench_ok w -> exists w', step w who = Ret w' /\ bench_ok w'.
Proof. destruct who as [[i|] b]; [apply step_thread_ok|apply step_main_ok]. Qed.

Lemma run_run_ok schedule w : bench_ok w -> exists w', run w schedule = Ret w' /\ bench_ok w'.
Proof.
  revert w. induction schedule as [|who schedule IH]; intros w HI; [by exists w|]. destruct (step_run_ok w who HI) as (w1 & H1 & HI1).
  destruct (IH w1 HI1) as (w2 & H2 & HI2). exists w2. cbn [BenchRun.run]. rewrite H1. by split.
Qed.

(** *** Without cut-off *)

Context (Hcut : thread_cut_off f = false).

Record plain_ok (w : world) : Prop := {
  po_ok : bench_ok w;
  po_pause : pause_flags_ (sh w) = false;
  po_main : match main w with MStop _ | MPause | MPauseBarrier | MReset _ => False | _ => True end;
  po_stop i : (i < n)%nat -> stopping (main w) i -> stop_flags_ (sh w) !! i = Some true;
  po_join i : match main w with MJoin k => (i < k)%nat | MDone => (i < n)%nat | _ => False end -> threads w !! i = Some TExit;
  po_lines : Z.of_nat (length (lines w)) = running_seconds w;
  po_sum : u64 (sumZ (fun x => x) (lines w)) = pre_tp w;
  po_secs : match main w with
            | MStopAll _ | MJoin _ | MDone => running_seconds w = benchmark_seconds f
            | MEnd => running_seconds w <= benchmark_seconds f
            | _ => running_seconds w < benchmark_seconds f
            end;
  po_acc : match main w with MSum _ a | MPrint a => 0 <= a < 2 ^ 64 | _ => True end
}.

Lemma start_plain w : (0 < n)%nat -> 0 < benchmark_seconds f -> start f = Ret w -> plain_ok w.
Proof.
  intros Hn Hb Hs. pose proof (start_run_ok w Hn Hs) as HI. unfold start in Hs. destruct (n <=? kMaxThread)%nat; [|done].
  cbn in Hs. injection Hs as <-. by constructor.
Qed.

Lemma thread_plain w i b w' : plain_ok w -> step w (Some i, b) = Ret w' -> plain_ok w'.
Proof.
  intros HP Hst. pose proof HP as [HI H1 H2 H3 H4 H5 H6 H7 H8]. destruct (step_thread_ok w i b HI) as (w0 & Hw & HI').
  rewrite Hst in Hw. injection Hw as <-. unfold BenchRun.step in Hst. cbn [fst snd] in Hst.
  destruct (threads w !! i) as [p|] eqn:Hp; [|by injection Hst as <-].
  pose proof (lookup_lt_Some _ _ _ Hp) as Hi. rewrite (ro_threads _ HI) in Hi. pose proof (ro_n _ HI) as Hn.
  destruct (client_step_ok (sh w) i p b (ro_tp _ HI) ltac:(rewrite (ro_stops _ HI); lia) ltac:(lia)) as (s' & p' & HT & _ & Hs' & _ & Hp' & _).
  rewrite HT in Hst. cbn in Hst. injection Hst as <-. constructor; cbn [sh main lines running_seconds pre_tp threads]; try done.
  - by rewrite Hp'.
  - rewrite Hs'. done.
  - intros j Hj. specialize (H4 j Hj). destruct (decide (i = j)) as [->|Hne]; [|by rewrite list_lookup_insert_ne].
    rewrite Hp in H4. injection H4 as ->. cbn in HT. injection HT as _ <-. apply list_lookup_insert_eq. rewrite (ro_threads _ HI). lia.
Qed.

Lemma sumZ_snoc (l : list Z) x : sumZ (fun x => x) (l ++ [x]) = sumZ (fun x => x) l + x.
Proof. rewrite sumZ_app. unfold sumZ. cbn. lia. Qed.

Lemma main_plain w b w' : plain_ok w -> step w (None, b) = Ret w' -> plain_ok w'.
Proof.
  intros HP Hst. pose proof HP as [HI H1 H2 H3 H4 H5 H6 H7 H8]. destruct (step_main_ok w b HI) as (w0 & Hw & HI').
  rewrite Hst in Hw. injection Hw as <-. unfold BenchRun.step, main_step in Hst. cbn [fst snd] in Hst.
  destruct (main w) as [i| | | |i a|a|i| | |i| |i|i|] eqn:Hm; try done; rewrite ?Hcut in Hst; cbn [andb negb] in Hst;
    repeat (match type of Hst with
            | context [if (?x <? ?y)%nat then _ else _] => destruct (Nat.ltb_spec x y)
            | context [deref ?x] => destruct x eqn:?; [|done]; cbn [deref mbind outcome_bind] in Hst
            | context [if decide ?P then _ else _] => destruct (decide P)
            | context [if ?x <=? ?y then _ else _] => destruct (Z.leb_spec x y)
            | context [if ?x then _ else _] => destruct x
            end); injection Hst as <-.
  all: constructor; cbn [go sh main lines running_seconds pre_tp threads with_start with_stop stop_flags_ pause_flags_ stopping] in *; try done; try lia.
  - apply u64_range.
  - rewrite length_app. cbn. lia.
  - rewrite sumZ_snoc. unfold u64 in *. rewrite Z.add_mod_idemp_r, <- H6, (Z.mod_eq (sumZ _ _)) by done. set (S := sumZ _ _).
    replace (S + (a - (S - 2 ^ 64 * (S / 2 ^ 64)))) with (a + S / 2 ^ 64 * 2 ^ 64) by lia. by rewrite Z.mod_add, Z.mod_small.
  - intros j Hj Hjk. destruct (decide (i = j)) as [->|Hne]; [apply list_lookup_insert_eq; by rewrite (ro_stops _ HI)|].
    rewrite list_lookup_insert_ne by done. apply H3; lia.
  - intros j Hj _. apply H3; lia.
  - intros j Hj. destruct (decide (j = i)) as [->|Hne]; [congruence|]. apply H4. lia.
  - intros j Hj. apply H4. lia.
  - by rewrite Hm.
  - by rewrite Hm.
  - by rewrite Hm.
  - by rewrite Hm.
  - by rewrite Hm.
Qed.

Lemma step_plain w who w' : plain_ok w -> step w who = Ret w' -> plain_ok w'.
Proof. destruct who as [[i|] b]; [apply thread_plain|apply main_plain]. Qed.

Lemma run_plain schedule w w' : plain_ok w -> run w schedule = Ret w' -> plain_ok w'.
Proof.
  revert w. induction schedule as [|who schedule IH]; intros w HP HR; cbn [BenchRun.run] in HR; [by injection HR as <-|].
  destruct (step w who) as [w1|] eqn:H1; [|done]. cbn [mbind outcome_bind] in HR. apply (IH w1); [by eapply step_plain|done].
Qed.

Lemma run_app_bench s1 s2 w w1 : run w s1 = Ret w1 -> run w (s1 ++ s2) = run w1 s2.
Proof.
  revert w. induction s1 as [|who s1 IH]; intros w H; cbn [BenchRun.run app] in *; [by injection H as ->|].
  destruct (step w who) as [w0|]; [|done]. cbn [mbind outcome_bind] in *. by apply IH.
Qed.

(** How far a thread with a set stop flag is from its end. *)
Definition left_of (p : tpc) : nat :=
  match p with
  | TBoot => 3
  | TSpin => 2
  | TTop => 1
  | TPause => 2 * async_req_num f + 4
  | TRound r => 2 * r + 2
  | TAdd _ r => 2 * r + 3
  | TExit => 0
  end.

Lemma thread_exits d w i p :
  plain_ok w -> threads w !! i = Some p -> (left_of p <= d)%nat -> stop_flags_ (sh w) !! i = Some true -> start_flag_ (sh w) = true ->
  exists s w', run w s = Ret w' /\ threads w' !! i = Some TExit /\ main w' = main w /\ running_seconds w' = running_seconds w.
Proof.
  revert w p. induction d as [|d IH]; intros w p HP Hp Hd Hst Hsf.
  all: destruct (decide (p = TExit)) as [->|Hne]; [exists [], w; by split_and!|].
  - destruct p; cbn in Hd; lia || done.
  - pose proof (lookup_lt_Some _ _ _ Hp) as Hi. pose proof (po_ok _ HP) as HI. rewrite (ro_threads _ HI) in Hi. pose proof (ro_n _ HI) as Hn.
    destruct (client_step_ok (sh w) i p false (ro_tp _ HI) ltac:(rewrite (ro_stops _ HI); lia) ltac:(lia))
      as (s' & p' & HT & _ & Hs' & Hsf' & _ & _).
    assert (Hstep : step w (Some i, false) = Ret {| sh := s'; main := main w; pre_tp := pre_tp w; running_seconds := running_seconds w;
              stop_thread_id_orders := stop_thread_id_orders w; lines := lines w; threads := <[i := p']> (threads w) |}).
    { unfold BenchRun.step. cbn [fst snd]. by rewrite Hp, HT. }
    assert (Hlt : (left_of p' < left_of p)%nat).
    { destruct p as [| | | |[|r]|v r|]; cbn [thread_step] in HT; rewrite ?Hst, ?Hsf, ?(po_pause _ HP) in HT; cbn in HT;
        injection HT as _ <-; cbn; lia || done. }
    destruct (IH _ p' (step_plain _ _ _ HP Hstep)) as (s & w' & HR & He & Hm & Hr).
    + cbn. apply list_lookup_insert_eq. rewrite (ro_threads _ HI). lia.
    + lia.
    + cbn. by rewrite Hs'.
    + cbn. by rewrite Hsf'.
    + exists ((Some i, false) :: s), w'. cbn [BenchRun.run]. rewrite Hstep. by split_and!.
Qed.

(** How far main is from its end. *)
Definition rank (w : world) : Z :=
  let N := Z.of_nat n in
  let T := 2 * N + 4 + (benchmark_seconds f - running_seconds w) * (N + 5) in
  match main w with
  | MReady i => T + 3 + (N - Z.of_nat i)
  | MBarrier => T + 2
  | MStart => T + 1
  | MSleep => T
  | MSum i _ => T - 1 - Z.of_nat i
  | MPrint _ => T - (N + 2)
  | MEnd => T + 1
  | MStopAll i => N - Z.of_nat i + N + 3
  | MJoin i => N - Z.of_nat i + 1
  | _ => 0
  end.

Definition counted (w : world) : Prop :=
  match main w with MReady i | MSum i _ | MStopAll i | MJoin i => (i <= n)%nat | _ => True end.

Lemma step_counted w who w' : counted w -> step w who = Ret w' -> counted w'.
Proof.
  intros HC Hst. unfold counted in *. destruct who as [[i|] b]; unfold BenchRun.step in Hst; cbn [fst snd] in Hst.
  - destruct (threads w !! i); [|by injection Hst as <-]. destruct (thread_step _ _ _ _ _) as [[s p]|]; [|done]. cbn in Hst.
    by injection Hst as <-.
  - unfold main_step in Hst. destruct (main w) eqn:Hm;
    repeat (match type of Hst with
            | context [if (?x <? ?y)%nat then _ else _] => destruct (Nat.ltb_spec x y)
            | context [deref ?x] => destruct x eqn:?; [|done]; cbn [deref mbind outcome_bind] in Hst
            end); injection Hst as <-; cbn [go main]; repeat case_match; simplify_eq; try done; lia.
Qed.

(** Nothing keeps main waiting. *)
Definition unblocked (w : world) : Prop :=
  match main w with
  | MReady i => (i < n)%nat -> tp (sh w) !! i = Some 0
  | MJoin i => (i < n)%nat -> threads w !! i = Some TExit
  | _ => True
  end.

Lemma main_one w : plain_ok w -> counted w -> unblocked w -> main w <> MDone -> exists w', step w (None, true) = Ret w' /\ rank w' < rank w.
Proof.
  intros HP HC HU Hne. destruct (step_main_ok w true (po_ok _ HP)) as (w' & Hw & _). exists w'. split; [done|].
  pose proof (po_secs _ HP) as Hsec. pose proof (po_main _ HP) as Hmain. unfold BenchRun.step, main_step in Hw. cbn [fst snd] in Hw.
  unfold rank, counted, unblocked in *. destruct (main w) as [i| | | |i a|a|i| | |i| |i|i|] eqn:Hm; try done;
    rewrite ?Hcut in Hw; cbn [andb negb] in Hw.
  1: destruct (Nat.ltb_spec i n); [rewrite HU in Hw by done; cbn in Hw|].
  6: destruct (Nat.ltb_spec i n); [destruct (tp (sh w) !! i); [cbn [deref mbind outcome_bind] in Hw|done]|].
  10: destruct (Nat.ltb_spec i n).
  12: destruct (Nat.ltb_spec i n); [rewrite HU in Hw by done; cbn in Hw|].
  9: destruct (Z.leb_spec (benchmark_seconds f) (running_seconds w)).
  all: injection Hw as <-; cbn [go main running_seconds]; lia || nia.
Qed.

(** The threads can always bring main on. *)
Lemma unblock_main w :
  plain_ok w -> exists s w1, run w s = Ret w1 /\ unblocked w1 /\ main w1 = main w /\ running_seconds w1 = running_seconds w.
Proof.
  intros HP. pose proof (po_ok _ HP) as HI. pose proof (ro_n _ HI) as Hn.
  assert (Hstay : unblocked w -> exists s w1, run w s = Ret w1 /\ unblocked w1 /\ main w1 = main w /\ running_seconds w1 = running_seconds w)
    by (intros HU; exists [], w; by split_and!).
  unfold unblocked at 1 in Hstay. destruct (main w) as [i| | | | | | | | | | | |i|] eqn:Hm; auto.
  - destruct (decide (i < n)%nat) as [Hi|Hi]; [|apply Hstay; lia].
    destruct (lookup_lt_is_Some_2 (threads w) i) as [p Hp]; [rewrite (ro_threads _ HI); lia|].
    destruct (ro_early _ HI i p ltac:(by rewrite Hm) Hp) as [->|[-> Hz]]; [|by apply Hstay].
    eexists [(Some i, true)], _. cbn [BenchRun.run BenchRun.step fst snd]. rewrite Hp. cbn [thread_step mbind outcome_bind].
    split_and!; [done| |done|done]. unfold unblocked. cbn [main]. rewrite Hm. intros _. cbn. apply list_lookup_insert_eq.
    rewrite (ro_tp _ HI). lia.
  - destruct (decide (i < n)%nat) as [Hi|Hi]; [|apply Hstay; lia].
    destruct (lookup_lt_is_Some_2 (threads w) i) as [p Hp]; [rewrite (ro_threads _ HI); lia|].
    destruct (thread_exits _ w i p HP Hp (le_n _)) as (s & w1 & HR & He & Hm1 & Hr1).
    + apply (po_stop _ HP); [done|]. by rewrite Hm.
    + apply not_false_is_true. intros E. apply (ro_start _ HI) in E. by rewrite Hm in E.
    + exists s, w1. split_and!; [done| |congruence|done]. unfold unblocked. rewrite Hm1, Hm. by intros _.
Qed.

Lemma run_counted schedule w w' : counted w -> run w schedule = Ret w' -> counted w'.
Proof.
  revert w. induction schedule as [|who schedule IH]; intros w HC HR; cbn [BenchRun.run] in HR; [by injection HR as <-|].
  destruct (step w who) as [w1|] eqn:H1; [|done]. apply (IH w1); [by eapply step_counted|done].
Qed.

Lemma main_advances_run w :
  plain_ok w -> counted w -> main w <> MDone -> exists s w', run w s = Ret w' /\ rank w' < rank w.
Proof.
  intros HP HC Hne. destruct (unblock_main w HP) as (s & w1 & HR & HU & Hm & Hs).
  destruct (main_one w1 (run_plain _ _ _ HP HR) (run_counted _ _ _ HC HR) HU) as (w2 & Hw2 & Hlt); [congruence|].
  exists (s ++ [(None, true)]), w2. split.
  - rewrite (run_app_bench _ _ _ _ HR). cbn [BenchRun.run]. by rewrite Hw2.
  - unfold rank in *. rewrite Hm, Hs in Hlt. done.
Qed.

Lemma rank_nonneg w : plain_ok w -> counted w -> 0 <= rank w.
Proof.
  intros HP HC. pose proof (po_secs _ HP) as Hs. unfold rank, counted in *. destruct (main w); nia.
Qed.

Lemma run_to_done d w :
  plain_ok w -> counted w -> (Z.to_nat (rank w) <= d)%nat -> exists s w', run w s = Ret w' /\ main w' = MDone.
Proof.
  revert w. induction d as [|d IH]; intros w HP HC Hd; (destruct (decide (main w = MDone)) as [E|E]; [by exists [], w|]);
    destruct (main_advances_run w HP HC E) as (s & w1 & HR & Hlt);
    pose proof (rank_nonneg w1 (run_plain _ _ _ HP HR) (run_counted _ _ _ HC HR)).
  - lia.
  - destruct (IH w1 (run_plain _ _ _ HP HR) (run_counted _ _ _ HC HR)) as (s2 & w2 & HR2 & Hm2); [lia|].
    exists (s ++ s2), w2. by rewrite (run_app_bench _ _ _ _ HR).
Qed.
End Runs.

(** No step of Run fails, with or without cut-off: in particular no thread is taken
    from an empty list. *)
Theorem bench_run_no_error f w schedule :
  (0 < thread_count f)%nat -> start f = Ret w -> exists w', run f w schedule = Ret w'.
Proof. intros Hn Hs. destruct (run_run_ok f schedule w (start_run_ok f w Hn Hs)) as (w' & Hw & _). by exists w'. Qed.

(** [C40] Without cut-off, from every state that is reached: if the barrier lets the
    client pass, the run can come to its end.  Then all threads have returned, one
    line per second was printed, and the numbers on the lines add up, in 64 bits, to
    the last sum of the counters. *)
Theorem bench_run_finishes f w schedule w1 :
  (0 < thread_count f)%nat -> thread_cut_off f = false -> 0 < benchmark_seconds f -> start f = Ret w -> run f w schedule = Ret w1 ->
  exists s w2, run f w1 s = Ret w2 /\ main w2 = MDone /\ Forall (fun p => p = TExit) (threads w2) /\
    Z.of_nat (length (lines w2)) = benchmark_seconds f /\ u64 (sumZ (fun x => x) (lines w2)) = pre_tp w2.
Proof.
  intros Hn Hc Hb Hs HR. pose proof (run_plain f Hc schedule w w1 (start_plain f w Hn Hb Hs) HR) as HP.
  assert (HC : counted f w1).
  { eapply run_counted; [|exact HR]. unfold start in Hs. destruct (_ <=? _)%nat; [|done]. cbn in Hs. injection Hs as <-. cbn. lia. }
  destruct (run_to_done f Hc _ w1 HP HC (le_n _)) as (s & w2 & HR2 & Hm). exists s, w2. split; [done|]. split; [done|].
  pose proof (run_plain f Hc s w1 w2 HP HR2) as HP2. pose proof (po_ok _ _ HP2) as HI. split_and!.
  - apply Forall_lookup. intros i p Hi. pose proof (lookup_lt_Some _ _ _ Hi) as Hlt. rewrite (ro_threads _ _ HI) in Hlt.
    pose proof (po_join _ _ HP2 i) as Hj. rewrite Hm in Hj. specialize (Hj Hlt). congruence.
  - rewrite (po_lines _ _ HP2). pose proof (po_secs _ _ HP2) as H. by rewrite Hm in H.
  - exact (po_sum _ _ HP2).
Qed.

(** With cut-off a counter that main has cleared can come back: the thread has read
    it before and stores it afterwards. *)
Definition cut_flags : Flags := {| thread_count := 3; async_req_num := 2; thread_cut_off := true; benchmark_seconds := 0 |}.

Definition in_round (v : Z) : world :=
  {| sh := {| tp := [v; 0; 0]; start_flag_ := true; stop_flags_ := [false; true; true]; pause_flags_ := true |};
     main := MReset 0; pre_tp := v; running_seconds := 30; stop_thread_id_orders := [0%nat]; lines := [];
     threads := [TRound 2; TExit; TExit] |}.

Theorem cleared_counter_comes_back v :
  0 <= v < 2 ^ 64 - 1 ->
  exists w, run cut_flags (in_round v) [(Some 0%nat, true); (None, true); (None, true); (None, true); (None, true); (Some 0%nat, true)] = Ret w /\
    main w = MEnd /\ pre_tp w = 0 /\ tp (sh w) !! 0%nat = Some (v + 1).
Proof.
  intros Hv. eexists. cbn. split; [done|]. cbn. split_and!; [done|done|]. by rewrite u64_small by lia.
Qed.

(** ** Witnesses *)

Definition two_threads (cut : bool) : Flags := {| thread_count := 2; async_req_num := 1; thread_cut_off := cut; benchmark_seconds := 2 |}.

Definition started (fl : Flags) (s : list (option nat * bool)) : world :=
  match start fl with Ret w => match run fl w s with Ret w' => w' | Err _ => w end | Err _ => in_round 0 end.

Lemma bench_run_finishes_witness :
  exists s w2, run (two_threads false) (started (two_threads false) [(Some 0%nat, true); (None, true)]) s = Ret w2 /\ main w2 = MDone /\
    Forall (fun p => p = TExit) (threads w2) /\ Z.of_nat (length (lines w2)) = 2 /\ u64 (sumZ (fun x => x) (lines w2)) = pre_tp w2.
Proof.
  apply (bench_run_finishes (two_threads false) (started (two_threads false) []) [(Some 0%nat, true); (None, true)]).
  - cbn. lia.
  - reflexivity.
  - reflexivity.
  - vm_compute. reflexivity.
  - vm_compute. reflexivity.
Defined.

Lemma bench_run_no_error_witness : exists w', run (two_threads true) (started (two_threads true) []) [(None, true); (Some 1%nat, false)] = Ret w'.
Proof.
  apply (bench_run_no_error (two_threads true)).
  - cbn. lia.
  - vm_compute. reflexivity.
Defined.
