(* ===== verification/PmAllocator.v ===== *)
(** * The allocator over PMDK (kv_engine/pm_allocator.h)

    [Allocate] takes a block of PMDK that is 48 bytes larger and returns the address
    48 bytes behind its start; [Free] gives the address itself back to PMDK;
    [PMAllocator] is the interface of the containers, whose [deallocate] does
    nothing.  PMDK is a parameter: its pool has live blocks, an allocation gives a
    new one that is apart from the others, and only the start of a live block may be
    freed.

    The theorems: the ranges that are handed out are apart from each other and, if
    the blocks of PMDK start 16 bytes behind a cache line, aligned to cache lines;
    no range that was handed out can be freed. *)

From stdpp Require Import base numbers list.
From Stdlib Require Import ZArith Lia.
From S2P Require Import Prelude MallocApi.

(** What is used of PMDK: [blocks] are the live objects of the pool, address and
    size. *)
Class Pmdk (P : Type) := {
  blocks : P -> list (Z * Z);
  pmemobj_zalloc : P -> Z -> option (P * Z);
  pmemobj_free : P -> Z -> option P
}.

Class PmdkLaws (P : Type) `{!Pmdk P} : Prop := {
  zalloc_block p n p' a : pmemobj_zalloc p n = Some (p', a) -> blocks p' = (a, n) :: blocks p;
  zalloc_new p n p' a x : pmemobj_zalloc p n = Some (p', a) -> x ∈ blocks p -> sep (a, n) x;
  zalloc_line p n p' a : pmemobj_zalloc p n = Some (p', a) -> a mod 64 = 16;
  free_block p a : is_Some (pmemobj_free p a) -> exists n, (a, n) ∈ blocks p
}.

Module PmAllocator.
Definition kPMDK_PADDING : Z := 48.

(** The pool and the counter [mem]. *)
Record allocator (P : Type) := Build_allocator { pm_pool_ : P; mem : Z }.
Arguments Build_allocator {P}.
Arguments pm_pool_ {P}.
Arguments mem {P}.

Section Allocator.
Context {P : Type} `{!Pmdk P}.

(** [Initialize], with the pool that was created or opened. *)
Definition Initialize (pool : P) : allocator P := {| pm_pool_ := pool; mem := 0 |}.

(** When PMDK has no memory the identifier that is dereferenced was never set. *)
Definition Allocate (al : allocator P) (size : Z) : outcome (allocator P * Z) :=
  '(p, direct) ← deref (pmemobj_zalloc (pm_pool_ al) (u64 (size + kPMDK_PADDING)));
  Ret ({| pm_pool_ := p; mem := u64 (mem al + u64 (size + kPMDK_PADDING)) |}, direct + kPMDK_PADDING).

Definition Free (al : allocator P) (addr : Z) : outcome (allocator P) :=
  p ← deref (pmemobj_free (pm_pool_ al) addr);
  Ret {| pm_pool_ := p; mem := mem al |}.

(** [PMAllocator<T>] for a type of [sizeof_T] bytes. *)
Definition allocate (sizeof_T : Z) (al : allocator P) (numObjs : Z) : outcome (allocator P * Z) := Allocate al (u64 (sizeof_T * numObjs)).
Definition deallocate (al : allocator P) (p numObjs : Z) : allocator P := al.

(** A sequence of allocations, and the ranges that they give. *)
Fixpoint allocate_all (al : allocator P) (sizes : list Z) : outcome (allocator P * list (Z * Z)) :=
  match sizes with
  | [] => Ret (al, [])
  | size :: sizes' =>
      '(al, a) ← Allocate al size;
      '(al, ranges) ← allocate_all al sizes';
      Ret (al, (a, size) :: ranges)
  end.
End Allocator.
End PmAllocator.

Import PmAllocator.

Section Laws.
Context {P : Type} `{!Pmdk P, !PmdkLaws P}.

Lemma Allocate_block al size al' a :
  0 <= size < 2 ^ 63 -> Allocate al size = Ret (al', a) ->
  blocks (pm_pool_ al') = (a - 48, size + 48) :: blocks (pm_pool_ al) /\ a mod 64 = 0 /\ mem al' = u64 (mem al + (size + 48)) /\
  (forall x, x ∈ blocks (pm_pool_ al) -> sep (a - 48, size + 48) x).
Proof.
  intros Hs HA. unfold Allocate, kPMDK_PADDING in HA. rewrite (u64_small (size + 48)) in HA by lia.
  destruct (pmemobj_zalloc (pm_pool_ al) (size + 48)) as [[p d]|] eqn:Hz; [|done]. cbn in HA. injection HA as <- <-. cbn [pm_pool_ mem].
  replace (d + 48 - 48) with d by lia. split_and!; [by eapply zalloc_block| |done|intros x; by eapply zalloc_new].
  rewrite <- Z.add_mod_idemp_l, (zalloc_line _ _ _ _ Hz) by done. reflexivity.
Qed.

(** The ranges of a sequence of allocations lie in new blocks. *)
Lemma allocate_all_blocks sizes al al' ranges :
  Forall (fun n => 0 <= n < 2 ^ 63) sizes -> allocate_all al sizes = Ret (al', ranges) ->
  ranges.*2 = sizes /\
  blocks (pm_pool_ al') ≡ₚ ((fun r => (r.1 - 48, r.2 + 48)) <$> ranges) ++ blocks (pm_pool_ al) /\
  (forall i x y, ranges !! i = Some x -> y ∈ blocks (pm_pool_ al) -> sep (x.1 - 48, x.2 + 48) y) /\
  (forall i j x y, i <> j -> ranges !! i = Some x -> ranges !! j = Some y -> sep (x.1 - 48, x.2 + 48) (y.1 - 48, y.2 + 48)) /\
  Forall (fun r => r.1 mod 64 = 0) ranges /\
  u64 (mem al') = u64 (mem al + sumZ (fun n => n + 48) sizes).
Proof.
  intros HF. revert al al' ranges. induction HF as [|size sizes Hs HF IH]; intros al al' ranges HA; cbn [allocate_all] in HA.
  - injection HA as <- <-. split_and!; try done. unfold sumZ. cbn. by rewrite Z.add_0_r.
  - destruct (Allocate al size) as [[al1 a]|] eqn:H1; [|done]. cbn [mbind outcome_bind] in HA.
    destruct (allocate_all al1 sizes) as [[al2 rs]|] eqn:H2; [|done]. cbn in HA. injection HA as <- <-.
    destruct (Allocate_block al size al1 a Hs H1) as (Hb & Hal & Hmem & Hnew). destruct (IH al1 al2 rs H2) as (Ih1 & Ih2 & Ih3 & Ih4 & Ih5 & Ih6).
    assert (Ha : (a - 48, size + 48) ∈ blocks (pm_pool_ al1)) by (rewrite Hb; apply list_elem_of_here).
    split_and!.
    + cbn. by rewrite Ih1.
    + rewrite Ih2, Hb. cbn. by rewrite Permutation_middle.
    + intros [|i] x y Hx Hy; cbn in Hx; [injection Hx as <-; by apply Hnew|]. apply (Ih3 i x y Hx). rewrite Hb. by apply list_elem_of_further.
    + intros [|i] [|j] x y Hij Hx Hy; cbn in Hx, Hy; [done| | |].
      * injection Hx as <-. by apply sep_sym, (Ih3 j y).
      * injection Hy as <-. by apply (Ih3 i x).
      * apply (Ih4 i j); [congruence|done|done].
    + by constructor.
    + rewrite Ih6, Hmem. unfold u64. rewrite Z.add_mod_idemp_l by done. unfold sumZ. cbn. f_equal. lia.
Qed.
End Laws.

(** Allocations: their ranges are apart from each other and from what was there, and
    start at cache lines; the counter is the sum of the sizes with the padding. *)
Theorem PmAllocator_ranges {P} `{!Pmdk P, !PmdkLaws P} pool sizes (al' : allocator P) ranges :
  Forall (fun n => 0 <= n < 2 ^ 63) sizes -> allocate_all (Initialize pool) sizes = Ret (al', ranges) ->
  ranges.*2 = sizes /\ Forall (fun r => r.1 mod 64 = 0) ranges /\
  (forall i j x y, i <> j -> ranges !! i = Some x -> ranges !! j = Some y -> sep x y) /\
  (forall i x y, ranges !! i = Some x -> y ∈ blocks pool -> sep x y) /\
  u64 (mem al') = u64 (sumZ (fun n => n + 48) sizes).
Proof.
  intros HF HA. destruct (allocate_all_blocks sizes _ al' ranges HF HA) as (H1 & _ & H3 & H4 & H5 & H6). split_and!; [done|done| | |done].
  - intros i j x y Hij Hx Hy. pose proof (H4 i j x y Hij Hx Hy) as H. unfold sep in *. cbn [fst snd] in *. lia.
  - intros i x y Hx Hy. pose proof (H3 i x y Hx Hy) as H. unfold sep in *. cbn [fst snd] in *. lia.
Qed.

(** [Free] of a range that [Allocate] has handed out: the address is inside of the
    block and not its start, and the call is not allowed. *)
Theorem PmAllocator_Free_undefined {P} `{!Pmdk P, !PmdkLaws P} (al al' : allocator P) size a :
  0 < size < 2 ^ 63 -> (forall x, x ∈ blocks (pm_pool_ al) -> 0 < x.2) -> Allocate al size = Ret (al', a) -> Free al' a = Err Undefined.
Proof.
  intros Hs Hpos HA. destruct (Allocate_block al size al' a ltac:(lia) HA) as (Hb & _ & _ & Hnew). unfold Free.
  destruct (pmemobj_free (pm_pool_ al') a) as [p|] eqn:Hf; [|done]. exfalso.
  destruct (free_block (pm_pool_ al') a) as [n Hn]; [by exists p|]. rewrite Hb in Hn. apply elem_of_cons in Hn as [E|Hn].
  - injection E as E _. lia.
  - specialize (Hnew _ Hn). specialize (Hpos _ Hn). unfold sep in Hnew. cbn [fst snd] in *. lia.
Qed.

(** ** A pool that never reuses memory *)

Fixpoint bump_next (p : list nat) : Z := match p with [] => 16 | n :: p' => bump_next p' + 64 * (Z.of_nat n + 1) end.
Fixpoint bump_blocks (p : list nat) : list (Z * Z) :=
  match p with [] => [] | n :: p' => (bump_next p', Z.of_nat n) :: bump_blocks p' end.

#[local] Instance bump : Pmdk (list nat) := {|
  blocks := bump_blocks;
  pmemobj_zalloc p n := if 0 <=? n then Some (Z.to_nat n :: p, bump_next p) else None;
  pmemobj_free p a := if decide (a ∈ (bump_blocks p).*1) then Some p else None
|}.

Lemma bump_line p : bump_next p mod 64 = 16.
Proof.
  induction p as [|n p IH]; [done|]. cbn [bump_next]. rewrite Z.mul_comm, Z.mod_add by done. exact IH.
Qed.

Lemma bump_below p x : x ∈ bump_blocks p -> x.1 + x.2 <= bump_next p /\ 0 <= x.2.
Proof.
  induction p as [|n p IH]; intros Hx; [by apply elem_of_nil in Hx|]. cbn [bump_blocks bump_next] in *.
  apply elem_of_cons in Hx as [->|Hx]; [cbn; lia|]. apply IH in Hx. lia.
Qed.

#[local] Instance bump_laws : PmdkLaws (list nat).
Proof.
  constructor; cbn.
  - intros p n p' a H. destruct (Z.leb_spec 0 n); [|done]. injection H as <- <-. cbn. by rewrite Z2Nat.id.
  - intros p n p' a x H Hx. destruct (Z.leb_spec 0 n); [|done]. injection H as <- <-. apply bump_below in Hx. unfold sep. cbn [fst snd]. lia.
  - intros p n p' a H. destruct (Z.leb_spec 0 n); [|done]. injection H as <- <-. apply bump_line.
  - intros p a [p' H]. case_decide as Hin; [|done]. apply list_elem_of_fmap in Hin as ([a' n] & -> & Hin). by exists n.
Qed.

Lemma PmAllocator_ranges_witness :
  [(64, 10); (3840, 20)].*2 = [10; 20] /\ Forall (fun r => r.1 mod 64 = 0) [(64, 10); (3840, 20)] /\
  (forall i j x y, i <> j -> [(64, 10); (3840, 20)] !! i = Some x -> [(64, 10); (3840, 20)] !! j = Some y -> sep x y) /\
  (forall i x y, [(64, 10); (3840, 20)] !! i = Some x -> y ∈ blocks (P := list nat) [] -> sep x y) /\
  u64 126 = u64 (sumZ (fun n => n + 48) [10; 20]).
Proof.
  apply (PmAllocator_ranges (P := list nat) [] [10; 20] {| pm_pool_ := [68%nat; 58%nat]; mem := 126 |} [(64, 10); (3840, 20)]).
  - repeat constructor; lia.
  - vm_compute. reflexivity.
Defined.

Lemma PmAllocator_Free_undefined_witness :
  Free (P := list nat) {| pm_pool_ := [58%nat]; mem := 58 |} 64 = Err Undefined.
Proof.
  apply (PmAllocator_Free_undefined (P := list nat) {| pm_pool_ := []; mem := 0 |} _ 10 64).
  - lia.
  - intros x Hx. by apply elem_of_nil in Hx.
  - vm_compute. reflexivity.
Defined.
